(* ===== verification/_CoqProject ===== *)
-Q . S2P
Prelude.v
Calendar.v
Cron.v
Timing.v
Scheduler.v
SchedulerTheorems.v
Sessions.v
Hashing.v
Password.v
OAuth.v
OAuthTheorems.v
Uploads.v
PathAccess.v
Capability.v
DomainRules.v
Dict.v
Tokens.v
TokenStore.v
TokenStoreTheorems.v
Dispatcher.v
Sql.v
JsonText.v
Conversation.v
PosixPath.v
ScopeTheorems.v
Context.v
Plans.v
ContextTheorems.v
Memory.v
MemoryTheorems.v
Completion.v
CompletionTheorems.v
Binary64.v
FunctionGrants.v
FunctionGrantsTheorems.v
TaskOutput.v
TaskHistory.v
TaskRegistry.v
Environment.v
Mappings.v
TextEdit.v
FileSystem.v
Recycle.v
Mutation.v
MutationTheorems.v
MutationAtomic.v
LargeRange.v
StructuredPatch.v
DataView.v
