(* ===== verification/Prelude.v ===== *)
(** * OpenKapsel: a verification of the server's stores and policies

    OpenKapsel is a Python server that gives remote agents capability-bounded
    access to workspaces.  Around an HTTP and MCP front end it keeps several
    stores: tokens (who may do what), OAuth connections, administrator sessions,
    workspace passwords and time-bound capability grants, resumable uploads, client
    mappings, shell environments, running and archived shell tasks, and scheduled
    tasks, and it decides on every file and network access by rules.
    File changes run as transactions with a recycle bin.  What agents do is kept in
    each workspace's context (operations, plans, notes, conversations) and what they
    learn in its memory.  This library models those stores, rules and transactions,
    from the sources under src/openkapsel, and proves what makes them correct.

    ** Files, and the code they model

    - Prelude: results with exceptions, JSON values, Python strings (one character
      per code point below 256) and shared automation; this file.
    - Calendar: the parts of [datetime] that the program uses (ordinals, ISO texts).
    - Cron, Timing: cron expressions, [next_after] and [validate_timing] of
      execution/scheduler_store.py.  The IANA zone database is a parameter; class
      [ZoneLaws] states what is used of a zone: that [fold] tells apart the instants
      of a local time.
    - Scheduler: class [ScheduleStore] of the same file, the two SQLite tables as
      finite maps, one definition per method; SchedulerTheorems: its properties and
      those of Cron.
    - Dispatcher: class [SchedulerManager] of execution/scheduler.py, which drives
      those stores: the heap of due times, the loop of its thread, the execution of
      a claim and its watcher.  The token registry, the context store and the shell
      answer through a record [env].
    - Sessions: server_runtime/admin_sessions.py ([AdminSessions] and
      [AdminLoginLimiter], a Module each).
    - Hashing, Password: UTF-8, SHA-256, HMAC, PBKDF2 and Base64, executable, and
      auth/security.py on top of them.
    - OAuth, OAuthTheorems: auth/oauth_store.py, the five tables as finite maps.
    - Uploads: files/uploads.py with its state directory; write failures are
      arguments of the operations.
    - PathAccess: auth/path_access.py (without the directory walk of
      [existing_pattern_masks]).
    - Capability: auth/capability_grants.py.
    - Binary64, FunctionGrants, FunctionGrantsTheorems: auth/function_grants.py, the
      authorizations that clients give to their functions; Binary64 rounds the sums
      of its float clock.
    - DomainRules: the rule functions of execution/network_proxy.py.
    - Dict: insertion-ordered dictionaries.
    - Tokens, TokenStore, TokenStoreTheorems: auth/tokens.py and random_ids.py; the
      records, their validation and JSON form, then the registry in a state monad
      whose state survives exceptions, then its theorems.  The file system and the
      workspace layout are the class [Workspaces], with laws in [WorkspacesLaws].
    - TextEdit: the text edits of files/mutation.py (line windows, markers,
      replacements, insertions), on lists of characters.
    - FileSystem: directory trees, system calls under an oracle of faults, the
      access layer of files/safe_paths.py, and a program logic for them ([wp],
      [looks], [touches]).
    - Recycle: files/recycle.py and the parts of workspace/workspace_layout.py it
      uses.
    - Mutation, MutationTheorems, MutationAtomic: [execute_mutation] of
      files/mutation.py with files/text_encoding.py and the transaction hooks of
      files/file_handlers.py; the invariant of a running transaction; the theorem
      about whole requests.  Codecs, JSON documents, structured patches, path
      resolution and storage mappings are parameters.
    - Sql: tables as lists of rows in insertion order, with the fragments of
      SELECT, UPDATE and LIKE that the context stores use; JsonText: [json.dumps] as
      the request fingerprints use it, and that equal texts mean equal values.
    - Conversation: context/conversation.py, the conversations of a workspace, their
      writer nonces, the summary rule and the ledger of creations.
    - PosixPath, ScopeTheorems: [posixpath.normpath] and the scopes of
      context/memory_store.py ([_normalize_path], [_common_path], [_paths_overlap]),
      and when two scopes overlap.
    - Context, Plans, ContextTheorems: class [ContextStore] of
      context/context_store.py, the requests for plans of context/context_plans.py,
      and the properties of both.
    - Memory, MemoryTheorems: class [MemoryStore] of context/memory_store.py.
    - Completion, CompletionTheorems: the debrief of a finished plan
      ([_apply_memory_debrief] and [_plan_memory_path] of context/memory_handlers.py)
      and the completion branch of [_handle_context_plan_update] of
      server_runtime/context_http.py, a transaction on the context database around
      one on the memory database, with failures of either database as an argument.
      The place of a path among mappings and storage
      mounts is the parameter [virtual_scope].
    - TaskOutput: the bounded output of shell tasks and the copying of their pipes
      (execution/tasks.py), archived output (execution/task_history.py) and the event
      stream of a task (server_runtime/task_http.py).
    - TaskHistory: class [TaskHistoryStore] of execution/task_history.py; the names in
      a directory come in any order, the parameter [iterdir].
    - TaskRegistry: class [TaskRegistry] of execution/tasks.py over that history, with
      the last steps of the worker threads as steps of their own.
    - Environment: execution/environment_store.py, and the part of a POSIX shell that
      reads the file it generates ([source_file]); a name
      that a shell does not accept fails there.
    - Mappings: mapping/mapping_store.py, the registry of client directories.
    - LargeRange: [read_large_range] and [replace_large_range] of files/mutation.py.
    - StructuredPatch: the pointers and patch operations of
      rpc_plugins/structured/__init__.py.
    - DataView: [json_view] of rpc_plugins/_data.py, the JSON view of a parsed document.

    ** How state and effects are modelled

    Every store is a record; an operation takes the state and its arguments and
    returns the new state with a value or an exception ([res]).  Clocks, random
    identifiers and I/O failures are arguments or, in TokenStore, oracles held in
    the state.  Locks make every operation atomic in the source, so interleavings
    are sequences of operations: each component has an [op] type, [exec] and a
    reachability predicate, and its invariants are proved by induction on it.
    Instants are microseconds (Z); SQLite's text timestamps are instants because
    ISO texts of UTC instants sort and read back like them ([iso_text_order],
    [parse_datetime_iso]).  In FileSystem every system call takes one event from an
    oracle: what other processes did, whether the call fails, and the values the
    kernel picks; the theorems on files quantify over all oracles in which nobody
    else writes ([alone]) and any calls fail.  In TaskRegistry tasks are objects of a
    heap, since a worker keeps its task after the registry has dropped the id.

    ** What the theorems show

    - Schedules: executions of a schedule never overlap, an occurrence is claimed
      once, quotas and history stay bounded, completed schedules stay completed,
      updates are compare-and-set; [next_after] is the first occurrence by local date,
      the earliest where the date does not go back, and finds one when there is one;
      accepted expressions fire at least three minutes apart.
    - The dispatcher never sleeps past a due schedule, serves the earliest first,
      catches up with any backlog, and every run it claims is ended or watched; a
      schedule whose next occurrence cannot be computed stops it.
    - OAuth: codes are single-use, refresh reuse revokes the grant, access tokens
      live exactly as long as promised, the tables stay sound.
    - Tokens: the credential indexes refine one abstract registry under every
      request and failure; renewal replaces both credentials or changes nothing;
      replayed nonces are refused; accepted records are confined to their
      workspace and survive a save and load.
    - Capability grants: nothing is granted without the password or the bound
      browser; guesses are bounded; scopes contain what they authorise.
    - Function grants: what is handed out was granted by the client for that very
      workspace, conversation, target and function and its approved time is not over;
      a confirmed approval stores what the confirming browser was shown.
    - Uploads: what is confirmed is what is stored, also across a crash, within
      the disk budget; a chunk whose metadata could not be saved counts until a
      restart.
    - Path and network rules: the evaluation equals a declarative reading and does
      not depend on rule order.
    - Files: a mutation request is applied completely or not at all whatever call
      fails, and what it writes is what its items ask for; a deleted path is kept
      in its entry of the bin and comes back as it was, except one with the name of the
      metadata of the entry; replacements touch exactly the matched text.
    - Sessions and passwords: exact lifetimes, the limiter's rule, hash round trip.
    - Conversations are numbered without gaps, append-only and summarised every
      fifty entries; repeating a creation returns the first one.
    - Context: the tables stay sound under every request and trimming, references
      lead to stored earlier plans, a request for plans is carried out once, a
      revision is updated once, a plan closes only over closed descendants, and a
      text search finds exactly the entries that mention the text.
    - Memory: the history of every memory is complete and append-only and ends with
      what reading returns; scopes overlap when one directory contains the other.
    - Completion: a failed completion changes neither database, except that memory
      keeps the debrief when the last write of the context database fails; a completed
      plan is on record in both, with one new memory for every item; what the
      check before the memory transaction accepts the transaction carries out; the
      scope of a plan takes in all of its operations.
    - Tasks: the workers at work stay within the limits; a client that follows the
      offsets misses only what is announced as a gap; lines that look like a launch of
      the sandbox are replaced however the output is cut; what a task wrote is found by
      its owner after it has been archived, for as long as the configuration promises;
      the event stream of a finished task stops after one chunk of each output.
    - Environment: the generated shell file exports exactly the stored variables,
      whatever their characters, when its document is within the size that is read
      back; a configuration whose escapes make its document too
      long is stored and cannot be read back.
    - Mappings: references are never ambiguous as long as changes of a mapping do not
      overlap; the credential of a mapping survives
      moves; a move with a new name may be refused for the old one.
    - Large files: replacing a range is compare and swap, all or nothing under any
      pattern of partial and failing writes.
    - Structured documents: an edit changes its target only and can be undone; the
      annotated pointers lead to exactly the dates, times and integers that JSON does
      not express.

    ** Bounds and fuel

    [next_from] scans the eight years of MAX_SCHEDULE_LOOKAHEAD_DAYS, as the source
    does.  [write_loop], [read_loop] and [draw_loop] take the length of their input
    plus one as fuel: each round consumes at least one byte or one random value.
    A drawing loop that the given random values do not end is [Drawing], not a
    result.  [_remove_tree] recurses at most as deep as the tree has entries, which
    is enough ([remove_tree_terminates]); [count_from] and [replace_from] take the
    length of the text plus one.  [descend], [root_loop] and [scope_pages] take the
    length of the table plus one: every round but the last finds a row not seen
    before ([plan_scope_complete] proves that the pages end; a chain of parents has
    decreasing ids).  [tree_rounds] goes down max_depth levels, as the source does.
    [take_lines] takes the length of the pending bytes plus one and [source_file] the
    length of the file plus one, as each round consumes a line; the [read_loop] of
    LargeRange takes the requested length, as each read returns a byte or ends it;
    [allocate] and [draw_id] try 128 and 32 times, as the source does.

    ** Not modelled

    Socket, process and kernel glue (HTTP dispatch, sandboxes, cgroups, FUSE,
    mounts, the client agent), adapters to external programs (git, SSH, archives),
    HTML and documentation texts, and read-only listings.  In trees, symbolic links
    are opaque nodes and the times of parent directories are not kept; concurrent
    writers are outside the theorems on files.  The upgrades of databases written
    by older versions and the request parsing around the context stores are left
    out.  Parsing and printing of YAML, TOML and JSON documents is left to the libraries
    that do it, processes and signals to the operating system.  What is left are such
    interfaces and the glue around the modelled parts; the storage providers, the
    transfers of the mapping clients and the directory listings would come next. *)

(** ** Shared vocabulary *)

From Stdlib Require Import ZArith QArith Lia Ascii String.
From stdpp Require Import base tactics list list_numbers sorting gmap strings pretty fin_maps.

Local Open Scope Z_scope.

(** ** Results: a value or a raised exception *)

Inductive res (E A : Type) : Type :=
| Ok (a : A)
| Err (e : E).
Arguments Ok {_ _} _.
Arguments Err {_ _} _.

Declare Scope py_scope.
Delimit Scope py_scope with py.

(** [let! x := m in k] continues with the value of [m] and propagates its
    exception; [raise! e when b; k] is an early [raise] guarded by [b]. *)
Notation "'let!' x ':=' m 'in' k" :=
  (match m with Ok x => k | Err e => Err e end)
  (at level 10, x pattern, m at level 100, k at level 200) : py_scope.

Notation "'raise!' e 'when' b ';' k" :=
  (if b then Err e else k)
  (at level 10, e at level 9, b at level 100, k at level 200) : py_scope.

Open Scope py_scope.

(** The Python exceptions the components raise.  [RequestConflict] stands for the
    two subclasses of [ValueError] that carry an error code
    ([ConversationRequestConflict], [PlanRequestConflict]). *)
Inductive exn : Type :=
| ScheduleError (msg : string)
| KeyError (msg : string)
| ValueError (msg : string)
| TypeError
| OverflowError
| AttributeError
| AssertionError
| IntegrityError
| PermissionError (msg : string)
| RuntimeError (msg : string)
| RequestConflict (code msg : string).

(** [ApiError] of src/openkapsel/errors.py, without its message: what a request
    handler answers. *)
Record ApiError := { http_status : Z; error_code : string }.
Definition api_error (http : Z) (code : string) : ApiError :=
  {| http_status := http; error_code := code |}.

(** ** JSON values, as the request handlers receive them *)

Inductive json : Type :=
| JNull
| JBool (b : bool)
| JInt (n : Z)
| JFloat (q : Q)
| JStr (s : string)
| JList (l : list json)
| JObj (fields : list (string * json)).

(** [obj.get(key)], [None] when the key is missing. *)
Fixpoint obj_get (key : string) (fields : list (string * json)) : option json :=
  match fields with
  | [] => None
  | (k, v) :: rest => if String.eqb k key then Some v else obj_get key rest
  end.

(** [obj.get(key, default)] *)
Definition obj_get_or (key : string) (default : json) (fields : list (string * json)) : json :=
  match obj_get key fields with Some v => v | None => default end.

(** Membership of a JSON value in a set of strings: hashing a list or an object
    raises [TypeError]. *)
Definition in_strings (v : json) (l : list string) : res exn bool :=
  match v with
  | JStr s => Ok (bool_decide (s ∈ l))
  | JList _ | JObj _ => Err TypeError
  | _ => Ok false
  end.

(** ** Tactics and automation *)

(** [split_match H] takes apart the first [match] or [if] of a hypothesis that
    states which result an operation returned. *)
Ltac split_match H :=
  match type of H with
  | context [match ?x with _ => _ end] =>
      let E := fresh "E" in destruct x eqn:E; simplify_eq/=
  end.
Ltac split_matches H := repeat split_match H.

(** Boolean guards as propositions. *)
Create Rewrite HintDb py_bool.
#[export] Hint Rewrite Z.ltb_lt Z.ltb_ge Z.leb_le Z.leb_gt Z.eqb_eq Z.eqb_neq
  Nat.ltb_lt Nat.ltb_ge Nat.leb_le Nat.leb_gt Nat.eqb_eq Nat.eqb_neq
  andb_true_iff orb_true_iff negb_true_iff negb_false_iff
  andb_false_iff orb_false_iff bool_decide_eq_true bool_decide_eq_false : py_bool.
Ltac bools := autorewrite with py_bool in *.

(** Facts about lists and sets used across components. *)
Create HintDb py_list.

(** ** Python strings

    A [str] is a [string] with one character per code point; the model covers
    the code points below 256, and the character classes below are those of
    Python on that range. *)

Definition code (c : ascii) : Z := Z.of_N (N_of_ascii c).

Definition in_range (lo hi : Z) (c : ascii) : bool := (lo <=? code c) && (code c <=? hi).

(** The ten decimal digits: what [int()] accepts. *)
Definition is_dec (c : ascii) : bool := in_range 48 57 c.

(** [str.isdigit] also accepts the superscript digits two, three and one. *)
Definition c_isdigit (c : ascii) : bool :=
  is_dec c || (code c =? 178) || (code c =? 179) || (code c =? 185).

(** [str.isspace]. *)
Definition c_isspace (c : ascii) : bool :=
  in_range 9 13 c || in_range 28 32 c || (code c =? 133) || (code c =? 160).

Definition is_lower (c : ascii) : bool := in_range 97 122 c.
Definition is_upper (c : ascii) : bool := in_range 65 90 c.
Definition is_alpha (c : ascii) : bool := is_lower c || is_upper c.
Definition is_alnum (c : ascii) : bool := is_alpha c || is_dec c.

Fixpoint str_forall (p : ascii → bool) (s : string) : bool :=
  match s with
  | EmptyString => true
  | String c s' => p c && str_forall p s'
  end.

Fixpoint str_exists (p : ascii → bool) (s : string) : bool :=
  match s with
  | EmptyString => false
  | String c s' => p c || str_exists p s'
  end.

Definition is_empty (s : string) : bool :=
  match s with EmptyString => true | _ => false end.

(** [s.isdigit()] *)
Definition isdigit (s : string) : bool := negb (is_empty s) && str_forall c_isdigit s.

(** [int(s)] on a text of digit characters; [None] is the [ValueError]. *)
Fixpoint int_acc (acc : Z) (s : string) : option Z :=
  match s with
  | EmptyString => Some acc
  | String c s' => if is_dec c then int_acc (acc * 10 + (code c - 48)) s' else None
  end.
Definition py_int (s : string) : option Z :=
  if is_empty s then None else int_acc 0 s.

(** [c in s] *)
Definition has_char (c : ascii) (s : string) : bool := str_exists (Ascii.eqb c) s.

(** [s.split(c)] for a one-character separator. *)
Fixpoint split_on (c : ascii) (s : string) : list string :=
  match s with
  | EmptyString => [EmptyString]
  | String d s' =>
      if Ascii.eqb c d then EmptyString :: split_on c s'
      else match split_on c s' with
           | [] => [String d EmptyString]
           | w :: ws => String d w :: ws
           end
  end.

(** [s.partition(c)]: what precedes the first [c], whether there is one, and
    what follows it. *)
Fixpoint partition_on (c : ascii) (s : string) : string * bool * string :=
  match s with
  | EmptyString => (EmptyString, false, EmptyString)
  | String d s' =>
      if Ascii.eqb c d then (EmptyString, true, s')
      else let '(a, found, b) := partition_on c s' in (String d a, found, b)
  end.

(** [s.split()]: the maximal runs of characters that are not white space. *)
Fixpoint split_ws_acc (word : string) (s : string) : list string :=
  match s with
  | EmptyString => if is_empty word then [] else [word]
  | String c s' =>
      if c_isspace c then
        if is_empty word then split_ws_acc EmptyString s'
        else word :: split_ws_acc EmptyString s'
      else split_ws_acc (word +:+ String c EmptyString) s'
  end.
Definition split_ws (s : string) : list string := split_ws_acc EmptyString s.

(** [s.strip()] *)
Fixpoint lstrip (p : ascii → bool) (s : string) : string :=
  match s with
  | EmptyString => EmptyString
  | String c s' => if p c then lstrip p s' else s
  end.
Fixpoint rstrip (p : ascii → bool) (s : string) : string :=
  match s with
  | EmptyString => EmptyString
  | String c s' =>
      let t := rstrip p s' in
      if is_empty t && p c then EmptyString else String c t
  end.
Definition strip (s : string) : string := rstrip c_isspace (lstrip c_isspace s).

(** [s.startswith(p)], [s.endswith(p)] *)
Definition startswith (p s : string) : bool := String.prefix p s.
Fixpoint str_rev_acc (acc s : string) : string :=
  match s with EmptyString => acc | String c s' => str_rev_acc (String c acc) s' end.
Definition str_rev (s : string) : string := str_rev_acc EmptyString s.
Definition endswith (p s : string) : bool := String.prefix (str_rev p) (str_rev s).

(** [s.lower()] on ASCII letters. *)
Definition c_lower (c : ascii) : ascii :=
  if is_upper c then ascii_of_N (N_of_ascii c + 32) else c.
Fixpoint lower (s : string) : string :=
  match s with EmptyString => EmptyString | String c s' => String (c_lower c) (lower s') end.

(** [len(s)] *)
Definition slen (s : string) : Z := Z.of_nat (String.length s).

(** ** Sets of integers, enumerated as [sorted()] does *)

Definition zsorted (s : gset Z) : list Z := merge_sort Z.le (elements s).

Lemma zsorted_elem (s : gset Z) x : x ∈ zsorted s ↔ x ∈ s.
Proof.
  unfold zsorted. rewrite (merge_sort_Permutation Z.le). apply elem_of_elements.
Qed.

Lemma zsorted_strict (s : gset Z) : StronglySorted Z.lt (zsorted s).
Proof.
  unfold zsorted.
  assert (ND : NoDup (merge_sort Z.le (elements s))).
  { rewrite (merge_sort_Permutation Z.le). apply NoDup_elements. }
  pose proof (StronglySorted_merge_sort Z.le (elements s)) as SS.
  revert ND SS. generalize (merge_sort Z.le (elements s)) as l.
  induction l as [|x l IH]; intros ND SS; constructor.
  - apply IH; [by inversion ND | by inversion SS].
  - inversion ND; inversion SS; simplify_eq.
    apply Forall_forall. intros y Hy.
    assert (x ≤ y) by (by eapply Forall_forall). assert (x ≠ y) by (intros ->; done). lia.
Qed.

(** [range(start, stop, step)] for a positive step. *)
Definition zrange (start stop step : Z) : list Z :=
  (λ i, start + i * step) <$> seqZ 0 ((stop - start + step - 1) / step).

Lemma elem_of_zrange start stop step x :
  0 < step → x ∈ zrange start stop step ↔ start ≤ x < stop ∧ (x - start) mod step = 0.
Proof.
  intros Hs. unfold zrange. rewrite list_elem_of_fmap.
  setoid_rewrite elem_of_seqZ. split.
  - intros (i & -> & Hi). replace (start + i * step - start) with (i * step) by lia.
    rewrite Z.mod_mul by lia. split; [|done].
    pose proof (Z.div_mod (stop - start + step - 1) step ltac:(lia)).
    pose proof (Z.mod_pos_bound (stop - start + step - 1) step Hs). nia.
  - intros [Hx Hm]. exists ((x - start) / step).
    pose proof (Z.div_mod (x - start) step ltac:(lia)) as D. rewrite Hm in D.
    split; [lia|].
    pose proof (Z.div_mod (stop - start + step - 1) step ltac:(lia)).
    pose proof (Z.mod_pos_bound (stop - start + step - 1) step Hs).
    split; [apply Z.div_pos; lia|]. nia.
Qed.

(** ** Text without white space *)

Definition no_space (s : string) : Prop := str_forall (λ c, negb (c_isspace c)) s = true.

Lemma str_app_cons c s t : String c s +:+ t = String c (s +:+ t).
Proof. done. Qed.

Lemma str_app_nil_r s : s +:+ EmptyString = s.
Proof. induction s as [|c s IH]; [done|]. rewrite str_app_cons. congruence. Qed.

Lemma str_app_assoc a b c : (a +:+ b) +:+ c = a +:+ (b +:+ c).
Proof. induction a as [|x a IH]; [done|]. rewrite !str_app_cons. congruence. Qed.

Lemma str_forall_app p a b : str_forall p (a +:+ b) = str_forall p a && str_forall p b.
Proof.
  induction a as [|c a IH]; [done|]. rewrite str_app_cons. simpl. by rewrite IH, andb_assoc.
Qed.

Lemma str_forall_impl (p q : ascii → bool) s :
  (∀ c, p c = true → q c = true) → str_forall p s = true → str_forall q s = true.
Proof.
  intros H. induction s as [|c s IH]; simpl; [done|]. rewrite !andb_true_iff. naive_solver.
Qed.

Lemma rstrip_none p s : str_forall (λ c, negb (p c)) s = true → rstrip p s = s.
Proof.
  induction s as [|c s IH]; simpl; [done|]. rewrite andb_true_iff, negb_true_iff.
  intros [Hc Hs]. rewrite IH by done. rewrite Hc, andb_false_r. done.
Qed.

Lemma strip_no_space s : no_space s → strip s = s.
Proof.
  unfold no_space, strip. intros H.
  assert (lstrip c_isspace s = s) as ->.
  { destruct s as [|c s]; simpl in *; [done|].
    apply andb_true_iff in H as [Hc _]. apply negb_true_iff in Hc. by rewrite Hc. }
  by apply rstrip_none.
Qed.

(** ** Stripping twice *)

Lemma lstrip_idem p s : lstrip p (lstrip p s) = lstrip p s.
Proof.
  induction s as [|c s IH]; simpl; [done|]. destruct (p c) eqn:E; [done|]. simpl. by rewrite E.
Qed.

Lemma rstrip_idem p s : rstrip p (rstrip p s) = rstrip p s.
Proof.
  induction s as [|c s IH]; simpl; [done|].
  destruct (is_empty (rstrip p s) && p c) eqn:E; [done|]. simpl. by rewrite IH, E.
Qed.

Lemma lstrip_rstrip p s : lstrip p s = s → lstrip p (rstrip p s) = rstrip p s.
Proof.
  destruct s as [|c s]; simpl; [done|]. destruct (p c) eqn:E.
  - intros H. exfalso.
    assert (∀ t, String.length (lstrip p t) ≤ String.length t)%nat as L.
    { induction t as [|d t IH]; simpl; [lia|]. destruct (p d); simpl; lia. }
    specialize (L s). rewrite H in L. simpl in L. lia.
  - intros _. rewrite andb_false_r. simpl. by rewrite E.
Qed.

Lemma strip_idem s : strip (strip s) = strip s.
Proof.
  unfold strip. rewrite (lstrip_rstrip _ (lstrip c_isspace s)) by apply lstrip_idem.
  apply rstrip_idem.
Qed.

Lemma rstrip_app p a b :
  rstrip p (a +:+ b) = if is_empty (rstrip p b) then rstrip p a else a +:+ rstrip p b.
Proof.
  induction a as [|c a IH]; [change ("" +:+ b) with b; by destruct (rstrip p b)|].
  rewrite str_app_cons. simpl. rewrite IH.
  destruct (is_empty (rstrip p b)) eqn:E; [done|].
  assert (is_empty (a +:+ rstrip p b) = false) as -> by (destruct a; [exact E|done]).
  done.
Qed.

Lemma rstrip_app_nil p a b : rstrip p b = EmptyString → rstrip p (a +:+ b) = rstrip p a.
Proof. intros E. by rewrite rstrip_app, E. Qed.

(** ** Splitting at a separator *)

Lemma split_on_none c s : has_char c s = false → split_on c s = [s].
Proof.
  unfold has_char. induction s as [|d s IH]; simpl; [done|]. rewrite orb_false_iff.
  intros [-> H]. by rewrite IH.
Qed.

Lemma split_on_app c s t :
  has_char c s = false → split_on c (s +:+ String c t) = s :: split_on c t.
Proof.
  unfold has_char. induction s as [|d s IH]; [by simpl; rewrite Ascii.eqb_refl|].
  rewrite str_app_cons. simpl. rewrite orb_false_iff. intros [-> H]. by rewrite IH.
Qed.

(** ** Joining and reversing text *)

Lemma split_on_nonempty c s : split_on c s ≠ [].
Proof. destruct s as [|d s]; simpl; [done|]. destruct (Ascii.eqb c d); [done|]. by destruct (split_on c s). Qed.

Lemma split_on_concat c a b : split_on c (a +:+ String c b) = split_on c a ++ split_on c b.
Proof.
  induction a as [|d a IH]; [simpl; by rewrite Ascii.eqb_refl|].
  rewrite str_app_cons. simpl. rewrite IH. destruct (Ascii.eqb c d); [done|].
  destruct (split_on c a) as [|w ws] eqn:E; [|done]. by apply split_on_nonempty in E.
Qed.

Lemma split_on_inj c s t : split_on c s = split_on c t → s = t.
Proof.
  revert t. induction s as [|x s IH]; intros [|y t]; simpl.
  - done.
  - destruct (Ascii.eqb c y); [|by destruct (split_on c t)].
    destruct (split_on c t) eqn:E; [|done]. by destruct t as [|z t]; simpl in E;
      [|destruct (Ascii.eqb c z); [|destruct (split_on c t)]].
  - destruct (Ascii.eqb c x); [|by destruct (split_on c s)].
    destruct (split_on c s) eqn:E; [|done]. by destruct s as [|z s]; simpl in E;
      [|destruct (Ascii.eqb c z); [|destruct (split_on c s)]].
  - assert (∀ u, split_on c u ≠ []) as NE.
    { intros [|z u]; simpl; [done|]. destruct (Ascii.eqb c z); [done|]. by destruct (split_on c u). }
    destruct (Ascii.eqb_spec c x) as [<-|Hx], (Ascii.eqb_spec c y) as [<-|Hy].
    + intros [= E]. f_equal. by apply IH.
    + destruct (split_on c t) eqn:E; [by destruct (NE t)|done].
    + destruct (split_on c s) eqn:E; [by destruct (NE s)|done].
    + specialize (IH t). destruct (split_on c s) as [|w ws] eqn:Es; [by destruct (NE s)|].
      destruct (split_on c t) as [|w' ws'] eqn:Et; [by destruct (NE t)|].
      intros [= -> -> ->]. f_equal. by apply IH.
Qed.

(** Cutting a text at a label boundary. *)
Lemma split_on_cut c s l r :
  split_on c s = l ++ r → l ≠ [] → r ≠ [] → ∃ a b, s = a +:+ String c b ∧ split_on c a = l ∧ split_on c b = r.
Proof.
  revert l. induction s as [|x s IH]; intros l; simpl.
  - intros E Hl Hr. exfalso. destruct l as [|y [|z l]]; [done| |done]. by destruct r.
  - destruct (Ascii.eqb_spec c x) as [<-|Hx].
    + intros E Hl Hr. destruct l as [|y l]; [done|]. injection E as <- E. destruct l as [|z l].
      * exists ""%string, s. split_and!; done.
      * destruct (IH (z :: l) E) as (a & b & -> & Ea & Eb); [done..|].
        exists (String c a), b. split_and!; [done| |done]. simpl. by rewrite Ascii.eqb_refl, Ea.
    + intros E Hl Hr. destruct (split_on c s) as [|w ws] eqn:Es.
      { destruct l as [|y [|z l]]; [done| |done]. by destruct r. }
      destruct l as [|y l]; [done|]. injection E as <- E.
      destruct (IH (w :: l)) as (a & b & -> & Ea & Eb); [by rewrite E|done..|].
      exists (String x a), b. split_and!; [done| |done]. simpl.
      rewrite (proj2 (Ascii.eqb_neq c x) Hx). by rewrite Ea.
Qed.

(** *** Suffixes of texts *)

Lemma str_rev_acc_app acc s : str_rev_acc acc s = str_rev s +:+ acc.
Proof.
  unfold str_rev. revert acc. induction s as [|c s IH]; intros acc; simpl; [done|].
  rewrite IH, (IH (String c "")). rewrite str_app_assoc. done.
Qed.

Lemma str_rev_cons c s : str_rev (String c s) = str_rev s +:+ String c "".
Proof. unfold str_rev at 1. simpl. apply str_rev_acc_app. Qed.

Lemma str_rev_app a b : str_rev (a +:+ b) = str_rev b +:+ str_rev a.
Proof.
  induction a as [|c a IH]; [simpl; by rewrite str_app_nil_r|].
  by rewrite str_app_cons, !str_rev_cons, IH, str_app_assoc.
Qed.

Lemma str_rev_involutive s : str_rev (str_rev s) = s.
Proof. induction s as [|c s IH]; [done|]. by rewrite str_rev_cons, str_rev_app, IH. Qed.

Lemma prefix_app p s : String.prefix p s = true ↔ ∃ b, s = p +:+ b.
Proof.
  revert s. induction p as [|c p IH]; intros s; [destruct s; simpl; naive_solver|].
  destruct s as [|d s]; simpl; [split; [done|intros [b E]; by rewrite str_app_cons in E]|].
  destruct (ascii_dec c d) as [->|Hne].
  - rewrite IH. split; intros [b E]; exists b.
    + by rewrite E.
    + rewrite str_app_cons in E. congruence.
  - split; [done|]. intros [b E]. rewrite str_app_cons in E. congruence.
Qed.

Lemma endswith_app p s : endswith p s = true ↔ ∃ a, s = a +:+ p.
Proof.
  unfold endswith. rewrite prefix_app. split.
  - intros [b E]. exists (str_rev b). apply (f_equal str_rev) in E.
    by rewrite str_rev_app, !str_rev_involutive in E.
  - intros [a ->]. exists (str_rev a). apply str_rev_app.
Qed.

(** ** Lists *)

Lemma elem_drop {A} (x : A) n l : x ∈ drop n l → x ∈ l.
Proof. intros H. rewrite <- (take_drop n l). apply elem_of_app. by right. Qed.
#[export] Hint Resolve elem_drop : py_list.

Lemma list_filter_all {A} (P : A → Prop) `{∀ x, Decision (P x)} (l : list A) :
  (∀ x, x ∈ l → P x) → filter P l = l.
Proof.
  induction l as [|x l IH]; intros H'; [done|].
  rewrite filter_cons_True by (apply H'; set_solver). rewrite IH; [done|]. set_solver.
Qed.

(** ** Printed numbers *)

Lemma pretty_go_length k x s : (x < 10 ^ N.of_nat k)%N → (String.length (pretty_N_go x s) ≤ String.length s + k)%nat.
Proof.
  revert x s. induction k as [|k IH]; intros x s Hx.
  - assert (x = 0%N) as -> by (change (10 ^ N.of_nat 0)%N with 1%N in Hx; lia). rewrite pretty_N_go_0. lia.
  - destruct (decide (x = 0)%N) as [->|Hn]; [rewrite pretty_N_go_0; lia|]. rewrite pretty_N_go_step by lia.
    etrans; [apply IH|cbn [String.length]; lia]. apply N.Div0.div_lt_upper_bound.
    rewrite Nat2N.inj_succ, N.pow_succ_r' in Hx. done.
Qed.
