(* ===== verification/Calendar.v ===== *)
(** * Calendar: the parts of [datetime] the scheduler relies on

    Dates are proleptic Gregorian ordinals as in [date.toordinal] (day 1 is
    0001-01-01).  An instant is the number of microseconds since
    0001-01-01T00:00:00 in the clock at hand (UTC or a zone's local clock), so
    an instant [t] falls on the day [t / day_us + 1]. *)

From Stdlib Require Import ZArith Lia Ascii String.
From stdpp Require Import base tactics list strings.
From S2P Require Import Prelude.

Local Open Scope Z_scope.

(** ** Ordinals and civil dates *)

Record ymd := Ymd { year : Z; month : Z; day : Z }.

Definition is_leap (y : Z) : bool :=
  (y mod 4 =? 0) && (negb (y mod 100 =? 0) || (y mod 400 =? 0)).

Definition days_before_year (y : Z) : Z :=
  let p := y - 1 in p * 365 + p / 4 - p / 100 + p / 400.

Definition days_in_month (leap : bool) (m : Z) : Z :=
  if m =? 2 then (if leap then 29 else 28)
  else if (m =? 4) || (m =? 6) || (m =? 9) || (m =? 11) then 30 else 31.

(** Days of the year before month [m], in a common year. *)
Definition days_before_month_common (m : Z) : Z :=
  nth (Z.to_nat m) [0; 0; 31; 59; 90; 120; 151; 181; 212; 243; 273; 304; 334] 0.

Definition days_before_month (leap : bool) (m : Z) : Z :=
  days_before_month_common m + (if (2 <? m) && leap then 1 else 0).

Definition ymd2ord (d : ymd) : Z :=
  days_before_year d.(year) + days_before_month (is_leap d.(year)) d.(month) + d.(day).

(** The month and day of the zero-based day [n] of a year, by the estimate
    [(n + 50) >> 5] corrected by at most one month. *)
Definition month_day (leap : bool) (n : Z) : Z * Z :=
  let m := Z.shiftr (n + 50) 5 in
  let preceding := days_before_month leap m in
  if n <? preceding then
    let m' := m - 1 in
    (m', n - (preceding - days_in_month leap m') + 1)
  else (m, n - preceding + 1).

(** [date.fromordinal] *)
Definition ord2ymd (o : Z) : ymd :=
  let n := o - 1 in
  let n400 := n / 146097 in let n := n mod 146097 in
  let n100 := n / 36524 in let n := n mod 36524 in
  let n4 := n / 1461 in let n := n mod 1461 in
  let n1 := n / 365 in let n := n mod 365 in
  let y := n400 * 400 + 1 + n100 * 100 + n4 * 4 + n1 in
  if (n1 =? 4) || (n100 =? 4) then Ymd (y - 1) 12 31
  else
    let leap := (n1 =? 3) && (negb (n4 =? 24) || (n100 =? 3)) in
    let '(m, d) := month_day leap n in Ymd y m d.

(** [date.weekday]: Monday is 0. *)
Definition weekday (o : Z) : Z := (o + 6) mod 7.

(** The largest ordinal, 9999-12-31; beyond it [datetime] raises
    [OverflowError]. *)
Definition max_ordinal : Z := 3652059.

Definition valid_ymd (d : ymd) : Prop :=
  1 ≤ d.(month) ≤ 12 ∧ 1 ≤ d.(day) ≤ days_in_month (is_leap d.(year)) d.(month).

Definition ymd_lt (a b : ymd) : Prop :=
  a.(year) < b.(year) ∨
  (a.(year) = b.(year) ∧ (a.(month) < b.(month) ∨
    (a.(month) = b.(month) ∧ a.(day) < b.(day)))).

(** ** Month tables, by enumeration of the days of a year *)

Definition month_day_ok (leap : bool) (n : Z) : bool :=
  let '(m, d) := month_day leap n in
  (1 <=? m) && (m <=? 12) && (1 <=? d) && (d <=? days_in_month leap m)
  && (days_before_month leap m + d =? n + 1).

Definition year_length (leap : bool) : Z := if leap then 366 else 365.

Lemma month_day_table leap :
  forallb (month_day_ok leap) (seqZ 0 (year_length leap)) = true.
Proof. destruct leap; vm_compute; reflexivity. Qed.

Lemma month_day_spec leap n m d :
  0 ≤ n < year_length leap → month_day leap n = (m, d) →
  1 ≤ m ≤ 12 ∧ 1 ≤ d ≤ days_in_month leap m ∧ days_before_month leap m + d = n + 1.
Proof.
  intros Hn E.
  pose proof (proj1 (forallb_forall _ _) (month_day_table leap) n) as H.
  unfold month_day_ok in H. rewrite E in H.
  assert (In n (seqZ 0 (year_length leap))) as Hin.
  { apply list_elem_of_In, elem_of_seqZ. lia. }
  apply H in Hin. bools. lia.
Qed.

(** ** The year of an ordinal *)

(** A year written in the mixed radix of [ord2ymd]. *)
Section mixed_radix.
Context (n400 n100 n4 n1 : Z).
Context (H100 : 0 ≤ n100 < 4) (H4 : 0 ≤ n4 < 25) (H1 : 0 ≤ n1 < 4).

Let y := n400 * 400 + 1 + n100 * 100 + n4 * 4 + n1.

Lemma radix_days :
  days_before_year y = n400 * 146097 + n100 * 36524 + n4 * 1461 + n1 * 365.
Proof.
  unfold days_before_year, y.
  replace (n400 * 400 + 1 + n100 * 100 + n4 * 4 + n1 - 1)
    with (n400 * 400 + n100 * 100 + n4 * 4 + n1) by lia.
  assert ((n400 * 400 + n100 * 100 + n4 * 4 + n1) / 4 = n400 * 100 + n100 * 25 + n4) as ->
    by (symmetry; apply Z.div_unique_pos with n1; lia).
  assert ((n400 * 400 + n100 * 100 + n4 * 4 + n1) / 100 = n400 * 4 + n100) as ->
    by (symmetry; apply Z.div_unique_pos with (n4 * 4 + n1); lia).
  assert ((n400 * 400 + n100 * 100 + n4 * 4 + n1) / 400 = n400) as ->
    by (symmetry; apply Z.div_unique_pos with (n100 * 100 + n4 * 4 + n1); lia).
  lia.
Qed.

Lemma radix_leap :
  is_leap y = (n1 =? 3) && (negb (n4 =? 24) || (n100 =? 3)).
Proof.
  unfold is_leap, y.
  replace (n400 * 400 + 1 + n100 * 100 + n4 * 4 + n1)
    with (n400 * 400 + (n100 * 100 + n4 * 4 + (n1 + 1))) by lia.
  destruct (Z.eqb_spec n1 3) as [->|N1]; simpl.
  - assert ((n400 * 400 + (n100 * 100 + n4 * 4 + (3 + 1))) mod 4 = 0) as ->
      by (symmetry; apply Z.mod_unique_pos with (n400 * 100 + n100 * 25 + n4 + 1); lia).
    simpl. destruct (Z.eqb_spec n4 24) as [->|N4]; simpl.
    + assert ((n400 * 400 + (n100 * 100 + 24 * 4 + (3 + 1))) mod 100 = 0) as ->
        by (symmetry; apply Z.mod_unique_pos with (n400 * 4 + n100 + 1); lia).
      simpl. destruct (Z.eqb_spec n100 3) as [->|N3].
      * apply Z.eqb_eq. symmetry. apply Z.mod_unique_pos with (n400 + 1); lia.
      * apply Z.eqb_neq. rewrite <- (Z.mod_unique_pos _ 400 n400 (n100 * 100 + 100)); lia.
    + rewrite <- (Z.mod_unique_pos _ 100 (n400 * 4 + n100) (n4 * 4 + 4)) by lia.
      destruct (Z.eqb_spec (n4 * 4 + 4) 0); [lia | done].
  - rewrite <- (Z.mod_unique_pos _ 4 (n400 * 100 + n100 * 25 + n4) (n1 + 1)) by lia.
    destruct (Z.eqb_spec (n1 + 1) 0); [lia | done].
Qed.
End mixed_radix.

Lemma ord2ymd_spec o : valid_ymd (ord2ymd o) ∧ ymd2ord (ord2ymd o) = o.
Proof.
  unfold ord2ymd.
  pose proof (Z.div_mod (o - 1) 146097 ltac:(lia)) as D0.
  pose proof (Z.mod_pos_bound (o - 1) 146097 ltac:(lia)) as B0.
  set (n400 := (o - 1) / 146097) in *. set (r0 := (o - 1) mod 146097) in *.
  pose proof (Z.div_mod r0 36524 ltac:(lia)) as D1.
  pose proof (Z.mod_pos_bound r0 36524 ltac:(lia)) as B1.
  set (n100 := r0 / 36524) in *. set (r1 := r0 mod 36524) in *.
  pose proof (Z.div_mod r1 1461 ltac:(lia)) as D2.
  pose proof (Z.mod_pos_bound r1 1461 ltac:(lia)) as B2.
  set (n4 := r1 / 1461) in *. set (r2 := r1 mod 1461) in *.
  pose proof (Z.div_mod r2 365 ltac:(lia)) as D3.
  pose proof (Z.mod_pos_bound r2 365 ltac:(lia)) as B3.
  set (n1 := r2 / 365) in *. set (r3 := r2 mod 365) in *.
  clearbody n400 r0 n100 r1 n4 r2 n1 r3. simpl.
  destruct (Z.eqb_spec n1 4) as [E1|N1]; simpl; [|destruct (Z.eqb_spec n100 4) as [E100|N100]; simpl].
  - assert (0 ≤ n100 < 4) by lia. assert (0 ≤ n4 < 24) by lia.
    unfold valid_ymd, ymd2ord; cbn [year month day].
    replace (n400 * 400 + 1 + n100 * 100 + n4 * 4 + n1 - 1)
      with (n400 * 400 + 1 + n100 * 100 + n4 * 4 + 3) by lia.
    rewrite radix_days, radix_leap by lia.
    replace (negb (n4 =? 24)) with true by (destruct (Z.eqb_spec n4 24); [lia|done]).
    vm_compute days_in_month; vm_compute days_before_month; cbn. lia.
  - unfold valid_ymd, ymd2ord; cbn [year month day].
    replace (n400 * 400 + 1 + n100 * 100 + n4 * 4 + n1 - 1)
      with (n400 * 400 + 1 + 3 * 100 + 24 * 4 + 3) by lia.
    rewrite radix_days, radix_leap by lia.
    vm_compute days_in_month; vm_compute days_before_month; cbn. lia.
  - assert (0 ≤ n100 < 4) by lia. assert (0 ≤ n4 < 25) by lia. assert (0 ≤ n1 < 4) by lia.
    destruct (month_day _ r3) as [m d] eqn:E.
    apply month_day_spec in E; [|unfold year_length; case_match; lia].
    unfold valid_ymd, ymd2ord; cbn [year month day].
    rewrite radix_days, radix_leap by lia. lia.
Qed.

(** ** Order of civil dates *)

Lemma months_in_order leap m m' :
  1 ≤ m → m < m' → m' ≤ 12 →
  days_before_month leap m + days_in_month leap m ≤ days_before_month leap m'.
Proof.
  intros H1 H2 H3.
  assert (forallb (λ a, forallb (λ b, negb (a <? b) ||
      (days_before_month leap a + days_in_month leap a <=? days_before_month leap b))
    (seqZ 1 12)) (seqZ 1 12) = true) as T by (destruct leap; vm_compute; done).
  rewrite forallb_forall in T.
  assert (In m (seqZ 1 12)) as I1 by (apply list_elem_of_In, elem_of_seqZ; lia).
  assert (In m' (seqZ 1 12)) as I2 by (apply list_elem_of_In, elem_of_seqZ; lia).
  specialize (T _ I1). rewrite forallb_forall in T. specialize (T _ I2). bools. lia.
Qed.

Lemma year_days leap m :
  1 ≤ m ≤ 12 → 0 ≤ days_before_month leap m ∧
  days_before_month leap m + days_in_month leap m ≤ year_length leap.
Proof.
  intros H.
  assert (forallb (λ a, (0 <=? days_before_month leap a) &&
     (days_before_month leap a + days_in_month leap a <=? year_length leap))
    (seqZ 1 12) = true) as T by (destruct leap; vm_compute; done).
  rewrite forallb_forall in T.
  assert (In m (seqZ 1 12)) as I1 by (apply list_elem_of_In, elem_of_seqZ; lia).
  specialize (T _ I1). bools. lia.
Qed.

Lemma days_before_next_year y :
  days_before_year (y + 1) = days_before_year y + year_length (is_leap y).
Proof.
  unfold days_before_year, year_length, is_leap.
  replace (y + 1 - 1) with y by lia.
  destruct (Z.eqb_spec (y mod 4) 0), (Z.eqb_spec (y mod 100) 0),
    (Z.eqb_spec (y mod 400) 0); simpl;
    Z.to_euclidean_division_equations; lia.
Qed.

Lemma days_before_year_mono y y' :
  y < y' → days_before_year y + year_length (is_leap y) ≤ days_before_year y'.
Proof.
  intros H. rewrite <- days_before_next_year.
  assert (∀ k : nat, days_before_year (y + 1) ≤ days_before_year (y + 1 + Z.of_nat k)) as M.
  { induction k as [|k IH]; [by rewrite Z.add_0_r|].
    replace (y + 1 + Z.of_nat (S k)) with (y + 1 + Z.of_nat k + 1) by lia.
    rewrite (days_before_next_year (y + 1 + Z.of_nat k)). unfold year_length. case_match; lia. }
  specialize (M (Z.to_nat (y' - y - 1))).
  replace (y + 1 + Z.of_nat (Z.to_nat (y' - y - 1))) with y' in M by lia. done.
Qed.

Lemma ymd2ord_mono a b :
  valid_ymd a → valid_ymd b → ymd_lt a b → ymd2ord a < ymd2ord b.
Proof.
  destruct a as [y m d], b as [y' m' d']; unfold valid_ymd, ymd_lt, ymd2ord; simpl.
  intros [Hm Hd] [Hm' Hd'] [Hy | [<- [Hmm | [<- ?]]]]; [| |lia].
  - pose proof (days_before_year_mono _ _ Hy).
    pose proof (year_days (is_leap y) m Hm). pose proof (year_days (is_leap y') m' Hm'). lia.
  - pose proof (months_in_order (is_leap y) m m'). lia.
Qed.

Lemma ymd_trichotomy a b : ymd_lt a b ∨ a = b ∨ ymd_lt b a.
Proof.
  destruct a as [y m d], b as [y' m' d']; unfold ymd_lt; simpl.
  destruct (Z.lt_total y y') as [?|[<-|?]]; [lia| |lia].
  destruct (Z.lt_total m m') as [?|[<-|?]]; [lia| |lia].
  destruct (Z.lt_total d d') as [?|[<-|?]]; auto; lia.
Qed.

Lemma ord2ymd_mono o o' : o < o' → ymd_lt (ord2ymd o) (ord2ymd o').
Proof.
  intros H. destruct (ord2ymd_spec o) as [V E], (ord2ymd_spec o') as [V' E'].
  destruct (ymd_trichotomy (ord2ymd o) (ord2ymd o')) as [?|[Eq|L]]; [done| |].
  - rewrite Eq, E' in E. lia.
  - pose proof (ymd2ord_mono _ _ V' V L). lia.
Qed.

(** ** ISO 8601 text of an instant *)

Definition sec_us : Z := 1000000.
Definition day_s : Z := 86400.
Definition day_us : Z := day_s * sec_us.
Definition max_instant : Z := max_ordinal * day_us.

Definition digit (n : Z) : ascii := ascii_of_N (Z.to_N (48 + n)).

(** [n] in decimal, zero-padded to [w] characters. *)
Fixpoint pad (w : nat) (n : Z) : string :=
  match w with
  | O => EmptyString
  | S w' => pad w' (n / 10) +:+ String (digit (n mod 10)) EmptyString
  end.

(** The text after the whole seconds: microseconds appear only when they are
    not zero; the offset of UTC closes the text. *)
Definition iso_fraction (us : Z) : string :=
  (if us =? 0 then "" else "." +:+ pad 6 us) +:+ "+00:00".

(** [datetime.isoformat] of a UTC instant. *)
Definition iso_utc (t : Z) : string :=
  let d := ord2ymd (t / day_us + 1) in
  let s := t mod day_us / sec_us in
  pad 4 d.(year) +:+ ("-" +:+ (pad 2 d.(month) +:+ ("-" +:+ (pad 2 d.(day) +:+ ("T" +:+
  (pad 2 (s / 3600) +:+ (":" +:+ (pad 2 (s mod 3600 / 60) +:+ (":" +:+
  (pad 2 (s mod 60) +:+ iso_fraction (t mod sec_us))))))))))).

(** ** Text order (SQLite's BINARY collation) *)

Definition str_lt (a b : string) : Prop := String.compare a b = Lt.

Lemma ascii_compare_refl c : Ascii.compare c c = Eq.
Proof. unfold Ascii.compare. apply N.compare_refl. Qed.

Lemma str_lt_prefix p a b : str_lt a b → str_lt (p +:+ a) (p +:+ b).
Proof.
  unfold str_lt. intros H. induction p as [|c p IH]; simpl; [done|].
  by rewrite ascii_compare_refl.
Qed.

Lemma str_lt_head a b x y :
  String.length a = String.length b → str_lt a b → str_lt (a +:+ x) (b +:+ y).
Proof.
  unfold str_lt. revert b. induction a as [|c a IH]; intros [|d b]; simpl; try done.
  intros [=L]. destruct (Ascii.compare c d); eauto; done.
Qed.

Lemma str_app_length a b : String.length (a +:+ b) = (String.length a + String.length b)%nat.
Proof. induction a; simpl; auto. Qed.

Lemma pad_length w n : String.length (pad w n) = w.
Proof.
  revert n. induction w as [|w IH]; intros n; simpl; [done|].
  rewrite str_app_length, IH. simpl. lia.
Qed.

Lemma digit_lt a b : 0 ≤ a < b → b < 10 → Ascii.compare (digit a) (digit b) = Lt.
Proof.
  intros H1 H2. unfold Ascii.compare, digit.
  rewrite !N_ascii_embedding by lia. apply N.compare_lt_iff. lia.
Qed.

Lemma pad_lt w n m : 0 ≤ n < m → m < 10 ^ Z.of_nat w → str_lt (pad w n) (pad w m).
Proof.
  revert n m. induction w as [|w IH]; intros n m H1 H2; [simpl in H2; lia|].
  rewrite Nat2Z.inj_succ, Z.pow_succ_r in H2 by lia. simpl.
  pose proof (Z.div_mod n 10). pose proof (Z.div_mod m 10).
  pose proof (Z.mod_pos_bound n 10). pose proof (Z.mod_pos_bound m 10).
  destruct (Z.lt_total (n / 10) (m / 10)) as [L|[E|L]].
  - apply str_lt_head; [by rewrite !pad_length|]. apply IH; lia.
  - rewrite E. apply str_lt_prefix. unfold str_lt. simpl. rewrite digit_lt by lia. done.
  - lia.
Qed.

(** Lexicographic comparison of texts that start with a padded field. *)
Lemma pad_field w n m x y :
  0 ≤ n → m < 10 ^ Z.of_nat w → n < m ∨ (n = m ∧ str_lt x y) →
  str_lt (pad w n +:+ x) (pad w m +:+ y).
Proof.
  intros Hn Hm [L | [-> L]].
  - apply str_lt_head; [by rewrite !pad_length|]. apply pad_lt; lia.
  - by apply str_lt_prefix.
Qed.

(** A missing fraction sorts before any other, because ["+"] precedes ["."]. *)
Lemma iso_fraction_lt a b : 0 ≤ a < b → b < sec_us → str_lt (iso_fraction a) (iso_fraction b).
Proof.
  unfold iso_fraction, sec_us. intros H1 H2.
  destruct (Z.eqb_spec b 0); [lia|]. destruct (Z.eqb_spec a 0); [done|].
  apply (str_lt_prefix "." (pad 6 a +:+ "+00:00") (pad 6 b +:+ "+00:00")).
  apply str_lt_head; [by rewrite !pad_length|]. apply pad_lt; simpl; lia.
Qed.

Lemma ord_year_bounds o : 1 ≤ o ≤ max_ordinal → 1 ≤ (ord2ymd o).(year) ≤ 9999.
Proof.
  intros H. destruct (ord2ymd_spec o) as [[Vm Vd] E].
  unfold ymd2ord in E. set (y := (ord2ymd o).(year)) in *.
  pose proof (year_days (is_leap y) _ Vm) as Y. unfold max_ordinal in H.
  split.
  - destruct (Z.le_gt_cases 1 y); [done|].
    pose proof (days_before_year_mono y 1 ltac:(lia)) as M.
    change (days_before_year 1) with 0 in M. lia.
  - destruct (Z.le_gt_cases y 9999); [done|].
    assert (days_before_year 9999 + year_length (is_leap 9999) ≤ days_before_year y) as M
      by (apply days_before_year_mono; lia).
    vm_compute (days_before_year 9999 + year_length (is_leap 9999)) in M. lia.
Qed.

(** The fields of two instants of which the first is earlier compare
    lexicographically. *)
Lemma clock_fields_lt s s' f f' :
  0 ≤ s → s' < day_s → 0 ≤ f → f' < sec_us →
  s < s' ∨ (s = s' ∧ f < f') →
  str_lt (pad 2 (s / 3600) +:+ (":" +:+ (pad 2 (s mod 3600 / 60) +:+ (":" +:+
           (pad 2 (s mod 60) +:+ iso_fraction f)))))
         (pad 2 (s' / 3600) +:+ (":" +:+ (pad 2 (s' mod 3600 / 60) +:+ (":" +:+
           (pad 2 (s' mod 60) +:+ iso_fraction f'))))).
Proof.
  unfold day_s. intros H0 H1 Hf Hf' L.
  destruct L as [L | [<- L]].
  - assert (s / 3600 < s' / 3600 ∨ (s / 3600 = s' / 3600 ∧
      (s mod 3600 / 60 < s' mod 3600 / 60 ∨ (s mod 3600 / 60 = s' mod 3600 / 60 ∧
        s mod 60 < s' mod 60)))) as C by (Z.to_euclidean_division_equations; lia).
    assert (s' / 3600 < 100 ∧ 0 ≤ s mod 3600 / 60 ∧ s' mod 3600 / 60 < 100 ∧
      0 ≤ s mod 60 ∧ s' mod 60 < 100 ∧ 0 ≤ s / 3600) as (?&?&?&?&?&?)
      by (Z.to_euclidean_division_equations; lia).
    apply pad_field; [lia|simpl; lia|]. destruct C as [?|[? C]]; [by left|right; split; [done|]].
    apply str_lt_prefix, pad_field; [lia|simpl; lia|].
    destruct C as [?|[? C]]; [by left|right; split; [done|]].
    apply str_lt_prefix, pad_field; [lia|simpl; lia|]. by left.
  - do 5 apply str_lt_prefix. by apply iso_fraction_lt.
Qed.

Lemma iso_utc_mono t t' : 0 ≤ t < t' → t' < max_instant → str_lt (iso_utc t) (iso_utc t').
Proof.
  unfold max_instant. intros H H'.
  set (o := t / day_us + 1). set (o' := t' / day_us + 1).
  assert (1 ≤ o ∧ o ≤ o' ∧ o' ≤ max_ordinal) as (Ho & Hoo & Ho').
  { unfold o, o', day_us, day_s, sec_us, max_ordinal in *. split_and!;
    Z.to_euclidean_division_equations; lia. }
  pose proof (ord_year_bounds o ltac:(lia)) as Y. pose proof (ord_year_bounds o' ltac:(lia)) as Y'.
  destruct (ord2ymd_spec o) as [[Vm Vd] _], (ord2ymd_spec o') as [[Vm' Vd'] _].
  assert (∀ leap m, days_in_month leap m < 100) as Dm.
  { intros leap m. unfold days_in_month. repeat case_match; lia. }
  unfold iso_utc. fold o o'. cbv zeta.
  destruct (Z.eq_dec o o') as [E|N].
  - rewrite <- E. do 6 apply str_lt_prefix. apply clock_fields_lt;
    unfold o, o', day_us, day_s, sec_us in *; Z.to_euclidean_division_equations; lia.
  - assert (ymd_lt (ord2ymd o) (ord2ymd o')) as C by (apply ord2ymd_mono; lia).
    specialize (Dm (is_leap (ord2ymd o').(year)) (ord2ymd o').(month)).
    apply pad_field; [lia|simpl; lia|]. destruct C as [?|[? C]]; [by left|right; split; [done|]].
    apply str_lt_prefix, pad_field; [lia|simpl; lia|].
    destruct C as [?|[? C]]; [by left|right; split; [done|]].
    apply str_lt_prefix, pad_field; [lia|simpl; lia|]. by left.
Qed.

(** ** Reading ISO 8601 text

    [datetime.fromisoformat] on the documented format
    YYYY-MM-DD[*HH[:MM[:SS[.fff[fff]]]][+HH:MM[:SS[.ffffff]]]]. *)

(** Exactly [w] decimal digits. *)
Fixpoint take_digits (w : nat) (acc : Z) (s : string) : option (Z * string) :=
  match w, s with
  | O, _ => Some (acc, s)
  | S w', String c s' => if is_dec c then take_digits w' (acc * 10 + (code c - 48)) s' else None
  | S _, EmptyString => None
  end.

Definition take_char (c : ascii) (s : string) : option string :=
  match s with
  | String d s' => if Ascii.eqb c d then Some s' else None
  | EmptyString => None
  end.

(** Clock fields in microseconds: HH[:MM[:SS[.fff[fff]]]]. *)
Definition take_fraction (s : string) : option (Z * string) :=
  match take_char "." s with
  | None => Some (0, s)
  | Some s1 =>
      match take_digits 6 0 s1 with
      | Some (f, s2) => Some (f, s2)
      | None => match take_digits 3 0 s1 with
                | Some (f, s2) => Some (f * 1000, s2)
                | None => None
                end
      end
  end.

Definition take_clock (s : string) : option (Z * string) :=
  h ← take_digits 2 0 s;
  let '(hh, s1) := h : Z * string in
  if negb (hh <? 24) then None else
  match take_char ":" s1 with
  | None => Some (hh * 3600 * sec_us, s1)
  | Some s2 =>
      m ← take_digits 2 0 s2;
      let '(mm, s3) := m : Z * string in
      if negb (mm <? 60) then None else
      match take_char ":" s3 with
      | None => Some ((hh * 3600 + mm * 60) * sec_us, s3)
      | Some s4 =>
          x ← take_digits 2 0 s4;
          let '(ss, s5) := x : Z * string in
          if negb (ss <? 60) then None else
          f ← take_fraction s5;
          let '(us, s6) := f : Z * string in
          Some ((hh * 3600 + mm * 60 + ss) * sec_us + us, s6)
      end
  end.

Definition valid_ymdb (d : ymd) : bool :=
  (1 <=? d.(year)) && (d.(year) <=? 9999) && (1 <=? d.(month)) && (d.(month) <=? 12) &&
  (1 <=? d.(day)) && (d.(day) <=? days_in_month (is_leap d.(year)) d.(month)).

Definition take_date (s : string) : option (Z * string) :=
  y ← take_digits 4 0 s; let '(yy, s1) := y : Z * string in
  s2 ← take_char "-" s1;
  m ← take_digits 2 0 s2; let '(mm, s3) := m : Z * string in
  s4 ← take_char "-" s3;
  d ← take_digits 2 0 s4; let '(dd, s5) := d : Z * string in
  let date := Ymd yy mm dd in
  if valid_ymdb date then Some (ymd2ord date, s5) else None.

(** A UTC offset, with its sign, at the end of the text. *)
Definition take_offset (s : string) : option Z :=
  match s with
  | String sign t =>
      if negb (Ascii.eqb sign "+" || Ascii.eqb sign "-") then None
      else if negb (bool_decide (String.length t ∈ [5; 8; 15]%nat)) then None
      else match take_clock t with
           | Some (o, EmptyString) => Some (if Ascii.eqb sign "+" then o else - o)
           | _ => None
           end
  | EmptyString => None
  end.

(** A parsed datetime: its clock reading and its offset, if it names one. *)
Definition fromisoformat (s : string) : option (Z * option Z) :=
  match take_date s with
  | None => None
  | Some (o, EmptyString) => Some ((o - 1) * day_us, None)
  | Some (o, String _ t) =>
      match take_clock t with
      | None => None
      | Some (clock, EmptyString) => Some ((o - 1) * day_us + clock, None)
      | Some (clock, rest) =>
          match take_offset rest with
          | Some off => Some ((o - 1) * day_us + clock, Some off)
          | None => None
          end
      end
  end.

(** *** Reading back what [iso_utc] writes *)

Lemma take_char_app c s : take_char c (String c "" +:+ s) = Some s.
Proof. change (take_char c (String c s) = Some s). cbn. by rewrite Ascii.eqb_refl. Qed.

Lemma digit_spec n : 0 ≤ n < 10 → is_dec (digit n) = true ∧ code (digit n) - 48 = n.
Proof.
  intros H. unfold is_dec, in_range, code, digit.
  rewrite N_ascii_embedding by lia. split; [|lia].
  apply andb_true_intro; split; apply Z.leb_le; lia.
Qed.

Lemma take_digits_pad w n acc s :
  0 ≤ n < 10 ^ Z.of_nat w →
  take_digits w acc (pad w n +:+ s) = Some (acc * 10 ^ Z.of_nat w + n, s).
Proof.
  revert n s. induction w as [|w IH]; intros n s Hn.
  { simpl in *. do 2 f_equal. lia. }
  rewrite Nat2Z.inj_succ, Z.pow_succ_r in * by lia.
  pose proof (Z.div_mod n 10). pose proof (Z.mod_pos_bound n 10).
  destruct (digit_spec (n mod 10)) as [D1 D2]; [lia|].
  assert (∀ k acc t, take_digits (k + 1) acc t =
    (p ← take_digits k acc t; let '(a, t') := p : Z * string in take_digits 1 a t')) as Split.
  { clear. induction k as [|k IH]; intros acc t; [done|].
    destruct t as [|c t]; simpl; [done|]. destruct (is_dec c); [apply IH|done]. }
  replace (S w) with (w + 1)%nat by lia. rewrite Split.
  replace (w + 1)%nat with (S w) by lia. cbn [pad].
  rewrite str_app_assoc. change (String (digit (n mod 10)) "" +:+ s) with (String (digit (n mod 10)) s).
  rewrite IH by lia. simpl. rewrite D1, D2. do 2 f_equal. lia.
Qed.

#[local] Arguments pad : simpl never.
#[local] Arguments take_digits : simpl never.

Lemma take_fraction_iso f :
  0 ≤ f < sec_us → take_fraction (iso_fraction f) = Some (f, "+00:00"%string).
Proof.
  unfold sec_us. intros H. unfold iso_fraction, take_fraction.
  destruct (Z.eqb_spec f 0) as [->|]; [done|].
  change (("." +:+ pad 6 f) +:+ "+00:00")%string with (String "." (pad 6 f +:+ "+00:00")).
  cbn [take_char]. rewrite Ascii.eqb_refl.
  rewrite take_digits_pad by (simpl; lia). done.
Qed.

Lemma take_clock_iso s f :
  0 ≤ s < day_s → 0 ≤ f < sec_us →
  take_clock (pad 2 (s / 3600) +:+ (":" +:+ (pad 2 (s mod 3600 / 60) +:+ (":" +:+
    (pad 2 (s mod 60) +:+ iso_fraction f))))) = Some (s * sec_us + f, "+00:00"%string).
Proof.
  unfold day_s. intros Hs Hf. unfold take_clock.
  assert (0 ≤ s / 3600 < 24 ∧ 0 ≤ s mod 3600 / 60 < 60 ∧ 0 ≤ s mod 60 < 60 ∧
    s / 3600 * 3600 + s mod 3600 / 60 * 60 + s mod 60 = s) as (B1 & B2 & B3 & E)
    by (Z.to_euclidean_division_equations; lia).
  rewrite take_digits_pad by (simpl; lia). cbn [mbind option_bind].
  rewrite (proj2 (Z.ltb_lt _ 24)) by lia. cbn [negb].
  rewrite take_char_app, take_digits_pad by (simpl; lia). cbn [mbind option_bind].
  rewrite (proj2 (Z.ltb_lt _ 60)) by lia. cbn [negb].
  rewrite take_char_app, take_digits_pad by (simpl; lia). cbn [mbind option_bind].
  rewrite (proj2 (Z.ltb_lt _ 60)) by lia. cbn [negb].
  rewrite take_fraction_iso by done. simpl. do 2 f_equal. lia.
Qed.

Lemma take_date_iso o rest :
  1 ≤ o ≤ max_ordinal →
  take_date (pad 4 (ord2ymd o).(year) +:+ ("-" +:+ (pad 2 (ord2ymd o).(month) +:+
    ("-" +:+ (pad 2 (ord2ymd o).(day) +:+ rest))))) = Some (o, rest).
Proof.
  intros Ho. pose proof (ord_year_bounds o Ho) as Y.
  destruct (ord2ymd_spec o) as [[Vm Vd] E].
  assert (∀ leap m, days_in_month leap m < 100) as Dm
    by (intros leap m; unfold days_in_month; repeat case_match; lia).
  specialize (Dm (is_leap (ord2ymd o).(year)) (ord2ymd o).(month)).
  unfold take_date. rewrite take_digits_pad by (simpl; lia).
  cbn [mbind option_bind]. rewrite take_char_app. cbn [mbind option_bind].
  rewrite take_digits_pad by (simpl; lia). cbn [mbind option_bind].
  rewrite take_char_app. cbn [mbind option_bind].
  rewrite take_digits_pad by (simpl; lia). cbn [mbind option_bind]. rewrite !Z.add_0_l.
  destruct (ord2ymd o) as [y m d]; cbn [year month day] in *.
  replace (valid_ymdb (Ymd y m d)) with true; [by rewrite E|].
  symmetry. unfold valid_ymdb; cbn [year month day].
  rewrite !andb_true_iff, !Z.leb_le. lia.
Qed.

Lemma fromisoformat_iso t :
  0 ≤ t < max_instant → fromisoformat (iso_utc t) = Some (t, Some 0).
Proof.
  intros Ht. unfold max_instant in Ht.
  assert (1 ≤ t / day_us + 1 ≤ max_ordinal) as Ho.
  { unfold day_us, day_s, sec_us, max_ordinal in *. Z.to_euclidean_division_equations; lia. }
  assert (0 ≤ t mod day_us / sec_us < day_s) as Hs.
  { unfold day_us, day_s, sec_us in *. Z.to_euclidean_division_equations; lia. }
  pose proof (Z.mod_pos_bound t sec_us ltac:(unfold sec_us; lia)) as Hf.
  unfold fromisoformat, iso_utc. cbv zeta.
  rewrite take_date_iso by done.
  match goal with |- context ["T" +:+ ?r] => change ("T" +:+ r) with (String "T" r) end.
  cbv iota beta.
  rewrite take_clock_iso by done. simpl (take_offset _).
  do 2 f_equal. unfold day_us, day_s, sec_us in *. Z.to_euclidean_division_equations; lia.
Qed.

(** *** The characters of the text *)

Definition iso_char (c : ascii) : bool :=
  is_dec c || Ascii.eqb c "-" || Ascii.eqb c "T" || Ascii.eqb c ":" ||
  Ascii.eqb c "." || Ascii.eqb c "+".

Lemma pad_iso w n : str_forall iso_char (pad w n) = true.
Proof.
  revert n. induction w as [|w IH]; intros n; [done|].
  change (pad (S w) n) with (pad w (n / 10) +:+ String (digit (n mod 10)) EmptyString).
  rewrite str_forall_app, IH. simpl.
  destruct (digit_spec (n mod 10)) as [D _]; [apply Z.mod_pos_bound; lia|].
  unfold iso_char. by rewrite D.
Qed.

Lemma iso_utc_iso t : str_forall iso_char (iso_utc t) = true.
Proof.
  unfold iso_utc, iso_fraction. cbv zeta.
  rewrite !str_forall_app, !pad_iso. destruct (_ =? 0); [done|].
  rewrite !str_forall_app, pad_iso. done.
Qed.

Lemma iso_char_plain c : iso_char c = true → c_isspace c = false ∧ Ascii.eqb c "Z" = false.
Proof.
  unfold iso_char, is_dec, in_range, c_isspace. intros H.
  destruct (Ascii.eqb_spec c "Z") as [->|_]; [by vm_compute in H|]. split; [|done].
  repeat (apply orb_true_iff in H as [H|H]); try (apply Ascii.eqb_eq in H as ->; done).
  apply andb_true_iff in H as [H1 H2]. unfold in_range.
  apply Z.leb_le in H1, H2.
  repeat match goal with |- context [?a <=? ?b] => destruct (Z.leb_spec a b); try lia end;
  repeat match goal with |- context [?a =? ?b] => destruct (Z.eqb_spec a b); try lia end; done.
Qed.

Lemma iso_utc_plain t : strip (iso_utc t) = iso_utc t ∧ is_empty (iso_utc t) = false.
Proof.
  split.
  - apply strip_no_space. eapply str_forall_impl; [|apply (iso_utc_iso t)]. intros c Hc.
    by rewrite (proj1 (iso_char_plain c Hc)).
  - unfold iso_utc. cbv zeta. destruct (pad 4 _) eqn:E; [|done].
    apply (f_equal String.length) in E. by rewrite pad_length in E.
Qed.
