(* ===== verification/Cron.v ===== *)
(** * Cron: six-field expressions and the next occurrence

    Models [_expand_cron_field], [CronExpression] and [parse_timezone]'s result
    of src/openkapsel/execution/scheduler_store.py. *)

From Stdlib Require Import ZArith Lia Ascii String.
From stdpp Require Import base tactics list list_numbers sorting gmap strings pretty.
From S2P Require Import Prelude Calendar.

Local Open Scope Z_scope.

Definition MIN_SCHEDULE_INTERVAL_MINUTES : Z := 3.
Definition MIN_SCHEDULE_INTERVAL_SECONDS : Z := MIN_SCHEDULE_INTERVAL_MINUTES * 60.
Definition MAX_SCHEDULE_LOOKAHEAD_DAYS : Z := 366 * 8.

(** ** Fields *)

(** [_BASIC_CRON_FIELD]: one or more of the characters 0-9 * / , - *)
Definition cron_char (c : ascii) : bool :=
  is_dec c || Ascii.eqb c "*" || Ascii.eqb c "/" || Ascii.eqb c "," || Ascii.eqb c "-".
Definition basic_cron_field (s : string) : bool := negb (is_empty s) && str_forall cron_char s.

(** [int()] of a text that passed [isdigit]. *)
Definition to_int (s : string) : res exn Z :=
  match py_int s with
  | Some n => Ok n
  | None => Err (ValueError "invalid literal for int()")
  end.

(** One item of the comma-separated list: the range it denotes, or the error
    the loop body raises. *)
Definition expand_item (minimum maximum : Z) (name item : string) : res exn (Z * Z * Z) :=
  raise! (ScheduleError ("cron " +:+ name +:+ " contains an empty list item"))
    when is_empty item;
  let '(base, separator, step_text) := partition_on "/" item in
  let! step :=
    (if separator : bool then
       let step_error := ScheduleError ("cron " +:+ name +:+ " step must be a positive integer") in
       raise! step_error when negb (isdigit step_text);
       let! n := to_int step_text in
       raise! step_error when (n <? 1);
       Ok n
     else Ok 1) in
  let! (start, stop) :=
    (if String.eqb base "*" then Ok (minimum, maximum)
     else if has_char "-" base then
       let '(start_text, range_separator, end_text) := partition_on "-" base in
       raise! (ScheduleError ("cron " +:+ name +:+ " range is invalid"))
         when negb (range_separator : bool) || negb (isdigit start_text) || negb (isdigit end_text);
       let! a := to_int start_text in
       let! b := to_int end_text in
       Ok (a, b)
     else if isdigit base then
       let! a := to_int base in
       Ok (a, if separator : bool then maximum else a)
     else Err (ScheduleError ("cron " +:+ name +:+ " item is invalid"))) in
  raise! (ScheduleError ("cron " +:+ name +:+ " values must be between " +:+
            pretty minimum +:+ " and " +:+ pretty maximum))
    when (start <? minimum) || (maximum <? stop) || (stop <? start);
  Ok (start, stop, step).

Fixpoint expand_items (minimum maximum : Z) (name : string) (result : gset Z)
    (items : list string) : res exn (gset Z) :=
  match items with
  | [] => Ok result
  | item :: items' =>
      let! (start, stop, step) := expand_item minimum maximum name item in
      expand_items minimum maximum name
        (result ∪ list_to_set (zrange start (stop + 1) step)) items'
  end.

(** Sunday may be written 7. *)
Definition sunday (normalize : bool) (s : gset Z) : gset Z :=
  if normalize && bool_decide (7 ∈ s) then s ∖ {[7]} ∪ {[0]} else s.

Definition full_field (minimum maximum : Z) (normalize : bool) : gset Z :=
  if normalize then list_to_set (zrange 0 7 1)
  else list_to_set (zrange minimum (maximum + 1) 1).

Definition expand_cron_field (value : string) (minimum maximum : Z) (name : string)
    (normalize_sunday : bool) : res exn (gset Z * bool) :=
  raise! (ScheduleError ("cron " +:+ name +:+ " supports only numbers, *, ranges, lists, and steps"))
    when is_empty value || negb (basic_cron_field value);
  let! result := expand_items minimum maximum name ∅ (split_on "," value) in
  let result := sunday normalize_sunday result in
  Ok (result, bool_decide (result = full_field minimum maximum normalize_sunday)).

(** ** Expressions *)

Record CronExpression := {
  expression : string;
  second : Z;
  minutes : gset Z;
  hours : gset Z;
  days : gset Z;
  months : gset Z;
  weekdays : gset Z;
  days_unrestricted : bool;
  weekdays_unrestricted : bool;
  daily_seconds : list Z
}.

Definition daily (second : Z) (minutes hours : gset Z) : list Z :=
  hour ← zsorted hours; (λ minute, hour * 3600 + minute * 60 + second) <$> zsorted minutes.

(** [zip(circular, circular[1:])], as differences. *)
Fixpoint gaps (l : list Z) : list Z :=
  match l with
  | x :: (y :: _) as t => (y - x) :: gaps t
  | _ => []
  end.

(** [min] of the gaps of the day closed into a circle; [None] when the day is
    empty, where the source would raise [IndexError]. *)
Definition minimum_gap (l : list Z) : option Z :=
  match l with
  | [] => None
  | first :: _ =>
      match gaps (l ++ [first + 24 * 60 * 60]) with
      | [] => None
      | g :: gs => Some (foldr Z.min g gs)
      end
  end.

Definition parse (expression : string) : res exn CronExpression :=
  match split_ws expression with
  | [second_text; minute_text; hour_text; day_text; month_text; weekday_text] =>
      let second_error := ScheduleError "cron second must be one explicit integer between 0 and 59" in
      raise! second_error when negb (isdigit second_text);
      let! second := to_int second_text in
      raise! second_error when (second <? 0) || (59 <? second);
      let! (minutes, _) := expand_cron_field minute_text 0 59 "minute" false in
      let! (hours, _) := expand_cron_field hour_text 0 23 "hour" false in
      let! (days, days_unrestricted) := expand_cron_field day_text 1 31 "day" false in
      let! (months, _) := expand_cron_field month_text 1 12 "month" false in
      let! (weekdays, weekdays_unrestricted) :=
        expand_cron_field weekday_text 0 7 "weekday" true in
      let daily_seconds := daily second minutes hours in
      match minimum_gap daily_seconds with
      | None => Err (ValueError "min() arg is an empty sequence")
      | Some gap =>
          raise! (ScheduleError "cron occurrences must be at least 3 minutes apart")
            when (gap <? MIN_SCHEDULE_INTERVAL_SECONDS);
          Ok {| expression := String.concat " " (split_ws expression);
                second := second; minutes := minutes; hours := hours; days := days;
                months := months; weekdays := weekdays;
                days_unrestricted := days_unrestricted;
                weekdays_unrestricted := weekdays_unrestricted;
                daily_seconds := daily_seconds |}
      end
  | _ => Err (ScheduleError "cron expression must contain exactly six fields: second minute hour day month weekday")
  end.

Definition date_matches (c : CronExpression) (o : Z) : bool :=
  let d := ord2ymd o in
  if negb (bool_decide (d.(month) ∈ c.(months))) then false else
  let day_matches := bool_decide (d.(day) ∈ c.(days)) in
  let cron_weekday := (weekday o + 1) mod 7 in
  let weekday_matches := bool_decide (cron_weekday ∈ c.(weekdays)) in
  if c.(days_unrestricted) && c.(weekdays_unrestricted) then true
  else if c.(days_unrestricted) then weekday_matches
  else if c.(weekdays_unrestricted) then day_matches
  else day_matches || weekday_matches.

(** ** Time zones

    The zone database is data outside the program: a zone is the pair of
    conversions [datetime.astimezone] provides, the second one with the [fold]
    attribute of the local time. *)

Record zone := { to_local : Z → Z; to_utc : bool → Z → Z }.

Definition valid_utc_candidates (local_naive : Z) (z : zone) : list Z :=
  let u0 := to_utc z false local_naive in
  let u1 := to_utc z true local_naive in
  let seen := if to_local z u0 =? local_naive then [u0] else [] in
  seen ++ (if bool_decide (u1 ∈ seen) then []
           else if to_local z u1 =? local_naive then [u1] else []).

(** [datetime.combine(date, time(h, m, s))] *)
Definition combine_date (o seconds : Z) : Z :=
  let hour := seconds / 3600 in
  let remainder := seconds mod 3600 in
  let minute := remainder / 60 in
  let second := remainder mod 60 in
  (o - 1) * day_us + (hour * 3600 + minute * 60 + second) * sec_us.

Definition better (after : Z) (best : option Z) (candidate : Z) : option Z :=
  if (after <? candidate) &&
     match best with None => true | Some b => candidate <? b end
  then Some candidate else best.

Definition day_candidates (c : CronExpression) (z : zone) (o : Z) : list Z :=
  seconds ← c.(daily_seconds); valid_utc_candidates (combine_date o seconds) z.

Fixpoint next_from (c : CronExpression) (z : zone) (after : Z) (o : Z) (fuel : nat) : res exn Z :=
  match fuel with
  | O => Err (ScheduleError "cron expression has no occurrence within eight years")
  | S fuel' =>
      if max_ordinal <? o then Err OverflowError
      else if negb (date_matches c o) then next_from c z after (o + 1) fuel'
      else match foldl (better after) None (day_candidates c z o) with
           | Some best => Ok best
           | None => next_from c z after (o + 1) fuel'
           end
  end.

Definition local_date (z : zone) (u : Z) : Z := to_local z u / day_us + 1.

Definition next_after (c : CronExpression) (after : Z) (z : zone) : res exn Z :=
  next_from c z after (local_date z after) (Z.to_nat (MAX_SCHEDULE_LOOKAHEAD_DAYS + 1)).

(** ** What a field denotes *)

(** The values one item covers. *)
Definition item_covers (minimum maximum : Z) (name item : string) (x : Z) : Prop :=
  ∃ start stop step, expand_item minimum maximum name item = Ok (start, stop, step) ∧
    start ≤ x ≤ stop ∧ (x - start) mod step = 0.

(** Every step of an item of a field is a positive range inside the bounds. *)
Lemma expand_item_bounds lo hi name item a b k :
  expand_item lo hi name item = Ok (a, b, k) → lo ≤ a ≤ b ∧ b ≤ hi ∧ 1 ≤ k.
Proof.
  unfold expand_item. intros H.
  destruct (is_empty item); [done|].
  destruct (partition_on "/" item) as [[base sep] st].
  match type of H with context [match ?m with Ok step => _ | Err e => _ end] =>
    destruct m as [step|] eqn:Es; [|done] end.
  assert (1 ≤ step) as Hstep.
  { destruct sep; [|naive_solver lia]. cbn zeta in Es.
    destruct (negb (isdigit st)); [done|]. destruct (to_int st) as [n|]; [|done].
    destruct (n <? 1) eqn:En; [done|]. bools. naive_solver lia. }
  match type of H with context [match ?m with Ok _ => _ | Err e => _ end] =>
    destruct m as [[start stop]|]; [|done] end.
  destruct (_ || _) eqn:Eb in H; [done|]. injection H as <- <- <-. bools. lia.
Qed.

Lemma expand_items_elem lo hi name items acc r :
  expand_items lo hi name acc items = Ok r →
  ∀ x, x ∈ r ↔ x ∈ acc ∨ ∃ item, item ∈ items ∧ item_covers lo hi name item x.
Proof.
  revert acc. induction items as [|item items IH]; intros acc H x; simpl in H.
  { simplify_eq. set_solver. }
  destruct (expand_item lo hi name item) as [[[a b] k]|] eqn:E; [|done].
  rewrite (IH _ H x), elem_of_union, elem_of_list_to_set.
  pose proof (expand_item_bounds _ _ _ _ _ _ _ E) as B.
  rewrite elem_of_zrange by lia. setoid_rewrite elem_of_cons.
  assert (item_covers lo hi name item x ↔ a ≤ x ≤ b ∧ (x - a) mod k = 0) as C.
  { unfold item_covers. rewrite E. split; [naive_solver|]. intros ?. by exists a, b, k. }
  split.
  - intros [[?|[? ?]]|(i & ? & ?)]; [by left| |]; right; [exists item | exists i]; split; eauto.
    apply C. split; [lia|done].
  - intros [?|(i & [->|?] & Hi)]; [by left; left| |right; eauto].
    left; right. apply C in Hi. split; [lia|tauto].
Qed.

Lemma expand_items_ok lo hi name items acc r item :
  expand_items lo hi name acc items = Ok r → item ∈ items →
  ∃ t, expand_item lo hi name item = Ok t.
Proof.
  revert acc. induction items as [|i items IH]; intros acc H Hin; simpl in H; [set_solver|].
  destruct (expand_item lo hi name i) as [[[a b] k]|] eqn:E; [|done].
  apply elem_of_cons in Hin as [->|Hin]; eauto.
Qed.

(** The values a field's text denotes: what some item covers, with Sunday's
    second spelling folded onto the first. *)
Definition field_denotes (value : string) (minimum maximum : Z) (name : string)
    (normalize_sunday : bool) (x : Z) : Prop :=
  ∃ item y, item ∈ split_on "," value ∧ item_covers minimum maximum name item y ∧
    x = (if normalize_sunday && (y =? 7) then 0 else y).

Lemma sunday_elem n s x :
  x ∈ sunday n s ↔ ∃ y, y ∈ s ∧ x = (if n && (y =? 7) then 0 else y).
Proof.
  unfold sunday. destruct n; simpl; [|set_solver].
  case_bool_decide as H7; split.
  - intros [[Hx Hn]%elem_of_difference | ->%elem_of_singleton]%elem_of_union.
    + exists x. destruct (Z.eqb_spec x 7); set_solver.
    + exists 7. done.
  - intros (y & Hy & ->). destruct (Z.eqb_spec y 7); set_solver.
  - intros Hx. exists x. destruct (Z.eqb_spec x 7) as [->|]; done.
  - intros (y & Hy & ->). destruct (Z.eqb_spec y 7) as [->|]; done.
Qed.

Lemma expand_cron_field_denotes value lo hi name n r full :
  expand_cron_field value lo hi name n = Ok (r, full) →
  (∀ x, x ∈ r ↔ field_denotes value lo hi name n x) ∧
  (full = true ↔ r = full_field lo hi n).
Proof.
  unfold expand_cron_field. intros H.
  destruct (_ || _); [done|].
  destruct (expand_items _ _ _ _ _) as [s|] eqn:E; [|done]. injection H as <- <-.
  split; [|by rewrite bool_decide_eq_true].
  intros x. rewrite sunday_elem. unfold field_denotes.
  setoid_rewrite (expand_items_elem _ _ _ _ _ _ E).
  split; [intros (y & [?|(i & ? & ?)] & ->); [set_solver|eauto 6] |].
  intros (i & y & ? & ? & ->). eauto 7.
Qed.

Lemma expand_cron_field_nonempty value lo hi name n r full :
  expand_cron_field value lo hi name n = Ok (r, full) → r ≠ ∅.
Proof.
  intros H. pose proof (proj1 (expand_cron_field_denotes _ _ _ _ _ _ _ H)) as D.
  unfold expand_cron_field in H. destruct (_ || _); [done|].
  destruct (expand_items _ _ _ _ _) as [s|] eqn:E; [|done].
  destruct (split_on "," value) as [|item items] eqn:Sp; [by apply split_on_nonempty in Sp|].
  destruct (expand_items_ok _ _ _ _ _ _ item E) as [[[a b] k] Ei]; [set_solver|].
  pose proof (expand_item_bounds _ _ _ _ _ _ _ Ei).
  assert ((if n && (a =? 7) then 0 else a) ∈ r) as Ha; [|set_solver].
  apply D. exists item, a. rewrite Sp. split_and!; [set_solver| |done].
  exists a, b, k. split_and!; auto; [lia..|]. by rewrite Z.sub_diag, Z.mod_0_l by lia.
Qed.

Definition within (lo hi : Z) (s : gset Z) : Prop := s ≠ ∅ ∧ ∀ x, x ∈ s → lo ≤ x ≤ hi.

Lemma expand_cron_field_within value lo hi name n r full :
  lo ≤ 0 ∨ n = false →
  expand_cron_field value lo hi name n = Ok (r, full) →
  within lo (if n then Z.max 0 (if hi =? 7 then 6 else hi) else hi) r.
Proof.
  intros Hn H. split; [by eapply expand_cron_field_nonempty|].
  intros x (item & y & _ & (a & b & k & E & ? & _) & ->)%(expand_cron_field_denotes _ _ _ _ _ _ _ H).
  pose proof (expand_item_bounds _ _ _ _ _ _ _ E).
  destruct n; simpl; [|lia]. destruct (Z.eqb_spec y 7), (Z.eqb_spec hi 7); naive_solver lia.
Qed.

(** ** Spacing of the occurrences of one day *)

Definition spaced (k : Z) (l : list Z) : Prop := StronglySorted (λ x y, x + k ≤ y) l.

Lemma gaps_spaced k l : 0 < k → Forall (λ g, k ≤ g) (gaps l) → spaced k l.
Proof.
  intros Hk. induction l as [|x [|y l] IH]; intros H.
  - constructor.
  - constructor; [constructor|done].
  - simpl in H. inversion H as [|? ? Hxy Hr]; subst. specialize (IH Hr).
    constructor; [done|]. inversion IH as [|? ? S F]; subst.
    constructor; [lia|]. eapply Forall_impl; [exact F|]. simpl. lia.
Qed.

Lemma foldr_min_le g gs : Forall (λ x, foldr Z.min g gs ≤ x) (g :: gs).
Proof.
  induction gs as [|h gs IH]; [by repeat constructor|]. simpl.
  inversion IH; subst. repeat constructor; [lia|lia|].
  eapply Forall_impl; [done|]. simpl. lia.
Qed.

Lemma minimum_gap_spaced l g first t :
  minimum_gap l = Some g → 0 < g → l = first :: t → spaced g (l ++ [first + 24 * 60 * 60]).
Proof.
  intros H Hg ->. apply gaps_spaced; [done|]. unfold minimum_gap in H.
  destruct (gaps _) as [|g0 gs]; [constructor|]. injection H as <-. apply foldr_min_le.
Qed.

Lemma spaced_weaken k k' l : k' ≤ k → spaced k l → spaced k' l.
Proof.
  intros Hk. induction 1 as [|x l S IH F]; constructor; [done|].
  eapply Forall_impl; [done|]. simpl. lia.
Qed.

Lemma spaced_pair k l x y : 0 < k → spaced k l → x ∈ l → y ∈ l → x < y → x + k ≤ y.
Proof.
  intros Hk. induction 1 as [|z l S IH F]; intros Hx Hy L; [set_solver|].
  rewrite Forall_forall in F.
  apply elem_of_cons in Hx as [->|Hx], Hy as [->|Hy]; auto; [lia|].
  specialize (F _ Hx). simpl in F. lia.
Qed.

Lemma spaced_wrap k l f e x y :
  0 < k → spaced k ((f :: l) ++ [e]) → x ∈ f :: l → y ∈ f :: l → x + k ≤ y + (e - f).
Proof.
  intros Hk S Hx Hy.
  assert (x + k ≤ e) as Hxe.
  { revert S Hx. generalize (f :: l) as m. induction m as [|z m IH]; intros S Hx; [set_solver|].
    inversion S as [|? ? S' F]; subst. rewrite Forall_forall in F.
    apply elem_of_cons in Hx as [->|Hx]; [apply F; set_solver|auto]. }
  assert (f ≤ y) as Hfy.
  { apply elem_of_cons in Hy as [->|Hy]; [lia|].
    inversion S as [|? ? S' F]; subst. rewrite Forall_forall in F.
    specialize (F y ltac:(set_solver)). lia. }
  lia.
Qed.

(** ** Well-formed expressions *)

(** The seconds of the day at which an expression can fire are at least the
    minimum interval apart, also across midnight. *)
Definition day_spaced (l : list Z) : Prop :=
  ∀ x y, x ∈ l → y ∈ l →
    (x < y → x + MIN_SCHEDULE_INTERVAL_SECONDS ≤ y) ∧
    x + MIN_SCHEDULE_INTERVAL_SECONDS ≤ y + day_s.

Record wf_cron (c : CronExpression) : Prop := {
  wf_second : 0 ≤ c.(second) ≤ 59;
  wf_minutes : within 0 59 c.(minutes);
  wf_hours : within 0 23 c.(hours);
  wf_days : within 1 31 c.(days);
  wf_months : within 1 12 c.(months);
  wf_weekdays : within 0 6 c.(weekdays);
  wf_days_any : c.(days_unrestricted) = true ↔ ∀ x, 1 ≤ x ≤ 31 → x ∈ c.(days);
  wf_weekdays_any : c.(weekdays_unrestricted) = true ↔ ∀ x, 0 ≤ x ≤ 6 → x ∈ c.(weekdays);
  wf_daily : ∀ s, s ∈ c.(daily_seconds) ↔ ∃ h m, h ∈ c.(hours) ∧ m ∈ c.(minutes) ∧
    s = h * 3600 + m * 60 + c.(second);
  wf_spaced : day_spaced c.(daily_seconds)
}.

Lemma daily_elem s mins hrs x :
  x ∈ daily s mins hrs ↔ ∃ h m, h ∈ hrs ∧ m ∈ mins ∧ x = h * 3600 + m * 60 + s.
Proof.
  unfold daily. rewrite list_elem_of_bind. setoid_rewrite list_elem_of_fmap.
  setoid_rewrite zsorted_elem. naive_solver.
Qed.

Lemma minimum_gap_day l g :
  minimum_gap l = Some g → MIN_SCHEDULE_INTERVAL_SECONDS ≤ g → day_spaced l.
Proof.
  intros H Hg. unfold MIN_SCHEDULE_INTERVAL_SECONDS, MIN_SCHEDULE_INTERVAL_MINUTES in *.
  destruct l as [|f t]; [done|].
  assert (spaced (3 * 60) ((f :: t) ++ [f + 24 * 60 * 60])) as S.
  { eapply spaced_weaken, minimum_gap_spaced; [exact Hg|done|lia|done]. }
  intros x y Hx Hy. unfold MIN_SCHEDULE_INTERVAL_SECONDS, MIN_SCHEDULE_INTERVAL_MINUTES. split.
  - intros L. eapply spaced_pair; [lia|exact S|set_solver..|done].
  - pose proof (spaced_wrap (3 * 60) t f (f + 24 * 60 * 60) x y ltac:(lia) S Hx Hy).
    unfold day_s. lia.
Qed.

(** A field whose set is the whole interval is the unrestricted one. *)
Lemma full_field_iff (lo hi : Z) (n : bool) (r : gset Z) :
  (∀ x, x ∈ r → (if n then 0 else lo) ≤ x ≤ (if n then 6 else hi)) →
  r = full_field lo hi n ↔
  (∀ x, (if n then 0 else lo) ≤ x ≤ (if n then 6 else hi) → x ∈ r).
Proof.
  intros B. unfold full_field.
  assert (∀ a b (x : Z), x ∈ (list_to_set (zrange a (b + 1) 1) : gset Z) ↔ a ≤ x ≤ b) as Z1.
  { intros a b x. rewrite elem_of_list_to_set, elem_of_zrange, Z.mod_1_r by lia. lia. }
  split.
  - intros -> x Hx. destruct n; [change 7 with (6 + 1)|]; apply Z1; lia.
  - intros H. apply leibniz_equiv. intros x. destruct n; [change 7 with (6 + 1)|]; rewrite Z1; naive_solver.
Qed.

Lemma parse_wf e c : parse e = Ok c → wf_cron c.
Proof.
  unfold parse. intros H.
  destruct (split_ws e) as [|f1 [|f2 [|f3 [|f4 [|f5 [|f6 [|]]]]]]]; try done.
  cbn zeta in H. destruct (negb (isdigit f1)); [done|].
  destruct (to_int f1) as [sec|] eqn:Es; [|done].
  destruct ((sec <? 0) || (59 <? sec)) eqn:Eb; [done|].
  destruct (expand_cron_field f2 _ _ _ _) as [[mi fm]|] eqn:E2; [|done].
  destruct (expand_cron_field f3 _ _ _ _) as [[ho fh]|] eqn:E3; [|done].
  destruct (expand_cron_field f4 _ _ _ _) as [[da fd]|] eqn:E4; [|done].
  destruct (expand_cron_field f5 _ _ _ _) as [[mo fo]|] eqn:E5; [|done].
  destruct (expand_cron_field f6 _ _ _ _) as [[we fw]|] eqn:E6; [|done].
  destruct (minimum_gap _) as [g|] eqn:Eg; [|done].
  destruct (g <? _) eqn:El; [done|]. injection H as <-.
  pose proof (expand_cron_field_within _ _ _ _ _ _ _ (or_intror eq_refl) E4) as [D1 D2].
  pose proof (expand_cron_field_within _ _ _ _ _ _ _ (or_introl (Z.le_refl 0)) E6) as [W1 W2].
  bools. split; simpl.
  - lia.
  - by apply expand_cron_field_within in E2; [|right].
  - by apply expand_cron_field_within in E3; [|right].
  - by split.
  - by apply expand_cron_field_within in E5; [|right].
  - by split.
  - rewrite (proj2 (expand_cron_field_denotes _ _ _ _ _ _ _ E4)). by apply (full_field_iff 1 31 false).
  - rewrite (proj2 (expand_cron_field_denotes _ _ _ _ _ _ _ E6)). by apply (full_field_iff 0 7 true).
  - apply daily_elem.
  - by eapply minimum_gap_day.
Qed.

(** ** Occurrences *)

(** An instant is an occurrence when the local clock shows a whole second of
    [daily_seconds] on a matching date. *)
Definition occurs (c : CronExpression) (z : zone) (u : Z) : Prop :=
  let l := to_local z u in
  l mod sec_us = 0 ∧ l mod day_us / sec_us ∈ c.(daily_seconds) ∧
  date_matches c (local_date z u) = true.

(** What the conversions promise (PEP 495): [fold] distinguishes the at most two
    instants with one local time. *)
Class ZoneLaws (z : zone) : Prop :=
  fold_complete : ∀ u, to_utc z false (to_local z u) = u ∨ to_utc z true (to_local z u) = u.

(** Between two instants the local date does not go back.  It does in zones that turn
    the clock back shortly after midnight. *)
Definition dates_advance (z : zone) (a b : Z) : Prop :=
  ∀ u v, a ≤ u → u ≤ v → v ≤ b → local_date z u ≤ local_date z v.

(** A zone with a constant offset from UTC. *)
Definition fixed_zone (offset : Z) : zone :=
  {| to_local := λ u, u + offset; to_utc := λ _ l, l - offset |}.

#[export] Instance fixed_zone_laws offset : ZoneLaws (fixed_zone offset).
Proof. intros u. simpl. lia. Qed.

(** A clock that never goes back shows no earlier date. *)
Lemma clock_advances z a b : (∀ u v, u ≤ v → to_local z u ≤ to_local z v) → dates_advance z a b.
Proof.
  intros H u v _ L _. unfold local_date. apply Z.add_le_mono_r, Z.div_le_mono; [done|by apply H].
Qed.

(** A zone whose clock jumps forward by one hour at the instant [gap]; the
    skipped local times belong to no instant. *)
Definition forward_zone (gap : Z) : zone :=
  {| to_local := λ u, if u <? gap then u else u + 3600 * sec_us;
     to_utc := λ fold l,
       if l <? gap then l
       else if l <? gap + 3600 * sec_us then (if fold then l - 3600 * sec_us else l)
       else l - 3600 * sec_us |}.

#[export] Instance forward_zone_laws gap : ZoneLaws (forward_zone gap).
Proof.
  intros u. simpl. unfold sec_us. left. destruct (Z.ltb_spec u gap).
  - by rewrite (proj2 (Z.ltb_lt u gap)).
  - rewrite (proj2 (Z.ltb_ge _ gap)), (proj2 (Z.ltb_ge _ (gap + _))) by lia. lia.
Qed.

Lemma forward_zone_advances gap a b : dates_advance (forward_zone gap) a b.
Proof.
  apply clock_advances. intros u v H. simpl. unfold sec_us.
  destruct (Z.ltb_spec u gap), (Z.ltb_spec v gap); lia.
Qed.

(** A zone whose clock is turned back by one hour at the instant [turn]; the local
    times of the hour before it come twice. *)
Definition backward_zone (turn : Z) : zone :=
  {| to_local := λ u, if u <? turn then u else u - 3600 * sec_us;
     to_utc := λ fold l,
       if l <? turn - 3600 * sec_us then l
       else if l <? turn then (if fold then l + 3600 * sec_us else l)
       else l + 3600 * sec_us |}.

#[export] Instance backward_zone_laws turn : ZoneLaws (backward_zone turn).
Proof.
  intros u. simpl. unfold sec_us. destruct (Z.ltb_spec u turn); repeat case_match; bools; lia.
Qed.

Lemma candidates_round_trip l z u : u ∈ valid_utc_candidates l z → to_local z u = l.
Proof.
  unfold valid_utc_candidates. set (seen := if _ =? _ then _ else _).
  assert (∀ v, v ∈ seen → to_local z v = l) as Hs.
  { intros v. unfold seen. destruct (Z.eqb_spec (to_local z (to_utc z false l)) l); set_solver. }
  intros [?|H]%elem_of_app; [auto|]. case_bool_decide; [set_solver|].
  destruct (Z.eqb_spec (to_local z (to_utc z true l)) l); set_solver.
Qed.

Lemma candidates_complete z `{!ZoneLaws z} u : u ∈ valid_utc_candidates (to_local z u) z.
Proof.
  unfold valid_utc_candidates. apply elem_of_app.
  destruct (fold_complete u) as [-> | E].
  - left. rewrite Z.eqb_refl. set_solver.
  - rewrite E. case_bool_decide; [by left|]. right. rewrite Z.eqb_refl. set_solver.
Qed.

Lemma combine_date_eq o s : combine_date o s = (o - 1) * day_us + s * sec_us.
Proof.
  unfold combine_date. pose proof (Z.div_mod s 3600). pose proof (Z.div_mod (s mod 3600) 60). nia.
Qed.

(** The clock fields of a local time built by [combine_date]. *)
Lemma combine_date_fields o s l :
  0 ≤ s < day_s → l = combine_date o s →
  l mod sec_us = 0 ∧ l mod day_us / sec_us = s ∧ l / day_us + 1 = o.
Proof.
  intros Hs ->. rewrite combine_date_eq. unfold day_us, day_s, sec_us in *.
  assert (0 ≤ s * 1000000 < 86400 * 1000000) by lia.
  assert (((o - 1) * (86400 * 1000000) + s * 1000000) mod (86400 * 1000000) = s * 1000000) as ->
    by (symmetry; apply Z.mod_unique_pos with (o - 1); lia).
  assert (((o - 1) * (86400 * 1000000) + s * 1000000) / (86400 * 1000000) = o - 1) as ->
    by (symmetry; apply Z.div_unique_pos with (s * 1000000); lia).
  rewrite Z.div_mul by lia. split_and!; [|done|lia].
  symmetry. apply Z.mod_unique_pos with ((o - 1) * 86400 + s); lia.
Qed.

Lemma clock_fields_combine l :
  l mod sec_us = 0 → l = combine_date (l / day_us + 1) (l mod day_us / sec_us).
Proof.
  rewrite combine_date_eq. unfold day_us, day_s, sec_us. intros H.
  Z.to_euclidean_division_equations. lia.
Qed.

Lemma wf_daily_range c s : wf_cron c → s ∈ c.(daily_seconds) → 0 ≤ s < day_s.
Proof.
  intros W (h & m & Hh & Hm & ->)%(wf_daily _ W).
  pose proof (wf_second _ W). pose proof (proj2 (wf_hours _ W) _ Hh).
  pose proof (proj2 (wf_minutes _ W) _ Hm). unfold day_s. lia.
Qed.

(** The candidates of a matching day are occurrences on that local date. *)
Lemma day_candidates_occur c z o u :
  wf_cron c → date_matches c o = true → u ∈ day_candidates c z o →
  occurs c z u ∧ local_date z u = o.
Proof.
  unfold day_candidates. intros W M (s & Hu & Hs)%list_elem_of_bind.
  apply candidates_round_trip in Hu as Hl.
  destruct (combine_date_fields o s _ (wf_daily_range _ _ W Hs) Hl) as (F1 & F2 & F3).
  unfold occurs, local_date. rewrite F2, F3. auto.
Qed.

(** Conversely an occurrence is a candidate of its local date. *)
Lemma occurs_candidate c z `{!ZoneLaws z} u :
  occurs c z u → u ∈ day_candidates c z (local_date z u).
Proof.
  intros (H1 & H2 & _). unfold day_candidates. apply list_elem_of_bind.
  eexists; split; [|exact H2]. unfold local_date.
  rewrite <- clock_fields_combine by done. by apply candidates_complete.
Qed.

Lemma better_cases after b0 x :
  (better after b0 x = Some x ∧ after < x ∧ ∀ b, b0 = Some b → x < b) ∨
  (better after b0 x = b0 ∧ (x ≤ after ∨ ∃ b, b0 = Some b ∧ b ≤ x)).
Proof.
  unfold better. destruct (Z.ltb_spec after x); simpl; [|by right; auto].
  destruct b0 as [b|]; [destruct (Z.ltb_spec x b)|]; [left|right|left]; naive_solver.
Qed.

(** [better] folds to the least candidate after [after]. *)
Lemma foldl_better after l b0 :
  (∀ b, b0 = Some b → after < b) →
  match foldl (better after) b0 l with
  | Some b => (b0 = Some b ∨ b ∈ l) ∧ after < b ∧
      (∀ u, u ∈ l → after < u → b ≤ u) ∧ (∀ b', b0 = Some b' → b ≤ b')
  | None => b0 = None ∧ ∀ u, u ∈ l → ¬ after < u
  end.
Proof.
  revert b0. induction l as [|x l IH]; intros b0 Hb0; simpl.
  { destruct b0; [|set_solver]. split_and!; auto; [set_solver|naive_solver lia]. }
  destruct (better_cases after b0 x) as [(-> & Hx & Hb) | (-> & Hx)].
  - specialize (IH (Some x)). destruct (foldl _ _ l) as [b|]; [|naive_solver].
    destruct IH as (I1 & I2 & I3 & I4); [naive_solver|].
    specialize (I4 _ eq_refl). split_and!; auto; [set_solver| |].
    + intros u [->|?]%elem_of_cons; auto.
    + intros b' Hb'. specialize (Hb _ Hb'). lia.
  - specialize (IH _ Hb0). destruct (foldl _ _ l) as [b|].
    + destruct IH as (I1 & I2 & I3 & I4). split_and!; auto; [set_solver|].
      intros u [->|?]%elem_of_cons Hu; [|auto]. destruct Hx as [?|(b' & Hb' & ?)]; [lia|].
      specialize (I4 _ Hb'). lia.
    + destruct IH as [-> IH]. split; [done|].
      intros u [->|?]%elem_of_cons; [|auto]. destruct Hx as [?|(b' & ? & ?)]; [lia|done].
Qed.

(** ** The search for the next occurrence *)

(** Outcome of the search from the date [o]: the found instant is the least
    occurrence of its date, no earlier searched date has one, and a failed
    search saw every date of its window (or ran into the end of the calendar). *)
Lemma next_from_spec c z after o fuel :
  wf_cron c →
  match next_from c z after o fuel with
  | Ok t => ∃ d, o ≤ d < o + Z.of_nat fuel ∧ d ≤ max_ordinal ∧
      date_matches c d = true ∧ t ∈ day_candidates c z d ∧ after < t ∧
      (∀ u, u ∈ day_candidates c z d → after < u → t ≤ u) ∧
      (∀ d' u, o ≤ d' < d → date_matches c d' = true → u ∈ day_candidates c z d' → u ≤ after)
  | Err _ => ∀ d' u, o ≤ d' < o + Z.of_nat fuel → d' ≤ max_ordinal →
      date_matches c d' = true → u ∈ day_candidates c z d' → u ≤ after
  end.
Proof.
  intros W. revert o. induction fuel as [|fuel IH]; intros o; cbn [next_from]; [intros; lia|].
  destruct (Z.ltb_spec max_ordinal o); [intros; lia|].
  assert ((∀ u, date_matches c o = true → u ∈ day_candidates c z o → u ≤ after) →
    match next_from c z after (o + 1) fuel with
    | Ok t => ∃ d, o ≤ d < o + Z.of_nat (S fuel) ∧ d ≤ max_ordinal ∧
        date_matches c d = true ∧ t ∈ day_candidates c z d ∧ after < t ∧
        (∀ u, u ∈ day_candidates c z d → after < u → t ≤ u) ∧
        (∀ d' u, o ≤ d' < d → date_matches c d' = true → u ∈ day_candidates c z d' → u ≤ after)
    | Err _ => ∀ d' u, o ≤ d' < o + Z.of_nat (S fuel) → d' ≤ max_ordinal →
        date_matches c d' = true → u ∈ day_candidates c z d' → u ≤ after
    end) as Skip.
  { intros Ho. specialize (IH (o + 1)). destruct (next_from _ _ _ _ _) as [t|e].
    - destruct IH as (d & ? & ? & ? & ? & ? & ? & P). exists d. split_and!; auto; [lia..|].
      intros d' u ? ? ?. destruct (Z.eq_dec d' o) as [->|]; [eauto|]. apply (P d'); auto; lia.
    - intros d' u ? ? ? ?. destruct (Z.eq_dec d' o) as [->|]; [eauto|]. apply (IH d'); auto; lia. }
  destruct (date_matches c o) eqn:M; simpl; [|apply Skip; done].
  pose proof (foldl_better after (day_candidates c z o) None) as F.
  destruct (foldl _ _ _) as [b|].
  - destruct F as ([?|Hb] & Hab & Hmin & _); [done..|].
    exists o. split_and!; auto; lia.
  - apply Skip. intros u _ Hu. destruct F as [_ F]; [done|]. specialize (F _ Hu). lia.
Qed.

Lemma next_after_sound c z after t :
  wf_cron c → next_after c after z = Ok t → after < t ∧ occurs c z t.
Proof.
  intros W H. unfold next_after in H.
  pose proof (next_from_spec c z after (local_date z after)
    (Z.to_nat (MAX_SCHEDULE_LOOKAHEAD_DAYS + 1)) W) as S. rewrite H in S.
  destruct S as (d & _ & _ & M & C & L & _). split; [done|].
  by apply (day_candidates_occur _ _ _ _ W M).
Qed.

(** The order of the search: by local date, then by instant. *)
Definition searched_before (z : zone) (t u : Z) : Prop :=
  local_date z t < local_date z u ∨ local_date z t = local_date z u ∧ t ≤ u.

Lemma next_after_first c z `{!ZoneLaws z} after t :
  wf_cron c → next_after c after z = Ok t → local_date z after ≤ local_date z t ∧
  ∀ u, after < u → occurs c z u → local_date z after ≤ local_date z u → searched_before z t u.
Proof.
  intros W H. unfold next_after in H.
  pose proof (next_from_spec c z after (local_date z after)
    (Z.to_nat (MAX_SCHEDULE_LOOKAHEAD_DAYS + 1)) W) as S. rewrite H in S.
  destruct S as (d & D & _ & M & C & L & Min & Prev).
  destruct (day_candidates_occur _ _ _ _ W M C) as [_ Dt]. split; [lia|]. intros u Hu O Lu.
  pose proof (occurs_candidate c z u O) as Cu. destruct O as (_ & _ & Mu).
  unfold searched_before. rewrite Dt. destruct (Z.lt_total (local_date z u) d) as [Lt|[E|Gt]].
  - specialize (Prev _ u ltac:(split; [exact Lu|exact Lt]) Mu Cu). lia.
  - right. rewrite E in *. auto.
  - by left.
Qed.

Lemma next_after_least c z `{!ZoneLaws z} after t :
  wf_cron c → next_after c after z = Ok t → dates_advance z after t →
  ∀ u, after < u → occurs c z u → t ≤ u.
Proof.
  intros W H A u Hu O. destruct (Z.le_gt_cases t u) as [|G]; [done|]. exfalso.
  pose proof (A after u). pose proof (A u t).
  destruct (proj2 (next_after_first c z after t W H) u Hu O) as [?|[? ?]]; lia.
Qed.

Lemma next_after_total c z `{!ZoneLaws z} after u :
  wf_cron c → after < u → occurs c z u →
  local_date z after ≤ local_date z u ≤ local_date z after + MAX_SCHEDULE_LOOKAHEAD_DAYS →
  local_date z u ≤ max_ordinal →
  ∃ t, next_after c after z = Ok t.
Proof.
  intros W Hu O Hw Hm. unfold next_after.
  pose proof (next_from_spec c z after (local_date z after)
    (Z.to_nat (MAX_SCHEDULE_LOOKAHEAD_DAYS + 1)) W) as S.
  destruct (next_from _ _ _ _ _) as [t|e]; [by exists t|].
  assert (u ≤ after); [|lia].
  eapply (S (local_date z u)); [|done| |by apply occurs_candidate].
  - unfold MAX_SCHEDULE_LOOKAHEAD_DAYS in *. lia.
  - by destruct O as (_ & _ & ?).
Qed.

(** In a zone with a constant offset two occurrences are never closer than the
    minimum interval. *)
Lemma occurrences_spaced c offset u v :
  wf_cron c → occurs c (fixed_zone offset) u → occurs c (fixed_zone offset) v → u < v →
  u + MIN_SCHEDULE_INTERVAL_SECONDS * sec_us ≤ v.
Proof.
  unfold occurs; simpl. intros W (U1 & U2 & _) (V1 & V2 & _) L.
  destruct (wf_spaced _ W _ _ U2 V2) as [S1 S2].
  pose proof (wf_daily_range _ _ W U2) as RU. pose proof (wf_daily_range _ _ W V2) as RV.
  pose proof (clock_fields_combine _ U1) as CU. pose proof (clock_fields_combine _ V1) as CV.
  rewrite combine_date_eq in CU, CV.
  generalize dependent ((u + offset) mod day_us / sec_us).
  generalize dependent ((v + offset) mod day_us / sec_us).
  generalize dependent ((u + offset) / day_us). generalize dependent ((v + offset) / day_us).
  unfold MIN_SCHEDULE_INTERVAL_SECONDS, MIN_SCHEDULE_INTERVAL_MINUTES, day_us, day_s, sec_us.
  intros B A b HB S2 CV RV a HA S1 CU. intros. lia.
Qed.

(** ** The stored expression

    [parse] keeps the fields joined by single blanks; reading that text again
    gives the same expression, which is what a claim or a resume does. *)

Definition word (w : string) : Prop := w ≠ EmptyString ∧ no_space w.

Lemma split_ws_acc_word w s :
  no_space s → split_ws_acc w s = if is_empty (w +:+ s) then [] else [w +:+ s].
Proof.
  revert w. induction s as [|c s IH]; intros w H.
  { rewrite str_app_nil_r. done. }
  unfold no_space in H. simpl in H. apply andb_true_iff in H as [Hc Hs]. apply negb_true_iff in Hc.
  simpl. rewrite Hc, IH by done. by rewrite str_app_assoc.
Qed.

Lemma split_ws_acc_blank w s t :
  no_space s → w +:+ s ≠ EmptyString →
  split_ws_acc w (s +:+ String " " t) = (w +:+ s) :: split_ws_acc EmptyString t.
Proof.
  revert w. induction s as [|c s IH]; intros w H Hne.
  { rewrite str_app_nil_r in *. destruct w as [|c w]; [done|].
    change (EmptyString +:+ String " " t) with (String " " t). done. }
  unfold no_space in H. simpl in H. apply andb_true_iff in H as [Hc Hs]. apply negb_true_iff in Hc.
  rewrite str_app_cons. simpl. rewrite Hc.
  assert ((w +:+ String c "") +:+ s = w +:+ String c s) as E by (by rewrite str_app_assoc).
  rewrite IH, E; [done|done|by rewrite E].
Qed.

Lemma split_ws_concat ws : Forall word ws → split_ws (String.concat " " ws) = ws.
Proof.
  unfold split_ws. induction ws as [|w [|w' ws] IH]; intros H; [done| |].
  - inversion H as [|? ? [Hne Hs] _]; subst. simpl. rewrite split_ws_acc_word by done.
    destruct w; done.
  - inversion H as [|? ? [Hne Hs] Hr]; subst. specialize (IH Hr).
    change (String.concat " " (w :: w' :: ws))
      with (w +:+ (String " " EmptyString +:+ String.concat " " (w' :: ws))).
    change (String " " EmptyString +:+ String.concat " " (w' :: ws))
      with (String " " (String.concat " " (w' :: ws))).
    rewrite split_ws_acc_blank by done. by rewrite IH.
Qed.

Lemma no_space_snoc w c : no_space w → c_isspace c = false → no_space (w +:+ String c EmptyString).
Proof.
  unfold no_space. intros H Hc. rewrite str_forall_app, H. simpl. by rewrite Hc.
Qed.

Lemma split_ws_acc_words w s : no_space w → Forall word (split_ws_acc w s).
Proof.
  revert w. induction s as [|c s IH]; intros w H; simpl.
  - destruct w; simpl; repeat constructor; done.
  - destruct (c_isspace c) eqn:E.
    + destruct w; simpl; [by apply IH|]. constructor; [done|by apply IH].
    + apply IH. by apply no_space_snoc.
Qed.

Lemma parse_expression e c : parse e = Ok c → expression c = String.concat " " (split_ws e).
Proof.
  unfold parse. intros H.
  destruct (split_ws e) as [|f1 [|f2 [|f3 [|f4 [|f5 [|f6 [|]]]]]]]; try done.
  repeat (first [progress simplify_eq/= | case_match]); done.
Qed.

Lemma parse_reparse e c : parse e = Ok c → parse (expression c) = Ok c.
Proof.
  intros H. rewrite (parse_expression _ _ H).
  assert (split_ws (String.concat " " (split_ws e)) = split_ws e) as E.
  { apply split_ws_concat, split_ws_acc_words. done. }
  unfold parse in *. by rewrite E.
Qed.
