(* ===== verification/Timing.v ===== *)
(** * Timing: validation of a schedule's time expression

    Models [parse_datetime], [parse_timezone], [ScheduleTiming] and
    [validate_timing] of src/openkapsel/execution/scheduler_store.py. *)

From Stdlib Require Import ZArith Lia Ascii String.
From stdpp Require Import base tactics list gmap strings.
From S2P Require Import Prelude Calendar Cron.

Local Open Scope Z_scope.

(** [value.replace("Z", "+00:00")] *)
Fixpoint replace_Z (s : string) : string :=
  match s with
  | EmptyString => EmptyString
  | String c s' => if Ascii.eqb c "Z" then "+00:00" +:+ replace_Z s' else String c (replace_Z s')
  end.

Definition parse_datetime (value : json) (field : string) : res exn Z :=
  match value with
  | JStr s =>
      raise! (ScheduleError (field +:+ " must be a non-empty ISO 8601 datetime"))
        when is_empty (strip s);
      match fromisoformat (replace_Z (strip s)) with
      | None => Err (ScheduleError (field +:+ " must be a valid ISO 8601 datetime"))
      | Some (_, None) => Err (ScheduleError (field +:+ " must include a timezone"))
      | Some (local, Some offset) =>
          let utc := local - offset in
          if (0 <=? utc) && (utc <? max_instant) then Ok utc else Err OverflowError
      end
  | _ => Err (ScheduleError (field +:+ " must be a non-empty ISO 8601 datetime"))
  end.

(** [now + timedelta(minutes=m)] *)
Definition add_minutes (now minutes : Z) : res exn Z :=
  let t := now + minutes * 60 * sec_us in
  if (0 <=? t) && (t <? max_instant) then Ok t else Err OverflowError.

Inductive kind := cron | interval | once.
#[export] Instance kind_eq_dec : EqDecision kind.
Proof. solve_decision. Defined.

Record ScheduleTiming := {
  tm_type : kind;
  tm_expression : option string;
  tm_interval_minutes : option Z;
  tm_run_at : option Z;
  tm_timezone : string;
  tm_next_run_at : Z
}.

Section zones.
(** The zone database: [ZoneInfo(key)].  A missing key raises
    [ZoneInfoNotFoundError], a subclass of [KeyError]. *)
Variable zoneinfo : string → res exn zone.

Definition parse_timezone (value : json) : res exn zone :=
  match value with
  | JStr s =>
      raise! (ScheduleError "timezone must be a non-empty IANA timezone name")
        when is_empty (strip s);
      match zoneinfo (strip s) with
      | Err (KeyError _) => Err (ScheduleError "timezone must be a valid IANA timezone name")
      | r => r
      end
  | _ => Err (ScheduleError "timezone must be a non-empty IANA timezone name")
  end.

Definition text_of (v : json) : string := match v with JStr s => s | _ => EmptyString end.

(** [CronExpression.parse] of a value that may not be a string. *)
Definition parse_any (v : option json) : res exn CronExpression :=
  match v with
  | Some (JStr e) => parse e
  | _ => Err (ScheduleError "cron expression must be a string")
  end.

Definition validate_timing (value : json) (now : Z) : res exn ScheduleTiming :=
  match value with
  | JObj fields =>
      let kind_value := obj_get_or "type" JNull fields in
      let! known := in_strings kind_value ["cron"; "interval"; "once"] in
      raise! (ScheduleError "schedule type must be cron, interval, or once") when negb known;
      let timezone_value := obj_get_or "timezone" (JStr "UTC") fields in
      let! z := parse_timezone timezone_value in
      let timezone_name := strip (text_of timezone_value) in
      if String.eqb (text_of kind_value) "cron" then
        let! c := parse_any (obj_get "expression" fields) in
        let! next_run := next_after c now z in
        Ok {| tm_type := cron; tm_expression := Some (expression c);
              tm_interval_minutes := None; tm_run_at := None;
              tm_timezone := timezone_name; tm_next_run_at := next_run |}
      else if String.eqb (text_of kind_value) "interval" then
        match obj_get "minutes" fields with
        | Some (JInt minutes) =>
            raise! (ScheduleError "interval minutes must be at least 3")
              when (minutes <? MIN_SCHEDULE_INTERVAL_MINUTES);
            let! next_run := add_minutes now minutes in
            Ok {| tm_type := interval; tm_expression := None;
                  tm_interval_minutes := Some minutes; tm_run_at := None;
                  tm_timezone := timezone_name; tm_next_run_at := next_run |}
        | _ => Err (ScheduleError "interval minutes must be an integer")
        end
      else
        let! run_at := parse_datetime (obj_get_or "run_at" JNull fields) "once run_at" in
        raise! (ScheduleError "once run_at must be at least 3 minutes in the future")
          when (run_at <? now + MIN_SCHEDULE_INTERVAL_SECONDS * sec_us);
        Ok {| tm_type := once; tm_expression := None; tm_interval_minutes := None;
              tm_run_at := Some run_at; tm_timezone := timezone_name;
              tm_next_run_at := run_at |}
  | _ => Err (ScheduleError "schedule must be a JSON object")
  end.
End zones.

(** ** Text round trip *)

Lemma replace_Z_none s : str_forall iso_char s = true → replace_Z s = s.
Proof.
  induction s as [|c s IH]; simpl; [done|]. rewrite andb_true_iff. intros [Hc Hs].
  rewrite (proj2 (iso_char_plain c Hc)), IH by done. done.
Qed.

Lemma parse_datetime_iso t field :
  0 ≤ t < max_instant → parse_datetime (JStr (iso_utc t)) field = Ok t.
Proof.
  intros Ht. pose proof (iso_utc_iso t) as I. unfold parse_datetime.
  rewrite strip_no_space.
  2:{ eapply str_forall_impl; [|exact I]. intros c Hc.
      by rewrite (proj1 (iso_char_plain c Hc)). }
  rewrite replace_Z_none, fromisoformat_iso by done.
  assert (is_empty (iso_utc t) = false) as ->.
  { destruct (iso_utc t) eqn:E; [|done]. exfalso.
    pose proof (fromisoformat_iso t Ht) as F. by rewrite E in F. }
  rewrite Z.sub_0_r. destruct (Z.leb_spec 0 t), (Z.ltb_spec t max_instant); done || lia.
Qed.

(** ** Accepted timings *)

(** What a stored timing promises: the fields of its kind are present and can
    be read again, and the first run lies in the future. *)
Definition wf_timing (zoneinfo : string → res exn zone) (now : Z) (t : ScheduleTiming) : Prop :=
  (∃ z, parse_timezone zoneinfo (JStr t.(tm_timezone)) = Ok z) ∧ now < t.(tm_next_run_at) ∧
  match t.(tm_type) with
  | cron => ∃ e c, t.(tm_expression) = Some e ∧ parse e = Ok c
  | interval => ∃ m, t.(tm_interval_minutes) = Some m ∧ MIN_SCHEDULE_INTERVAL_MINUTES ≤ m ∧
      t.(tm_next_run_at) = now + m * 60 * sec_us
  | once => t.(tm_run_at) = Some t.(tm_next_run_at) ∧
      now + MIN_SCHEDULE_INTERVAL_SECONDS * sec_us ≤ t.(tm_next_run_at)
  end.

Lemma parse_timezone_strip zi s z :
  parse_timezone zi (JStr s) = Ok z → parse_timezone zi (JStr (strip s)) = Ok z.
Proof. unfold parse_timezone. by rewrite strip_idem. Qed.

Lemma validate_timing_wf zi v now t :
  validate_timing zi v now = Ok t → wf_timing zi now t.
Proof.
  destruct v as [| | | | | |fields]; try done. unfold validate_timing.
  destruct (in_strings _ _) as [known|]; [|done]. destruct (negb known); [done|].
  destruct (parse_timezone zi _) as [z|] eqn:Ez; [|done].
  assert (∃ z', parse_timezone zi (JStr (strip (text_of (obj_get_or "timezone" (JStr "UTC") fields)))) = Ok z') as Hz.
  { destruct (obj_get_or _ _ _); try done. simpl. eauto using parse_timezone_strip. }
  intros H. destruct (String.eqb _ "cron").
  { destruct (obj_get "expression" fields) as [[| | | |e| |]|]; try done. simpl in H.
    destruct (parse e) as [c|] eqn:Ep; [|done].
    destruct (next_after c now z) as [n|] eqn:En; [|done]. injection H as <-.
    unfold wf_timing; simpl. split_and!; [done| |].
    - by apply (next_after_sound c z now n (parse_wf _ _ Ep)).
    - eexists _, _. split; [done|]. by eapply parse_reparse. }
  destruct (String.eqb _ "interval").
  { destruct (obj_get "minutes" fields) as [[| |m| | | |]|]; try done.
    destruct (m <? _) eqn:Em; [done|]. destruct (add_minutes now m) as [n|] eqn:En; [|done].
    injection H as <-. unfold add_minutes in En. destruct (_ && _); [|done]. injection En as <-.
    bools. unfold MIN_SCHEDULE_INTERVAL_MINUTES in *. unfold wf_timing; simpl.
    unfold sec_us. split_and!; [done|lia|]. exists m. split_and!; [done|done|unfold sec_us; lia]. }
  destruct (parse_datetime _ _) as [r|]; [|done]. destruct (r <? _) eqn:Er; [done|].
  injection H as <-. bools. unfold wf_timing; simpl. split_and!; [done| |done|done].
  unfold MIN_SCHEDULE_INTERVAL_SECONDS, MIN_SCHEDULE_INTERVAL_MINUTES, sec_us in *. lia.
Qed.
