(* ===== verification/Scheduler.v ===== *)
(** * Scheduler: the persistent schedule store

    Models [ScheduleStore] of src/openkapsel/execution/scheduler_store.py.  The
    two tables are finite maps keyed by their primary keys.  A method is a
    function from the tables to a result with the new tables: every method
    body is one SQLite transaction, so a raised exception leaves the tables as
    they were.  The clock ([utc_now]) and the random identifiers are arguments.
    Timestamps are instants: the text the tables hold reads back as the instant
    ([Timing.parse_datetime_iso]) and sorts like it ([Calendar.iso_utc_mono]). *)

From Stdlib Require Import ZArith QArith Lia Ascii String.
From stdpp Require Import base tactics list sorting gmap strings pretty fin_maps.
From S2P Require Import Prelude Calendar Cron Timing.

Local Open Scope Z_scope.

Definition MAX_ACTIVE_SCHEDULES_PER_APP : nat := 32.
Definition MAX_SCHEDULE_NAME_CHARS : Z := 128.
Definition MAX_SCHEDULE_COMMAND_CHARS : Z := 100000.
Definition MAX_SCHEDULE_CWD_CHARS : Z := 4096.
Definition MAX_SCHEDULE_TASKNAME_CHARS : Z := 32.
Definition MAX_SCHEDULE_MESSAGE_CHARS : Z := 200.
Definition MAX_SCHEDULE_RUNS_PER_SCHEDULE : nat := 50.
Definition SCHEDULE_RUN_RETENTION_DAYS : Z := 30.
Definition MISFIRE_POLICIES : list string := ["skip"; "coalesce"].
Definition OVERLAP_POLICIES : list string := ["skip"].

(** ** Rows *)

Inductive status := active | paused | stopped | completed.
#[export] Instance status_eq_dec : EqDecision status.
Proof. solve_decision. Defined.

Inductive run_status :=
| claimed | running | succeeded | failed | skipped_overlap | skipped_capacity
| skipped_permission | missed | abandoned.
#[export] Instance run_status_eq_dec : EqDecision run_status.
Proof. solve_decision. Defined.

Record ScheduleRecord := {
  schedule_id : string;
  app_id : string;
  name : string;
  type : kind;
  expr : option string;
  interval_minutes : option Z;
  run_at : option Z;
  timezone : string;
  command : string;
  cwd : string;
  timeout_seconds : option Q;
  overlap_policy : string;
  misfire_policy : string;
  plan_id : Z;
  taskname : string;
  message : string;
  sched_status : status;
  next_run_at : option Z;
  running_task_id : option string;
  created_at : Z;
  updated_at : Z;
  revision : Z
}.

Record ScheduleRunRecord := {
  run_id : string;
  run_schedule_id : string;
  run_app_id : string;
  scheduled_at : Z;
  started_at : option Z;
  finished_at : option Z;
  rstatus : run_status;
  task_id : option string;
  exit_code : option Z;
  error : option string
}.

Record ScheduleClaim := { c_schedule : ScheduleRecord; c_run : ScheduleRunRecord; c_execute : bool }.

Record store := {
  schedules : gmap string ScheduleRecord;
  schedule_runs : gmap string ScheduleRunRecord
}.

Definition empty_store : store := {| schedules := ∅; schedule_runs := ∅ |}.

(** ** Column updates *)

(** UPDATE schedules SET status, next_run_at, updated_at, revision = revision + 1 *)
Definition set_state (r : ScheduleRecord) (s : status) (next : option Z) (now : Z) : ScheduleRecord :=
  {| schedule_id := r.(schedule_id); app_id := r.(app_id); name := r.(name); type := r.(type);
     expr := r.(expr); interval_minutes := r.(interval_minutes); run_at := r.(run_at);
     timezone := r.(timezone); command := r.(command); cwd := r.(cwd);
     timeout_seconds := r.(timeout_seconds); overlap_policy := r.(overlap_policy);
     misfire_policy := r.(misfire_policy); plan_id := r.(plan_id); taskname := r.(taskname);
     message := r.(message); sched_status := s; next_run_at := next;
     running_task_id := r.(running_task_id); created_at := r.(created_at);
     updated_at := now; revision := r.(revision) + 1 |}.

(** UPDATE schedules SET running_task_id, updated_at *)
Definition set_running (r : ScheduleRecord) (marker : option string) (now : Z) : ScheduleRecord :=
  {| schedule_id := r.(schedule_id); app_id := r.(app_id); name := r.(name); type := r.(type);
     expr := r.(expr); interval_minutes := r.(interval_minutes); run_at := r.(run_at);
     timezone := r.(timezone); command := r.(command); cwd := r.(cwd);
     timeout_seconds := r.(timeout_seconds); overlap_policy := r.(overlap_policy);
     misfire_policy := r.(misfire_policy); plan_id := r.(plan_id); taskname := r.(taskname);
     message := r.(message); sched_status := r.(sched_status); next_run_at := r.(next_run_at);
     running_task_id := marker; created_at := r.(created_at);
     updated_at := now; revision := r.(revision) |}.

(** UPDATE schedule_runs SET status, started_at, finished_at, task_id, exit_code, error *)
Definition set_run (r : ScheduleRunRecord) (s : run_status) (started finished : option Z)
    (task : option string) (code : option Z) (err : option string) : ScheduleRunRecord :=
  {| run_id := r.(run_id); run_schedule_id := r.(run_schedule_id); run_app_id := r.(run_app_id);
     scheduled_at := r.(scheduled_at); started_at := started; finished_at := finished;
     rstatus := s; task_id := task; exit_code := code; error := err |}.

Definition put_schedule (st : store) (r : ScheduleRecord) : store :=
  {| schedules := <[r.(schedule_id) := r]> st.(schedules); schedule_runs := st.(schedule_runs) |}.
Definition put_run (st : store) (r : ScheduleRunRecord) : store :=
  {| schedules := st.(schedules); schedule_runs := <[r.(run_id) := r]> st.(schedule_runs) |}.

(** SELECT * FROM schedules WHERE app_id = ? AND schedule_id = ? *)
Definition select (st : store) (app sid : string) : option ScheduleRecord :=
  match st.(schedules) !! sid with
  | Some r => if String.eqb r.(app_id) app then Some r else None
  | None => None
  end.

Definition no_schedule : exn := KeyError "schedule does not exist".

(** SELECT COUNT( * ) ... WHERE app_id = ? AND status IN ('active', 'paused') *)
Definition counted (app : string) (r : ScheduleRecord) : Prop :=
  r.(app_id) = app ∧ (r.(sched_status) = active ∨ r.(sched_status) = paused).
#[export] Instance counted_dec app r : Decision (counted app r).
Proof. unfold counted. apply _. Defined.

Definition active_count (st : store) (app : string) : nat :=
  size (filter (λ kv, counted app kv.2) st.(schedules)).

(** [active_count >= MAX_ACTIVE_SCHEDULES_PER_APP] *)
Definition quota_full (st : store) (app : string) : bool :=
  (MAX_ACTIVE_SCHEDULES_PER_APP <=? active_count st app)%nat.
Arguments quota_full : simpl never.

Lemma quota_full_false st app :
  quota_full st app = false → (active_count st app < MAX_ACTIVE_SCHEDULES_PER_APP)%nat.
Proof. unfold quota_full. apply Nat.leb_gt. Qed.

Definition quota_error : exn :=
  ScheduleError "an app identity cannot have more than 32 active or paused schedules".

Definition validate_text (value field : string) (maximum : Z) : res exn string :=
  let normalized := strip value in
  raise! (ScheduleError (field +:+ " must contain 1 to " +:+ pretty maximum +:+ " characters"))
    when is_empty normalized || (maximum <? slen normalized);
  Ok normalized.

Definition timeout_ok (t : option Q) : bool :=
  match t with
  | None => true
  | Some q => Qle_bool (1 # 10) q && Qle_bool q (86400 # 1)
  end.

(** ** Creating *)

Record create_args := {
  ca_name : string; ca_timing : ScheduleTiming; ca_command : string; ca_cwd : string;
  ca_timeout : option Q; ca_overlap : string; ca_misfire : string; ca_plan : Z;
  ca_taskname : string; ca_message : string
}.

Definition create (app : string) (a : create_args) (now : Z) (sid : string) (st : store)
  : res exn (ScheduleRecord * store) :=
  let! name := validate_text a.(ca_name) "name" MAX_SCHEDULE_NAME_CHARS in
  let! command := validate_text a.(ca_command) "command" MAX_SCHEDULE_COMMAND_CHARS in
  raise! (ScheduleError "cwd cannot exceed 4096 characters")
    when (MAX_SCHEDULE_CWD_CHARS <? slen a.(ca_cwd));
  raise! (ScheduleError "timeout_seconds must be null or between 0.1 and 86400")
    when negb (timeout_ok a.(ca_timeout));
  raise! (ScheduleError "overlap_policy must be skip")
    when negb (bool_decide (a.(ca_overlap) ∈ OVERLAP_POLICIES));
  raise! (ScheduleError "misfire_policy must be skip or coalesce")
    when negb (bool_decide (a.(ca_misfire) ∈ MISFIRE_POLICIES));
  raise! (ScheduleError "plan_id must be a positive integer") when (a.(ca_plan) <? 1);
  let! taskname := validate_text a.(ca_taskname) "taskname" MAX_SCHEDULE_TASKNAME_CHARS in
  let! message := validate_text a.(ca_message) "message" MAX_SCHEDULE_MESSAGE_CHARS in
  raise! quota_error when quota_full st app;
  raise! IntegrityError when bool_decide (is_Some (st.(schedules) !! sid));
  let t := a.(ca_timing) in
  let r :=
    {| schedule_id := sid; app_id := app; name := name; type := t.(tm_type);
       expr := t.(tm_expression); interval_minutes := t.(tm_interval_minutes);
       run_at := t.(tm_run_at); timezone := t.(tm_timezone); command := command;
       cwd := a.(ca_cwd); timeout_seconds := a.(ca_timeout); overlap_policy := a.(ca_overlap);
       misfire_policy := a.(ca_misfire); plan_id := a.(ca_plan); taskname := taskname;
       message := message; sched_status := active; next_run_at := Some t.(tm_next_run_at);
       running_task_id := None; created_at := now; updated_at := now; revision := 1 |} in
  Ok (r, put_schedule st r).

Definition get (app sid : string) (st : store) : res exn ScheduleRecord :=
  match select st app sid with Some r => Ok r | None => Err no_schedule end.

(** ** Updating *)

(** The optional arguments of [update]; a [None] timeout argument is the
    default [...], [Some None] clears the timeout. *)
Record update_args := {
  ua_name : option string; ua_timing : option ScheduleTiming; ua_command : option string;
  ua_cwd : option string; ua_timeout : option (option Q); ua_overlap : option string;
  ua_misfire : option string; ua_plan : option Z; ua_taskname : option string;
  ua_message : option string
}.

Definition opt_text (value : option string) (current field : string) (maximum : Z) : res exn string :=
  match value with None => Ok current | Some v => validate_text v field maximum end.

Definition update (app sid : string) (expected_revision : Z) (a : update_args) (now : Z)
    (st : store) : res exn (ScheduleRecord * store) :=
  raise! (ScheduleError "expected_revision must be a positive integer")
    when (expected_revision <? 1);
  match select st app sid with
  | None => Err no_schedule
  | Some cur =>
      raise! (ScheduleError "a completed schedule cannot be updated; create a new schedule")
        when bool_decide (cur.(sched_status) = completed);
      raise! (ScheduleError "schedule revision does not match expected_revision")
        when negb (cur.(revision) =? expected_revision);
      raise! (ScheduleError "a running schedule cannot be updated")
        when bool_decide (is_Some cur.(running_task_id));
      let! name := opt_text a.(ua_name) cur.(name) "name" MAX_SCHEDULE_NAME_CHARS in
      let! command := opt_text a.(ua_command) cur.(command) "command" MAX_SCHEDULE_COMMAND_CHARS in
      let new_cwd := default cur.(cwd) a.(ua_cwd) in
      raise! (ScheduleError "cwd cannot exceed 4096 characters")
        when match a.(ua_cwd) with Some c => MAX_SCHEDULE_CWD_CHARS <? slen c | None => false end;
      raise! (ScheduleError "timeout_seconds must be null or between 0.1 and 86400")
        when match a.(ua_timeout) with Some t => negb (timeout_ok t) | None => false end;
      raise! (ScheduleError "overlap_policy must be skip")
        when match a.(ua_overlap) with
             | Some p => negb (bool_decide (p ∈ OVERLAP_POLICIES)) | None => false end;
      raise! (ScheduleError "misfire_policy must be skip or coalesce")
        when match a.(ua_misfire) with
             | Some p => negb (bool_decide (p ∈ MISFIRE_POLICIES)) | None => false end;
      raise! (ScheduleError "plan_id must be a positive integer")
        when match a.(ua_plan) with Some p => p <? 1 | None => false end;
      let! taskname := opt_text a.(ua_taskname) cur.(taskname) "taskname" MAX_SCHEDULE_TASKNAME_CHARS in
      let! message := opt_text a.(ua_message) cur.(message) "message" MAX_SCHEDULE_MESSAGE_CHARS in
      let r :=
        {| schedule_id := cur.(schedule_id); app_id := cur.(app_id); name := name;
           type := match a.(ua_timing) with Some t => t.(tm_type) | None => cur.(type) end;
           expr := match a.(ua_timing) with Some t => t.(tm_expression) | None => cur.(expr) end;
           interval_minutes :=
             match a.(ua_timing) with Some t => t.(tm_interval_minutes) | None => cur.(interval_minutes) end;
           run_at := match a.(ua_timing) with Some t => t.(tm_run_at) | None => cur.(run_at) end;
           timezone := match a.(ua_timing) with Some t => t.(tm_timezone) | None => cur.(timezone) end;
           command := command; cwd := new_cwd;
           timeout_seconds := default cur.(timeout_seconds) a.(ua_timeout);
           overlap_policy := default cur.(overlap_policy) a.(ua_overlap);
           misfire_policy := default cur.(misfire_policy) a.(ua_misfire);
           plan_id := default cur.(plan_id) a.(ua_plan); taskname := taskname;
           message := message; sched_status := cur.(sched_status);
           next_run_at :=
             match a.(ua_timing) with
             | Some t => if bool_decide (cur.(sched_status) = active)
                         then Some t.(tm_next_run_at) else None
             | None => cur.(next_run_at)
             end;
           running_task_id := cur.(running_task_id); created_at := cur.(created_at);
           updated_at := now; revision := cur.(revision) + 1 |} in
      Ok (r, put_schedule st r)
  end.

(** ** Pausing, ending *)

Definition set_status (app sid : string) (s : status) (now : Z) (st : store)
  : res exn (ScheduleRecord * store) :=
  match select st app sid with
  | None => Err no_schedule
  | Some cur =>
      raise! (ScheduleError "only an active schedule can be paused")
        when bool_decide (s = paused) && negb (bool_decide (cur.(sched_status) = active));
      let r := set_state cur s None now in
      Ok (r, put_schedule st r)
  end.

Definition pause (app sid : string) (now : Z) (st : store) : res exn (ScheduleRecord * store) :=
  set_status app sid paused now st.

Definition end_schedule (app sid : string) (s : status) (now : Z) (st : store)
  : res exn (ScheduleRecord * store) :=
  raise! (ScheduleError "end status must be stopped or completed")
    when negb (bool_decide (s ∈ [stopped; completed]));
  match select st app sid with
  | None => Err no_schedule
  | Some cur =>
      raise! (ScheduleError "schedule end is only valid for cron or interval schedules")
        when bool_decide (cur.(type) = once);
      raise! (ScheduleError "a completed schedule cannot be restarted or stopped")
        when bool_decide (cur.(sched_status) = completed) && negb (bool_decide (s = completed));
      if bool_decide (cur.(sched_status) = s) then Ok (cur, st)
      else
        let r := set_state cur s None now in
        Ok (r, put_schedule st r)
  end.

Definition pause_app (app : string) (now : Z) (st : store) : nat * store :=
  (size (filter (λ kv, kv.2.(app_id) = app ∧ kv.2.(sched_status) = active) st.(schedules)),
   {| schedules := (λ r, if bool_decide (r.(app_id) = app ∧ r.(sched_status) = active)
                         then set_state r paused None now else r) <$> st.(schedules);
      schedule_runs := st.(schedule_runs) |}).

(** ** Resuming and claiming *)

Section zones.
Variable zoneinfo : string → res exn zone.

(** [_timing_for]: the record's own timing, validated again. *)
Definition timing_for (r : ScheduleRecord) (now : Z) : res exn ScheduleTiming :=
  let opt_str o := match o with Some s => JStr s | None => JNull end in
  validate_timing zoneinfo
    (JObj (match r.(type) with
           | cron => [("type", JStr "cron"); ("timezone", JStr r.(timezone));
                      ("expression", opt_str r.(expr))]
           | interval => [("type", JStr "interval"); ("timezone", JStr r.(timezone));
                          ("minutes", match r.(interval_minutes) with
                                      | Some m => JInt m | None => JNull end)]
           | once => [("type", JStr "once"); ("timezone", JStr r.(timezone));
                      ("run_at", match r.(run_at) with
                                 | Some t => JStr (iso_utc t) | None => JNull end)]
           end)%string) now.

Definition resume (app sid : string) (now : Z) (st : store) : res exn (ScheduleRecord * store) :=
  match select st app sid with
  | None => Err no_schedule
  | Some r =>
      raise! (ScheduleError "only a paused or stopped schedule can be resumed")
        when negb (bool_decide (r.(sched_status) ∈ [paused; stopped]));
      raise! (ScheduleError "a once schedule cannot be resumed after it is stopped")
        when bool_decide (r.(sched_status) = stopped) && bool_decide (r.(type) = once);
      raise! quota_error
        when bool_decide (r.(sched_status) = stopped) &&
             quota_full st app;
      let! timing := timing_for r now in
      let r' := set_state r active (Some timing.(tm_next_run_at)) now in
      Ok (r', put_schedule st r')
  end.

(** [_next_after_claim] *)
Definition next_after_claim (r : ScheduleRecord) (now : Z) : res exn (option Z) :=
  match r.(type) with
  | once => Ok None
  | interval =>
      match r.(interval_minutes) with
      | None => Err AssertionError
      | Some m => let! t := add_minutes now m in Ok (Some t)
      end
  | cron =>
      match r.(expr) with
      | None => Err AssertionError
      | Some e =>
          let! c := parse e in
          let! z := parse_timezone zoneinfo (JStr r.(timezone)) in
          let! t := next_after c now z in
          Ok (Some t)
      end
  end.

Definition live (s : run_status) : bool := bool_decide (s ∈ [claimed; running]).
#[global] Arguments live : simpl never.

(** WHERE schedule_id = ? AND (? IS NULL OR run_id != ?) AND status NOT IN
    ('claimed', 'running') *)
Definition prunable (sid : string) (keep : option string) (r : ScheduleRunRecord) : Prop :=
  r.(run_schedule_id) = sid ∧ keep ≠ Some r.(run_id) ∧ live r.(rstatus) = false.
#[export] Instance prunable_dec sid keep r : Decision (prunable sid keep r).
Proof. unfold prunable. apply _. Defined.

Definition delete_runs (P : ScheduleRunRecord → Prop) `{∀ r, Decision (P r)} (st : store) : store :=
  {| schedules := st.(schedules);
     schedule_runs := filter (λ kv, ¬ P kv.2) st.(schedule_runs) |}.

(** ORDER BY scheduled_at DESC *)
Definition later_first (a b : ScheduleRunRecord) : Prop := b.(scheduled_at) ≤ a.(scheduled_at).
#[export] Instance later_first_dec a b : Decision (later_first a b).
Proof. unfold later_first. apply _. Defined.

Definition history (st : store) (sid : string) (keep : option string) : list ScheduleRunRecord :=
  merge_sort later_first (filter (prunable sid keep) (map_to_list st.(schedule_runs)).*2).

Definition prune_runs (sid : string) (now : Z) (keep : option string) (st : store) : store :=
  let cutoff := now - SCHEDULE_RUN_RETENTION_DAYS * day_us in
  let st1 := delete_runs (λ r, prunable sid keep r ∧ r.(scheduled_at) < cutoff) st in
  let limit := (MAX_SCHEDULE_RUNS_PER_SCHEDULE - (match keep with Some _ => 1 | None => 0 end))%nat in
  let surplus := run_id <$> drop limit (history st1 sid keep) in
  delete_runs (λ r, r.(run_id) ∈ surplus) st1.

Definition claim_marker (rid : string) : string := "claim:" +:+ rid.

(** Reading the row a claim is about: with an [app_id] a missing row is an
    error, without one the claim is simply not there. *)
Definition claim_row (sid : string) (app : option string) (st : store)
  : res exn (option ScheduleRecord) :=
  match app with
  | Some a => match select st a sid with Some r => Ok (Some r) | None => Err no_schedule end
  | None => Ok (st.(schedules) !! sid)
  end.

(** The occurrence a claim takes, or [None] when nothing is due. *)
Definition claim_time (r : ScheduleRecord) (force : bool) (now : Z) : res exn (option Z) :=
  if force then
    raise! (ScheduleError "a stopped schedule cannot run; resume it first")
      when bool_decide (r.(sched_status) = stopped);
    raise! (ScheduleError "a completed schedule cannot run; create a new schedule")
      when bool_decide (r.(sched_status) = completed);
    raise! (ScheduleError "the schedule already has a running task")
      when bool_decide (is_Some r.(running_task_id));
    Ok (Some now)
  else
    match r.(next_run_at) with
    | Some due =>
        if negb (bool_decide (r.(sched_status) = active)) then Ok None
        else if now <? due then Ok None else Ok (Some due)
    | None => Ok None
    end.

(** Whether the run executes, its status and its error text. *)
Definition claim_outcome (r : ScheduleRecord) (force : bool) (now scheduled grace : Z)
  : bool * run_status * option string :=
  if bool_decide (is_Some r.(running_task_id)) then
    (false, skipped_overlap, Some "the previous scheduled task is still running"%string)
  else if negb force && String.eqb r.(misfire_policy) "skip" &&
          (grace * sec_us <? now - scheduled) then
    (false, missed, Some "the scheduled occurrence exceeded the misfire grace period"%string)
  else (true, claimed, None).

(** The inserted run. *)
Definition claim_run (r : ScheduleRecord) (rid : string) (scheduled : Z) (execute : bool)
    (rst : run_status) (err : option string) (now : Z) : ScheduleRunRecord :=
  {| run_id := rid; run_schedule_id := r.(schedule_id); run_app_id := r.(app_id);
     scheduled_at := scheduled; started_at := None;
     finished_at := if execute then None else Some now;
     rstatus := rst; task_id := None; exit_code := None; error := err |}.

(** The transaction of [claim_due]: the updated schedule, the run row as it
    reads back before the commit, and whether to execute. *)
Definition claim_txn (sid : string) (now grace : Z) (force : bool) (app : option string)
    (rid : string) (st : store)
  : res exn (option (ScheduleRecord * option ScheduleRunRecord * bool) * store) :=
  let! row := claim_row sid app st in
  match row with
  | None => Ok (None, st)
  | Some r =>
      let! due := claim_time r force now in
      match due with
      | None => Ok (None, st)
      | Some scheduled =>
          let '(execute, rst, err) := claim_outcome r force now scheduled grace in
          let! next := (if force : bool then Ok r.(next_run_at) else next_after_claim r now) in
          let new_status :=
            if negb force && bool_decide (r.(type) = once) then completed else r.(sched_status) in
          let marker := if execute : bool then Some (claim_marker rid) else r.(running_task_id) in
          let run := claim_run r rid scheduled execute rst err now in
          raise! IntegrityError when bool_decide (is_Some (st.(schedule_runs) !! rid));
          let st1 := prune_runs r.(schedule_id) now None (put_run st run) in
          let r' := set_running (set_state r new_status next now) marker now in
          let st2 := put_schedule st1 r' in
          Ok (Some (r', st2.(schedule_runs) !! rid, execute), st2)
      end
  end.

(** The assertion that both rows exist comes after the commit: when it fails
    the tables have already changed. *)
Definition claim_due (sid : string) (now grace : Z) (force : bool) (app : option string)
    (rid : string) (st : store) : res exn (option ScheduleClaim) * store :=
  match claim_txn sid now grace force app rid st with
  | Err e => (Err e, st)
  | Ok (None, st') => (Ok None, st')
  | Ok (Some (r, Some run, execute), st') =>
      (Ok (Some {| c_schedule := r; c_run := run; c_execute := execute |}), st')
  | Ok (Some (_, None, _), st') => (Err AssertionError, st')
  end.
End zones.

(** ** Runs *)

(** UPDATE schedules SET running_task_id = ... WHERE schedule_id = ? AND
    running_task_id = ? *)
Definition swap_marker (sid old : string) (new : option string) (now : option Z) (st : store) : store :=
  match st.(schedules) !! sid with
  | Some r =>
      if bool_decide (r.(running_task_id) = Some old)
      then put_schedule st (set_running r new (default r.(updated_at) now))
      else st
  | None => st
  end.

Definition bind_task (rid task : string) (now : Z) (st : store)
  : res exn (ScheduleRunRecord * store) :=
  match st.(schedule_runs) !! rid with
  | Some row =>
      if bool_decide (row.(rstatus) = claimed) then
        let row' := set_run row running (Some now) row.(finished_at) (Some task)
                      row.(exit_code) row.(error) in
        let st1 := put_run st row' in
        Ok (row', swap_marker row.(run_schedule_id) (claim_marker rid) (Some task) None st1)
      else Err (ScheduleError "schedule run is not awaiting a task")
  | None => Err (ScheduleError "schedule run is not awaiting a task")
  end.

(** [row["task_id"] or f"claim:{run_id}"] *)
Definition marker (r : ScheduleRunRecord) : string :=
  match r.(task_id) with
  | Some t => if is_empty t then claim_marker r.(run_id) else t
  | None => claim_marker r.(run_id)
  end.

Definition finish_run (rid : string) (s : run_status) (code : option Z) (err : option string)
    (now : Z) (st : store) : res exn (ScheduleRunRecord * store) :=
  raise! (ScheduleError "invalid terminal schedule run status") when live s;
  match st.(schedule_runs) !! rid with
  | None => Err (KeyError "schedule run does not exist")
  | Some row =>
      let row' := set_run row s row.(started_at) (Some now) row.(task_id) code err in
      let st1 := put_run st row' in
      let st2 := swap_marker row.(run_schedule_id) (marker row) None (Some now) st1 in
      let st3 := prune_runs row.(run_schedule_id) now (Some rid) st2 in
      Ok (row', st3)
  end.

Definition abandon_running (now : Z) (st : store) : nat * store :=
  (size (filter (λ kv, live kv.2.(rstatus) = true) st.(schedule_runs)),
   {| schedules := (λ r, if bool_decide (is_Some r.(running_task_id))
                         then set_running r None r.(updated_at) else r) <$> st.(schedules);
      schedule_runs := (λ r, if live r.(rstatus)
                             then set_run r abandoned r.(started_at) (Some now) r.(task_id)
                                    r.(exit_code) (Some "server restarted before the task completed"%string)
                             else r) <$> st.(schedule_runs) |}).

(** DELETE FROM schedules WHERE app_id = ?; the foreign key cascades. *)
Definition delete_app (app : string) (st : store) : nat * store :=
  let gone := filter (λ kv, kv.2.(app_id) = app) st.(schedules) in
  (size gone,
   {| schedules := filter (λ kv, kv.2.(app_id) ≠ app) st.(schedules);
      schedule_runs := filter (λ kv, gone !! kv.2.(run_schedule_id) = None) st.(schedule_runs) |}).

(** ** Reading *)

(** SELECT ... WHERE status = 'active' AND next_run_at IS NOT NULL ORDER BY
    next_run_at ASC LIMIT 1 *)
Definition earlier (best : option (Z * string)) (r : ScheduleRecord) : option (Z * string) :=
  match r.(next_run_at) with
  | Some t =>
      if bool_decide (r.(sched_status) = active) &&
         match best with None => true | Some (b, _) => t <? b end
      then Some (t, r.(schedule_id)) else best
  | None => best
  end.
Definition next_due (st : store) : option (Z * string) :=
  foldl earlier None (map_to_list st.(schedules)).*2.

Definition list_runs (app sid : string) (limit : Z) (st : store) : res exn (list ScheduleRunRecord) :=
  raise! (ScheduleError "run history limit must be between 1 and 200")
    when (limit <? 1) || (200 <? limit);
  let! _ := get app sid st in
  Ok (take (Z.to_nat limit)
        (merge_sort later_first
           (filter (λ r, r.(run_app_id) = app ∧ r.(run_schedule_id) = sid)
              (map_to_list st.(schedule_runs)).*2))).

Definition get_run (app rid : string) (st : store) : res exn ScheduleRunRecord :=
  match st.(schedule_runs) !! rid with
  | Some r => if String.eqb r.(run_app_id) app then Ok r
              else Err (KeyError "schedule run does not exist")
  | None => Err (KeyError "schedule run does not exist")
  end.

(** ** The store as a transition system

    One step is one method call that changes the tables, with fresh random
    identifiers: a new run's claim marker and a started task's identifier do
    not name a run that is already there.  The timing a caller passes is one
    [validate_timing] returned, as the HTTP handlers do. *)

Definition validated (zi : string → res exn zone) (t : ScheduleTiming) : Prop :=
  ∃ v now, validate_timing zi v now = Ok t.

Definition fresh_marker (st : store) (m : string) : Prop :=
  ∀ rid x, st.(schedule_runs) !! rid = Some x → marker x ≠ m.

Inductive step (zi : string → res exn zone) (st : store) : store → Prop :=
| step_create app a now sid r st' :
    validated zi a.(ca_timing) →
    create app a now sid st = Ok (r, st') → step zi st st'
| step_update app sid rev a now r st' :
    (∀ t, a.(ua_timing) = Some t → validated zi t) →
    update app sid rev a now st = Ok (r, st') → step zi st st'
| step_pause app sid now r st' :
    pause app sid now st = Ok (r, st') → step zi st st'
| step_resume app sid now r st' :
    resume zi app sid now st = Ok (r, st') → step zi st st'
| step_end app sid s now r st' :
    end_schedule app sid s now st = Ok (r, st') → step zi st st'
| step_pause_app app now :
    step zi st (pause_app app now st).2
| step_claim sid now grace force app rid :
    fresh_marker st (claim_marker rid) →
    step zi st (claim_due zi sid now grace force app rid st).2
| step_bind rid task now x st' :
    task ≠ ""%string → fresh_marker st task →
    bind_task rid task now st = Ok (x, st') → step zi st st'
| step_finish rid s code err now x st' :
    finish_run rid s code err now st = Ok (x, st') → step zi st st'
| step_abandon now :
    step zi st (abandon_running now st).2
| step_delete_app app :
    step zi st (delete_app app st).2.

Definition reachable (zi : string → res exn zone) : store → Prop := rtc (step zi) empty_store.

(** ** Invariants *)

(** Runs: every run belongs to a schedule, markers identify runs, and a
    schedule's [running_task_id] is the marker of its live run. *)
Record inv_runs (st : store) : Prop := {
  inv_run_key : ∀ rid x, st.(schedule_runs) !! rid = Some x → x.(run_id) = rid;
  inv_fk : ∀ rid x, st.(schedule_runs) !! rid = Some x → is_Some (st.(schedules) !! x.(run_schedule_id));
  inv_markers : ∀ rid rid' x y, st.(schedule_runs) !! rid = Some x →
    st.(schedule_runs) !! rid' = Some y → marker x = marker y → rid = rid';
  inv_live : ∀ sid r m, st.(schedules) !! sid = Some r →
    (r.(running_task_id) = Some m ↔
     ∃ rid x, st.(schedule_runs) !! rid = Some x ∧ x.(run_schedule_id) = sid ∧
       live x.(rstatus) = true ∧ marker x = m);
  inv_unbound : ∀ rid x, st.(schedule_runs) !! rid = Some x → x.(rstatus) = claimed →
    x.(task_id) = None
}.

(** *** Counting *)

Lemma active_count_dom st app :
  active_count st app = size (dom (filter (λ kv, counted app kv.2) st.(schedules))).
Proof. unfold active_count. by rewrite size_dom. Qed.

Lemma elem_counted (m : gmap string ScheduleRecord) app sid :
  sid ∈ dom (filter (λ kv, counted app kv.2) m) ↔ ∃ r, m !! sid = Some r ∧ counted app r.
Proof.
  rewrite elem_of_dom. unfold is_Some. setoid_rewrite map_lookup_filter_Some. simpl. naive_solver.
Qed.

Lemma active_count_le st st' app :
  (∀ sid r', st'.(schedules) !! sid = Some r' → counted app r' →
     ∃ r, st.(schedules) !! sid = Some r ∧ counted app r) →
  (active_count st' app ≤ active_count st app)%nat.
Proof.
  intros H. rewrite !active_count_dom. apply subseteq_size.
  intros sid (r & Hr & Hc)%elem_counted. apply elem_counted. eauto.
Qed.

Lemma active_count_put st r app :
  (active_count (put_schedule st r) app ≤ S (active_count st app))%nat.
Proof.
  rewrite !active_count_dom.
  transitivity (size ({[r.(schedule_id)]} ∪ dom (filter (λ kv, counted app kv.2) st.(schedules)))).
  - apply subseteq_size. intros sid (r' & Hr & Hc)%elem_counted. simpl in Hr.
    apply elem_of_union. destruct (decide (sid = r.(schedule_id))) as [->|]; [set_solver|].
    right. rewrite lookup_insert_ne in Hr by done. apply elem_counted. eauto.
  - rewrite size_union_alt, size_singleton.
    assert (size (dom (filter (λ kv, counted app kv.2) (schedules st)) ∖ {[r.(schedule_id)]})
      ≤ size (dom (filter (λ kv, counted app kv.2) (schedules st))))%nat; [|lia].
    apply subseteq_size. set_solver.
Qed.

(** *** Writing a schedule row *)

Lemma lookup_put st r sid :
  (put_schedule st r).(schedules) !! sid =
  if decide (r.(schedule_id) = sid) then Some r else st.(schedules) !! sid.
Proof. simpl. by rewrite lookup_insert. Qed.

Lemma select_Some st app sid r :
  select st app sid = Some r → st.(schedules) !! sid = Some r ∧ r.(app_id) = app.
Proof.
  unfold select. destruct (_ !! sid) as [r'|]; [|done].
  destruct (String.eqb_spec (app_id r') app); naive_solver.
Qed.

(** Rewriting an existing row without touching its marker keeps the run
    invariant. *)
Lemma put_schedule_runs st r :
  inv_runs st →
  (∀ r0, st.(schedules) !! r.(schedule_id) = Some r0 → r.(running_task_id) = r0.(running_task_id)) →
  (st.(schedules) !! r.(schedule_id) = None → r.(running_task_id) = None) →
  inv_runs (put_schedule st r).
Proof.
  intros [K F M L U] Hsame Hnew. split; try done.
  - intros rid x Hx. rewrite lookup_put. case_decide; eauto.
  - intros sid r' m. rewrite lookup_put. case_decide as E; [|by apply L].
    intros [= <-]. subst sid. simpl.
    destruct (st.(schedules) !! r.(schedule_id)) as [r0|] eqn:E0.
    + rewrite (Hsame _ eq_refl). by apply L.
    + rewrite (Hnew eq_refl). split; [done|]. intros (rid & x & Hx & Hs & _).
      destruct (F _ _ Hx) as [? Hf]. rewrite Hs, E0 in Hf. done.
Qed.

(** *** Deleting runs *)

Lemma delete_runs_inv P `{∀ r, Decision (P r)} st :
  inv_runs st → (∀ rid x, st.(schedule_runs) !! rid = Some x → P x → live x.(rstatus) = false) →
  inv_runs (delete_runs P st).
Proof.
  intros [K F M L U] Hp.
  assert (∀ rid x, (delete_runs P st).(schedule_runs) !! rid = Some x ↔
    st.(schedule_runs) !! rid = Some x ∧ ¬ P x) as D.
  { intros. simpl. by rewrite map_lookup_filter_Some. }
  split.
  - intros rid x [Hx _]%D. eauto.
  - intros rid x [Hx _]%D. by apply (F rid).
  - intros rid rid' x y [Hx _]%D [Hy _]%D. eauto.
  - intros sid r m Hr. rewrite (L _ _ m Hr). split; intros (rid & x & Hx & Hs & Hl & Hm);
      exists rid, x; split_and!; auto.
    + apply D. split; [done|]. intros Px. rewrite (Hp _ _ Hx Px) in Hl. done.
    + by apply D in Hx as [? _].
  - intros rid x [Hx _]%D. eauto.
Qed.

Lemma history_elem st sid keep x :
  x ∈ history st sid keep ↔
  prunable sid keep x ∧ ∃ rid, st.(schedule_runs) !! rid = Some x.
Proof.
  unfold history. rewrite (merge_sort_Permutation later_first), list_elem_of_filter.
  rewrite list_elem_of_fmap. split.
  - intros (? & [k y] & -> & ?%elem_of_map_to_list). eauto.
  - intros (? & rid & ?). split; [done|]. exists (rid, x). by rewrite elem_of_map_to_list.
Qed.

Lemma prune_runs_inv sid now keep st : inv_runs st → inv_runs (prune_runs sid now keep st).
Proof.
  intros I. unfold prune_runs.
  assert (inv_runs (delete_runs (λ r, prunable sid keep r ∧
     scheduled_at r < now - SCHEDULE_RUN_RETENTION_DAYS * day_us) st)) as I1.
  { apply delete_runs_inv; [done|]. intros rid x _ [(_ & _ & ?) _]. done. }
  apply delete_runs_inv; [done|]. intros rid x Hx Hin.
  apply list_elem_of_fmap in Hin as (y & Hy & Hd). apply elem_drop in Hd.
  apply history_elem in Hd as [(_ & _ & Hl) (rid' & Hy')].
  assert (rid = rid') as <-.
  { rewrite <- (inv_run_key _ I1 _ _ Hx), <- (inv_run_key _ I1 _ _ Hy'). done. }
  rewrite Hx in Hy'. by simplify_eq.
Qed.

(** *** Writing a run row together with its schedule's marker *)

Lemma live_iff s : live s = true ↔ s = claimed ∨ s = running.
Proof. unfold live. rewrite bool_decide_eq_true. set_solver. Qed.

Lemma inv_no_live st sid r rid x :
  inv_runs st → st.(schedules) !! sid = Some r → r.(running_task_id) = None →
  st.(schedule_runs) !! rid = Some x → x.(run_schedule_id) = sid → live x.(rstatus) = false.
Proof.
  intros I Hr Hn Hx Hs. destruct (live (rstatus x)) eqn:E; [|done].
  assert (r.(running_task_id) = Some (marker x)) as C by (apply (inv_live _ I _ _ _ Hr); eauto 6).
  congruence.
Qed.

(** A new run of the schedule [sid]: live only when the schedule was idle, and
    then the schedule's marker becomes the run's. *)
Lemma insert_run_inv st sid r r' x :
  inv_runs st → st.(schedules) !! sid = Some r → r'.(schedule_id) = sid →
  st.(schedule_runs) !! x.(run_id) = None → x.(run_schedule_id) = sid →
  x.(task_id) = None → fresh_marker st (claim_marker x.(run_id)) →
  (if live x.(rstatus)
   then r.(running_task_id) = None ∧ r'.(running_task_id) = Some (claim_marker x.(run_id))
   else r'.(running_task_id) = r.(running_task_id)) →
  inv_runs (put_schedule (put_run st x) r').
Proof.
  intros I Hr Hk Hfresh Hs Ht Hm Hmark.
  assert (marker x = claim_marker x.(run_id)) as Mx by (unfold marker; by rewrite Ht).
  assert (∀ rid y, (<[x.(run_id) := x]> st.(schedule_runs)) !! rid = Some y →
    (rid = x.(run_id) ∧ y = x) ∨ (rid ≠ x.(run_id) ∧ st.(schedule_runs) !! rid = Some y)) as D.
  { intros rid y. rewrite lookup_insert. case_decide; naive_solver. }
  split.
  - intros rid y [[-> ->]|[? Hy]]%D; [done|exact (inv_run_key _ I _ _ Hy)].
  - intros rid y Hy. rewrite lookup_put. case_decide; [eauto|].
    apply D in Hy as [[-> ->]|[? Hy]]; [simpl; rewrite Hs; eauto|]. exact (inv_fk _ I _ _ Hy).
  - intros rid rid' y y' [[-> ->]|[? Hy]]%D [[-> ->]|[? Hy']]%D E; auto.
    + exfalso. eapply Hm; [exact Hy'|]. congruence.
    + exfalso. eapply Hm; [exact Hy|]. congruence.
    + exact (inv_markers _ I _ _ _ _ Hy Hy' E).
  - intros sid' r'' m. rewrite lookup_put. case_decide as E; simpl.
    + intros [= <-]. subst sid'. rewrite Hk.
      assert (∀ m, (∃ rid y, (<[run_id x := x]> (schedule_runs st)) !! rid = Some y ∧
          run_schedule_id y = sid ∧ live (rstatus y) = true ∧ marker y = m) ↔
          (live (rstatus x) = true ∧ marker x = m) ∨ r.(running_task_id) = Some m) as Live.
      { intros m'. rewrite (inv_live _ I _ _ m' Hr). split.
        - intros (rid & y & [[-> ->]|[? Hy]]%D & ? & ? & ?); [by left|right; eauto 6].
        - intros [[? ?]|(rid & y & Hy & ? & ? & ?)].
          + exists x.(run_id), x. rewrite lookup_insert_eq. auto.
          + exists rid, y. rewrite lookup_insert_ne by congruence. auto. }
      rewrite Live. destruct (live (rstatus x)).
      * destruct Hmark as [-> ->]. rewrite Mx. naive_solver.
      * rewrite Hmark. naive_solver.
    + intros Hr''. rewrite (inv_live _ I _ _ m Hr''). rewrite Hk in E. split.
      * intros (rid & y & Hy & ?). exists rid, y. rewrite lookup_insert_ne by congruence. auto.
      * intros (rid & y & [[-> ->]|[? Hy]]%D & ? & ?); [congruence|eauto 6].
  - intros rid y [[-> ->]|[? Hy]]%D; [done|exact (inv_unbound _ I _ _ Hy)].
Qed.

(** Rewriting the run [rid] from [x] to [x'], with the schedule's marker
    following: a live run's marker is the schedule's, a run that stops being
    live clears it. *)
Lemma update_run_inv st st' rid x x' :
  inv_runs st → st.(schedule_runs) !! rid = Some x →
  st'.(schedule_runs) = <[rid := x']> st.(schedule_runs) →
  x'.(run_id) = rid → x'.(run_schedule_id) = x.(run_schedule_id) →
  (marker x' = marker x ∨ fresh_marker st (marker x')) →
  (x'.(rstatus) = claimed → x'.(task_id) = None) →
  (live x'.(rstatus) = true → live x.(rstatus) = true) →
  (∀ sid, is_Some (st.(schedules) !! sid) → is_Some (st'.(schedules) !! sid)) →
  (∀ sid r', st'.(schedules) !! sid = Some r' → ∃ r, st.(schedules) !! sid = Some r ∧
     r'.(running_task_id) =
       if bool_decide (sid = x.(run_schedule_id)) && live x.(rstatus)
       then (if live x'.(rstatus) then Some (marker x') else None)
       else r.(running_task_id)) →
  inv_runs st'.
Proof.
  intros I Hx Hruns Hid Hsid Hmk Hcl Hlive Hdom Hsch.
  assert (∀ rid0 y, st'.(schedule_runs) !! rid0 = Some y →
    (rid0 = rid ∧ y = x') ∨ (rid0 ≠ rid ∧ st.(schedule_runs) !! rid0 = Some y)) as D.
  { intros rid0 y. rewrite Hruns, lookup_insert. case_decide; naive_solver. }
  assert (∀ rid0 y, st.(schedule_runs) !! rid0 = Some y → marker y = marker x' → rid0 = rid) as Mx.
  { intros rid0 y Hy E. destruct Hmk as [Hmk|Hf]; [|by destruct (Hf _ _ Hy)].
    eapply inv_markers; [exact I|exact Hy|exact Hx|congruence]. }
  split.
  - intros rid0 y [[-> ->]|[? Hy]]%D; [done|exact (inv_run_key _ I _ _ Hy)].
  - intros rid0 y [[-> ->]|[? Hy]]%D; apply Hdom; [rewrite Hsid; exact (inv_fk _ I _ _ Hx)|exact (inv_fk _ I _ _ Hy)].
  - intros rid1 rid2 y y' [[-> ->]|[? Hy]]%D [[-> ->]|[? Hy']]%D E; auto.
    + exfalso. eauto.
    + exfalso. eauto.
    + exact (inv_markers _ I _ _ _ _ Hy Hy' E).
  - intros sid r' m Hr'. destruct (Hsch _ _ Hr') as (r & Hr & ->).
    assert (∀ m, (∃ rid0 y, st'.(schedule_runs) !! rid0 = Some y ∧ run_schedule_id y = sid ∧
        live (rstatus y) = true ∧ marker y = m) ↔
      (run_schedule_id x = sid ∧ live (rstatus x') = true ∧ marker x' = m) ∨
      (∃ rid0 y, rid0 ≠ rid ∧ st.(schedule_runs) !! rid0 = Some y ∧ run_schedule_id y = sid ∧
         live (rstatus y) = true ∧ marker y = m)) as Live.
    { intros m'. split.
      - intros (rid0 & y & [[-> ->]|[? Hy]]%D & ? & ? & ?); [left|right; eauto 8]. naive_solver congruence.
      - intros [(? & ? & ?)|(rid0 & y & ? & Hy & ? & ? & ?)].
        + exists rid, x'. rewrite Hruns, lookup_insert_eq. naive_solver congruence.
        + exists rid0, y. rewrite Hruns, lookup_insert_ne by done. auto. }
    rewrite Live. clear Live. case_bool_decide as Es; simpl.
    + subst sid. destruct (live (rstatus x)) eqn:Lx; simpl.
      * assert (¬ ∃ rid0 y, rid0 ≠ rid ∧ st.(schedule_runs) !! rid0 = Some y ∧
          run_schedule_id y = run_schedule_id x ∧ live (rstatus y) = true) as Only.
        { intros (rid0 & y & Hne & Hy & Hs & Hl). apply Hne.
          eapply inv_markers; [exact I|exact Hy|exact Hx|].
          assert (running_task_id r = Some (marker x)) by (apply (inv_live _ I _ _ _ Hr); eauto 6).
          assert (running_task_id r = Some (marker y)) by (apply (inv_live _ I _ _ _ Hr); eauto 6).
          congruence. }
        destruct (live (rstatus x')); naive_solver.
      * destruct (live (rstatus x')); [naive_solver|]. rewrite (inv_live _ I _ _ m Hr).
        split; [|naive_solver]. intros (rid0 & y & Hy & ? & Hl & ?). right. exists rid0, y.
        split_and!; auto. intros ->. rewrite Hx in Hy. simplify_eq. congruence.
    + rewrite (inv_live _ I _ _ m Hr). split; [|naive_solver].
      intros (rid0 & y & Hy & ? & ? & ?). right. exists rid0, y. split_and!; auto.
      intros ->. rewrite Hx in Hy. simplify_eq.
  - intros rid0 y [[-> ->]|[? Hy]]%D; [done|exact (inv_unbound _ I _ _ Hy)].
Qed.

Lemma none_active s : s ≠ active → s = active ↔ is_Some (None : option Z).
Proof. intros H. split; [done|]. intros [? [=]]. Qed.

Lemma claim_row_Some sid app st r :
  claim_row sid app st = Ok (Some r) → st.(schedules) !! sid = Some r.
Proof.
  unfold claim_row. destruct app as [a|]; [|naive_solver].
  destruct (select st a sid) eqn:E; [|done]. apply select_Some in E as [? _]. naive_solver.
Qed.

Lemma claim_outcome_cases r force now scheduled grace x rst err :
  claim_outcome r force now scheduled grace = (x, rst, err) →
  (x = true ∧ rst = claimed ∧ r.(running_task_id) = None) ∨
  (x = false ∧ (rst = skipped_overlap ∨ rst = missed)).
Proof.
  unfold claim_outcome. case_bool_decide as E; [naive_solver|].
  destruct (_ && _); [naive_solver|]. intros [= <- <- <-]. left. split_and!; auto.
  destruct (running_task_id r); [exfalso; eauto|done].
Qed.

Lemma inv_runs_ext st st' :
  st'.(schedule_runs) = st.(schedule_runs) →
  (∀ sid, st'.(schedules) !! sid = None ↔ st.(schedules) !! sid = None) →
  (∀ sid r', st'.(schedules) !! sid = Some r' → ∃ r, st.(schedules) !! sid = Some r ∧
     r'.(running_task_id) = r.(running_task_id)) →
  inv_runs st → inv_runs st'.
Proof.
  intros E Hd Hs [K F M L U]. split; rewrite ?E; auto.
  - intros rid x Hx. specialize (F _ _ Hx). destruct (schedules st' !! _) eqn:Es; [eauto|].
    apply Hd in Es. destruct F. congruence.
  - intros sid r' m Hr'. destruct (Hs _ _ Hr') as (r & Hr & ->). by apply L.
Qed.

Lemma swap_marker_runs sid old new now st :
  (swap_marker sid old new now st).(schedule_runs) = st.(schedule_runs).
Proof. unfold swap_marker. repeat case_match; done. Qed.

Lemma swap_put_run sid old new now st x :
  swap_marker sid old new now (put_run st x) = put_run (swap_marker sid old new now st) x.
Proof. unfold swap_marker. simpl. repeat case_match; done. Qed.

(** *** The invariant of the whole store *)

Section invariants.
Context (zi : string → res exn zone).
#[local] Set Default Proof Using "Type".

(** A row carries the fields of its kind, and they can be read again. *)
Definition wf_row (r : ScheduleRecord) : Prop :=
  (∃ z, parse_timezone zi (JStr r.(timezone)) = Ok z) ∧
  match r.(type) with
  | cron => ∃ e c, r.(expr) = Some e ∧ parse e = Ok c
  | interval => ∃ m, r.(interval_minutes) = Some m ∧ MIN_SCHEDULE_INTERVAL_MINUTES ≤ m
  | once => is_Some r.(run_at)
  end.

(** Schedules: rows sit under their primary key and are well formed, a schedule
    has a next run exactly while it is active, and no app exceeds its quota. *)
Record inv_schedules (st : store) : Prop := {
  inv_row : ∀ sid r, st.(schedules) !! sid = Some r → wf_row r;
  inv_key : ∀ sid r, st.(schedules) !! sid = Some r → r.(schedule_id) = sid;
  inv_next : ∀ sid r, st.(schedules) !! sid = Some r →
    (r.(sched_status) = active ↔ is_Some r.(next_run_at));
  inv_quota : ∀ app, (active_count st app ≤ MAX_ACTIVE_SCHEDULES_PER_APP)%nat
}.

(** Writing a row keeps the schedule invariant when the row has a next run
    exactly while active and the quota of its app is respected. *)
Lemma put_schedule_inv st r :
  inv_schedules st → wf_row r →
  (r.(sched_status) = active ↔ is_Some r.(next_run_at)) →
  (∀ app, counted app r →
     (∃ r0, st.(schedules) !! r.(schedule_id) = Some r0 ∧ counted app r0) ∨
     (active_count st app < MAX_ACTIVE_SCHEDULES_PER_APP)%nat) →
  inv_schedules (put_schedule st r).
Proof.
  intros [W K N Q] Hw Hn Hq. split.
  - intros sid r'. rewrite lookup_put. case_decide; naive_solver.
  - intros sid r'. rewrite lookup_put. case_decide; naive_solver.
  - intros sid r'. rewrite lookup_put. case_decide; naive_solver.
  - intros app. destruct (decide (counted app r)) as [C|C].
    + destruct (Hq _ C) as [(r0 & H0 & C0)|L].
      * etrans; [|apply Q]. apply active_count_le. intros sid r'. rewrite lookup_put.
        case_decide; naive_solver.
      * pose proof (active_count_put st r app). lia.
    + etrans; [|apply Q]. apply active_count_le. intros sid r'. rewrite lookup_put.
      case_decide; naive_solver.
Qed.

(** *** Every operation keeps the invariants *)

Definition inv (st : store) : Prop := inv_schedules st ∧ inv_runs st.

Lemma inv_schedules_ext st st' :
  st'.(schedules) = st.(schedules) → inv_schedules st → inv_schedules st'.
Proof.
  intros E [W K N Q]. split; rewrite ?E; auto.
  intros app. unfold active_count. rewrite E. apply Q.
Qed.

(** Rewriting a selected row: same key, same app, same marker. *)
Lemma rewrite_row_inv st sid r r' :
  inv st → st.(schedules) !! sid = Some r →
  r'.(schedule_id) = r.(schedule_id) → r'.(running_task_id) = r.(running_task_id) →
  wf_row r' →
  (r'.(sched_status) = active ↔ is_Some r'.(next_run_at)) →
  (∀ app, counted app r' → counted app r ∨
     (active_count st app < MAX_ACTIVE_SCHEDULES_PER_APP)%nat) →
  inv (put_schedule st r').
Proof.
  intros [IS IR] Hr Hk Hm Hw Hn Hc. pose proof (inv_key _ IS _ _ Hr) as K. split.
  - apply put_schedule_inv; auto. intros app C. rewrite Hk, K.
    destruct (Hc _ C); [left|right]; eauto.
  - apply put_schedule_runs; auto; rewrite Hk, K, Hr; [naive_solver|done].
Qed.

Lemma validated_row t r :
  validated zi t → r.(timezone) = t.(tm_timezone) → r.(type) = t.(tm_type) →
  r.(expr) = t.(tm_expression) → r.(interval_minutes) = t.(tm_interval_minutes) →
  r.(run_at) = t.(tm_run_at) → wf_row r.
Proof.
  intros (v & now & H%validate_timing_wf) Ez Et Ee Em Er. destruct H as (Hz & _ & Hk).
  unfold wf_row. rewrite Ez, Et, Ee, Em, Er. split; [done|]. destruct (tm_type t); [done| |].
  - destruct Hk as (m & ? & ? & _). eauto.
  - destruct Hk as [-> _]. eauto.
Qed.

Lemma create_inv app a now sid st r st' :
  inv st → validated zi a.(ca_timing) → create app a now sid st = Ok (r, st') → inv st'.
Proof.
  intros [IS IR] V H. unfold create in H. split_matches H.
  split.
  - apply put_schedule_inv; simpl; [done|by eapply validated_row|naive_solver|].
    intros app' [<- _]. right. by apply quota_full_false.
  - bools. apply put_schedule_runs; simpl; [done| |done]. intros r0 Hr0.
    match goal with H : ¬ is_Some _ |- _ => exfalso; apply H; eauto end.
Qed.

Lemma update_inv app sid rev a now st r st' :
  inv st → (∀ t, a.(ua_timing) = Some t → validated zi t) →
  update app sid rev a now st = Ok (r, st') → inv st'.
Proof.
  intros I V H. unfold update in H. split_match H. destruct (select st app sid) as [cur|] eqn:Sel; [|done].
  apply select_Some in Sel as [Hc Ha].
  destruct (bool_decide (sched_status cur = completed)) eqn:Ec; [done|].
  split_matches H. eapply rewrite_row_inv; [done|exact Hc|done|done| | |]; simpl.
  - destruct (ua_timing a) as [t|] eqn:Et; [by eapply (validated_row t); auto|].
    destruct I as [IS _]. exact (inv_row _ IS _ _ Hc).
  - destruct I as [IS _]. destruct (ua_timing a); [|by apply (inv_next _ IS sid)].
    destruct (decide (sched_status cur = active)) as [Es|Es].
    + rewrite bool_decide_true by done. naive_solver.
    + rewrite bool_decide_false by done. by apply none_active.
  - intros app' C. left. exact C.
Qed.

Lemma set_state_counted app r s next now :
  counted app (set_state r s next now) ↔ r.(app_id) = app ∧ (s = active ∨ s = paused).
Proof. done. Qed.

Lemma pause_inv app sid now st r st' :
  inv st → pause app sid now st = Ok (r, st') → inv st'.
Proof.
  intros I H. unfold pause, set_status in H.
  destruct (select st app sid) as [cur|] eqn:Sel; [|done]. apply select_Some in Sel as [Hc Ha].
  split_matches H. bools. eapply rewrite_row_inv; [done|exact Hc|done|done|exact (inv_row _ (proj1 I) _ _ Hc)| |].
  - by apply none_active.
  - intros app' C%set_state_counted. left. split; [naive_solver|]. naive_solver.
Qed.

Lemma end_inv app sid s now st r st' :
  inv st → end_schedule app sid s now st = Ok (r, st') → inv st'.
Proof.
  intros I H. unfold end_schedule in H. split_match H. bools.
  destruct (select st app sid) as [cur|] eqn:Sel; [|done]. apply select_Some in Sel as [Hc Ha].
  split_matches H; [done|].
  eapply rewrite_row_inv; [done|exact Hc|done|done|exact (inv_row _ (proj1 I) _ _ Hc)| |].
  - apply none_active. set_solver.
  - intros app' C%set_state_counted. set_solver.
Qed.

Lemma resume_inv app sid now st r st' :
  inv st → resume zi app sid now st = Ok (r, st') → inv st'.
Proof.
  intros I H. unfold resume in H.
  destruct (select st app sid) as [cur|] eqn:Sel; [|done]. apply select_Some in Sel as [Hc Ha].
  destruct (negb (bool_decide (sched_status cur ∈ [paused; stopped]))) eqn:E1; [done|].
  split_match H. destruct (_ && _) eqn:E2 in H; [done|]. split_matches H. bools.
  eapply rewrite_row_inv; [done|exact Hc|done|done|exact (inv_row _ (proj1 I) _ _ Hc)|naive_solver|].
  intros app' [C _]%set_state_counted.
  assert (sched_status cur = paused ∨ sched_status cur = stopped) as [P|P] by set_solver.
  - left. split; auto.
  - right. destruct E2 as [E2|E2]; [bools; congruence|]. simplify_eq. by apply quota_full_false.
Qed.

Lemma pause_app_schedules app now st : inv_schedules st → inv_schedules (pause_app app now st).2.
Proof.
  intros IS. split; simpl.
  - intros sid r'. rewrite lookup_fmap_Some. intros (r & <- & Hr).
    pose proof (inv_row _ IS _ _ Hr). case_bool_decide; done.
  - intros sid r'. rewrite lookup_fmap_Some. intros (r & <- & Hr).
    case_bool_decide; exact (inv_key _ IS _ _ Hr).
  - intros sid r'. rewrite lookup_fmap_Some. intros (r & <- & Hr).
    case_bool_decide; [by apply none_active|by apply (inv_next _ IS sid)].
  - intros app'. etrans; [|apply (inv_quota _ IS app')]. apply active_count_le. simpl.
    intros sid r'. rewrite lookup_fmap_Some. intros (r & <- & Hr) C. exists r. split; [done|].
    case_bool_decide as B; [|exact C]. destruct B as [Ba Bs], C as [Ca _]. split; [exact Ca|by left].
Qed.

Lemma pause_app_inv app now st : inv st → inv (pause_app app now st).2.
Proof.
  intros [IS IR]. split; [by apply pause_app_schedules|].
  apply (inv_runs_ext st); [done| | |done]; simpl.
  - intros sid. by rewrite lookup_fmap, fmap_None.
  - intros sid r'. rewrite lookup_fmap_Some. intros (r & <- & Hr).
    exists r. case_bool_decide; done.
Qed.

(** *** Claims *)

(** The shape of a claim that took an occurrence. *)
Lemma claim_txn_taken sid now grace force app rid st r' run x st' :
  claim_txn zi sid now grace force app rid st = Ok (Some (r', run, x), st') →
  ∃ r scheduled rst err next,
    st.(schedules) !! sid = Some r ∧
    claim_time r force now = Ok (Some scheduled) ∧
    claim_outcome r force now scheduled grace = (x, rst, err) ∧
    (if force then Ok r.(next_run_at) else next_after_claim zi r now) = Ok next ∧
    st.(schedule_runs) !! rid = None ∧
    r' = set_running
           (set_state r (if negb force && bool_decide (r.(type) = once) then completed
                         else r.(sched_status)) next now)
           (if x then Some (claim_marker rid) else r.(running_task_id)) now ∧
    st' = put_schedule (prune_runs r.(schedule_id) now None
            (put_run st (claim_run r rid scheduled x rst err now))) r' ∧
    run = st'.(schedule_runs) !! rid.
Proof.
  unfold claim_txn. intros H.
  destruct (claim_row sid app st) as [[r|]|] eqn:Er; [|done..]. apply claim_row_Some in Er.
  destruct (claim_time r force now) as [[scheduled|]|] eqn:Et; [|done..].
  destruct (claim_outcome r force now scheduled grace) as [[ex rst] err] eqn:Eo.
  destruct (if force then _ else _) as [next|] eqn:En; [|done].
  case_bool_decide as Ei; [done|]. injection H as <- <- <- <-.
  exists r, scheduled, rst, err, next. split_and!; auto.
  destruct (schedule_runs st !! rid) eqn:E; [|done]. exfalso; eauto.
Qed.


(** After a claim the next run is in the future. *)
Lemma next_after_claim_future r now next :
  wf_row r → next_after_claim zi r now = Ok (Some next) → now < next.
Proof.
  intros [_ W] H. unfold next_after_claim in H. destruct (type r).
  - destruct W as (e & c & He & Hp). rewrite He, Hp in H.
    destruct (parse_timezone zi _) as [z|]; [|done].
    destruct (next_after c now z) as [t|] eqn:En; [|done]. injection H as <-.
    by apply (next_after_sound c z now t (parse_wf _ _ Hp)).
  - destruct W as (m & Em & Hm). rewrite Em in H. unfold add_minutes in H.
    destruct (_ && _); [|done]. injection H as <-.
    unfold MIN_SCHEDULE_INTERVAL_MINUTES in Hm. unfold sec_us. lia.
  - done.
Qed.

Lemma next_after_claim_kind r now next :
  next_after_claim zi r now = Ok next → (next = None ↔ r.(type) = once).
Proof.
  unfold next_after_claim. intros H. destruct (type r); split_matches H; naive_solver.
Qed.

Lemma claim_due_state sid now grace force app rid st :
  (claim_due zi sid now grace force app rid st).2 =
  match claim_txn zi sid now grace force app rid st with Ok (_, st') => st' | Err _ => st end.
Proof.
  unfold claim_due. destruct (claim_txn _ _ _ _ _ _ _ _) as [[[[[? [?|]] ?]|] ?]|]; done.
Qed.

(** Writing a schedule and pruning runs touch different tables. *)
Lemma prune_put sid now keep st r :
  put_schedule (prune_runs sid now keep st) r = prune_runs sid now keep (put_schedule st r).
Proof. reflexivity. Qed.

Lemma prune_schedules sid now keep st : (prune_runs sid now keep st).(schedules) = st.(schedules).
Proof. reflexivity. Qed.

(** A claim keeps "a next run exactly while active". *)
Lemma claim_next r force now scheduled next :
  (r.(sched_status) = active ↔ is_Some r.(next_run_at)) →
  claim_time r force now = Ok (Some scheduled) →
  (if force then Ok r.(next_run_at) else next_after_claim zi r now) = Ok next →
  (if negb force && bool_decide (r.(type) = once) then completed else r.(sched_status)) = active ↔
  is_Some next.
Proof.
  intros Hn Ht He. unfold claim_time in Ht. destruct force; simpl in *.
  { by injection He as <-. }
  apply next_after_claim_kind in He. destruct (next_run_at r); [|done].
  destruct (decide (sched_status r = active)) as [Ea|Ea].
  2:{ rewrite (bool_decide_false _ Ea) in Ht. done. }
  destruct (decide (type r = once)) as [Eo|Eo].
  - rewrite (bool_decide_true _ Eo). apply He in Eo as ->. by apply none_active.
  - rewrite (bool_decide_false _ Eo). destruct next; naive_solver.
Qed.

(** The tables after a claim's writes and before pruning. *)
Lemma claim_written_inv sid now grace force rid st r scheduled x rst err next :
  inv st → fresh_marker st (claim_marker rid) → st.(schedules) !! sid = Some r →
  st.(schedule_runs) !! rid = None →
  claim_outcome r force now scheduled grace = (x, rst, err) →
  inv_runs (put_schedule (put_run st (claim_run r rid scheduled x rst err now))
    (set_running
       (set_state r (if negb force && bool_decide (r.(type) = once) then completed
                     else r.(sched_status)) next now)
       (if x then Some (claim_marker rid) else r.(running_task_id)) now)).
Proof.
  intros [IS IR] Hf Hr Hfr Ho. pose proof (inv_key _ IS _ _ Hr) as K.
  eapply insert_run_inv; simpl; eauto.
  apply claim_outcome_cases in Ho as [(-> & -> & ?)|(-> & [-> | ->])]; done.
Qed.

Lemma claim_none sid now grace force app rid st st' :
  claim_txn zi sid now grace force app rid st = Ok (None, st') → st' = st.
Proof.
  unfold claim_txn. intros E.
  destruct (claim_row sid app st) as [[r|]|]; [|naive_solver..].
  destruct (claim_time r force now) as [[?|]|]; [|naive_solver..].
  destruct (claim_outcome _ _ _ _ _) as [[? ?] ?]. destruct (if force then _ else _); [|done].
  case_bool_decide; done.
Qed.

Lemma claim_schedules sid now grace force app rid st :
  inv_schedules st → inv_schedules (claim_due zi sid now grace force app rid st).2.
Proof.
  intros IS. rewrite claim_due_state.
  destruct (claim_txn zi sid now grace force app rid st) as [[[[[r' run] x]|] st']|] eqn:E; [| |done].
  2:{ by apply claim_none in E as ->. }
  apply claim_txn_taken in E as (r & scheduled & rst & err & next & Hr & Ht & Ho & Hn & Hfr & -> & -> & _).
  rewrite prune_put. pose proof (inv_key _ IS _ _ Hr) as K.
  eapply (inv_schedules_ext (put_schedule st _)); [reflexivity|].
  apply put_schedule_inv; [done|exact (inv_row _ IS _ _ Hr)| |]; simpl.
  - eapply claim_next; [exact (inv_next _ IS _ _ Hr)|done|done].
  - intros app' [Ca C]. simpl in Ca, C. left. exists r. rewrite K. split; [done|]. split; [done|].
    destruct (_ && _); naive_solver.
Qed.

Lemma claim_inv sid now grace force app rid st :
  inv st → fresh_marker st (claim_marker rid) →
  inv (claim_due zi sid now grace force app rid st).2.
Proof.
  intros [IS IR] Hf. split; [by apply claim_schedules|]. rewrite claim_due_state.
  destruct (claim_txn zi sid now grace force app rid st) as [[[[[r' run] x]|] st']|] eqn:E; [| |done].
  2:{ by apply claim_none in E as ->. }
  apply claim_txn_taken in E as (r & scheduled & rst & err & next & Hr & Ht & Ho & Hn & Hfr & -> & -> & _).
  rewrite prune_put. apply prune_runs_inv. eapply claim_written_inv; eauto. by split.
Qed.

(** *** Runs *)

Lemma swap_marker_lookup sid old new now st s :
  inv_schedules st →
  (swap_marker sid old new now st).(schedules) !! s =
  (λ r, if bool_decide (s = sid ∧ r.(running_task_id) = Some old)
        then set_running r new (default r.(updated_at) now) else r) <$> st.(schedules) !! s.
Proof.
  intros I. unfold swap_marker.
  destruct (schedules st !! sid) as [r|] eqn:Er.
  - pose proof (inv_key _ I _ _ Er) as K. destruct (decide (s = sid)) as [->|Hne].
    + rewrite Er. simpl. case_bool_decide as B.
      * rewrite lookup_put. simpl. rewrite decide_True by done. by rewrite bool_decide_true.
      * rewrite Er. by rewrite bool_decide_false by naive_solver.
    + assert (∀ (r0 : ScheduleRecord), (if bool_decide (s = sid ∧ running_task_id r0 = Some old)
        then set_running r0 new (default (updated_at r0) now) else r0) = r0) as Id
        by (intros; by rewrite bool_decide_false by naive_solver).
      case_bool_decide; [rewrite lookup_put; simpl; rewrite decide_False by congruence|];
        destruct (schedules st !! s); simpl; by rewrite ?Id.
  - destruct (schedules st !! s) as [r|] eqn:Es; simpl; [|done].
    rewrite bool_decide_false; [done|]. intros [-> _]. congruence.
Qed.

Lemma swap_marker_inv sid old new now st :
  inv_schedules st → inv_schedules (swap_marker sid old new now st).
Proof.
  intros I. unfold swap_marker. destruct (schedules st !! sid) as [r|] eqn:Er; [|done].
  case_bool_decide; [|done]. pose proof (inv_key _ I _ _ Er) as K. apply put_schedule_inv; auto.
  - exact (inv_row _ I _ _ Er).
  - exact (inv_next _ I _ _ Er).
  - intros app C. left. exists r. simpl. rewrite K. split; [done|exact C].
Qed.

(** The schedule side of a rewritten run. *)
Lemma swap_marker_sched st x sid (old : string) new now r' :
  inv st → (live x.(rstatus) = true → marker x = old) →
  (live x.(rstatus) = false → ∀ r, st.(schedules) !! x.(run_schedule_id) = Some r →
     r.(running_task_id) ≠ Some old) →
  (∃ rid, st.(schedule_runs) !! rid = Some x) →
  (swap_marker x.(run_schedule_id) old new now st).(schedules) !! sid = Some r' →
  ∃ r, st.(schedules) !! sid = Some r ∧
    r'.(running_task_id) = if bool_decide (sid = x.(run_schedule_id)) && live x.(rstatus)
                           then new else r.(running_task_id).
Proof.
  intros [IS IR] Hm Hd [rid Hx] H. rewrite swap_marker_lookup in H by done.
  destruct (schedules st !! sid) as [r|] eqn:Er; [|done]. injection H as <-.
  exists r. split; [done|]. destruct (decide (sid = run_schedule_id x)) as [->|Hne].
  - rewrite (bool_decide_true (_ = _)) by done. simpl. destruct (live (rstatus x)) eqn:L.
    + assert (running_task_id r = Some (marker x)) as E
        by (apply (inv_live _ IR _ _ _ Er); eauto 6).
      rewrite bool_decide_true; [done|]. split; [done|]. rewrite E. f_equal. auto.
    + rewrite bool_decide_false; [done|]. intros [_ E]. by eapply Hd.
  - rewrite (bool_decide_false (sid = _)) by done. by rewrite bool_decide_false by naive_solver.
Qed.

Lemma swap_marker_dom st sid old new now s :
  inv_schedules st → is_Some (st.(schedules) !! s) →
  is_Some ((swap_marker sid old new now st).(schedules) !! s).
Proof. intros I [r Hr]. rewrite swap_marker_lookup by done. rewrite Hr. simpl. eauto. Qed.

Lemma bind_inv rid task now st x st' :
  inv st → task ≠ ""%string → fresh_marker st task →
  bind_task rid task now st = Ok (x, st') → inv st'.
Proof.
  intros I Hne Hf H. unfold bind_task in H.
  destruct (schedule_runs st !! rid) as [row|] eqn:Er; [|done].
  case_bool_decide as Hc; [|done]. injection H as <- <-. rewrite swap_put_run.
  destruct I as [IS IR]. pose proof (inv_unbound _ IR _ _ Er Hc) as Ht.
  pose proof (inv_run_key _ IR _ _ Er) as K.
  assert (marker row = claim_marker rid) as Mr by (unfold marker; rewrite Ht; congruence).
  assert (live (rstatus row) = true) as L by (by rewrite Hc).
  split; [by eapply (inv_schedules_ext (swap_marker _ _ _ _ _)), swap_marker_inv|].
  eapply (update_run_inv st _ rid row); simpl; [done|done|by rewrite swap_marker_runs, K|done|done| | | | |].
  - right. unfold marker; simpl. by destruct task.
  - done.
  - done.
  - intros sid Hs. by apply swap_marker_dom.
  - intros sid r' Hr'. apply swap_marker_sched in Hr'; [|by split|done|congruence|by eauto].
    unfold marker. simpl. destruct Hr' as (r & Hr & E). exists r. split; [done|]. rewrite E.
    by destruct task.
Qed.

(** The tables after a finished run is written and before pruning. *)
Lemma finish_written_inv rid s code err now st row :
  inv st → live s = false → st.(schedule_runs) !! rid = Some row →
  inv_runs (put_run (swap_marker row.(run_schedule_id) (marker row) None (Some now) st)
    (set_run row s row.(started_at) (Some now) row.(task_id) code err)).
Proof.
  intros [IS IR] Ls Er. pose proof (inv_run_key _ IR _ _ Er) as K.
  eapply (update_run_inv st _ rid row); simpl;
    [done|done|by rewrite swap_marker_runs, K|done|done|by left| |by simpl; rewrite Ls| |].
  - simpl. intros ->. done.
  - intros sid Hs. by apply swap_marker_dom.
  - intros sid r' Hr'. simpl. rewrite Ls. eapply swap_marker_sched; [by split|done| |by eauto|exact Hr'].
    intros Lr r Hr E. apply (inv_live _ IR _ _ _ Hr) in E as (rid' & y & Hy & Hs & Hl & Hm).
    assert (rid' = rid) as -> by exact (inv_markers _ IR _ _ _ _ Hy Er Hm).
    rewrite Er in Hy. simplify_eq. congruence.
Qed.

(** The shape of a finished run. *)
Lemma finish_run_Ok rid s code err now st x st' :
  finish_run rid s code err now st = Ok (x, st') →
  ∃ row, live s = false ∧ st.(schedule_runs) !! rid = Some row ∧
    x = set_run row s row.(started_at) (Some now) row.(task_id) code err ∧
    st' = prune_runs row.(run_schedule_id) now (Some rid)
      (put_run (swap_marker row.(run_schedule_id) (marker row) None (Some now) st) x).
Proof.
  unfold finish_run. destruct (live s); [done|].
  destruct (schedule_runs st !! rid) as [row|]; [|done]. rewrite swap_put_run.
  intros [= <- <-]. by exists row.
Qed.

Lemma finish_inv rid s code err now st x st' :
  inv st → finish_run rid s code err now st = Ok (x, st') → inv st'.
Proof.
  intros I (row & Ls & Er & -> & ->)%finish_run_Ok. split.
  - eapply (inv_schedules_ext (swap_marker _ _ _ _ _)), swap_marker_inv; [reflexivity|apply I].
  - apply prune_runs_inv. by eapply finish_written_inv.
Qed.

Lemma abandon_inv now st : inv st → inv (abandon_running now st).2.
Proof.
  intros [IS IR].
  assert (∀ rid x', (abandon_running now st).2.(schedule_runs) !! rid = Some x' →
    ∃ x, st.(schedule_runs) !! rid = Some x ∧ x'.(run_id) = x.(run_id) ∧
      x'.(run_schedule_id) = x.(run_schedule_id) ∧ marker x' = marker x ∧
      live x'.(rstatus) = false) as D.
  { intros rid x'. simpl. rewrite lookup_fmap_Some. intros (x & <- & Hx).
    exists x. destruct (live (rstatus x)) eqn:L; done. }
  assert (∀ sid r', (abandon_running now st).2.(schedules) !! sid = Some r' →
    ∃ r, st.(schedules) !! sid = Some r ∧ r'.(running_task_id) = None ∧
      (r' = r ∨ r' = set_running r None r.(updated_at))) as S.
  { intros sid r'. simpl. rewrite lookup_fmap_Some. intros (r & <- & Hr). exists r.
    case_bool_decide as B; [by auto|]. split_and!; auto.
    destruct (running_task_id r); [exfalso; eauto|done]. }
  split; split.
  - intros sid r' (r & Hr & _ & [-> | ->])%S; exact (inv_row _ IS _ _ Hr).
  - intros sid r' (r & Hr & _ & [-> | ->])%S; exact (inv_key _ IS _ _ Hr).
  - intros sid r' (r & Hr & _ & [-> | ->])%S; exact (inv_next _ IS _ _ Hr).
  - intros app. etrans; [|apply (inv_quota _ IS app)]. apply active_count_le.
    intros sid r' (r & Hr & _ & [-> | ->])%S C; eauto.
  - intros rid x' (x & Hx & E & _)%D. rewrite E. exact (inv_run_key _ IR _ _ Hx).
  - intros rid x' (x & Hx & _ & E & _)%D. rewrite E. simpl. rewrite lookup_fmap.
    destruct (inv_fk _ IR _ _ Hx) as [r ->]. simpl. eauto.
  - intros rid rid' x' y' (x & Hx & _ & _ & Ex & _)%D (y & Hy & _ & _ & Ey & _)%D E.
    eapply (inv_markers _ IR); [exact Hx|exact Hy|congruence].
  - intros sid r' m (r & Hr & -> & _)%S. split; [done|].
    intros (rid & x' & (x & _ & _ & _ & _ & L)%D & _ & L' & _). congruence.
  - intros rid x' (x & _ & _ & _ & _ & L)%D E. rewrite E in L. done.
Qed.

Lemma delete_app_inv app st : inv st → inv (delete_app app st).2.
Proof.
  intros [IS IR].
  assert (∀ sid r, (delete_app app st).2.(schedules) !! sid = Some r ↔
    st.(schedules) !! sid = Some r ∧ r.(app_id) ≠ app) as S.
  { intros. simpl. by rewrite map_lookup_filter_Some. }
  assert (∀ rid x, (delete_app app st).2.(schedule_runs) !! rid = Some x ↔
    st.(schedule_runs) !! rid = Some x ∧
    ∃ r, st.(schedules) !! x.(run_schedule_id) = Some r ∧ r.(app_id) ≠ app) as D.
  { intros rid x. simpl. rewrite map_lookup_filter_Some. simpl.
    rewrite map_lookup_filter_None. split.
    - intros [Hx Hn]. split; [done|]. destruct (inv_fk _ IR _ _ Hx) as [r Hr]. exists r.
      split; [done|]. destruct Hn as [Hn|Hn]; [congruence|eauto].
    - intros (Hx & r & Hr & Hne). split; [done|]. right. intros r0 Hr0. by simplify_eq. }
  split; split.
  - intros sid r [Hr _]%S. exact (inv_row _ IS _ _ Hr).
  - intros sid r [Hr _]%S. exact (inv_key _ IS _ _ Hr).
  - intros sid r [Hr _]%S. exact (inv_next _ IS _ _ Hr).
  - intros app'. etrans; [|apply (inv_quota _ IS app')]. apply active_count_le.
    intros sid r [Hr _]%S C. eauto.
  - intros rid x [Hx _]%D. exact (inv_run_key _ IR _ _ Hx).
  - intros rid x (Hx & r & Hr)%D. exists r. by apply S.
  - intros rid rid' x y [Hx _]%D [Hy _]%D. exact (inv_markers _ IR _ _ _ _ Hx Hy).
  - intros sid r m [Hr Hne]%S. rewrite (inv_live _ IR _ _ m Hr).
    split; intros (rid & x & Hx & Hs & ?); exists rid, x; split_and!; auto; try tauto.
    + apply D. split; [done|]. exists r. by rewrite Hs.
    + by apply D in Hx as [? _].
  - intros rid x [Hx _]%D. exact (inv_unbound _ IR _ _ Hx).
Qed.

Lemma step_inv st st' : inv st → step zi st st' → inv st'.
Proof.
  intros I S. destruct S; eauto using create_inv, update_inv, pause_inv, resume_inv, end_inv,
    pause_app_inv, claim_inv, bind_inv, finish_inv, abandon_inv, delete_app_inv.
Qed.

Lemma empty_inv : inv empty_store.
Proof.
  split; split; simpl; try (intros *; rewrite lookup_empty; done).
  intros app. unfold active_count. simpl. rewrite map_filter_empty, map_size_empty. lia.
Qed.

Lemma reachable_inv st : reachable zi st → inv st.
Proof.
  unfold reachable. intros R.
  enough (∀ s, rtc (step zi) s st → inv s → inv st) as H by (apply (H _ R), empty_inv).
  clear R. intros s R. induction R; eauto using step_inv.
Qed.
End invariants.

(** ** Completed schedules *)

(** The row stays, or its app was deleted with it. *)
Definition stays_completed (st' : store) (sid : string) : Prop :=
  ∀ r', st'.(schedules) !! sid = Some r' → r'.(sched_status) = completed.

Lemma put_other st r sid :
  r.(schedule_id) ≠ sid → (put_schedule st r).(schedules) !! sid = st.(schedules) !! sid.
Proof. intros H. rewrite lookup_put. by rewrite decide_False. Qed.

(** Writing another row, or the completed row with the same status. *)
Lemma put_completed st r r0 sid :
  st.(schedules) !! sid = Some r0 → r0.(sched_status) = completed →
  (r.(schedule_id) = sid → r.(sched_status) = completed) →
  stays_completed (put_schedule st r) sid.
Proof.
  intros H0 C H r'. rewrite lookup_put. case_decide; naive_solver.
Qed.

Lemma claim_completed zi sid0 now grace force app rid st sid r :
  inv zi st → st.(schedules) !! sid = Some r → r.(sched_status) = completed →
  stays_completed (claim_due zi sid0 now grace force app rid st).2 sid.
Proof.
  intros [IS _] Hr C. rewrite claim_due_state.
  destruct (claim_txn zi sid0 now grace force app rid st) as [[[[[r1 run] x]|] st']|] eqn:E.
  - apply claim_txn_taken in E as (r2 & scheduled & rst & err & next & Hr2 & Ht & _ & _ & _ & -> & -> & _).
    rewrite prune_put. intros r'. rewrite prune_schedules. revert r'.
    eapply (put_completed (put_run st _)); [exact Hr|done|]. simpl.
    rewrite (inv_key _ _ IS _ _ Hr2). intros ->. rewrite Hr in Hr2. injection Hr2 as <-.
    unfold claim_time in Ht. rewrite C in Ht |- *. by destruct (_ && _).
  - assert (st' = st) as ->; [|intros r'; congruence]. unfold claim_txn in E.
    split_matches E; try done; by injection E.
  - intros r'. congruence.
Qed.

Lemma step_completed zi st st' sid r :
  inv zi st → step zi st st' → st.(schedules) !! sid = Some r → r.(sched_status) = completed →
  stays_completed st' sid.
Proof.
  intros I S Hr C. pose proof (proj1 I) as IS. destruct S as
    [app a now sid0 r0 st' V H|app sid0 rev a now r0 st' V H|app sid0 now r0 st' H|
     app sid0 now r0 st' H|app sid0 s now r0 st' H|app now|sid0 now grace force app rid F|
     rid task now x st' _ _ H|rid s code err now x st' H|now|app].
  - unfold create in H. split_matches H. bools. eapply put_completed; eauto. simpl. intros ->.
    match goal with B : ¬ is_Some _ |- _ => exfalso; apply B; eauto end.
  - unfold update in H. split_match H. destruct (select st app sid0) as [cur|] eqn:Sel; [|done].
    apply select_Some in Sel as [Hc _]. destruct (bool_decide (_ = completed)) eqn:B; [done|].
    split_matches H. eapply put_completed; eauto. simpl. rewrite (inv_key _ _ IS _ _ Hc).
    intros ->. rewrite Hr in Hc. simplify_eq. bools. done.
  - unfold pause, set_status in H. destruct (select st app sid0) as [cur|] eqn:Sel; [|done].
    apply select_Some in Sel as [Hc _]. split_matches H. eapply put_completed; eauto. simpl.
    rewrite (inv_key _ _ IS _ _ Hc). intros ->. rewrite Hr in Hc. simplify_eq. bools. congruence.
  - unfold resume in H. destruct (select st app sid0) as [cur|] eqn:Sel; [|done].
    apply select_Some in Sel as [Hc _]. destruct (negb _) eqn:B in H; [done|]. split_matches H.
    eapply put_completed; eauto. simpl. rewrite (inv_key _ _ IS _ _ Hc). intros ->.
    rewrite Hr in Hc. simplify_eq. bools. rewrite C in B. set_solver.
  - unfold end_schedule in H. split_match H. destruct (select st app sid0) as [cur|] eqn:Sel; [|done].
    apply select_Some in Sel as [Hc _].
    destruct (bool_decide (type cur = once)); [done|].
    destruct (_ && _) eqn:B in H; [done|]. split_matches H; [intros r'; congruence|].
    eapply put_completed; eauto. simpl. rewrite (inv_key _ _ IS _ _ Hc). intros ->.
    rewrite Hr in Hc. simplify_eq. bools. destruct B; bools; naive_solver.
  - intros r'. simpl. rewrite lookup_fmap, Hr. simpl. rewrite bool_decide_false by (intros [_ ?]; congruence).
    intros [= <-]. done.
  - by eapply claim_completed.
  - unfold bind_task in H. split_matches H. rewrite swap_put_run. intros r'. simpl.
    rewrite (swap_marker_lookup zi) by done. rewrite Hr. simpl. intros [= <-]. match goal with |- context [bool_decide ?P] => destruct (bool_decide P) end; exact C.
  - unfold finish_run in H. split_matches H. rewrite swap_put_run. intros r'. simpl.
    rewrite (swap_marker_lookup zi) by done. rewrite Hr. simpl. intros [= <-]. match goal with |- context [bool_decide ?P] => destruct (bool_decide P) end; exact C.
  - intros r'. simpl. rewrite lookup_fmap, Hr. simpl. intros [= <-]. match goal with |- context [bool_decide ?P] => destruct (bool_decide P) end; exact C.
  - intros r'. simpl. rewrite map_lookup_filter_Some. naive_solver.
Qed.

(** ** A claimed occurrence is not claimed twice *)

(** The row after a timer's claim: nothing is due at any instant up to [now]. *)
Lemma claim_consumes zi sid now grace rid st r' run x st' :
  inv zi st →
  claim_txn zi sid now grace false None rid st = Ok (Some (r', run, x), st') →
  st'.(schedules) !! sid = Some r' ∧
  ∀ t, t ≤ now → claim_time r' false t = Ok None.
Proof.
  intros [IS _] E.
  apply claim_txn_taken in E as (r & scheduled & rst & err & next & Hr & Ht & _ & Hn & _ & -> & -> & _).
  split.
  - rewrite prune_put, prune_schedules, lookup_put. by rewrite decide_True by exact (inv_key _ _ IS _ _ Hr).
  - intros t Hle. unfold claim_time. simpl. destruct next as [n|]; [|done].
    pose proof (next_after_claim_future zi r now n (inv_row _ _ IS _ _ Hr) Hn).
    destruct (negb _); [done|]. by rewrite (proj2 (Z.ltb_lt t n)) by lia.
Qed.

(** ** The run history is bounded *)

(** The keys of the runs with a property. *)
Definition run_keys (st : store) (P : ScheduleRunRecord → Prop) `{∀ x, Decision (P x)} : gset string :=
  dom (filter (λ kv, P kv.2) st.(schedule_runs)).

Lemma elem_run_keys st P `{∀ x, Decision (P x)} rid :
  rid ∈ run_keys st P ↔ ∃ x, st.(schedule_runs) !! rid = Some x ∧ P x.
Proof.
  unfold run_keys. rewrite elem_of_dom. unfold is_Some. setoid_rewrite map_lookup_filter_Some. done.
Qed.

Lemma size_list_ids (l : list string) : (size (list_to_set l : gset string) ≤ length l)%nat.
Proof.
  induction l as [|x l IH]; [by rewrite list_to_set_nil, size_empty|].
  rewrite list_to_set_cons, size_union_alt, size_singleton. simpl.
  assert (size ((list_to_set l : gset string) ∖ {[x]}) ≤ size (list_to_set l : gset string))%nat; [|lia].
  apply subseteq_size. set_solver.
Qed.

Lemma size_union_le (X Y : gset string) : (size (X ∪ Y) ≤ size X + size Y)%nat.
Proof.
  rewrite size_union_alt. assert (size (Y ∖ X) ≤ size Y)%nat; [|lia].
  apply subseteq_size. set_solver.
Qed.

(** What pruning leaves of the prunable runs. *)
Lemma prune_bound sid now keep st :
  (∀ rid x, st.(schedule_runs) !! rid = Some x → x.(run_id) = rid) →
  (size (run_keys (prune_runs sid now keep st) (prunable sid keep)) ≤
   MAX_SCHEDULE_RUNS_PER_SCHEDULE - match keep with Some _ => 1 | None => 0 end)%nat.
Proof.
  intros K. unfold prune_runs.
  set (st1 := delete_runs _ st). set (limit := (_ - _)%nat).
  etrans; [|etrans; [apply (size_list_ids (run_id <$> take limit (history st1 sid keep)))|]].
  2:{ rewrite length_fmap, length_take. lia. }
  apply subseteq_size. intros rid (x & Hx & P)%elem_run_keys. simpl in Hx.
  apply map_lookup_filter_Some in Hx as [Hx Hsur]. simpl in Hsur.
  assert (x.(run_id) = rid) as Kx.
  { apply map_lookup_filter_Some in Hx as [Hx _]. eauto. }
  assert (x ∈ history st1 sid keep) as Hh by (apply history_elem; eauto).
  rewrite <- (take_drop limit (history st1 sid keep)) in Hh.
  apply elem_of_list_to_set, list_elem_of_fmap. exists x. split; [done|].
  apply elem_of_app in Hh as [?|Hd]; [done|]. exfalso. apply Hsur, list_elem_of_fmap. eauto.
Qed.

Definition live_of (sid : string) (x : ScheduleRunRecord) : Prop :=
  x.(run_schedule_id) = sid ∧ live x.(rstatus) = true.
#[export] Instance live_of_dec sid x : Decision (live_of sid x).
Proof. unfold live_of. apply _. Defined.

Definition of_schedule (sid : string) (x : ScheduleRunRecord) : Prop := x.(run_schedule_id) = sid.
#[export] Instance of_schedule_dec sid x : Decision (of_schedule sid x).
Proof. unfold of_schedule. apply _. Defined.

Definition run_count (st : store) (sid : string) : nat := size (run_keys st (of_schedule sid)).

(** At most one run of a schedule is live. *)
Lemma live_unique st rid rid' x y :
  inv_runs st → st.(schedule_runs) !! rid = Some x → st.(schedule_runs) !! rid' = Some y →
  x.(run_schedule_id) = y.(run_schedule_id) →
  live x.(rstatus) = true → live y.(rstatus) = true → rid = rid'.
Proof.
  intros I Hx Hy E Lx Ly. destruct (inv_fk _ I _ _ Hx) as [r Hr].
  assert (r.(running_task_id) = Some (marker x)) by (apply (inv_live _ I _ _ _ Hr); eauto 6).
  assert (r.(running_task_id) = Some (marker y)) by (apply (inv_live _ I _ _ _ Hr); eauto 6).
  eapply (inv_markers _ I); [exact Hx|exact Hy|congruence].
Qed.

Lemma live_count st sid : inv_runs st → (size (run_keys st (live_of sid)) ≤ 1)%nat.
Proof.
  intros I. destruct (decide (run_keys st (live_of sid) = ∅)) as [->|Hne]; [rewrite size_empty; lia|].
  apply set_choose_L in Hne as [rid Hin]. apply elem_run_keys in Hin as (x & Hx & Hs & Lx).
  transitivity (size ({[rid]} : gset string)); [|by rewrite size_singleton].
  apply subseteq_size. intros rid' (y & Hy & Hs' & Ly)%elem_run_keys. apply elem_of_singleton.
  eapply live_unique; [done|exact Hy|exact Hx|congruence|done|done].
Qed.

(** One more than the limit: the pruned history and a live run. *)
Definition MAX_RUN_ROWS : nat := S MAX_SCHEDULE_RUNS_PER_SCHEDULE.

Lemma prune_count st sid now keep :
  inv_runs st → (run_count (prune_runs sid now keep st) sid ≤ MAX_RUN_ROWS)%nat.
Proof.
  intros I. pose proof (prune_runs_inv sid now keep st I) as I'.
  pose proof (prune_bound sid now keep st (inv_run_key _ I)) as B.
  pose proof (live_count (prune_runs sid now keep st) sid I') as L.
  unfold run_count.
  set (kept := match keep with Some rid => {[rid]} | None => ∅ end : gset string).
  assert (size kept = match keep with Some _ => 1 | None => 0 end)%nat as Sk.
  { unfold kept. destruct keep; [apply size_singleton|apply size_empty]. }
  transitivity (size (run_keys (prune_runs sid now keep st) (prunable sid keep) ∪
    (run_keys (prune_runs sid now keep st) (live_of sid) ∪ kept))).
  - apply subseteq_size. intros rid (x & Hx & Hs)%elem_run_keys.
    rewrite !elem_of_union, !elem_run_keys. destruct (live (rstatus x)) eqn:Lx.
    + right; left. exists x. done.
    + destruct (decide (keep = Some x.(run_id))) as [Ek|Ek].
      * right; right. unfold kept. rewrite Ek, (inv_run_key _ I' _ _ Hx). set_solver.
      * left. exists x. done.
  - etrans; [apply size_union_le|].
    pose proof (size_union_le (run_keys (prune_runs sid now keep st) (live_of sid)) kept).
    unfold MAX_RUN_ROWS, MAX_SCHEDULE_RUNS_PER_SCHEDULE in *. destruct keep; lia.
Qed.

Lemma run_count_le st st' sid :
  (∀ rid x', st'.(schedule_runs) !! rid = Some x' → x'.(run_schedule_id) = sid →
     ∃ x, st.(schedule_runs) !! rid = Some x ∧ x.(run_schedule_id) = sid) →
  (run_count st' sid ≤ run_count st sid)%nat.
Proof.
  intros H. unfold run_count. apply subseteq_size.
  intros rid (x & Hx & Hs)%elem_run_keys. apply elem_run_keys. eauto.
Qed.

Lemma prune_sub sid now keep st rid x :
  (prune_runs sid now keep st).(schedule_runs) !! rid = Some x → st.(schedule_runs) !! rid = Some x.
Proof. simpl. rewrite !map_lookup_filter_Some. tauto. Qed.

Lemma put_schedule_count st r sid : run_count (put_schedule st r) sid = run_count st sid.
Proof. reflexivity. Qed.

Lemma step_count zi st st' sid :
  inv zi st → step zi st st' → (run_count st sid ≤ MAX_RUN_ROWS)%nat →
  (run_count st' sid ≤ MAX_RUN_ROWS)%nat.
Proof.
  intros I S B. destruct S as
    [app a now sid0 r0 st' V H|app sid0 rev a now r0 st' V H|app sid0 now r0 st' H|
     app sid0 now r0 st' H|app sid0 s now r0 st' H|app now|sid0 now grace force app rid F|
     rid task now x st' _ _ H|rid s code err now x st' H|now|app].
  - unfold create in H. split_matches H. done.
  - unfold update in H. split_matches H. done.
  - unfold pause, set_status in H. split_matches H. done.
  - unfold resume in H. split_matches H. done.
  - unfold end_schedule in H. split_matches H; done.
  - done.
  - rewrite claim_due_state.
    destruct (claim_txn zi sid0 now grace force app rid st) as [[[[[r1 run] x]|] st']|] eqn:E; [| |done].
    + apply claim_txn_taken in E as (r & t & rst & err & next & Hr & Ht & Ho & Hn & Hfr & -> & -> & _).
      rewrite prune_put. pose proof (inv_key _ _ (proj1 I) _ _ Hr) as K.
      destruct (decide (sid0 = sid)) as [->|Hne].
      * rewrite K. apply prune_count. eapply claim_written_inv; eauto.
      * etrans; [|exact B]. apply run_count_le. intros rid' x' Hx' Hs. apply prune_sub in Hx'.
        simpl in Hx'. rewrite lookup_insert in Hx'. case_decide; [|eauto].
        injection Hx' as <-. simpl in Hs. congruence.
    + assert (st' = st) as ->; [|done]. unfold claim_txn in E. split_matches E; try done; by injection E.
  - unfold bind_task in H. destruct (schedule_runs st !! rid) as [row|] eqn:Er; [|done].
    case_bool_decide; [|done]. injection H as <- <-. etrans; [|exact B]. apply run_count_le.
    intros rid' x'. rewrite swap_marker_runs. simpl. rewrite lookup_insert.
    rewrite (inv_run_key _ (proj2 I) _ _ Er). case_decide; [|eauto]. subst. intros [= <-]. eauto.
  - apply finish_run_Ok in H as (row & Ls & Er & -> & ->).
    destruct (decide (row.(run_schedule_id) = sid)) as [<-|Hne].
    + apply prune_count. by eapply finish_written_inv.
    + etrans; [|exact B]. apply run_count_le. intros rid' x' Hx' Hs. apply prune_sub in Hx'.
      simpl in Hx'. rewrite swap_marker_runs, lookup_insert in Hx'. case_decide; [|eauto].
      injection Hx' as <-. simpl in Hs. congruence.
  - etrans; [|exact B]. apply run_count_le. intros rid x'. simpl. rewrite lookup_fmap_Some.
    intros (x & <- & Hx) Hs. exists x. split; [done|]. by destruct (live (rstatus x)).
  - etrans; [|exact B]. apply run_count_le. intros rid x'. simpl.
    rewrite map_lookup_filter_Some. naive_solver.
Qed.

Lemma reachable_count zi st sid : reachable zi st → (run_count st sid ≤ MAX_RUN_ROWS)%nat.
Proof.
  unfold reachable. intros R.
  enough (∀ s, rtc (step zi) s st → inv zi s → (run_count s sid ≤ MAX_RUN_ROWS)%nat →
    (run_count st sid ≤ MAX_RUN_ROWS)%nat) as H.
  { apply (H _ R); [apply empty_inv|]. unfold run_count, run_keys. simpl.
    rewrite map_filter_empty, dom_empty_L, size_empty. lia. }
  clear R. intros s R. induction R; eauto using step_inv, step_count.
Qed.
