(* ===== verification/SchedulerTheorems.v ===== *)
(** * SchedulerTheorems: what the schedules guarantee

    The properties of the calendar text, the cron expressions, the timing
    validation and the schedule store, each with an instance at concrete data. *)

From Stdlib Require Import ZArith QArith Lia Ascii String.
From stdpp Require Import base tactics list sorting gmap strings fin_maps.
From S2P Require Import Prelude Calendar Cron Timing Scheduler.

Local Open Scope Z_scope.

(** ** Demonstration data *)

(** A zone database with UTC and one constant offset. *)
Definition demo_zones (key : string) : res exn zone :=
  if String.eqb key "UTC" then Ok (fixed_zone 0)
  else if String.eqb key "Etc/GMT-1" then Ok (fixed_zone (3600 * sec_us))
  else Err (KeyError key).

(** 2024-05-01T12:00:00 UTC *)
Definition demo_now : Z := 63850161600000000.

Definition demo_request : json :=
  JObj [("type", JStr "interval"); ("minutes", JInt 5)]%string.

Definition demo_timing : ScheduleTiming :=
  match validate_timing demo_zones demo_request demo_now with
  | Ok t => t
  | Err _ => {| tm_type := once; tm_expression := None; tm_interval_minutes := None;
                tm_run_at := None; tm_timezone := ""; tm_next_run_at := 0 |}
  end.

Definition demo_args : create_args :=
  {| ca_name := "backup"; ca_timing := demo_timing; ca_command := "make backup"; ca_cwd := ".";
     ca_timeout := None; ca_overlap := "skip"; ca_misfire := "skip"; ca_plan := 1;
     ca_taskname := "backup"; ca_message := "nightly" |}%string.

Definition demo_due : Z := demo_now + 300 * sec_us.

Definition demo_created : store :=
  match create "app" demo_args demo_now "s1" empty_store with Ok (_, st) => st | Err _ => empty_store end.
Definition demo_claimed : store :=
  (claim_due demo_zones "s1" demo_due 300 false None "r1" demo_created).2.

Lemma demo_reachable : reachable demo_zones demo_claimed.
Proof.
  apply rtc_r with demo_created.
  - apply rtc_once. eapply (step_create demo_zones empty_store "app" demo_args demo_now "s1").
    + exists demo_request, demo_now. vm_compute. reflexivity.
    + vm_compute. reflexivity.
  - apply step_claim. intros rid x H. vm_compute in H. done.
Qed.

(** ** Text of timestamps *)

(** for instants of the years 1 to 9999, the ISO 8601 text that [iso_utc]
    stores sorts (byte by byte, as SQLite's ORDER BY and < do) exactly as the
    instants do, although the text omits zero microseconds. *)
Theorem iso_text_order t t' :
  0 ≤ t < max_instant → 0 ≤ t' < max_instant → str_lt (iso_utc t) (iso_utc t') ↔ t < t'.
Proof.
  intros H H'. split; [|by intros; apply iso_utc_mono; lia].
  intros L. destruct (Z.lt_total t t') as [?|[->|G]]; [done| |].
  - unfold str_lt in L. pose proof (String.compare_antisym (iso_utc t') (iso_utc t')) as A.
    rewrite L in A. done.
  - pose proof (iso_utc_mono t' t ltac:(lia) ltac:(lia)) as L'. unfold str_lt in *.
    rewrite String.compare_antisym, L' in L. done.
Qed.

(** ** Cron *)

(** an accepted field holds exactly the values its items cover (ranges,
    lists, steps, with 7 folded onto 0 for weekdays), and the returned flag
    tells whether that is the whole range of the field. *)
Theorem cron_field_denotes value minimum maximum name normalize r full :
  expand_cron_field value minimum maximum name normalize = Ok (r, full) →
  r ≠ ∅ ∧ (∀ x, x ∈ r ↔ field_denotes value minimum maximum name normalize x) ∧
  (full = true ↔ r = full_field minimum maximum normalize).
Proof.
  intros H. split; [by eapply expand_cron_field_nonempty|by apply expand_cron_field_denotes].
Qed.

(** Every parsed expression is well formed: all fields lie in their ranges,
    the unrestricted flags are right, [daily_seconds] is the product of hours
    and minutes, and two firings of a day, or of two consecutive days, are at
    least three minutes apart. *)
Theorem cron_parse_wf text c : parse text = Ok c → wf_cron c.
Proof. apply parse_wf. Qed.

Definition demo_cron : CronExpression :=
  match parse " 0  30 9 * * 1-5" with
  | Ok c => c
  | Err _ => {| expression := ""; second := 0; minutes := ∅; hours := ∅; days := ∅; months := ∅;
                weekdays := ∅; days_unrestricted := false; weekdays_unrestricted := false;
                daily_seconds := [] |}
  end.

(** the normalized text that is stored parses to the same expression, so
    claims and resumes of a stored schedule see the schedule that was created. *)
Theorem cron_stored_text text c : parse text = Ok c → parse (expression c) = Ok c.
Proof. apply parse_reparse. Qed.

(** C13: in every zone in which a local time belongs to at most two instants,
    [next_after] returns an occurrence strictly after the given instant: the first
    one by local date, and by instant within a date, among those whose local date is
    not before the given instant's.  It is the earliest of all occurrences after the
    instant when the local date does not go back in between, and one is returned
    whenever an occurrence lies inside the eight-year window. *)
Theorem cron_next_after_correct c z (laws : ZoneLaws z) after :
  wf_cron c →
  (∀ t, next_after c after z = Ok t →
     after < t ∧ occurs c z t ∧ local_date z after ≤ local_date z t ∧
     (∀ u, after < u → occurs c z u → local_date z after ≤ local_date z u → searched_before z t u) ∧
     (dates_advance z after t → ∀ u, after < u → occurs c z u → t ≤ u)) ∧
  (∀ u, after < u → occurs c z u →
     local_date z after ≤ local_date z u ≤ local_date z after + MAX_SCHEDULE_LOOKAHEAD_DAYS →
     local_date z u ≤ max_ordinal → ∃ t, next_after c after z = Ok t).
Proof.
  intros W. split.
  - intros t H. destruct (next_after_sound c z after t W H) as [L O].
    destruct (next_after_first c z after t W H) as [D F].
    split_and!; [done..|]. by apply next_after_least.
  - intros u. by apply next_after_total.
Qed.

(** 2024-05-01 is a Wednesday; the clock of this zone jumps forward at noon. *)
Lemma cron_next_after_correct_witness :
  ∃ t, next_after demo_cron demo_now (forward_zone demo_now) = Ok t ∧ demo_now < t ∧
    ∀ u, demo_now < u → occurs demo_cron (forward_zone demo_now) u → t ≤ u.
Proof.
  eexists. split; [vm_compute; reflexivity|].
  destruct (cron_next_after_correct demo_cron (forward_zone demo_now)
    (forward_zone_laws demo_now) demo_now
    (parse_wf " 0  30 9 * * 1-5" demo_cron eq_refl)) as [H _].
  destruct (H _ eq_refl) as (L & _ & _ & _ & M). split; [exact L|exact (M (forward_zone_advances _ _ _))].
Defined.

Definition half_hourly : CronExpression := match parse "0 0,30 * * * *" with Ok c => c | Err _ => demo_cron end.
(** 2024-05-01T00:01:00, when the clock of a zone is turned back to 23:01. *)
Definition demo_turn : Z := demo_now - (43200 - 60) * sec_us.

(** Where the clock is turned back shortly after midnight the search skips an
    occurrence: after the firing at midnight the clock shows 23:30 of the day before
    again, and [next_after] returns the second midnight. *)
Theorem cron_repeated_evening_skipped :
  let z := backward_zone demo_turn in let midnight := demo_turn - 60 * sec_us in
  occurs half_hourly z midnight ∧ occurs half_hourly z (midnight + 1800 * sec_us) ∧
  next_after half_hourly midnight z = Ok (midnight + 3600 * sec_us).
Proof. vm_compute. split_and!; (reflexivity || (repeat constructor)). Qed.

(** Under a constant UTC offset two occurrences of an accepted expression
    are never closer than the three-minute minimum. *)
Theorem cron_min_interval text c offset u v :
  parse text = Ok c → occurs c (fixed_zone offset) u → occurs c (fixed_zone offset) v → u < v →
  u + MIN_SCHEDULE_INTERVAL_SECONDS * sec_us ≤ v.
Proof. intros H%parse_wf. by apply occurrences_spaced. Qed.

(** 09:30 on two consecutive days *)
(** ** The store *)

(** C2: in every reachable store a schedule's [running_task_id] is set exactly
    when it has a claimed or running run, it is then that run's marker, and
    there is only one such run: scheduled executions never overlap. *)
Theorem schedules_never_overlap zi st :
  reachable zi st →
  (∀ sid r m, st.(schedules) !! sid = Some r →
     (r.(running_task_id) = Some m ↔
      ∃ rid x, st.(schedule_runs) !! rid = Some x ∧ x.(run_schedule_id) = sid ∧
        live x.(rstatus) = true ∧ marker x = m)) ∧
  (∀ rid rid' x y, st.(schedule_runs) !! rid = Some x → st.(schedule_runs) !! rid' = Some y →
     x.(run_schedule_id) = y.(run_schedule_id) →
     live x.(rstatus) = true → live y.(rstatus) = true → rid = rid').
Proof.
  intros [_ I]%reachable_inv. split; [apply I|].
  intros rid rid' x y. by apply live_unique.
Qed.

Lemma schedules_never_overlap_witness :
  ∃ r, demo_claimed.(schedules) !! "s1"%string = Some r ∧
    r.(running_task_id) = Some "claim:r1"%string.
Proof.
  eexists. split; [vm_compute; reflexivity|].
  apply (proj1 (schedules_never_overlap demo_zones demo_claimed demo_reachable) "s1"%string);
    [vm_compute; reflexivity|].
  exists "r1"%string. eexists. split; [vm_compute; reflexivity|]. vm_compute. done.
Defined.

(** In every reachable store no app identity has more than 32 active or
    paused schedules, and a schedule has a next run exactly while it is active. *)
Theorem schedule_quota zi st :
  reachable zi st →
  (∀ app, (active_count st app ≤ MAX_ACTIVE_SCHEDULES_PER_APP)%nat) ∧
  (∀ sid r, st.(schedules) !! sid = Some r → (r.(sched_status) = active ↔ is_Some r.(next_run_at))).
Proof. intros [I _]%reachable_inv. split; apply I. Qed.

(** Pruning keeps every schedule's history bounded: a reachable store never
    holds more than 51 runs of one schedule (the 50 retained ones and a live
    one). *)
Theorem run_history_bounded zi st sid : reachable zi st → (run_count st sid ≤ MAX_RUN_ROWS)%nat.
Proof. apply reachable_count. Qed.

(** completed is terminal: whatever operation runs next, a completed
    schedule is still completed or was deleted with its app. *)
Theorem completed_is_terminal zi st st' sid r :
  reachable zi st → step zi st st' →
  st.(schedules) !! sid = Some r → r.(sched_status) = completed →
  ∀ r', st'.(schedules) !! sid = Some r' → r'.(sched_status) = completed.
Proof. intros I%reachable_inv S. by apply (step_completed zi st). Qed.

(** A timer claim consumes its occurrence: after it, a claim of the same
    schedule at the same or an earlier instant finds nothing due and changes
    nothing, whether or not the first one executed. *)
Theorem claim_not_repeated zi sid now grace rid st c st' :
  reachable zi st →
  claim_due zi sid now grace false None rid st = (Ok (Some c), st') →
  ∀ now' grace' rid', now' ≤ now →
    claim_due zi sid now' grace' false None rid' st' = (Ok None, st').
Proof.
  intros I%reachable_inv H now' grace' rid' L. unfold claim_due in H.
  destruct (claim_txn zi sid now grace false None rid st) as [[[[[r' [run|]] x]|] st1]|] eqn:E; try done.
  injection H as <- <-.
  destruct (claim_consumes _ _ _ _ _ _ _ _ _ _ I E) as [Hr Ht].
  unfold claim_due, claim_txn. cbn [claim_row]. rewrite Hr, (Ht now' L). done.
Qed.

(** updates are optimistic: one that succeeds found the schedule idle, not
    completed and at the expected revision, and bumped the revision, so a
    second update from the same revision is refused and changes nothing. *)
Theorem update_once_per_revision zi app sid rev a now st r st' :
  reachable zi st → update app sid rev a now st = Ok (r, st') →
  r.(revision) = rev + 1 ∧ r.(running_task_id) = None ∧ r.(sched_status) ≠ completed ∧
  ∀ a' now', update app sid rev a' now' st' =
    Err (ScheduleError "schedule revision does not match expected_revision").
Proof.
  intros [IS _]%reachable_inv H. unfold update in H.
  destruct (rev <? 1) eqn:E0; [done|]. destruct (select st app sid) as [cur|] eqn:Sel; [|done].
  apply select_Some in Sel as [Hc Ha].
  case_bool_decide as E1; [done|]. destruct (Z.eqb_spec (revision cur) rev) as [E2|]; [|done].
  case_bool_decide as E3; [done|]. split_matches H. simpl. split_and!; auto.
  { destruct (running_task_id cur); [exfalso; eauto|done]. }
  intros a' now'. unfold update. rewrite E0. unfold select. rewrite lookup_put. simpl.
  rewrite decide_True by exact (inv_key _ _ IS _ _ Hc). simpl. rewrite String.eqb_refl. simpl.
  rewrite bool_decide_false by done. destruct (Z.eqb_spec (revision cur + 1) (revision cur)); [lia|done].
Qed.

(** A missed occurrence older than the retention period is inserted and
    pruned in the same transaction, so the claim commits and then fails its
    assertion instead of reporting the missed run. *)
Theorem stale_miss_asserts :
  ∃ st', claim_due demo_zones "s1" (demo_due + 31 * day_us) 300 false None "r1" demo_created
    = (Err AssertionError, st') ∧ st' ≠ demo_created ∧
  ∀ rid, st'.(schedule_runs) !! rid = None.
Proof.
  eexists. split; [vm_compute; reflexivity|]. split; [|intros rid; vm_compute; done].
  intros E. apply (f_equal (λ st, next_run_at <$> st.(schedules) !! "s1"%string)) in E.
  vm_compute in E. done.
Qed.
