(* ===== verification/Sessions.v ===== *)
(** * Sessions: administrator sessions and the login limiter

    Models src/openkapsel/server_runtime/admin_sessions.py.  [time.time()] is an
    argument of the operations, in microseconds; session identifiers and CSRF
    tokens are random texts, also arguments.  The lock makes every method
    atomic. *)

From Stdlib Require Import ZArith Lia Ascii String.
From stdpp Require Import base tactics list list_numbers sorting gmap strings fin_maps.
From S2P Require Import Prelude Calendar.

Local Open Scope Z_scope.

(** ** Sessions *)

Module AdminSessions.

Record AdminSession := { id : string; csrf : string; expires_at : Z }.

(** [self._sessions] *)
Abbreviation sessions := (gmap string AdminSession).

Definition SESSION_SECONDS : Z := 12 * 60 * 60.

Definition prune (now : Z) (st : sessions) : sessions :=
  filter (λ kv, ¬ kv.2.(expires_at) ≤ now) st.

(** The clock is read twice: for the expiry, and later by [prune]. *)
Definition create (now later : Z) (sid token : string) (st : sessions) : AdminSession * sessions :=
  let session := {| id := sid; csrf := token; expires_at := now + SESSION_SECONDS * sec_us |} in
  (session, <[sid := session]> (prune later st)).

Definition get (now : Z) (sid : option string) (st : sessions) : option AdminSession * sessions :=
  match sid with
  | None => (None, st)
  | Some s =>
      if is_empty s then (None, st)
      else match st !! s with
           | None => (None, delete s st)
           | Some session =>
               if session.(expires_at) <=? now then (None, delete s st) else (Some session, st)
           end
  end.

Definition delete_session (sid : string) (st : sessions) : sessions := delete sid st.

Definition delete_others (keep : string) (st : sessions) : sessions :=
  filter (λ kv, kv.1 = keep) st.

(** *** Traces *)

Inductive op :=
| OCreate (now later : Z) (sid token : string)
| OGet (now : Z) (sid : option string)
| ODelete (sid : string)
| ODeleteOthers (keep : string).

Definition exec (st : sessions) (o : op) : sessions :=
  match o with
  | OCreate now later sid token => (create now later sid token st).2
  | OGet now sid => (get now sid st).2
  | ODelete sid => delete_session sid st
  | ODeleteOthers keep => delete_others keep st
  end.

(** Operations that leave the session [sid] alone until the instant [limit]. *)
Definition spares (sid : string) (limit : Z) (o : op) : Prop :=
  match o with
  | OCreate _ later s _ => later < limit ∧ s ≠ sid
  | OGet now _ => now < limit
  | ODelete s => s ≠ sid
  | ODeleteOthers keep => keep = sid
  end.

Lemma exec_spares sid session limit st o :
  st !! sid = Some session → limit ≤ session.(expires_at) → spares sid limit o →
  exec st o !! sid = Some session.
Proof.
  intros H L S. destruct o as [now later s token|now s|s|keep]; simpl in *.
  - destruct S as [? ?]. rewrite lookup_insert_ne by done. unfold prune.
    apply map_lookup_filter_Some. split; [done|]. simpl. lia.
  - unfold get. destruct s as [s|]; [|done]. destruct (is_empty s); [done|].
    destruct (decide (s = sid)) as [->|].
    + rewrite H. rewrite (proj2 (Z.leb_gt _ _)) by lia. done.
    + destruct (st !! s) as [x|]; [destruct (_ <=? _)|]; simpl; rewrite ?lookup_delete_ne by done; done.
  - unfold delete_session. by rewrite lookup_delete_ne.
  - unfold delete_others. subst. by apply map_lookup_filter_Some.
Qed.

Lemma run_spares sid session limit ops st :
  st !! sid = Some session → limit ≤ session.(expires_at) → Forall (spares sid limit) ops →
  foldl exec st ops !! sid = Some session.
Proof.
  intros H L S. revert st H. induction S as [|o ops So S IH]; intros st H; simpl; [done|].
  apply IH. by eapply exec_spares.
Qed.

(** No operation revives a session: a lookup that fails at [now] fails later. *)
Lemma get_expired now sid st session :
  st !! sid = Some session → session.(expires_at) ≤ now → (get now (Some sid) st).1 = None.
Proof.
  intros H L. unfold get. destruct (is_empty sid); [done|]. rewrite H.
  by rewrite (proj2 (Z.leb_le _ _)).
Qed.

(** A session created at [now] is returned, with its CSRF token, for
    exactly twelve hours, through any sequence of other requests that does not
    delete it; from the twelfth hour on it is refused. *)
Theorem session_lifetime now later sid token st ops t :
  sid ≠ ""%string →
  let session := (create now later sid token st).1 in
  let limit := now + SESSION_SECONDS * sec_us in
  Forall (spares sid limit) ops →
  let st' := foldl exec (create now later sid token st).2 ops in
  (get t (Some sid) st').1 = if t <? limit then Some session else None.
Proof.
  intros Hne session limit S st'.
  assert (st' !! sid = Some session) as H.
  { eapply run_spares; [|reflexivity|exact S]. simpl. by rewrite lookup_insert_eq. }
  destruct (Z.ltb_spec t limit).
  - unfold get. destruct sid as [|c sid]; [done|]. cbn [is_empty]. rewrite H.
    assert ((session.(expires_at) <=? t) = false) as -> by (apply Z.leb_gt; done). done.
  - by eapply get_expired.
Qed.

End AdminSessions.

(** ** The login limiter *)

Module AdminLoginLimiter.

Definition RETENTION_SECONDS : Z := 24 * 60 * 60.
Definition INITIAL_FAILURES : nat := 3.
Definition WINDOW_STEP_SECONDS : Z := 60.

(** [self._failures]: the instants of the failed attempts, oldest first. *)
Abbreviation failures := (gmap string (list Z)).

Definition recent (address : string) (now : Z) (st : failures) : list Z * failures :=
  let cutoff := now - RETENTION_SECONDS * sec_us in
  let attempts := filter (λ item, cutoff ≤ item) (default [] (st !! address)) in
  (attempts, match attempts with [] => delete address st | _ => <[address := attempts]> st end).

(** [attempts[-count]] *)
Definition from_end (attempts : list Z) (count : nat) : Z :=
  default 0 (attempts !! (length attempts - count)%nat).

Definition window (count : nat) : Z :=
  (Z.of_nat count - Z.of_nat INITIAL_FAILURES + 1) * WINDOW_STEP_SECONDS * sec_us.

Definition blocked_until (attempts : list Z) : Z :=
  foldl (λ acc count, Z.max acc (from_end attempts count + window count)) 0
    (seq INITIAL_FAILURES (S (length attempts) - INITIAL_FAILURES)).

Definition retry_after (address : string) (now : Z) (st : failures) : Z * failures :=
  let '(attempts, st') := recent address now st in
  let until := blocked_until attempts in
  (if until <=? now then 0
   else Z.max 1 ((until - now + 999000) / sec_us), st').

Definition allowed (address : string) (now : Z) (st : failures) : bool * failures :=
  let '(seconds, st') := retry_after address now st in (seconds =? 0, st').

Definition failed (address : string) (now : Z) (st : failures) : failures :=
  let '(attempts, st') := recent address now st in
  <[address := attempts ++ [now]]> st'.

Definition succeeded (address : string) (st : failures) : failures := delete address st.

(** *** The declarative rule *)

(** How many failures fall inside the last [n - 2] minutes. *)
Definition within_window (attempts : list Z) (now : Z) (n : nat) : nat :=
  length (filter (λ a, now - window n < a) attempts).

(** Blocked: for some [n] of at least three, [n] failures in [n - 2] minutes. *)
Definition too_many (attempts : list Z) (now : Z) : Prop :=
  ∃ n, (INITIAL_FAILURES ≤ n)%nat ∧ (n ≤ within_window attempts now n)%nat.

Lemma foldl_max f (l : list nat) acc t :
  t < foldl (λ a n, Z.max a (f n)) acc l ↔ t < acc ∨ ∃ n, n ∈ l ∧ t < f n.
Proof.
  revert acc. induction l as [|n l IH]; intros acc; simpl; [set_solver|].
  rewrite IH. setoid_rewrite elem_of_cons. split.
  - intros [H|(m & ? & ?)]; [|eauto]. destruct (Z.max_spec acc (f n)) as [[? E]|[? E]]; rewrite E in H; eauto.
  - intros [H|(m & [->|?] & ?)]; [left; lia|left; lia|eauto].
Qed.

(** In a list sorted oldest first, the [n]-th last element lies after [x]
    exactly when [n] elements do. *)
Lemma sorted_nth_last (l : list Z) x n :
  StronglySorted Z.le l → (1 ≤ n ≤ length l)%nat →
  x < from_end l n ↔ (n ≤ length (filter (λ a, (x < a)%Z) l))%nat.
Proof.
  unfold from_end. intros SS. induction SS as [|a l SS IH F]; simpl length; intros Hn; [lia|].
  rewrite Forall_forall in F.
  destruct (decide (n = S (length l))) as [->|].
  - replace (S (length l) - S (length l))%nat with 0%nat by lia. simpl.
    assert (∀ y, y ∈ a :: l → a ≤ y) as Ha.
    { intros y [->|Hy]%elem_of_cons; [lia|by apply F]. }
    split.
    + intros L. assert (filter (λ b, x < b) (a :: l) = a :: l) as ->; [|done].
      apply list_filter_all. intros y Hy. specialize (Ha _ Hy). lia.
    + intros L. destruct (decide (x < a)); [done|]. exfalso.
      rewrite filter_cons_False in L by done.
      pose proof (length_filter (λ b, x < b) l). lia.
  - replace (S (length l) - n)%nat with (S (length l - n)) by lia. cbn [lookup list_lookup].
    rewrite IH by lia. destruct (decide (x < a)) as [Hxa|Hxa].
    + rewrite filter_cons_True by done. simpl. split; [lia|]. intros L.
      assert (filter (λ b, x < b) l = l) as ->; [|lia].
      apply list_filter_all. intros y Hy. specialize (F _ Hy). lia.
    + by rewrite filter_cons_False.
Qed.

Lemma within_le_length attempts now n : (within_window attempts now n ≤ length attempts)%nat.
Proof. apply length_filter. Qed.

Lemma blocked_iff attempts now :
  StronglySorted Z.le attempts → 0 ≤ now →
  now < blocked_until attempts ↔ too_many attempts now.
Proof.
  intros S Hn. unfold blocked_until, too_many. rewrite foldl_max.
  assert (∀ n, (1 ≤ n ≤ length attempts)%nat →
    now < from_end attempts n + window n ↔ (n ≤ within_window attempts now n)%nat) as E.
  { intros n Hl. unfold within_window. rewrite <- sorted_nth_last by done. lia. }
  split.
  - intros [?|(n & Hin & L)]; [lia|]. apply elem_of_seq in Hin. exists n. split; [lia|].
    apply E; [unfold INITIAL_FAILURES in *; lia|done].
  - intros (n & H3 & Hw). right. pose proof (within_le_length attempts now n).
    exists n. split; [apply elem_of_seq; lia|]. apply E; [unfold INITIAL_FAILURES in *; lia|done].
Qed.

(** The recorded failures stay sorted and in the past. *)
Definition wf (st : failures) (now : Z) : Prop :=
  ∀ address attempts, st !! address = Some attempts →
    StronglySorted Z.le attempts ∧ Forall (λ a, a ≤ now) attempts.

Lemma sorted_filter (P : Z → Prop) `{∀ x, Decision (P x)} l :
  StronglySorted Z.le l → StronglySorted Z.le (filter P l).
Proof.
  induction 1 as [|a l S IH F]; [constructor|]. destruct (decide (P a)).
  - rewrite filter_cons_True by done. constructor; [done|]. apply Forall_forall.
    intros y Hy. apply list_elem_of_filter in Hy as [_ Hy]. by eapply Forall_forall.
  - by rewrite filter_cons_False.
Qed.

Lemma sorted_snoc l t : StronglySorted Z.le l → Forall (λ a, a ≤ t) l → StronglySorted Z.le (l ++ [t]).
Proof.
  induction 1 as [|a l S IH F]; intros Hl; simpl; [repeat constructor|].
  inversion Hl; subst. constructor; [auto|]. apply Forall_app. split; [done|]. by constructor.
Qed.

Lemma recent_spec address now st attempts st' :
  recent address now st = (attempts, st') →
  attempts = filter (λ a, now - RETENTION_SECONDS * sec_us ≤ a) (default [] (st !! address)) ∧
  default [] (st' !! address) = attempts ∧
  ∀ other, other ≠ address → st' !! other = st !! other.
Proof.
  unfold recent. intros [= <- <-]. split; [done|].
  destruct (filter _ _) as [|a l]; [rewrite lookup_delete_eq|rewrite lookup_insert_eq];
    (split; [done|]); intros; by rewrite ?lookup_delete_ne, ?lookup_insert_ne.
Qed.

Lemma recent_wf address now st attempts st' :
  recent address now st = (attempts, st') → wf st now →
  StronglySorted Z.le attempts ∧ Forall (λ a, a ≤ now) attempts ∧ wf st' now.
Proof.
  intros R W. destruct (recent_spec _ _ _ _ _ R) as (E & E' & O).
  assert (StronglySorted Z.le attempts ∧ Forall (λ a, a ≤ now) attempts) as [S F].
  { subst attempts. destruct (st !! address) as [l|] eqn:El; [|split; constructor]. simpl.
    destruct (W _ _ El) as [S F]. split; [by apply sorted_filter|].
    apply Forall_forall. intros y [_ Hy]%list_elem_of_filter. by eapply Forall_forall in F. }
  split_and!; auto. intros a l Hl. destruct (decide (a = address)) as [->|Hne].
  - rewrite Hl in E'. simpl in E'. by subst l.
  - rewrite O in Hl by done. by apply W in Hl.
Qed.

Lemma failed_wf address now st : wf st now → wf (failed address now st) now.
Proof.
  intros W. unfold failed. destruct (recent address now st) as [l st'] eqn:R.
  destruct (recent_wf _ _ _ _ _ R W) as (S & F & W').
  intros a m. rewrite lookup_insert. case_decide; [|by apply W'].
  intros [= <-]. split; [by apply sorted_snoc|]. apply Forall_app. by repeat constructor.
Qed.

Lemma wf_later st now now' : wf st now → now ≤ now' → wf st now'.
Proof.
  intros W L a l Hl. destruct (W _ _ Hl) as [S F]. split; [done|].
  eapply Forall_impl; [exact F|]. simpl. lia.
Qed.

Lemma succeeded_wf address st now : wf st now → wf (succeeded address st) now.
Proof. intros W a l. unfold succeeded. rewrite lookup_delete_Some. intros [_ H]. by apply W in H. Qed.

Lemma retry_after_wf address st now : wf st now → wf (retry_after address now st).2 now.
Proof.
  intros W. unfold retry_after. destruct (recent address now st) as [l st'] eqn:R.
  by destruct (recent_wf _ _ _ _ _ R W) as (_ & _ & ?).
Qed.

Lemma empty_wf now : wf ∅ now.
Proof. intros a l. by rewrite lookup_empty. Qed.

#[local] Hint Resolve failed_wf succeeded_wf retry_after_wf empty_wf : py_list.


Definition demo_failures : failures :=
  failed "10.0.0.1" 50000000 (failed "10.0.0.1" 40000000 (failed "10.0.0.1" 30000000 ∅)).


End AdminLoginLimiter.
