(* ===== verification/Hashing.v ===== *)
(** * Hashing: the byte-level primitives the credential code calls

    [hashlib.sha256], [hmac], [hashlib.pbkdf2_hmac], [base64] and [str.encode],
    as executable functions on lists of bytes (integers from 0 to 255), with the
    facts the clients use: the lengths of digests, the alphabet of their texts
    and the round trip of the URL-safe base64 code. *)

From Stdlib Require Import ZArith Lia Ascii String.
From stdpp Require Import base tactics list list_numbers sets strings.
From S2P Require Import Prelude.

Local Open Scope Z_scope.

Abbreviation bytes := (list Z).

Definition is_byte (b : Z) : Prop := 0 ≤ b < 256.

(** [value.encode("utf-8")] on the code points below 256. *)
Fixpoint utf8 (s : string) : bytes :=
  match s with
  | EmptyString => []
  | String c s' =>
      let n := code c in
      (if n <? 128 then [n] else [192 + n / 64; 128 + n mod 64]) ++ utf8 s'
  end.

(** ** SHA-256 *)

Module Sha256.

Definition mask : Z := 4294967295.
Definition add32 (a b : Z) : Z := Z.land (a + b) mask.
Definition rotr (n x : Z) : Z := Z.lor (Z.shiftr x n) (Z.land (Z.shiftl x (32 - n)) mask).
Definition ch (x y z : Z) : Z := Z.lxor (Z.land x y) (Z.land (Z.lxor x mask) z).
Definition maj (x y z : Z) : Z := Z.lxor (Z.lxor (Z.land x y) (Z.land x z)) (Z.land y z).
Definition bsig0 (x : Z) : Z := Z.lxor (Z.lxor (rotr 2 x) (rotr 13 x)) (rotr 22 x).
Definition bsig1 (x : Z) : Z := Z.lxor (Z.lxor (rotr 6 x) (rotr 11 x)) (rotr 25 x).
Definition ssig0 (x : Z) : Z := Z.lxor (Z.lxor (rotr 7 x) (rotr 18 x)) (Z.shiftr x 3).
Definition ssig1 (x : Z) : Z := Z.lxor (Z.lxor (rotr 17 x) (rotr 19 x)) (Z.shiftr x 10).

(** The constants are the first 32 bits of the fractional parts of roots of the
    first primes: [frac_root k p] is that of the [k]-th root of [p]. *)
Fixpoint root_bits (bits k : nat) (n acc : Z) : Z :=
  match bits with
  | O => acc
  | S b =>
      let r := acc + 2 ^ Z.of_nat b in
      root_bits b k n (if r ^ Z.of_nat k <=? n then r else acc)
  end.

Definition frac_root (k : nat) (p : Z) : Z :=
  Z.land (root_bits 40 k (p * 2 ^ (32 * Z.of_nat k)) 0) mask.

Definition is_prime (n : Z) : bool :=
  (1 <? n) && forallb (λ d, negb (n mod d =? 0)) (seqZ 2 (n - 2)).

Definition primes : list Z := Eval vm_compute in filter (λ n, is_prime n = true) (seqZ 2 310).

(** One constant per round, from the cube roots of the first 64 primes. *)
Definition K : list Z := Eval vm_compute in frac_root 3 <$> primes.

Record state := St { ha : Z; hb : Z; hc : Z; hd : Z; he : Z; hf : Z; hg : Z; hh : Z }.

(** The initial state, from the square roots of the first eight primes. *)
Definition H0 : state :=
  Eval vm_compute in
    let w i := frac_root 2 (nth i primes 0) in
    St (w 0%nat) (w 1%nat) (w 2%nat) (w 3%nat) (w 4%nat) (w 5%nat) (w 6%nat) (w 7%nat).

(** The message schedule, kept as the sixteen latest words, newest first. *)
Definition next_word (ws : list Z) : Z :=
  let w i := nth i ws 0 in
  add32 (add32 (ssig1 (w 1%nat)) (w 6%nat)) (add32 (ssig0 (w 14%nat)) (w 15%nat)).

Definition round (s : state) (k w : Z) : state :=
  let t1 := add32 (add32 (hh s) (bsig1 (he s))) (add32 (ch (he s) (hf s) (hg s)) (add32 k w)) in
  let t2 := add32 (bsig0 (ha s)) (maj (ha s) (hb s) (hc s)) in
  St (add32 t1 t2) (ha s) (hb s) (hc s) (add32 (hd s) t1) (he s) (hf s) (hg s).

(** [ahead]: the words of the block not yet consumed; [ws]: the schedule. *)
Fixpoint rounds (ks : list Z) (ahead ws : list Z) (s : state) : state :=
  match ks with
  | [] => s
  | k :: ks' =>
      match ahead with
      | w :: ahead' => rounds ks' ahead' (w :: ws) (round s k w)
      | [] =>
          let w := next_word ws in
          rounds ks' [] (w :: take 15 ws) (round s k w)
      end
  end.

Definition compress (s : state) (block : list Z) : state :=
  let r := rounds K block [] s in
  St (add32 (ha s) (ha r)) (add32 (hb s) (hb r)) (add32 (hc s) (hc r)) (add32 (hd s) (hd r))
     (add32 (he s) (he r)) (add32 (hf s) (hf r)) (add32 (hg s) (hg r)) (add32 (hh s) (hh r)).

(** Big-endian bytes of an [n]-byte integer. *)
Fixpoint be_bytes (n : nat) (x : Z) : bytes :=
  match n with
  | O => []
  | S n' => Z.land (Z.shiftr x (8 * Z.of_nat n')) 255 :: be_bytes n' x
  end.

Definition pad (m : bytes) : bytes :=
  let len := Z.of_nat (length m) in
  m ++ 128 :: replicate (Z.to_nat ((55 - len) mod 64)) 0 ++ be_bytes 8 (8 * len).

Fixpoint words (m : bytes) : list Z :=
  match m with
  | a :: b :: c :: d :: m' => (((a * 256 + b) * 256 + c) * 256 + d) :: words m'
  | _ => []
  end.

Fixpoint blocks (fuel : nat) (ws : list Z) (s : state) : state :=
  match fuel, ws with
  | O, _ | _, [] => s
  | S fuel', _ => blocks fuel' (drop 16 ws) (compress s (take 16 ws))
  end.

Definition state_words (s : state) : list Z :=
  [ha s; hb s; hc s; hd s; he s; hf s; hg s; hh s].

Definition sha256 (m : bytes) : bytes :=
  let ws := words (pad m) in
  state_words (blocks (length ws) ws H0) ≫= be_bytes 4.

Lemma be_bytes_length n x : length (be_bytes n x) = n.
Proof. induction n; simpl; congruence. Qed.

Lemma be_bytes_range n x : Forall is_byte (be_bytes n x).
Proof.
  induction n as [|n IH]; simpl; constructor; [|done]. unfold is_byte.
  change 255 with (Z.ones 8). rewrite Z.land_ones by lia. apply Z.mod_pos_bound. lia.
Qed.

Lemma sha256_length m : length (sha256 m) = 32%nat.
Proof. unfold sha256, state_words. cbn [mbind list_bind]. by rewrite !length_app, !be_bytes_length. Qed.

Lemma sha256_range m : Forall is_byte (sha256 m).
Proof.
  unfold sha256, state_words. cbn [mbind list_bind]. repeat apply Forall_app_2; try apply be_bytes_range.
  constructor.
Qed.

End Sha256.

(** ** Hexadecimal and base64 texts *)

Definition hex_digit (n : Z) : ascii :=
  ascii_of_N (Z.to_N (if n <? 10 then 48 + n else 87 + n)).

Fixpoint hex (m : bytes) : string :=
  match m with
  | [] => EmptyString
  | b :: m' => String (hex_digit (b / 16)) (String (hex_digit (b mod 16)) (hex m'))
  end.

(** [hashlib.sha256(value.encode("utf-8")).hexdigest()] *)
Definition sha256_hex (value : string) : string := hex (Sha256.sha256 (utf8 value)).

Lemma hex_length m : String.length (hex m) = (2 * length m)%nat.
Proof. induction m as [|b m IH]; simpl; [done|]. rewrite IH. lia. Qed.

Lemma sha256_hex_length v : String.length (sha256_hex v) = 64%nat.
Proof. unfold sha256_hex. by rewrite hex_length, Sha256.sha256_length. Qed.

(** The two published test vectors of the hash. *)
Example sha256_empty :
  sha256_hex "" = "e3b0c44298fc1c149afbf4c8996fb92427ae41e4649b934ca495991b7852b855"%string.
Proof. vm_compute. reflexivity. Qed.

Example sha256_two_blocks :
  sha256_hex "abcdbcdecdefdefgefghfghighijhijkijkljklmklmnlmnomnopnopq" =
  "248d6a61d20638b8e5c026930c3e6039a33ce45964ff2167f6ecedd419db06c1"%string.
Proof. vm_compute. reflexivity. Qed.

(** ** URL-safe base64 *)

Module Base64.

(** The character of a sextet, in the alphabet with [-] and [_]. *)
Definition b64_char (n : Z) : ascii :=
  ascii_of_N (Z.to_N
    (if n <? 26 then 65 + n else if n <? 52 then 71 + n else if n <? 62 then n - 4
     else if n =? 62 then 45 else 95)).

(** [base64.urlsafe_b64encode], padding included. *)
Fixpoint urlsafe_b64encode (m : bytes) : string :=
  match m with
  | [] => ""
  | [a] => String (b64_char (a / 4)) (String (b64_char (a mod 4 * 16)) "==")
  | [a; b] =>
      String (b64_char (a / 4)) (String (b64_char (a mod 4 * 16 + b / 16))
        (String (b64_char (b mod 16 * 4)) "="))
  | a :: b :: c :: m' =>
      String (b64_char (a / 4)) (String (b64_char (a mod 4 * 16 + b / 16))
        (String (b64_char (b mod 16 * 4 + c / 64)) (String (b64_char (c mod 64))
          (urlsafe_b64encode m'))))
  end.

(** Decoding with [altchars=b"-_"] maps both spellings of 62 and 63. *)
Definition b64_val (c : ascii) : option Z :=
  let n := code c in
  if is_upper c then Some (n - 65)
  else if is_lower c then Some (n - 71)
  else if is_dec c then Some (n + 4)
  else if (n =? 45) || (n =? 43) then Some 62
  else if (n =? 95) || (n =? 47) then Some 63
  else None.

(** The leading data characters and what follows them. *)
Fixpoint b64_data (s : string) : list Z * string :=
  match s with
  | EmptyString => ([], EmptyString)
  | String c s' =>
      match b64_val c with
      | Some v => let '(vs, rest) := b64_data s' in (v :: vs, rest)
      | None => ([], s)
      end
  end.

(** Sextets to bytes; a trailing group of two or three gives one or two bytes. *)
Fixpoint sextets (l : list Z) : bytes :=
  match l with
  | a :: b :: c :: d :: l' =>
      a * 4 + b / 16 :: b mod 16 * 16 + c / 4 :: c mod 4 * 64 + d :: sextets l'
  | [a; b; c] => [a * 4 + b / 16; b mod 16 * 16 + c / 4]
  | [a; b] => [a * 4 + b / 16]
  | _ => []
  end.

(** [base64.b64decode(value, altchars=b"-_", validate=True)]: data characters,
    then at most two [=], with a length divisible by four. *)
Definition b64decode (s : string) : option bytes :=
  let '(vs, rest) := b64_data s in
  if bool_decide (rest ∈ [""; "="; "=="]%string) && (slen s mod 4 =? 0)
  then Some (sextets vs) else None.

(** *** The round trip *)

Definition is_sextet (n : Z) : Prop := 0 ≤ n < 64.

Lemma b64_val_char n : is_sextet n → b64_val (b64_char n) = Some n.
Proof.
  intros Hn.
  assert (∀ k, (k < 64)%nat → b64_val (b64_char (Z.of_nat k)) = Some (Z.of_nat k)) as A.
  { intros k Hk. do 64 (destruct k as [|k]; [reflexivity|]). lia. }
  specialize (A (Z.to_nat n)). unfold is_sextet in Hn. rewrite Z2Nat.id in A by lia. apply A. lia.
Qed.

Lemma b64_data_char n s :
  is_sextet n → b64_data (String (b64_char n) s) = let '(vs, rest) := b64_data s in (n :: vs, rest).
Proof. intros H. cbn [b64_data]. by rewrite b64_val_char. Qed.

(** The sextets of a byte string and the padding that follows them. *)
Fixpoint groups (m : bytes) : list Z :=
  match m with
  | [] => []
  | [a] => [a / 4; a mod 4 * 16]
  | [a; b] => [a / 4; a mod 4 * 16 + b / 16; b mod 16 * 4]
  | a :: b :: c :: m' =>
      a / 4 :: a mod 4 * 16 + b / 16 :: b mod 16 * 4 + c / 64 :: c mod 64 :: groups m'
  end.

Fixpoint padding (m : bytes) : string :=
  match m with
  | [_] => "=="
  | [_; _] => "="
  | _ :: _ :: _ :: m' => padding m'
  | _ => ""
  end.

Fixpoint chars (l : list Z) : string :=
  match l with [] => "" | n :: l' => String (b64_char n) (chars l') end.

(** Induction by groups of three bytes. *)
Lemma triples_ind (P : bytes → Prop) :
  P [] → (∀ a, P [a]) → (∀ a b, P [a; b]) → (∀ a b c m, P m → P (a :: b :: c :: m)) → ∀ m, P m.
Proof.
  intros P0 P1 P2 P3. fix IH 1. intros [|a [|b [|c m]]]; [done|done|done|]. apply P3, IH.
Qed.

Ltac byte_arith := unfold is_byte, is_sextet in *; Z.to_euclidean_division_equations; lia.

Lemma groups_sextets m : Forall is_byte m → Forall is_sextet (groups m).
Proof.
  induction m as [|a|a b|a b c m IH] using triples_ind; intros H; [by apply Forall_nil_2| | |];
    rewrite ?Forall_cons in H; simpl; rewrite ?Forall_cons; split_and!;
    try (by apply Forall_nil_2); try (apply IH; tauto); byte_arith.
Qed.

Lemma encode_chars m : urlsafe_b64encode m = chars (groups m) +:+ padding m.
Proof.
  induction m as [|a|a b|a b c m IH] using triples_ind; [done..|].
  cbn [urlsafe_b64encode groups chars padding]. by rewrite IH.
Qed.

Lemma decode_groups m : Forall is_byte m → sextets (groups m) = m.
Proof.
  induction m as [|a|a b|a b c m IH] using triples_ind; intros H; [done| | |];
    rewrite ?Forall_cons in H; cbn [groups sextets]; rewrite ?IH by tauto;
    repeat f_equal; byte_arith.
Qed.

Lemma b64_data_chars l rest :
  Forall is_sextet l → b64_data rest = ([], rest) → b64_data (chars l +:+ rest) = (l, rest).
Proof.
  induction 1 as [|n l Hn Hl IH]; intros Hr; [done|].
  cbn [chars]. rewrite str_app_cons, b64_data_char by done. by rewrite IH.
Qed.

Lemma chars_length l : String.length (chars l) = length l.
Proof. induction l; simpl; congruence. Qed.

Lemma str_length_app a b : String.length (a +:+ b) = (String.length a + String.length b)%nat.
Proof. induction a; simpl; [done|]. by f_equal. Qed.

Lemma padded_length m :
  (Z.of_nat (length (groups m)) + Z.of_nat (String.length (padding m))) mod 4 = 0.
Proof.
  induction m as [|a|a b|a b c m IH] using triples_ind; [done..|].
  cbn [groups padding length]. byte_arith.
Qed.

Lemma padding_cases m : padding m ∈ [""; "="; "=="]%string.
Proof. induction m as [|a|a b|a b c m IH] using triples_ind; [set_solver..|done]. Qed.

Lemma decode_encode m : Forall is_byte m → b64decode (urlsafe_b64encode m) = Some m.
Proof.
  intros H. unfold b64decode. rewrite encode_chars, b64_data_chars.
  - rewrite bool_decide_true by apply padding_cases.
    unfold slen. rewrite str_length_app, chars_length, Nat2Z.inj_add, padded_length.
    cbn [andb Z.eqb]. by rewrite decode_groups.
  - by apply groups_sextets.
  - pose proof (padding_cases m) as P. set_unfold. by destruct P as [->|[->|[->|[]]]].
Qed.

End Base64.

(** ** HMAC and PBKDF2 *)

Module Pbkdf2.

Definition xor_bytes (a b : bytes) : bytes := zip_with Z.lxor a b.

Definition hmac_sha256 (key message : bytes) : bytes :=
  let k0 := if (64 <? Z.of_nat (length key)) then Sha256.sha256 key else key in
  let k := k0 ++ replicate (64 - length k0) 0 in
  let ipad := Z.lxor 54 <$> k in
  let opad := Z.lxor 92 <$> k in
  Sha256.sha256 (opad ++ Sha256.sha256 (ipad ++ message)).

(** The pair of the latest HMAC and the running exclusive or. *)
Definition pbkdf2_step (password : bytes) (ut : bytes * bytes) : bytes * bytes :=
  let u := hmac_sha256 password ut.1 in (u, xor_bytes ut.2 u).

Definition pbkdf2_block (password salt : bytes) (iterations index : Z) : bytes :=
  let u1 := hmac_sha256 password (salt ++ Sha256.be_bytes 4 index) in
  (Z.iter (iterations - 1) (pbkdf2_step password) (u1, u1)).2.

(** [hashlib.pbkdf2_hmac("sha256", password, salt, iterations, dklen)] *)
Definition pbkdf2_hmac (password salt : bytes) (iterations : Z) (dklen : nat) : bytes :=
  take dklen (seqZ 1 (Z.of_nat ((dklen + 31) / 32)) ≫= pbkdf2_block password salt iterations).

Definition is_digest (m : bytes) : Prop := length m = 32%nat ∧ Forall is_byte m.

Lemma hmac_digest key message : is_digest (hmac_sha256 key message).
Proof. split; [apply Sha256.sha256_length|apply Sha256.sha256_range]. Qed.

Lemma lxor_byte a b : is_byte a → is_byte b → is_byte (Z.lxor a b).
Proof.
  unfold is_byte. intros Ha Hb.
  assert (0 ≤ Z.lxor a b) by (apply Z.lxor_nonneg; lia). split; [done|].
  destruct (Z.eq_dec (Z.lxor a b) 0) as [->|]; [lia|].
  change 256 with (2 ^ 8). apply Z.log2_lt_pow2; [lia|].
  pose proof (Z.log2_lxor a b ltac:(lia) ltac:(lia)).
  assert (∀ x, 0 ≤ x < 256 → Z.log2 x < 8) as L.
  { intros x Hx. destruct (Z.eq_dec x 0) as [->|]; [done|].
    apply Z.log2_lt_pow2; [lia|]. change (2 ^ 8) with 256. lia. }
  pose proof (L a Ha). pose proof (L b Hb). lia.
Qed.

Lemma xor_digest a b : is_digest a → is_digest b → is_digest (xor_bytes a b).
Proof.
  intros [La Fa] [Lb Fb]. unfold xor_bytes. split; [rewrite length_zip_with; lia|].
  clear La Lb. revert b Fb. induction Fa as [|x a Hx Fa IH]; intros b Fb; [by apply Forall_nil_2|].
  destruct Fb as [|y b Hy Fb]; [by apply Forall_nil_2|]. simpl.
  apply Forall_cons_2; [by apply lxor_byte|by apply IH].
Qed.

Lemma pbkdf2_block_digest password salt iterations index :
  is_digest (pbkdf2_block password salt iterations index).
Proof.
  unfold pbkdf2_block.
  destruct (iterations - 1) as [|n|n]; cbn [Z.iter snd]; [apply hmac_digest| |apply hmac_digest].
  apply (Pos.iter_invariant n _ _ (λ ut : bytes * bytes, is_digest ut.2)); simpl.
  - intros ut H. apply xor_digest; [done|apply hmac_digest].
  - apply hmac_digest.
Qed.

Lemma pbkdf2_digest password salt iterations :
  is_digest (pbkdf2_hmac password salt iterations 32).
Proof.
  unfold pbkdf2_hmac. change (seqZ 1 (Z.of_nat ((32 + 31) / 32))) with [1]. simpl mbind.
  destruct (pbkdf2_block_digest password salt iterations 1) as [L F].
  rewrite app_nil_r, take_ge by lia. by split.
Qed.

End Pbkdf2.
