(* ===== verification/Password.v ===== *)
(** * Password: the administrator's password hash

    Models src/openkapsel/auth/security.py.  The salt that
    [secrets.token_bytes] draws is an argument of [hash_password]. *)

From Stdlib Require Import ZArith Lia Ascii String.
From stdpp Require Import base tactics list list_numbers sets strings pretty.
From S2P Require Import Prelude Hashing.

Local Open Scope Z_scope.

Definition PASSWORD_HASH_ALGORITHM : string := "pbkdf2_sha256".
Definition PASSWORD_HASH_ITERATIONS : Z := 600000.
Definition PASSWORD_SALT_BYTES : nat := 16.
Definition PASSWORD_DIGEST_BYTES : nat := 32.

Definition _encode (value : bytes) : string :=
  rstrip (Ascii.eqb "=") (Base64.urlsafe_b64encode value).

(** ["=" * (-len(value) % 4)] *)
Definition equals (n : Z) : string :=
  string_of_list_ascii (replicate (Z.to_nat n) "="%char).

Definition _decode (value : string) : option bytes :=
  Base64.b64decode (value +:+ equals ((- slen value) mod 4)).

(** [int(text)] in full: surrounding white space, a sign, and digits that single
    underscores may separate, at most 4300 of them; [None] is the [ValueError]. *)
Fixpoint digits_acc (fuel : nat) (acc : Z) (count : Z) (s : string) : option Z :=
  match fuel, s with
  | _, EmptyString => if 4300 <? count then None else Some acc
  | O, _ => None
  | S fuel', String c s' =>
      if is_dec c then digits_acc fuel' (acc * 10 + (code c - 48)) (count + 1) s'
      else match s' with
           | String d s'' =>
               if Ascii.eqb c "_" && is_dec d
               then digits_acc fuel' (acc * 10 + (code d - 48)) (count + 1) s'' else None
           | EmptyString => None
           end
  end.

Definition int_digits (s : string) : option Z :=
  match s with
  | String c s' => if is_dec c then digits_acc (String.length s') (code c - 48) 1 s' else None
  | EmptyString => None
  end.

Definition int_text (text : string) : option Z :=
  match strip text with
  | String c s as t =>
      if Ascii.eqb c "-" then Z.opp <$> int_digits s
      else if Ascii.eqb c "+" then int_digits s
      else int_digits t
  | EmptyString => None
  end.

Definition _parse_pbkdf2 (encoded : string) : option (Z * bytes * bytes) :=
  match split_on "$" encoded with
  | [algorithm; count; salt_text; digest_text] =>
      if negb (String.eqb algorithm PASSWORD_HASH_ALGORITHM) then None
      else
        match int_text count, _decode salt_text, _decode digest_text with
        | Some iterations, Some salt, Some digest =>
            if negb ((1 <=? iterations) && (iterations <=? 10000000)) then None
            else if (length salt <? PASSWORD_SALT_BYTES)%nat
                    || negb (length digest =? PASSWORD_DIGEST_BYTES)%nat then None
            else Some (iterations, salt, digest)
        | _, _, _ => None
        end
  | _ => None
  end.

Definition is_password_hash_supported (encoded : json) : bool :=
  match encoded with
  | JStr s => match _parse_pbkdf2 s with Some _ => true | None => false end
  | _ => false
  end.

Definition password_hash_needs_upgrade (encoded : string) : bool :=
  match _parse_pbkdf2 encoded with
  | None => true
  | Some (iterations, _, _) => iterations <? PASSWORD_HASH_ITERATIONS
  end.

Definition hash_password (min_length : Z) (salt : bytes) (password : string) : res exn string :=
  if slen password <? min_length then
    Err (ValueError ("password must contain at least " +:+ pretty min_length +:+ " characters"))
  else
    let digest :=
      Pbkdf2.pbkdf2_hmac (utf8 password) salt PASSWORD_HASH_ITERATIONS PASSWORD_DIGEST_BYTES in
    Ok (PASSWORD_HASH_ALGORITHM +:+ "$" +:+ pretty PASSWORD_HASH_ITERATIONS +:+
        "$" +:+ _encode salt +:+ "$" +:+ _encode digest).

Definition verify_password (password expected_hash : string) : bool :=
  match _parse_pbkdf2 expected_hash with
  | Some (iterations, salt, expected) =>
      bool_decide
        (Pbkdf2.pbkdf2_hmac (utf8 password) salt iterations (length expected) = expected)
  | None => false
  end.

(** ** The encoding *)

(** The alphabet avoids every character outside letters, digits, [-] and [_]. *)
Lemma b64_char_not n c :
  Base64.b64_val c = None → Base64.is_sextet n → Ascii.eqb c (Base64.b64_char n) = false.
Proof.
  intros Hc Hn. apply Ascii.eqb_neq. intros ->. by rewrite Base64.b64_val_char in Hc.
Qed.

Lemma chars_not c l :
  Base64.b64_val c = None → Forall Base64.is_sextet l → has_char c (Base64.chars l) = false.
Proof.
  unfold has_char. intros Hc. induction 1 as [|n l Hn Hl IH]; simpl; [done|].
  rewrite IH. by rewrite b64_char_not.
Qed.

Lemma has_char_forall c s : has_char c s = false → str_forall (λ d, negb (Ascii.eqb c d)) s = true.
Proof.
  unfold has_char. induction s as [|d s IH]; simpl; [done|].
  rewrite orb_false_iff. intros [-> H]. by rewrite IH.
Qed.

Lemma encode_eq m : Forall is_byte m → _encode m = Base64.chars (Base64.groups m).
Proof.
  intros H. unfold _encode. rewrite Base64.encode_chars, rstrip_app_nil.
  - apply rstrip_none, has_char_forall, chars_not; [done|]. by apply Base64.groups_sextets.
  - pose proof (Base64.padding_cases m) as P. set_unfold. by destruct P as [->|[->|[->|[]]]].
Qed.

Lemma encode_no_dollar m : Forall is_byte m → has_char "$" (_encode m) = false.
Proof.
  intros H. rewrite encode_eq by done. apply chars_not; [done|]. by apply Base64.groups_sextets.
Qed.

(** The padding [_decode] restores is the padding [_encode] removed. *)
Lemma restored_padding m : Forall is_byte m →
  equals ((- slen (_encode m)) mod 4) = Base64.padding m.
Proof.
  intros H. rewrite encode_eq by done. unfold slen. rewrite Base64.chars_length. clear H.
  induction m as [|a|a b|a b c m IH] using Base64.triples_ind; [done..|].
  cbn [Base64.groups Base64.padding length]. rewrite <- IH. f_equal.
  Z.to_euclidean_division_equations. lia.
Qed.

Lemma _decode_restores m : Forall is_byte m → _decode (_encode m) = Some m.
Proof.
  intros H. unfold _decode. rewrite restored_padding, encode_eq by done.
  rewrite <- Base64.encode_chars. by apply Base64.decode_encode.
Qed.

Lemma parse_formatted salt digest :
  Forall is_byte salt → (PASSWORD_SALT_BYTES ≤ length salt)%nat → Pbkdf2.is_digest digest →
  _parse_pbkdf2 (PASSWORD_HASH_ALGORITHM +:+ "$" +:+ pretty PASSWORD_HASH_ITERATIONS +:+
    "$" +:+ _encode salt +:+ "$" +:+ _encode digest)
  = Some (PASSWORD_HASH_ITERATIONS, salt, digest).
Proof.
  intros Hs Ls [Ld Hd]. unfold _parse_pbkdf2.
  assert (∀ x, "$" +:+ x = String "$" x) as E by done. rewrite !E.
  rewrite !split_on_app by (done || by apply encode_no_dollar).
  rewrite split_on_none by (by apply encode_no_dollar). rewrite !_decode_restores by done.
  assert (int_text (pretty PASSWORD_HASH_ITERATIONS) = Some 600000) as -> by (vm_compute; done).
  rewrite (proj2 (Nat.ltb_ge _ _)) by done. by rewrite Ld.
Qed.

(** Conversion must not run the 600,000 iterations. *)
#[local] Opaque Pbkdf2.pbkdf2_hmac.

Lemma password_digest password salt iterations :
  Pbkdf2.is_digest (Pbkdf2.pbkdf2_hmac (utf8 password) salt iterations PASSWORD_DIGEST_BYTES).
Proof. unfold PASSWORD_DIGEST_BYTES. apply Pbkdf2.pbkdf2_digest. Qed.

(** A fresh hash verifies its own password. *)
Lemma hash_verifies min_length salt password encoded :
  Forall is_byte salt → length salt = PASSWORD_SALT_BYTES →
  hash_password min_length salt password = Ok encoded → verify_password password encoded = true.
Proof.
  intros Hs Ls. unfold hash_password. destruct (_ <? _); [done|].
  pose proof (password_digest password salt PASSWORD_HASH_ITERATIONS) as D.
  set (digest := Pbkdf2.pbkdf2_hmac _ _ _ _) in *. intros E. injection E as <-.
  unfold verify_password. rewrite (parse_formatted salt digest Hs ltac:(lia) D).
  destruct D as [-> _]. apply bool_decide_true. exact eq_refl.
Qed.

(** A password that is long enough hashes to a text that the server accepts,
    that needs no upgrade, and that exactly the passwords with the same PBKDF2
    digest verify against, among them the password itself; a shorter one is
    refused. *)
Theorem password_hash_roundtrip min_length salt password :
  Forall is_byte salt → length salt = PASSWORD_SALT_BYTES →
  let digest p :=
    Pbkdf2.pbkdf2_hmac (utf8 p) salt PASSWORD_HASH_ITERATIONS PASSWORD_DIGEST_BYTES in
  match hash_password min_length salt password with
  | Ok encoded =>
      min_length ≤ slen password ∧
      is_password_hash_supported (JStr encoded) = true ∧
      password_hash_needs_upgrade encoded = false ∧
      verify_password password encoded = true ∧
      ∀ other, verify_password other encoded = true ↔ digest other = digest password
  | Err _ => slen password < min_length
  end.
Proof.
  intros Hs Ls digest. unfold hash_password.
  destruct (Z.ltb_spec (slen password) min_length) as [|L]; [done|].
  fold (digest password).
  pose proof (password_digest password salt PASSWORD_HASH_ITERATIONS) as D.
  fold (digest password) in D.
  pose proof (parse_formatted salt (digest password) Hs ltac:(lia) D) as P.
  unfold is_password_hash_supported, password_hash_needs_upgrade, verify_password.
  rewrite P. destruct D as [-> _]. rewrite bool_decide_true by exact eq_refl.
  split_and!; [done..|]. intros other. by rewrite bool_decide_eq_true.
Qed.

Definition demo_salt : bytes := replicate 16 7.
