(* ===== verification/OAuth.v ===== *)
(** * OAuth: connection-scoped grants for remote MCP clients

    Models src/openkapsel/auth/oauth_store.py.  The SQLite tables are finite maps
    from the primary key to the rest of the row; a transaction returns the new
    tables or an error, and [txn] restores the old ones on an error, as
    [with db:] does.  Foreign keys declared ON DELETE CASCADE delete the
    dependent rows, and a violated PRIMARY KEY or UNIQUE constraint is an
    [IntegrityError].  The columns [metadata] and [params] hold the records the
    code writes with [json.dumps] and reads back with [json.loads].  Random
    identifiers and secrets, and each reading of the clock (in microseconds), are
    arguments of the operations. *)

From Stdlib Require Import ZArith Lia Ascii String.
From stdpp Require Import base tactics list list_numbers gmap strings fin_maps sets.
From S2P Require Import Prelude Calendar Hashing.

Local Open Scope Z_scope.

Definition ACCESS_SECONDS : Z := 3600.
Definition REFRESH_SECONDS : Z := 30 * 86400.
Definition REQUEST_SECONDS : Z := 600.
Definition SCOPE : string := "openkapsel".

Inductive oauth_err :=
| OAuthError (code message : string) (status : Z)
| IntegrityError
| KeyError.

Definition digest (value : string) : string := sha256_hex value.

Definition challenge (verifier : string) : string :=
  rstrip (Ascii.eqb "=") (Base64.urlsafe_b64encode (Sha256.sha256 (utf8 verifier))).

(** ** Tables *)

Record connection := {
  app_id : string; workspace : string; comment : string; created_at : Z;
  bound : option string;  (* the column client_id *)
  authenticated_at : option Z; last_authorized_at : option Z; last_used_at : option Z }.

Record client_metadata := {
  m_client_id : string; client_name : string; redirect_uris : list string;
  token_endpoint_auth_method : string; grant_types : list string;
  response_types : list string; scope : string }.

Record client := {
  cl_connection : string; metadata : client_metadata; secret_hash : option string;
  cl_created_at : Z }.

Record request_row := {
  rq_connection : string; rq_client : string; params : gmap string string;
  rq_expires_at : Z; code_hash : option string; rq_app_id : string; rq_workspace : string }.

Record grant := { g_connection : string; g_client : string; g_expires_at : Z; revoked : bool }.

Inductive kind := access | refresh.
#[export] Instance kind_eq_dec : EqDecision kind.
Proof. solve_decision. Defined.

Record credential := { cr_grant : string; cr_kind : kind; cr_expires_at : Z; used : bool }.

Record store := Store {
  connections : gmap string connection;
  clients : gmap string client;
  requests : gmap string request_row;
  grants : gmap string grant;
  credentials : gmap string credential }.

Definition empty_store : store := Store ∅ ∅ ∅ ∅ ∅.

Definition with_connections f (s : store) : store :=
  Store (f (connections s)) (clients s) (requests s) (grants s) (credentials s).
Definition with_clients f (s : store) : store :=
  Store (connections s) (f (clients s)) (requests s) (grants s) (credentials s).
Definition with_requests f (s : store) : store :=
  Store (connections s) (clients s) (f (requests s)) (grants s) (credentials s).
Definition with_grants f (s : store) : store :=
  Store (connections s) (clients s) (requests s) (f (grants s)) (credentials s).
Definition with_credentials f (s : store) : store :=
  Store (connections s) (clients s) (requests s) (grants s) (f (credentials s)).

(** [with db:] commits the result of the body and rolls an error back. *)
Definition txn {A} (body : store → res oauth_err (A * store)) (s : store) : res oauth_err A * store :=
  match body s with
  | Ok (a, s') => (Ok a, s')
  | Err e => (Err e, s)
  end.

(** [INSERT] into a table keyed by [k]. *)
Definition insert_row {R} (k : string) (row : R) (table : gmap string R)
    : res oauth_err (gmap string R) :=
  match table !! k with
  | Some _ => Err IntegrityError
  | None => Ok (<[k := row]> table)
  end.

(** ** Reading and pruning *)

Definition _connection (cid : string) (s : store) : res oauth_err connection :=
  match connections s !! cid with
  | None => Err (OAuthError "invalid_request" "Connection does not exist" 404)
  | Some row => Ok row
  end.

(** [DELETE FROM grants WHERE p], with the credentials of the deleted grants. *)
Definition delete_grants (p : grant → bool) (s : store) : store :=
  Store (connections s) (clients s) (requests s)
    (filter (λ kv, p kv.2 = false) (grants s))
    (filter (λ kv, from_option p false (grants s !! kv.2.(cr_grant)) = false) (credentials s)).

Definition is_bound_somewhere (client_id : string) (s : store) : bool :=
  existsb (λ kv, bool_decide (kv.2.(bound) = Some client_id)) (map_to_list (connections s)).

Definition _prune (now : Z) (s : store) : store :=
  let s1 := with_requests (filter (λ kv, ¬ kv.2.(rq_expires_at) ≤ now)) s in
  let s2 := delete_grants (λ g, g.(g_expires_at) <=? now) s1 in
  let s3 := with_credentials
              (filter (λ kv, ¬ (kv.2.(cr_kind) = access ∧ kv.2.(cr_expires_at) ≤ now))) s2 in
  with_clients (filter (λ kv, ¬ (kv.2.(cl_created_at) < now - 86400 * sec_us
                                 ∧ is_bound_somewhere kv.1 s3 = false))) s3.

(** ** Connections *)

Definition check_comment (comment : string) : bool :=
  is_empty comment || (200 <? slen comment).

Definition comment_error : oauth_err :=
  OAuthError "invalid_request" "Comment must contain 1 to 200 characters" 400.

Definition create (now : Z) (cid app ws comment : string) (s : store)
    : res oauth_err connection * store :=
  let comment := strip comment in
  if check_comment comment then (Err comment_error, s)
  else txn (λ s,
    let! table := insert_row cid
      {| app_id := app; workspace := ws; comment := comment; created_at := now; bound := None;
         authenticated_at := None; last_authorized_at := None; last_used_at := None |}
      (connections s) in
    let s' := with_connections (λ _, table) s in
    let! row := _connection cid s' in
    Ok (row, s')) s.

Definition get (cid : string) (s : store) : res oauth_err connection := _connection cid s.

Definition set_binding (cmt app ws : string) (c : connection) : connection :=
  {| app_id := app; workspace := ws; comment := cmt; created_at := c.(created_at);
     bound := c.(bound); authenticated_at := c.(authenticated_at);
     last_authorized_at := c.(last_authorized_at); last_used_at := c.(last_used_at) |}.

Definition update (cid cmt : string) (app ws : option string) (s : store)
    : res oauth_err unit * store :=
  let cmt := strip cmt in
  if check_comment cmt then (Err comment_error, s)
  else txn (λ s,
    let! previous := _connection cid s in
    let app' := default previous.(app_id) app in
    let ws' := default previous.(workspace) ws in
    let s1 :=
      if bool_decide ((app', ws') = (previous.(app_id), previous.(workspace))) then s
      else with_requests (filter (λ kv, kv.2.(rq_connection) ≠ cid)) s in
    Ok (tt, with_connections (alter (set_binding cmt app' ws') cid) s1)) s.

(** [DELETE FROM connections WHERE id=?] and the rows that depend on it. *)
Definition delete_cascade (cid : string) (s : store) : store :=
  let s1 := delete_grants (λ g, bool_decide (g.(g_connection) = cid)) s in
  Store (delete cid (connections s1))
    (filter (λ kv, kv.2.(cl_connection) ≠ cid) (clients s1))
    (filter (λ kv, kv.2.(rq_connection) ≠ cid) (requests s1))
    (grants s1) (credentials s1).

Definition delete_connection (cid : string) (s : store) : res oauth_err unit * store :=
  txn (λ s, let! _ := _connection cid s in Ok (tt, delete_cascade cid s)) s.

(** ** Registration *)

(** [s.rpartition(c)] *)
Fixpoint rpartition_on (c : ascii) (s : string) : string * bool * string :=
  match s with
  | EmptyString => (EmptyString, false, EmptyString)
  | String d s' =>
      let '(a, found, b) := rpartition_on c s' in
      if found : bool then (String d a, true, b)
      else if Ascii.eqb c d then (EmptyString, true, s')
      else (EmptyString, false, String d b)
  end.

(** What [urlsplit] keeps of a URL with no fragment: the scheme and the
    authority; [None] is the [ValueError] of an unbalanced bracket. *)
Record split_url := { scheme : string; netloc : string }.

Definition scheme_char (c : ascii) : bool :=
  is_alnum c || Ascii.eqb c "+" || Ascii.eqb c "-" || Ascii.eqb c ".".

Fixpoint until_delim (s : string) : string :=
  match s with
  | EmptyString => EmptyString
  | String c s' =>
      if Ascii.eqb c "/" || Ascii.eqb c "?" || Ascii.eqb c "#" then EmptyString
      else String c (until_delim s')
  end.

Definition urlsplit (url : string) : option split_url :=
  let '(prefix, colon, rest) := partition_on ":" url in
  let '(sch, url') :=
    if colon && negb (is_empty prefix) && str_forall scheme_char prefix
    then (lower prefix, rest) else (""%string, url) in
  let net := match url' with
             | String a (String b tail) =>
                 if Ascii.eqb a "/" && Ascii.eqb b "/" then until_delim tail else ""%string
             | _ => ""%string
             end in
  if eqb (has_char "[" net) (has_char "]" net)
  then Some {| scheme := sch; netloc := net |} else None.

(** [SplitResult._hostinfo]: the host and the port text. *)
Definition hostinfo (u : split_url) : string * string :=
  let '(_, _, info) := rpartition_on "@" u.(netloc) in
  let '(_, bracket, inner) := partition_on "[" info in
  if bracket : bool then
    let '(host, _, after) := partition_on "]" inner in
    let '(_, _, port) := partition_on ":" after in (host, port)
  else let '(host, _, port) := partition_on ":" info in (host, port).

Definition hostname (u : split_url) : string :=
  let '(host, percent, zone) := partition_on "%" (hostinfo u).1 in
  lower host +:+ (if percent : bool then "%" +:+ zone else "").

(** [u.username] and [u.password], [""] also standing for [None]. *)
Definition userinfo (u : split_url) : string * string :=
  let '(info, _, _) := rpartition_on "@" u.(netloc) in
  let '(user, _, password) := partition_on ":" info in (user, password).

(** Whether reading [u.port] raises no [ValueError]. *)
Definition port_ok (u : split_url) : bool :=
  let port := (hostinfo u).2 in
  if is_empty port then true
  else str_forall is_dec port &&
       match py_int port with Some n => n <=? 65535 | None => false end.

Definition host_char (c : ascii) : bool :=
  is_alnum c || Ascii.eqb c "." || Ascii.eqb c ":" || Ascii.eqb c "-".

Definition redirect_valid (uri : string) : bool :=
  match urlsplit uri with
  | None => false
  | Some u =>
      let host := hostname u in
      (String.eqb u.(scheme) "https"
       || (String.eqb u.(scheme) "http" && bool_decide (host ∈ ["127.0.0.1"; "::1"]%string)))
      && negb (is_empty host) && is_empty (userinfo u).1 && is_empty (userinfo u).2
      && str_forall host_char host && port_ok u
  end.

Definition redirect_text_ok (uri : string) : bool :=
  str_forall (λ c, code c <? 128) uri && negb (has_char "#" uri) && (slen uri <=? 2048)
  && negb (str_exists (λ c, c_isspace c || (code c <? 32)) uri).

(** The loop over [redirects], which stops at the first bad one. *)
Fixpoint check_redirects (uris : list json) : res oauth_err (list string) :=
  match uris with
  | [] => Ok []
  | JStr uri :: rest =>
      if negb (redirect_text_ok uri)
      then Err (OAuthError "invalid_redirect_uri" "Invalid redirect URI" 400)
      else if negb (redirect_valid uri)
      then Err (OAuthError "invalid_redirect_uri"
                  "Redirects require HTTPS (HTTP loopback IPs are allowed)" 400)
      else let! more := check_redirects rest in Ok (uri :: more)
  | _ => Err (OAuthError "invalid_redirect_uri" "Invalid redirect URI" 400)
  end.

(** A list of texts, or nothing. *)
Fixpoint texts (l : list json) : option (list string) :=
  match l with
  | [] => Some []
  | JStr x :: l' => cons x <$> texts l'
  | _ => None
  end.

Definition meta_error (message : string) : oauth_err :=
  OAuthError "invalid_client_metadata" message 400.

(** The validation of the registration request, before any database access. *)
Definition check_metadata (new_id : string) (fields : list (string * json))
    : res oauth_err client_metadata :=
  let! uris :=
    match obj_get "redirect_uris" fields with
    | Some (JList redirects) =>
        if (1 <=? length redirects)%nat && (length redirects <=? 10)%nat
        then check_redirects redirects
        else Err (OAuthError "invalid_redirect_uri" "Provide 1 to 10 redirect URIs" 400)
    | _ => Err (OAuthError "invalid_redirect_uri" "Provide 1 to 10 redirect URIs" 400)
    end in
  let! auth :=
    match obj_get_or "token_endpoint_auth_method" (JStr "client_secret_basic") fields with
    | JStr auth =>
        if bool_decide (auth ∈ ["none"; "client_secret_post"; "client_secret_basic"]%string)
        then Ok auth
        else Err (meta_error "Unsupported token endpoint authentication method")
    | _ => Err (meta_error "Unsupported token endpoint authentication method")
    end in
  let grants_error := meta_error "Only authorization_code and refresh_token are supported" in
  let! gts :=
    match obj_get_or "grant_types" (JList [JStr "authorization_code"; JStr "refresh_token"]) fields with
    | JList l =>
        match texts l with
        | Some gts =>
            if bool_decide ("authorization_code"%string ∈ gts)
               && forallb (λ g, bool_decide (g ∈ ["authorization_code"; "refresh_token"]%string)) gts
            then Ok gts else Err grants_error
        | None => Err grants_error
        end
    | _ => Err grants_error
    end in
  let! _ :=
    match obj_get_or "response_types" (JList [JStr "code"]) fields with
    | JList [JStr t] => if String.eqb t "code" then Ok tt
                        else Err (meta_error "Only response_type code is supported")
    | _ => Err (meta_error "Only response_type code is supported")
    end in
  let! name :=
    match obj_get_or "client_name" (JStr "MCP client") fields with
    | JStr name => if 200 <? slen name then Err (meta_error "Invalid client name") else Ok name
    | _ => Err (meta_error "Invalid client name")
    end in
  let! _ :=
    match obj_get_or "scope" (JStr SCOPE) fields with
    | JStr t => if String.eqb t SCOPE then Ok tt
                else Err (OAuthError "invalid_scope" "Unsupported scope" 400)
    | _ => Err (OAuthError "invalid_scope" "Unsupported scope" 400)
    end in
  Ok {| m_client_id := new_id; client_name := name; redirect_uris := uris;
        token_endpoint_auth_method := auth; grant_types := gts;
        response_types := ["code"%string]; scope := SCOPE |}.

(** [if conn["client_id"]]: a null or empty column counts as unbound. *)
Definition bound_to (c : connection) : option string :=
  match c.(bound) with
  | Some b => if is_empty b then None else Some b
  | None => None
  end.

Definition count_where {R} (p : R → bool) (table : gmap string R) : Z :=
  Z.of_nat (size (filter (λ kv : string * R, p kv.2 = true) table)).

(** The registered metadata and the client's secret, if it has one. *)
Definition register (pnow now : Z) (new_id new_secret : string) (cid : string)
    (fields : list (string * json)) (s : store)
    : res oauth_err (client_metadata * option string) * store :=
  match check_metadata new_id fields with
  | Err e => (Err e, s)
  | Ok meta =>
      let secret := if String.eqb meta.(token_endpoint_auth_method) "none" then None
                    else Some new_secret in
      txn (λ s,
        let s := _prune pnow s in
        let! conn := _connection cid s in
        raise! (meta_error "Connection is already bound; create a new connection")
          when bool_decide (is_Some (bound_to conn));
        raise! (OAuthError "temporarily_unavailable" "Registration limit reached; retry later" 429)
          when (32 <=? count_where (λ c, bool_decide (c.(cl_connection) = cid)) (clients s));
        let! table := insert_row new_id
          {| cl_connection := cid; metadata := meta;
             secret_hash := match secret with
                            | Some x => if is_empty x then None else Some (digest x)
                            | None => None
                            end;
             cl_created_at := now |} (clients s) in
        Ok ((meta, secret), with_clients (λ _, table) s)) s
  end.

(** ** Authorization requests *)

Definition _client (cid client_id : string) (s : store) : res oauth_err client :=
  match clients s !! client_id with
  | Some cl =>
      if bool_decide (cl.(cl_connection) = cid) then
        let! conn := _connection cid s in
        match bound_to conn with
        | Some b =>
            if String.eqb b client_id then Ok cl
            else Err (OAuthError "unauthorized_client" "Connection is bound to another client" 400)
        | None => Ok cl
        end
      else Err (OAuthError "invalid_client" "Unknown client" 401)
  | None => Err (OAuthError "invalid_client" "Unknown client" 401)
  end.

(** [params.get(key, "")] *)
Definition pget (key : string) (ps : gmap string string) : string := default ""%string (ps !! key).

Definition url_char (c : ascii) : bool := is_alnum c || Ascii.eqb c "_" || Ascii.eqb c "-".

Definition is_challenge (t : string) : bool := (slen t =? 43) && str_forall url_char t.

Definition start (pnow now : Z) (rid : string) (cid : string) (ps : gmap string string)
    (resource : string) (s : store) : res oauth_err string * store :=
  txn (λ s,
    let s := _prune pnow s in
    let! cl := _client cid (pget "client_id" ps) s in
    raise! (OAuthError "invalid_request" "Redirect URI is not registered" 400)
      when negb (match ps !! "redirect_uri"%string with
                 | Some uri => bool_decide (uri ∈ cl.(metadata).(redirect_uris))
                 | None => false
                 end);
    raise! (OAuthError "unsupported_response_type" "Only authorization code is supported" 400)
      when negb (bool_decide (ps !! "response_type"%string = Some "code"%string));
    raise! (OAuthError "invalid_request" "PKCE S256 is required" 400)
      when (negb (bool_decide (ps !! "code_challenge_method"%string = Some "S256"%string))
            || negb (is_challenge (pget "code_challenge" ps)));
    raise! (OAuthError "invalid_target" "Resource must match this connection's MCP URL" 400)
      when negb (bool_decide (ps !! "resource"%string = Some resource));
    raise! (OAuthError "invalid_scope" "Unsupported scope" 400)
      when negb (String.eqb (default SCOPE (ps !! "scope"%string)) SCOPE);
    raise! (OAuthError "invalid_request" "State is too long" 400)
      when (2048 <? slen (pget "state" ps));
    raise! (OAuthError "temporarily_unavailable" "Too many pending authorization requests" 429)
      when (64 <=? count_where (λ r, bool_decide (r.(rq_connection) = cid)) (requests s));
    let! owner := _connection cid s in
    match ps !! "client_id"%string with
    | None => Err KeyError
    | Some client_id =>
        let! table := insert_row rid
          {| rq_connection := cid; rq_client := client_id; params := ps;
             rq_expires_at := now + REQUEST_SECONDS * sec_us; code_hash := None;
             rq_app_id := owner.(app_id); rq_workspace := owner.(workspace) |} (requests s) in
        Ok (rid, with_requests (λ _, table) s)
    end) s.

(** The pending request, its connection and its client's metadata. *)
Definition _request (now : Z) (rid : string) (s : store)
    : res oauth_err (request_row * connection * client_metadata) :=
  match requests s !! rid with
  | Some row =>
      if (now <? row.(rq_expires_at)) && bool_decide (row.(code_hash) = None) then
        let! conn := _connection row.(rq_connection) s in
        raise! (OAuthError "access_denied" "Connection ownership changed; restart authorization" 403)
          when negb (bool_decide ((row.(rq_app_id), row.(rq_workspace))
                                  = (conn.(app_id), conn.(workspace))));
        let! cl := _client row.(rq_connection) row.(rq_client) s in
        Ok (row, conn, cl.(metadata))
      else Err (OAuthError "invalid_request" "Authorization request expired or already used" 400)
  | None => Err (OAuthError "invalid_request" "Authorization request expired or already used" 400)
  end.

Definition request (now : Z) (rid : string) (s : store)
    : res oauth_err (request_row * connection * client_metadata) := _request now rid s.

Definition bind_client (client_id : string) (c : connection) : connection :=
  {| app_id := c.(app_id); workspace := c.(workspace); comment := c.(comment);
     created_at := c.(created_at); bound := Some client_id;
     authenticated_at := c.(authenticated_at); last_authorized_at := c.(last_authorized_at);
     last_used_at := c.(last_used_at) |}.

Definition set_code (hash : string) (expiry : Z) (r : request_row) : request_row :=
  {| rq_connection := r.(rq_connection); rq_client := r.(rq_client); params := r.(params);
     rq_expires_at := expiry; code_hash := Some hash; rq_app_id := r.(rq_app_id);
     rq_workspace := r.(rq_workspace) |}.

(** Another request already holds the code hash (the UNIQUE constraint). *)
Definition code_taken (rid hash : string) (s : store) : bool :=
  existsb (λ kv, negb (String.eqb kv.1 rid) && bool_decide (kv.2.(code_hash) = Some hash))
    (map_to_list (requests s)).

Definition approve (now later : Z) (code : string) (rid : string)
    (expected : option (string * string)) (s : store)
    : res oauth_err (gmap string string * string) * store :=
  txn (λ s,
    let! (row, _, _) := _request now rid s in
    raise! (OAuthError "access_denied"
              "Control token does not match the requested configuration" 403)
      when match expected with
           | Some binding => negb (bool_decide (binding = (row.(rq_app_id), row.(rq_workspace))))
           | None => false
           end;
    raise! IntegrityError when code_taken rid (digest code) s;
    Ok ((row.(params), code),
        with_requests (alter (set_code (digest code) (later + 120 * sec_us)) rid)
          (with_connections (alter (bind_client row.(rq_client)) row.(rq_connection)) s))) s.

Definition deny (now : Z) (rid : string) (s : store)
    : res oauth_err (gmap string string) * store :=
  txn (λ s,
    let! (row, _, _) := _request now rid s in
    Ok (row.(params), with_requests (delete rid) s)) s.

(** ** Tokens *)

Record token_response := { access_token : string; refresh_token : string }.

(** The two secrets drawn for one response. *)
Record secrets := { new_access : string; new_refresh : string }.

Definition _issue (now : Z) (new : secrets) (gid : string) (expiry : Z) (s : store)
    : res oauth_err (token_response * store) :=
  let! t1 := insert_row (digest new.(new_access))
    {| cr_grant := gid; cr_kind := access; cr_expires_at := now + ACCESS_SECONDS * sec_us;
       used := false |} (credentials s) in
  let! t2 := insert_row (digest new.(new_refresh))
    {| cr_grant := gid; cr_kind := refresh; cr_expires_at := expiry; used := false |} t1 in
  Ok ({| access_token := new.(new_access); refresh_token := new.(new_refresh) |},
      with_credentials (λ _, t2) s).

Definition verifier_char (c : ascii) : bool :=
  is_alnum c || Ascii.eqb c "." || Ascii.eqb c "_" || Ascii.eqb c "~" || Ascii.eqb c "-".

Definition is_verifier (v : string) : bool :=
  (43 <=? slen v) && (slen v <=? 128) && str_forall verifier_char v.

(** [SELECT * FROM requests WHERE code_hash=? ...]; the UNIQUE constraint leaves
    at most one row. *)
Definition find_code (hash cid client_id : string) (now : Z) (s : store)
    : option (string * request_row) :=
  head (filter (λ kv : string * request_row,
          kv.2.(code_hash) = Some hash ∧ kv.2.(rq_connection) = cid
          ∧ kv.2.(rq_client) = client_id ∧ now < kv.2.(rq_expires_at))
        (map_to_list (requests s))).

Definition revoke (g : grant) : grant :=
  {| g_connection := g.(g_connection); g_client := g.(g_client);
     g_expires_at := g.(g_expires_at); revoked := true |}.

Definition revoke_connection (cid : string) (gs : gmap string grant) : gmap string grant :=
  (λ g, if bool_decide (g.(g_connection) = cid) then revoke g else g) <$> gs.

Definition mark_authorized (now : Z) (c : connection) : connection :=
  {| app_id := c.(app_id); workspace := c.(workspace); comment := c.(comment);
     created_at := c.(created_at); bound := c.(bound);
     authenticated_at := Some (default now c.(authenticated_at));
     last_authorized_at := Some now; last_used_at := c.(last_used_at) |}.

Definition mark_used (cr : credential) : credential :=
  {| cr_grant := cr.(cr_grant); cr_kind := cr.(cr_kind); cr_expires_at := cr.(cr_expires_at);
     used := true |}.

Definition invalid_grant (message : string) : oauth_err := OAuthError "invalid_grant" message 400.

Definition reuse_detected : oauth_err :=
  invalid_grant "Refresh token reuse detected; authorization revoked".

(** The authorization_code branch of [exchange]. *)
Definition exchange_code (now inow : Z) (gid : string) (new : secrets) (cid client_id : string)
    (form : gmap string string) (s : store) : res oauth_err (token_response * store) :=
  let verifier := pget "code_verifier" form in
  match find_code (digest (pget "code" form)) cid client_id now s with
  | None => Err (invalid_grant "Invalid authorization code or verifier")
  | Some (rid, row) =>
      if negb (is_verifier verifier) then
        Err (invalid_grant "Invalid authorization code or verifier")
      else
        match row.(params) !! "redirect_uri"%string, row.(params) !! "code_challenge"%string with
        | Some uri, Some chal =>
            if negb (bool_decide (form !! "redirect_uri"%string = Some uri))
               || negb (String.eqb (challenge verifier) chal)
            then Err (invalid_grant "Authorization code binding mismatch")
            else
              let s1 := with_requests (delete rid) s in
              let s2 := with_grants (revoke_connection cid) s1 in
              let expiry := now + REFRESH_SECONDS * sec_us in
              let! table := insert_row gid
                {| g_connection := cid; g_client := client_id; g_expires_at := expiry;
                   revoked := false |} (grants s2) in
              let s3 := with_grants (λ _, table) s2 in
              let s4 := with_connections (alter (mark_authorized now) cid) s3 in
              _issue inow new gid expiry s4
        | _, _ => Err KeyError
        end
  end.

(** The refresh_token branch: the inner result is the failure raised after the
    transaction commits. *)
Definition exchange_refresh (now inow : Z) (new : secrets) (cid client_id : string)
    (form : gmap string string) (s : store)
    : res oauth_err (res oauth_err token_response * store) :=
  let hash := digest (pget "refresh_token" form) in
  let bad := Err (invalid_grant "Invalid or expired refresh token") in
  match credentials s !! hash with
  | None => bad
  | Some cr =>
      match grants s !! cr.(cr_grant) with
      | None => bad
      | Some g =>
          if negb (bool_decide (cr.(cr_kind) = refresh))
             || negb (bool_decide (g.(g_connection) = cid))
             || negb (bool_decide (g.(g_client) = client_id))
             || g.(revoked) || (cr.(cr_expires_at) <=? now)
          then bad
          else if cr.(used) then
            Ok (Err reuse_detected, with_grants (alter revoke cr.(cr_grant)) s)
          else
            let s1 := with_credentials (alter mark_used hash) s in
            let! (tok, s2) := _issue inow new cr.(cr_grant) g.(g_expires_at) s1 in
            Ok (Ok tok, s2)
      end
  end.

(** [pnow], [now], [inow]: the clock readings of [_prune], of the method and of
    [_issue]. *)
Definition exchange (pnow now inow : Z) (gid : string) (new : secrets) (cid : string)
    (form : gmap string string) (resource auth_method : string) (s : store)
    : res oauth_err token_response * store :=
  let '(outcome, s') :=
    txn (λ s,
      let s := _prune pnow s in
      let client_id := pget "client_id" form in
      let! cl := _client cid client_id s in
      raise! (OAuthError "invalid_client" "Client authentication failed" 401)
        when (negb (String.eqb auth_method cl.(metadata).(token_endpoint_auth_method))
              || match cl.(secret_hash) with
                 | Some h => negb (is_empty h)
                             && negb (String.eqb h (digest (pget "client_secret" form)))
                 | None => false
                 end);
      raise! (OAuthError "invalid_target" "Resource must match this connection's MCP URL" 400)
        when negb (bool_decide (form !! "resource"%string = Some resource));
      if bool_decide (form !! "grant_type"%string = Some "authorization_code"%string) then
        let! (tok, s') := exchange_code now inow gid new cid client_id form s in
        Ok (Ok tok, s')
      else if bool_decide (form !! "grant_type"%string = Some "refresh_token"%string) then
        exchange_refresh now inow new cid client_id form s
      else Err (OAuthError "unsupported_grant_type" "Unsupported grant type" 400)) s in
  (match outcome with Ok r => r | Err e => Err e end, s').

Definition authenticate (now now' : Z) (cid secret : string) (s : store)
    : res oauth_err connection :=
  let refused := Err (OAuthError "invalid_token" "Invalid or expired access token" 401) in
  match credentials s !! digest secret with
  | None => refused
  | Some cr =>
      match grants s !! cr.(cr_grant) with
      | None => refused
      | Some g =>
          if bool_decide (cr.(cr_kind) = access) && (now <? cr.(cr_expires_at))
             && (now' <? g.(g_expires_at)) && negb g.(revoked)
             && bool_decide (g.(g_connection) = cid)
          then _connection cid s else refused
      end
  end.

Definition set_last_used (now : Z) (c : connection) : connection :=
  {| app_id := c.(app_id); workspace := c.(workspace); comment := c.(comment);
     created_at := c.(created_at); bound := c.(bound);
     authenticated_at := c.(authenticated_at); last_authorized_at := c.(last_authorized_at);
     last_used_at := Some now |}.

Definition touch (now now' : Z) (cid : string) (s : store) : store :=
  with_connections (alter (λ c,
    match c.(last_used_at) with
    | Some t => if t <? now' - 60 * sec_us then set_last_used now c else c
    | None => set_last_used now c
    end) cid) s.

(** ** Sequences of operations *)

Inductive op :=
| OCreate (now : Z) (cid app ws cmt : string)
| OUpdate (cid cmt : string) (app ws : option string)
| ODelete (cid : string)
| ORegister (pnow now : Z) (id secret cid : string) (fields : list (string * json))
| OStart (pnow now : Z) (rid cid : string) (ps : gmap string string) (resource : string)
| OApprove (now later : Z) (code rid : string) (expected : option (string * string))
| ODeny (now : Z) (rid : string)
| OExchange (pnow now inow : Z) (gid : string) (new : secrets) (cid : string)
    (form : gmap string string) (resource auth_method : string)
| OTouch (now now' : Z) (cid : string).

Definition exec (s : store) (o : op) : store :=
  match o with
  | OCreate now cid app ws cmt => (create now cid app ws cmt s).2
  | OUpdate cid cmt app ws => (update cid cmt app ws s).2
  | ODelete cid => (delete_connection cid s).2
  | ORegister pnow now id secret cid fields => (register pnow now id secret cid fields s).2
  | OStart pnow now rid cid ps resource => (start pnow now rid cid ps resource s).2
  | OApprove now later code rid expected => (approve now later code rid expected s).2
  | ODeny now rid => (deny now rid s).2
  | OExchange pnow now inow gid new cid form resource am =>
      (exchange pnow now inow gid new cid form resource am s).2
  | OTouch now now' cid => touch now now' cid s
  end.

(** Random client identifiers are not empty. *)
Definition named (o : op) : Prop :=
  match o with ORegister _ _ id _ _ _ => id ≠ ""%string | _ => True end.

(** Proofs never look inside the hash. *)
#[local] Opaque digest.

(** ** The invariant *)

Record inv (s : store) : Prop := {
  inv_client_ref : ∀ k c, clients s !! k = Some c → is_Some (connections s !! c.(cl_connection));
  inv_client_name : clients s !! ""%string = None;
  inv_request_ref : ∀ k r, requests s !! k = Some r →
    is_Some (connections s !! r.(rq_connection)) ∧ r.(rq_client) ≠ ""%string;
  inv_grant_ref : ∀ k g, grants s !! k = Some g →
    ∃ c, connections s !! g.(g_connection) = Some c ∧ c.(bound) = Some g.(g_client);
  inv_credential_ref : ∀ k cr, credentials s !! k = Some cr → is_Some (grants s !! cr.(cr_grant));
  inv_bound : ∀ k c b, connections s !! k = Some c → c.(bound) = Some b →
    b ≠ ""%string ∧ ∃ cl, clients s !! b = Some cl ∧ cl.(cl_connection) = k;
  inv_code : ∀ k r, requests s !! k = Some r → is_Some r.(code_hash) →
    ∃ c, connections s !! r.(rq_connection) = Some c ∧ c.(bound) = Some r.(rq_client);
  inv_code_unique : ∀ k1 k2 r1 r2 h, requests s !! k1 = Some r1 → requests s !! k2 = Some r2 →
    r1.(code_hash) = Some h → r2.(code_hash) = Some h → k1 = k2;
  inv_live : ∀ k1 k2 g1 g2, grants s !! k1 = Some g1 → grants s !! k2 = Some g2 →
    g1.(revoked) = false → g2.(revoked) = false → g1.(g_connection) = g2.(g_connection) → k1 = k2;
  inv_requests : ∀ cid,
    count_where (λ r, bool_decide (r.(rq_connection) = cid)) (requests s) ≤ 64;
  inv_clients : ∀ cid,
    count_where (λ c, bool_decide (c.(cl_connection) = cid)) (clients s) ≤ 32 }.

Lemma oauth_empty_inv : inv empty_store.
Proof. split; try done. Qed.

(** *** Counting rows *)

(** Rows that stem from rows counted before are no more of them. *)
Lemma count_from {R} (p : R → bool) (t t' : gmap string R) :
  (∀ k row', t' !! k = Some row' → p row' = true → ∃ row, t !! k = Some row ∧ p row = true) →
  count_where p t' ≤ count_where p t.
Proof.
  intros H. unfold count_where. apply Nat2Z.inj_le. rewrite <- !(size_dom (D := gset string)).
  apply subseteq_size. intros k. rewrite !elem_of_dom.
  intros [row' [E P]%map_lookup_filter_Some]. destruct (H _ _ E P) as (row & E' & P').
  exists row. by apply map_lookup_filter_Some.
Qed.

Lemma count_insert {R} (p : R → bool) k row (t : gmap string R) :
  count_where p (<[k := row]> t) ≤ count_where p t + (if p row then 1 else 0).
Proof.
  unfold count_where. destruct (p row) eqn:E.
  - rewrite map_filter_insert_True by done. rewrite map_size_insert.
    destruct (_ !! k); simpl; lia.
  - rewrite map_filter_insert_False by (simpl; congruence).
    rewrite Z.add_0_r. apply Nat2Z.inj_le, map_subseteq_size, map_filter_subseteq_mono,
      delete_subseteq.
Qed.

(** *** Shrinking: rows are deleted, or keep their links *)

Record shrink (s s' : store) : Prop := {
  sh_connections : ∀ k c', connections s' !! k = Some c' →
    ∃ c, connections s !! k = Some c ∧ c'.(bound) = c.(bound);
  sh_clients : clients s' ⊆ clients s;
  sh_requests : requests s' ⊆ requests s;
  sh_grants : ∀ k g', grants s' !! k = Some g' →
    ∃ g, grants s !! k = Some g ∧ g'.(g_connection) = g.(g_connection)
      ∧ g'.(g_client) = g.(g_client) ∧ (g'.(revoked) = false → g.(revoked) = false);
  sh_credentials : ∀ k cr', credentials s' !! k = Some cr' →
    ∃ cr, credentials s !! k = Some cr ∧ cr'.(cr_grant) = cr.(cr_grant);
  sh_client_ref : ∀ k c, clients s' !! k = Some c → is_Some (connections s' !! c.(cl_connection));
  sh_request_ref : ∀ k r, requests s' !! k = Some r → is_Some (connections s' !! r.(rq_connection));
  sh_grant_ref : ∀ k g, grants s' !! k = Some g → is_Some (connections s' !! g.(g_connection));
  sh_credential_ref : ∀ k cr, credentials s' !! k = Some cr → is_Some (grants s' !! cr.(cr_grant));
  sh_bound : ∀ k c b, connections s' !! k = Some c → c.(bound) = Some b →
    is_Some (clients s !! b) → is_Some (clients s' !! b) }.

Lemma shrink_inv s s' : inv s → shrink s s' → inv s'.
Proof.
  intros I H.
  assert (∀ k cl, clients s' !! k = Some cl → clients s !! k = Some cl) as HC.
  { intros k cl E. eapply lookup_weaken; [exact E|apply H]. }
  assert (∀ k r, requests s' !! k = Some r → requests s !! k = Some r) as HR.
  { intros k r E. eapply lookup_weaken; [exact E|apply H]. }
  assert (∀ k b, is_Some (connections s' !! k) →
    (∃ c, connections s !! k = Some c ∧ c.(bound) = Some b) →
    ∃ c, connections s' !! k = Some c ∧ c.(bound) = Some b) as HB.
  { intros k b [c' E] (c & Ec & B). destruct (sh_connections _ _ H _ _ E) as (c0 & E0 & B0).
    exists c'. split; [done|]. congruence. }
  split.
  - apply H.
  - destruct (clients s' !! _) as [cl|] eqn:E; [|done]. apply HC in E.
    by rewrite inv_client_name in E.
  - intros k r E. split; [by eapply sh_request_ref|]. by eapply (inv_request_ref _ I), HR.
  - intros k g E. destruct (sh_grants _ _ H _ _ E) as (g0 & E0 & Hc & Hl & _).
    apply HB; [by eapply sh_grant_ref|]. rewrite Hc, Hl. by eapply inv_grant_ref.
  - apply H.
  - intros k c b E B. destruct (sh_connections _ _ H _ _ E) as (c0 & E0 & B0).
    destruct (inv_bound _ I k c0 b E0 ltac:(congruence)) as (Hb & cl & Ecl & Hcl).
    split; [done|]. destruct (sh_bound _ _ H k c b E B ltac:(eauto)) as [cl' E'].
    exists cl'. split; [done|]. apply HC in E'. congruence.
  - intros k r E Hcode. apply HB; [by eapply sh_request_ref|].
    eapply inv_code; [done| |done]. by apply HR.
  - intros k1 k2 r1 r2 h E1 E2. eapply inv_code_unique; eauto.
  - intros k1 k2 g1 g2 E1 E2 V1 V2 C.
    destruct (sh_grants _ _ H _ _ E1) as (h1 & F1 & C1 & _ & R1).
    destruct (sh_grants _ _ H _ _ E2) as (h2 & F2 & C2 & _ & R2).
    eapply inv_live; eauto. congruence.
  - intros cid. etrans; [|by apply (inv_requests _ I cid)]. apply count_from. eauto.
  - intros cid. etrans; [|by apply (inv_clients _ I cid)]. apply count_from. eauto.
Qed.

(** Access to the invariant's referential part. *)
Lemma inv_grant_conn s k g :
  inv s → grants s !! k = Some g → is_Some (connections s !! g.(g_connection)).
Proof. intros I E. destruct (inv_grant_ref _ I _ _ E) as (c & ? & _). eauto. Qed.

Lemma inv_request_conn s k r :
  inv s → requests s !! k = Some r → is_Some (connections s !! r.(rq_connection)).
Proof. intros I E. by destruct (inv_request_ref _ I _ _ E). Qed.

Create HintDb oauth.
#[local] Hint Resolve inv_grant_conn inv_request_conn inv_client_ref inv_credential_ref : oauth.

Lemma is_bound_somewhere_spec b s :
  is_bound_somewhere b s = true ↔ ∃ k c, connections s !! k = Some c ∧ c.(bound) = Some b.
Proof.
  unfold is_bound_somewhere. rewrite existsb_exists. split.
  - intros ([k c] & H%list_elem_of_In & B). apply elem_of_map_to_list in H. bools. eauto.
  - intros (k & c & E & B). exists (k, c). split; [|by apply bool_decide_true].
    by apply list_elem_of_In, elem_of_map_to_list.
Qed.

Lemma prune_shrink now s : inv s → shrink s (_prune now s).
Proof.
  intros I. unfold _prune. split; simpl; eauto.
  - apply map_filter_subseteq.
  - apply map_filter_subseteq.
  - intros k g [E _]%map_lookup_filter_Some. eauto.
  - intros k cr [[E _]%map_lookup_filter_Some _]%map_lookup_filter_Some. eauto.
  - intros k c [E _]%map_lookup_filter_Some. eauto with oauth.
  - intros k r [E _]%map_lookup_filter_Some. eauto with oauth.
  - intros k g [E _]%map_lookup_filter_Some. eauto with oauth.
  - intros k cr [[E L]%map_lookup_filter_Some _]%map_lookup_filter_Some. simpl in L.
    destruct (inv_credential_ref _ I _ _ E) as [g Eg]. rewrite Eg in L. simpl in L.
    exists g. by apply map_lookup_filter_Some.
  - intros k c b E B [cl Ecl]. exists cl. apply map_lookup_filter_Some. split; [done|]. simpl.
    intros [_ N]. assert (is_bound_somewhere b s = true) as Y by (apply is_bound_somewhere_spec; eauto).
    unfold is_bound_somewhere in *. simpl in N. congruence.
Qed.

Lemma cascade_shrink cid s : inv s → shrink s (delete_cascade cid s).
Proof.
  intros I. unfold delete_cascade. split; simpl.
  - intros k c. rewrite lookup_delete_Some. naive_solver.
  - apply map_filter_subseteq.
  - apply map_filter_subseteq.
  - intros k g [E _]%map_lookup_filter_Some. eauto.
  - intros k cr [E _]%map_lookup_filter_Some. eauto.
  - intros k c [E N]%map_lookup_filter_Some. rewrite lookup_delete_ne by done. eauto with oauth.
  - intros k r [E N]%map_lookup_filter_Some. rewrite lookup_delete_ne by done. eauto with oauth.
  - intros k g [E N]%map_lookup_filter_Some. simpl in N. bools.
    rewrite lookup_delete_ne by done. eauto with oauth.
  - intros k cr [E L]%map_lookup_filter_Some. simpl in L.
    destruct (inv_credential_ref _ I _ _ E) as [g Eg]. rewrite Eg in L. simpl in L.
    exists g. by apply map_lookup_filter_Some.
  - intros k c b. rewrite lookup_delete_Some. intros [Hne E] B _.
    destruct (inv_bound _ I _ _ _ E B) as (_ & cl & Ecl & Hk).
    exists cl. apply map_lookup_filter_Some. split; [done|]. simpl. congruence.
Qed.

Lemma is_Some_alter {R} (f : R → R) k k' (t : gmap string R) :
  is_Some (t !! k') → is_Some (alter f k t !! k').
Proof.
  intros [x E]. destruct (decide (k = k')) as [->|].
  - rewrite lookup_alter_eq, E. eauto.
  - rewrite lookup_alter_ne by done. eauto.
Qed.
#[local] Hint Resolve is_Some_alter : oauth.

Lemma connection_keeps f cid s :
  inv s → (∀ c, (f c).(bound) = c.(bound)) → inv (with_connections (alter f cid) s).
Proof.
  intros I Hf. apply (shrink_inv s); [done|]. split; simpl; eauto with oauth.
  intros k c'. rewrite lookup_alter_Some. intros [(-> & c & E & ->)|[_ E]]; eauto.
Qed.

Lemma requests_keeps f s : inv s → f (requests s) ⊆ requests s → inv (with_requests f s).
Proof.
  intros I Hf. apply (shrink_inv s); [done|]. split; simpl; eauto with oauth.
  intros k r E. eapply inv_request_conn; [done|]. by eapply lookup_weaken.
Qed.

Lemma credential_keeps k s : inv s → inv (with_credentials (alter mark_used k) s).
Proof.
  intros I. assert (∀ k' cr', alter mark_used k (credentials s) !! k' = Some cr' →
    ∃ cr, credentials s !! k' = Some cr ∧ cr'.(cr_grant) = cr.(cr_grant)) as A.
  { intros k' cr'. rewrite lookup_alter_Some. intros [(-> & c & E & ->)|[_ E]]; eauto. }
  apply (shrink_inv s); [done|]. split; simpl; eauto with oauth.
  intros k' cr' E. destruct (A _ _ E) as (cr & E' & ->). eauto with oauth.
Qed.

(** Revoking grants, one or all of a connection's. *)
Lemma revoke_keeps (f : gmap string grant → gmap string grant) s :
  inv s →
  (∀ k, f (grants s) !! k = grants s !! k ∨ f (grants s) !! k = revoke <$> grants s !! k) →
  inv (with_grants f s).
Proof.
  intros I Hf. assert (∀ k g', f (grants s) !! k = Some g' →
    ∃ g, grants s !! k = Some g ∧ (g' = g ∨ g' = revoke g)) as A.
  { intros k g' E. destruct (Hf k) as [F|F]; rewrite E in F; [eauto|].
    symmetry in F. apply fmap_Some in F as (g & ? & ->). eauto. }
  apply (shrink_inv s); [done|]. split; simpl; eauto with oauth.
  - intros k g' E. destruct (A _ _ E) as (g & Eg & [->| ->]); exists g; simpl; split_and!; done.
  - intros k g' E. destruct (A _ _ E) as (g & Eg & [->| ->]); simpl; eauto with oauth.
  - intros k cr E. destruct (inv_credential_ref _ I _ _ E) as [g Eg].
    destruct (Hf cr.(cr_grant)) as [F|F]; rewrite F, Eg; simpl; eauto.
Qed.

(** *** Inserting rows *)

Lemma is_Some_insert {R} (k k' : string) (row : R) (t : gmap string R) :
  is_Some (t !! k') → is_Some (<[k := row]> t !! k').
Proof. intros [x E]. rewrite lookup_insert. case_decide; eauto. Qed.
#[local] Hint Resolve is_Some_insert : oauth.

Lemma insert_row_ok {R} k (row : R) t t' :
  insert_row k row t = Ok t' → t !! k = None ∧ t' = <[k := row]> t.
Proof. unfold insert_row. destruct (t !! k); intros; by simplify_eq. Qed.

Lemma insert_connection_inv cid conn s :
  inv s → connections s !! cid = None → conn.(bound) = None →
  inv (with_connections (λ t, <[cid := conn]> t) s).
Proof.
  intros I N B. assert (∀ k (P : connection → Prop),
    (∃ c, connections s !! k = Some c ∧ P c) →
    ∃ c, <[cid := conn]> (connections s) !! k = Some c ∧ P c) as A.
  { intros k P (c & E & HP). exists c. split; [|done]. rewrite lookup_insert_ne; [done|congruence]. }
  destruct I. split; simpl; eauto with oauth.
  - intros k r E. destruct (inv_request_ref0 _ _ E). eauto with oauth.
  - intros k c b E Bc. rewrite lookup_insert in E. case_decide; [congruence|]. eauto.
Qed.

Lemma insert_client_inv id cl s :
  inv s → clients s !! id = None → id ≠ ""%string →
  is_Some (connections s !! cl.(cl_connection)) →
  count_where (λ c, bool_decide (c.(cl_connection) = cl.(cl_connection))) (clients s) < 32 →
  inv (with_clients (λ t, <[id := cl]> t) s).
Proof.
  intros I N Hid Hc Hn. destruct I. split; simpl; eauto.
  - intros k c. rewrite lookup_insert. case_decide; [intros [= <-]; done|eauto].
  - by rewrite lookup_insert_ne.
  - intros k c b E B. destruct (inv_bound0 _ _ _ E B) as (? & cl' & E' & ?).
    split; [done|]. exists cl'. rewrite lookup_insert_ne; [done|congruence].
  - intros cid. etrans; [apply count_insert|]. cbv beta. case_bool_decide; [subst; lia|].
    specialize (inv_clients0 cid). lia.
Qed.

Lemma insert_request_inv rid r s :
  inv s → requests s !! rid = None → is_Some (connections s !! r.(rq_connection)) →
  r.(rq_client) ≠ ""%string → r.(code_hash) = None →
  count_where (λ x, bool_decide (x.(rq_connection) = r.(rq_connection))) (requests s) < 64 →
  inv (with_requests (λ t, <[rid := r]> t) s).
Proof.
  intros I N Hc Hn Hh Hk. destruct I. split; simpl; eauto.
  - intros k x. rewrite lookup_insert. case_decide; [intros [= <-]; done|eauto].
  - intros k x. rewrite lookup_insert. case_decide; [|eauto].
    intros [= <-]. rewrite Hh. by intros [? ?].
  - intros k1 k2 r1 r2 h. rewrite !lookup_insert. do 2 case_decide; eauto; intros; congruence.
  - intros cid. etrans; [apply count_insert|]. cbv beta. case_bool_decide; [subst; lia|].
    specialize (inv_requests0 cid). lia.
Qed.

(** An insertion cannot make a second live grant when the connection has none. *)
Lemma insert_grant_inv gid g s :
  inv s → grants s !! gid = None →
  (∃ c, connections s !! g.(g_connection) = Some c ∧ c.(bound) = Some g.(g_client)) →
  (∀ k g', grants s !! k = Some g' → g'.(g_connection) = g.(g_connection) → g'.(revoked) = true) →
  inv (with_grants (λ t, <[gid := g]> t) s).
Proof.
  intros I N Hc Hl. destruct I. split; simpl; eauto with oauth.
  - intros k x. rewrite lookup_insert. case_decide; [intros [= <-]; done|eauto].
  - intros k1 k2 g1 g2. rewrite !lookup_insert. do 2 case_decide; subst; [done| | |eauto].
    + intros [= <-] E _ R2 C. specialize (Hl _ _ E). rewrite Hl in R2; congruence.
    + intros E [= <-] R1 _ C. specialize (Hl _ _ E). rewrite Hl in R1; congruence.
Qed.

Lemma credentials_inv f s :
  inv s → (∀ k cr, f (credentials s) !! k = Some cr → is_Some (grants s !! cr.(cr_grant))) →
  inv (with_credentials f s).
Proof. intros I H. destruct I. split; simpl; eauto. Qed.

Lemma issue_ok now new gid expiry s tok s' :
  _issue now new gid expiry s = Ok (tok, s') →
  tok = {| access_token := new.(new_access); refresh_token := new.(new_refresh) |} ∧
  credentials s !! digest new.(new_access) = None ∧
  credentials s !! digest new.(new_refresh) = None ∧
  digest new.(new_access) ≠ digest new.(new_refresh) ∧
  s' = with_credentials (λ t, <[digest new.(new_refresh) :=
          {| cr_grant := gid; cr_kind := refresh; cr_expires_at := expiry; used := false |}]>
         (<[digest new.(new_access) :=
          {| cr_grant := gid; cr_kind := access; cr_expires_at := now + ACCESS_SECONDS * sec_us;
             used := false |}]> t)) s.
Proof.
  unfold _issue. intros H.
  destruct (insert_row (digest (new_access new)) _ _) as [t1|] eqn:E1; [|done].
  destruct (insert_row (digest (new_refresh new)) _ _) as [t2|] eqn:E2; [|done].
  apply insert_row_ok in E1 as [N1 ->], E2 as [N2 ->]. simplify_eq/=.
  rewrite lookup_insert_None in N2. destruct N2 as [N2 D]. repeat split; [exact N1|exact N2|exact D].
Qed.

Lemma issue_inv now new gid expiry s tok s' :
  inv s → is_Some (grants s !! gid) → _issue now new gid expiry s = Ok (tok, s') → inv s'.
Proof.
  intros I G (_ & _ & _ & _ & ->)%issue_ok. apply credentials_inv; [done|].
  intros k cr. rewrite !lookup_insert. repeat case_decide; [by intros [= <-]..|].
  by apply inv_credential_ref.
Qed.

(** The call got past the next guard. *)
Ltac pass_guard :=
  match goal with
  | |- (if ?b then Err _ else _) = Ok _ → _ =>
      let E := fresh "G" in destruct b eqn:E; [discriminate|]
  end.

(** *** Every operation preserves the invariant *)

Lemma txn_inv {A} (body : store → res oauth_err (A * store)) s :
  inv s → (∀ a s', body s = Ok (a, s') → inv s') → inv (txn body s).2.
Proof. intros I H. unfold txn. destruct (body s) as [[a s']|e] eqn:E; simpl; eauto. Qed.

Lemma prune_inv now s : inv s → inv (_prune now s).
Proof. intros I. by eapply shrink_inv, prune_shrink. Qed.

Lemma _connection_ok cid s c : _connection cid s = Ok c → connections s !! cid = Some c.
Proof. unfold _connection. destruct (_ !! _); intros; by simplify_eq. Qed.

(** The client of a call belongs to the connection, and is the bound one if
    there is one. *)
Lemma _client_ok cid id s cl :
  _client cid id s = Ok cl →
  clients s !! id = Some cl ∧ cl.(cl_connection) = cid ∧
  ∃ c, connections s !! cid = Some c ∧ (bound_to c = None ∨ bound_to c = Some id).
Proof.
  unfold _client. destruct (clients s !! id) as [x|] eqn:E; [|done].
  case_bool_decide; [|done]. destruct (_connection cid s) as [c|] eqn:C; [|done].
  apply _connection_ok in C. destruct (bound_to c) as [b|] eqn:B.
  - destruct (String.eqb_spec b id); [|done]. intros [= <-]. subst. eauto 10.
  - intros [= <-]. eauto 10.
Qed.

Lemma bound_to_inv s cid c b :
  inv s → connections s !! cid = Some c → c.(bound) = Some b → bound_to c = Some b.
Proof.
  intros I E B. unfold bound_to. rewrite B.
  destruct (inv_bound _ I _ _ _ E B) as [N _]. by destruct b.
Qed.

Lemma oauth_create_inv now cid app ws cmt s : inv s → inv (create now cid app ws cmt s).2.
Proof.
  intros I. unfold create. destruct (check_comment _); [done|]. apply txn_inv; [done|].
  intros a s'. destruct (insert_row _ _ _) as [t|] eqn:E; [|done].
  apply insert_row_ok in E as [N ->]. destruct (_connection _ _); [|done]. intros [= _ <-].
  by apply (insert_connection_inv cid _ s).
Qed.

Lemma oauth_update_inv cid cmt app ws s : inv s → inv (update cid cmt app ws s).2.
Proof.
  intros I. unfold update. destruct (check_comment _); [done|]. apply txn_inv; [done|].
  intros a s'. destruct (_connection _ _) as [c|]; [|done]. intros [= _ <-].
  apply connection_keeps; [|done]. case_bool_decide; [done|].
  apply requests_keeps; [done|apply map_filter_subseteq].
Qed.

Lemma delete_inv cid s : inv s → inv (delete_connection cid s).2.
Proof.
  intros I. apply txn_inv; [done|]. intros a s'. destruct (_connection _ _); [|done].
  intros [= _ <-]. by eapply shrink_inv, cascade_shrink.
Qed.

Lemma register_inv pnow now id secret cid fields s :
  id ≠ ""%string → inv s → inv (register pnow now id secret cid fields s).2.
Proof.
  intros Hid I. unfold register. destruct (check_metadata _ _) as [meta|]; [|done].
  apply txn_inv; [done|]. intros a s'. pose proof (prune_inv pnow s I) as I'.
  destruct (_connection cid _) as [c|] eqn:C; [|done]. apply _connection_ok in C.
  case_bool_decide; [done|]. destruct (_ <=? _) eqn:L; [done|]. bools.
  destruct (insert_row _ _ _) as [t|] eqn:E; [|done]. apply insert_row_ok in E as [N ->].
  intros [= _ <-]. apply (insert_client_inv id _ (_prune pnow s)); simpl; eauto.
Qed.

Lemma start_inv pnow now rid cid ps resource s :
  inv s → inv (start pnow now rid cid ps resource s).2.
Proof.
  intros I. unfold start. apply txn_inv; [done|]. intros a s'.
  pose proof (prune_inv pnow s I) as I'.
  destruct (_client _ _ _) as [cl|] eqn:CL; [|done].
  apply _client_ok in CL as (Ecl & _ & c & Ec & _).
  do 7 pass_guard. destruct (_connection _ _) as [owner|]; [|done].
  destruct (ps !! "client_id"%string) as [id|] eqn:Eid; [|done].
  destruct (insert_row _ _ _) as [t|] eqn:E; [|done]. apply insert_row_ok in E as [N ->].
  intros [= _ <-]. bools. apply (insert_request_inv rid _ (_prune pnow s)); simpl; eauto.
  intros ->. unfold pget in Ecl. rewrite Eid in Ecl.
  change (clients (_prune pnow s) !! ""%string = Some cl) in Ecl.
  by rewrite (inv_client_name _ I') in Ecl.
Qed.

Lemma _request_ok now rid s row conn meta :
  _request now rid s = Ok (row, conn, meta) →
  requests s !! rid = Some row ∧ now < row.(rq_expires_at) ∧ row.(code_hash) = None ∧
  connections s !! row.(rq_connection) = Some conn ∧
  row.(rq_app_id) = conn.(app_id) ∧ row.(rq_workspace) = conn.(workspace) ∧
  (bound_to conn = None ∨ bound_to conn = Some row.(rq_client)) ∧
  ∃ cl, clients s !! row.(rq_client) = Some cl ∧ cl.(cl_connection) = row.(rq_connection).
Proof.
  unfold _request. destruct (requests s !! rid) as [r|] eqn:E; [|done].
  destruct (_ && _) eqn:G; [|done]. destruct (_connection _ _) as [c|] eqn:C; [|done].
  apply _connection_ok in C. destruct (negb _) eqn:O; [done|].
  destruct (_client _ _ _) as [cl|] eqn:CL; [|done]. intros [= <- <- <-]. bools.
  destruct G as [? ?]. apply _client_ok in CL as (? & ? & c' & Ec' & ?).
  rewrite C in Ec'. simplify_eq. eauto 15.
Qed.

Lemma code_taken_spec rid h s :
  code_taken rid h s = false →
  ∀ k r, requests s !! k = Some r → r.(code_hash) = Some h → k = rid.
Proof.
  intros H k r E Hh. destruct (decide (k = rid)) as [|Hne]; [done|]. exfalso.
  apply not_true_iff_false in H. apply H. unfold code_taken. rewrite existsb_exists.
  exists (k, r). split; [by apply list_elem_of_In, elem_of_map_to_list|]. simpl.
  rewrite bool_decide_true by done. destruct (String.eqb_spec k rid); done.
Qed.

(** Approval binds the connection and gives the request its code. *)
Lemma bind_code_inv rid row conn h expiry s :
  inv s → requests s !! rid = Some row → connections s !! row.(rq_connection) = Some conn →
  (bound_to conn = None ∨ bound_to conn = Some row.(rq_client)) →
  (∃ cl, clients s !! row.(rq_client) = Some cl ∧ cl.(cl_connection) = row.(rq_connection)) →
  code_taken rid h s = false →
  inv (with_requests (alter (set_code h expiry) rid)
         (with_connections (alter (bind_client row.(rq_client)) row.(rq_connection)) s)).
Proof.
  intros I Er Ec Hb Hcl Ht.
  set (s1 := with_connections _ s).
  assert (∀ k b, (∃ c, connections s !! k = Some c ∧ c.(bound) = Some b) →
    ∃ c, connections s1 !! k = Some c ∧ c.(bound) = Some b) as A.
  { intros k b (c & E & B). simpl. destruct (decide (k = row.(rq_connection))) as [->|].
    - rewrite lookup_alter_eq, Ec. simpl. eexists. split; [done|]. simpl.
      rewrite Ec in E. simplify_eq. rewrite (bound_to_inv _ _ _ _ I Ec B) in Hb. naive_solver.
    - rewrite lookup_alter_ne by done. eauto. }
  assert (∀ k r, alter (set_code h expiry) rid (requests s) !! k = Some r →
    (k = rid ∧ r = set_code h expiry row) ∨ (k ≠ rid ∧ requests s !! k = Some r)) as R.
  { intros k r. rewrite lookup_alter_Some. naive_solver. }
  pose proof (inv_request_ref _ I _ _ Er) as [_ Hn].
  split; simpl.
  - intros k c E. apply is_Some_alter. eauto with oauth.
  - apply I.
  - intros k r E. destruct (R _ _ E) as [[-> ->]|[_ E']]; simpl; split;
      try (by eapply (inv_request_ref _ I)); apply is_Some_alter; eauto with oauth.
  - intros k g E. by eapply A, inv_grant_ref.
  - apply I.
  - intros k c b. rewrite lookup_alter_Some. intros [(<- & c0 & E & ->)|[_ E]].
    + simpl. intros [= <-]. eauto.
    + by eapply inv_bound.
  - intros k r E Hc. destruct (R _ _ E) as [[-> ->]|[_ E']]; simpl.
    + rewrite lookup_alter_eq, Ec. simpl. eauto.
    + by eapply A, inv_code.
  - intros k1 k2 r1 r2 h' E1 E2 H1 H2.
    destruct (R _ _ E1) as [[-> ->]|[? F1]], (R _ _ E2) as [[-> ->]|[? F2]]; simpl in *; [done| | |].
    + symmetry. eapply code_taken_spec; eauto. congruence.
    + eapply code_taken_spec; eauto. congruence.
    + by eapply (inv_code_unique _ I).
  - by apply inv_live.
  - intros cid. etrans; [|apply (inv_requests _ I cid)]. apply count_from.
    intros k r E P. destruct (R _ _ E) as [[-> ->]|[_ E']]; eauto.
  - apply I.
Qed.

Lemma approve_inv now later code rid expected s :
  inv s → inv (approve now later code rid expected s).2.
Proof.
  intros I. apply txn_inv; [done|]. intros a s'.
  destruct (_request now rid s) as [[[row conn] meta]|] eqn:E; [|done].
  apply _request_ok in E as (Er & _ & _ & Ec & _ & _ & Hb & Hcl).
  pass_guard. pass_guard. intros [= _ <-]. by eapply bind_code_inv.
Qed.

Lemma deny_inv now rid s : inv s → inv (deny now rid s).2.
Proof.
  intros I. apply txn_inv; [done|]. intros a s'.
  destruct (_request now rid s) as [[[row conn] meta]|] eqn:E; [|done].
  intros [= _ <-]. apply requests_keeps; [done|apply delete_subseteq].
Qed.

Lemma touch_inv now now' cid s : inv s → inv (touch now now' cid s).
Proof.
  intros I. apply connection_keeps; [done|].
  intros c. destruct (last_used_at c); [destruct (_ <? _)|]; done.
Qed.

(** *** Exchanging codes and refresh tokens *)

Lemma find_code_some h cid id now s rid row :
  find_code h cid id now s = Some (rid, row) →
  requests s !! rid = Some row ∧ row.(code_hash) = Some h ∧ row.(rq_connection) = cid ∧
  row.(rq_client) = id ∧ now < row.(rq_expires_at).
Proof.
  unfold find_code. intros H%head_Some_elem_of. apply list_elem_of_filter in H as [P H].
  apply elem_of_map_to_list in H. simpl in P. naive_solver.
Qed.

Lemma find_code_none h cid id now s :
  (∀ k r, requests s !! k = Some r → r.(code_hash) ≠ Some h) → find_code h cid id now s = None.
Proof.
  intros H. destruct (find_code _ _ _ _ _) as [[k r]|] eqn:E; [|done].
  apply find_code_some in E as (E & Hh & _). by destruct (H _ _ E).
Qed.

(** The state just before [_issue] in the authorization_code branch. *)
Definition code_state (now : Z) (gid cid client_id rid : string) (s : store) : store :=
  with_connections (alter (mark_authorized now) cid)
    (with_grants (λ t, <[gid := {| g_connection := cid; g_client := client_id;
        g_expires_at := now + REFRESH_SECONDS * sec_us; revoked := false |}]> (revoke_connection cid t))
      (with_requests (delete rid) s)).

Lemma exchange_code_ok now inow gid new cid id form s tok s' :
  exchange_code now inow gid new cid id form s = Ok (tok, s') →
  ∃ rid row,
    find_code (digest (pget "code" form)) cid id now s = Some (rid, row) ∧
    row.(params) !! "code_challenge"%string = Some (challenge (pget "code_verifier" form)) ∧
    row.(params) !! "redirect_uri"%string = form !! "redirect_uri"%string ∧
    revoke_connection cid (grants s) !! gid = None ∧
    _issue inow new gid (now + REFRESH_SECONDS * sec_us) (code_state now gid cid id rid s)
      = Ok (tok, s').
Proof.
  unfold exchange_code. destruct (find_code _ _ _ _ _) as [[rid row]|] eqn:F; [|done].
  destruct (negb (is_verifier _)); [done|].
  destruct (params row !! "redirect_uri"%string) as [uri|] eqn:U; [|done].
  destruct (params row !! "code_challenge"%string) as [chal|] eqn:CH; [|done].
  destruct (negb _ || _) eqn:G; [done|]. bools. destruct G as [GU GC].
  destruct (insert_row _ _ _) as [t|] eqn:E; [|done]. apply insert_row_ok in E as [N ->].
  intros H. apply String.eqb_eq in GC. subst chal.
  exists rid, row. rewrite GU. split_and!; try done.
Qed.

Lemma revoke_connection_lookup cid t k g' :
  revoke_connection cid t !! k = Some g' →
  ∃ g, t !! k = Some g ∧
    ((g.(g_connection) = cid ∧ g' = revoke g) ∨ (g.(g_connection) ≠ cid ∧ g' = g)).
Proof.
  unfold revoke_connection. rewrite lookup_fmap_Some. intros (g & <- & E). exists g.
  split; [done|]. case_bool_decide; auto.
Qed.

Lemma revoke_connection_cases cid t k :
  revoke_connection cid t !! k = t !! k ∨ revoke_connection cid t !! k = revoke <$> t !! k.
Proof.
  unfold revoke_connection. rewrite lookup_fmap. destruct (t !! k); simpl; [|auto].
  case_bool_decide; auto.
Qed.

Lemma code_state_inv now gid cid id rid row s :
  inv s → requests s !! rid = Some row → is_Some row.(code_hash) → row.(rq_connection) = cid →
  row.(rq_client) = id → revoke_connection cid (grants s) !! gid = None →
  inv (code_state now gid cid id rid s).
Proof.
  intros I E Hc Hk Hid N. set (s1 := with_requests (delete rid) s).
  assert (inv s1) as I1 by (apply requests_keeps; [done|apply delete_subseteq]).
  assert (inv (with_grants (revoke_connection cid) s1)) as I2.
  { apply revoke_keeps; [done|]. intros k. apply revoke_connection_cases. }
  apply connection_keeps; [|done].
  apply (insert_grant_inv gid _ (with_grants (revoke_connection cid) s1)); simpl; [done|done| |].
  - subst cid id. by eapply inv_code.
  - by intros k g' (g & _ & [[_ ->]|[Hg ->]])%revoke_connection_lookup Hg'.
Qed.

Lemma exchange_code_inv now inow gid new cid id form s tok s' :
  inv s → exchange_code now inow gid new cid id form s = Ok (tok, s') → inv s'.
Proof.
  intros I (rid & row & F & _ & _ & N & H)%exchange_code_ok.
  apply find_code_some in F as (E & Hh & Hk & Hid & _).
  eapply issue_inv; [| |exact H].
  - eapply code_state_inv; eauto.
  - unfold code_state. simpl. rewrite lookup_insert_eq. eauto.
Qed.

(** The two ways the refresh_token branch ends in a commit. *)
Lemma exchange_refresh_ok now inow new cid id form s r s' :
  exchange_refresh now inow new cid id form s = Ok (r, s') →
  let hash := digest (pget "refresh_token" form) in
  ∃ cr g, credentials s !! hash = Some cr ∧ grants s !! cr.(cr_grant) = Some g ∧
    cr.(cr_kind) = refresh ∧ g.(g_connection) = cid ∧ g.(g_client) = id ∧ g.(revoked) = false ∧
    now < cr.(cr_expires_at) ∧
    ((cr.(used) = true ∧ r = Err reuse_detected ∧ s' = with_grants (alter revoke cr.(cr_grant)) s) ∨
     (cr.(used) = false ∧ ∃ tok, r = Ok tok ∧
        _issue inow new cr.(cr_grant) g.(g_expires_at) (with_credentials (alter mark_used hash) s)
          = Ok (tok, s'))).
Proof.
  unfold exchange_refresh. destruct (credentials s !! _) as [cr|] eqn:E; [|done].
  destruct (grants s !! _) as [g|] eqn:Eg; [|done].
  destruct (_ || _) eqn:G; [done|]. bools. destruct G as [[[[G1 G2] G3] G4] G5].
  intros HH. exists cr, g. split_and!; try done.
  destruct (used cr) eqn:U; [left|right]; [by simplify_eq|].
  destruct (_issue _ _ _ _ _) as [[tok s2]|] eqn:Is; [|done]. simplify_eq. eauto.
Qed.

Lemma exchange_refresh_inv now inow new cid id form s r s' :
  inv s → exchange_refresh now inow new cid id form s = Ok (r, s') → inv s'.
Proof.
  intros I H. apply exchange_refresh_ok in H
    as (cr & g & E & Eg & _ & _ & _ & _ & _ & [(_ & _ & ->)|(_ & tok & _ & H)]).
  - apply revoke_keeps; [done|]. intros k.
    destruct (decide (k = cr.(cr_grant))) as [->|]; [rewrite lookup_alter_eq; auto|].
    rewrite lookup_alter_ne by done. auto.
  - eapply issue_inv; [| |exact H]; [by apply credential_keeps|by eexists].
Qed.

(** *** Errors raised inside the transaction *)

Definition plain {A} (r : res oauth_err A) : Prop :=
  match r with Ok _ => True | Err e => e ≠ reuse_detected end.

Lemma client_plain cid id s : plain (_client cid id s).
Proof.
  unfold _client, _connection. destruct (clients s !! id); [|done].
  case_bool_decide; [|done]. destruct (connections s !! cid); [|done].
  destruct (bound_to _); [destruct (String.eqb _ _)|]; done.
Qed.

Lemma issue_plain now new gid expiry s : plain (_issue now new gid expiry s).
Proof. unfold _issue, insert_row. destruct (_ !! _); [done|]. destruct (_ !! _); done. Qed.

Lemma exchange_code_plain now inow gid new cid id form s :
  plain (exchange_code now inow gid new cid id form s).
Proof.
  unfold exchange_code. destruct (find_code _ _ _ _ _) as [[rid row]|]; [|done].
  destruct (negb _); [done|]. destruct (_ !! _); [|done]. destruct (_ !! _); [|done].
  destruct (_ || _); [done|]. unfold insert_row. destruct (_ !! _); [done|]. apply issue_plain.
Qed.

Lemma exchange_refresh_plain now inow new cid id form s :
  plain (exchange_refresh now inow new cid id form s).
Proof.
  unfold exchange_refresh. destruct (_ !! _); [|done]. destruct (_ !! _); [|done].
  destruct (_ || _); [done|]. destruct (used _); [done|].
  pose proof (issue_plain inow new (cr_grant c) (g_expires_at g)
    (with_credentials (alter mark_used (digest (pget "refresh_token" form))) s)) as P.
  destruct (_issue _ _ _ _ _) as [[tok s2]|]; done.
Qed.

(** What an exchange did: nothing, or one of the two branches after pruning. *)
Lemma exchange_cases pnow now inow gid new cid form resource am s r s' :
  exchange pnow now inow gid new cid form resource am s = (r, s') →
  (s' = s ∧ ∃ e, r = Err e ∧ e ≠ reuse_detected) ∨
  (∃ tok, r = Ok tok ∧ form !! "grant_type"%string = Some "authorization_code"%string ∧
     exchange_code now inow gid new cid (pget "client_id" form) form (_prune pnow s) = Ok (tok, s')) ∨
  (form !! "grant_type"%string = Some "refresh_token"%string ∧
     exchange_refresh now inow new cid (pget "client_id" form) form (_prune pnow s) = Ok (r, s')).
Proof.
  unfold exchange, txn. pose proof (client_plain cid (pget "client_id" form) (_prune pnow s)) as P.
  destruct (_client _ _ _) as [cl|e]; [clear P|intros [= <- <-]; eauto].
  match goal with |- context [if ?b then Err _ else _] => destruct b end;
    [intros [= <- <-]; left; split; [done|]; by eexists|].
  match goal with |- context [if ?b then Err _ else _] => destruct b end;
    [intros [= <- <-]; left; split; [done|]; by eexists|].
  case_bool_decide as Hc; [|case_bool_decide as Hr].
  - pose proof (exchange_code_plain now inow gid new cid (pget "client_id" form) form (_prune pnow s)) as P.
    destruct (exchange_code _ _ _ _ _ _ _ _) as [[tok s2]|e] eqn:E; intros [= <- <-]; eauto 10.
  - pose proof (exchange_refresh_plain now inow new cid (pget "client_id" form) form (_prune pnow s)) as P.
    destruct (exchange_refresh _ _ _ _ _ _ _) as [[r2 s2]|e] eqn:E; intros [= <- <-]; [|eauto].
    right. right. split; [done|]. by destruct r2.
  - intros [= <- <-]. left. split; [done|]. by eexists.
Qed.

Lemma exchange_inv pnow now inow gid new cid form resource am s :
  inv s → inv (exchange pnow now inow gid new cid form resource am s).2.
Proof.
  intros I. destruct (exchange _ _ _ _ _ _ _ _ _ _) as [r s'] eqn:E. simpl.
  pose proof (prune_inv pnow s I) as I'.
  apply exchange_cases in E as [[-> _]|[(tok & _ & _ & H)|[_ H]]]; [done| |].
  - by eapply exchange_code_inv.
  - by eapply exchange_refresh_inv.
Qed.

Lemma exec_inv o s : named o → inv s → inv (exec s o).
Proof.
  intros N I. destruct o; simpl; auto using oauth_create_inv, oauth_update_inv, delete_inv, register_inv,
    start_inv, approve_inv, deny_inv, exchange_inv, touch_inv.
Qed.

Lemma run_inv ops s : Forall named ops → inv s → inv (foldl exec s ops).
Proof.
  intros N. revert s. induction N as [|o ops No _ IH]; intros s I; simpl; [done|].
  by apply IH, exec_inv.
Qed.
