(* ===== verification/OAuthTheorems.v ===== *)
(** * OAuthTheorems: what the OAuth store guarantees across operations

    Codes are single use, a reused refresh token kills its grant, a connection
    has one live grant and one client, and moving a connection to another owner
    ends its pending handshakes. *)

From Stdlib Require Import ZArith Lia Ascii String.
From stdpp Require Import base tactics list list_numbers gmap strings fin_maps sets.
From S2P Require Import Prelude Calendar Hashing OAuth.

Local Open Scope Z_scope.

#[local] Opaque digest.

(** ** How codes evolve *)

Definition approves (h : string) (o : op) : Prop :=
  match o with OApprove _ _ code _ _ => digest code = h | _ => False end.

(** No request carries the code hash [h]. *)
Definition no_code (h : string) (s : store) : Prop :=
  ∀ k r, requests s !! k = Some r → r.(code_hash) ≠ Some h.

Lemma no_code_subseteq h s s' : requests s' ⊆ requests s → no_code h s → no_code h s'.
Proof. intros Hs H k r E. apply (H k). by eapply lookup_weaken. Qed.

Lemma prune_requests now s : requests (_prune now s) ⊆ requests s.
Proof. apply map_filter_subseteq. Qed.

Lemma txn_case {A} (body : store → res oauth_err (A * store)) s (P : store → Prop) :
  P s → (∀ a s', body s = Ok (a, s') → P s') → P (txn body s).2.
Proof. intros H0 H. unfold txn. destruct (body s) as [[a s']|e] eqn:E; simpl; eauto. Qed.

Lemma issue_requests now new gid expiry s tok s' :
  _issue now new gid expiry s = Ok (tok, s') → requests s' = requests s.
Proof. by intros (_ & _ & _ & _ & ->)%issue_ok. Qed.

Lemma exchange_requests pnow now inow gid new cid form resource am s r s' :
  exchange pnow now inow gid new cid form resource am s = (r, s') → requests s' ⊆ requests s.
Proof.
  intros [[-> _]|[(tok & _ & _ & H)|[_ H]]]%exchange_cases; [done| |].
  - apply exchange_code_ok in H as (rid & row & _ & _ & _ & _ & H). apply issue_requests in H.
    rewrite H. simpl. etrans; [apply delete_subseteq|apply (prune_requests pnow s)].
  - apply exchange_refresh_ok in H as (cr & g & _ & _ & _ & _ & _ & _ & _ & [(_ & _ & ->)|(_ & t & _ & H)]).
    + apply (prune_requests pnow s).
    + apply issue_requests in H. rewrite H. apply (prune_requests pnow s).
Qed.

Lemma exec_no_code h o s : ¬ approves h o → no_code h s → no_code h (exec s o).
Proof.
  intros Ha H. destruct o as [now cid app ws cmt|cid cmt app ws|cid|pnow now id sec cid fields
    |pnow now rid cid ps resource|now later code rid expected|now rid
    |pnow now inow gid new cid form resource am|now now' cid]; simpl in *.
  - unfold create. destruct (check_comment _); [done|]. apply txn_case; [done|].
    intros a s'. destruct (insert_row _ _ _); [|done]. destruct (_connection _ _); [|done].
    by intros [= _ <-].
  - unfold update. destruct (check_comment _); [done|]. apply txn_case; [done|].
    intros a s'. destruct (_connection _ _); [|done]. intros [= _ <-].
    case_bool_decide; [done|]. eapply no_code_subseteq; [apply map_filter_subseteq|done].
  - unfold delete_connection. apply txn_case; [done|]. intros a s'. destruct (_connection _ _); [|done]. intros [= _ <-].
    eapply no_code_subseteq; [apply map_filter_subseteq|done].
  - unfold register. destruct (check_metadata _ _); [|done]. apply txn_case; [done|].
    intros x s'. destruct (_connection _ _); [|done]. do 2 pass_guard.
    destruct (insert_row _ _ _); [|done]. intros [= _ <-].
    eapply no_code_subseteq; [apply (prune_requests pnow s)|done].
  - unfold start. apply txn_case; [done|]. intros x s'. destruct (_client _ _ _); [|done].
    do 7 pass_guard. destruct (_connection _ _); [|done]. destruct (ps !! "client_id"%string); [|done].
    destruct (insert_row _ _ _) as [t|] eqn:E; [|done]. apply insert_row_ok in E as [_ ->].
    intros [= _ <-] k r. cbn [requests with_requests].
    destruct (decide (rid = k)) as [->|]; [rewrite lookup_insert_eq; by intros [= <-]|].
    rewrite lookup_insert_ne by done. intros E. apply (H k). eapply lookup_weaken; [exact E|apply (prune_requests pnow s)].
  - unfold approve. apply txn_case; [done|]. intros x s'.
    destruct (_request _ _ _) as [[[row c] m]|]; [|done]. do 2 pass_guard.
    intros [= _ <-] k r. simpl. rewrite lookup_alter_Some.
    intros [(_ & r0 & _ & ->)|[_ E]]; [simpl; congruence|by apply (H k)].
  - unfold deny. apply txn_case; [done|]. intros x s'.
    destruct (_request _ _ _) as [[[row c] m]|]; [|done]. intros [= _ <-].
    eapply no_code_subseteq; [apply delete_subseteq|done].
  - destruct (exchange _ _ _ _ _ _ _ _ _ _) as [r s'] eqn:E. simpl.
    eapply no_code_subseteq; [by eapply exchange_requests|done].
  - done.
Qed.

Lemma run_no_code h ops s :
  Forall (λ o, ¬ approves h o) ops → no_code h s → no_code h (foldl exec s ops).
Proof.
  intros N. revert s. induction N as [|o ops No _ IH]; intros s H; simpl; [done|].
  by apply IH, exec_no_code.
Qed.

(** Exchanging a code no request carries fails. *)
Lemma no_code_refused pnow now inow gid new cid form resource am s :
  no_code (digest (pget "code" form)) s →
  form !! "grant_type"%string = Some "authorization_code"%string →
  ∃ e, (exchange pnow now inow gid new cid form resource am s).1 = Err e.
Proof.
  intros H Hf. destruct (exchange _ _ _ _ _ _ _ _ _ _) as [r s'] eqn:E.
  apply exchange_cases in E as [[_ (e & -> & _)]|[(tok & _ & _ & X)|[F _]]]; [eauto| |congruence].
  apply exchange_code_ok in X as (rid & row & X & _). rewrite find_code_none in X; [done|].
  intros k r0 E. apply (H k). eapply lookup_weaken; [exact E|apply (prune_requests pnow s)].
Qed.

(** ** How credentials evolve *)

Definition mints (h : string) (o : op) : Prop :=
  match o with
  | OExchange _ _ _ _ new _ _ _ _ => digest new.(new_access) = h ∨ digest new.(new_refresh) = h
  | _ => False
  end.

(** The credential [h] of [s'] is the one of [s], still of the same grant; a
    spent token stays spent and a revoked grant stays revoked. *)
Definition follows (h : string) (s s' : store) : Prop :=
  ∀ cr', credentials s' !! h = Some cr' →
    ∃ cr, credentials s !! h = Some cr ∧ cr'.(cr_grant) = cr.(cr_grant) ∧
      (cr.(used) = true → cr'.(used) = true) ∧
      ∀ g g', grants s !! cr.(cr_grant) = Some g → grants s' !! cr.(cr_grant) = Some g' →
        g.(revoked) = true → g'.(revoked) = true.

Lemma follows_trans h s1 s2 s3 :
  inv s2 → follows h s1 s2 → follows h s2 s3 → follows h s1 s3.
Proof.
  intros I F1 F2 cr3 E3. destruct (F2 _ E3) as (cr2 & E2 & G2 & U2 & R2).
  destruct (F1 _ E2) as (cr1 & E1 & G1 & U1 & R1).
  destruct (inv_credential_ref _ I _ _ E2) as [g2 Eg2].
  exists cr1. split_and!; [done|congruence|auto|].
  intros g g' Eg Eg' Hr. eapply R2; [exact Eg2|congruence|].
  eapply R1; [exact Eg| |done]. congruence.
Qed.

Lemma follows_same h s s' :
  credentials s' = credentials s → grants s' = grants s → follows h s s'.
Proof. intros C G cr E. rewrite C in E. rewrite G. exists cr. naive_solver. Qed.

Lemma follows_subseteq h s s' :
  credentials s' ⊆ credentials s → grants s' ⊆ grants s → follows h s s'.
Proof.
  intros C G cr E. exists cr. split_and!; [by eapply lookup_weaken|done|done|].
  intros g g' E1 E2. apply (lookup_weaken _ _ _ _ E2) in G. congruence.
Qed.

Lemma prune_follows h now s : follows h s (_prune now s).
Proof.
  apply follows_subseteq; simpl; [|apply map_filter_subseteq].
  etrans; apply map_filter_subseteq.
Qed.

Lemma issue_follows h now new gid expiry s tok s' :
  _issue now new gid expiry s = Ok (tok, s') →
  digest new.(new_access) ≠ h → digest new.(new_refresh) ≠ h → follows h s s'.
Proof.
  intros (_ & _ & _ & _ & ->)%issue_ok Na Nr cr. cbn [credentials with_credentials grants].
  rewrite !lookup_insert_ne by done. intros E. exists cr. naive_solver.
Qed.

Lemma revoke_follows h f s :
  (∀ k, f (grants s) !! k = grants s !! k ∨ f (grants s) !! k = revoke <$> grants s !! k) →
  follows h s (with_grants f s).
Proof.
  intros Hf cr E. exists cr. split_and!; [done..|]. intros g g' Eg. simpl.
  destruct (Hf cr.(cr_grant)) as [->| ->]; rewrite Eg; naive_solver.
Qed.

Lemma alter_revoke_cases k (gs : gmap string grant) k' :
  alter revoke k gs !! k' = gs !! k' ∨ alter revoke k gs !! k' = revoke <$> gs !! k'.
Proof.
  destruct (decide (k = k')) as [->|]; [rewrite lookup_alter_eq|rewrite lookup_alter_ne by done]; auto.
Qed.

Lemma exchange_code_follows h now inow gid new cid id form s tok s' :
  inv s → exchange_code now inow gid new cid id form s = Ok (tok, s') →
  digest new.(new_access) ≠ h → digest new.(new_refresh) ≠ h → follows h s s'.
Proof.
  intros I (rid & row & F & _ & _ & N & H)%exchange_code_ok Na Nr.
  apply find_code_some in F as (E & Hh & Hk & Hid & _).
  eapply (follows_trans _ _ (code_state now gid cid id rid s)).
  - eapply code_state_inv; eauto.
  - intros cr Ecr. exists cr. split_and!; [done..|]. simpl. intros g g' Eg.
    rewrite lookup_insert_ne.
    + destruct (revoke_connection_cases cid (grants s) cr.(cr_grant)) as [->| ->];
        rewrite Eg; naive_solver.
    + intros ->. unfold revoke_connection in N. rewrite lookup_fmap, Eg in N. done.
  - by eapply issue_follows.
Qed.

Lemma exchange_refresh_follows h now inow new cid id form s r s' :
  inv s → exchange_refresh now inow new cid id form s = Ok (r, s') →
  digest new.(new_access) ≠ h → digest new.(new_refresh) ≠ h → follows h s s'.
Proof.
  intros I (cr & g & E & Eg & _ & _ & _ & _ & _ & [(_ & _ & ->)|(_ & tok & _ & H)])%exchange_refresh_ok Na Nr.
  - apply revoke_follows, alter_revoke_cases.
  - eapply follows_trans; [by apply credential_keeps| |by eapply issue_follows].
    intros cr' E'. cbn [credentials with_credentials grants] in *.
    apply lookup_alter_Some in E' as [(_ & c & Ec & ->)|[_ Ec]]; exists c || exists cr';
      naive_solver.
Qed.

Lemma exchange_follows h pnow now inow gid new cid form resource am s r s' :
  inv s → exchange pnow now inow gid new cid form resource am s = (r, s') →
  digest new.(new_access) ≠ h → digest new.(new_refresh) ≠ h → follows h s s'.
Proof.
  intros I E Na Nr. pose proof (prune_inv pnow s I) as I'.
  apply exchange_cases in E as [[-> _]|[(tok & _ & _ & H)|[_ H]]];
    [by apply follows_same|eapply follows_trans; [exact I'|apply prune_follows|]..].
  - by eapply exchange_code_follows.
  - by eapply exchange_refresh_follows.
Qed.

Lemma exec_follows h o s : inv s → ¬ mints h o → follows h s (exec s o).
Proof.
  intros I Hm. destruct o as [now cid app ws cmt|cid cmt app ws|cid|pnow now id sec cid fields
    |pnow now rid cid ps resource|now later code rid expected|now rid
    |pnow now inow gid new cid form resource am|now now' cid]; simpl in *.
  - unfold create. destruct (check_comment _); [by apply follows_same|].
    apply txn_case; [by apply follows_same|]. intros a s'.
    destruct (insert_row _ _ _); [|done]. destruct (_connection _ _); [|done].
    intros [= _ <-]. by apply follows_same.
  - unfold update. destruct (check_comment _); [by apply follows_same|].
    apply txn_case; [by apply follows_same|]. intros a s'. destruct (_connection _ _); [|done].
    intros [= _ <-]. case_bool_decide; by apply follows_same.
  - unfold delete_connection. apply txn_case; [by apply follows_same|]. intros a s'.
    destruct (_connection _ _); [|done]. intros [= _ <-].
    apply follows_subseteq; apply map_filter_subseteq.
  - unfold register. destruct (check_metadata _ _); [|by apply follows_same].
    apply txn_case; [by apply follows_same|].
    intros x s'. destruct (_connection _ _); [|done]. do 2 pass_guard.
    destruct (insert_row _ _ _); [|done]. intros [= _ <-]. apply (prune_follows h pnow s).
  - unfold start. apply txn_case; [by apply follows_same|]. intros x s'.
    destruct (_client _ _ _); [|done]. do 7 pass_guard. destruct (_connection _ _); [|done].
    destruct (ps !! "client_id"%string); [|done].
    destruct (insert_row _ _ _); [|done]. intros [= _ <-]. apply (prune_follows h pnow s).
  - unfold approve. apply txn_case; [by apply follows_same|]. intros x s'.
    destruct (_request _ _ _) as [[[row c] m]|]; [|done]. do 2 pass_guard.
    intros [= _ <-]. by apply follows_same.
  - unfold deny. apply txn_case; [by apply follows_same|]. intros x s'.
    destruct (_request _ _ _) as [[[row c] m]|]; [|done]. intros [= _ <-]. by apply follows_same.
  - destruct (exchange _ _ _ _ _ _ _ _ _ _) as [r s'] eqn:E. simpl.
    eapply exchange_follows; [done|exact E|tauto..].
  - by apply follows_same.
Qed.

Lemma run_follows h ops s :
  inv s → Forall named ops → Forall (λ o, ¬ mints h o) ops → follows h s (foldl exec s ops).
Proof.
  intros I N M. revert s I. induction ops as [|o ops IH]; intros s I; simpl; [by apply follows_same|].
  apply Forall_cons in N as [No N], M as [Mo M].
  pose proof (exec_inv o s No I). eapply follows_trans; [done|by apply exec_follows|auto].
Qed.

(** ** A concrete handshake, for the examples *)

Definition demo_verifier : string := "abcdefghijklmnopqrstuvwxyz0123456789-._~ABCDEFG".

Definition demo_fields : list (string * json) :=
  [("redirect_uris"%string, JList [JStr "https://client.example/callback"]);
   ("token_endpoint_auth_method"%string, JStr "none")].

Definition demo_params : gmap string string :=
  <["client_id" := "cl"]> (<["redirect_uri" := "https://client.example/callback"]>
  (<["response_type" := "code"]> (<["code_challenge_method" := "S256"]>
  (<["code_challenge" := challenge demo_verifier]> (<["resource" := "r"]> ∅)))))%string.

Definition demo_form : gmap string string :=
  <["client_id" := "cl"]> (<["redirect_uri" := "https://client.example/callback"]>
  (<["grant_type" := "authorization_code"]> (<["code" := "the-code"]>
  (<["code_verifier" := demo_verifier]> (<["resource" := "r"]> ∅)))))%string.

Definition demo_refresh : gmap string string :=
  <["client_id" := "cl"]> (<["grant_type" := "refresh_token"]>
  (<["refresh_token" := "r1"]> (<["resource" := "r"]> ∅)))%string.

Definition demo_setup : list op :=
  [OCreate 0 "conn" "app" "ws" "laptop";
   ORegister 1 1 "cl" "" "conn" demo_fields;
   OStart 2 2 "req" "conn" demo_params "r"].

Definition demo_pending : store := foldl exec empty_store demo_setup.

Definition demo_approved : store :=
  (approve 3 3 "the-code" "req" (Some ("app", "ws")%string) demo_pending).2.

Definition demo_first : res oauth_err token_response * store :=
  exchange 4 4 4 "g1" {| new_access := "a1"; new_refresh := "r1" |} "conn" demo_form "r" "none"
    demo_approved.

Definition demo_second : res oauth_err token_response * store :=
  exchange 5 5 5 "g2" {| new_access := "a2"; new_refresh := "r2" |} "conn" demo_refresh "r" "none"
    demo_first.2.

Example demo_first_ok : demo_first.1 = Ok {| access_token := "a1"; refresh_token := "r1" |}.
Proof. vm_compute. reflexivity. Qed.

Example demo_second_ok : demo_second.1 = Ok {| access_token := "a2"; refresh_token := "r2" |}.
Proof. vm_compute. reflexivity. Qed.

Example demo_reuse :
  (exchange 6 6 6 "g3" {| new_access := "a3"; new_refresh := "r3" |} "conn" demo_refresh "r" "none"
    demo_second.2).1 = Err reuse_detected.
Proof. vm_compute. reflexivity. Qed.

Lemma demo_pending_inv : inv demo_pending.
Proof. apply run_inv; [|apply oauth_empty_inv]. repeat constructor. done. Qed.

Lemma demo_approved_inv : inv demo_approved.
Proof. apply approve_inv, demo_pending_inv. Qed.

Lemma demo_first_inv : inv demo_first.2.
Proof. apply exchange_inv, demo_approved_inv. Qed.

Lemma demo_first_eq :
  exchange 4 4 4 "g1" {| new_access := "a1"; new_refresh := "r1" |} "conn" demo_form "r" "none"
    demo_approved = (Ok {| access_token := "a1"; refresh_token := "r1" |}, demo_first.2).
Proof. rewrite <- demo_first_ok. unfold demo_first. by destruct (exchange _ _ _ _ _ _ _ _ _ _). Qed.

Lemma demo_second_eq :
  exchange 5 5 5 "g2" {| new_access := "a2"; new_refresh := "r2" |} "conn" demo_refresh "r" "none"
    demo_first.2 = (Ok {| access_token := "a2"; refresh_token := "r2" |}, demo_second.2).
Proof. rewrite <- demo_second_ok. unfold demo_second. by destruct (exchange _ _ _ _ _ _ _ _ _ _). Qed.

#[local] Opaque demo_pending demo_approved demo_first demo_second.

(** ** Properties *)

(** C16: whatever sequence of calls the store has served, every credential has
    its grant and every grant its connection, a connection has at most one
    unrevoked grant, all its grants and codes belong to the single client it is
    bound to, that client's registration is still present, and at most 64
    requests and 32 clients exist per connection. *)
Theorem oauth_reachable ops :
  Forall named ops →
  let s := foldl exec empty_store ops in
  (∀ h cr, credentials s !! h = Some cr → is_Some (grants s !! cr.(cr_grant))) ∧
  (∀ k g, grants s !! k = Some g →
     ∃ c cl, connections s !! g.(g_connection) = Some c ∧ c.(bound) = Some g.(g_client) ∧
       clients s !! g.(g_client) = Some cl ∧ cl.(cl_connection) = g.(g_connection)) ∧
  (∀ k r, requests s !! k = Some r → is_Some r.(code_hash) →
     ∃ c, connections s !! r.(rq_connection) = Some c ∧ c.(bound) = Some r.(rq_client)) ∧
  (∀ k1 k2 g1 g2, grants s !! k1 = Some g1 → grants s !! k2 = Some g2 →
     g1.(revoked) = false → g2.(revoked) = false →
     g1.(g_connection) = g2.(g_connection) → k1 = k2) ∧
  (∀ cid, count_where (λ r, bool_decide (r.(rq_connection) = cid)) (requests s) ≤ 64 ∧
          count_where (λ c, bool_decide (c.(cl_connection) = cid)) (clients s) ≤ 32).
Proof.
  intros N s. assert (inv s) as I by (apply run_inv; [done|apply oauth_empty_inv]).
  split_and!; try apply I.
  - intros k g E. destruct (inv_grant_ref _ I _ _ E) as (c & Ec & B).
    destruct (inv_bound _ I _ _ _ Ec B) as (_ & cl & ? & ?). eauto 10.
  - intros cid. split; apply I.
Qed.

Lemma oauth_reachable_witness :
  count_where (λ r, bool_decide (r.(rq_connection) = "conn"%string))
    (requests (foldl exec empty_store demo_setup)) ≤ 64.
Proof.
  assert (Forall named demo_setup) as N by (repeat constructor; done).
  pose proof (oauth_reachable demo_setup N) as (_ & _ & _ & _ & H).
  exact (proj1 (H "conn"%string)).
Defined.

(** C15: an authorization code is redeemed at most once: after a successful
    exchange no later exchange of the same code succeeds, whatever calls come
    between, as long as no later approval draws a code with the same hash. *)
Theorem oauth_code_single_use pnow now inow gid new cid form resource am s tok s1 ops :
  inv s →
  exchange pnow now inow gid new cid form resource am s = (Ok tok, s1) →
  form !! "grant_type"%string = Some "authorization_code"%string →
  let h := digest (pget "code" form) in
  Forall (λ o, ¬ approves h o) ops →
  ∀ pnow' now' inow' gid' new' cid' form' resource' am',
    form' !! "grant_type"%string = Some "authorization_code"%string →
    pget "code" form' = pget "code" form →
    ∃ e, (exchange pnow' now' inow' gid' new' cid' form' resource' am' (foldl exec s1 ops)).1 = Err e.
Proof.
  intros I E Hf h N pnow' now' inow' gid' new' cid' form' resource' am' Hf' Hc.
  apply no_code_refused; [|done]. rewrite Hc. apply run_no_code; [done|].
  apply exchange_cases in E as [[_ (e & ? & _)]|[(t & _ & _ & X)|[? _]]]; [done| |congruence].
  apply exchange_code_ok in X as (rid & row & F & _ & _ & _ & X).
  apply find_code_some in F as (Er & Hh & _). apply issue_requests in X.
  intros k r. rewrite X. simpl. rewrite lookup_delete_Some. intros [Hne Ek] Hk.
  destruct Hne. eapply (inv_code_unique _ (prune_inv pnow s I)); eauto.
Qed.

Lemma oauth_code_single_use_witness :
  ∃ e, (exchange 6 6 6 "g5" {| new_access := "a5"; new_refresh := "r5" |} "conn" demo_form "r" "none"
          (foldl exec demo_first.2 [OTouch 5 5 "conn"])).1 = Err e.
Proof.
  assert (Forall (λ o, ¬ approves (digest (pget "code" demo_form)) o) [OTouch 5 5 "conn"]) as N.
  { repeat constructor. intros []. }
  exact (oauth_code_single_use _ _ _ _ _ _ _ _ _ _ _ _ _ demo_approved_inv demo_first_eq eq_refl N
    6 6 6 "g5"%string _ _ demo_form _ _ eq_refl eq_refl).
Defined.

(** Refused by [authenticate] whatever the time. *)
Definition refused (cid secret : string) (s : store) : Prop :=
  ∀ t t', ∃ e, authenticate t t' cid secret s = Err e.

Lemma revoked_refused cid secret s :
  (∀ cr, credentials s !! digest secret = Some cr →
     ∀ g, grants s !! cr.(cr_grant) = Some g → g.(revoked) = true) →
  refused cid secret s.
Proof.
  intros H t t'. unfold authenticate. destruct (credentials s !! _) as [cr|] eqn:E; [|eauto].
  destruct (grants s !! _) as [g|] eqn:Eg; [|eauto].
  rewrite (H _ eq_refl _ Eg), andb_false_r. simpl. eauto.
Qed.

(** Tokens whose grant is revoked stay refused. *)
Lemma revoked_forever cid secret s ops :
  inv s → Forall named ops → Forall (λ o, ¬ mints (digest secret) o) ops →
  (∀ cr, credentials s !! digest secret = Some cr →
     ∃ g, grants s !! cr.(cr_grant) = Some g ∧ g.(revoked) = true) →
  refused cid secret (foldl exec s ops).
Proof.
  intros I N M H. apply revoked_refused. intros cr' E' g' Eg'.
  destruct (run_follows _ _ _ I N M _ E') as (cr & E & Hg & _ & R).
  destruct (H _ E) as (g & Eg & Hr). rewrite Hg in Eg'. eauto.
Qed.

(** A successful refresh marks the presented token as spent and issues tokens of
    the same grant. *)
Lemma refresh_spends pnow now inow gid new cid form resource am s tok s1 :
  inv s → exchange pnow now inow gid new cid form resource am s = (Ok tok, s1) →
  form !! "grant_type"%string = Some "refresh_token"%string →
  ∃ cr ca, credentials s1 !! digest (pget "refresh_token" form) = Some cr ∧ cr.(used) = true ∧
    credentials s1 !! digest tok.(access_token) = Some ca ∧ ca.(cr_grant) = cr.(cr_grant) ∧
    cr.(cr_kind) = refresh.
Proof.
  intros I E Hf.
  apply exchange_cases in E as [[_ (e & ? & _)]|[(t & _ & ? & _)|[_ X]]]; [done|congruence|].
  apply exchange_refresh_ok in X
    as (cr & g & Ec & Eg & Hk & _ & _ & _ & _ & [(_ & ? & _)|(_ & t & [= <-] & X)]); [done|].
  apply issue_ok in X as (-> & Na & Nr & D & ->). cbn [credentials with_credentials access_token] in *.
  assert (∀ k, alter mark_used (digest (pget "refresh_token" form)) (credentials (_prune pnow s)) !! k
    = None → k ≠ digest (pget "refresh_token" form)) as A.
  { intros k Hn ->. rewrite lookup_alter_eq, Ec in Hn. done. }
  exists (mark_used cr). eexists. rewrite (lookup_insert_ne _ _ _ _ (A _ Nr)).
  rewrite (lookup_insert_ne _ _ _ _ (A _ Na)), lookup_alter_eq, Ec.
  rewrite (lookup_insert_ne _ (digest (new_refresh new)) _ _ (λ Q, D (eq_sym Q))), lookup_insert_eq.
  repeat split. exact Hk.
Qed.

(** A spent refresh token is never accepted, and presenting it in a way that
    would have been accepted revokes its grant. *)
Lemma spent_refused pnow now inow gid new cid form resource am s r s' :
  inv s →
  (∀ cr, credentials s !! digest (pget "refresh_token" form) = Some cr → cr.(used) = true) →
  form !! "grant_type"%string = Some "refresh_token"%string →
  exchange pnow now inow gid new cid form resource am s = (r, s') →
  (∃ e, r = Err e) ∧
  (r = Err reuse_detected → ∃ cr, credentials s !! digest (pget "refresh_token" form) = Some cr ∧
     s' = with_grants (alter revoke cr.(cr_grant)) (_prune pnow s)).
Proof.
  intros I U Hf E.
  apply exchange_cases in E as [[_ (e & -> & N)]|[(t & _ & ? & _)|[_ X]]]; [|congruence|].
  { split; [eauto|]. intros [= ->]. by destruct N. }
  apply exchange_refresh_ok in X as (cr & g & Ec & _ & _ & _ & _ & _ & _ & Alt).
  destruct (prune_follows _ pnow s _ Ec) as (cr0 & E0 & Hg & Hu & _).
  specialize (Hu (U _ E0)). destruct Alt as [(_ & -> & ->)|(? & _)]; [|congruence].
  split; [eauto|]. intros _. exists cr0. rewrite Hg. auto.
Qed.

(** C4: refresh tokens rotate: once a refresh token has been exchanged, every
    later presentation of it fails, and when it is reported as reuse its whole
    grant dies: each access token of the grant, the freshly issued one
    included, is refused from then on, through any later calls. *)
Theorem oauth_refresh_reuse pnow now inow gid new cid form resource am s tok s1 ops
    pnow' now' inow' gid' new' cid' form' resource' am' r s3 :
  inv s →
  exchange pnow now inow gid new cid form resource am s = (Ok tok, s1) →
  form !! "grant_type"%string = Some "refresh_token"%string →
  Forall named ops → Forall (λ o, ¬ mints (digest (pget "refresh_token" form)) o) ops →
  let s2 := foldl exec s1 ops in
  form' !! "grant_type"%string = Some "refresh_token"%string →
  pget "refresh_token" form' = pget "refresh_token" form →
  exchange pnow' now' inow' gid' new' cid' form' resource' am' s2 = (r, s3) →
  (∃ e, r = Err e) ∧
  (r = Err reuse_detected →
   ∀ secret ops' any_connection,
     secret = tok.(access_token) ∨
       (∃ ca cr, credentials s2 !! digest secret = Some ca ∧
          credentials s2 !! digest (pget "refresh_token" form) = Some cr ∧
          ca.(cr_grant) = cr.(cr_grant)) →
     Forall (λ o, ¬ mints (digest secret) o) ops →
     Forall named ops' → Forall (λ o, ¬ mints (digest secret) o) ops' →
     refused any_connection secret (foldl exec s3 ops')).
Proof.
  intros I E Hf N M s2 Hf' Hr E'.
  assert (inv s1) as I1.
  { pose proof (exchange_inv pnow now inow gid new cid form resource am s I) as X. by rewrite E in X. }
  assert (inv s2) as I2 by (by apply run_inv).
  destruct (refresh_spends _ _ _ _ _ _ _ _ _ _ _ _ I E Hf) as (cr1 & ca1 & C1 & U1 & A1 & G1 & _).
  pose proof (run_follows _ _ _ I1 N M) as F.
  destruct (spent_refused _ _ _ _ _ _ _ _ _ _ _ _ I2 ltac:(rewrite Hr; intros cr Ec;
    destruct (F _ Ec) as (c & Ec1 & _ & U & _); apply U; congruence) Hf' E') as [Herr Hre].
  split; [exact Herr|]. intros Q secret ops' conn Hsame Ms N' M'.
  destruct (Hre Q) as (cr & Ec & ->). rewrite Hr in Ec.
  assert (∀ ca, credentials s2 !! digest secret = Some ca → ca.(cr_grant) = cr.(cr_grant)) as G.
  { intros ca Ea. destruct Hsame as [->|(ca' & cr' & ? & ? & ?)]; [|congruence].
    destruct (run_follows _ _ _ I1 N Ms _ Ea) as (ca0 & Ea0 & Hg & _).
    destruct (F _ Ec) as (c0 & Ec0 & Hg' & _). congruence. }
  pose proof (prune_inv pnow' s2 I2) as Ip.
  apply revoked_forever; [apply revoke_keeps; [exact Ip|apply alter_revoke_cases]|done|done|].
  intros ca Ea. cbn [credentials with_grants grants] in *.
  destruct (inv_credential_ref _ Ip _ _ Ea) as [g Eg].
  assert (ca.(cr_grant) = cr.(cr_grant)) as Hg.
  { destruct (prune_follows _ pnow' s2 _ Ea) as (ca0 & Ea0 & -> & _). by apply G. }
  exists (revoke g). rewrite Hg, lookup_alter_eq, <- Hg, Eg. done.
Qed.

Lemma oauth_refresh_reuse_witness :
  refused "conn" "a2" (foldl exec
    (exchange 6 6 6 "g3" {| new_access := "a3"; new_refresh := "r3" |} "conn" demo_refresh "r" "none"
       demo_second.2).2 [OTouch 7 7 "conn"]).
Proof.
  set (third := exchange 6 6 6 "g3" {| new_access := "a3"; new_refresh := "r3" |} "conn"
    demo_refresh "r" "none" demo_second.2).
  assert (third = (Err reuse_detected, third.2)) as E3
    by (rewrite <- demo_reuse; apply surjective_pairing).
  assert (∀ h, Forall (λ o, ¬ mints h o) [OTouch 7 7 "conn"]) as M
    by (intros h; repeat constructor; intros []).
  destruct (oauth_refresh_reuse 5 5 5 "g2" {| new_access := "a2"; new_refresh := "r2" |} "conn"
    demo_refresh "r" "none" demo_first.2 _ _ [] 6 6 6 "g3" {| new_access := "a3"; new_refresh := "r3" |}
    "conn" demo_refresh "r" "none" _ _ demo_first_inv demo_second_eq eq_refl
    (Forall_nil_2 _) (Forall_nil_2 _) eq_refl eq_refl E3) as [_ H].
  refine (H eq_refl "a2"%string [OTouch 7 7 "conn"] "conn"%string (or_introl eq_refl)
    (Forall_nil_2 _) _ (M _)). repeat constructor.
Defined.

(** A successful exchange yields an access token that its own connection
    accepts until one hour after it was issued or until the grant ends, thirty
    days after the code exchange, and that no other connection accepts. *)
Theorem oauth_token_lifetime pnow now inow gid new cid form resource am s tok s' :
  inv s →
  exchange pnow now inow gid new cid form resource am s = (Ok tok, s') →
  ∃ grant_end,
    (form !! "grant_type"%string = Some "authorization_code"%string →
       grant_end = now + REFRESH_SECONDS * sec_us) ∧
    (∀ t t', (∃ c, authenticate t t' cid tok.(access_token) s' = Ok c) ↔
       t < inow + ACCESS_SECONDS * sec_us ∧ t' < grant_end) ∧
    (∀ other, other ≠ cid → refused other tok.(access_token) s').
Proof.
  intros I E.
  assert (inv s') as I'.
  { pose proof (exchange_inv pnow now inow gid new cid form resource am s I) as X. by rewrite E in X. }
  assert (∃ ca g, credentials s' !! digest tok.(access_token) = Some ca ∧
    grants s' !! ca.(cr_grant) = Some g ∧ ca.(cr_kind) = access ∧
    ca.(cr_expires_at) = inow + ACCESS_SECONDS * sec_us ∧ g.(revoked) = false ∧
    g.(g_connection) = cid ∧
    (form !! "grant_type"%string = Some "authorization_code"%string →
       g.(g_expires_at) = now + REFRESH_SECONDS * sec_us)) as (ca & g & Ea & Eg & K & X & R & C & T).
  { apply exchange_cases in E as [[_ (e & ? & _)]|[(t & [= <-] & _ & X)|[Hf X]]]; [done| |].
    - apply exchange_code_ok in X as (rid & row & _ & _ & _ & _ & X).
      apply issue_ok in X as (-> & _ & _ & D & ->). do 2 eexists.
      cbn [credentials with_credentials access_token grants code_state with_connections with_grants].
      rewrite (lookup_insert_ne _ (digest (new_refresh new)) _ _ (λ Q, D (eq_sym Q))), lookup_insert_eq.
      split; [reflexivity|]. cbn [cr_grant]. rewrite lookup_insert_eq. repeat split.
    - apply exchange_refresh_ok in X
        as (cr & g & _ & Eg & _ & Hc & _ & Hr & _ & [(_ & ? & _)|(_ & t & [= <-] & X)]); [done|].
      apply issue_ok in X as (-> & _ & _ & D & ->). eexists. exists g.
      cbn [credentials with_credentials access_token grants].
      rewrite (lookup_insert_ne _ (digest (new_refresh new)) _ _ (λ Q, D (eq_sym Q))), lookup_insert_eq.
      split; [reflexivity|]. cbn [cr_grant]. split; [exact Eg|]. repeat split; [done..|congruence]. }
  destruct (inv_grant_conn _ _ _ I' Eg) as [c Ec]. rewrite C in Ec.
  exists g.(g_expires_at). split; [exact T|].
  assert (∀ t t' k, authenticate t t' k tok.(access_token) s' =
    if (t <? inow + ACCESS_SECONDS * sec_us) && (t' <? g.(g_expires_at)) && bool_decide (cid = k)
    then _connection k s' else Err (OAuthError "invalid_token" "Invalid or expired access token" 401)) as A.
  { intros t t' k. unfold authenticate. rewrite Ea, Eg, K, X, R, C. cbn [negb].
    rewrite (bool_decide_true (access = access)) by done. by rewrite andb_true_r. }
  split.
  - intros t t'. rewrite A, bool_decide_true, andb_true_r by done. unfold _connection. rewrite Ec.
    destruct (_ && _) eqn:G; bools; split; [eauto..|naive_solver|intros [? ?]; exfalso; lia].
  - intros other Ho t t'. rewrite A, (bool_decide_false (cid = other)), andb_false_r by congruence. eauto.
Qed.

(** moving a connection to another app or workspace ends its handshakes:
    afterwards none of its pending requests can be approved and none of its
    codes redeemed, while the grants and credentials are untouched. *)
Theorem oauth_rebind_clears cid cmt app ws s s' previous :
  inv s →
  update cid cmt app ws s = (Ok tt, s') →
  connections s !! cid = Some previous →
  (default previous.(app_id) app, default previous.(workspace) ws)
    ≠ (previous.(app_id), previous.(workspace)) →
  grants s' = grants s ∧ credentials s' = credentials s ∧
  (∀ rid row, requests s !! rid = Some row → row.(rq_connection) = cid →
     (∀ now later code expected, ∃ e, (approve now later code rid expected s').1 = Err e) ∧
     (∀ pnow now inow gid new form resource am,
        form !! "grant_type"%string = Some "authorization_code"%string →
        row.(code_hash) = Some (digest (pget "code" form)) →
        ∃ e, (exchange pnow now inow gid new cid form resource am s').1 = Err e)).
Proof.
  intros I U E Hne. unfold update, txn, _connection in U.
  destruct (check_comment _); [done|]. rewrite E, bool_decide_false in U by done.
  injection U as <-. split_and!; [done..|]. intros rid row Er Hc. split.
  - intros now later code expected. unfold approve, txn, _request. simpl.
    assert (filter (λ kv : string * request_row, kv.2.(rq_connection) ≠ cid) (requests s) !! rid = None) as ->.
    { apply map_lookup_filter_None. right. intros r. rewrite Er. intros [= <-] N. by apply N. }
    simpl. eauto.
  - intros pnow now inow gid new form resource am Hf Hh. apply no_code_refused; [|done].
    intros k r [Ek N]%map_lookup_filter_Some Hk. simpl in N.
    assert (k = rid) as -> by (by eapply (inv_code_unique _ I)). congruence.
Qed.
