(* ===== verification/Uploads.v ===== *)
(** * Uploads: resumable upload sessions

    Models src/openkapsel/files/uploads.py.  The state directory is part of the
    state: one metadata file per upload and one temporary file with the received
    bytes; an operation that raises may still have changed them, so every
    operation returns a result and the new state.  Timestamps are instants in
    microseconds (the texts the code writes read back as the same instant).
    Random identifiers, fresh inode numbers and the clock are arguments, and so
    is the I/O failure that an operation meets, if any.  A metadata file that
    cannot be decoded is [None]. *)

From Stdlib Require Import ZArith Lia Ascii String.
From stdpp Require Import base tactics list list_numbers gmap strings fin_maps sets.
From S2P Require Import Prelude Calendar Hashing.

Local Open Scope Z_scope.

Record UploadError := { status : Z; code : string; expected : Z; actual : Z }.

(** [details] is absent except for offset errors, and messages are left out; an
    exception of the file system that escapes is the code [OSError]. *)
Definition upload_error (status : Z) (code : string) : UploadError :=
  {| status := status; code := code; expected := 0; actual := 0 |}.

Record UploadRecord := {
  upload_id : string; owner : string; target_path : string; temp_path : string;
  temp_device : Z; temp_inode : Z; expected_size : Z; expected_sha256 : option string;
  offset : Z; create_parents : bool; created_at : Z; expires_at : Z;
  mapping_id : option string }.

Record disk_file := { regular : bool; device : Z; inode : Z; content : bytes }.

Record registry := Registry {
  records : gmap string UploadRecord;
  metas : gmap string (option UploadRecord);
  temps : gmap string disk_file }.

Record config := { ttl_seconds : Z; max_file_bytes : Z; max_incomplete_bytes : Z }.

(** What goes wrong while writing: the disk after [n] bytes of the chunk (of a new
    upload: opening the file for [0], a later call otherwise), or the metadata file. *)
Inductive fault := NoFault | WriteFault (n : nat) | SaveFault.

Abbreviation result := (res UploadError).

Definition owner_hash (token : string) : string := sha256_hex token.

Definition is_hex (c : ascii) : bool :=
  is_dec c || in_range 97 102 c || in_range 65 70 c.

Definition _valid_sha256 (value : string) : bool := (slen value =? 64) && str_forall is_hex value.

(** [state_dir / f".{upload_id}.part"], relative to the state directory. *)
Definition part_path (uid : string) : string := "." +:+ uid +:+ ".part".

(** ** Removal and expiry *)

Definition _remove_locked (st : registry) (r : UploadRecord) : registry :=
  Registry (delete r.(upload_id) (records st)) (delete r.(upload_id) (metas st))
    (delete r.(temp_path) (temps st)).

Definition expired (now : Z) (r : UploadRecord) : bool := r.(expires_at) <=? now.

Definition _purge_expired_locked (now : Z) (st : registry) : registry :=
  foldl (λ st kv, if expired now kv.2 then _remove_locked st kv.2 else st) st
    (map_to_list (records st)).

(** ** Creation and lookup *)

Definition reserved (st : registry) : Z := map_fold (λ _ r acc, r.(expected_size) + acc) 0 (records st).

Definition _save_locked (st : registry) (r : UploadRecord) : registry :=
  Registry (records st) (<[r.(upload_id) := Some r]> (metas st)) (temps st).

(** [uid] is the identifier the drawing loop settles on, one not in use; [now]
    and [later] are the clock at the purge and after the file was created. *)
Definition create (cfg : config) (now later : Z) (uid : string) (dev ino : Z) (io : fault)
    (token target : string) (size : Z) (sha : option string) (parents : bool)
    (mapping : option string) (st : registry) : result UploadRecord * registry :=
  if size <? 0 then (Err (upload_error 400 "invalid_size"), st)
  else if cfg.(max_file_bytes) <? size then (Err (upload_error 413 "file_too_large"), st)
  else if match sha with Some v => negb (_valid_sha256 v) | None => false end then
    (Err (upload_error 400 "invalid_sha256"), st)
  else
    let st := _purge_expired_locked now st in
    if cfg.(max_incomplete_bytes) <? reserved st + size then
      (Err (upload_error 507 "upload_quota_exceeded"), st)
    else
      match temps st !! part_path uid with
      | Some _ => (Err (upload_error 500 "upload_create_failed"), st)
      | None =>
          let file := {| regular := true; device := dev; inode := ino; content := [] |} in
          let r := {| upload_id := uid; owner := owner_hash token; target_path := target;
                      temp_path := part_path uid; temp_device := dev; temp_inode := ino;
                      expected_size := size;
                      expected_sha256 := match sha with
                                         | Some v => if is_empty v then None else Some (lower v)
                                         | None => None
                                         end;
                      offset := 0; create_parents := parents; created_at := later;
                      expires_at := later + cfg.(ttl_seconds) * sec_us; mapping_id := mapping |} in
          match io with
          | NoFault =>
              (Ok r, _save_locked (Registry (<[uid := r]> (records st)) (metas st)
                                     (<[part_path uid := file]> (temps st))) r)
          | WriteFault 0 => (Err (upload_error 500 "upload_create_failed"), st)
          | WriteFault (S _) =>
              (* the new file stays *)
              (Err (upload_error 500 "upload_create_failed"),
               Registry (records st) (metas st) (<[part_path uid := file]> (temps st)))
          | SaveFault =>
              (* the record is dropped again and the new file unlinked *)
              (Err (upload_error 500 "OSError"), st)
          end
      end.

Definition not_found : UploadError := upload_error 404 "upload_not_found".

Definition get (now : Z) (uid token : string) (st : registry) : result UploadRecord * registry :=
  let st := _purge_expired_locked now st in
  (match records st !! uid with
   | Some r => if String.eqb r.(owner) (owner_hash token) then Ok r else Err not_found
   | None => Err not_found
   end, st).

(** ** Temporary files *)

Definition temp_changed : UploadError := upload_error 409 "upload_temp_changed".

(** The content of the temporary file the record names, if it is still the file
    that was created. *)
Definition _open_temp (r : UploadRecord) (st : registry) : result bytes :=
  match temps st !! r.(temp_path) with
  | Some f =>
      if f.(regular) && (f.(device) =? r.(temp_device)) && (f.(inode) =? r.(temp_inode))
      then Ok f.(content) else Err temp_changed
  | None => Err temp_changed
  end.

Definition set_content (c : bytes) (f : disk_file) : disk_file :=
  {| regular := f.(regular); device := f.(device); inode := f.(inode); content := c |}.

Definition write_temp (r : UploadRecord) (c : bytes) (st : registry) : registry :=
  Registry (records st) (metas st) (alter (set_content c) r.(temp_path) (temps st)).

Definition CHUNK : Z := 1024 * 1024.

(** [stream.read(n)]: at most [n] bytes, fewer only at the end. *)
Definition read (n : Z) (l : bytes) : bytes :=
  take (Z.to_nat (Z.min n (Z.of_nat (length l)))) l.

(** Writing [data] at position [pos]: a gap is filled with zeros. *)
Definition write_at (pos : nat) (data c : bytes) : bytes :=
  take pos (c ++ replicate (pos - length c) 0) ++ data ++ drop (pos + length data) c.

(** The copy loop of [append]: whether the body was complete, and the file. *)
Fixpoint write_loop (fuel : nat) (remaining : Z) (body : bytes) (pos : nat) (c : bytes) : bool * bytes :=
  match fuel with
  | O => (false, c)
  | S fuel' =>
      if remaining =? 0 then (true, c)
      else
        match read (Z.min remaining CHUNK) body with
        | [] => (false, c)
        | chunk =>
            write_loop fuel' (remaining - Z.of_nat (length chunk)) (drop (length chunk) body)
              (pos + length chunk) (write_at pos chunk c)
        end
  end.

Definition set_offset (o : Z) (r : UploadRecord) : UploadRecord :=
  {| upload_id := r.(upload_id); owner := r.(owner); target_path := r.(target_path);
     temp_path := r.(temp_path); temp_device := r.(temp_device); temp_inode := r.(temp_inode);
     expected_size := r.(expected_size); expected_sha256 := r.(expected_sha256); offset := o;
     create_parents := r.(create_parents); created_at := r.(created_at);
     expires_at := r.(expires_at); mapping_id := r.(mapping_id) |}.

(** The writing part of [append], on the opened file with content [c]. *)
Definition write_body (io : fault) (uid : string) (r : UploadRecord) (c body : bytes) (len : Z)
    (st : registry) : result UploadRecord * registry :=
  let pos := Z.to_nat r.(offset) in
  match io with
  | WriteFault n =>
      (Err (upload_error 500 "upload_write_failed"),
       write_temp r (write_at pos (take n (take (Z.to_nat len) body)) c) st)
  | _ =>
      let '(complete, c') := write_loop (S (Z.to_nat len)) len body pos c in
      if negb complete then
        (Err (upload_error 400 "incomplete_body"), write_temp r (take pos c') st)
      else
        let r' := set_offset (r.(offset) + len) r in
        let st := write_temp r c' st in
        let st := Registry (<[uid := r']> (records st)) (metas st) (temps st) in
        match io with
        | SaveFault => (Err (upload_error 500 "OSError"), st)
        | _ => (Ok r', _save_locked st r')
        end
  end.

Definition append (now : Z) (io : fault) (uid token : string) (off : Z) (body : bytes) (len : Z)
    (st : registry) : result UploadRecord * registry :=
  if len <? 0 then (Err (upload_error 400 "invalid_length"), st)
  else
    let '(found, st) := get now uid token st in
    match found with
    | Err e => (Err e, st)
    | Ok r =>
        if negb (off =? r.(offset)) then
          (Err {| status := 409; code := "upload_offset_mismatch"; expected := r.(offset);
                  actual := off |}, st)
        else if r.(expected_size) <? r.(offset) + len then
          (Err (upload_error 413 "upload_too_large"), st)
        else
          match _open_temp r st with
          | Err e => (Err e, st)
          | Ok c => write_body io uid r c body len st
          end
    end.

(** ** Completion *)

(** Reading a file to its end in pieces: the pieces that were read. *)
Fixpoint read_loop (fuel : nat) (c : bytes) : list bytes :=
  match fuel with
  | O => []
  | S fuel' =>
      match read CHUNK c with
      | [] => []
      | chunk => chunk :: read_loop fuel' (drop (length chunk) c)
      end
  end.

Definition read_chunks (c : bytes) : list bytes := read_loop (S (length c)) c.

Definition incomplete (r : UploadRecord) : UploadError :=
  {| status := 409; code := "upload_incomplete"; expected := r.(expected_size);
     actual := r.(offset) |}.

Definition verify (now : Z) (uid token : string) (st : registry)
    : result (UploadRecord * string) * registry :=
  let '(found, st) := get now uid token st in
  (let! r := found in
   raise! (incomplete r) when negb (r.(offset) =? r.(expected_size));
   let! c := _open_temp r st in
   let digest := hex (Sha256.sha256 (concat (read_chunks c))) in
   raise! (upload_error 422 "checksum_mismatch")
     when match r.(expected_sha256) with
          | Some e => negb (String.eqb e digest)
          | None => false
          end;
   Ok (r, digest), st).

(** The bytes written to [destination] so far are part of the result. *)
Definition copy_to (now : Z) (uid token : string) (st : registry)
    : result UploadRecord * bytes * registry :=
  let '(found, st) := get now uid token st in
  match found with
  | Err e => (Err e, [], st)
  | Ok r =>
      if negb (r.(offset) =? r.(expected_size)) then (Err (incomplete r), [], st)
      else
        match _open_temp r st with
        | Err e => (Err e, [], st)
        | Ok c =>
            let copied := concat (read_chunks c) in
            (if Z.of_nat (length copied) =? r.(expected_size) then Ok r else Err temp_changed,
             copied, st)
        end
  end.

Definition finish (uid token : string) (st : registry) : result unit * registry :=
  match records st !! uid with
  | Some r =>
      if String.eqb r.(owner) (owner_hash token) then
        (Ok tt, Registry (delete uid (records st)) (delete r.(upload_id) (metas st))
                  (delete r.(temp_path) (temps st)))
      else (Err not_found, st)
  | None => (Err not_found, st)
  end.

Definition cancel (now : Z) (uid token : string) (st : registry) : result UploadRecord * registry :=
  let '(found, st) := get now uid token st in
  match found with
  | Ok r => (Ok r, _remove_locked st r)
  | Err e => (Err e, st)
  end.

Definition assert_temp_unchanged (now : Z) (uid token : string) (st : registry)
    : result UploadRecord * registry :=
  let '(found, st) := get now uid token st in
  (let! r := found in let! _ := _open_temp r st in Ok r, st).

(** ** Restart *)

Definition load_ok (uid : string) (r : UploadRecord) (f : disk_file) : bool :=
  String.eqb r.(upload_id) uid && f.(regular) && (f.(device) =? r.(temp_device))
  && (f.(inode) =? r.(temp_inode)) && (0 <=? r.(offset)) && (r.(offset) <=? r.(expected_size))
  && (r.(offset) <=? Z.of_nat (length f.(content))).

(** One metadata file, named after [uid]. *)
Definition load_one (st : registry) (entry : string * option UploadRecord) : registry :=
  let '(uid, payload) := entry in
  let unlink := Registry (records st) (delete uid (metas st)) (temps st) in
  match payload with
  | None => unlink
  | Some r =>
      match temps st !! r.(temp_path) with
      | None => unlink
      | Some f =>
          if load_ok uid r f then
            Registry (<[r.(upload_id) := r]> (records st)) (metas st)
              (<[r.(temp_path) := set_content (take (Z.to_nat r.(offset)) f.(content)) f]> (temps st))
          else unlink
      end
  end.

(** A new process on the same state directory. *)
Definition _load (now : Z) (st : registry) : registry :=
  _purge_expired_locked now
    (foldl load_one (Registry ∅ (metas st) (temps st)) (map_to_list (metas st))).

(** ** The invariant *)

(** An upload in progress: its file is the one that was created, holds at least
    the acknowledged bytes and no more than the declared size, and its metadata
    differs at most by an older offset. *)
Record wf_record (cfg : config) (st : registry) (uid : string) (r : UploadRecord) : Prop := {
  wf_id : r.(upload_id) = uid;
  wf_path : r.(temp_path) = part_path uid;
  wf_offset : 0 ≤ r.(offset) ≤ r.(expected_size);
  wf_size : r.(expected_size) ≤ cfg.(max_file_bytes);
  wf_file : ∃ f, temps st !! part_path uid = Some f ∧ f.(regular) = true ∧
    f.(device) = r.(temp_device) ∧ f.(inode) = r.(temp_inode) ∧
    r.(offset) ≤ Z.of_nat (length f.(content)) ≤ r.(expected_size);
  wf_meta : ∃ o, metas st !! uid = Some (Some (set_offset o r)) ∧ 0 ≤ o ≤ r.(offset) }.

Record inv (cfg : config) (st : registry) : Prop := {
  inv_records : ∀ uid r, records st !! uid = Some r → wf_record cfg st uid r;
  inv_metas : ∀ uid m, metas st !! uid = Some m → is_Some (records st !! uid);
  inv_quota : reserved st ≤ cfg.(max_incomplete_bytes) }.

Definition empty_registry : registry := Registry ∅ ∅ ∅.

Lemma upload_empty_inv cfg : 0 ≤ cfg.(max_incomplete_bytes) → inv cfg empty_registry.
Proof. by split. Qed.

(** *** Paths *)

Lemma str_app_inj_r a b c : a +:+ c = b +:+ c → a = b.
Proof.
  intros H. assert (String.length a = String.length b) as L.
  { apply (f_equal String.length) in H. rewrite !Base64.str_length_app in H. lia. }
  revert b H L. induction a as [|x a IH]; intros [|y b] H L; simpl in L; try lia; [done|].
  rewrite !str_app_cons in H. injection H as -> H. f_equal. apply IH; [done|lia].
Qed.

Lemma part_path_inj a b : part_path a = part_path b → a = b.
Proof. unfold part_path. intros H. injection H as H. exact (str_app_inj_r a b ".part" H). Qed.

(** *** Sums of sizes *)

Lemma reserved_insert (m : gmap string UploadRecord) uid r ms ts :
  m !! uid = None →
  reserved (Registry (<[uid := r]> m) ms ts) = r.(expected_size) + reserved (Registry m ms ts).
Proof.
  intros H. unfold reserved. simpl.
  apply (map_fold_insert_L (λ _ (x : UploadRecord) acc, x.(expected_size) + acc) 0 uid r m);
    [intros; lia|done].
Qed.

Lemma reserved_mono (m1 m2 : gmap string UploadRecord) ms ts ms' ts' :
  (∀ k r, m1 !! k = Some r → ∃ r', m2 !! k = Some r' ∧ r.(expected_size) = r'.(expected_size)) →
  (∀ k r, m2 !! k = Some r → 0 ≤ r.(expected_size)) →
  reserved (Registry m1 ms ts) ≤ reserved (Registry m2 ms' ts').
Proof.
  revert m2. induction m1 as [|k r m1 Hk IH] using map_ind; intros m2 H P.
  - clear H. induction m2 as [|k r m2 Hk IH] using map_ind; [done|].
    rewrite (reserved_insert m2) by done. specialize (P k r (lookup_insert_eq _ _ _)) as Pk.
    assert (reserved (Registry ∅ ms ts) ≤ reserved (Registry m2 ms' ts')); [|lia].
    apply IH. intros k' r' E. apply (P k'). rewrite lookup_insert_ne; [done|congruence].
  - destruct (H k r (lookup_insert_eq _ _ _)) as (r' & E & Hs).
    rewrite <- (insert_delete_id m2 k r') by done.
    rewrite !reserved_insert by (done || apply lookup_delete_eq). rewrite Hs.
    apply Z.add_le_mono_l. apply IH.
    + intros k' x E'. assert (k' ≠ k) by congruence.
      destruct (H k' x) as (y & ? & ?); [by rewrite lookup_insert_ne|].
      exists y. by rewrite lookup_delete_ne.
    + intros k' x [_ E']%lookup_delete_Some. eauto.
Qed.

(** *** Purging *)

Lemma foldl_delete {A B} (f : A → string) (l : list A) (m : gmap string B) k :
  foldl (λ m x, delete (f x) m) m l !! k = if decide (k ∈ f <$> l) then None else m !! k.
Proof.
  revert m. induction l as [|x l IH]; intros m; simpl; [done|]. rewrite IH.
  destruct (decide (k ∈ f <$> l)); [by rewrite decide_True by set_solver|].
  destruct (decide (k = f x)) as [->|]; [rewrite lookup_delete_eq|rewrite lookup_delete_ne by done];
    case_decide; set_solver.
Qed.

Definition expired_list (now : Z) (st : registry) : list UploadRecord :=
  filter (λ r, expired now r = true) (map_to_list (records st)).*2.

Lemma purge_fold now st :
  _purge_expired_locked now st =
  Registry (foldl (λ m r, delete r.(upload_id) m) (records st) (expired_list now st))
    (foldl (λ m r, delete r.(upload_id) m) (metas st) (expired_list now st))
    (foldl (λ m r, delete r.(temp_path) m) (temps st) (expired_list now st)).
Proof.
  unfold _purge_expired_locked, expired_list. generalize (map_to_list (records st)) as l.
  destruct st as [a b c]. simpl. intros l. revert a b c.
  induction l as [|[k r] l IH]; intros a b c; [done|]. simpl.
  destruct (expired now r) eqn:E.
  - rewrite filter_cons_True by done. simpl. apply IH.
  - rewrite filter_cons_False by congruence. apply IH.
Qed.

Lemma elem_expired now st r :
  r ∈ expired_list now st ↔ r.(expires_at) ≤ now ∧ ∃ k, records st !! k = Some r.
Proof.
  unfold expired_list, expired. rewrite list_elem_of_filter, list_elem_of_fmap.
  rewrite Z.leb_le. split.
  - intros [? ([k x] & -> & H)]. apply elem_of_map_to_list in H. eauto.
  - intros [? [k E]]. split; [done|]. exists (k, r). split; [done|]. by apply elem_of_map_to_list.
Qed.

Section purge.
Context (cfg : config) (now : Z) (st : registry) (I : inv cfg st).

Lemma expired_key r : r ∈ expired_list now st →
  records st !! r.(upload_id) = Some r ∧ r.(temp_path) = part_path r.(upload_id) ∧ r.(expires_at) ≤ now.
Proof.
  intros [L [k E]]%elem_expired. pose proof (inv_records _ _ I _ _ E) as W.
  rewrite (wf_id _ _ _ _ W), (wf_path _ _ _ _ W). done.
Qed.

Lemma purge_records k r :
  records (_purge_expired_locked now st) !! k = Some r ↔
  records st !! k = Some r ∧ now < r.(expires_at).
Proof.
  rewrite purge_fold. simpl. rewrite foldl_delete. case_decide as D.
  - split; [done|]. intros [E L]. apply list_elem_of_fmap in D as (x & -> & Hx).
    apply expired_key in Hx as (Ex & _ & ?). rewrite E in Ex. simplify_eq. lia.
  - split; [|tauto]. intros E. split; [done|]. destruct (Z.le_gt_cases r.(expires_at) now); [|lia].
    destruct D. apply list_elem_of_fmap. exists r.
    split; [by rewrite (wf_id _ _ _ _ (inv_records _ _ I _ _ E))|]. apply elem_expired. eauto.
Qed.

Lemma purge_keeps k r :
  records st !! k = Some r → now < r.(expires_at) →
  temps (_purge_expired_locked now st) !! part_path k = temps st !! part_path k ∧
  metas (_purge_expired_locked now st) !! k = metas st !! k.
Proof.
  intros E L. rewrite purge_fold. simpl. rewrite !foldl_delete.
  rewrite !decide_False; [done|..]; intros (x & Hp & Hx)%list_elem_of_fmap;
    apply expired_key in Hx as (Ex & Hpath & ?).
  - subst k. rewrite E in Ex. simplify_eq. lia.
  - rewrite Hpath in Hp. apply part_path_inj in Hp. subst k. rewrite E in Ex. simplify_eq. lia.
Qed.

Lemma purge_metas k m :
  metas (_purge_expired_locked now st) !! k = Some m →
  metas st !! k = Some m ∧ is_Some (records (_purge_expired_locked now st) !! k).
Proof.
  rewrite purge_fold. simpl. rewrite !foldl_delete. case_decide; [done|].
  intros E. split; [done|]. by eapply inv_metas.
Qed.

Lemma purge_inv : inv cfg (_purge_expired_locked now st).
Proof.
  split.
  - intros k r [E L]%purge_records. destruct (purge_keeps _ _ E L) as [Ht Hm].
    destruct (inv_records _ _ I _ _ E). split; rewrite ?Ht, ?Hm; done.
  - intros k m [_ ?]%purge_metas. done.
  - etrans; [|apply (inv_quota _ _ I)].
    destruct st as [a b c]. rewrite purge_fold. simpl. apply reserved_mono.
    + intros k r. rewrite foldl_delete. case_decide; [done|]. eauto.
    + intros k r E. pose proof (wf_offset _ _ _ _ (inv_records _ _ I k r E)). lia.
Qed.

End purge.

(** ** Acknowledged bytes *)

(** The bytes an upload has confirmed to its client. *)
Definition acked (st : registry) (uid : string) : option bytes :=
  r ← records st !! uid;
  f ← temps st !! part_path uid;
  Some (take (Z.to_nat r.(offset)) f.(content)).

Lemma purge_acked cfg now st uid r :
  inv cfg st → records st !! uid = Some r → now < r.(expires_at) →
  acked (_purge_expired_locked now st) uid = acked st uid.
Proof.
  intros I E L. unfold acked. rewrite (proj1 (purge_keeps _ now _ I _ _ E L)).
  by rewrite E, (proj2 (purge_records _ now _ I _ _) (conj E L)).
Qed.

Lemma get_ok cfg now uid token st r st' :
  inv cfg st → get now uid token st = (Ok r, st') →
  st' = _purge_expired_locked now st ∧ inv cfg st' ∧ records st' !! uid = Some r ∧
  records st !! uid = Some r ∧ now < r.(expires_at) ∧ r.(owner) = owner_hash token.
Proof.
  intros I H. unfold get in H. set (s := _purge_expired_locked now st) in *.
  destruct (records s !! uid) as [x|] eqn:E; [|done].
  destruct (String.eqb_spec x.(owner) (owner_hash token)); [|done]. injection H as <- <-.
  assert (inv cfg s) by by apply purge_inv.
  pose proof E as E'. apply (purge_records _ _ _ I) in E'. naive_solver.
Qed.

Lemma get_state now uid token st : (get now uid token st).2 = _purge_expired_locked now st.
Proof. done. Qed.

(** *** File contents *)

Lemma write_at_in pos data c :
  (pos ≤ length c)%nat → write_at pos data c = take pos c ++ data ++ drop (pos + length data) c.
Proof.
  intros H. unfold write_at. replace (pos - length c)%nat with 0%nat by lia. simpl.
  by rewrite app_nil_r.
Qed.

Lemma write_at_prefix pos data c :
  (pos ≤ length c)%nat → take (pos + length data) (write_at pos data c) = take pos c ++ data.
Proof.
  intros H. rewrite write_at_in by done. rewrite app_assoc, take_app_length'; [done|].
  rewrite length_app, length_take. lia.
Qed.

Lemma write_at_length pos data c :
  (pos ≤ length c)%nat → length (write_at pos data c) = Nat.max (length c) (pos + length data).
Proof.
  intros H. rewrite write_at_in by done. rewrite !length_app, length_take, length_drop. lia.
Qed.

Lemma write_at_app pos a b c :
  (pos ≤ length c)%nat → write_at (pos + length a) b (write_at pos a c) = write_at pos (a ++ b) c.
Proof.
  intros H. rewrite (write_at_in (pos + length a)) by (rewrite write_at_length by done; lia).
  rewrite write_at_prefix by done. rewrite !write_at_in by done. rewrite length_app, <- !app_assoc.
  f_equal. f_equal. f_equal. rewrite !app_assoc, drop_app, drop_drop.
  rewrite (drop_ge (take pos c ++ a)) by (rewrite length_app, length_take; lia). simpl.
  f_equal. rewrite length_app, length_take. lia.
Qed.

Lemma read_nil n l : 0 < n → read n l = [] → l = [].
Proof.
  unfold read. intros Hn H. destruct l as [|x l]; [done|]. exfalso.
  apply (f_equal length) in H. rewrite length_take in H. simpl in H. lia.
Qed.

Lemma read_length n l : 0 ≤ n → length (read n l) = Z.to_nat (Z.min n (Z.of_nat (length l))).
Proof. unfold read. intros Hn. rewrite length_take. lia. Qed.

Lemma read_prefix n l : l = read n l ++ drop (length (read n l)) l.
Proof.
  unfold read. rewrite length_take.
  set (k := Z.to_nat _). assert (k ≤ length l)%nat by lia.
  rewrite Nat.min_l by done. by rewrite take_drop.
Qed.

Lemma write_loop_spec fuel remaining body pos c :
  0 ≤ remaining → (Z.to_nat remaining < fuel)%nat → (pos ≤ length c)%nat →
  write_loop fuel remaining body pos c =
    if remaining <=? Z.of_nat (length body)
    then (true, write_at pos (take (Z.to_nat remaining) body) c)
    else (false, write_at pos body c).
Proof.
  revert remaining body pos c. induction fuel as [|fuel IH]; intros remaining body pos c Hr Hf Hp; [lia|].
  cbn [write_loop]. destruct (Z.eqb_spec remaining 0) as [->|Hne].
  { rewrite (proj2 (Z.leb_le _ _)) by lia. simpl. f_equal.
    rewrite write_at_in by done. simpl. rewrite Nat.add_0_r. by rewrite take_drop. }
  set (n := Z.min remaining CHUNK). assert (0 < n) by (unfold n, CHUNK; lia).
  pose proof (read_prefix n body) as Hb. pose proof (read_length n body ltac:(lia)) as Hl.
  destruct (read n body) as [|x chunk] eqn:E.
  - apply read_nil in E; [|done]. subst body. simpl.
    rewrite (proj2 (Z.leb_gt _ _)) by lia. f_equal. rewrite write_at_in by done. simpl.
    rewrite Nat.add_0_r. by rewrite take_drop.
  - set (ch := x :: chunk) in *. assert (0 < length ch)%nat by (unfold ch; simpl; lia).
    clearbody ch.
    set (rest := drop (length ch) body) in *.
    assert (length body = length ch + length rest)%nat as Hlen by (rewrite Hb at 1; by rewrite length_app).
    assert (Z.of_nat (length ch) ≤ remaining) by (subst n; lia).
    rewrite IH; [|lia|lia|rewrite write_at_length by done; lia].
    rewrite !write_at_app by done.
    destruct (Z.leb_spec (remaining - Z.of_nat (length ch)) (Z.of_nat (length rest))).
    + rewrite (proj2 (Z.leb_le _ _)) by lia. f_equal. f_equal. rewrite Hb.
      rewrite take_app, (take_ge ch) by lia. f_equal. f_equal. lia.
    + rewrite (proj2 (Z.leb_gt _ _)) by lia. by rewrite <- Hb.
Qed.

Lemma read_loop_concat fuel c : (length c < fuel)%nat → concat (read_loop fuel c) = c.
Proof.
  revert c. induction fuel as [|fuel IH]; intros c H; [lia|]. simpl.
  pose proof (read_prefix CHUNK c) as Hc.
  destruct (read CHUNK c) as [|x chunk] eqn:E.
  - by apply read_nil in E.
  - cbn [concat]. rewrite IH; [by symmetry|]. apply (f_equal length) in Hc.
    rewrite length_app, length_drop in *. simpl in *. lia.
Qed.

Lemma read_chunks_concat c : concat (read_chunks c) = c.
Proof. apply read_loop_concat. lia. Qed.

(** *** Updating one upload *)

Lemma open_temp_ok cfg st uid r :
  inv cfg st → records st !! uid = Some r →
  ∃ f, temps st !! part_path uid = Some f ∧ _open_temp r st = Ok f.(content) ∧
    r.(offset) ≤ Z.of_nat (length f.(content)) ≤ r.(expected_size).
Proof.
  intros I E. destruct (inv_records _ _ I _ _ E) as [Hid Hp Ho Hs (f & Ef & R & D & N & L) _].
  exists f. unfold _open_temp. rewrite Hp, Ef, R, D, N, !Z.eqb_refl. done.
Qed.

Lemma acked_eq st uid r f :
  records st !! uid = Some r → temps st !! part_path uid = Some f →
  acked st uid = Some (take (Z.to_nat r.(offset)) f.(content)).
Proof. intros E F. unfold acked. by rewrite E; simpl; rewrite F. Qed.

Lemma write_temp_inv cfg st uid r f c :
  inv cfg st → records st !! uid = Some r → temps st !! part_path uid = Some f →
  r.(offset) ≤ Z.of_nat (length c) ≤ r.(expected_size) →
  inv cfg (write_temp r c st).
Proof.
  intros I E F L. pose proof (inv_records _ _ I _ _ E) as W. split; [|apply I|apply I].
  intros k x Ek. simpl in Ek. destruct (inv_records _ _ I _ _ Ek) as [Hid Hp Ho Hs Hf Hm].
  split; [done..| |done]. simpl. rewrite (wf_path _ _ _ _ W).
  destruct (decide (k = uid)) as [->|Hne].
  - rewrite lookup_alter_eq, F. rewrite E in Ek. simplify_eq.
    destruct Hf as (f0 & F0 & ? & ? & ? & _). rewrite F in F0. simplify_eq.
    exists (set_content c f0). done.
  - rewrite lookup_alter_ne; [done|]. intros Q%part_path_inj. congruence.
Qed.

Lemma write_temp_other st uid r c k :
  r.(temp_path) = part_path uid → k ≠ uid → acked (write_temp r c st) k = acked st k.
Proof.
  intros Hp Hne. unfold acked. simpl. rewrite Hp, lookup_alter_ne; [done|].
  intros Q%part_path_inj. congruence.
Qed.

(** Advancing the offset in memory, and then in the metadata. *)
Lemma advance_inv cfg st uid r f o :
  inv cfg st → records st !! uid = Some r → temps st !! part_path uid = Some f →
  r.(offset) ≤ o ≤ Z.of_nat (length f.(content)) →
  let st' := Registry (<[uid := set_offset o r]> (records st)) (metas st) (temps st) in
  inv cfg st' ∧ inv cfg (_save_locked st' (set_offset o r)).
Proof.
  intros I E F L st'. destruct (inv_records _ _ I _ _ E) as [Hid Hp Ho Hs (f0 & F0 & R & D & N & B) (m & Em & Lm)].
  rewrite F in F0. injection F0 as <-.
  assert (reserved st' ≤ max_incomplete_bytes cfg) as Q.
  { etrans; [|apply (inv_quota _ _ I)]. unfold st'. destruct st as [a b c]. apply reserved_mono; simpl in *.
    - intros k x. rewrite lookup_insert. case_decide; [|eauto]. subst. intros [= <-]. eauto.
    - intros k x Ex. pose proof (wf_offset _ _ _ _ (inv_records _ _ I k x Ex)). lia. }
  split.
  - split; [| |done].
    + intros k x. simpl. rewrite lookup_insert. case_decide.
      * intros [= <-]. subst k. split; simpl; [done|done|lia|done|exists f; split_and!; done || lia|].
        exists m. split; [exact Em|lia].
      * intros Ex. by destruct (inv_records _ _ I _ _ Ex).
    + intros k x Ex. simpl. rewrite lookup_insert. case_decide; [eauto|by eapply inv_metas].
  - split; [| |done].
    + intros k x. simpl. rewrite lookup_insert. case_decide.
      * intros [= <-]. subst k. split; simpl; [done|done|lia|done|exists f; split_and!; done || lia|].
        exists o. rewrite Hid, lookup_insert_eq. split; [done|lia].
      * intros Ex. destruct (inv_records _ _ I _ _ Ex). split; try done. simpl.
        rewrite Hid, lookup_insert_ne by congruence. done.
    + intros k x. simpl. rewrite Hid, !lookup_insert. case_decide; [eauto|]. apply (inv_metas _ _ I).
Qed.

(** *** What [append] does *)

(** The uploads other than [uid] that are still alive keep their bytes. *)
Definition others_kept (now : Z) (uid : string) (st st' : registry) : Prop :=
  ∀ k r, k ≠ uid → records st !! k = Some r → now < r.(expires_at) →
    records st' !! k = Some r ∧ acked st' k = acked st k ∧ metas st' !! k = metas st !! k.

Lemma purge_others cfg now uid st :
  inv cfg st → others_kept now uid st (_purge_expired_locked now st).
Proof.
  intros I k r _ E L. split_and!; [by apply (purge_records _ _ _ I)|by eapply purge_acked|].
  by apply (purge_keeps _ _ _ I k r).
Qed.

Lemma others_write now uid st st' r c :
  others_kept now uid st st' → r.(temp_path) = part_path uid →
  others_kept now uid st (write_temp r c st').
Proof.
  intros H Hp k x Hne E L. destruct (H k x Hne E L) as (Er & Ea & Em).
  split_and!; [done|by rewrite (write_temp_other _ uid)|done].
Qed.

Lemma others_record now uid st st' r ms :
  others_kept now uid st st' → (∀ k, k ≠ uid → ms !! k = metas st' !! k) →
  others_kept now uid st (Registry (<[uid := r]> (records st')) ms (temps st')).
Proof.
  intros H Hm k x Hne E L. destruct (H k x Hne E L) as (Er & Ea & Em). unfold acked in *. simpl.
  rewrite lookup_insert_ne, Hm by done. done.
Qed.

(** Bytes beyond the offset do not count. *)
Lemma write_beyond cfg st uid r f c :
  inv cfg st → records st !! uid = Some r → temps st !! part_path uid = Some f →
  take (Z.to_nat r.(offset)) c = take (Z.to_nat r.(offset)) f.(content) →
  r.(offset) ≤ Z.of_nat (length c) ≤ r.(expected_size) →
  inv cfg (write_temp r c st) ∧ acked (write_temp r c st) uid = acked st uid.
Proof.
  intros I E F T L. split; [by eapply write_temp_inv|].
  rewrite (acked_eq _ _ _ _ E F), (acked_eq _ _ r (set_content c f)); [simpl; by rewrite T|done|].
  simpl. rewrite (wf_path _ _ _ _ (inv_records _ _ I _ _ E)), lookup_alter_eq, F. done.
Qed.

(** Storing bytes past the offset and advancing it acknowledges them. *)
Lemma store_chunk cfg st uid r f data o :
  inv cfg st → records st !! uid = Some r → temps st !! part_path uid = Some f →
  o = r.(offset) + Z.of_nat (length data) → o ≤ r.(expected_size) →
  let c := write_at (Z.to_nat r.(offset)) data f.(content) in
  let st1 := write_temp r c st in
  let st2 := Registry (<[uid := set_offset o r]> (records st1)) (metas st1) (temps st1) in
  inv cfg st2 ∧ inv cfg (_save_locked st2 (set_offset o r)) ∧
  acked st2 uid = Some (take (Z.to_nat r.(offset)) f.(content) ++ data).
Proof.
  intros I E F -> Le c st1 st2.
  destruct (inv_records _ _ I _ _ E) as [Hid Hp Ho Hs (f0 & F0 & _ & _ & _ & Lf) _].
  rewrite F in F0. injection F0 as <-.
  assert (Z.to_nat r.(offset) ≤ length f.(content))%nat as Hpos by lia.
  assert (Z.of_nat (length c) = Z.max (Z.of_nat (length f.(content))) (r.(offset) + Z.of_nat (length data)))
    as Lc by (unfold c; rewrite write_at_length by done; lia).
  assert (temps st1 !! part_path uid = Some (set_content c f)) as F1.
  { simpl. by rewrite Hp, lookup_alter_eq, F. }
  assert (inv cfg st1) as I1 by (eapply write_temp_inv; [done..|lia]).
  destruct (advance_inv cfg st1 uid r (set_content c f) (r.(offset) + Z.of_nat (length data)) I1 E F1)
    as [I2 I3]; [simpl; lia|]. split_and!; [exact I2|exact I3|].
  rewrite (acked_eq st2 uid (set_offset (r.(offset) + Z.of_nat (length data)) r) (set_content c f));
    [|apply lookup_insert_eq|exact F1]. simpl. f_equal. unfold c.
  rewrite <- (write_at_prefix (Z.to_nat r.(offset))) by done. f_equal. lia.
Qed.

(** The answer to an append whose bytes were stored and whose metadata was not: the
    exception of the file system escapes. *)
Definition unsaved (e : UploadError) : bool := String.eqb e.(code) "OSError".

Lemma take_write_at n pos data c :
  (n ≤ pos ≤ length c)%nat → take n (write_at pos data c) = take n c.
Proof.
  intros H. rewrite write_at_in by lia. rewrite take_app_le by (rewrite length_take; lia).
  by rewrite take_take, Nat.min_l by lia.
Qed.

Lemma write_body_spec cfg io uid r f body len st res st' :
  inv cfg st → records st !! uid = Some r → temps st !! part_path uid = Some f →
  0 ≤ len → r.(offset) + len ≤ r.(expected_size) →
  write_body io uid r f.(content) body len st = (res, st') →
  inv cfg st' ∧ (∀ now st0, others_kept now uid st0 st → others_kept now uid st0 st') ∧
  match res with
  | Ok r' => len ≤ Z.of_nat (length body) ∧ r' = set_offset (r.(offset) + len) r ∧
      records st' !! uid = Some r' ∧ metas st' !! uid = Some (Some r') ∧
      acked st' uid = Some (take (Z.to_nat r.(offset)) f.(content) ++ take (Z.to_nat len) body)
  | Err e => metas st' !! uid = metas st !! uid ∧
      if unsaved e
      then io = SaveFault ∧ records st' !! uid = Some (set_offset (r.(offset) + len) r) ∧
        acked st' uid = Some (take (Z.to_nat r.(offset)) f.(content) ++ take (Z.to_nat len) body)
      else records st' !! uid = Some r ∧ acked st' uid = acked st uid
  end.
Proof.
  intros I E F Hl Hb H. destruct (inv_records _ _ I _ _ E) as [Hid Hp Ho Hs (f0 & F0 & _ & _ & _ & Lf) _].
  rewrite F in F0. injection F0 as <-. unfold write_body in H.
  set (pos := Z.to_nat r.(offset)) in *. assert (pos ≤ length f.(content))%nat as Hpos by lia.
  rewrite write_loop_spec in H by lia.
  assert (∀ c, take pos c = take pos f.(content) →
    r.(offset) ≤ Z.of_nat (length c) ≤ r.(expected_size) → (res, st') = (res, write_temp r c st) →
    inv cfg st' ∧ (∀ now st0, others_kept now uid st0 st → others_kept now uid st0 st') ∧
    records st' !! uid = Some r ∧ acked st' uid = acked st uid ∧
    metas st' !! uid = metas st !! uid) as Fail.
  { intros c T L [= ->]. destruct (write_beyond cfg st uid r f c) as [Iw Aw]; [done..|].
    split_and!; [done| |done..]. intros now st0 O. by apply others_write. }
  destruct (Z.leb_spec len (Z.of_nat (length body))) as [Hle|Hgt].
  - set (data := take (Z.to_nat len) body) in *.
    assert (Z.of_nat (length data) = len) as Ld by (unfold data; rewrite length_take; lia).
    destruct (store_chunk cfg st uid r f data (r.(offset) + len) I E F ltac:(lia) Hb) as (I2 & I3 & A).
    destruct io as [|n|]; injection H as <- <-.
    + split; [exact I3|]. split.
      { intros now st0 O. apply (others_record now uid st0 (write_temp r _ st)); [by apply others_write|].
        intros k Hk. simpl. by rewrite Hid, lookup_insert_ne. }
      simpl. rewrite Hid, !lookup_insert_eq. by split_and!.
    + destruct (Fail (write_at pos (take n data) f.(content))) as (? & ? & ? & ? & ?); [| |done|by split_and!].
      * by apply take_write_at.
      * rewrite write_at_length, length_take by done. lia.
    + split; [exact I2|]. split; [|split; [done|]; split_and!; [done|apply lookup_insert_eq|exact A]].
      intros now st0 O. by apply (others_record now uid st0 (write_temp r _ st)); [apply others_write|].
  - destruct io as [|n|]; injection H as <- <-.
    2: destruct (Fail (write_at pos (take n (take (Z.to_nat len) body)) f.(content)))
         as (? & ? & ? & ? & ?); [by apply take_write_at|rewrite write_at_length, !length_take by done; lia|done|by split_and!].
    all: destruct (Fail (take pos (write_at pos body f.(content)))) as (? & ? & ? & ? & ?);
      [by rewrite take_take, Nat.min_id, take_write_at|rewrite length_take, write_at_length by done; lia
      |done|by split_and!].
Qed.

(** The outcome of a whole call. *)
Lemma append_spec cfg now io uid token off body len st res st' :
  inv cfg st → append now io uid token off body len st = (res, st') →
  inv cfg st' ∧ others_kept now uid st st' ∧
  match res with
  | Ok r' => ∃ r b, records st !! uid = Some r ∧ acked st uid = Some b ∧ now < r.(expires_at) ∧
      r.(owner) = owner_hash token ∧ off = r.(offset) ∧ 0 ≤ len ≤ Z.of_nat (length body) ∧
      off + len ≤ r.(expected_size) ∧ r' = set_offset (off + len) r ∧
      records st' !! uid = Some r' ∧ metas st' !! uid = Some (Some r') ∧
      acked st' uid = Some (b ++ take (Z.to_nat len) body)
  | Err e => ∀ r, records st !! uid = Some r → now < r.(expires_at) →
      metas st' !! uid = metas st !! uid ∧
      if unsaved e
      then io = SaveFault ∧ off = r.(offset) ∧ records st' !! uid = Some (set_offset (off + len) r) ∧
        ∀ b, acked st uid = Some b → acked st' uid = Some (b ++ take (Z.to_nat len) body)
      else records st' !! uid = Some r ∧ acked st' uid = acked st uid
  end.
Proof.
  intros I H. unfold append in H. pose proof (purge_inv cfg now st I) as Ip.
  assert (∀ r, records st !! uid = Some r → now < r.(expires_at) →
    metas (_purge_expired_locked now st) !! uid = metas st !! uid ∧
    records (_purge_expired_locked now st) !! uid = Some r ∧
    acked (_purge_expired_locked now st) uid = acked st uid) as Keep.
  { intros r E L. split_and!; [|by apply (purge_records _ _ _ I)|by eapply purge_acked].
    by apply (purge_keeps _ _ _ I uid r). }
  destruct (Z.ltb_spec len 0).
  { injection H as <- <-. split_and!; [done| |done]. intros k r _ E L. done. }
  pose proof (purge_others cfg now uid st I) as Op.
  destruct (get now uid token st) as [found s] eqn:G.
  assert (s = _purge_expired_locked now st) as ->
    by (pose proof (get_state now uid token st) as Q; by rewrite G in Q).
  destruct found as [r|e].
  2:{ injection H as <- <-. split_and!; [done..|]. unfold get in G. injection G as G.
      destruct (records _ !! uid) as [x|]; [destruct (String.eqb _ _)|]; by simplify_eq. }
  apply (get_ok cfg) in G as (_ & _ & Er & Er0 & L & Ow); [|done].
  set (s := _purge_expired_locked now st) in *.
  destruct (Z.eqb_spec off r.(offset)) as [->|]; [|injection H as <- <-; by split_and!].
  cbn [negb] in H.
  destruct (Z.ltb_spec r.(expected_size) (r.(offset) + len)); [injection H as <- <-; by split_and!|].
  destruct (open_temp_ok _ _ _ _ Ip Er) as (f & Ef & Op' & Lf). rewrite Op' in H.
  destruct (Keep r Er0 L) as (Km & _ & Ka). rewrite (acked_eq _ _ _ _ Er Ef) in Ka.
  apply (write_body_spec cfg) in H as (I' & O' & R); [|done..].
  split_and!; [done|by apply O'|]. destruct res as [r'|e].
  - destruct R as (? & ? & ? & ? & ?). exists r. eexists. rewrite <- Ka. split_and!; done.
  - intros r0 Er1 _. rewrite Er0 in Er1. injection Er1 as <-. destruct R as [-> R]. split; [done|].
    destruct (unsaved e).
    + destruct R as (? & ? & ->). rewrite <- Ka. split_and!; [done..|]. by intros b [= <-].
    + destruct R as (? & ->). by rewrite (acked_eq _ _ _ _ Er Ef).
Qed.

(** ** Creating and removing *)

(** A file that no upload owns does not matter. *)
Lemma stray_inv cfg st uid f : inv cfg st → records st !! uid = None →
  inv cfg (Registry (records st) (metas st) (<[part_path uid := f]> (temps st))).
Proof.
  intros I N. split; [|apply I|apply I]. intros k r E. destruct (inv_records _ _ I _ _ E) as [? ? ? ? Hf ?].
  split; try done. simpl. rewrite lookup_insert_ne; [done|]. intros Q%part_path_inj. simpl in E. congruence.
Qed.

Lemma create_spec cfg now later uid dev ino io token target size sha parents mapping st res st' :
  inv cfg st → records (_purge_expired_locked now st) !! uid = None →
  create cfg now later uid dev ino io token target size sha parents mapping st = (res, st') →
  inv cfg st' ∧ others_kept now uid st st' ∧
  ∀ r, res = Ok r → records st' !! uid = Some r ∧ metas st' !! uid = Some (Some r) ∧
    acked st' uid = Some [] ∧ r.(expected_size) = size ∧ r.(owner) = owner_hash token ∧
    r.(offset) = 0 ∧ r.(expires_at) = later + cfg.(ttl_seconds) * sec_us.
Proof.
  intros I N H. unfold create in H. pose proof (purge_inv cfg now st I) as Ip.
  pose proof (purge_others cfg now uid st I) as Op. set (s := _purge_expired_locked now st) in *.
  assert (others_kept now uid st st) as Os by (by intros k r).
  destruct (Z.ltb_spec size 0); [by simplify_eq|].
  destruct (Z.ltb_spec cfg.(max_file_bytes) size); [by simplify_eq|].
  destruct (match sha with Some v => _ | None => _ end); [by simplify_eq|].
  destruct (Z.ltb_spec cfg.(max_incomplete_bytes) (reserved s + size)); [by simplify_eq|].
  destruct (temps s !! part_path uid) as [f0|] eqn:F; [by simplify_eq|].
  destruct io as [|[|n]|]; [|by simplify_eq| |by simplify_eq].
  2:{ injection H as <- <-. split_and!; [by apply stray_inv| |done]. intros k x Hne E L.
      destruct (Op k x Hne E L) as (Er & Ea & Em). unfold acked in *. simpl.
      by rewrite lookup_insert_ne by (intros Q%part_path_inj; congruence). }
  injection H as <- <-.
  match goal with |- context [_save_locked (Registry (<[uid := ?x]> _) _ _) ?x] => set (r := x) in * end.
  split_and!.
  - split; simpl.
    + intros k x. rewrite lookup_insert. case_decide as D.
      * intros [= <-]. subst k. split; simpl; [done|done|lia|lia| |].
        -- rewrite lookup_insert_eq. eexists. split_and!; [done..|simpl; lia|simpl; lia].
        -- exists 0. rewrite lookup_insert_eq. done.
      * intros Ex. destruct (inv_records _ _ Ip _ _ Ex). split; simpl; try done.
        -- by rewrite lookup_insert_ne by (intros Q%part_path_inj; congruence).
        -- by rewrite lookup_insert_ne.
    + intros k m. rewrite !lookup_insert. case_decide; [eauto|]. apply (inv_metas _ _ Ip).
    + unfold reserved in *. simpl.
      rewrite (map_fold_insert_L (λ _ (x : UploadRecord) acc, x.(expected_size) + acc)); [simpl; lia|lia|done].
  - intros k x Hne E L. destruct (Op k x Hne E L) as (Er & Ea & Em). unfold acked in *. simpl.
    rewrite !lookup_insert_ne by (done || intros Q%part_path_inj; congruence). done.
  - intros r0 [= <-]. simpl. rewrite !lookup_insert_eq. unfold acked. simpl.
    rewrite lookup_insert_eq. simpl. rewrite lookup_insert_eq. done.
Qed.

Lemma remove_spec cfg st uid r :
  inv cfg st → records st !! uid = Some r →
  inv cfg (_remove_locked st r) ∧
  ∀ k, k ≠ uid → records (_remove_locked st r) !! k = records st !! k ∧
    acked (_remove_locked st r) k = acked st k ∧ metas (_remove_locked st r) !! k = metas st !! k.
Proof.
  intros I E. pose proof (inv_records _ _ I _ _ E) as [Hid Hp Ho _ _ _].
  assert (∀ k, k ≠ uid → temps (_remove_locked st r) !! part_path k = temps st !! part_path k) as T.
  { intros k Hne. simpl. rewrite Hp, lookup_delete_ne; [done|]. intros Q%part_path_inj. congruence. }
  split.
  - split; simpl; rewrite ?Hid.
    + intros k x [Hne Ex]%lookup_delete_Some. destruct (inv_records _ _ I _ _ Ex) as [? ? ? ? Hf Hm].
      split; [done..| |]; simpl; rewrite ?Hid.
      * rewrite <- (T k) in Hf by congruence. exact Hf.
      * rewrite lookup_delete_ne by done. exact Hm.
    + intros k m [Hne Em]%lookup_delete_Some. rewrite lookup_delete_ne by done. by eapply inv_metas.
    + etrans; [|apply (inv_quota _ _ I)]. destruct st as [a b c]. apply reserved_mono; simpl in *.
      * intros k x [_ Ex]%lookup_delete_Some. eauto.
      * intros k x Ex. pose proof (wf_offset _ _ _ _ (inv_records _ _ I k x Ex)). lia.
  - intros k Hne. unfold acked. rewrite T by done. simpl. rewrite Hid, !lookup_delete_ne by done. done.
Qed.

(** ** Restart *)

Section restart.
Context (cfg : config) (st : registry) (I : inv cfg st).

(** Every metadata file describes an upload in progress, perhaps at an older
    offset. *)
Lemma meta_entry uid m :
  metas st !! uid = Some m →
  ∃ r o f, records st !! uid = Some r ∧ m = Some (set_offset o r) ∧ 0 ≤ o ≤ r.(offset) ∧
    temps st !! part_path uid = Some f ∧ r.(temp_path) = part_path uid ∧ r.(upload_id) = uid ∧
    load_ok uid (set_offset o r) f = true ∧ r.(offset) ≤ Z.of_nat (length f.(content)) ∧
    r.(offset) ≤ r.(expected_size).
Proof.
  intros E. destruct (inv_metas _ _ I _ _ E) as [r Er].
  destruct (inv_records _ _ I _ _ Er) as [Hid Hp Ho Hs (f & Ef & R & D & N & L) (o & Em & Lo)].
  exists r, o, f. split_and!; try done; try congruence; try lia.
  unfold load_ok. simpl. rewrite Hid, R, D, N, String.eqb_refl, !Z.eqb_refl. simpl.
  rewrite !andb_true_iff, !Z.leb_le. lia.
Qed.

(** What loading one upload leaves behind. *)
Definition loaded (uid : string) (m : option UploadRecord) (acc : registry) : Prop :=
  ∃ r f, m = Some r ∧ records acc !! uid = Some r ∧ temps st !! part_path uid = Some f ∧
    temps acc !! part_path uid = Some (set_content (take (Z.to_nat r.(offset)) f.(content)) f).

Lemma load_fold l acc :
  NoDup l.*1 → (∀ uid m, (uid, m) ∈ l → metas st !! uid = Some m) →
  (∀ uid, uid ∈ l.*1 → temps acc !! part_path uid = temps st !! part_path uid) →
  let acc' := foldl load_one acc l in
  metas acc' = metas acc ∧
  (∀ uid m, (uid, m) ∈ l → loaded uid m acc') ∧
  (∀ k, k ∉ l.*1 → records acc' !! k = records acc !! k ∧
     temps acc' !! part_path k = temps acc !! part_path k).
Proof.
  revert acc. induction l as [|[uid m] l IH]; intros acc ND Hm Ht; simpl.
  { split_and!; [done|set_solver|done]. }
  apply NoDup_cons in ND as [Nin ND].
  destruct (meta_entry uid m (Hm _ _ ltac:(left))) as (r & o & f & Er & -> & Lo & Ef & Hp & Hid & Hok & _ & _).
  assert (temps acc !! part_path uid = Some f) as Ef' by (rewrite Ht; [done|set_solver]).
  change (temp_path r) with (temp_path (set_offset o r)) in Hp.
  rewrite Hp, Ef', Hok. change (upload_id (set_offset o r)) with (upload_id r). rewrite Hid.
  match goal with |- context [foldl load_one ?a l] => set (acc1 := a) end.
  destruct (IH acc1) as (M & P & K); [done|by intros; apply Hm; right| |].
  { intros k Hk. simpl. rewrite lookup_insert_ne; [apply Ht; set_solver|].
    intros Q%part_path_inj. set_solver. }
  split_and!; [done| |].
  - intros k m [[= -> ->]|Hin]%elem_of_cons; [|by apply P].
    destruct (K uid Nin) as [Kr Kt]. exists (set_offset o r), f. rewrite Kr, Kt. simpl.
    by rewrite !lookup_insert_eq.
  - intros k [Hne Hk]%not_elem_of_cons. destruct (K k Hk) as [-> ->]. simpl.
    rewrite !lookup_insert_ne by (done || intros Q%part_path_inj; congruence). done.
Qed.

Definition reloaded : registry :=
  foldl load_one (Registry ∅ (metas st) (temps st)) (map_to_list (metas st)).

Lemma reloaded_spec :
  metas reloaded = metas st ∧
  (∀ uid r, records reloaded !! uid = Some r ↔ metas st !! uid = Some (Some r)) ∧
  (∀ uid m, metas st !! uid = Some m → loaded uid m reloaded).
Proof.
  unfold reloaded.
  destruct (load_fold (map_to_list (metas st)) (Registry ∅ (metas st) (temps st))) as (M & P & K).
  - apply NoDup_fst_map_to_list.
  - intros uid m. apply elem_of_map_to_list.
  - done.
  - split_and!; [done| |].
    + intros uid r. split.
      * intros E. destruct (metas st !! uid) as [m|] eqn:Em.
        -- destruct (P uid m) as (r' & f & -> & Er & _); [by apply elem_of_map_to_list|]. congruence.
        -- destruct (K uid) as [Kr _]; [|by rewrite Kr in E].
           rewrite list_elem_of_fmap. intros ([k m] & -> & H%elem_of_map_to_list). simpl in *. congruence.
      * intros E. destruct (P uid (Some r)) as (r' & f & [= <-] & Er & _); [by apply elem_of_map_to_list|done].
    + intros uid m E. apply P. by apply elem_of_map_to_list.
Qed.

Lemma reloaded_inv : inv cfg reloaded.
Proof.
  destruct reloaded_spec as (M & R & P). split.
  - intros uid x Ex. apply R in Ex as Em. destruct (meta_entry _ _ Em) as
      (r & o & f & Er & [= ->] & Lo & Ef & Hp & Hid & _ & Lf & Ls).
    destruct (P _ _ Em) as (r' & f' & [= <-] & _ & Ef' & Et).
    rewrite Ef in Ef'. injection Ef' as <-.
    destruct (inv_records _ _ I _ _ Er) as [_ _ _ Hs (f2 & Ef2 & Hr & Hd & Hn & _) _].
    rewrite Ef in Ef2. injection Ef2 as <-.
    split; simpl; [done|done|lia|done| |].
    + rewrite Et. eexists. split_and!; [done..| |]; simpl; rewrite length_take; lia.
    + exists o. rewrite M. split; [exact Em|lia].
  - intros uid m Em. rewrite M in Em. destruct (P _ _ Em) as (r & f & -> & Er & _). eauto.
  - etrans; [|apply (inv_quota _ _ I)].
    assert (∀ g, g = Registry (records g) (metas g) (temps g)) as Eta by (by intros []).
    rewrite (Eta reloaded), (Eta st). apply reserved_mono.
    + intros k x Ex. apply R in Ex. destruct (meta_entry _ _ Ex) as (r & o & f & Er & [= ->] & _). eauto.
    + intros k x Ex. pose proof (wf_offset _ _ _ _ (inv_records _ _ I k x Ex)). lia.
Qed.

(** An upload comes back as its metadata has it: with the bytes up to the offset that
    was last saved, whatever else the file held. *)
Lemma load_saved now uid r o :
  records st !! uid = Some r → metas st !! uid = Some (Some (set_offset o r)) → now < r.(expires_at) →
  records (_load now st) !! uid = Some (set_offset o r) ∧
  metas (_load now st) !! uid = Some (Some (set_offset o r)) ∧
  acked (_load now st) uid = take (Z.to_nat o) <$> acked st uid.
Proof.
  intros E Em L. destruct reloaded_spec as (M & R & P).
  assert (records reloaded !! uid = Some (set_offset o r)) as Er by (by apply R).
  destruct (meta_entry _ _ Em) as (r0 & o' & f0 & E0 & [= Q] & Lo & _).
  rewrite E in E0. injection E0 as <-. subst o'.
  unfold _load. fold reloaded. split_and!.
  - by apply (purge_records cfg now _ reloaded_inv).
  - rewrite (proj2 (purge_keeps cfg now _ reloaded_inv _ _ Er L)). by rewrite M.
  - rewrite (purge_acked cfg now _ _ _ reloaded_inv Er L).
    destruct (P _ _ Em) as (r' & f & [= <-] & _ & Ef & Et).
    rewrite (acked_eq _ _ _ _ E Ef), (acked_eq _ _ _ _ Er Et). simpl.
    rewrite !take_take, Nat.min_id, Nat.min_l by lia. done.
Qed.

Lemma set_same r : set_offset r.(offset) r = r.
Proof. by destruct r. Qed.

Lemma load_keeps now uid r :
  records st !! uid = Some r → metas st !! uid = Some (Some r) → now < r.(expires_at) →
  records (_load now st) !! uid = Some r ∧ metas (_load now st) !! uid = Some (Some r) ∧
  acked (_load now st) uid = acked st uid.
Proof.
  intros E Em L. destruct (load_saved now uid r r.(offset)) as (Hr & Hm & Ha); [done|by rewrite set_same|done|].
  rewrite set_same in *. split_and!; [done..|]. rewrite Ha. unfold acked. rewrite E. simpl.
  destruct (temps st !! _); [|done]. simpl. by rewrite take_take, Nat.min_id.
Qed.

End restart.

(** ** Sequences of calls *)

Inductive op :=
| OCreate (now later : Z) (uid : string) (dev ino : Z) (io : fault) (token target : string)
    (size : Z) (sha : option string) (parents : bool) (mapping : option string)
| OGet (now : Z) (uid token : string)
| OAppend (now : Z) (io : fault) (uid token : string) (off : Z) (body : bytes) (len : Z)
| OVerify (now : Z) (uid token : string)
| OCopy (now : Z) (uid token : string)
| OFinish (uid token : string)
| OCancel (now : Z) (uid token : string)
| OAssert (now : Z) (uid token : string)
| ORestart (now : Z).

Section runs.
Context (cfg : config).

Definition exec (st : registry) (o : op) : registry :=
  match o with
  | OCreate now later uid dev ino io token target size sha parents mapping =>
      (create cfg now later uid dev ino io token target size sha parents mapping st).2
  | OGet now uid token => (get now uid token st).2
  | OAppend now io uid token off body len => (append now io uid token off body len st).2
  | OVerify now uid token => (verify now uid token st).2
  | OCopy now uid token => (copy_to now uid token st).2
  | OFinish uid token => (finish uid token st).2
  | OCancel now uid token => (cancel now uid token st).2
  | OAssert now uid token => (assert_temp_unchanged now uid token st).2
  | ORestart now => _load now st
  end.

(** A new upload gets an identifier that is not in use. *)
Definition unused (st : registry) (o : op) : Prop :=
  match o with
  | OCreate now _ uid _ _ _ _ _ _ _ _ _ => records (_purge_expired_locked now st) !! uid = None
  | _ => True
  end.

Inductive run : registry → list op → registry → Prop :=
| run_nil st : run st [] st
| run_cons st o ops st' : unused st o → run (exec st o) ops st' → run st (o :: ops) st'.

Lemma cancel_state now uid token st :
  inv cfg st → inv cfg (cancel now uid token st).2 ∧ others_kept now uid st (cancel now uid token st).2.
Proof.
  intros I. unfold cancel. pose proof (purge_inv cfg now st I) as Ip.
  pose proof (purge_others cfg now uid st I) as Op.
  destruct (get now uid token st) as [found s] eqn:G.
  assert (s = _purge_expired_locked now st) as ->
    by (pose proof (get_state now uid token st) as Q; by rewrite G in Q).
  destruct found as [r|e]; [|done]. apply (get_ok cfg) in G as (_ & _ & Er & _); [|done]. simpl.
  destruct (remove_spec cfg _ _ _ Ip Er) as [Ir K]. split; [done|].
  intros k x Hne E L. destruct (K k Hne) as (-> & -> & ->). by apply Op.
Qed.

Lemma finish_state uid token st :
  inv cfg st → inv cfg (finish uid token st).2 ∧ ∀ now, others_kept now uid st (finish uid token st).2.
Proof.
  intros I. unfold finish. destruct (records st !! uid) as [r|] eqn:E; [|by split; [|intros ? k x]].
  destruct (String.eqb _ _); [|by split; [|intros ? k x]]. simpl.
  destruct (remove_spec cfg _ _ _ I E) as [Ir K].
  assert (r.(upload_id) = uid) as Hid by (by apply (inv_records _ _ I _ _ E)).
  unfold _remove_locked in *. rewrite Hid in *. split; [done|].
  intros now k x Hne Ex L. destruct (K k Hne) as (-> & -> & ->). done.
Qed.

Lemma verify_state now uid token st : (verify now uid token st).2 = _purge_expired_locked now st.
Proof. done. Qed.

Lemma copy_state now uid token st : (copy_to now uid token st).2 = _purge_expired_locked now st.
Proof.
  unfold copy_to. destruct (get now uid token st) as [found s] eqn:G.
  assert (s = _purge_expired_locked now st) as ->
    by (pose proof (get_state now uid token st) as Q; by rewrite G in Q).
  destruct found as [r|e]; [|done]. destruct (negb _); [done|].
  destruct (_open_temp _ _); done.
Qed.

Lemma upload_exec_inv st o : inv cfg st → unused st o → inv cfg (exec st o).
Proof.
  intros I U. destruct o as [now later uid dev ino io token target size sha parents mapping
    |now uid token|now io uid token off body len|now uid token|now uid token|uid token
    |now uid token|now uid token|now]; cbn [exec].
  - destruct (create _ _ _ _ _ _ _ _ _ _ _ _ _ _) as [res st'] eqn:E.
    by apply create_spec in E as (? & _).
  - by apply purge_inv.
  - destruct (append _ _ _ _ _ _ _ _) as [res st'] eqn:E.
    by apply (append_spec cfg) in E as (? & _).
  - by apply purge_inv.
  - rewrite copy_state. by apply purge_inv.
  - by apply finish_state.
  - by apply cancel_state.
  - by apply purge_inv.
  - apply purge_inv. by apply reloaded_inv.
Qed.

Lemma upload_run_inv st ops st' : inv cfg st → run st ops st' → inv cfg st'.
Proof. intros I R. induction R as [|st o ops st' U R IH]; [done|]. by apply IH, upload_exec_inv. Qed.

(** Only a failure to save is answered so. *)
Lemma append_unsaved now io uid token off body len st e st' :
  append now io uid token off body len st = (Err e, st') → unsaved e = true → io = SaveFault.
Proof.
  unfold append, get, write_body. intros H. repeat case_match; simplify_eq; try done.
  all: match goal with H : _open_temp _ _ = Err _ |- _ => unfold _open_temp in H; repeat case_match; by simplify_eq end.
Qed.

(** *** The bytes a client delivered *)

(** What an upload holds, by the answers its client gets: the bytes it counts, and
    those that a restart would find.  A confirmed append adds its body to both; one
    answered by a failure to save adds it to the first only; a restart goes back to
    what was saved. *)
Definition account (uid : string) (st : registry) (o : op) (h : bytes * bytes) : bytes * bytes :=
  match o with
  | OAppend now io u token off body len =>
      if String.eqb u uid then
        let longer := h.1 ++ take (Z.to_nat len) body in
        match (append now io u token off body len st).1 with
        | Ok _ => (longer, longer)
        | Err e => if unsaved e then (longer, h.2) else h
        end
      else h
  | ORestart _ => (h.2, h.2)
  | _ => h
  end.

Fixpoint held (uid : string) (st : registry) (h : bytes * bytes) (ops : list op) : bytes * bytes :=
  match ops with
  | [] => h
  | o :: ops' => held uid (exec st o) (account uid st o h) ops'
  end.

(** The bodies of the confirmed appends. *)
Definition adds (uid : string) (st : registry) (o : op) : bytes :=
  match o with
  | OAppend now io u token off body len =>
      if String.eqb u uid then
        match (append now io u token off body len st).1 with
        | Ok _ => take (Z.to_nat len) body
        | Err _ => []
        end
      else []
  | _ => []
  end.

Fixpoint delivered (uid : string) (st : registry) (ops : list op) : bytes :=
  match ops with
  | [] => []
  | o :: ops' => adds uid st o ++ delivered uid (exec st o) ops'
  end.

(** The call happens before [limit] and does not end the upload [uid]. *)
Definition spares (uid : string) (limit : Z) (o : op) : Prop :=
  match o with
  | OCreate now _ _ _ _ _ _ _ _ _ _ _ | OGet now _ _ | OVerify now _ _ | OCopy now _ _
  | OAssert now _ _ | ORestart now | OAppend now _ _ _ _ _ _ => now < limit
  | OFinish u _ => u ≠ uid
  | OCancel now u _ => now < limit ∧ u ≠ uid
  end.

(** The metadata of the upload is saved. *)
Definition saves (uid : string) (o : op) : Prop :=
  match o with OAppend _ io u _ _ _ _ => u = uid → io ≠ SaveFault | _ => True end.

(** The upload with record [r], at some offset, holds [h]. *)
Record holds (uid : string) (r : UploadRecord) (h : bytes * bytes) (st : registry) : Prop := {
  h_record : ∃ i, records st !! uid = Some (set_offset i r);
  h_meta : metas st !! uid = Some (Some (set_offset (Z.of_nat (length h.2)) r));
  h_bytes : acked st uid = Some h.1;
  h_saved : h.2 `prefix_of` h.1 }.

Lemma acked_length st uid r b :
  inv cfg st → records st !! uid = Some r → acked st uid = Some b → r.(offset) = Z.of_nat (length b).
Proof.
  intros I E A. destruct (inv_records _ _ I _ _ E) as [_ _ Ho _ (f & F & _ & _ & _ & L) _].
  rewrite (acked_eq _ _ _ _ E F) in A. injection A as <-. rewrite length_take. lia.
Qed.

Lemma holds_kept uid r h st st' now other :
  holds uid r h st → now < r.(expires_at) → uid ≠ other → others_kept now other st st' → holds uid r h st'.
Proof.
  intros [[i Hr] Hm Hb Hs] L Hne K. destruct (K uid _ Hne Hr L) as (Er & Ea & Em).
  split; [by exists i|by rewrite Em|by rewrite Ea|done].
Qed.

Lemma holds_purged uid r h st now :
  inv cfg st → holds uid r h st → now < r.(expires_at) → holds uid r h (_purge_expired_locked now st).
Proof.
  intros I H L. apply (holds_kept uid r h st _ now (uid +:+ "x") H L); [|by apply (purge_others cfg)].
  intros Q. apply (f_equal String.length) in Q. rewrite Base64.str_length_app in Q. simpl in Q. lia.
Qed.

Lemma holds_append now io uid token off body len r h st :
  inv cfg st → holds uid r h st → now < r.(expires_at) →
  holds uid r (account uid st (OAppend now io uid token off body len) h) (append now io uid token off body len st).2.
Proof.
  intros I [[i Hr] Hm Hb Hs] L. cbn [account]. rewrite String.eqb_refl.
  destruct (append _ _ _ _ _ _ _ _) as [res st'] eqn:Q. apply (append_spec cfg) in Q as (I' & _ & R); [|done].
  destruct res as [r'|e]; simpl.
  - destruct R as (r0 & b0 & E0 & A0 & _ & _ & _ & _ & _ & -> & Er & Em & Ea).
    rewrite Hr in E0. injection E0 as <-. rewrite Hb in A0. injection A0 as <-.
    pose proof (acked_length _ _ _ _ I' Er Ea) as Ho. simpl in Ho. split; simpl; [by eexists| |done|done].
    rewrite Em. unfold set_offset. simpl. by rewrite Ho.
  - destruct (R _ Hr L) as [Em R']. destruct (unsaved e).
    + destruct R' as (_ & _ & Er & Ea). split; simpl; [by eexists|by rewrite Em|by apply Ea|by apply prefix_app_r].
    + destruct R' as [Er Ea]. split; [by exists i|by rewrite Em|by rewrite Ea|done].
Qed.

Lemma spared_step uid st o r h :
  inv cfg st → unused st o → holds uid r h st → spares uid r.(expires_at) o →
  holds uid r (account uid st o h) (exec st o).
Proof.
  intros I U H Sp. pose proof H as [[i Hr] Hm Hb Hs].
  destruct o as [now later u dev ino io token target size sha parents mapping
    |now u token|now io u token off body len|now u token|now u token|u token
    |now u token|now u token|now]; cbn [exec spares unused] in *.
  - destruct (create _ _ _ _ _ _ _ _ _ _ _ _ _ _) as [res st'] eqn:Q.
    apply create_spec in Q as (_ & K & _); [|done..]. apply (holds_kept uid r h st st' now u); [done..| |done].
    intros <-. by rewrite (proj2 (purge_records _ now _ I uid _) (conj Hr Sp)) in U.
  - by apply holds_purged.
  - destruct (String.eqb_spec u uid) as [->|Hne]; [by apply holds_append|].
    cbn [account]. rewrite (proj2 (String.eqb_neq _ _) Hne).
    destruct (append _ _ _ _ _ _ _ _) as [res st'] eqn:Q. apply (append_spec cfg) in Q as (_ & K & _); [|done].
    by apply (holds_kept uid r h st st' now u).
  - by apply holds_purged.
  - rewrite copy_state. by apply holds_purged.
  - by apply (holds_kept uid r h st _ (r.(expires_at) - 1) u); [|lia|congruence|apply finish_state].
  - by apply (holds_kept uid r h st _ now u); [|tauto|destruct Sp; congruence|apply cancel_state].
  - by apply holds_purged.
  - destruct (load_saved cfg st I now uid _ (Z.of_nat (length h.2)) Hr Hm Sp) as (Er & Em & Ea).
    split; [by eexists|done| |done]. rewrite Ea, Hb. simpl. f_equal. destruct Hs as [k ->].
    by rewrite Nat2Z.id, take_app_length.
Qed.

Lemma held_run uid st ops st' r h :
  inv cfg st → run st ops st' → holds uid r h st → Forall (spares uid r.(expires_at)) ops →
  inv cfg st' ∧ holds uid r (held uid st h ops) st'.
Proof.
  intros I R. revert h. induction R as [st|st o ops st' U R IH]; intros h H Sp; [done|].
  apply Forall_cons in Sp as [So Sp]. apply IH; [by apply upload_exec_inv|by apply spared_step|done].
Qed.

(** While the metadata is saved, the upload holds the bodies of the confirmed appends. *)
Lemma held_delivered uid st ops b : Forall (saves uid) ops → held uid st (b, b) ops = (b ++ delivered uid st ops, b ++ delivered uid st ops).
Proof.
  revert st b. induction ops as [|o ops IH]; intros st b Sv; [by rewrite app_nil_r|].
  apply Forall_cons in Sv as [So Sv]. cbn [held delivered]. rewrite app_assoc, <- IH by done. f_equal.
  destruct o as [| |now io u token off body len| | | | | |]; cbn [account adds saves] in *; rewrite ?app_nil_r; try done.
  destruct (String.eqb_spec u uid) as [->|]; [|by rewrite app_nil_r].
  destruct (append _ _ _ _ _ _ _ _) as [[r|e] st'] eqn:E; simpl; [done|]. rewrite app_nil_r.
  destruct (unsaved e) eqn:Eu; [|done]. destruct (So eq_refl). by apply (append_unsaved now io uid token off body len st e st').
Qed.
End runs.

(** The state of an upload that is still alive, as its own calls see it. *)
Lemma live_view cfg now uid token st r d :
  inv cfg st → records st !! uid = Some r → acked st uid = Some d → now < r.(expires_at) →
  r.(owner) = owner_hash token →
  get now uid token st = (Ok r, _purge_expired_locked now st) ∧
  r.(offset) = Z.of_nat (length d) ∧
  (r.(offset) = r.(expected_size) → _open_temp r (_purge_expired_locked now st) = Ok d).
Proof.
  intros I E A L Ow. pose proof (proj2 (purge_records _ now _ I _ _) (conj E L)) as E'.
  destruct (open_temp_ok cfg _ _ _ (purge_inv cfg now st I) E') as (f & Ef & Of & Lf).
  pose proof (wf_offset _ _ _ _ (inv_records _ _ I _ _ E)) as Ho.
  rewrite <- (purge_acked cfg now _ _ _ I E L), (acked_eq _ _ _ _ E' Ef) in A. injection A as <-.
  split_and!.
  - unfold get. by rewrite E', Ow, String.eqb_refl.
  - rewrite length_take. lia.
  - intros Q. rewrite Of, take_ge by lia. done.
Qed.

(** ** Properties *)

(** C17: an upload has exactly the bytes that the answers of its appends account for:
    through any sequence of calls that does not end it (on this and on other uploads,
    failed and repeated chunks, metadata that cannot be saved, restarts of the server),
    [verify] succeeds exactly when the bytes it holds have the declared length and
    checksum, reports their SHA-256, and [copy_to] then writes exactly them.  These are
    the bodies of the confirmed appends as long as the metadata of the upload can be
    saved; an append that fails to save it is answered by an error and yet counts until
    the server restarts. *)
Theorem upload_end_to_end cfg st now later uid dev ino io token target size sha parents mapping
    r st0 ops st1 t :
  inv cfg st → records (_purge_expired_locked now st) !! uid = None →
  create cfg now later uid dev ino io token target size sha parents mapping st = (Ok r, st0) →
  run cfg st0 ops st1 → Forall (spares uid r.(expires_at)) ops → t < r.(expires_at) →
  let d := (held cfg uid st0 ([], []) ops).1 in
  let digest := hex (Sha256.sha256 d) in
  ((∃ x, (verify t uid token st1).1 = Ok x) ↔
     Z.of_nat (length d) = size ∧ ∀ e, r.(expected_sha256) = Some e → e = digest) ∧
  (∀ r' h, (verify t uid token st1).1 = Ok (r', h) → h = digest) ∧
  (Z.of_nat (length d) = size → ∃ r' s, copy_to t uid token st1 = (Ok r', d, s)) ∧
  (Forall (saves uid) ops → d = delivered cfg uid st0 ops).
Proof.
  intros I N C R Sp L d digest.
  destruct (create_spec _ _ _ _ _ _ _ _ _ _ _ _ _ _ _ _ I N C) as (I0 & _ & H).
  destruct (H r eq_refl) as (E0 & M0 & A0 & Hs & Ow & O0 & _).
  assert (holds uid r ([], []) st0) as H0.
  { assert (set_offset 0 r = r) as S0 by (rewrite <- O0; apply set_same).
    split; [by exists 0; rewrite S0|by rewrite M0, <- S0 at 1|done|done]. }
  destruct (held_run _ _ _ _ _ _ _ I0 R H0 Sp) as (I1 & [[o E1] _ A1 _]). fold d in A1.
  destruct (live_view cfg t uid token st1 (set_offset o r) d I1 E1 A1 L Ow) as (G & Ho & Op).
  assert (Forall (saves uid) ops → d = delivered cfg uid st0 ops) as Hd
    by (intros Sv; unfold d; by rewrite held_delivered).
  unfold verify, copy_to. rewrite G. change (expected_size (set_offset o r)) with (expected_size r) in *.
  change (expected_sha256 (set_offset o r)) with (expected_sha256 r). rewrite Hs in *.
  destruct (Z.eqb_spec (offset (set_offset o r)) size) as [Q|Q]; cbn [negb].
  - rewrite (Op Q), !read_chunks_concat. fold digest.
    rewrite <- Ho, Q, Z.eqb_refl. destruct (expected_sha256 r) as [e|].
    + destruct (String.eqb_spec e digest) as [->|Ne]; cbn [negb]; split_and!; try done.
      * split; [|eauto]. intros _. split; [done|]. by intros e' [= ->].
      * by intros r' h [= _ <-].
      * intros _. by do 2 eexists.
      * split; [by intros [? ?]|]. intros [_ X]. by destruct Ne; apply X.
      * intros _. by do 2 eexists.
    + split_and!; [split; [done|eauto]|by intros r' h [= _ <-]|intros _; by do 2 eexists|done].
  - split_and!; [|done|congruence|done]. split; [by intros [? ?]|]. intros [X _]. congruence.
Qed.

(** C38: a crash in the middle of an append loses nothing that was confirmed: a
    new process on the same directory, whatever bytes the interrupted write left
    beyond the offset, finds the upload with its record and its confirmed bytes. *)
Theorem upload_crash_recovery cfg st uid r f c now :
  inv cfg st → records st !! uid = Some r → metas st !! uid = Some (Some r) →
  temps st !! part_path uid = Some f → now < r.(expires_at) →
  take (Z.to_nat r.(offset)) c = take (Z.to_nat r.(offset)) f.(content) →
  r.(offset) ≤ Z.of_nat (length c) ≤ r.(expected_size) →
  let st' := _load now (write_temp r c st) in
  inv cfg st' ∧ records st' !! uid = Some r ∧ acked st' uid = acked st uid ∧
  ∀ f', temps st' !! part_path uid = Some f' →
    f'.(content) = take (Z.to_nat r.(offset)) f.(content).
Proof.
  intros I E M F L T B st'. destruct (write_beyond cfg st uid r f c I E F T B) as [Iw Aw].
  destruct (load_keeps cfg _ Iw now uid r E M L) as (Er & _ & Ea).
  assert (inv cfg st') as I' by (apply purge_inv, reloaded_inv, Iw).
  split_and!; [done|done|by rewrite <- Aw|]. intros f' F'.
  rewrite Aw, (acked_eq _ _ _ _ E F), (acked_eq _ _ _ _ Er F') in Ea. injection Ea as Ea.
  rewrite <- Ea. symmetry. apply take_ge.
  destruct (reloaded_spec cfg _ Iw) as (_ & R & P).
  destruct (P uid (Some r) M) as (r' & g & [= <-] & _ & _ & Eg).
  assert (records (reloaded (write_temp r c st)) !! uid = Some r) as Er1 by (by apply R).
  unfold st', _load in F'. fold (reloaded (write_temp r c st)) in F'.
  rewrite (proj1 (purge_keeps cfg now _ (reloaded_inv cfg _ Iw) _ _ Er1 L)), Eg in F'.
  injection F' as <-. simpl. rewrite length_take. lia.
Qed.

(** Whatever the clients do, the uploads in progress never reserve more than
    the configured quota, none exceeds the maximum file size, and no temporary
    file grows beyond the size declared for it. *)
Theorem upload_disk_bounded cfg ops st :
  0 ≤ cfg.(max_incomplete_bytes) → run cfg empty_registry ops st →
  reserved st ≤ cfg.(max_incomplete_bytes) ∧
  ∀ uid r, records st !! uid = Some r →
    0 ≤ r.(offset) ≤ r.(expected_size) ∧ r.(expected_size) ≤ cfg.(max_file_bytes) ∧
    ∃ f, temps st !! r.(temp_path) = Some f ∧
      r.(offset) ≤ Z.of_nat (length f.(content)) ≤ r.(expected_size).
Proof.
  intros Hq R. pose proof (upload_run_inv cfg _ _ _ (upload_empty_inv cfg Hq) R) as I.
  split; [apply I|]. intros uid r E.
  destruct (inv_records _ _ I _ _ E) as [_ Hp Ho Hs (f & Ef & _ & _ & _ & Lf) _].
  rewrite Hp. eauto 10.
Qed.

(** ** A concrete upload *)

Definition demo_cfg : config :=
  {| ttl_seconds := 3600; max_file_bytes := 100; max_incomplete_bytes := 1000 |}.

Definition demo_create : result UploadRecord * registry :=
  create demo_cfg 0 0 "upload_a" 1 7 NoFault "tok" "/w/x" 5 None false None empty_registry.

Definition demo_record : UploadRecord :=
  {| upload_id := "upload_a"; owner := owner_hash "tok"; target_path := "/w/x";
     temp_path := part_path "upload_a"; temp_device := 1; temp_inode := 7; expected_size := 5;
     expected_sha256 := None; offset := 0; create_parents := false; created_at := 0;
     expires_at := 3600000000; mapping_id := None |}.

(** Three bytes, a chunk that fails on disk after one byte, a restart, one byte whose
    metadata cannot be saved, and the last one. *)
Definition demo_calls : list op :=
  [OAppend 1 NoFault "upload_a" "tok" 0 [1; 2; 3] 3;
   OAppend 2 (WriteFault 1) "upload_a" "tok" 3 [9; 9] 2;
   ORestart 3;
   OAppend 4 SaveFault "upload_a" "tok" 3 [4] 1;
   OAppend 5 NoFault "upload_a" "tok" 4 [5] 1].

Example demo_held : held demo_cfg "upload_a" demo_create.2 ([], []) demo_calls = ([1; 2; 3; 4; 5], [1; 2; 3; 4; 5]).
Proof. vm_compute. reflexivity. Qed.

(** An append answered by an error counts: the next one goes on after its bytes. *)
Example unsaved_append_counts :
  (append 4 SaveFault "upload_a" "tok" 0 [4] 1 demo_create.2).1 = Err (upload_error 500 "OSError") ∧
  offset <$> records (append 4 SaveFault "upload_a" "tok" 0 [4] 1 demo_create.2).2 !! "upload_a"%string = Some 1.
Proof. split; vm_compute; reflexivity. Qed.

Lemma demo_create_eq : demo_create = (Ok demo_record, demo_create.2).
Proof. vm_compute. reflexivity. Qed.

Lemma demo_run : run demo_cfg demo_create.2 demo_calls (foldl (exec demo_cfg) demo_create.2 demo_calls).
Proof. by repeat constructor. Qed.

Lemma demo_inv : inv demo_cfg empty_registry.
Proof. by apply upload_empty_inv. Qed.

Lemma upload_end_to_end_witness :
  ∃ r' s, copy_to 5 "upload_a" "tok" (foldl (exec demo_cfg) demo_create.2 demo_calls)
          = (Ok r', [1; 2; 3; 4; 5], s).
Proof.
  assert (Forall (spares "upload_a" 3600000000) demo_calls) as Sp
    by (repeat constructor; try (vm_compute; reflexivity); done).
  destruct (upload_end_to_end demo_cfg empty_registry 0 0 "upload_a" 1 7 NoFault "tok" "/w/x" 5 None
    false None demo_record demo_create.2 demo_calls _ 5 demo_inv eq_refl demo_create_eq demo_run Sp
    ltac:(vm_compute; reflexivity)) as (_ & _ & H & _).
  rewrite demo_held in H. exact (H eq_refl).
Defined.

(** Three bytes are confirmed, and a crash leaves a fourth. *)
Definition demo_three : registry := exec demo_cfg demo_create.2 (OAppend 1 NoFault "upload_a" "tok" 0 [1; 2; 3] 3).

Lemma upload_crash_recovery_witness :
  acked (_load 3 (write_temp (set_offset 3 demo_record) [1; 2; 3; 9] demo_three)) "upload_a" = Some [1; 2; 3].
Proof.
  assert (inv demo_cfg demo_three) as I.
  { apply upload_exec_inv; [|done]. eapply create_spec; [exact demo_inv| |exact demo_create_eq]. done. }
  assert (∃ f, temps demo_three !! part_path "upload_a" = Some f ∧ f.(content) = [1; 2; 3]) as (f & F & Fc)
    by (eexists; split; vm_compute; reflexivity).
  destruct (upload_crash_recovery demo_cfg demo_three "upload_a" (set_offset 3 demo_record) f [1; 2; 3; 9] 3 I
    ltac:(vm_compute; reflexivity) ltac:(vm_compute; reflexivity) F ltac:(vm_compute; reflexivity))
    as (_ & _ & H & _); [by rewrite Fc|simpl; lia|]. rewrite H. vm_compute. reflexivity.
Defined.
