(* ===== verification/PathAccess.v ===== *)
(** * PathAccess: which access a path has under the configured rules

    Models src/openkapsel/auth/path_access.py, apart from the directory walk of
    [existing_pattern_masks].  A [Path] is its anchor and its components.  The
    file system is a parameter: which paths are directories, and the
    normalization ([resolve] or [abspath]) applied to the arguments. *)

From Stdlib Require Import ZArith Lia Ascii String.
From stdpp Require Import base tactics list list_numbers gmap strings sets.
From S2P Require Import Prelude.

Local Open Scope Z_scope.

(** ** Paths *)

Record path := Path { anchor : string; comps : list string }.

#[export] Instance path_eq_dec : EqDecision path.
Proof. solve_decision. Defined.

(** [Path(text)]: empty and [.] components disappear; exactly two leading
    slashes are an anchor of their own. *)
Definition to_path (text : string) : path :=
  let parts := filter (λ c, c ≠ ""%string ∧ c ≠ "."%string) (split_on "/" text) in
  if startswith "//" text && negb (startswith "///" text) then Path "//" parts
  else if startswith "/" text then Path "/" parts
  else Path "" parts.

(** A proper component of a path. *)
Definition wf_comp (c : string) : Prop := c ≠ ""%string ∧ c ≠ "."%string ∧ has_char "/" c = false.

Lemma concat_split cs :
  cs ≠ [] → Forall wf_comp cs → split_on "/" (String.concat "/" cs) = cs.
Proof.
  induction cs as [|c cs IH]; [done|]. intros _ F. inversion F as [|? ? (_ & _ & Hc) F']; subst.
  destruct cs as [|d cs]; [by apply split_on_none|].
  change (String.concat "/" (c :: d :: cs)) with (c +:+ String "/" (String.concat "/" (d :: cs))).
  rewrite split_on_app by done. by rewrite IH.
Qed.

Lemma concat_last_char cs :
  cs ≠ [] → Forall wf_comp cs →
  rstrip (Ascii.eqb "/") (String.concat "/" cs) = String.concat "/" cs.
Proof.
  assert (∀ c, wf_comp c → rstrip (Ascii.eqb "/") c = c) as W.
  { intros c (_ & _ & Hc). apply rstrip_none. revert Hc. unfold has_char.
    induction c as [|d c IH]; [done|]. cbn [str_exists str_forall]. rewrite orb_false_iff.
    intros [-> Hc]. by apply IH. }
  induction cs as [|c cs IH]; [done|]. intros _ F. inversion F as [|? ? Hc F']; subst.
  destruct cs as [|d cs]; [by apply W|].
  change (String.concat "/" (c :: d :: cs)) with (c +:+ ("/" +:+ String.concat "/" (d :: cs))).
  rewrite !rstrip_app, IH by done.
  destruct (String.concat "/" (d :: cs)) eqn:E; [|done].
  exfalso. inversion F' as [|? ? (Hd & _) _]; subst. destruct d; [done|]. by destruct cs.
Qed.

Definition is_absolute (p : path) : bool := negb (is_empty p.(anchor)).

(** [p.parts]; the anchor is the first part of an absolute path. *)
Definition parts (p : path) : list string :=
  if is_absolute p then p.(anchor) :: p.(comps) else p.(comps).

Definition name (p : path) : string := default ""%string (last p.(comps)).

(** [(p, *p.parents)], the deepest first. *)
Definition self_and_parents (p : path) : list path :=
  (λ n, Path p.(anchor) (take n p.(comps))) <$> rev (seq 0 (S (length p.(comps)))).

(** [q in p.parents] *)
Definition in_parents (q p : path) : bool :=
  bool_decide (q.(anchor) = p.(anchor) ∧ q.(comps) `prefix_of` p.(comps) ∧ q.(comps) ≠ p.(comps)).

(** [p.relative_to(root).parts] *)
Definition relative_to (p root : path) : option (list string) :=
  if bool_decide (p = root) || in_parents root p
  then Some (drop (length root.(comps)) p.(comps)) else None.

(** [text.casefold()] below code point 256; only the sharp s has a longer
    folding (the micro sign's lies outside and compares like itself here). *)
Definition c_fold (c : ascii) : string :=
  let n := code c in
  if is_upper c || (in_range 192 222 c && negb (n =? 215))
  then String (ascii_of_N (N_of_ascii c + 32)) EmptyString
  else if n =? 223 then "ss" else String c EmptyString.

Fixpoint casefold (s : string) : string :=
  match s with EmptyString => EmptyString | String c s' => c_fold c +:+ casefold s' end.

(** ** Reserved names *)

Definition is_private_name (n : string) : bool :=
  let folded := casefold n in
  String.eqb folded ".openkapsel" || startswith ".openkapsel-" folded.

Definition has_private_component (p : path) : bool := existsb is_private_name (parts p).

Definition is_hexdigit (c : ascii) : bool := is_dec c || in_range 97 102 c.
Definition is_urlsafe (c : ascii) : bool := is_alnum c || Ascii.eqb c "_" || Ascii.eqb c "-".

(** What follows the prefix [p] in [s]. *)
Fixpoint after_prefix (p s : string) : option string :=
  match p, s with
  | EmptyString, _ => Some s
  | String a p', String b s' => if Ascii.eqb a b then after_prefix p' s' else None
  | _, EmptyString => None
  end.

Definition staging_component (n : string) : bool :=
  match after_prefix ".openkapsel-share-" n, after_prefix ".openkapsel-transfer-" n with
  | Some rest, _ => (slen rest =? 24) && str_forall is_hexdigit rest
  | None, Some rest => (slen rest =? 24) && str_forall is_urlsafe rest
  | None, None => false
  end.

Definition is_internal_transfer_stage (p root : path) : bool :=
  if has_private_component root then false
  else
    match relative_to p root with
    | None => false
    | Some rel =>
        match filter (λ c, is_private_name c = true) rel with
        | [c] => staging_component c
        | _ => false
        end
    end.

(** ** Rules *)

Definition has_wildcard (s : string) : bool :=
  has_char "*" s || has_char "?" s || has_char "[" s.

(** [s[:-1]] *)
Definition chop (s : string) : string := String.substring 0 (String.length s - 1) s.

(** (any-prefix, directory, target) *)
Definition _rule_parts (raw : string) : res exn (bool * bool * string) :=
  raise! (ValueError "invalid path rule") when (is_empty raw || has_char (ascii_of_N 0) raw);
  let suffix := startswith "*/" raw in
  let directory := endswith "/" raw in
  if suffix then
    let target := String.substring 2 (String.length raw - 2) raw in
    let n := if directory then chop target else target in
    raise! (ValueError "prefix-ignored rules match one literal name")
      when (is_empty n || bool_decide (n ∈ ["."; ".."]%string) || has_char "/" n
            || has_char "\" n || has_wildcard n);
    Ok (true, directory, n)
  else
    raise! (ValueError "wildcards are permitted only as an initial */") when has_wildcard raw;
    let body :=
      if directory then
        let t := rstrip (Ascii.eqb "/") raw in if is_empty t then "/"%string else t
      else raw in
    raise! (ValueError "path rules must use absolute paths")
      when (negb (is_absolute (to_path body)) || bool_decide (".."%string ∈ parts (to_path body)));
    Ok (false, directory, body).

Inductive access := rw | ro | protect | deny.
#[export] Instance access_eq_dec : EqDecision access.
Proof. solve_decision. Defined.

Definition DEFAULT_ACCESS_RULES : list (string * access) :=
  [("*/.git/", protect); ("*/.git", protect); ("*/.config/", protect); ("*/.ssh/", protect);
   ("*/.openkapsel/", deny); ("*/.gitconfig", protect); ("*/.gitattributes", protect);
   ("*/.gitmodules", protect)]%string.

Definition _FOLDED_PROTECTED_NAMES : list string :=
  [".git"; ".config"; ".ssh"; ".openkapsel"; ".gitconfig"; ".gitattributes"; ".gitmodules"].

Definition _literal_name_matches (n configured : string) : bool :=
  String.eqb n configured
  || (bool_decide (casefold configured ∈ _FOLDED_PROTECTED_NAMES)
      && String.eqb (casefold n) (casefold configured)).

(** A path grant of a token. *)
Record PathGrant := {
  grant_path : string; grant_access : access; strict_file : bool; legacy_directory : bool }.

Section filesystem.
(** [Path.is_dir], and the normalization of the arguments. *)
Variable is_dir : path → bool.
Variable normalize : path → path.

Definition _matching_anchor (p : path) (raw : string) : res exn (option (path * bool)) :=
  let! (suffix, directory, target) := _rule_parts raw in
  if suffix : bool then
    match filter (λ a, _literal_name_matches (name a) target = true) (self_and_parents p) with
    | [] => Ok None
    | a :: _ =>
        if negb directory && (negb (bool_decide (a = p)) || is_dir a) then Ok None
        else Ok (Some (a, true))
    end
  else
    let a := to_path target in
    if negb (bool_decide (p = a)) && (negb directory || negb (in_parents a p)) then Ok None
    else if negb directory && is_dir a then Ok None
    else Ok (Some (a, false)).

Definition normalized_explicit_rule (g : PathGrant) : string :=
  let raw := g.(grant_path) in
  if negb (endswith "/" raw) && negb (startswith "*/" raw) && negb g.(strict_file)
     && (g.(legacy_directory) || is_dir (to_path raw))
  then raw +:+ "/" else raw.

(** A rule that matched: its mode, the matched anchor, whether it is a suffix
    rule, and whether an administrator configured it. *)
Record matched := {
  m_access : access; m_anchor : path; m_suffix : bool; m_configured : bool }.

Definition depth (m : matched) : nat := length (parts m.(m_anchor)).

(** The configured rules that match, in order. *)
Fixpoint match_rules (p : path) (configured : bool) (rules : list (string * access))
    : res exn (list matched) :=
  match rules with
  | [] => Ok []
  | (raw, mode) :: rest =>
      let! found := _matching_anchor p raw in
      let! more := match_rules p configured rest in
      match found with
      | Some (a, suffix) =>
          Ok ({| m_access := mode; m_anchor := a; m_suffix := suffix; m_configured := configured |}
              :: more)
      | None => Ok more
      end
  end.

Definition weight (a : access) : Z :=
  match a with rw => 0 | ro => 1 | protect => 2 | deny => 3 end.

(** [max(..., key=weight)]: the first of the heaviest. *)
Fixpoint heaviest (best : access) (l : list access) : access :=
  match l with
  | [] => best
  | a :: rest => heaviest (if weight best <? weight a then a else best) rest
  end.

(** The mode of the deepest matches, by strictness. *)
Definition strictest_deepest (ms : list matched) : option access :=
  let deepest := foldr Nat.max 0%nat (depth <$> ms) in
  match filter (λ m, depth m = deepest) ms with
  | [] => None
  | m :: rest => Some (heaviest m.(m_access) (m_access <$> rest))
  end.

Definition root_mode (writable : bool) : access := if writable then rw else ro.

Definition root_match (root : path) (writable : bool) : matched :=
  {| m_access := root_mode writable; m_anchor := root; m_suffix := false; m_configured := false |}.

Definition private_state (p : path) : bool :=
  existsb (λ c, startswith ".openkapsel-" (casefold c)) (parts p).

(** The evaluation on normalized paths. *)
Definition evaluate (p root : path) (writable : bool) (explicit : list (string * access))
    (internal_transfer : bool) : res exn (option access) :=
  let! ex := match_rules p true explicit in
  let! defaults := match_rules p false DEFAULT_ACCESS_RULES in
  let kept := filter (λ m, m.(m_anchor) ∉ (m_anchor <$> ex)) defaults in
  let within := bool_decide (p = root) || in_parents root p in
  if negb within && negb (existsb (λ m, negb m.(m_suffix)) ex) then Ok None
  else
    let transport_stage := internal_transfer && is_internal_transfer_stage p root in
    if private_state p && negb transport_stage then Ok (Some deny)
    else
      let matches := kept ++ ex in
      if existsb (λ m, m.(m_configured) && negb m.(m_suffix)
                       && bool_decide (m.(m_access) = deny)) matches then Ok (Some deny)
      else if transport_stage then Ok (Some (root_mode writable))
      else Ok (strictest_deepest (if within then matches ++ [root_match root writable] else matches)).

Definition effective_path_access (p root : path) (writable : bool) (grants : list PathGrant)
    (internal_transfer : bool) : res exn (option access) :=
  evaluate (normalize p) (normalize root) writable
    ((λ g, (normalized_explicit_rule g, g.(grant_access))) <$> grants) internal_transfer.
End filesystem.

(** ** Declarative reading *)

Lemma weight_inj a b : weight a = weight b → a = b.
Proof. by destruct a, b. Qed.

(** [a] is the strictest mode among the deepest of the matches [M]. *)
Definition governs (M : matched → Prop) (a : access) : Prop :=
  ∃ m, M m ∧ m.(m_access) = a ∧
    (∀ m', M m' → (depth m' ≤ depth m)%nat) ∧
    (∀ m', M m' → depth m' = depth m → weight m'.(m_access) ≤ weight a).

#[export] Instance governs_proper :
  Proper (pointwise_relation _ (↔) ==> eq ==> (↔)) governs.
Proof.
  intros M M' HM a ? <-. unfold governs. split; intros (m & H & ? & D & W); exists m;
    (split_and!; [by apply HM|done|..]); intros m' H'; apply HM in H'; auto.
Qed.

Lemma governs_unique M a b : governs M a → governs M b → a = b.
Proof.
  intros (m & Hm & <- & D & W) (m' & Hm' & <- & D' & W').
  assert (depth m = depth m') by (specialize (D _ Hm'); specialize (D' _ Hm); lia).
  apply weight_inj. pose proof (W _ Hm' ltac:(congruence)). pose proof (W' _ Hm ltac:(congruence)). lia.
Qed.

Lemma heaviest_spec best l :
  heaviest best l ∈ best :: l ∧ ∀ b, b ∈ best :: l → weight b ≤ weight (heaviest best l).
Proof.
  revert best. induction l as [|a l IH]; intros best; simpl.
  - split; [set_solver|]. intros b [->|?]%elem_of_cons; [lia|set_solver].
  - destruct (IH (if weight best <? weight a then a else best)) as [E W]. split.
    + destruct (weight best <? weight a); set_solver.
    + intros b Hb. destruct (Z.ltb_spec (weight best) (weight a)) as [L|L].
      * pose proof (W a ltac:(left)). apply elem_of_cons in Hb as [->|Hb]; [lia|]. by apply W.
      * pose proof (W best ltac:(left)). apply elem_of_cons in Hb as [->|Hb]; [done|].
        apply elem_of_cons in Hb as [->|Hb]; [lia|]. apply W. by right.
Qed.

Lemma max_depth ms m : m ∈ ms → (depth m ≤ foldr Nat.max 0%nat (depth <$> ms))%nat.
Proof.
  induction ms as [|x ms IH]; [set_solver|].
  change (foldr Nat.max 0%nat (depth <$> x :: ms)) with
    (Nat.max (depth x) (foldr Nat.max 0%nat (depth <$> ms))).
  intros [->|H]%elem_of_cons; [lia|]. specialize (IH H). lia.
Qed.

Lemma max_depth_reached ms :
  ms ≠ [] → ∃ m, m ∈ ms ∧ depth m = foldr Nat.max 0%nat (depth <$> ms).
Proof.
  induction ms as [|x ms IH]; [done|]. intros _.
  change (foldr Nat.max 0%nat (depth <$> x :: ms)) with
    (Nat.max (depth x) (foldr Nat.max 0%nat (depth <$> ms))).
  destruct ms as [|y ms]; [exists x; split; [left|change (foldr _ _ _) with 0%nat; lia]|].
  destruct IH as (m & Hm & E); [done|]. rewrite <- E.
  destruct (Nat.max_dec (depth x) (depth m)) as [->| ->]; [exists x|exists m]; (split; [set_solver|done]).
Qed.

Lemma strictest_none ms : strictest_deepest ms = None → ms = [].
Proof.
  unfold strictest_deepest. destruct ms as [|y ms']; [done|]. set (ms := y :: ms').
  destruct (max_depth_reached ms) as (x & Hx & Dx); [done|].
  destruct (filter (λ m, depth m = foldr Nat.max 0%nat (depth <$> ms)) ms) eqn:Q; [|done].
  intros _. exfalso. apply (not_elem_of_nil x). rewrite <- Q. by apply list_elem_of_filter.
Qed.

Lemma strictest_spec ms a : strictest_deepest ms = Some a ↔ governs (λ m, m ∈ ms) a.
Proof.
  assert (∀ b, strictest_deepest ms = Some b → governs (λ m, m ∈ ms) b) as Sound.
  { intros b. unfold strictest_deepest. set (d := foldr Nat.max 0%nat (depth <$> ms)).
    destruct (filter (λ m, depth m = d) ms) as [|x rest] eqn:E; [done|]. intros [= <-].
    destruct (heaviest_spec x.(m_access) (m_access <$> rest)) as [Hin W].
    assert (∀ m, m ∈ x :: rest ↔ depth m = d ∧ m ∈ ms) as F
      by (intros m; by rewrite <- E, list_elem_of_filter).
    change (m_access x :: (m_access <$> rest)) with (m_access <$> x :: rest) in *.
    apply list_elem_of_fmap in Hin as (m & Hm & Hin). apply F in Hin as [Dm Hin].
    exists m. split_and!; [done|done|intros m' H; rewrite Dm; by apply max_depth|].
    intros m' H Dm'. apply W, list_elem_of_fmap. exists m'. split; [done|]. apply F. split; [congruence|done]. }
  split; [apply Sound|]. intros G.
  pose proof (strictest_none ms) as E. destruct (strictest_deepest ms) as [b|].
  { by rewrite (governs_unique _ _ _ (Sound b eq_refl) G). }
  rewrite (E eq_refl) in G. destruct G as (m & Hm & _). by apply not_elem_of_nil in Hm.
Qed.

Section spec.
Variable is_dir : path → bool.

(** What a rule contributes. *)
Definition applied (p : path) (configured : bool) (rule : string * access) : option matched :=
  match _matching_anchor is_dir p rule.1 with
  | Ok (Some (a, suffix)) =>
      Some {| m_access := rule.2; m_anchor := a; m_suffix := suffix; m_configured := configured |}
  | _ => None
  end.

Definition valid_rule (raw : string) : Prop := ∃ parts, _rule_parts raw = Ok parts.

Lemma matching_valid p raw : valid_rule raw ↔ ∃ found, _matching_anchor is_dir p raw = Ok found.
Proof.
  unfold valid_rule, _matching_anchor. split.
  - intros [[[suffix directory] target] ->]. destruct suffix.
    + destruct (filter _ _); [eauto|]. destruct (_ && _); eauto.
    + destruct (_ && _); [eauto|]. destruct (_ && _); eauto.
  - intros [found H]. destruct (_rule_parts raw); [eauto|done].
Qed.

Lemma match_rules_ok p c rules ms :
  match_rules is_dir p c rules = Ok ms ↔
  Forall (λ r, valid_rule r.1) rules ∧ ms = omap (applied p c) rules.
Proof.
  revert ms. induction rules as [|[raw mode] rules IH]; intros ms; simpl.
  - split; [intros [= <-]; by split|by intros [_ ->]].
  - rewrite Forall_cons. simpl. rewrite (matching_valid p raw). unfold applied at 1. simpl.
    destruct (_matching_anchor is_dir p raw) as [found|e]; [|split; [done|intros [[[? ?] _] _]; done]].
    destruct (match_rules is_dir p c rules) as [more|e] eqn:E.
    + destruct (proj1 (IH more) eq_refl) as [V ->].
      destruct found as [[a s]|]; (split; [intros [= <-]; eauto|by intros [_ ->]]).
    + split; [done|]. intros [[_ V] _].
      by pose proof (proj2 (IH _) (conj V eq_refl)).
Qed.

Lemma match_rules_err p c rules e :
  match_rules is_dir p c rules = Err e → ¬ Forall (λ r, valid_rule r.1) rules.
Proof. intros E V. by rewrite (proj2 (match_rules_ok p c rules _) (conj V eq_refl)) in E. Qed.

(** The built-in rules are valid. *)
Lemma defaults_ok p :
  match_rules is_dir p false DEFAULT_ACCESS_RULES = Ok (omap (applied p false) DEFAULT_ACCESS_RULES).
Proof. apply match_rules_ok. split; [|done]. repeat constructor; by eexists. Qed.

Definition explicit_rules (grants : list PathGrant) : list (string * access) :=
  (λ g, (normalized_explicit_rule is_dir g, g.(grant_access))) <$> grants.

(** Everything that matches [p]: the grants, the built-in rules at anchors no
    grant names, and the root itself when [p] lies within it. *)
Definition inside (p root : path) : Prop := p = root ∨ in_parents root p = true.

Definition configured_match (p : path) (grants : list PathGrant) (m : matched) : Prop :=
  ∃ r, r ∈ explicit_rules grants ∧ applied p true r = Some m.

Definition default_match (p : path) (grants : list PathGrant) (m : matched) : Prop :=
  (∃ r, r ∈ DEFAULT_ACCESS_RULES ∧ applied p false r = Some m) ∧
  ∀ m', configured_match p grants m' → m'.(m_anchor) ≠ m.(m_anchor).

Definition matching (p root : path) (writable : bool) (grants : list PathGrant) (m : matched) : Prop :=
  default_match p grants m ∨ configured_match p grants m ∨
  (inside p root ∧ m = root_match root writable).

(** A configured literal deny. *)
Definition absolute_deny (p : path) (grants : list PathGrant) : Prop :=
  ∃ m, configured_match p grants m ∧ m.(m_suffix) = false ∧ m.(m_access) = deny.

Definition literal_match (p : path) (grants : list PathGrant) : Prop :=
  ∃ m, configured_match p grants m ∧ m.(m_suffix) = false.

Lemma elem_configured p grants m :
  m ∈ omap (applied p true) (explicit_rules grants) ↔ configured_match p grants m.
Proof. apply list_elem_of_omap. Qed.

Lemma applied_configured p c r m : applied p c r = Some m → m.(m_configured) = c.
Proof.
  unfold applied. destruct (_matching_anchor _ _ _) as [[[a s]|]|]; [|done..]. by intros [= <-].
Qed.

Lemma elem_kept p grants m :
  m ∈ filter (λ m, m.(m_anchor) ∉ (m_anchor <$> omap (applied p true) (explicit_rules grants)))
        (omap (applied p false) DEFAULT_ACCESS_RULES) ↔ default_match p grants m.
Proof.
  rewrite list_elem_of_filter, list_elem_of_omap, list_elem_of_fmap. unfold default_match.
  setoid_rewrite elem_configured. naive_solver.
Qed.
End spec.

(** ** Properties *)

Section decisions.
Variable is_dir : path → bool.
Variable normalize : path → path.

(** The evaluation in terms of what matches. *)
Definition decision (p root : path) (writable : bool) (grants : list PathGrant)
    (transport : bool) (res : option access) : Prop :=
  let stage := transport && is_internal_transfer_stage p root in
  match res with
  | None => ¬ inside p root ∧ ¬ literal_match is_dir p grants
  | Some a =>
      (inside p root ∨ literal_match is_dir p grants) ∧
      if private_state p && negb stage then a = deny
      else
        (absolute_deny is_dir p grants → a = deny) ∧
        (¬ absolute_deny is_dir p grants →
           if stage then a = root_mode writable
           else governs (matching is_dir p root writable grants) a)
  end.

Lemma existsb_configured p grants (q : matched → bool) :
  existsb q (omap (applied is_dir p true) (explicit_rules is_dir grants)) = true ↔
  ∃ m, configured_match is_dir p grants m ∧ q m = true.
Proof.
  rewrite existsb_exists. setoid_rewrite <- list_elem_of_In. by setoid_rewrite elem_configured.
Qed.

(** Only configured rules carry the mark. *)
Lemma deny_guard p grants kept :
  (∀ m, m ∈ kept → m.(m_configured) = false) →
  existsb (λ m, m.(m_configured) && negb m.(m_suffix) && bool_decide (m.(m_access) = deny))
    (kept ++ omap (applied is_dir p true) (explicit_rules is_dir grants)) = true
  ↔ absolute_deny is_dir p grants.
Proof.
  intros K. rewrite existsb_app, orb_true_iff, existsb_configured. unfold absolute_deny. split.
  - intros [H|(m & Hm & G)].
    + apply existsb_exists in H as (m & Hm%list_elem_of_In & G). by rewrite (K _ Hm) in G.
    + exists m. bools. naive_solver.
  - intros (m & Hm & Sx & A). right. exists m. split; [done|]. destruct Hm as (r & _ & E).
    by rewrite (applied_configured _ _ _ _ _ E), Sx, A.
Qed.

Lemma matching_elem p root writable grants :
  let ex := omap (applied is_dir p true) (explicit_rules is_dir grants) in
  let kept := filter (λ m, m.(m_anchor) ∉ (m_anchor <$> ex))
                (omap (applied is_dir p false) DEFAULT_ACCESS_RULES) in
  let within := bool_decide (p = root) || in_parents root p in
  ∀ m, m ∈ (if within then (kept ++ ex) ++ [root_match root writable] else kept ++ ex) ↔
    matching is_dir p root writable grants m.
Proof.
  intros ex kept within m. unfold matching.
  assert (inside p root ↔ within = true) as W by (unfold inside, within; bools; done).
  rewrite <- (elem_configured is_dir p grants m), <- (elem_kept is_dir p grants m), W.
  fold ex kept. destruct within; set_solver.
Qed.

Lemma evaluate_decision p root writable grants transport :
  match evaluate is_dir p root writable (explicit_rules is_dir grants) transport with
  | Ok res => Forall (λ r, valid_rule r.1) (explicit_rules is_dir grants) ∧
              decision p root writable grants transport res
  | Err _ => ¬ Forall (λ r, valid_rule r.1) (explicit_rules is_dir grants)
  end.
Proof.
  unfold evaluate, decision.
  destruct (match_rules is_dir p true (explicit_rules is_dir grants)) as [ex|e] eqn:E;
    [|by eapply match_rules_err].
  apply match_rules_ok in E as [V ->]. rewrite defaults_ok.
  set (ex := omap (applied is_dir p true) (explicit_rules is_dir grants)).
  set (kept := filter _ _). set (within := bool_decide (p = root) || in_parents root p).
  assert (inside p root ↔ within = true) as W by (unfold inside, within; bools; done).
  assert (existsb (λ m, negb m.(m_suffix)) ex = true ↔ literal_match is_dir p grants) as Lit.
  { unfold ex. rewrite existsb_configured. unfold literal_match. by setoid_rewrite negb_true_iff. }
  assert (∀ m, m ∈ kept → m.(m_configured) = false) as K.
  { intros m [_ H]%list_elem_of_filter. apply list_elem_of_omap in H as (r & _ & H).
    by eapply applied_configured. }
  pose proof (deny_guard p grants kept K) as D. fold ex in D.
  pose proof (matching_elem p root writable grants) as M. cbv zeta in M. fold ex kept within in M.
  destruct (negb within && negb (existsb _ ex)) eqn:G.
  { split; [done|]. bools. destruct G as [G1 G2]. rewrite W, <- Lit, G1, G2. done. }
  assert (inside p root ∨ literal_match is_dir p grants) as Open.
  { rewrite W, <- Lit. destruct within; [auto|]. right. bools. naive_solver. }
  set (stage := transport && is_internal_transfer_stage p root).
  destruct (private_state p && negb stage); [by split|].
  destruct (existsb _ (kept ++ ex)) eqn:Ed.
  { split; [done|]. split; [done|]. split; [done|]. intros N. exfalso. by apply N, D. }
  assert (¬ absolute_deny is_dir p grants) as Nd by (rewrite <- D; congruence).
  destruct stage; [by split_and!|]. split; [done|].
  destruct (strictest_deepest _) as [a|] eqn:Sd.
  - apply strictest_spec in Sd. split; [done|]. split; [done|]. intros _.
    eapply governs_proper; [|reflexivity|exact Sd]. intros m. symmetry. apply M.
  - apply strictest_none in Sd. exfalso. destruct within.
    + destruct (kept ++ ex); discriminate.
    + destruct Open as [?%W|(m & Hm & _)]; [done|]. apply elem_configured in Hm.
      assert (m ∈ kept ++ ex) as X by (apply elem_of_app; by right). rewrite Sd in X.
      by apply not_elem_of_nil in X.
Qed.

(** C34: the access of a path is decided as documented: nothing outside the root
    without a literal grant; private state is denied except to the internal
    transport; a configured literal deny is absolute; otherwise the strictest
    mode among the deepest matches of grants, built-in rules at anchors no grant
    names, and the root itself. An error means some grant is not a valid rule. *)
Theorem path_access_decided p root writable grants transport :
  match effective_path_access is_dir normalize p root writable grants transport with
  | Ok res => decision (normalize p) (normalize root) writable grants transport res
  | Err _ => ∃ g, g ∈ grants ∧ ¬ valid_rule (normalized_explicit_rule is_dir g)
  end.
Proof.
  unfold effective_path_access.
  pose proof (evaluate_decision (normalize p) (normalize root) writable grants transport) as H.
  unfold explicit_rules in *. destruct (evaluate _ _ _ _ _ _) as [res|e]; [by destruct H|].
  assert (∀ raw, Decision (valid_rule raw)) as Dec.
  { intros raw. unfold valid_rule. destruct (_rule_parts raw) as [x|]; [left; eauto|right; by intros [? ?]]. }
  apply not_Forall_Exists in H; [|solve_decision]. apply Exists_exists in H as (r & Hr & N).
  apply list_elem_of_fmap in Hr as (g & -> & Hg). eauto.
Qed.

Lemma configured_perm p grants grants' m :
  grants ≡ₚ grants' → configured_match is_dir p grants m ↔ configured_match is_dir p grants' m.
Proof. intros P. unfold configured_match, explicit_rules. by setoid_rewrite P. Qed.

Lemma decision_unique p root writable grants transport r1 r2 :
  decision p root writable grants transport r1 → decision p root writable grants transport r2 → r1 = r2.
Proof.
  unfold decision. destruct r1 as [a|], r2 as [b|]; [|naive_solver..|done].
  intros [_ Ha] [_ Hb]. destruct (private_state p && _); [congruence|]. f_equal.
  destruct Ha as [Ha1 Ha2], Hb as [Hb1 Hb2].
  assert (¬ ¬ a = b) as NN; [|by destruct (decide (a = b))]. intros Hne.
  assert (absolute_deny is_dir p grants → False) as Nd by (intros X; rewrite Ha1, Hb1 in Hne; done).
  specialize (Ha2 Nd). specialize (Hb2 Nd). destruct (transport && _); [congruence|].
  by apply Hne, (governs_unique _ _ _ Ha2).
Qed.

Lemma decision_perm p root writable grants grants' transport res :
  grants ≡ₚ grants' → decision p root writable grants transport res →
  decision p root writable grants' transport res.
Proof.
  intros P. assert (∀ m, configured_match is_dir p grants m ↔ configured_match is_dir p grants' m) as C
    by (intros m; by apply configured_perm).
  assert (absolute_deny is_dir p grants ↔ absolute_deny is_dir p grants') as A
    by (unfold absolute_deny; by setoid_rewrite C).
  assert (literal_match is_dir p grants ↔ literal_match is_dir p grants') as L
    by (unfold literal_match; by setoid_rewrite C).
  assert (∀ a, governs (matching is_dir p root writable grants) a ↔
    governs (matching is_dir p root writable grants') a) as G.
  { intros a. apply governs_proper; [|done]. intros m. unfold matching, default_match.
    by setoid_rewrite C. }
  unfold decision. destruct res as [a|]; [|by rewrite L].
  rewrite L. intros [O D]. split; [done|]. destruct (private_state p && _); [done|].
  rewrite <- A. destruct (transport && _); [done|]. by rewrite <- G.
Qed.

(** the order in which the grants are configured does not matter. *)
Theorem path_access_unordered p root writable grants grants' transport :
  grants ≡ₚ grants' →
  match effective_path_access is_dir normalize p root writable grants transport,
        effective_path_access is_dir normalize p root writable grants' transport with
  | Ok a, Ok b => a = b
  | Err _, Err _ => True
  | _, _ => False
  end.
Proof.
  intros P. unfold effective_path_access.
  pose proof (evaluate_decision (normalize p) (normalize root) writable grants transport) as H.
  pose proof (evaluate_decision (normalize p) (normalize root) writable grants' transport) as H'.
  unfold explicit_rules in *.
  assert (∀ Q : string * access → Prop,
    Forall Q ((λ g, (normalized_explicit_rule is_dir g, g.(grant_access))) <$> grants) ↔
    Forall Q ((λ g, (normalized_explicit_rule is_dir g, g.(grant_access))) <$> grants')) as F
    by (intros Q; by rewrite P).
  destruct (evaluate _ _ _ _ _ _) as [a|e], (evaluate _ _ _ _ _ _) as [b|e'].
  - destruct H as [_ H], H' as [_ H']. eapply decision_unique; [|exact H']. by eapply decision_perm.
  - apply H', F, H.
  - apply H, F, H'.
  - done.
Qed.
End decisions.

(** ** Examples *)

Definition demo_grant (p : string) (a : access) : PathGrant :=
  {| grant_path := p; grant_access := a; strict_file := true; legacy_directory := false |}.

Definition demo_grants : list PathGrant :=
  [demo_grant "/w/a/" ro; demo_grant "/w/a/open/" rw; demo_grant "/w/a/secret/" deny;
   demo_grant "/w/a/" protect].

Definition demo_access (p : string) : res exn (option access) :=
  effective_path_access (λ _, false) id (to_path p) (to_path "/w") true demo_grants false.

Example demo_modes :
  demo_access <$> ["/w/x"; "/w/a/f"; "/w/a/open/f"; "/w/a/open/.GIT/config"; "/w/a/secret/k"; "/etc"]%string
  = [Ok (Some rw); Ok (Some protect); Ok (Some rw); Ok (Some protect); Ok (Some deny); Ok None].
Proof. vm_compute. reflexivity. Qed.

