(* ===== verification/Capability.v ===== *)
(** * Capability: workspace passwords and time-bound approvals

    Models src/openkapsel/auth/capability_grants.py: the password table, the
    setup links, the pending approval requests and the active grants.  The
    monotonic clock is an argument of every operation, in microseconds; tickets,
    salts and the browser key are random values, also arguments or part of the
    state.  The callback [on_revoke_workspace] does not touch this store.  Every
    method runs under the lock; one that raises may have changed the state, so
    operations return a result and the new state. *)

From Stdlib Require Import ZArith Lia Ascii String.
From stdpp Require Import base tactics list list_numbers gmap strings fin_maps sets.
From S2P Require Import Prelude Calendar Hashing Password PathAccess.

Local Open Scope Z_scope.

Definition CAPABILITIES : list string := ["shell.unsandboxed"; "files.read"; "files.write"].
Definition FILE_CAPABILITIES : list string := ["files.read"; "files.write"].
Definition PENDING_SECONDS : Z := 30 * 60.
Definition MAX_SECONDS : Z := 24 * 3600.
Definition MAX_PENDING_PER_TOKEN : Z := 32.
Definition MAX_APPROVAL_REASON_CHARS : Z := 500.
Definition MAX_ATTEMPTS : Z := 5.
Definition PASSWORD_SETUP_SECONDS : Z := 15 * 60.

Record Pending := {
  workspace : string; conversation_id : Z; target : string; capability : string; deadline : Z;
  p_path : string; reason : string; original_path : string; resolved_path : string;
  scope_is_directory : bool; confirmation_cookie : string; confirmation_seconds : Z;
  attempts : Z }.

(** (workspace, conversation, target, capability, path) *)
Abbreviation grant_key := (string * Z * string * string * string)%type.

Record grants := Grants {
  passwords : gmap string string;
  setup_links : gmap string (string * Z);
  pending_requests : gmap string Pending;
  active : gmap grant_key Z;
  browser_key : bytes }.

Definition with_passwords f (s : grants) : grants :=
  Grants (f (passwords s)) (setup_links s) (pending_requests s) (active s) (browser_key s).
Definition with_links f (s : grants) : grants :=
  Grants (passwords s) (f (setup_links s)) (pending_requests s) (active s) (browser_key s).
Definition with_pending f (s : grants) : grants :=
  Grants (passwords s) (setup_links s) (f (pending_requests s)) (active s) (browser_key s).
Definition with_active f (s : grants) : grants :=
  Grants (passwords s) (setup_links s) (pending_requests s) (f (active s)) (browser_key s).

Abbreviation result := (res exn).

(** ** Passwords and setup links *)

Definition configured (ws : string) (s : grants) : bool := bool_decide (is_Some (passwords s !! ws)).

Definition revoke_workspace (ws : string) (s : grants) : grants :=
  Grants (passwords s)
    (filter (λ kv, kv.2.1 ≠ ws) (setup_links s))
    (filter (λ kv, kv.2.(workspace) ≠ ws) (pending_requests s))
    (filter (λ kv : grant_key * Z, kv.1.1.1.1.1 ≠ ws) (active s))
    (browser_key s).

Definition set_password (salt : bytes) (ws password : string) (s : grants) : result unit * grants :=
  if negb ((6 <=? slen password) && (slen password <=? 1024)) then
    (Err (ValueError "workspace password must contain 6-1024 characters"), s)
  else
    match hash_password 6 salt password with
    | Err e => (Err e, s)
    | Ok encoded =>
        let s := revoke_workspace ws (with_passwords (insert ws encoded) s) in
        (Ok tt, with_links (filter (λ kv, kv.2.1 ≠ ws)) s)
    end.

Definition create_password_setup_link (now : Z) (ticket ws : string) (s : grants)
    : result string * grants :=
  if is_empty ws then (Err (ValueError "invalid Token Workspace"), s)
  else
    let s := with_links (filter (λ kv, now < kv.2.2 ∧ kv.2.1 ≠ ws)) s in
    (Ok ticket, with_links (insert ticket (ws, now + PASSWORD_SETUP_SECONDS * sec_us)) s).

Definition password_setup_workspace (now : Z) (ticket : string) (s : grants)
    : option string * grants :=
  match setup_links s !! ticket with
  | None => (None, s)
  | Some (ws, expires) =>
      if expires <=? now then (None, with_links (delete ticket) s) else (Some ws, s)
  end.

Definition consume_password_setup_link (now : Z) (salt : bytes) (ticket password confirmation : string)
    (s : grants) : result string * grants :=
  if negb (String.eqb password confirmation) then (Err (ValueError "passwords do not match"), s)
  else
    let '(found, s) := password_setup_workspace now ticket s in
    match found with
    | None => (Err (ValueError "password setup link is expired or already used"), s)
    | Some ws =>
        let '(r, s) := set_password salt ws password s in
        (match r with Ok _ => Ok ws | Err e => Err e end, s)
    end.

Definition _check_password (ws password : string) (s : grants) : bool :=
  if 1024 <? slen password then false
  else match passwords s !! ws with
       | Some encoded => verify_password password encoded
       | None => false
       end.

Definition remove_workspace (ws : string) (s : grants) : grants :=
  with_links (filter (λ kv, kv.2.1 ≠ ws)) (revoke_workspace ws (with_passwords (delete ws) s)).

(** ** Requests *)

Definition _expire (now : Z) (s : grants) : grants :=
  Grants (passwords s) (setup_links s)
    (filter (λ kv, now < kv.2.(deadline)) (pending_requests s))
    (filter (λ kv : grant_key * Z, now < kv.2) (active s))
    (browser_key s).

(** [sub in s] *)
Fixpoint str_contains (sub s : string) : bool :=
  String.prefix sub s || match s with EmptyString => false | String _ s' => str_contains sub s' end.

(** The Python literals of the source: the text [\x00], two backslashes, and the
    six characters [\n\r\t]. *)
Definition escaped_nul : string := "\x00".
Definition two_backslashes : string := "\\".
Definition escaped_blanks : string := "\n\r\t".

Definition bad_request_path (cap p : string) : bool :=
  negb (is_empty p) &&
  (negb (bool_decide (cap ∈ FILE_CAPABILITIES)) || negb (startswith "/" p)
   || bool_decide (".."%string ∈ split_on "/" p)
   || str_contains escaped_nul p || str_contains two_backslashes p).

Definition bad_shown_path (p : string) : bool :=
  (4096 <? slen p) ||
  (negb (is_empty p) &&
   (negb (startswith "/" p) || bool_decide (".."%string ∈ split_on "/" p)
    || has_char (ascii_of_N 0) p || has_char "\" p)).

Definition bad_reason (r : string) : bool :=
  (MAX_APPROVAL_REASON_CHARS <? slen r)
  || str_exists (λ c, (code c <? 32) && negb (has_char c escaped_blanks)) r.

Definition pending_count (ws : string) (s : grants) : Z :=
  Z.of_nat (size (filter (λ kv : string * Pending, kv.2.(workspace) = ws) (pending_requests s))).

Record request_args := {
  r_path : string; r_reason : string; r_original : string; r_resolved : string; r_directory : bool }.

Definition request (now : Z) (ticket : string) (ws : string) (conv : Z) (tgt cap : string)
    (a : request_args) (s : grants) : result string * grants :=
  if is_empty tgt || negb (bool_decide (cap ∈ CAPABILITIES)) then
    (Err (ValueError "invalid capability approval request"), s)
  else if bad_request_path cap a.(r_path) then (Err (ValueError "invalid approval path"), s)
  else if bad_shown_path a.(r_original) then (Err (ValueError "invalid approval original path"), s)
  else if bad_shown_path a.(r_resolved) then (Err (ValueError "invalid resolved approval path"), s)
  else if bad_reason a.(r_reason) then
    (Err (ValueError "reason must be a bounded text description (maximum 500 characters)"), s)
  else if conv <? 0 then (Err (ValueError "invalid conversation id"), s)
  else
    let s := _expire now s in
    if MAX_PENDING_PER_TOKEN <=? pending_count ws s then
      (Err (RuntimeError "too many pending capability approvals for token"), s)
    else
      (Ok ticket, with_pending (insert ticket
        {| workspace := ws; conversation_id := conv; target := tgt; capability := cap;
           deadline := now + PENDING_SECONDS * sec_us; p_path := a.(r_path); reason := a.(r_reason);
           original_path := a.(r_original); resolved_path := a.(r_resolved);
           scope_is_directory := a.(r_directory); confirmation_cookie := "";
           confirmation_seconds := 0; attempts := 0 |}) s).

Definition pending (now : Z) (ticket : string) (s : grants) : option Pending * grants :=
  let s := _expire now s in (pending_requests s !! ticket, s).

(** ** Decisions *)

Definition granted (now : Z) (k : grant_key) (s : grants) : bool * grants :=
  let s := _expire now s in (now <? default 0 (active s !! k), s).

(** [max(scopes, key=len)]: the first of the longest. *)
Fixpoint longest (best : string) (l : list string) : string :=
  match l with
  | [] => best
  | x :: rest => longest (if slen best <? slen x then x else best) rest
  end.

Definition covers (scope : string) (p : string) : bool :=
  bool_decide (to_path p = to_path scope) || in_parents (to_path scope) (to_path p).

Definition granted_path (now : Z) (ws : string) (conv : Z) (tgt cap p : string) (s : grants)
    : option string * grants :=
  if negb (startswith "/" p) then (None, s)
  else if bool_decide (".."%string ∈ split_on "/" p) || str_contains escaped_nul p
          || str_contains two_backslashes p then (None, s)
  else
    let s := _expire now s in
    let scopes :=
      (λ kv : grant_key * Z, kv.1.2) <$>
      filter (λ kv : grant_key * Z, kv.1.1 = (ws, conv, tgt, cap) ∧ kv.1.2 ≠ ""%string
                ∧ now < kv.2 ∧ covers kv.1.2 p = true) (map_to_list (active s)) in
    (match scopes with [] => None | x :: rest => Some (longest x rest) end, s).

Definition has_scoped_grant (now : Z) (ws : string) (conv : Z) (tgt cap : string) (s : grants)
    : bool * grants :=
  let s := _expire now s in
  (existsb (λ kv : grant_key * Z, bool_decide (kv.1.1 = (ws, conv, tgt, cap))
              && negb (is_empty kv.1.2) && (now <? kv.2)) (map_to_list (active s)), s).

Definition key_of (item : Pending) : grant_key :=
  (item.(workspace), item.(conversation_id), item.(target), item.(capability), item.(p_path)).

Definition set_attempts (n : Z) (i : Pending) : Pending :=
  {| workspace := i.(workspace); conversation_id := i.(conversation_id); target := i.(target);
     capability := i.(capability); deadline := i.(deadline); p_path := i.(p_path);
     reason := i.(reason); original_path := i.(original_path); resolved_path := i.(resolved_path);
     scope_is_directory := i.(scope_is_directory); confirmation_cookie := i.(confirmation_cookie);
     confirmation_seconds := i.(confirmation_seconds); attempts := n |}.

Definition bad_duration (seconds : Z) : bool := negb ((60 <=? seconds) && (seconds <=? MAX_SECONDS)).

Definition duration_error : exn := ValueError "grant duration must be 1 to 1440 minutes".
Definition wrong_password : exn := PermissionError "workspace password incorrect".
Definition exhausted : exn := PermissionError "approval attempts exhausted".

(** A wrong password: the attempt is counted, and the last one drops the ticket. *)
Definition count_failure (ticket : string) (item : Pending) (s : grants) : grants :=
  let item := set_attempts (item.(attempts) + 1) item in
  if MAX_ATTEMPTS <=? item.(attempts) then with_pending (delete ticket) s
  else with_pending (insert ticket item) s.

(** [now] and [later] are the clock before and after the password check. *)
Definition approve (now later : Z) (ticket password : string) (seconds : Z) (s : grants)
    : result Pending * grants :=
  if bad_duration seconds then (Err duration_error, s)
  else
    let s := _expire now s in
    match pending_requests s !! ticket with
    | None => (Err (ValueError "approval expired or already used"), s)
    | Some item =>
        if MAX_ATTEMPTS <=? item.(attempts) then (Err exhausted, with_pending (delete ticket) s)
        else if negb (_check_password item.(workspace) password s) then
          (Err wrong_password, count_failure ticket item s)
        else if item.(deadline) <=? later then
          (Err (ValueError "approval expired or already used"), with_pending (delete ticket) s)
        else
          let item := set_attempts (item.(attempts) + 1) item in
          (Ok item, with_pending (delete ticket)
                      (with_active (insert (key_of item) (later + seconds * sec_us)) s))
    end.

Definition authenticate_file (now : Z) (ticket password : string) (seconds : Z) (s : grants)
    : result Pending * grants :=
  if bad_duration seconds then (Err duration_error, s)
  else
    let s := _expire now s in
    let bad := ValueError "approval expired or not a scoped File request" in
    match pending_requests s !! ticket with
    | None => (Err bad, s)
    | Some item =>
        if is_empty item.(p_path) || negb (bool_decide (item.(capability) ∈ FILE_CAPABILITIES)) then
          (Err bad, s)
        else if MAX_ATTEMPTS <=? item.(attempts) then (Err exhausted, with_pending (delete ticket) s)
        else if negb (_check_password item.(workspace) password s) then
          (Err wrong_password, count_failure ticket item s)
        else (Ok item, s)
    end.

(** [hmac.new(key, (ticket + ":" + cookie).encode(), sha256).hexdigest()] *)
Definition browser_proof (s : grants) (ticket cookie : string) : string :=
  hex (Pbkdf2.hmac_sha256 (browser_key s) (utf8 (ticket +:+ ":" +:+ cookie))).

Definition bad_directory (p : string) : bool :=
  negb (startswith "/" p) || bool_decide (".."%string ∈ split_on "/" p).

Definition prepare_file_confirmation (now : Z) (ticket cookie p resolved : string) (seconds : Z)
    (s : grants) : result unit * grants :=
  let s := _expire now s in
  match pending_requests s !! ticket with
  | None => (Err (ValueError "approval expired"), s)
  | Some i =>
      if bad_directory p || bad_directory resolved then
        (Err (ValueError "invalid resolved approval directory"), s)
      else
        (Ok tt, with_pending (insert ticket
          {| workspace := i.(workspace); conversation_id := i.(conversation_id);
             target := i.(target); capability := i.(capability); deadline := i.(deadline);
             p_path := p; reason := i.(reason);
             original_path := if is_empty i.(original_path) then i.(p_path) else i.(original_path);
             resolved_path := resolved; scope_is_directory := i.(scope_is_directory);
             confirmation_cookie := browser_proof s ticket cookie;
             confirmation_seconds := seconds; attempts := i.(attempts) |}) s)
  end.

Definition confirmed (s : grants) (ticket cookie : string) (i : Pending) : bool :=
  negb (is_empty i.(confirmation_cookie))
  && String.eqb i.(confirmation_cookie) (browser_proof s ticket cookie).

Definition verify_file_confirmation_browser (now : Z) (ticket cookie : string) (s : grants)
    : bool * grants :=
  let s := _expire now s in
  (match pending_requests s !! ticket with
   | Some i => confirmed s ticket cookie i
   | None => false
   end, s).

Definition confirm_file (now : Z) (ticket cookie : string) (s : grants) : result Pending * grants :=
  let s := _expire now s in
  let refuse := PermissionError "file confirmation requires the authenticated browser" in
  match pending_requests s !! ticket with
  | None => (Err refuse, s)
  | Some i =>
      if negb (confirmed s ticket cookie i) then (Err refuse, s)
      else (Ok i, with_pending (delete ticket)
                    (with_active (insert (key_of i) (now + i.(confirmation_seconds) * sec_us)) s))
  end.

Definition revoke (k : grant_key) (s : grants) : grants := with_active (delete k) s.

Definition verify_browser (ticket : string) (cookie : option string) (proof : string) (s : grants) : bool :=
  match cookie with
  | None => false
  | Some c =>
      negb (is_empty c) && (slen proof =? 64) && str_forall is_hexdigit proof
      && String.eqb (browser_proof s ticket c) proof
  end.

(** ** Sequences of calls *)

Inductive op :=
| OSetPassword (salt : bytes) (ws password : string)
| OCreateLink (now : Z) (ticket ws : string)
| OLinkWorkspace (now : Z) (ticket : string)
| OConsumeLink (now : Z) (salt : bytes) (ticket password confirmation : string)
| ORemoveWorkspace (ws : string)
| ORequest (now : Z) (ticket ws : string) (conv : Z) (tgt cap : string) (a : request_args)
| OPending (now : Z) (ticket : string)
| OGranted (now : Z) (k : grant_key)
| OGrantedPath (now : Z) (ws : string) (conv : Z) (tgt cap p : string)
| OHasScoped (now : Z) (ws : string) (conv : Z) (tgt cap : string)
| OApprove (now later : Z) (ticket password : string) (seconds : Z)
| OAuthFile (now : Z) (ticket password : string) (seconds : Z)
| OPrepare (now : Z) (ticket cookie p resolved : string) (seconds : Z)
| OVerifyConfirmation (now : Z) (ticket cookie : string)
| OConfirm (now : Z) (ticket cookie : string)
| ORevoke (k : grant_key)
| ORevokeWorkspace (ws : string).

Definition exec (s : grants) (o : op) : grants :=
  match o with
  | OSetPassword salt ws password => (set_password salt ws password s).2
  | OCreateLink now ticket ws => (create_password_setup_link now ticket ws s).2
  | OLinkWorkspace now ticket => (password_setup_workspace now ticket s).2
  | OConsumeLink now salt ticket password confirmation =>
      (consume_password_setup_link now salt ticket password confirmation s).2
  | ORemoveWorkspace ws => remove_workspace ws s
  | ORequest now ticket ws conv tgt cap a => (request now ticket ws conv tgt cap a s).2
  | OPending now ticket => (pending now ticket s).2
  | OGranted now k => (granted now k s).2
  | OGrantedPath now ws conv tgt cap p => (granted_path now ws conv tgt cap p s).2
  | OHasScoped now ws conv tgt cap => (has_scoped_grant now ws conv tgt cap s).2
  | OApprove now later ticket password seconds => (approve now later ticket password seconds s).2
  | OAuthFile now ticket password seconds => (authenticate_file now ticket password seconds s).2
  | OPrepare now ticket cookie p resolved seconds =>
      (prepare_file_confirmation now ticket cookie p resolved seconds s).2
  | OVerifyConfirmation now ticket cookie => (verify_file_confirmation_browser now ticket cookie s).2
  | OConfirm now ticket cookie => (confirm_file now ticket cookie s).2
  | ORevoke k => revoke k s
  | ORevokeWorkspace ws => revoke_workspace ws s
  end.

(** Does the call try a wrong password on the ticket? *)
Definition wrong_try (ticket : string) (s : grants) (o : op) : bool :=
  match o with
  | OApprove now later t password seconds =>
      String.eqb t ticket &&
      match (approve now later t password seconds s).1 with
      | Err (PermissionError m) => String.eqb m "workspace password incorrect"
      | _ => false
      end
  | OAuthFile now t password seconds =>
      String.eqb t ticket &&
      match (authenticate_file now t password seconds s).1 with
      | Err (PermissionError m) => String.eqb m "workspace password incorrect"
      | _ => false
      end
  | _ => false
  end.

Fixpoint wrong_tries (ticket : string) (s : grants) (ops : list op) : Z :=
  match ops with
  | [] => 0
  | o :: ops' => Z.b2z (wrong_try ticket s o) + wrong_tries ticket (exec s o) ops'
  end.

Definition reissues (ticket : string) (o : op) : Prop :=
  match o with ORequest _ t _ _ _ _ _ => t = ticket | _ => False end.

(** *** The budget of wrong passwords *)

Definition left_tries (i : option Pending) : Z :=
  match i with Some i => Z.max 0 (MAX_ATTEMPTS - i.(attempts)) | None => 0 end.

Definition budget (ticket : string) (s : grants) : Z := left_tries (pending_requests s !! ticket).

Lemma budget_nonneg ticket s : 0 ≤ budget ticket s.
Proof. unfold budget, left_tries. destruct (_ !! _); lia. Qed.

Lemma budget_filter (P : string * Pending → Prop) `{∀ x, Decision (P x)} ticket (m : gmap string Pending) :
  left_tries (filter P m !! ticket) ≤ left_tries (m !! ticket).
Proof.
  destruct (filter P m !! ticket) as [i|] eqn:E; [|unfold left_tries; destruct (m !! ticket); lia].
  apply map_lookup_filter_Some in E as [-> _]. done.
Qed.

Lemma expire_budget ticket now s : budget ticket (_expire now s) ≤ budget ticket s.
Proof. apply budget_filter. Qed.

Lemma delete_budget ticket t s : budget ticket (with_pending (delete t) s) ≤ budget ticket s.
Proof.
  unfold budget. simpl. destruct (decide (t = ticket)) as [->|].
  - rewrite lookup_delete_eq. simpl. unfold left_tries. destruct (_ !! _); lia.
  - by rewrite lookup_delete_ne.
Qed.

(** A counted failure uses up one try. *)
Lemma count_failure_budget ticket t item s :
  pending_requests s !! t = Some item → item.(attempts) < MAX_ATTEMPTS →
  budget ticket (count_failure t item s) + Z.b2z (String.eqb t ticket) ≤ budget ticket s.
Proof.
  intros E L. unfold count_failure, budget. cbn [attempts set_attempts].
  destruct (Z.leb_spec MAX_ATTEMPTS (item.(attempts) + 1)) as [L'|L']; cbn [pending_requests with_pending];
    destruct (String.eqb_spec t ticket) as [->|Hne]; cbn [Z.b2z].
  - rewrite lookup_delete_eq, E. simpl. lia.
  - rewrite lookup_delete_ne by done. lia.
  - rewrite lookup_insert_eq, E. simpl. lia.
  - rewrite lookup_insert_ne by done. lia.
Qed.

Lemma approve_budget ticket now later t password seconds s :
  budget ticket (approve now later t password seconds s).2
    + Z.b2z (wrong_try ticket s (OApprove now later t password seconds)) ≤ budget ticket s.
Proof.
  pose proof (expire_budget ticket now s) as X. cbn [wrong_try]. unfold approve.
  destruct (bad_duration seconds); [simpl; rewrite andb_false_r; simpl; lia|].
  destruct (pending_requests (_expire now s) !! t) as [item|] eqn:E;
    [|simpl; rewrite andb_false_r; simpl; lia].
  pose proof (delete_budget ticket t (_expire now s)) as D.
  destruct (Z.leb_spec MAX_ATTEMPTS item.(attempts)) as [|L]; [simpl; rewrite andb_false_r; simpl; lia|].
  destruct (negb _); [|destruct (_ <=? _); simpl; rewrite andb_false_r; simpl; try lia].
  - pose proof (count_failure_budget ticket t item _ E L). simpl. rewrite andb_true_r. lia.
  - unfold budget in *. simpl in *. lia.
Qed.

Lemma auth_file_budget ticket now t password seconds s :
  budget ticket (authenticate_file now t password seconds s).2
    + Z.b2z (wrong_try ticket s (OAuthFile now t password seconds)) ≤ budget ticket s.
Proof.
  pose proof (expire_budget ticket now s) as X. cbn [wrong_try]. unfold authenticate_file.
  destruct (bad_duration seconds); [simpl; rewrite andb_false_r; simpl; lia|].
  destruct (pending_requests (_expire now s) !! t) as [item|] eqn:E;
    [|simpl; rewrite andb_false_r; simpl; lia].
  destruct (_ || _); [simpl; rewrite andb_false_r; simpl; lia|].
  pose proof (delete_budget ticket t (_expire now s)) as D.
  destruct (Z.leb_spec MAX_ATTEMPTS item.(attempts)) as [|L]; [simpl; rewrite andb_false_r; simpl; lia|].
  destruct (negb _); simpl; [rewrite andb_true_r|rewrite andb_false_r; simpl; lia].
  pose proof (count_failure_budget ticket t item _ E L). lia.
Qed.

Lemma set_password_budget ticket salt ws password s :
  budget ticket (set_password salt ws password s).2 ≤ budget ticket s.
Proof.
  unfold set_password. destruct (negb _); [done|]. destruct (hash_password _ _ _); [|done].
  apply budget_filter.
Qed.

Lemma exec_budget ticket s o :
  ¬ reissues ticket o →
  budget ticket (exec s o) + Z.b2z (wrong_try ticket s o) ≤ budget ticket s.
Proof.
  intros Hn.
  assert (∀ s', budget ticket s' ≤ budget ticket s → budget ticket s' + Z.b2z false ≤ budget ticket s) as Q
    by (intros; simpl; lia).
  destruct o;
    lazymatch goal with
    | |- context [OApprove] => apply approve_budget
    | |- context [OAuthFile] => apply auth_file_budget
    | _ => cbn [wrong_try exec]; apply Q
    end.
  - apply set_password_budget.
  - unfold create_password_setup_link. destruct (is_empty _); done.
  - unfold password_setup_workspace. destruct (_ !! _) as [[? ?]|]; [destruct (_ <=? _)|]; done.
  - unfold consume_password_setup_link. destruct (negb _); [done|].
    destruct (password_setup_workspace now ticket0 s) as [found s1] eqn:E.
    assert (budget ticket s1 = budget ticket s) as Es.
    { unfold password_setup_workspace in E. destruct (_ !! _) as [[? ?]|]; [destruct (_ <=? _)|];
        by injection E as <- <-. }
    destruct found as [ws|]; [|simpl; lia]. pose proof (set_password_budget ticket salt ws password s1).
    destruct (set_password _ _ _ _) as [r s2]. simpl in *. lia.
  - apply budget_filter.
  - unfold request.
    do 6 (match goal with |- context [if ?b then _ else _] => destruct b; [done|] end).
    destruct (_ <=? _); [apply expire_budget|].
    simpl in Hn. etrans; [|apply (expire_budget ticket now)]. unfold budget. simpl.
    by rewrite lookup_insert_ne.
  - apply expire_budget.
  - apply expire_budget.
  - unfold granted_path. destruct (negb _); [done|]. destruct (_ || _); [done|]. apply expire_budget.
  - apply expire_budget.
  - unfold prepare_file_confirmation. pose proof (expire_budget ticket now s) as X.
    destruct (pending_requests (_expire now s) !! ticket0) as [i|] eqn:E; [|done].
    destruct (_ || _); [done|]. etrans; [|exact X]. unfold budget. cbn [pending_requests with_pending snd].
    destruct (decide (ticket0 = ticket)) as [->|]; [rewrite lookup_insert_eq, E; done|].
    by rewrite lookup_insert_ne.
  - apply expire_budget.
  - unfold confirm_file. pose proof (expire_budget ticket now s) as X.
    destruct (_ !! _) as [i|]; [|done]. destruct (negb _); [done|].
    etrans; [|exact X]. apply (delete_budget ticket ticket0 (_expire now s)).
  - done.
  - apply budget_filter.
Qed.

Lemma tries_within_budget ticket ops s :
  Forall (λ o, ¬ reissues ticket o) ops →
  wrong_tries ticket s ops + budget ticket (foldl exec s ops) ≤ budget ticket s.
Proof.
  intros N. revert s. induction N as [|o ops No _ IH]; intros s; simpl; [lia|].
  pose proof (exec_budget ticket s o No). specialize (IH (exec s o)). lia.
Qed.

(** *** Where grants come from *)

(** The call that put the expiry [e] at the key [k]: an approval with the right
    workspace password, or the confirmation by the browser that a prepared
    request is bound to. *)
Definition authorises (s : grants) (o : op) (k : grant_key) (e : Z) : Prop :=
  match o with
  | OApprove now later ticket password seconds =>
      ∃ i, pending_requests s !! ticket = Some i ∧ now < i.(deadline) ∧ later < i.(deadline) ∧
        key_of i = k ∧ i.(attempts) < MAX_ATTEMPTS ∧
        _check_password i.(workspace) password s = true ∧
        60 ≤ seconds ≤ MAX_SECONDS ∧ e = later + seconds * sec_us
  | OConfirm now ticket cookie =>
      ∃ i, pending_requests s !! ticket = Some i ∧ now < i.(deadline) ∧ key_of i = k ∧
        i.(confirmation_cookie) = browser_proof s ticket cookie ∧
        e = now + i.(confirmation_seconds) * sec_us
  | _ => False
  end.

Lemma approve_active now later ticket password seconds s k e :
  active (approve now later ticket password seconds s).2 !! k = Some e →
  active s !! k = Some e ∨ authorises s (OApprove now later ticket password seconds) k e.
Proof.
  unfold approve. destruct (bad_duration seconds) eqn:B; [auto|].
  assert (∀ x, active (_expire now s) !! k = Some x → active s !! k = Some x) as X.
  { intros x [E _]%map_lookup_filter_Some. done. }
  destruct (pending_requests (_expire now s) !! ticket) as [i|] eqn:E; [|auto].
  destruct (Z.leb_spec MAX_ATTEMPTS i.(attempts)); [auto|].
  destruct (_check_password _ _ _) eqn:P; cbn [negb];
    [|unfold count_failure; destruct (_ <=? _); auto].
  destruct (Z.leb_spec i.(deadline) later); [auto|]. cbn [snd active with_pending with_active].
  rewrite lookup_insert. case_decide as D; [|auto]. intros [= <-]. right.
  apply map_lookup_filter_Some in E as [E L]. exists i. unfold bad_duration in B. bools.
  split_and!; try done; lia.
Qed.

Lemma confirm_active now ticket cookie s k e :
  active (confirm_file now ticket cookie s).2 !! k = Some e →
  active s !! k = Some e ∨ authorises s (OConfirm now ticket cookie) k e.
Proof.
  unfold confirm_file.
  assert (∀ x, active (_expire now s) !! k = Some x → active s !! k = Some x) as X.
  { intros x [E _]%map_lookup_filter_Some. done. }
  destruct (pending_requests (_expire now s) !! ticket) as [i|] eqn:E; [|auto].
  destruct (confirmed _ _ _ _) eqn:C; cbn [negb]; [|auto]. cbn [snd active with_pending with_active].
  rewrite lookup_insert. case_decide as D; [|auto]. intros [= <-]. right.
  apply map_lookup_filter_Some in E as [E L]. exists i. unfold confirmed in C.
  apply andb_true_iff in C as [_ C]. apply String.eqb_eq in C. done.
Qed.

Lemma exec_active s o k e :
  active (exec s o) !! k = Some e → active s !! k = Some e ∨ authorises s o k e.
Proof.
  assert (∀ now x, active (_expire now s) !! k = Some x → active s !! k = Some x) as X.
  { intros now x [E _]%map_lookup_filter_Some. done. }
  assert (∀ salt ws password s', active (set_password salt ws password s').2 !! k = Some e →
    active s' !! k = Some e) as P.
  { intros salt ws password s'. unfold set_password. destruct (negb _); [auto|].
    destruct (hash_password _ _ _); [|auto]. simpl. intros [E _]%map_lookup_filter_Some. done. }
  destruct o;
    lazymatch goal with
    | |- context [OApprove] => apply approve_active
    | |- context [OConfirm] => apply confirm_active
    | _ => cbn [exec]; intros H; left
    end.
  - by eapply P.
  - unfold create_password_setup_link in H. by destruct (is_empty _).
  - unfold password_setup_workspace in H. destruct (setup_links s !! ticket) as [[? ?]|]; [destruct (_ <=? _)|]; done.
  - unfold consume_password_setup_link in H. destruct (negb _); [done|].
    destruct (password_setup_workspace now ticket s) as [found s1] eqn:E.
    assert (active s1 = active s) as <-.
    { unfold password_setup_workspace in E. destruct (setup_links s !! ticket) as [[? ?]|]; [destruct (_ <=? _)|];
        by injection E as <- <-. }
    destruct found as [ws|]; [|done]. apply (P salt ws password).
    by destruct (set_password _ _ _ _) as [r s2].
  - simpl in H. by apply map_lookup_filter_Some in H as [? _].
  - unfold request in H.
    do 6 (match type of H with context [if ?b then _ else _] => destruct b; [done|] end).
    destruct (_ <=? _); exact (X now _ H).
  - exact (X now _ H).
  - exact (X now _ H).
  - unfold granted_path in H. destruct (negb _); [done|]. destruct (_ || _); [done|]. exact (X now _ H).
  - exact (X now _ H).
  - unfold authenticate_file in H. destruct (bad_duration _); [done|].
    destruct (_ !! ticket) as [i|]; [|exact (X now _ H)]. destruct (_ || _); [exact (X now _ H)|].
    destruct (_ <=? _); [exact (X now _ H)|]. destruct (negb _); [|exact (X now _ H)].
    unfold count_failure in H. destruct (_ <=? _); exact (X now _ H).
  - unfold prepare_file_confirmation in H. destruct (_ !! ticket) as [i|]; [|exact (X now _ H)].
    destruct (_ || _); exact (X now _ H).
  - exact (X now _ H).
  - simpl in H. by apply lookup_delete_Some in H as [_ ?].
  - simpl in H. by apply map_lookup_filter_Some in H as [? _].
Qed.

(** Some call of the sequence authorised the grant. *)
Fixpoint authorised (s : grants) (ops : list op) (k : grant_key) (e : Z) : Prop :=
  match ops with
  | [] => False
  | o :: ops' => authorises s o k e ∨ authorised (exec s o) ops' k e
  end.

Definition empty_grants (key : bytes) : grants := Grants ∅ ∅ ∅ ∅ key.

(** ** Properties *)

(** C30: a capability is granted only on the strength of the workspace password:
    if, after any sequence of calls, a key is granted at [now], then an earlier
    call authorised exactly this expiry, either an approval of a live request for
    this key with the right password (for 1 to 1440 minutes) or the confirmation
    of a prepared request by the browser it is bound to. *)
Theorem capability_needs_password key ops now k :
  (granted now k (foldl exec (empty_grants key) ops)).1 = true → 0 ≤ now →
  ∃ e, now < e ∧ authorised (empty_grants key) ops k e.
Proof.
  intros G Hn. unfold granted in G. cbn [fst] in G.
  destruct (active (_expire now (foldl exec (empty_grants key) ops)) !! k) as [e|] eqn:E;
    simpl in G; [|bools; lia].
  exists e. split; [bools; lia|]. apply map_lookup_filter_Some in E as [E _].
  assert (∀ s, active (foldl exec s ops) !! k = Some e →
    active s !! k = Some e ∨ authorised s ops k e) as R.
  { clear. induction ops as [|o ops IH]; intros s; simpl; [auto|].
    intros [H|H]%IH; [|auto]. apply exec_active in H as [H|H]; auto. }
  by destruct (R _ E) as [H|H].
Qed.

(** A ticket survives at most five wrong passwords, over all approval and
    file-authentication calls and whatever else happens in between; after the
    fifth it no longer approves anything. *)
Theorem capability_attempts_bounded now ticket ws conv tgt cap a s s1 ops :
  request now ticket ws conv tgt cap a s = (Ok ticket, s1) →
  Forall (λ o, ¬ reissues ticket o) ops →
  wrong_tries ticket s1 ops ≤ MAX_ATTEMPTS ∧
  (wrong_tries ticket s1 ops = MAX_ATTEMPTS →
   ∀ t t' password seconds, ∃ e,
     (approve t t' ticket password seconds (foldl exec s1 ops)).1 = Err e).
Proof.
  intros R N. assert (budget ticket s1 = MAX_ATTEMPTS) as B.
  { unfold request in R.
    do 6 (match type of R with context [if ?b then _ else _] => destruct b; [done|] end).
    destruct (_ <=? _); [done|]. injection R as <-. unfold budget. simpl. by rewrite lookup_insert_eq. }
  pose proof (tries_within_budget ticket ops s1 N) as T.
  pose proof (budget_nonneg ticket (foldl exec s1 ops)). split; [lia|].
  intros E t t' password seconds. assert (budget ticket (foldl exec s1 ops) = 0) as Z0 by lia.
  unfold approve. destruct (bad_duration _); [eauto|].
  destruct (pending_requests (_expire t (foldl exec s1 ops)) !! ticket) as [i|] eqn:Ei; [|eauto].
  apply map_lookup_filter_Some in Ei as [Ei _]. unfold budget in Z0. rewrite Ei in Z0. simpl in Z0.
  rewrite (proj2 (Z.leb_le _ _)) by lia. eauto.
Qed.

(** Changing a workspace's password revokes everything that rested on the old
    one (its grants, pending requests and setup links), leaves every other
    workspace alone, and from then on the new password is the one that checks. *)
Theorem capability_password_change salt ws password s s' :
  Forall is_byte salt → length salt = PASSWORD_SALT_BYTES →
  set_password salt ws password s = (Ok tt, s') →
  _check_password ws password s' = true ∧
  (∀ conv tgt cap p, active s' !! (ws, conv, tgt, cap, p) = None) ∧
  (∀ t i, pending_requests s' !! t = Some i → i.(workspace) ≠ ws) ∧
  (∀ t l, setup_links s' !! t = Some l → l.1 ≠ ws) ∧
  (∀ ws', ws' ≠ ws → passwords s' !! ws' = passwords s !! ws' ∧
     (∀ conv tgt cap p, active s' !! (ws', conv, tgt, cap, p) = active s !! (ws', conv, tgt, cap, p))).
Proof.
  intros Hs Ls H. unfold set_password in H. destruct (negb _) eqn:G; [done|].
  destruct (hash_password 6 salt password) as [encoded|] eqn:E; [|done]. injection H as <-.
  bools. split_and!.
  - unfold _check_password. rewrite (proj2 (Z.ltb_ge _ _)) by tauto. simpl.
    rewrite lookup_insert_eq. by eapply hash_verifies.
  - intros conv tgt cap p. apply map_lookup_filter_None. right. intros e _ X. by apply X.
  - intros t i [_ N]%map_lookup_filter_Some. done.
  - intros t l [_ N]%map_lookup_filter_Some. done.
  - intros ws' Hne. split; [simpl; by rewrite lookup_insert_ne|]. intros conv tgt cap p.
    cbn [active with_links revoke_workspace with_passwords].
    destruct (active s !! (ws', conv, tgt, cap, p)) as [e|] eqn:Ea.
    + by apply map_lookup_filter_Some.
    + apply map_lookup_filter_None. auto.
Qed.

Lemma longest_spec best l :
  longest best l ∈ best :: l ∧ ∀ x, x ∈ best :: l → slen x ≤ slen (longest best l).
Proof.
  revert best. induction l as [|a l IH]; intros best; simpl.
  - split; [set_solver|]. intros x [->|?]%elem_of_cons; [lia|set_solver].
  - destruct (IH (if slen best <? slen a then a else best)) as [E W]. split.
    + destruct (slen best <? slen a); set_solver.
    + intros x Hx. destruct (Z.ltb_spec (slen best) (slen a)).
      * pose proof (W a ltac:(left)). apply elem_of_cons in Hx as [->|Hx]; [lia|]. by apply W.
      * pose proof (W best ltac:(left)). apply elem_of_cons in Hx as [->|Hx]; [done|].
        apply elem_of_cons in Hx as [->|Hx]; [lia|]. apply W. by right.
Qed.

(** the scope that authorises a file path is an unexpired grant of exactly
    this workspace, conversation, target and capability, its directory contains
    the path component by component (the path having no [..]), and no other such
    grant has a longer path; without one the path is refused. *)
Theorem capability_scope_contains now ws conv tgt cap p s :
  match (granted_path now ws conv tgt cap p s).1 with
  | Some scope =>
      (∃ e, active s !! (ws, conv, tgt, cap, scope) = Some e ∧ now < e) ∧
      scope ≠ ""%string ∧ (".."%string ∉ split_on "/" p) ∧
      (to_path scope).(anchor) = (to_path p).(anchor) ∧
      (to_path scope).(comps) `prefix_of` (to_path p).(comps) ∧
      ∀ other e, active s !! (ws, conv, tgt, cap, other) = Some e → now < e →
        other ≠ ""%string → covers other p = true → slen other ≤ slen scope
  | None =>
      startswith "/" p = true → ".."%string ∉ split_on "/" p →
      str_contains escaped_nul p = false → str_contains two_backslashes p = false →
      ∀ other e, active s !! (ws, conv, tgt, cap, other) = Some e → now < e →
        other ≠ ""%string → covers other p = false
  end.
Proof.
  unfold granted_path. destruct (startswith "/" p) eqn:Hs; simpl; [|done].
  destruct (bool_decide _ || _ || _) eqn:G; simpl.
  { intros _ Hd Hn Hb. rewrite Hn, Hb, bool_decide_false in G by done. done. }
  bools. destruct G as [[Gd _] _].
  set (l := filter _ (map_to_list _)).
  assert (∀ scope, scope ∈ ((λ kv : grant_key * Z, kv.1.2) <$> l) ↔
    ∃ e, active s !! (ws, conv, tgt, cap, scope) = Some e ∧ now < e ∧ scope ≠ ""%string ∧
      covers scope p = true) as M.
  { intros scope. rewrite list_elem_of_fmap. unfold l. setoid_rewrite list_elem_of_filter.
    setoid_rewrite elem_of_map_to_list'. split.
    - intros ([k e] & -> & (Hk & Hne & L & C) & [E _]%map_lookup_filter_Some). simpl in *.
      destruct k as [k scope]. simpl in *. subst k. eauto.
    - intros (e & E & L & Hne & C). exists (ws, conv, tgt, cap, scope, e). simpl.
      split_and!; try done. by apply map_lookup_filter_Some. }
  destruct ((λ kv : grant_key * Z, kv.1.2) <$> l) as [|x rest].
  - intros _ _ _ _ other e E L Hne. destruct (covers other p) eqn:C; [|done].
    exfalso. apply (not_elem_of_nil other), M. eauto.
  - destruct (longest_spec x rest) as [Hin W]. apply M in Hin as (e & E & L & Hne & C).
    unfold covers in C. split_and!; [eauto|done|done|..].
    + bools. destruct C as [->|C]; [done|]. unfold in_parents in C. bools. tauto.
    + bools. destruct C as [->|C]; [done|]. unfold in_parents in C. bools. tauto.
    + intros other e' E' L' Hne' C'. apply W, M. eauto.
Qed.

(** The checks on an approval request test the escaped spelling of the
    control characters: a path that holds a NUL character or a backslash is
    accepted, a path that holds the four characters backslash-x-0-0 is refused,
    and a reason with a line break is refused. *)
Theorem capability_escape_checks :
  bad_request_path "files.read" ("/a" +:+ String (ascii_of_N 0) "b") = false ∧
  bad_request_path "files.read" "/a\b" = false ∧
  bad_request_path "files.read" "/a\x00b" = true ∧
  bad_reason ("first" +:+ String (ascii_of_N 10) "second") = true ∧
  bad_shown_path ("/a" +:+ String (ascii_of_N 0) "b") = true.
Proof. vm_compute. split_and!; reflexivity. Qed.

(** ** A concrete approval *)

(** A store whose workspace has a request pending. *)
Definition demo_args : request_args :=
  {| r_path := "/data"; r_reason := "read the logs"; r_original := ""; r_resolved := "";
     r_directory := true |}.

Definition demo_pending : grants :=
  (request 0 "t1" "app" 1 "server" "files.read" demo_args (empty_grants [1; 2; 3])).2.

Lemma demo_pending_eq :
  request 0 "t1" "app" 1 "server" "files.read" demo_args (empty_grants [1; 2; 3])
  = (Ok "t1"%string, demo_pending).
Proof. vm_compute. reflexivity. Qed.

(** A browser is bound to the request and confirms it for ten minutes. *)
Definition demo_confirm : list op :=
  [ORequest 0 "t1" "app" 1 "server" "files.read" demo_args;
   OPrepare 1 "t1" "cookie" "/data" "/data" 600;
   OConfirm 2 "t1" "cookie"].

Lemma capability_needs_password_witness :
  ∃ e, 5 < e ∧ authorised (empty_grants [1; 2; 3]) demo_confirm
                 ("app", 1, "server", "files.read", "/data")%string e.
Proof.
  apply (capability_needs_password [1; 2; 3] demo_confirm 5
    ("app", 1, "server", "files.read", "/data")%string); [vm_compute; reflexivity|lia].
Defined.

(** Without a configured password every attempt is wrong. *)
Definition demo_wrong : op := OApprove 1 1 "t1" "guess-1" 60.

Example demo_exhausted :
  wrong_tries "t1" demo_pending [demo_wrong; demo_wrong; demo_wrong; demo_wrong; demo_wrong; demo_wrong] = 5.
Proof. vm_compute. reflexivity. Qed.
