(* ===== verification/DomainRules.v ===== *)
(** * DomainRules: the network allow list of a token

    Models the rule functions of src/openkapsel/execution/network_proxy.py.  The
    IDNA codec is modelled for ASCII names, where it only checks the label
    lengths; for other names it is the parameter [idna_other]. *)

From Stdlib Require Import ZArith Lia Ascii String.
From stdpp Require Import base tactics list list_numbers strings sets.
From S2P Require Import Prelude.

Local Open Scope Z_scope.

Definition NETWORK_MODES : list string := ["none"; "domain_allowlist"; "full"].

(** [s.lower()] on the code points below 256. *)
Definition c_lower_latin (c : ascii) : ascii :=
  if is_upper c || (in_range 192 222 c && negb (code c =? 215))
  then ascii_of_N (N_of_ascii c + 32) else c.
Fixpoint lower_latin (s : string) : string :=
  match s with EmptyString => EmptyString | String c s' => String (c_lower_latin c) (lower_latin s') end.

Definition is_ascii (s : string) : bool := str_forall (λ c, code c <? 128) s.

Definition label_char (c : ascii) : bool := is_lower c || is_dec c.

(** [_DOMAIN_LABEL]: at most 63 characters of a-z, 0-9 and [-], neither first nor
    last a [-]. *)
Definition domain_label (l : string) : bool :=
  match l with
  | EmptyString => false
  | String c _ =>
      label_char c
      && match String.get (String.length l - 1) l with Some d => label_char d | None => false end
      && str_forall (λ c, label_char c || Ascii.eqb c "-") l && (slen l <=? 63)
  end.

Section idna.
Variable idna_other : string → option string.

(** [name.encode("idna").decode("ascii")]; every label but the last has 1 to 63
    characters, the last at most 63. *)
Definition idna (n : string) : option string :=
  if is_ascii n then
    let labels := split_on "." n in
    if forallb (λ l, (0 <? slen l) && (slen l <? 64)) (removelast labels)
       && match last labels with Some l => slen l <? 64 | None => true end
    then Some n else None
  else idna_other n.

Definition bad_domain : exn := ValueError "invalid network domain".

Definition normalize_domain_rule (value : string) : res exn string :=
  let raw := rstrip (Ascii.eqb ".") (lower_latin (strip value)) in
  let '(suffix, n) := match raw with
                      | String c rest => if Ascii.eqb c "." then (true, rest) else (false, raw)
                      | EmptyString => (false, raw)
                      end in
  raise! bad_domain when (is_empty n || (253 <? slen n) || has_char ":" n || has_char "/" n);
  match idna n with
  | None => Err bad_domain
  | Some ascii_name =>
      raise! bad_domain when negb (forallb domain_label (split_on "." ascii_name));
      Ok (if suffix : bool then String "." ascii_name else ascii_name)
  end.

Fixpoint normalize_from (result : list string) (values : list string) : res exn (list string) :=
  match values with
  | [] => Ok result
  | v :: rest =>
      let! n := normalize_domain_rule v in
      normalize_from (if bool_decide (n ∈ result) then result else result ++ [n]) rest
  end.

Definition normalize_domain_rules (values : list string) : res exn (list string) :=
  normalize_from [] values.

Definition rule_allows (host rule : string) : bool :=
  match rule with
  | String c suffix =>
      if Ascii.eqb c "." then String.eqb host suffix || endswith rule host else String.eqb host rule
  | EmptyString => String.eqb host rule
  end.

Definition domain_allowed (hostname : string) (rules : list string) : bool :=
  match idna (rstrip (Ascii.eqb ".") hostname) with
  | None => false
  | Some h => existsb (rule_allows (lower h)) rules
  end.

(** ** Labels *)

Definition labels (s : string) : list string := split_on "." s.

(** A suffix rule admits exactly the names whose labels end with its own. *)
Lemma suffix_rule_labels host suffix :
  rule_allows host (String "." suffix) = true ↔ labels suffix `suffix_of` labels host.
Proof.
  change (rule_allows host (String "." suffix))
    with (String.eqb host suffix || endswith (String "." suffix) host).
  rewrite orb_true_iff, String.eqb_eq, endswith_app. unfold labels. split.
  - intros [->|[a ->]]; [done|]. rewrite split_on_concat. by apply suffix_app_r.
  - intros [l E]. destruct l as [|w l]; [left; by apply split_on_inj in E|]. right.
    destruct (split_on_cut "." host (w :: l) (split_on "." suffix) E)
      as (a & b & -> & _ & Eb); [done|apply split_on_nonempty|].
    apply split_on_inj in Eb as ->. eauto.
Qed.

(** *** Normalized rules are fixed points *)

Lemma rstrip_forall p q s : str_forall q s = true → str_forall q (rstrip p s) = true.
Proof.
  induction s as [|c s IH]; simpl; [done|]. rewrite andb_true_iff. intros [Hc Hs].
  destruct (_ && _); [done|]. simpl. rewrite Hc. by apply IH.
Qed.

Lemma lstrip_forall p q s : str_forall q s = true → str_forall q (lstrip p s) = true.
Proof.
  induction s as [|c s IH]; simpl; [done|]. intros H. destruct (p c); [|done].
  apply IH. by apply andb_true_iff in H as [_ H].
Qed.

Lemma lower_latin_ascii s : is_ascii s = true → is_ascii (lower_latin s) = true.
Proof.
  unfold is_ascii. induction s as [|c s IH]; simpl; [done|]. rewrite !andb_true_iff. intros [Hc Hs].
  split; [|by apply IH]. revert Hc. clear. destruct c as [[] [] [] [] [] [] [] []]; by vm_compute.
Qed.

(** The characters of a valid name. *)
Definition name_char (c : ascii) : bool := label_char c || Ascii.eqb c "-" || Ascii.eqb c ".".

Lemma split_on_chars (p : ascii → bool) c s :
  forallb (str_forall p) (split_on c s) = true → str_forall (λ d, p d || Ascii.eqb d c) s = true.
Proof.
  induction s as [|d s IH]; simpl; [done|].
  destruct (Ascii.eqb_spec c d) as [<-|Hne]; simpl.
  - intros H. by rewrite Ascii.eqb_refl, orb_true_r, IH.
  - destruct (split_on c s) as [|w ws]; simpl; rewrite ?andb_true_iff.
    + intros [[-> _] _]. by rewrite IH.
    + intros [[-> Hw] Hws]. rewrite IH; [done|]. simpl. by rewrite Hw.
Qed.

Lemma valid_name_chars n : forallb domain_label (split_on "." n) = true → str_forall name_char n = true.
Proof.
  intros H. apply (str_forall_impl (λ d, (λ c, label_char c || Ascii.eqb c "-") d || Ascii.eqb d ".")).
  - intros c. unfold name_char. done.
  - apply split_on_chars. rewrite forallb_forall in *. intros l Hl. specialize (H l Hl).
    unfold domain_label in H. destruct l; [done|]. rewrite !andb_true_iff in H. tauto.
Qed.

Lemma name_char_plain c :
  name_char c = true → c_isspace c = false ∧ c_lower_latin c = c ∧ (code c <? 128) = true.
Proof. destruct c as [[] [] [] [] [] [] [] []]; vm_compute; by intros. Qed.

Lemma name_fixed s :
  str_forall name_char s = true → strip s = s ∧ lower_latin s = s ∧ is_ascii s = true.
Proof.
  intros H. split_and!.
  - apply strip_no_space. unfold no_space. eapply str_forall_impl; [|exact H].
    intros c Hc. by rewrite (proj1 (name_char_plain c Hc)).
  - induction s as [|c s IH]; [done|]. simpl in *. apply andb_true_iff in H as [Hc Hs].
    rewrite IH by done. by rewrite (proj1 (proj2 (name_char_plain c Hc))).
  - eapply str_forall_impl; [|exact H]. intros c Hc. by apply name_char_plain.
Qed.

Lemma idna_ascii n m : is_ascii n = true → idna n = Some m → m = n.
Proof. unfold idna. intros ->. destruct (_ && _); congruence. Qed.

(** The rule of an ASCII text is the stripped lower-case text, and is stable. *)
Lemma normalize_stable value r :
  is_ascii value = true → normalize_domain_rule value = Ok r → normalize_domain_rule r = Ok r.
Proof.
  intros A. unfold normalize_domain_rule at 1.
  set (raw := rstrip (Ascii.eqb ".") (lower_latin (strip value))).
  assert (is_ascii raw = true) as Ar.
  { apply rstrip_forall, lower_latin_ascii. unfold strip. by apply rstrip_forall, lstrip_forall. }
  destruct (match raw with String c rest => _ | EmptyString => _ end) as [suffix n] eqn:Sp.
  assert (raw = (if suffix then String "." n else n) ∧ is_ascii n = true) as [Eraw An].
  { destruct raw as [|c rest]; [by injection Sp as <- <-|].
    destruct (Ascii.eqb_spec c ".") as [->|]; injection Sp as <- <-; split; done. }
  destruct (is_empty n || _ || _ || _) eqn:G; [done|].
  destruct (idna n) as [m|] eqn:Ei; [|done]. pose proof (idna_ascii _ _ An Ei) as ->.
  destruct (forallb domain_label (split_on "." n)) eqn:F; cbn [negb]; [|done].
  rewrite <- Eraw. intros [= <-].
  assert (str_forall name_char raw = true) as C.
  { pose proof (valid_name_chars n F). rewrite Eraw. by destruct suffix. }
  destruct (name_fixed raw C) as (E1 & E2 & _).
  unfold normalize_domain_rule. rewrite E1, E2.
  assert (rstrip (Ascii.eqb ".") raw = raw) as -> by (unfold raw; apply rstrip_idem).
  rewrite Sp, G, Ei, F. cbn [negb]. by rewrite Eraw.
Qed.
End idna.

(** ** Properties *)

Section claims.
Variable idna_other : string → option string.

(** A host is let through exactly when its normalized name equals an exact
    rule, or the labels of a leading-dot rule are the last labels of the name:
    matches never cross a label boundary. *)
Theorem domain_allowed_labels hostname rules :
  domain_allowed idna_other hostname rules = true ↔
  ∃ h rule, idna idna_other (rstrip (Ascii.eqb ".") hostname) = Some h ∧ rule ∈ rules ∧
    ((∃ suffix, rule = String "." suffix ∧ labels suffix `suffix_of` labels (lower h)) ∨
     (startswith "." rule = false ∧ lower h = rule)).
Proof.
  unfold domain_allowed. destruct (idna _ _) as [h|]; [|naive_solver].
  rewrite existsb_exists. setoid_rewrite <- list_elem_of_In. split.
  - intros (rule & Hin & R). exists h, rule. split_and!; [done..|].
    destruct rule as [|c suffix]; [right; by apply String.eqb_eq in R|].
    destruct (Ascii.eqb_spec c ".") as [->|Hne].
    + left. exists suffix. split; [done|]. by apply suffix_rule_labels.
    + right. unfold rule_allows in R. rewrite (proj2 (Ascii.eqb_neq _ _) Hne) in R.
      apply String.eqb_eq in R. split; [|done]. unfold startswith. cbn [String.prefix].
      destruct (ascii_dec "." c); [congruence|done].
  - intros (h' & rule & [= <-] & Hin & R). exists rule. split; [done|].
    destruct R as [(suffix & -> & R)|[Hs <-]]; [by apply suffix_rule_labels|].
    unfold rule_allows. destruct (lower h) as [|c s]; [done|].
    destruct (Ascii.eqb_spec c ".") as [->|]; [by destruct s|]. apply String.eqb_refl.
Qed.

End claims.

Example demo_domains :
  (λ host, domain_allowed (λ _, None) host [".githubusercontent.com"; "github.com"]%string)
    <$> ["raw.githubusercontent.com"; "evilgithubusercontent.com"; "GitHub.com."]%string
  = [true; false; true].
Proof. vm_compute. reflexivity. Qed.
