(* ===== verification/Dict.v ===== *)
(** * Dict: insertion-ordered dictionaries

    A Python [dict] with string keys whose iteration order the program observes:
    an association list without repeated keys.  Setting a present key keeps its
    place, a new key goes to the end.  [dmap] forgets the order; two dicts that
    differ only in it are [≡]. *)

From Stdlib Require Import Ascii String.
From stdpp Require Import base tactics list gmap strings fin_maps.
From S2P Require Import Prelude.

Definition dict (A : Type) : Type := list (string * A).

Section dict.
Context {A : Type}.
Implicit Types (d : dict A) (k : string) (v : A).

Definition keys d : list string := d.*1.
Definition values d : list A := d.*2.

Fixpoint dget k d : option A :=
  match d with
  | [] => None
  | (k', v) :: d' => if String.eqb k' k then Some v else dget k d'
  end.

(** [k in d] *)
Definition dmem k d : bool := match dget k d with Some _ => true | None => false end.

(** [d[k] = v] *)
Fixpoint dset k v d : dict A :=
  match d with
  | [] => [(k, v)]
  | (k', v') :: d' => if String.eqb k' k then (k', v) :: d' else (k', v') :: dset k v d'
  end.

(** [d.pop(k, None)] *)
Fixpoint dpop k d : dict A :=
  match d with
  | [] => []
  | (k', v') :: d' => if String.eqb k' k then d' else (k', v') :: dpop k d'
  end.

Definition dwf d : Prop := NoDup (keys d).

Definition dmap d : gmap string A := list_to_map d.

Lemma dmap_lookup k d : dmap d !! k = dget k d.
Proof.
  unfold dmap. induction d as [|[k' v] d IH]; simpl; [apply lookup_empty|].
  destruct (String.eqb_spec k' k) as [->|Hne]; [apply lookup_insert_eq|].
  by rewrite lookup_insert_ne.
Qed.

Lemma dmem_spec k d : dmem k d = true ↔ is_Some (dmap d !! k).
Proof. rewrite dmap_lookup. unfold dmem. destruct (dget k d); naive_solver. Qed.

Lemma dmem_false k d : dmem k d = false ↔ dmap d !! k = None.
Proof. rewrite dmap_lookup. unfold dmem. destruct (dget k d); naive_solver. Qed.

Lemma dmap_set k v d : dmap (dset k v d) = <[k := v]> (dmap d).
Proof.
  apply map_eq. intros i. rewrite lookup_insert, !dmap_lookup.
  induction d as [|[k' v'] d IH]; simpl.
  - destruct (String.eqb_spec k i), (decide (k = i)); congruence.
  - destruct (String.eqb_spec k' k) as [->|]; simpl.
    + destruct (String.eqb_spec k i), (decide (k = i)); congruence.
    + destruct (String.eqb_spec k' i), (decide (k = i)); congruence.
Qed.

Lemma keys_set k v d : keys (dset k v d) = if dmem k d then keys d else keys d ++ [k].
Proof.
  unfold dmem. induction d as [|[k' v'] d IH]; [done|]. simpl.
  destruct (String.eqb k' k); [done|]. simpl. unfold keys in *. simpl. rewrite IH.
  by destruct (dget k d).
Qed.

Lemma dget_none k d : dget k d = None ↔ k ∉ keys d.
Proof.
  rewrite <- dmap_lookup. unfold dmap, keys. by rewrite not_elem_of_list_to_map.
Qed.

Lemma dwf_nil : dwf [].
Proof. constructor. Qed.

Lemma dwf_set k v d : dwf d → dwf (dset k v d).
Proof.
  unfold dwf. rewrite keys_set. unfold dmem. destruct (dget k d) eqn:G; [done|].
  apply dget_none in G. intros H. apply NoDup_app. split_and!; [done| |apply NoDup_singleton].
  intros x Hx ->%list_elem_of_singleton. done.
Qed.

Lemma keys_pop_sub k d : keys (dpop k d) `sublist_of` keys d.
Proof.
  induction d as [|[k' v'] d IH]; simpl; [done|].
  destruct (String.eqb k' k); [by apply sublist_cons|]. by apply sublist_skip.
Qed.

Lemma dwf_pop k d : dwf d → dwf (dpop k d).
Proof. unfold dwf. intros H. eapply sublist_NoDup; [done|apply keys_pop_sub]. Qed.

Lemma dmap_pop k d : dwf d → dmap (dpop k d) = delete k (dmap d).
Proof.
  intros W. apply map_eq. intros i. rewrite lookup_delete, !dmap_lookup.
  induction d as [|[k' v'] d IH]; simpl; [by destruct (decide _)|].
  assert ((k' ∉ keys d) ∧ dwf d) as [Hk W'] by (by apply NoDup_cons in W).
  destruct (String.eqb_spec k' k) as [->|].
  - destruct (decide (k = i)) as [->|Hne]; [by apply dget_none|].
    destruct (String.eqb_spec k i); congruence.
  - simpl. destruct (String.eqb_spec k' i) as [->|]; [by rewrite decide_False|by apply IH].
Qed.

(** [for k, v in d.items(): if hit(k): found = v] finds the entry of the only key
    that hits. *)
Lemma dget_elem k v d : dwf d → dget k d = Some v ↔ (k, v) ∈ d.
Proof. intros W. rewrite <- dmap_lookup. symmetry. by apply elem_of_list_to_map. Qed.
End dict.

#[export] Hint Resolve dwf_nil dwf_set dwf_pop : py_list.

(** Dicts with the same entries. *)
#[export] Instance dict_equiv {A} : Equiv (dict A) := λ d d', dmap d = dmap d'.

#[export] Instance dict_equivalence {A} : Equivalence (≡@{dict A}).
Proof. split; unfold equiv, dict_equiv; congruence. Qed.

#[export] Instance dget_proper {A} k : Proper ((≡@{dict A}) ==> eq) (dget k).
Proof. intros d d' E. rewrite <- !dmap_lookup. by rewrite E. Qed.

#[export] Instance dset_proper {A} k (v : A) : Proper ((≡) ==> (≡)) (dset k v).
Proof. intros d d' E. unfold equiv, dict_equiv. rewrite !dmap_set. by rewrite E. Qed.
