(* ===== verification/Tokens.v ===== *)
(** * Tokens: the registry of workspace credentials

    Models src/openkapsel/auth/tokens.py: the records, their validation and their
    JSON form.  The registry that keeps them is in TokenStore.v.  The file system
    and the workspace layout are the interface [Workspaces]. *)

From Stdlib Require Import ZArith QArith Lia Ascii String.
From stdpp Require Import base tactics list list_numbers gmap strings sets.
From S2P Require Import Prelude Calendar PathAccess DomainRules.

Local Open Scope Z_scope.

Definition SHELL_MODES : list string := ["none"; "restricted"; "full"].
Definition SANDBOX_BACKENDS : list string := ["auto"; "bubblewrap"; "podman"].
Definition PREVIEW_TOKEN_LENGTH : Z := 16.
Definition CONTROL_TOKEN_PREFIX : string := "ks-".
Definition DEFAULT_SANDBOX_MAX_PROCESSES : Z := 64.
Definition DEFAULT_SANDBOX_MEMORY_MB : Z := 256.
Definition DEFAULT_SANDBOX_CPU_PERCENT : Z := 100.
Definition DEFAULT_CREDENTIAL_TTL_DAYS : Z := 3.
Definition MAX_CREDENTIAL_TTL_DAYS : Z := 30.
Definition SELF_RENEWAL_WINDOW : Z := 2 * day_us.

Definition image_char (c : ascii) : bool :=
  is_alnum c || has_char c "._/@:+-".

(** [[A-Za-z0-9][A-Za-z0-9._/@:+-]{0,511}\Z] *)
Definition container_image (s : string) : bool :=
  match s with
  | EmptyString => false
  | String c rest => is_alnum c && str_forall image_char rest && (slen rest <=? 511)
  end.

Definition workspace_image_name (s : string) : bool :=
  match s with
  | EmptyString => false
  | String c rest => is_alnum c && str_forall is_urlsafe rest && (slen rest <=? 63)
  end.

Definition url_safe_16 (s : string) : bool := (slen s =? 16) && str_forall is_urlsafe s.

(** ** Dates *)

Definition truthy (v : json) : bool :=
  match v with
  | JNull => false
  | JBool b => b
  | JInt n => negb (n =? 0)
  | JFloat q => negb (Qeq_bool q 0)
  | JStr s => negb (is_empty s)
  | JList l => match l with [] => false | _ => true end
  | JObj l => match l with [] => false | _ => true end
  end.

(** [astimezone(utc)] of a clock reading with its offset. *)
Definition to_utc (local offset : Z) : res exn Z :=
  let utc := local - offset in
  if (0 <=? utc) && (utc <? max_instant) then Ok utc else Err OverflowError.

Definition parse_datetime (value : json) : res exn (option Z) :=
  if negb (truthy value) then Ok None
  else
    match value with
    | JStr text =>
        let normalized := strip text in
        let normalized :=
          if endswith "Z" normalized then chop normalized +:+ "+00:00" else normalized in
        match fromisoformat normalized with
        | None => Err (ValueError "Invalid isoformat string")
        | Some (local, offset) => let! t := to_utc local (default 0 offset) in Ok (Some t)
        end
    | _ => Err AttributeError
    end.

(** [(now + timedelta(days=days)).isoformat()] *)
Definition in_days (now days : Z) : res exn string :=
  let! t := to_utc (now + days * day_us) 0 in Ok (iso_utc t).

Definition credential_expiry (now days : Z) : res exn string :=
  raise! (ValueError "credential lifetime must be between 1 and 30 days")
    when negb ((1 <=? days) && (days <=? MAX_CREDENTIAL_TTL_DAYS));
  in_days now days.

(** [None], or the normalized text. *)
Definition optional_date (t : option Z) : json :=
  match t with Some t => JStr (iso_utc t) | None => JNull end.

(** ** Records

    The two expiry fields keep whatever JSON value they were given until
    [_validate] reads them. *)
Record TokenRecord := {
  token : string; name : string; created_at : string; preview_token : string;
  control_token : string; app_id : string; expires_at : json; credentials_expires_at : json;
  enabled : bool; path_prefix : string; workspace_image : option string;
  can_read : bool; can_write : bool; can_preview : bool; can_schedule : bool;
  shell_mode : string; sandbox_backend : string; sandbox_image : option string;
  network_mode : string; allowed_domains : list string; allowed_paths : list PathGrant;
  sandbox_max_processes : Z; sandbox_memory_mb : Z; sandbox_cpu_percent : Z }.

Definition date_reached (value : json) (now : Z) : res exn bool :=
  let! expiry := parse_datetime value in
  Ok match expiry with Some t => t <=? now | None => false end.

Definition expired (r : TokenRecord) (now : Z) : res exn bool := date_reached r.(expires_at) now.

Definition valid (r : TokenRecord) (now : Z) : res exn bool :=
  if negb r.(enabled) then Ok false else let! e := expired r now in Ok (negb e).

Definition credentials_expired (r : TokenRecord) (now : Z) : res exn bool :=
  date_reached r.(credentials_expires_at) now.

Definition credentials_valid (r : TokenRecord) (now : Z) : res exn bool :=
  let! v := valid r now in
  if negb v then Ok false else let! e := credentials_expired r now in Ok (negb e).

(** ** Changing fields: [dataclasses.replace] *)

Inductive change :=
| Token (v : string) | Name (v : string) | CreatedAt (v : string) | PreviewToken (v : string)
| ControlToken (v : string) | AppId (v : string) | ExpiresAt (v : json)
| CredentialsExpiresAt (v : json) | Enabled (v : bool) | PathPrefix (v : string)
| WorkspaceImage (v : option string) | CanRead (v : bool) | CanWrite (v : bool)
| CanPreview (v : bool) | CanSchedule (v : bool) | ShellMode (v : string)
| SandboxBackend (v : string) | SandboxImage (v : option string) | NetworkMode (v : string)
| AllowedDomains (v : list string) | AllowedPaths (v : list PathGrant)
| SandboxMaxProcesses (v : Z) | SandboxMemoryMb (v : Z) | SandboxCpuPercent (v : Z).

Definition replace1 (r : TokenRecord) (c : change) : TokenRecord :=
  let pick {A} (f : change → option A) (old : A) : A := default old (f c) in
  {| token := pick (λ c, if c is Token v then Some v else None) r.(token);
     name := pick (λ c, if c is Name v then Some v else None) r.(name);
     created_at := pick (λ c, if c is CreatedAt v then Some v else None) r.(created_at);
     preview_token := pick (λ c, if c is PreviewToken v then Some v else None) r.(preview_token);
     control_token := pick (λ c, if c is ControlToken v then Some v else None) r.(control_token);
     app_id := pick (λ c, if c is AppId v then Some v else None) r.(app_id);
     expires_at := pick (λ c, if c is ExpiresAt v then Some v else None) r.(expires_at);
     credentials_expires_at :=
       pick (λ c, if c is CredentialsExpiresAt v then Some v else None) r.(credentials_expires_at);
     enabled := pick (λ c, if c is Enabled v then Some v else None) r.(enabled);
     path_prefix := pick (λ c, if c is PathPrefix v then Some v else None) r.(path_prefix);
     workspace_image :=
       pick (λ c, if c is WorkspaceImage v then Some v else None) r.(workspace_image);
     can_read := pick (λ c, if c is CanRead v then Some v else None) r.(can_read);
     can_write := pick (λ c, if c is CanWrite v then Some v else None) r.(can_write);
     can_preview := pick (λ c, if c is CanPreview v then Some v else None) r.(can_preview);
     can_schedule := pick (λ c, if c is CanSchedule v then Some v else None) r.(can_schedule);
     shell_mode := pick (λ c, if c is ShellMode v then Some v else None) r.(shell_mode);
     sandbox_backend :=
       pick (λ c, if c is SandboxBackend v then Some v else None) r.(sandbox_backend);
     sandbox_image := pick (λ c, if c is SandboxImage v then Some v else None) r.(sandbox_image);
     network_mode := pick (λ c, if c is NetworkMode v then Some v else None) r.(network_mode);
     allowed_domains :=
       pick (λ c, if c is AllowedDomains v then Some v else None) r.(allowed_domains);
     allowed_paths := pick (λ c, if c is AllowedPaths v then Some v else None) r.(allowed_paths);
     sandbox_max_processes :=
       pick (λ c, if c is SandboxMaxProcesses v then Some v else None) r.(sandbox_max_processes);
     sandbox_memory_mb :=
       pick (λ c, if c is SandboxMemoryMb v then Some v else None) r.(sandbox_memory_mb);
     sandbox_cpu_percent :=
       pick (λ c, if c is SandboxCpuPercent v then Some v else None) r.(sandbox_cpu_percent) |}.

Definition replace (r : TokenRecord) (changes : list change) : TokenRecord :=
  foldl replace1 r changes.

(** [key in {"token", "preview_token", "control_token", "app_id"}] *)
Definition is_identity (c : change) : bool :=
  match c with Token _ | PreviewToken _ | ControlToken _ | AppId _ => true | _ => false end.

(** ** The file system and the workspace layout *)

(** What the registry uses of the host: [os.path]-level queries, [mkdir], and the
    operations of workspace_layout.py and environment_store.py.  Queries do not
    change the file system; an operation that raises may have changed it. *)
Class Workspaces (fs : Type) := {
  is_dir : fs → path → bool;
  is_file : fs → path → bool;
  exists_path : fs → path → bool;
  is_symlink : fs → path → bool;
  resolve : fs → path → path;
  mkdir : path → fs → res exn fs;
  ensure_workspace_layout : path → fs → option exn * fs;
  (* [remove_empty_workspace_layout] and [rmdir], their [OSError] ignored *)
  remove_workspace : path → fs → fs;
  (* [EnvironmentStore(workspace).clear(app_id)] *)
  clear_environment : path → string → fs → option exn * fs }.

(** [root / p] for a relative [p], and [str(p)]. *)
Definition join_path (root p : path) : path :=
  if is_absolute p then p else Path root.(anchor) (root.(comps) ++ p.(comps)).

Definition path_text (p : path) : string :=
  if is_absolute p then p.(anchor) +:+ String.concat "/" p.(comps)
  else match p.(comps) with [] => "." | cs => String.concat "/" cs end.

(** [a == b or a in b.parents]: [b] lies in [a]. *)
Definition contains (a b : path) : bool := bool_decide (a = b) || in_parents a b.

(** ** Validation *)

Section validate.
Context {fs : Type} `{Workspaces fs} (idna_other : string → option string) (root : path).

(** A token path keeps its administrator's text only when it ignores prefixes. *)
Definition permits (a : access) : bool := bool_decide (a ∈ [rw; ro]).

(** One path rule: its normalized text, and the resolved path when it opens an
    extra directory or file. *)
Definition normalize_grant (w : fs) (cleaned : string) (g : PathGrant)
    : res exn (string * option path) :=
  let! (suffix, directory, target) := _rule_parts cleaned in
  if suffix : bool then Ok (cleaned, None)
  else
    let candidate := to_path target in
    let resolved := resolve w candidate in
    raise! (ValueError "the filesystem root cannot be a sandbox path")
      when bool_decide (resolved.(comps) = []);
    let legacy_dir :=
      negb directory && negb g.(strict_file) && g.(legacy_directory) && is_dir w candidate in
    raise! (ValueError "sandbox directory rule is a file")
      when ((directory || legacy_dir) && exists_path w resolved && negb (is_dir w resolved));
    raise! (ValueError "sandbox file rule is a directory")
      when (negb (directory || legacy_dir) && exists_path w resolved && negb (is_file w resolved));
    raise! (ValueError "extra accessible paths cannot contain Workspace Root")
      when (permits g.(grant_access) && contains resolved root);
    Ok (path_text resolved +:+ (if directory then "/" else ""),
        if permits g.(grant_access) then Some resolved else None).

(** Rules with the same text merge into the stricter one. *)
Fixpoint merge_grant (g : PathGrant) (l : list PathGrant) : list PathGrant :=
  match l with
  | [] => [g]
  | e :: l' =>
      if String.eqb e.(grant_path) g.(grant_path)
      then (if weight e.(grant_access) <? weight g.(grant_access) then g else e) :: l'
      else e :: merge_grant g l'
  end.

Fixpoint normalize_grants (w : fs) (allowed : list PathGrant) (previous : list path)
    (grants : list PathGrant) : res exn (list PathGrant * list path) :=
  match grants with
  | [] => Ok (allowed, previous)
  | g :: rest =>
      let cleaned := strip g.(grant_path) in
      if is_empty cleaned then normalize_grants w allowed previous rest
      else
        let! (normalized, permit) := normalize_grant w cleaned g in
        let g' := {| grant_path := normalized; grant_access := g.(grant_access);
                     strict_file := g.(strict_file); legacy_directory := g.(legacy_directory) |} in
        normalize_grants w (merge_grant g' allowed)
          (match permit with Some p => previous ++ [p] | None => previous end) rest
  end.

Definition is_suffix_rule (g : PathGrant) : bool := startswith "*/" g.(grant_path).

(** [Path(grant.path.rstrip("/"))] *)
Definition rule_path (g : PathGrant) : path := to_path (rstrip (Ascii.eqb "/") g.(grant_path)).

Definition extra_permitted (allowed : list PathGrant) : list path :=
  rule_path <$> filter (λ g, permits g.(grant_access) = true ∧ is_suffix_rule g = false) allowed.

Definition check_denial (scoped : path) (allowed : list PathGrant) (previous : list path)
    (g : PathGrant) : res exn unit :=
  if is_suffix_rule g || permits g.(grant_access) then Ok tt
  else
    let p := rule_path g in
    raise! (ValueError "deny paths must lie within workspace or an allowed directory")
      when negb (existsb (λ base, contains base p) (scoped :: extra_permitted allowed)
                 || existsb (λ base, in_parents p base) (extra_permitted allowed)
                 || existsb (λ old, contains p old) previous);
    raise! (ValueError "cannot deny the workspace root or its ancestors") when contains p scoped;
    Ok tt.

Fixpoint check_all {A} (check : A → res exn unit) (l : list A) : res exn unit :=
  match l with
  | [] => Ok tt
  | x :: l' => let! _ := check x in check_all check l'
  end.

Definition validate_paths (w : fs) (scoped : path) (r : TokenRecord) : res exn (list PathGrant) :=
  let! (allowed, previous) := normalize_grants w [] [] r.(allowed_paths) in
  let! _ := check_all (check_denial scoped allowed previous) allowed in
  raise! (ValueError "protect/deny paths require restricted Shell; full Shell can bypass sandbox rules")
    when (String.eqb r.(shell_mode) "full" && existsb (λ g, negb (permits g.(grant_access))) allowed);
  Ok allowed.

(** The workspace directory of a record and its path below the root. *)
Definition validate_scope (w : fs) (r : TokenRecord) : res exn (path * string) :=
  let prefix_path := to_path (if is_empty r.(path_prefix) then "." else r.(path_prefix)) in
  raise! (ValueError "path scope must be relative to workspace root") when is_absolute prefix_path;
  let scoped := resolve w (join_path root prefix_path) in
  match relative_to scoped root with
  | None => Err (ValueError "path scope escapes workspace root")
  | Some rel =>
      raise! (ValueError "path scope must be an existing directory") when negb (is_dir w scoped);
      let relative := path_text (Path "" rel) in
      let! _ := match r.(workspace_image) with
                | None => Ok tt
                | Some image =>
                    raise! (ValueError "invalid workspace image name")
                      when negb (workspace_image_name image);
                    raise! (ValueError "workspace image must match the token workspace directory")
                      when negb (String.eqb image relative);
                    Ok tt
                end in
      Ok (scoped, relative)
  end.

Definition validate_image (r : TokenRecord) : res exn (option string) :=
  let image := match r.(sandbox_image) with
               | Some s => if is_empty (strip s) then None else Some (strip s)
               | None => None
               end in
  match image with
  | None => Ok None
  | Some s =>
      raise! (ValueError "invalid sandbox container image") when negb (container_image s);
      raise! (ValueError "a sandbox container image requires the Podman backend")
        when negb (String.eqb r.(sandbox_backend) "podman");
      Ok (Some s)
  end.

Definition between (lo hi n : Z) : bool := (lo <=? n) && (n <=? hi).

Definition _validate (w : fs) (r : TokenRecord) : res exn TokenRecord :=
  raise! (ValueError "token must be non-empty and must not contain '/'")
    when (is_empty r.(token) || has_char "/" r.(token));
  raise! (ValueError "preview token must contain 16 URL-safe characters")
    when negb (url_safe_16 r.(preview_token));
  raise! (ValueError "control token must be non-empty and must not contain '/'")
    when (is_empty r.(control_token) || has_char "/" r.(control_token));
  raise! (ValueError "app id must contain 16 URL-safe characters") when negb (url_safe_16 r.(app_id));
  raise! (ValueError "read, control, and preview tokens must be independent")
    when negb (bool_decide (NoDup [r.(token); r.(preview_token); r.(control_token)]));
  let n := strip r.(name) in
  raise! (ValueError "token name must contain 1 to 200 characters") when (is_empty n || (200 <? slen n));
  raise! (ValueError "invalid shell mode") when negb (bool_decide (r.(shell_mode) ∈ SHELL_MODES));
  raise! (ValueError "scheduled tasks require Shell permission")
    when (r.(can_schedule) && String.eqb r.(shell_mode) "none");
  raise! (ValueError "invalid sandbox backend")
    when negb (bool_decide (r.(sandbox_backend) ∈ SANDBOX_BACKENDS));
  let! image := validate_image r in
  raise! (ValueError "invalid network mode") when negb (bool_decide (r.(network_mode) ∈ NETWORK_MODES));
  let! domains := normalize_domain_rules idna_other r.(allowed_domains) in
  raise! (ValueError "domain allowlist network mode requires at least one domain")
    when (String.eqb r.(network_mode) "domain_allowlist" && bool_decide (domains = []));
  raise! (ValueError "sandbox process/thread limit must be between 1 and 4096")
    when negb (between 1 4096 r.(sandbox_max_processes));
  raise! (ValueError "sandbox memory limit must be between 16 and 1048576 MiB")
    when negb (between 16 1048576 r.(sandbox_memory_mb));
  raise! (ValueError "sandbox CPU limit must be between 1% and 4096%")
    when negb (between 1 4096 r.(sandbox_cpu_percent));
  let! expiry := parse_datetime r.(expires_at) in
  let! credentials_expiry := parse_datetime r.(credentials_expires_at) in
  let! (scoped, relative) := validate_scope w r in
  let! paths := validate_paths w scoped r in
  Ok (replace r [Name n; ExpiresAt (optional_date expiry);
                 CredentialsExpiresAt (optional_date credentials_expiry); PathPrefix relative;
                 SandboxImage image; AllowedDomains domains; AllowedPaths paths]).
End validate.

(** ** JSON form *)

Definition access_text (a : access) : string :=
  match a with rw => "rw" | ro => "ro" | protect => "protect" | deny => "deny" end.

Definition opt_str (o : option string) : json := match o with Some s => JStr s | None => JNull end.

Definition grant_dict (g : PathGrant) : json :=
  JObj ([("path"%string, JStr g.(grant_path)); ("access"%string, JStr (access_text g.(grant_access)))]
        ++ (if g.(strict_file) then [("strict_file"%string, JBool true)] else [])).

Definition to_dict (r : TokenRecord) : list (string * json) :=
  [("token", JStr r.(token)); ("name", JStr r.(name)); ("created_at", JStr r.(created_at));
   ("preview_token", JStr r.(preview_token)); ("control_token", JStr r.(control_token));
   ("app_id", JStr r.(app_id)); ("expires_at", r.(expires_at));
   ("credentials_expires_at", r.(credentials_expires_at)); ("enabled", JBool r.(enabled));
   ("path_prefix", JStr r.(path_prefix)); ("workspace_image", opt_str r.(workspace_image));
   ("can_read", JBool r.(can_read)); ("can_write", JBool r.(can_write));
   ("can_preview", JBool r.(can_preview)); ("can_schedule", JBool r.(can_schedule));
   ("shell_mode", JStr r.(shell_mode)); ("sandbox_backend", JStr r.(sandbox_backend));
   ("sandbox_image", opt_str r.(sandbox_image)); ("network_mode", JStr r.(network_mode));
   ("allowed_domains", JList (JStr <$> r.(allowed_domains)));
   ("allowed_paths", JList (grant_dict <$> r.(allowed_paths)));
   ("sandbox_max_processes", JInt r.(sandbox_max_processes));
   ("sandbox_memory_mb", JInt r.(sandbox_memory_mb));
   ("sandbox_cpu_percent", JInt r.(sandbox_cpu_percent))]%string.

(** [int(text)]: surrounding white space, a sign, digits with single underscores
    between them. *)
Fixpoint int_groups (acc : Z) (s : string) : option Z :=
  match s with
  | EmptyString => None
  | String c rest =>
      if is_dec c then
        let acc := acc * 10 + (code c - 48) in
        match rest with
        | EmptyString => Some acc
        | String d rest' => if Ascii.eqb d "_" then int_groups acc rest' else int_groups acc rest
        end
      else None
  end.

Definition int_text (text : string) : res exn Z :=
  let s := strip text in
  let r := match s with
           | String c rest =>
               if Ascii.eqb c "-" then Z.opp <$> int_groups 0 rest
               else if Ascii.eqb c "+" then int_groups 0 rest else int_groups 0 s
           | EmptyString => None
           end in
  match r with Some n => Ok n | None => Err (ValueError "invalid literal for int()") end.

Definition int_of (v : json) : res exn Z :=
  match v with
  | JInt n => Ok n
  | JBool b => Ok (if b then 1 else 0)
  | JFloat q => Ok (Z.quot (Qnum q) (Z.pos (Qden q)))
  | JStr s => int_text s
  | JNull | JList _ | JObj _ => Err TypeError
  end.

(** The values a [for] loop over [v] yields. *)
Fixpoint characters (s : string) : list json :=
  match s with
  | EmptyString => []
  | String c s' => JStr (String c EmptyString) :: characters s'
  end.

Definition iter_of (v : json) : res exn (list json) :=
  match v with
  | JList l => Ok l
  | JStr s => Ok (characters s)
  | JObj fields => Ok (JStr <$> fields.*1)
  | _ => Err TypeError
  end.

Fixpoint map_res {A B} (f : A → res exn B) (l : list A) : res exn (list B) :=
  match l with
  | [] => Ok []
  | x :: l' => let! y := f x in let! ys := map_res f l' in Ok (y :: ys)
  end.

Section from_dict.
(** [str] of numbers and containers. *)
Variable repr : json → string.

Definition str_of (v : json) : string :=
  match v with
  | JStr s => s
  | JNull => "None"
  | JBool b => if b then "True" else "False"
  | _ => repr v
  end.

(** [PathGrant(path=..., access=mode, ...)]: the mode is checked on construction. *)
Definition post_init (path : string) (mode : json) (strict legacy : bool) : res exn PathGrant :=
  let grant a := Ok {| grant_path := path; grant_access := a; strict_file := strict;
                       legacy_directory := legacy |} in
  let error := Err (ValueError "path access must be rw, ro/r, protect or deny") in
  match mode with
  | JStr s =>
      if String.eqb s "rw" then grant rw
      else if String.eqb s "ro" || String.eqb s "r" then grant ro
      else if String.eqb s "protect" then grant protect
      else if String.eqb s "deny" then grant deny
      else error
  | JList _ | JObj _ => Err TypeError
  | _ => error
  end.

Definition from_data (value : json) : res exn PathGrant :=
  match value with
  | JStr s => post_init s (JStr "ro") false true
  | JObj fields =>
      let path := str_of (obj_get_or "path" (JStr "") fields) in
      match obj_get "access" fields with
      | Some mode =>
          let strict := truthy (obj_get_or "strict_file" (JBool false) fields) in
          post_init path (if truthy mode then mode else JStr "ro") strict (negb strict)
      | None =>
          post_init path
            (JStr (if truthy (obj_get_or "read_only" (JBool true) fields) then "ro" else "rw"))
            false true
      end
  | _ => Err (ValueError "allowed path entries must be objects")
  end.

(** [str(data.get(key) or default)] *)
Definition text_or (key default : string) (fields : list (string * json)) : string :=
  let v := obj_get_or key JNull fields in if truthy v then str_of v else default.

Definition optional_text (key : string) (fields : list (string * json)) : option string :=
  let v := obj_get_or key JNull fields in if truthy v then Some (str_of v) else None.

Definition flag (key : string) (default : bool) (fields : list (string * json)) : bool :=
  truthy (obj_get_or key (JBool default) fields).

(** [now] is the clock, for a record without a creation time. *)
Definition from_dict (now : Z) (data : json) : res exn TokenRecord :=
  match data with
  | JObj fields =>
      match obj_get "token" fields with
      | None => Err (KeyError "token")
      | Some t =>
          let! domains := iter_of (obj_get_or "allowed_domains" (JList []) fields) in
          let! rules := iter_of (obj_get_or "allowed_paths" (JList []) fields) in
          let! paths := map_res from_data rules in
          let! processes := int_of (obj_get_or "sandbox_max_processes"
                                      (JInt DEFAULT_SANDBOX_MAX_PROCESSES) fields) in
          let! memory := int_of (obj_get_or "sandbox_memory_mb"
                                   (JInt DEFAULT_SANDBOX_MEMORY_MB) fields) in
          let! cpu := int_of (obj_get_or "sandbox_cpu_percent"
                                (JInt DEFAULT_SANDBOX_CPU_PERCENT) fields) in
          Ok {| token := str_of t;
                name := text_or "name" "Unnamed token" fields;
                created_at := text_or "created_at" (iso_utc now) fields;
                preview_token := text_or "preview_token" "" fields;
                control_token := text_or "control_token" "" fields;
                app_id := text_or "app_id" "" fields;
                expires_at := obj_get_or "expires_at" JNull fields;
                credentials_expires_at := obj_get_or "credentials_expires_at" JNull fields;
                enabled := flag "enabled" true fields;
                path_prefix := text_or "path_prefix" "." fields;
                workspace_image := optional_text "workspace_image" fields;
                can_read := flag "can_read" true fields;
                can_write := flag "can_write" true fields;
                can_preview := flag "can_preview" false fields;
                can_schedule := flag "can_schedule" false fields;
                shell_mode := str_of (obj_get_or "shell_mode" (JStr "none") fields);
                sandbox_backend := str_of (obj_get_or "sandbox_backend" (JStr "auto") fields);
                sandbox_image := optional_text "sandbox_image" fields;
                network_mode :=
                  str_of (obj_get_or "network_mode"
                            (JStr (if truthy (obj_get_or "allow_network" (JBool false) fields)
                                   then "full" else "none")) fields);
                allowed_domains := str_of <$> domains;
                allowed_paths := paths;
                sandbox_max_processes := processes;
                sandbox_memory_mb := memory;
                sandbox_cpu_percent := cpu |}
      end
  | _ => Err TypeError
  end.
End from_dict.

(** ** What validation establishes *)

(** [resolve] answers an absolute path made of proper components. *)
Definition wf_path (p : path) : Prop :=
  (p.(anchor) = "/" ∨ p.(anchor) = "//")%string ∧ Forall wf_comp p.(comps).

Class WorkspacesLaws (fs : Type) `{Workspaces fs} : Prop := {
  resolve_wf w p : is_absolute p = true → wf_path (resolve w p) }.

Lemma wf_comps_kept cs : Forall wf_comp cs → filter (λ c, c ≠ ""%string ∧ c ≠ "."%string) cs = cs.
Proof. intros F. apply list_filter_all. intros c Hc. by destruct (proj1 (Forall_forall _ _) F c Hc) as (? & ? & _). Qed.

(** The text of a resolved path reads back as the path, also after a rule's
    closing slash. *)
Lemma rule_path_text p slash :
  wf_path p → p.(comps) ≠ [] → (slash = "" ∨ slash = "/")%string →
  to_path (rstrip (Ascii.eqb "/") (path_text p +:+ slash)) = p.
Proof.
  intros [Ha F] Hne Hs. destruct p as [a cs]. cbn [anchor comps] in *.
  assert (is_empty (String.concat "/" cs) = false) as Hn.
  { destruct cs as [|c cs]; [done|]. inversion F as [|? ? (Hc & _) _]; subst.
    destruct c; [done|]. by destruct cs. }
  assert (rstrip (Ascii.eqb "/") (path_text (Path a cs) +:+ slash) = a +:+ String.concat "/" cs) as ->.
  { assert (path_text (Path a cs) = a +:+ String.concat "/" cs) as -> by (by destruct Ha as [-> | ->]).
    assert (rstrip (Ascii.eqb "/") (a +:+ String.concat "/" cs) = a +:+ String.concat "/" cs) as E
      by (rewrite rstrip_app, concat_last_char, Hn by done; done).
    destruct Hs as [-> | ->]; [by rewrite str_app_nil_r|]. rewrite rstrip_app. exact E. }
  assert (String.prefix "/" (String.concat "/" cs) = false) as Hp.
  { destruct cs as [|c cs]; [done|]. inversion F as [|? ? (Hc & _ & Hsl) _]; subst.
    destruct c as [|x c]; [done|]. unfold has_char in Hsl. cbn [str_exists] in Hsl.
    apply orb_false_iff in Hsl as [Hx _]. apply Ascii.eqb_neq in Hx.
    assert (∃ t, String.concat "/" (String x c :: cs) = String x t) as [t ->]
      by (destruct cs; cbn; eauto).
    cbn [String.prefix]. by destruct (ascii_dec "/" x). }
  set (t := String.concat "/" cs) in *.
  assert (split_on "/" t = cs) as St by (by apply concat_split).
  destruct Ha as [-> | ->].
  - transitivity (Path "/" (filter (λ c, c ≠ ""%string ∧ c ≠ "."%string) (""%string :: split_on "/" t))).
    + unfold to_path. change ("/" +:+ t) with (String "/" t).
      change (startswith "//" (String "/" t)) with (String.prefix "/" t). rewrite Hp.
      cbn [andb]. change (startswith "/" (String "/" t)) with (String.prefix "" t).
      by destruct t.
    + rewrite St, filter_cons_False by naive_solver. by rewrite wf_comps_kept.
  - transitivity (Path "//" (filter (λ c, c ≠ ""%string ∧ c ≠ "."%string)
                               (""%string :: ""%string :: split_on "/" t))).
    + unfold to_path. change ("//" +:+ t) with (String "/" (String "/" t)).
      change (startswith "///" (String "/" (String "/" t))) with (String.prefix "/" t). rewrite Hp.
      change (startswith "//" (String "/" (String "/" t))) with (String.prefix "" t).
      by destruct t.
    + rewrite St, !filter_cons_False by naive_solver. by rewrite wf_comps_kept.
Qed.

Section validated.
Context {fs : Type} `{Workspaces fs} (idna_other : string → option string) (root : path).

(** Takes the next guard or call of a validation that succeeded. *)
Ltac accepted :=
  match goal with
  | H : (if ?b then Err _ else _) = Ok _ |- _ => destruct b eqn:?; [discriminate H|]
  | H : (match ?m with Ok _ => _ | Err _ => _ end) = Ok _ |- _ =>
      let x := fresh "x" in destruct m as [x|] eqn:?; [|discriminate H]; try (destruct x as [? ?]; [])
  end.

(** The parts of a successful validation. *)
Record accepted_as (w : fs) (r r' : TokenRecord) : Prop := {
  ok_token : is_empty r.(token) || has_char "/" r.(token) = false;
  ok_distinct : NoDup [r.(token); r.(preview_token); r.(control_token)];
  ok_name : is_empty (strip r.(name)) = false;
  ok_parts : ∃ image domains expiry cexpiry scoped relative paths,
    validate_image r = Ok image ∧
    parse_datetime r.(expires_at) = Ok expiry ∧
    parse_datetime r.(credentials_expires_at) = Ok cexpiry ∧
    validate_scope root w r = Ok (scoped, relative) ∧
    validate_paths root w scoped r = Ok paths ∧
    r' = replace r [Name (strip r.(name)); ExpiresAt (optional_date expiry);
                    CredentialsExpiresAt (optional_date cexpiry); PathPrefix relative;
                    SandboxImage image; AllowedDomains domains; AllowedPaths paths] }.

Lemma validate_accepts w r r' : _validate idna_other root w r = Ok r' → accepted_as w r r'.
Proof.
  unfold _validate. intros E. repeat accepted. injection E as <-.
  split; [done| | |].
  { match goal with D : negb (bool_decide (NoDup _)) = false |- _ =>
      by apply negb_false_iff, bool_decide_eq_true in D end. }
  { match goal with N : is_empty (strip _) || _ = false |- _ =>
      by apply orb_false_iff in N as [N _] end. }
  do 7 eexists. split_and!; [done..|]. done.
Qed.

(** Validation never changes the identity of a record. *)
Lemma validate_identity w r r' :
  _validate idna_other root w r = Ok r' →
  r'.(token) = r.(token) ∧ r'.(preview_token) = r.(preview_token) ∧
  r'.(control_token) = r.(control_token) ∧ r'.(app_id) = r.(app_id) ∧
  NoDup [r.(token); r.(preview_token); r.(control_token)].
Proof.
  intros V. apply validate_accepts in V. destruct V as [_ ND _ (? & ? & ? & ? & ? & ? & ? & _ & _ & _ & _ & _ & ->)].
  done.
Qed.

Lemma validate_enabled w r r' :
  _validate idna_other root w r = Ok r' → r'.(enabled) = r.(enabled).
Proof.
  intros V. apply validate_accepts in V. by destruct V as [_ _ _ (? & ? & ? & ? & ? & ? & ? & _ & _ & _ & _ & _ & ->)].
Qed.

(** *** Dates *)

Lemma parse_iso t : 0 ≤ t < max_instant → parse_datetime (JStr (iso_utc t)) = Ok (Some t).
Proof.
  intros Ht. destruct (iso_utc_plain t) as [S N]. unfold parse_datetime. cbn [truthy].
  rewrite N, S. cbn [negb].
  assert (endswith "Z" (iso_utc t) = false) as ->.
  { apply not_true_iff_false. intros [a E]%endswith_app. pose proof (iso_utc_iso t) as I.
    rewrite E, str_forall_app in I. apply andb_true_iff in I as [_ I]. vm_compute in I. discriminate I. }
  rewrite fromisoformat_iso by done. cbn [default]. unfold to_utc. rewrite Z.sub_0_r.
  destruct (Z.leb_spec 0 t), (Z.ltb_spec t max_instant); done || lia.
Qed.

Lemma to_utc_range local offset t : to_utc local offset = Ok t → t = local - offset ∧ 0 ≤ t < max_instant.
Proof. unfold to_utc. destruct (_ && _) eqn:B; [|done]. intros [= <-]. bools. lia. Qed.

Lemma in_days_parse now days text :
  in_days now days = Ok text →
  text = iso_utc (now + days * day_us) ∧ parse_datetime (JStr text) = Ok (Some (now + days * day_us)).
Proof.
  unfold in_days. destruct (to_utc _ 0) as [t|] eqn:T; [|done]. intros [= <-].
  apply to_utc_range in T as [-> R]. rewrite Z.sub_0_r in *. split; [done|]. by apply parse_iso.
Qed.

(** The dates of a validated record are normal and can be read. *)
Lemma validate_dates w r r' :
  _validate idna_other root w r = Ok r' →
  ∃ e c, parse_datetime r.(expires_at) = Ok e ∧ parse_datetime r.(credentials_expires_at) = Ok c ∧
    r'.(expires_at) = optional_date e ∧ r'.(credentials_expires_at) = optional_date c.
Proof.
  intros V. apply validate_accepts in V.
  destruct V as [_ _ _ (? & ? & e & c & ? & ? & ? & _ & He & Hc & _ & _ & ->)].
  exists e, c. split_and!; done.
Qed.

(** *** Paths *)

Lemma relative_contains p q rel : relative_to p q = Some rel → contains q p = true.
Proof.
  unfold relative_to, contains. intros E. destruct (bool_decide (p = q)) eqn:B.
  - apply bool_decide_eq_true in B as ->. by rewrite bool_decide_eq_true_2.
  - simpl in E. destruct (in_parents q p) eqn:I; [|done]. apply orb_true_r.
Qed.

Lemma scope_inside w r scoped relative :
  validate_scope root w r = Ok (scoped, relative) →
  contains root scoped = true ∧ is_dir w scoped = true.
Proof.
  unfold validate_scope. destruct (is_absolute _); [done|].
  destruct (relative_to _ root) as [rel|] eqn:R; [|done].
  destruct (is_dir w _) eqn:D; [cbn [negb]|done]. intros E.
  destruct (match workspace_image r with Some _ => _ | None => _ end); [|done].
  injection E as <- _. eauto using relative_contains.
Qed.

Lemma merge_grant_elem g x l : x ∈ merge_grant g l → x = g ∨ x ∈ l.
Proof.
  induction l as [|e l IH]; simpl; [set_solver|].
  destruct (String.eqb _ _); [destruct (weight _ <? weight _)|]; set_solver.
Qed.

Lemma merge_grant_paths g l :
  grant_path <$> merge_grant g l =
    if bool_decide (g.(grant_path) ∈ grant_path <$> l) then grant_path <$> l
    else (grant_path <$> l) ++ [g.(grant_path)].
Proof.
  induction l as [|e l IH]; [done|]. cbn [merge_grant].
  destruct (String.eqb_spec e.(grant_path) g.(grant_path)) as [Eq|Hne].
  - rewrite bool_decide_eq_true_2 by (rewrite fmap_cons, Eq; left).
    rewrite !fmap_cons. f_equal. by destruct (weight _ <? weight _).
  - rewrite !fmap_cons, IH.
    destruct (bool_decide (grant_path g ∈ grant_path <$> l)) eqn:B; bools.
    + rewrite bool_decide_eq_true_2 by (by right). done.
    + rewrite bool_decide_eq_false_2; [done|]. intros [|]%elem_of_cons; congruence.
Qed.

Lemma merge_grant_nodup g l :
  NoDup (grant_path <$> l) → NoDup (grant_path <$> merge_grant g l).
Proof.
  rewrite merge_grant_paths. destruct (bool_decide _) eqn:B; bools; [done|].
  intros ND. apply NoDup_app. split_and!; [done| |apply NoDup_singleton].
  by intros x Hx ->%list_elem_of_singleton.
Qed.

(** What holds of every normalized rule: one that opens a path outside the
    prefix-ignored form does not contain the workspace root. *)
Definition grant_safe (g : PathGrant) : Prop :=
  permits g.(grant_access) = true → is_suffix_rule g = false → contains (rule_path g) root = false.

Lemma rule_parts_absolute raw directory target :
  _rule_parts raw = Ok (false, directory, target) → is_absolute (to_path target) = true.
Proof.
  unfold _rule_parts. intros E. accepted. destruct (startswith "*/" raw); [by accepted|].
  do 2 accepted. injection E as <- <-.
  match goal with C : negb _ || _ = false |- _ => apply orb_false_iff in C as [C _] end.
  by apply negb_false_iff.
Qed.

Lemma normalize_grant_safe `{!WorkspacesLaws fs} w cleaned g normalized permit :
  normalize_grant root w cleaned g = Ok (normalized, permit) →
  grant_safe {| grant_path := normalized; grant_access := g.(grant_access);
                strict_file := g.(strict_file); legacy_directory := g.(legacy_directory) |}.
Proof.
  unfold normalize_grant, grant_safe, is_suffix_rule, rule_path. cbn [grant_path grant_access].
  destruct (_rule_parts cleaned) as [[[suffix directory] target]|] eqn:R; [|done].
  destruct suffix.
  { intros [= <- _] _. unfold _rule_parts in R. destruct (_ || _) in R; [done|].
    destruct (startswith "*/" cleaned); [done|]. by repeat case_match. }
  intros E. repeat accepted. injection E as <- _. intros Hp _.
  match goal with C : permits _ && contains _ root = false |- _ => rewrite Hp in C; simpl in C end.
  match goal with C : bool_decide (_ = []) = false |- _ => apply bool_decide_eq_false in C end.
  rewrite rule_path_text; [done| |done|destruct directory; auto].
  apply resolve_wf, (rule_parts_absolute cleaned directory target R).
Qed.

Lemma normalize_grants_safe `{!WorkspacesLaws fs} w grants allowed previous allowed' previous' :
  normalize_grants root w allowed previous grants = Ok (allowed', previous') →
  Forall grant_safe allowed → NoDup (grant_path <$> allowed) →
  Forall grant_safe allowed' ∧ NoDup (grant_path <$> allowed').
Proof.
  revert allowed previous. induction grants as [|g grants IH]; intros allowed previous; simpl.
  { by intros [= <- <-]. }
  destruct (is_empty _); [apply IH|]. intros E F ND.
  destruct (normalize_grant root w _ g) as [[normalized permit]|] eqn:N; [|done].
  apply normalize_grant_safe in N. eapply IH; [exact E| |by apply merge_grant_nodup].
  apply Forall_forall. intros x [->|Hx]%merge_grant_elem; [done|]. by eapply Forall_forall in F.
Qed.

Lemma check_all_forall {A} (check : A → res exn unit) l :
  check_all check l = Ok tt → ∀ x, x ∈ l → check x = Ok tt.
Proof.
  induction l as [|y l IH]; [set_solver|]. simpl. destruct (check y) as [[]|] eqn:C; [|done].
  intros E x [->|Hx]%elem_of_cons; auto.
Qed.

Lemma check_denial_scope scoped allowed previous g :
  check_denial scoped allowed previous g = Ok tt →
  permits g.(grant_access) = false → is_suffix_rule g = false →
  contains (rule_path g) scoped = false.
Proof. unfold check_denial. intros E Hp Hs. rewrite Hp, Hs in E. simpl in E. by do 2 accepted. Qed.

Lemma validate_paths_safe `{!WorkspacesLaws fs} w scoped r paths :
  validate_paths root w scoped r = Ok paths →
  NoDup (grant_path <$> paths) ∧
  ∀ g, g ∈ paths → is_suffix_rule g = false →
    (permits g.(grant_access) = true → contains (rule_path g) root = false) ∧
    (permits g.(grant_access) = false → contains (rule_path g) scoped = false).
Proof.
  unfold validate_paths. intros E.
  destruct (normalize_grants root w [] [] _) as [[allowed previous]|] eqn:N; [|done].
  destruct (check_all _ _) as [[]|] eqn:C; [|done]. accepted. injection E as <-.
  apply normalize_grants_safe in N as [F ND]; [|constructor..]. split; [done|].
  intros g Hg Hs. split; [intros; by eapply Forall_forall in F; [apply F|]|].
  intros Hp. by eapply check_denial_scope, Hs; [apply (check_all_forall _ _ C)|].
Qed.

Lemma validate_paths_shell w scoped r paths g :
  validate_paths root w scoped r = Ok paths → r.(shell_mode) = "full"%string → g ∈ paths →
  permits g.(grant_access) = true.
Proof.
  unfold validate_paths. intros E Hs Hg.
  destruct (normalize_grants root w [] [] _) as [[allowed previous]|]; [|done].
  destruct (check_all _ _) as [[]|]; [|done]. accepted. injection E as ->.
  rewrite Hs in *. simpl in *. destruct (permits g.(grant_access)) eqn:P; [done|].
  assert (existsb (λ g, negb (permits g.(grant_access))) paths = true); [|congruence].
  apply existsb_exists. exists g. split; [by apply list_elem_of_In|by rewrite P].
Qed.
End validated.

(** ** The JSON form reads back *)

Section roundtrip.
Context (repr : json → string).

Lemma texts_back (l : list string) : str_of repr <$> (JStr <$> l) = l.
Proof. induction l as [|x l IH]; [done|]. rewrite !fmap_cons. by f_equal. Qed.

Lemma grants_back l :
  Forall (λ g, g.(legacy_directory) = negb g.(strict_file)) l →
  map_res (from_data repr) (grant_dict <$> l) = Ok l.
Proof.
  induction l as [|g l IH]; [done|]. intros F. apply Forall_cons in F as [Hg F].
  rewrite fmap_cons. cbn [map_res]. rewrite IH by done.
  destruct g as [p a s d]. cbn in Hg. subst d. by destruct a, s.
Qed.

Lemma opt_back key fields (o : option string) :
  obj_get key fields = Some (opt_str o) → o ≠ Some ""%string →
  optional_text repr key fields = o.
Proof.
  unfold optional_text, obj_get_or. intros ->. destruct o as [[|c s]|]; naive_solver.
Qed.

Lemma text_back key def fields s :
  obj_get key fields = Some (JStr s) → s ≠ ""%string ∨ def = ""%string →
  text_or repr key def fields = s.
Proof. unfold text_or, obj_get_or. intros ->. destruct s; naive_solver. Qed.

Lemma dict_back now r :
  r.(name) ≠ ""%string → r.(created_at) ≠ ""%string → r.(path_prefix) ≠ ""%string →
  r.(workspace_image) ≠ Some ""%string → r.(sandbox_image) ≠ Some ""%string →
  Forall (λ g, g.(legacy_directory) = negb g.(strict_file)) r.(allowed_paths) →
  from_dict repr now (JObj (to_dict r)) = Ok r.
Proof.
  intros Hn Hc Hp Hw Hs Hg. unfold from_dict.
  change (obj_get "token" (to_dict r)) with (Some (JStr r.(token))).
  change (obj_get_or "allowed_domains" _ _) with (JList (JStr <$> r.(allowed_domains))).
  change (obj_get_or "allowed_paths" _ _) with (JList (grant_dict <$> r.(allowed_paths))).
  cbn [iter_of]. rewrite grants_back by done.
  rewrite (text_back "name" _ _ r.(name)), (text_back "created_at" _ _ r.(created_at)),
    (text_back "preview_token" _ _ r.(preview_token)), (text_back "control_token" _ _ r.(control_token)),
    (text_back "app_id" _ _ r.(app_id)), (text_back "path_prefix" _ _ r.(path_prefix)) by auto.
  rewrite (opt_back "workspace_image" _ r.(workspace_image)),
    (opt_back "sandbox_image" _ r.(sandbox_image)) by auto.
  rewrite texts_back. by destruct r.
Qed.
End roundtrip.

Section stored.
Context {fs : Type} `{WorkspacesLaws fs} (idna_other : string → option string) (root : path).

Lemma normalize_grants_flags (P : bool → bool → Prop) w grants allowed previous allowed' previous' :
  normalize_grants root w allowed previous grants = Ok (allowed', previous') →
  Forall (λ g, P g.(legacy_directory) g.(strict_file)) grants →
  Forall (λ g, P g.(legacy_directory) g.(strict_file)) allowed →
  Forall (λ g, P g.(legacy_directory) g.(strict_file)) allowed'.
Proof.
  revert allowed previous. induction grants as [|g grants IH]; intros allowed previous; simpl.
  { by intros [= <- <-]. }
  intros E [Hg F]%Forall_cons Fa. destruct (is_empty _); [by eapply IH|].
  destruct (normalize_grant root w _ g) as [[normalized permit]|]; [|done].
  eapply IH; [exact E|done|]. apply Forall_forall. intros x [->|Hx]%merge_grant_elem; [done|].
  by eapply Forall_forall in Fa.
Qed.

Lemma relative_text_nonempty w p rel :
  is_absolute p = true → relative_to (resolve w p) root = Some rel →
  path_text (Path "" rel) ≠ ""%string.
Proof.
  intros A R. destruct (resolve_wf w p A) as [_ F].
  assert (Forall wf_comp rel) as F'.
  { unfold relative_to in R. destruct (_ || _); [|done]. injection R as <-. by apply Forall_drop. }
  destruct rel as [|c rel]; [done|]. inversion F' as [|? ? (Hc & _) _]; subst.
  destruct c; [done|]. by destruct rel.
Qed.

Lemma validate_scope_texts w r scoped relative :
  is_absolute root = true → validate_scope root w r = Ok (scoped, relative) →
  relative ≠ ""%string ∧ r.(workspace_image) ≠ Some ""%string.
Proof.
  intros A. unfold validate_scope. destruct (is_absolute (to_path _)) eqn:Ap; [done|].
  destruct (relative_to _ root) as [rel|] eqn:R; [|done]. destruct (negb _); [done|].
  intros E. split.
  - apply relative_text_nonempty in R; [|by unfold join_path; rewrite Ap].
    destruct (match workspace_image r with Some _ => _ | None => _ end); [|done].
    injection E as _ <-. exact R.
  - destruct (workspace_image r) as [[|c s]|]; [done|congruence|done].
Qed.

Lemma validate_image_text r image : validate_image r = Ok image → image ≠ Some ""%string.
Proof.
  unfold validate_image. destruct (sandbox_image r) as [s|]; [|congruence].
  destruct (is_empty (strip s)) eqn:E; [congruence|]. repeat case_match; try done.
  intros [= <-] [= Q]. by rewrite Q in E.
Qed.
End stored.

(** ** A file system without symbolic links, for concrete runs *)

Module Tree.
Record tree := { dirs : list path; files : list path }.

(** Lexical resolution of [..]; components no path has are dropped. *)
Fixpoint lexical (acc : list string) (cs : list string) : list string :=
  match cs with
  | [] => rev acc
  | c :: cs' =>
      if String.eqb c ".." then lexical (tail acc) cs'
      else if is_empty c || String.eqb c "." || has_char "/" c then lexical acc cs'
      else lexical (c :: acc) cs'
  end.

Definition dir_of (w : tree) (p : path) : bool := bool_decide (p ∈ w.(dirs)).
Definition file_of (w : tree) (p : path) : bool := bool_decide (p ∈ w.(files)).

#[global] Instance tree_workspaces : Workspaces tree := {
  is_dir := dir_of;
  is_file := file_of;
  exists_path w p := dir_of w p || file_of w p;
  is_symlink _ _ := false;
  resolve _ p := Path "/" (lexical [] p.(comps));
  mkdir p w := if dir_of w p || file_of w p then Err (RuntimeError "File exists")
               else Ok {| dirs := p :: w.(dirs); files := w.(files) |};
  ensure_workspace_layout _ w := (None, w);
  remove_workspace p w := {| dirs := filter (λ q, q ≠ p) w.(dirs); files := w.(files) |};
  clear_environment _ _ w := (None, w) }.

Lemma lexical_wf acc cs : Forall wf_comp acc → Forall wf_comp (lexical acc cs).
Proof.
  revert acc. induction cs as [|c cs IH]; intros acc F; simpl.
  - by apply Forall_rev.
  - destruct (String.eqb c ".."); [apply IH; by destruct F|].
    destruct (is_empty c || _ || _) eqn:G; [by apply IH|]. apply IH. constructor; [|done].
    rewrite !orb_false_iff in G. destruct G as [[G1 G2%String.eqb_neq] G3]. by destruct c.
Qed.

#[global] Instance tree_laws : WorkspacesLaws tree.
Proof. split. intros w p _. split; [by left|]. by apply lexical_wf. Qed.
End Tree.

(** ** Properties *)

Section claims.
Context {fs : Type} `{WorkspacesLaws fs} (idna_other : string → option string) (root : path).

(** A record that validation accepts is confined: its workspace is an existing
    directory at or below the workspace root, its path rules have distinct texts,
    no rule that opens an extra path opens the root or a directory above it, no
    protect or deny rule covers the workspace itself, and a token with a full
    Shell has no protect or deny rule. *)
Theorem token_confined w r r' :
  _validate idna_other root w r = Ok r' →
  ∃ scoped, contains root scoped = true ∧ is_dir w scoped = true ∧
    NoDup (grant_path <$> r'.(allowed_paths)) ∧
    (∀ g, g ∈ r'.(allowed_paths) → is_suffix_rule g = false →
       (permits g.(grant_access) = true → contains (rule_path g) root = false) ∧
       (permits g.(grant_access) = false → contains (rule_path g) scoped = false)) ∧
    (r'.(shell_mode) = "full"%string → ∀ g, g ∈ r'.(allowed_paths) → permits g.(grant_access) = true).
Proof.
  intros V. apply validate_accepts in V.
  destruct V as [_ _ _ (? & ? & ? & ? & scoped & ? & paths & _ & _ & _ & S & P & ->)].
  apply scope_inside in S as [S1 S2]. destruct (validate_paths_safe _ _ _ _ _ P) as [ND G].
  exists scoped. split_and!; [done..|]. intros Hs g Hg. by eapply validate_paths_shell in P.
Qed.

(** A validated record with a creation time, whose rules are files or legacy
    directories, is read back unchanged from the JSON that is written for it. *)
Theorem token_json_roundtrip repr now w r r' :
  is_absolute root = true → _validate idna_other root w r = Ok r' →
  r.(created_at) ≠ ""%string →
  Forall (λ g, g.(legacy_directory) = negb g.(strict_file)) r.(allowed_paths) →
  from_dict repr now (JObj (to_dict r')) = Ok r'.
Proof.
  intros A V Hc F. apply validate_accepts in V.
  destruct V as [_ _ Hn (? & ? & ? & ? & scoped & relative & paths & I & _ & _ & S & P & ->)].
  destruct (validate_scope_texts root w r scoped relative A S) as [Hr Hw].
  apply dict_back; [|exact Hc|exact Hr|exact Hw|by eapply validate_image_text|].
  - change (strip r.(name) ≠ ""%string). by intros E; rewrite E in Hn.
  - change (Forall (λ g, legacy_directory g = negb (strict_file g)) paths).
    unfold validate_paths in P.
    destruct (normalize_grants root w [] [] _) as [[allowed previous]|] eqn:N; [|done].
    apply (normalize_grants_flags root (λ l s, l = negb s)) in N; [|done|constructor].
    repeat case_match; congruence.
Qed.
End claims.

Definition demo_root : path := to_path "/srv/work".
Definition demo_tree : Tree.tree :=
  {| Tree.dirs := to_path <$> ["/srv"; "/srv/work"; "/srv/work/alpha"; "/data"]%string;
     Tree.files := [to_path "/data/notes.txt"] |}.

Definition demo_record : TokenRecord :=
  {| token := "read-token"; name := " demo "; created_at := "2024-01-01T00:00:00+00:00";
     preview_token := "abcdefghijklmnop"; control_token := "ks-control";
     app_id := "0123456789abcdef"; expires_at := JNull;
     credentials_expires_at := JStr "2024-01-04T00:00:00Z"; enabled := true;
     path_prefix := "alpha/../alpha"; workspace_image := None; can_read := true; can_write := true;
     can_preview := false; can_schedule := true; shell_mode := "restricted";
     sandbox_backend := "podman"; sandbox_image := Some " python:3.12 ";
     network_mode := "domain_allowlist"; allowed_domains := [".GitHub.com"; "github.com"];
     allowed_paths :=
       [{| grant_path := "/data"; grant_access := rw; strict_file := false; legacy_directory := true |};
        {| grant_path := "/data/notes.txt"; grant_access := deny; strict_file := true;
           legacy_directory := false |};
        {| grant_path := "*/.env"; grant_access := deny; strict_file := false; legacy_directory := true |}];
     sandbox_max_processes := 64; sandbox_memory_mb := 256; sandbox_cpu_percent := 100 |}.

Definition demo_validated : TokenRecord :=
  replace demo_record [Name "demo"; CredentialsExpiresAt (JStr "2024-01-04T00:00:00+00:00");
    PathPrefix "alpha"; SandboxImage (Some "python:3.12"%string);
    AllowedDomains [".github.com"; "github.com"]%string].

Example demo_validates :
  _validate (λ _, None) demo_root demo_tree demo_record = Ok demo_validated.
Proof. vm_compute. reflexivity. Qed.
