(* ===== verification/TokenStore.v ===== *)
(** * TokenStore: the three credential indexes and their persistence

    Models class [TokenStore] of src/openkapsel/auth/tokens.py.  An operation is
    a state monad whose state survives exceptions, as mutated attributes do; the
    handlers that undo a change are written out.  The state holds the indexes,
    the signed nonces, the JSON of the data file, the file system, and two
    oracles: the values the random source will return and which of the coming
    writes of the data file fail. *)

From Stdlib Require Import ZArith QArith Lia Ascii String.
From stdpp Require Import base tactics list list_numbers gmap strings sets.
From S2P Require Import Prelude Dict Calendar PathAccess DomainRules Tokens.

Local Open Scope Z_scope.

(** Why an operation did not return: an exception, or a drawing loop that the
    given random values do not end. *)
Inductive stop :=
| Raised (e : exn)
| CredentialRenewalNotDue (expires_at : string) (remaining_seconds : Z)
| OSError
| Drawing.

Record state (fs : Type) := State {
  records : dict TokenRecord;
  preview_records : dict TokenRecord;
  control_records : dict TokenRecord;
  signed_nonces : list (string * string * Z);
  file : option json;
  disk : fs;
  draws : list string;
  faults : list bool }.
Arguments State {_} _ _ _ _ _ _ _ _.
Arguments records {_} _.
Arguments preview_records {_} _.
Arguments control_records {_} _.
Arguments signed_nonces {_} _.
Arguments file {_} _.
Arguments disk {_} _.
Arguments draws {_} _.
Arguments faults {_} _.

Section store.
Context {fs : Type} `{Workspaces fs}.
(** [self.root], whether [self.data_file] is set, IDNA of non-ASCII names and
    [str] of JSON numbers and containers. *)
Context (root : path) (persistent : bool) (idna_other : string → option string)
  (repr : json → string).

(** ** The monad *)

Definition M (A : Type) : Type := state fs → res stop A * state fs.

#[local] Instance M_ret : MRet M := λ A a st, (Ok a, st).
#[local] Instance M_bind : MBind M := λ A B f m st,
  match m st with (Ok a, st') => f a st' | (Err e, st') => (Err e, st') end.

Definition fail {A} (e : stop) : M A := λ st, (Err e, st).
Definition raise_when (b : bool) (e : exn) : M unit := if b then fail (Raised e) else mret tt.
Definition lift {A} (r : res exn A) : M A :=
  match r with Ok a => mret a | Err e => fail (Raised e) end.
Definition gets {A} (f : state fs → A) : M A := λ st, (Ok (f st), st).
Definition modify (f : state fs → state fs) : M unit := λ st, (Ok tt, f st).

(** [try: m except Exception: handler; raise] *)
Definition on_error {A} (m : M A) (handler : M unit) : M A := λ st,
  match m st with
  | (Err Drawing, st') => (Err Drawing, st')
  | (Err e, st') => match handler st' with
                    | (Ok _, st'') => (Err e, st'')
                    | (Err e', st'') => (Err e', st'')
                    end
  | ok => ok
  end.

Definition set_records (f : dict TokenRecord → dict TokenRecord) : M unit := modify (λ st,
  State (f st.(records)) st.(preview_records) st.(control_records) st.(signed_nonces)
    st.(file) st.(disk) st.(draws) st.(faults)).
Definition set_previews (f : dict TokenRecord → dict TokenRecord) : M unit := modify (λ st,
  State st.(records) (f st.(preview_records)) st.(control_records) st.(signed_nonces)
    st.(file) st.(disk) st.(draws) st.(faults)).
Definition set_controls (f : dict TokenRecord → dict TokenRecord) : M unit := modify (λ st,
  State st.(records) st.(preview_records) (f st.(control_records)) st.(signed_nonces)
    st.(file) st.(disk) st.(draws) st.(faults)).
Definition set_disk (w : fs) : M unit := modify (λ st,
  State st.(records) st.(preview_records) st.(control_records) st.(signed_nonces)
    st.(file) w st.(draws) st.(faults)).
Definition set_draws (ds : list string) : M unit := modify (λ st,
  State st.(records) st.(preview_records) st.(control_records) st.(signed_nonces)
    st.(file) st.(disk) ds st.(faults)).

(** ** Random identifiers *)

Definition leading_alnum (s : string) : bool :=
  match s with String c _ => is_alnum c | EmptyString => false end.

Fixpoint token_urlsafe_alnum (ds : list string) : option (string * list string) :=
  match ds with
  | [] => None
  | v :: ds' => if leading_alnum v then Some (v, ds') else token_urlsafe_alnum ds'
  end.

(** [while True]: draw until the value is free. *)
Fixpoint draw_loop (fuel : nat) (draw : list string → option (string * list string))
    (free : string → bool) (ds : list string) : option (string * list string) :=
  match fuel with
  | O => None
  | S fuel' =>
      match draw ds with
      | None => None
      | Some (v, ds') => if free v then Some (v, ds') else draw_loop fuel' draw free ds'
      end
  end.

Definition draw_free (draw : list string → option (string * list string)) (free : string → bool)
    : M string :=
  ds ← gets draws;
  match draw_loop (S (length ds)) draw free ds with
  | Some (v, ds') => _ ← set_draws ds'; mret v
  | None => fail Drawing
  end.

(** [secrets.token_hex] *)
Definition token_hex (ds : list string) : option (string * list string) :=
  match ds with [] => None | v :: ds' => Some (v, ds') end.

Definition in_use (st : state fs) (v : string) : bool :=
  dmem v st.(records) || dmem v st.(preview_records) || dmem v st.(control_records).

Definition unused (st : state fs) (excluded : list string) (v : string) : bool :=
  negb (bool_decide (v ∈ excluded)) && negb (in_use st v).

Definition _new_preview_token_locked (excluded : list string) : M string :=
  st ← gets id; draw_free token_urlsafe_alnum (unused st excluded).

Definition _new_token_locked (excluded : list string) : M string :=
  st ← gets id; draw_free token_urlsafe_alnum (unused st excluded).

Definition _new_control_token_locked (excluded : list string) : M string :=
  st ← gets id;
  v ← draw_free token_urlsafe_alnum (λ v, unused st excluded (CONTROL_TOKEN_PREFIX +:+ v));
  mret (CONTROL_TOKEN_PREFIX +:+ v).

Definition _new_app_id_locked : M string :=
  st ← gets id;
  draw_free token_hex (λ v, negb (bool_decide (v ∈ app_id <$> values st.(records)))).

(** ** Persistence *)

Definition payload (rs : dict TokenRecord) : json :=
  JObj [("version"%string, JInt 1); ("tokens"%string, JList ((λ r, JObj (to_dict r)) <$> values rs))].

(** The file is replaced atomically: a failed write leaves it as it was. *)
Definition _save_locked : M unit := λ st,
  if negb persistent then (Ok tt, st)
  else
    let st' f := State st.(records) st.(preview_records) st.(control_records) st.(signed_nonces)
                   f st.(disk) st.(draws) (tail st.(faults)) in
    match head st.(faults) with
    | Some true => (Err OSError, st' st.(file))
    | _ => (Ok tt, st' (Some (payload st.(records))))
    end.

Definition validate (r : TokenRecord) : M TokenRecord :=
  w ← gets disk; lift (_validate idna_other root w r).

(** ** Lookups *)

(** [secrets.compare_digest] of two [str]. *)
Definition compare_digest (a b : string) : res exn bool :=
  if is_ascii a && is_ascii b then Ok (String.eqb a b) else Err TypeError.

(** The loop that compares with every key and keeps the match. *)
Fixpoint scan (supplied : string) (found : option TokenRecord) (d : dict TokenRecord)
    : res exn (option TokenRecord) :=
  match d with
  | [] => Ok found
  | (t, r) :: d' =>
      let! same := compare_digest supplied t in
      scan supplied (if same : bool then Some r else found) d'
  end.

(** [record if record is not None and record.<check> else None] *)
Definition if_valid (check : TokenRecord → Z → res exn bool) (now : Z) (found : option TokenRecord)
    : res exn (option TokenRecord) :=
  match found with
  | None => Ok None
  | Some r => let! ok := check r now in Ok (if ok : bool then Some r else None)
  end.

Definition authenticate (now : Z) (supplied : string) (st : state fs)
    : res exn (option TokenRecord) :=
  let! found := scan supplied None st.(records) in if_valid credentials_valid now found.

Definition authenticate_preview (now : Z) (supplied : string) (st : state fs)
    : res exn (option TokenRecord) :=
  if negb (slen supplied =? PREVIEW_TOKEN_LENGTH) then Ok None
  else if_valid valid now (dget supplied st.(preview_records)).

Definition authenticate_control (now : Z) (supplied : string) (st : state fs)
    : res exn (option TokenRecord) :=
  let! found := scan supplied None st.(control_records) in if_valid credentials_valid now found.

(** [t in s] *)
Fixpoint substring_of (t s : string) : bool :=
  String.prefix t s || match s with String _ s' => substring_of t s' | EmptyString => false end.

(** Registered records are different objects exactly when their keys differ. *)
Fixpoint control_scan (supplied : string) (found : option TokenRecord) (d : dict TokenRecord)
    : option TokenRecord :=
  match d with
  | [] => found
  | (t, r) :: d' =>
      if substring_of t supplied then
        match found with
        | Some f => if String.eqb f.(token) r.(token) then control_scan supplied (Some r) d' else None
        | None => control_scan supplied (Some r) d'
        end
      else control_scan supplied found d'
  end.

Definition control_authorization (now : Z) (supplied : string) (st : state fs)
    : res exn (option TokenRecord) :=
  if_valid credentials_valid now (control_scan supplied None st.(control_records)).

Definition get (t : string) : M TokenRecord :=
  rs ← gets records;
  match dget t rs with Some r => mret r | None => fail (Raised (KeyError "token does not exist")) end.

Definition app_authorization (now : Z) (app : string) (st : state fs) : res exn (option TokenRecord) :=
  if_valid valid now (head (filter (λ r, r.(app_id) = app) (values st.(records)))).

Fixpoint find_app (app : string) (rs : list TokenRecord) : res exn (option TokenRecord) :=
  match rs with
  | [] => Ok None
  | r :: rs' =>
      let! same := compare_digest r.(app_id) app in
      if same : bool then Ok (Some r) else find_app app rs'
  end.

Definition get_by_app_id (app : string) : M (option TokenRecord) :=
  rs ← gets records; lift (find_app app (values rs)).

(** ** Nonces of signed envelopes *)

Definition consume_signed_nonce (identity nonce : string) (now ttl_seconds : Z) : M bool := λ st,
  let live := filter (λ e, now < e.2) st.(signed_nonces) in
  let seen := existsb (λ e, String.eqb e.1.1 identity && String.eqb e.1.2 nonce) live in
  let nonces := if seen then live else live ++ [(identity, nonce, now + ttl_seconds)] in
  (Ok (negb seen),
   State st.(records) st.(preview_records) st.(control_records) nonces
     st.(file) st.(disk) st.(draws) st.(faults)).

(** ** Workspace directories *)

Definition RESERVED_NAMES : list string :=
  ["."; ".."; ".recycle"; ".sql"; ".context"; ".openkapsel"].

(** [(self.root / name)] *)
Definition child (n : string) : path := join_path root (to_path n).

Definition bad_child_name (n : string) : bool :=
  is_empty n || bool_decide (casefold n ∈ RESERVED_NAMES)
  || startswith ".openkapsel-" (casefold n) || is_absolute (to_path n)
  || negb (bool_decide (length (parts (to_path n)) = 1%nat)) || has_char "/" n || has_char "\" n.

(** Runs an operation of the layout, which may raise. *)
Definition on_disk (f : fs → option exn * fs) : M unit :=
  w ← gets disk;
  let '(e, w') := f w in
  _ ← set_disk w';
  match e with Some e => fail (Raised e) | None => mret tt end.

Definition _remove_new_workspace (n : string) : M unit :=
  w ← gets disk; set_disk (remove_workspace (child n) w).

Definition _prepare_child_workspace (value : string) : M (string * bool) :=
  let n := strip value in
  _ ← raise_when (bad_child_name n) (ValueError "workspace path must be a direct child directory name");
  w ← gets disk;
  _ ← raise_when (is_symlink w (child n)) (ValueError "workspace directory must not be a symbolic link");
  _ ← raise_when (exists_path w (child n) && negb (is_dir w (child n)))
        (ValueError "the workspace path already exists and is not a directory");
  let created := negb (exists_path w (child n)) in
  _ ← (if created then w' ← lift (mkdir (child n) w); set_disk w' else mret tt);
  _ ← on_error (on_disk (ensure_workspace_layout (child n)))
        (if created then _remove_new_workspace n else mret tt);
  mret (n, created).

(** ** Creation *)

Definition default_record : TokenRecord :=
  {| token := ""; name := ""; created_at := ""; preview_token := ""; control_token := "";
     app_id := ""; expires_at := JNull; credentials_expires_at := JNull; enabled := true;
     path_prefix := "."; workspace_image := None; can_read := true; can_write := true;
     can_preview := false; can_schedule := false; shell_mode := "full"; sandbox_backend := "auto";
     sandbox_image := None; network_mode := "none"; allowed_domains := []; allowed_paths := [];
     sandbox_max_processes := DEFAULT_SANDBOX_MAX_PROCESSES;
     sandbox_memory_mb := DEFAULT_SANDBOX_MEMORY_MB;
     sandbox_cpu_percent := DEFAULT_SANDBOX_CPU_PERCENT |}.

Definition register (key : string) (r : TokenRecord) : M unit :=
  _ ← set_records (dset key r);
  _ ← set_previews (dset r.(preview_token) r);
  set_controls (dset r.(control_token) r).

(** The keyword arguments are [args]; those of identity and dates are set by
    [create] itself.  [now] and [later] are the clock at its two readings. *)
Definition create (now later : Z) (prefix : string) (args : list change) : M TokenRecord :=
  prepared ← _prepare_child_workspace prefix;
  let '(normalized_prefix, created_workspace) := prepared : string * bool in
  t ← _new_token_locked [];
  preview ← _new_preview_token_locked [t];
  control ← _new_control_token_locked [t; preview];
  app ← _new_app_id_locked;
  r ← on_error
        (expiry ← lift (credential_expiry later DEFAULT_CREDENTIAL_TTL_DAYS);
         validate (replace default_record
           (args ++ [Token t; CreatedAt (iso_utc now); PreviewToken preview; ControlToken control;
                     AppId app; CredentialsExpiresAt (JStr expiry); PathPrefix normalized_prefix;
                     Enabled true])))
        (if created_workspace then _remove_new_workspace normalized_prefix else mret tt);
  _ ← register t r;
  _ ← _save_locked;
  mret r.

(** ** Rotation and renewal *)

Definition rotate_read_token (t : string) : M TokenRecord :=
  current ← get t;
  new_token ← _new_token_locked [];
  r ← validate (replace current [Token new_token]);
  _ ← set_records (dpop t);
  _ ← register new_token r;
  _ ← on_error _save_locked
        (_ ← set_records (dpop new_token); register t current);
  mret r.

Definition rotate_control_token (t : string) : M TokenRecord :=
  current ← get t;
  control ← _new_control_token_locked [];
  r ← validate (replace current [ControlToken control]);
  _ ← set_records (dset t r);
  _ ← set_previews (dset r.(preview_token) r);
  _ ← set_controls (dpop current.(control_token));
  _ ← set_controls (dset control r);
  _ ← on_error _save_locked
        (_ ← set_records (dset t current);
         _ ← set_previews (dset current.(preview_token) current);
         _ ← set_controls (dpop control);
         set_controls (dset current.(control_token) current));
  mret r.

(** The replacement of both credentials, common to the renewals. *)
Definition renew_both (current : TokenRecord) (expiry : string) (read control : string)
    : M TokenRecord :=
  r ← validate (replace current [Token read; ControlToken control;
                                 CredentialsExpiresAt (JStr expiry)]);
  _ ← set_records (dpop current.(token));
  _ ← set_records (dset read r);
  _ ← set_previews (dset current.(preview_token) r);
  _ ← set_controls (dpop current.(control_token));
  _ ← set_controls (dset control r);
  _ ← on_error _save_locked
        (_ ← set_records (dpop read);
         _ ← set_records (dset current.(token) current);
         _ ← set_previews (dset current.(preview_token) current);
         _ ← set_controls (dpop control);
         set_controls (dset current.(control_token) current));
  mret r.

Definition renew_credentials (now : Z) (t : string) (days : Z) : M TokenRecord :=
  expiry ← lift (credential_expiry now days);
  current ← get t;
  read ← _new_token_locked [];
  control ← _new_control_token_locked [read; current.(preview_token)];
  renew_both current expiry read control.

Definition renew_credentials_if_due (now : Z) (t : string) : M TokenRecord :=
  current ← get t;
  expiry ← lift (parse_datetime current.(credentials_expires_at));
  match expiry with
  | None => fail (Raised (ValueError "credentials do not have a renewable short expiration"))
  | Some current_expiry =>
      let remaining := current_expiry - now in
      if SELF_RENEWAL_WINDOW <=? remaining then
        fail (CredentialRenewalNotDue (iso_utc current_expiry) (Z.max 0 (remaining / sec_us)))
      else if remaining <=? 0 then
        fail (Raised (ValueError "expired credentials must be renewed by an administrator"))
      else
        read ← _new_token_locked [];
        control ← _new_control_token_locked [read; current.(preview_token)];
        expires ← lift (in_days now DEFAULT_CREDENTIAL_TTL_DAYS);
        renew_both current expires read control
  end.

(** [clock] is the time at which the validity of the record is read. *)
Definition renew_credentials_for_app_if_due (clock now : Z) (app workspace : string) : M TokenRecord :=
  found ← get_by_app_id app;
  let unavailable := Raised (ValueError "linked workspace configuration is unavailable or changed") in
  match found with
  | None => fail unavailable
  | Some current =>
      ok ← lift (valid current clock);
      if negb ok || negb (String.eqb current.(path_prefix) workspace) then fail unavailable
      else renew_credentials_if_due now current.(token)
  end.

(** ** Update, preview rotation, deletion *)

Definition prefix_change (c : change) : option string :=
  match c with PathPrefix v => Some v | _ => None end.

Definition update (t : string) (changes : list change) : M TokenRecord :=
  current ← get t;
  _ ← raise_when (existsb is_identity changes) (ValueError "tokens cannot be changed through update");
  prepared ← match list_find (λ c, is_Some (prefix_change c)) changes with
             | Some (_, PathPrefix v) => p ← _prepare_child_workspace v; mret (Some (p : string * bool))
             | _ => mret None
             end;
  let changes := match prepared with
                 | Some (n, _) => (λ c, if prefix_change c is Some _ then PathPrefix n else c) <$> changes
                 | None => changes
                 end in
  r ← on_error (validate (replace current changes))
        (match prepared with Some (n, true) => _remove_new_workspace n | _ => mret tt end);
  _ ← register t r;
  _ ← _save_locked;
  mret r.

Definition rotate_preview_token (t : string) : M TokenRecord :=
  current ← get t;
  preview ← _new_preview_token_locked [];
  r ← validate (replace current [PreviewToken preview]);
  _ ← set_records (dset t r);
  _ ← set_previews (dpop current.(preview_token));
  _ ← set_previews (dset preview r);
  _ ← set_controls (dset r.(control_token) r);
  _ ← _save_locked;
  mret r.

Definition delete_token (t : string) : M unit :=
  r ← get t;
  _ ← on_disk (clear_environment (child r.(path_prefix)) r.(app_id));
  _ ← set_records (dpop t);
  _ ← set_previews (dpop r.(preview_token));
  _ ← set_controls (dpop r.(control_token));
  _save_locked.

Definition scope_root (w : fs) (r : TokenRecord) : res exn path :=
  let scoped := resolve w (child r.(path_prefix)) in
  match relative_to scoped root with
  | None => Err (ValueError "token path scope escapes workspace root")
  | Some _ =>
      raise! (ValueError "token path scope is not an existing directory") when negb (is_dir w scoped);
      Ok scoped
  end.

(** ** Loading *)

Definition LEGACY_WEB_AUTH_FIELDS : list string :=
  ["web_username"; "web_password_hash"; "web_session_ttl_seconds"; "web_auth_version"].

Definition MIGRATED_FIELDS : list string :=
  ["sandbox_max_processes"; "sandbox_memory_mb"; "sandbox_cpu_percent"; "sandbox_backend";
   "sandbox_image"; "network_mode"].

Record indexes := Indexes {
  ix_records : dict TokenRecord; ix_previews : dict TokenRecord; ix_controls : dict TokenRecord }.

Definition ix_used (ix : indexes) (v : string) : bool :=
  dmem v ix.(ix_records) || dmem v ix.(ix_previews) || dmem v ix.(ix_controls).

(** [v == 1] for the version number. *)
Definition is_one (v : json) : bool :=
  match v with
  | JInt n => n =? 1
  | JBool b => b
  | JFloat q => Qeq_bool q 1%Q
  | _ => false
  end.

(** Fills in the credentials an old record does not have. *)
Definition complete (ix : indexes) (r : TokenRecord) : M TokenRecord :=
  r ← (if is_empty r.(preview_token) then
         v ← draw_free token_urlsafe_alnum (λ v,
               negb (String.eqb v r.(token)) && negb (String.eqb v r.(control_token))
               && negb (ix_used ix v));
         mret (replace r [PreviewToken v])
       else mret r);
  r ← (if is_empty r.(control_token) then
         v ← draw_free token_urlsafe_alnum (λ v,
               let c := CONTROL_TOKEN_PREFIX +:+ v in
               negb (String.eqb c r.(token)) && negb (String.eqb c r.(preview_token))
               && negb (ix_used ix c));
         mret (replace r [ControlToken (CONTROL_TOKEN_PREFIX +:+ v)])
       else mret r);
  if is_empty r.(app_id) then
    v ← draw_free token_hex (λ v, forallb (λ o, negb (String.eqb o.(app_id) v)) (values ix.(ix_records)));
    mret (replace r [AppId v])
  else mret r.

Definition has_key (fields : list (string * json)) (key : string) : bool :=
  match obj_get key fields with Some _ => true | None => false end.

Definition item_fields (item : json) : list (string * json) :=
  match item with JObj fields => fields | _ => [] end.

(** Whether an item was written by an older version. *)
Definition outdated (fields : list (string * json)) (r : TokenRecord) : bool :=
  existsb (has_key fields) LEGACY_WEB_AUTH_FIELDS
  || existsb (λ k, negb (has_key fields k)) MIGRATED_FIELDS
  || negb (has_key fields "credentials_expires_at")
  || is_empty r.(preview_token) || is_empty r.(control_token) || is_empty r.(app_id).

Definition add_index (ix : indexes) (r : TokenRecord) : res exn indexes :=
  raise! (ValueError "duplicate token in data file") when dmem r.(token) ix.(ix_records);
  raise! (ValueError "duplicate preview token in data file")
    when dmem r.(preview_token) ix.(ix_previews);
  raise! (ValueError "duplicate control token in data file")
    when dmem r.(control_token) ix.(ix_controls);
  raise! (ValueError "read, control, and preview token namespaces conflict")
    when (dmem r.(token) ix.(ix_previews) || dmem r.(token) ix.(ix_controls)
          || dmem r.(preview_token) ix.(ix_records) || dmem r.(preview_token) ix.(ix_controls)
          || dmem r.(control_token) ix.(ix_records) || dmem r.(control_token) ix.(ix_previews));
  Ok (Indexes (dset r.(token) r ix.(ix_records)) (dset r.(preview_token) r ix.(ix_previews))
        (dset r.(control_token) r ix.(ix_controls))).

Fixpoint load_items (now : Z) (expiry : string) (ix : indexes) (migrated : bool) (items : list json)
    : M (indexes * bool) :=
  match items with
  | [] => mret (ix, migrated)
  | item :: rest =>
      r ← lift (from_dict repr now item);
      let fields := item_fields item in
      let migrated := migrated || outdated fields r in
      let r := if has_key fields "credentials_expires_at" then r
               else replace r [CredentialsExpiresAt (JStr expiry)] in
      r ← complete ix r;
      r ← validate r;
      ix ← lift (add_index ix r);
      load_items now expiry ix migrated rest
  end.

Definition set_indexes (ix : indexes) : M unit := modify (λ st,
  State ix.(ix_records) ix.(ix_previews) ix.(ix_controls) st.(signed_nonces)
    st.(file) st.(disk) st.(draws) st.(faults)).

Definition _load (now : Z) (payload : json) : M unit :=
  match payload with
  | JObj fields =>
      let error := Raised (ValueError "invalid token data file") in
      if negb (is_one (obj_get_or "version" JNull fields)) then fail error
      else
        match obj_get "tokens" fields with
        | Some (JList items) =>
            expiry ← lift (credential_expiry now DEFAULT_CREDENTIAL_TTL_DAYS);
            loaded ← load_items now expiry (Indexes [] [] []) false items;
            let '(ix, migrated) := loaded : indexes * bool in
            _ ← set_indexes ix;
            if migrated : bool then _save_locked else mret tt
        | _ => fail error
        end
  | _ => fail (Raised AttributeError)
  end.

Definition bootstrap (now : Z) (t : string) : M unit :=
  st ← gets id;
  if is_empty t || dmem t st.(records) then mret tt
  else
    _ ← raise_when (dmem t st.(preview_records) || dmem t st.(control_records))
          (ValueError "bootstrap token conflicts with an existing credential");
    preview ← _new_preview_token_locked [t];
    control ← _new_control_token_locked [t; preview];
    app ← _new_app_id_locked;
    expiry ← lift (credential_expiry now DEFAULT_CREDENTIAL_TTL_DAYS);
    r ← validate (replace default_record
          [Token t; Name "Bootstrap token"; CreatedAt (iso_utc now); PreviewToken preview;
           ControlToken control; AppId app; CredentialsExpiresAt (JStr expiry); ShellMode "full"]);
    _ ← register t r;
    _save_locked.

Fixpoint ensure_layouts (prefixes : list string) : M unit :=
  match prefixes with
  | [] => mret tt
  | p :: rest => _ ← on_disk (ensure_workspace_layout (child p)); ensure_layouts rest
  end.

(** The constructor, on a state with empty indexes.  [bootstrap_token] is empty
    when there is none. *)
Definition init (now : Z) (bootstrap_token : string) : M unit :=
  st ← gets id;
  _ ← match st.(file) with
      | Some payload => if persistent then _load now payload else mret tt
      | None => mret tt
      end;
  _ ← bootstrap now bootstrap_token;
  rs ← gets records;
  ensure_layouts (remove_dups (path_prefix <$> values rs)).
End store.
