(* ===== verification/TokenStoreTheorems.v ===== *)
(** * TokenStoreTheorems: consistency, rotation and renewal of credentials *)

From Stdlib Require Import ZArith Lia Ascii String.
From stdpp Require Import base tactics list list_numbers gmap strings sets fin_maps.
From S2P Require Import Prelude Dict Calendar PathAccess DomainRules Tokens TokenStore.

Local Open Scope Z_scope.

(** ** The index invariant *)

(** The three indexes hold the same records, each under its own credentials, and
    no text is a credential of two kinds. *)
Record consistent (R P C : gmap string TokenRecord) : Prop := {
  of_read k r : R !! k = Some r →
    r.(token) = k ∧ P !! r.(preview_token) = Some r ∧ C !! r.(control_token) = Some r;
  of_preview k r : P !! k = Some r → r.(preview_token) = k ∧ R !! r.(token) = Some r;
  of_control k r : C !! k = Some r → r.(control_token) = k ∧ R !! r.(token) = Some r;
  read_preview : R ##ₘ P;
  read_control : R ##ₘ C;
  preview_control : P ##ₘ C }.

Lemma consistent_empty : consistent ∅ ∅ ∅.
Proof. split; try (intros k r E; by rewrite lookup_empty in E); apply map_disjoint_empty_l. Qed.

(** No index has the key. *)
Definition free (R P C : gmap string TokenRecord) (v : string) : Prop :=
  R !! v = None ∧ P !! v = None ∧ C !! v = None.

Ltac lookups :=
  repeat match goal with
  | E : <[_ := _]> _ !! _ = Some _ |- _ => apply lookup_insert_Some in E as [[? ?]|[? E]]
  | E : delete _ _ !! _ = Some _ |- _ => apply lookup_delete_Some in E as [? E]
  end; subst.

Lemma consistent_add R P C r :
  consistent R P C → NoDup [r.(token); r.(preview_token); r.(control_token)] →
  free R P C r.(token) → free R P C r.(preview_token) → free R P C r.(control_token) →
  consistent (<[r.(token) := r]> R) (<[r.(preview_token) := r]> P) (<[r.(control_token) := r]> C).
Proof.
  intros [HR HP HC D1 D2 D3] ND F1 F2 F3. unfold free in *.
  rewrite !NoDup_cons, !not_elem_of_cons in ND. destruct ND as ((N1 & N2 & _) & (N3 & _) & _).
  split.
  - intros k x E. lookups; [by rewrite !lookup_insert_eq|].
    destruct (HR _ _ E) as (? & EP & EC). split; [done|].
    rewrite !lookup_insert_ne by (intros Q; rewrite <- Q in *; naive_solver congruence). done.
  - intros k x E. lookups; [by rewrite lookup_insert_eq|]. destruct (HP _ _ E) as (? & ER).
    split; [done|]. rewrite lookup_insert_ne by (intros Q; rewrite <- Q in *; naive_solver congruence). done.
  - intros k x E. lookups; [by rewrite lookup_insert_eq|]. destruct (HC _ _ E) as (? & ER).
    split; [done|]. rewrite lookup_insert_ne by (intros Q; rewrite <- Q in *; naive_solver congruence). done.
  - apply map_disjoint_insert_l_2; [rewrite lookup_insert_ne by done; tauto|].
    apply map_disjoint_insert_r_2; tauto.
  - apply map_disjoint_insert_l_2; [rewrite lookup_insert_ne by done; tauto|].
    apply map_disjoint_insert_r_2; tauto.
  - apply map_disjoint_insert_l_2; [rewrite lookup_insert_ne by done; tauto|].
    apply map_disjoint_insert_r_2; tauto.
Qed.

Lemma consistent_remove R P C k r :
  consistent R P C → R !! k = Some r →
  consistent (delete k R) (delete r.(preview_token) P) (delete r.(control_token) C).
Proof.
  intros [HR HP HC D1 D2 D3] Hr. destruct (HR _ _ Hr) as (Ht & EP & EC). split.
  - intros i x E. lookups. destruct (HR _ _ E) as (Hi & EP' & EC'). split; [done|].
    rewrite !lookup_delete_ne; [done|intros Q; rewrite Q in *; congruence..].
  - intros i x E. lookups. destruct (HP _ _ E) as (Hi & ER). split; [done|].
    rewrite lookup_delete_ne; [done|intros Q; rewrite <- Q in *; congruence].
  - intros i x E. lookups. destruct (HC _ _ E) as (Hi & ER). split; [done|].
    rewrite lookup_delete_ne; [done|intros Q; rewrite <- Q in *; congruence].
  - by apply map_disjoint_delete_l, map_disjoint_delete_r.
  - by apply map_disjoint_delete_l, map_disjoint_delete_r.
  - by apply map_disjoint_delete_l, map_disjoint_delete_r.
Qed.

(** A record takes the place of another: each of its credentials is new or the
    one the old record had in the same role. *)
Lemma consistent_replace R P C k cur r :
  consistent R P C → R !! k = Some cur →
  NoDup [r.(token); r.(preview_token); r.(control_token)] →
  (r.(token) = k ∨ free R P C r.(token)) →
  (r.(preview_token) = cur.(preview_token) ∨ free R P C r.(preview_token)) →
  (r.(control_token) = cur.(control_token) ∨ free R P C r.(control_token)) →
  consistent (<[r.(token) := r]> (delete k R))
    (<[r.(preview_token) := r]> (delete cur.(preview_token) P))
    (<[r.(control_token) := r]> (delete cur.(control_token) C)).
Proof.
  intros W Hk ND Ht Hp Hc. destruct (of_read _ _ _ W _ _ Hk) as (Et & EP & EC).
  destruct (W) as [_ _ _ D1 D2 D3].
  assert (∀ v, free R P C v → free (delete k R) (delete cur.(preview_token) P)
                                (delete cur.(control_token) C) v) as F.
  { intros v (? & ? & ?). split_and!; apply lookup_delete_None; by right. }
  apply consistent_add; [by apply consistent_remove|done|..].
  - destruct Ht as [->|Ht]; [|by apply F].
    split_and!; apply lookup_delete_None; [by left|right|right];
      [exact (map_disjoint_Some_l _ _ _ _ D1 Hk)|exact (map_disjoint_Some_l _ _ _ _ D2 Hk)].
  - destruct Hp as [->|Hp]; [|by apply F].
    split_and!; apply lookup_delete_None; [right|by left|right];
      [exact (map_disjoint_Some_r _ _ _ _ D1 EP)|exact (map_disjoint_Some_l _ _ _ _ D3 EP)].
  - destruct Hc as [->|Hc]; [|by apply F].
    split_and!; apply lookup_delete_None; [right|right|by left];
      [exact (map_disjoint_Some_r _ _ _ _ D2 EC)|exact (map_disjoint_Some_r _ _ _ _ D3 EC)].
Qed.

(** ** Reasoning about operations *)

Definition idx {fs} (st : state fs) : indexes :=
  Indexes st.(records) st.(preview_records) st.(control_records).

Definition ix_maps (ix : indexes) : gmap string TokenRecord * gmap string TokenRecord * gmap string TokenRecord :=
  (dmap ix.(ix_records), dmap ix.(ix_previews), dmap ix.(ix_controls)).

Definition ix_wf (ix : indexes) : Prop :=
  dwf ix.(ix_records) ∧ dwf ix.(ix_previews) ∧ dwf ix.(ix_controls).

Definition inv (ix : indexes) : Prop :=
  ix_wf ix ∧ consistent (dmap ix.(ix_records)) (dmap ix.(ix_previews)) (dmap ix.(ix_controls)).

(** The same entries, in whatever order. *)
#[export] Instance indexes_equiv : Equiv indexes := λ a b, ix_maps a = ix_maps b.
#[export] Instance indexes_equivalence : Equivalence (≡@{indexes}).
Proof. split; unfold equiv, indexes_equiv; congruence. Qed.

Lemma inv_equiv a b : a ≡ b → ix_wf b → inv a → inv b.
Proof. intros E W [_ C]. unfold equiv, indexes_equiv, ix_maps in E. injection E as E1 E2 E3. split; [done|]. by rewrite <- E1, <- E2, <- E3. Qed.

Lemma unused_free ix v :
  ix_used ix v = false → free (dmap ix.(ix_records)) (dmap ix.(ix_previews)) (dmap ix.(ix_controls)) v.
Proof. unfold ix_used. rewrite !orb_false_iff, !dmem_false. unfold free. tauto. Qed.

Section logic.
Context {fs : Type}.
Abbreviation M := (@M fs).

(** An operation that leaves the indexes alone and answers something with [F]. *)
Definition quiet {A} (m : M A) (F : indexes → A → Prop) : Prop :=
  ∀ st, idx (m st).2 = idx st ∧ match (m st).1 with Ok a => F (idx st) a | Err _ => True end.

(** Symbolic execution: [Q] holds of the result and the indexes when [m] returns,
    [E] of the indexes when it raises or keeps drawing. *)
Definition wp {A} (m : M A) (Q : A → indexes → Prop) (E : indexes → Prop) (st : state fs) : Prop :=
  match m st with (Ok a, st') => Q a (idx st') | (Err _, st') => E (idx st') end.

Lemma wp_return {A} (a : A) (Q : A → indexes → Prop) E st : Q a (idx st) → wp (M_ret A a) Q E st.
Proof. done. Qed.

Lemma wp_weaken {A} (m : M A) (Q Q' : A → indexes → Prop) (E E' : indexes → Prop) st :
  wp m Q E st → (∀ a ix, Q a ix → Q' a ix) → (∀ ix, E ix → E' ix) → wp m Q' E' st.
Proof. unfold wp. destruct (m st) as [[a|e] st']; auto. Qed.

Lemma wp_modify {B} f (k : unit → M B) Q E st :
  wp (k tt) Q E (f st) → wp (M_bind unit B k (modify f)) Q E st.
Proof. done. Qed.

Lemma wp_gets {A B} (f : state fs → A) (k : A → M B) Q E st :
  wp (k (f st)) Q E st → wp (M_bind A B k (gets f)) Q E st.
Proof. done. Qed.

Lemma wp_last f Q E st : Q tt (idx (f st)) → wp (modify f) Q E st.
Proof. done. Qed.

(** The state after [register]. *)
Definition registered (key : string) (r : TokenRecord) (st : state fs) : state fs :=
  State (dset key r st.(records)) (dset r.(preview_token) r st.(preview_records))
    (dset r.(control_token) r st.(control_records)) st.(signed_nonces) st.(file) st.(disk)
    st.(draws) st.(faults).

Lemma wp_register {B} key r (k : unit → M B) Q E st :
  wp (k tt) Q E (registered key r st) → wp (M_bind unit B k (register key r)) Q E st.
Proof. done. Qed.

Lemma wp_quiet {A B} (m : M A) F (k : A → M B) Q E st :
  quiet m F → E (idx st) →
  (∀ a st', idx st' = idx st → F (idx st) a → wp (k a) Q E st') → wp (M_bind A B k m) Q E st.
Proof.
  intros H HE Hk. specialize (H st). unfold wp, M_bind. destruct (m st) as [[a|e] st'].
  - destruct H as [Ei Ha]. by apply Hk.
  - destruct H as [Ei _]. cbn in Ei. by rewrite Ei.
Qed.

Lemma quiet_bind {A B} (m : M A) F (k : A → M B) G :
  quiet m F → (∀ a, (∃ ix, F ix a) → quiet (k a) (λ ix b, F ix a → G ix b)) →
  quiet (M_bind A B k m) G.
Proof.
  intros Hm Hk st. specialize (Hm st). unfold M_bind. destruct (m st) as [[a|e] st']; [|exact Hm].
  cbn in Hm. destruct Hm as [Ei Ha]. specialize (Hk a (ex_intro _ _ Ha) st'). rewrite Ei in Hk.
  destruct Hk as [-> Hk]. split; [done|]. destruct ((k a st').1); auto.
Qed.

Lemma quiet_ret {A} (a : A) (F : indexes → A → Prop) : (∀ ix, F ix a) → quiet (M_ret A a) F.
Proof. intros H st. split; [done|]. apply H. Qed.

Lemma quiet_weaken {A} (m : M A) (F G : indexes → A → Prop) :
  quiet m F → (∀ ix a, F ix a → G ix a) → quiet m G.
Proof. intros H HG st. destruct (H st) as [E R]. split; [done|]. destruct ((m st).1); auto. Qed.

Lemma quiet_fail {A} e (F : indexes → A → Prop) : quiet (fail e) F.
Proof. by intros st. Qed.

Lemma quiet_gets {A} (f : state fs → A) F : (∀ st, F (idx st) (f st)) → quiet (gets f) F.
Proof. intros H st. split; [done|]. apply H. Qed.

Lemma quiet_lift {A} (r : res exn A) F : (∀ ix a, r = Ok a → F ix a) → quiet (lift (fs := fs) r) F.
Proof. intros H. destruct r; [apply quiet_ret; auto|apply quiet_fail]. Qed.

Lemma quiet_modify f F : (∀ st, idx (f st) = idx st) → F = (λ _ _, True) → quiet (modify f) F.
Proof. intros H -> st. split; [apply H|done]. Qed.

Lemma quiet_on_error {A} (m : M A) (h : M unit) F :
  quiet m F → quiet h (λ _ _, True) → quiet (on_error m h) F.
Proof.
  intros Hm Hh st. specialize (Hm st). unfold on_error. destruct (m st) as [[a|e] st']; [done|].
  cbn in Hm. destruct Hm as [E _]. specialize (Hh st'). rewrite E in Hh.
  destruct e; destruct (h st') as [[u|e'] st'']; cbn in *; tauto.
Qed.

Lemma draw_loop_free fuel draw ok ds v ds' :
  draw_loop fuel draw ok ds = Some (v, ds') → ok v = true.
Proof.
  revert ds. induction fuel as [|fuel IH]; intros ds; simpl; [done|].
  destruct (draw ds) as [[x rest]|]; [|done]. destruct (ok x) eqn:O; [by intros [= <- <-]|apply IH].
Qed.

Lemma quiet_draw_free draw (ok : string → bool) :
  quiet (draw_free (fs := fs) draw ok) (λ _ v, ok v = true).
Proof.
  intros st. unfold draw_free, mbind, M_bind, gets.
  destruct (draw_loop _ draw ok _) as [[v ds']|] eqn:D; [|done].
  apply draw_loop_free in D. by split.
Qed.
End logic.

(** The indexes after [register]. *)
Definition ix_register (key : string) (r : TokenRecord) (ix : indexes) : indexes :=
  Indexes (dset key r ix.(ix_records)) (dset r.(preview_token) r ix.(ix_previews))
    (dset r.(control_token) r ix.(ix_controls)).

Lemma registered_idx {fs} key r (st : state fs) : idx (registered key r st) = ix_register key r (idx st).
Proof. done. Qed.

(** The indexes after one record took the place of another. *)
Definition ix_replace (old new : TokenRecord) (ix : indexes) : indexes :=
  Indexes (dset new.(token) new (dpop old.(token) ix.(ix_records)))
    (dset new.(preview_token) new (dpop old.(preview_token) ix.(ix_previews)))
    (dset new.(control_token) new (dpop old.(control_token) ix.(ix_controls))).

Lemma ix_register_wf key r ix : ix_wf ix → ix_wf (ix_register key r ix).
Proof. intros (? & ? & ?). split_and!; simpl; eauto with py_list. Qed.

Lemma ix_replace_wf old new ix : ix_wf ix → ix_wf (ix_replace old new ix).
Proof. intros (? & ? & ?). split_and!; simpl; eauto with py_list. Qed.

Lemma dset_over {A} k (v : A) d : dwf d → dset k v d ≡ dset k v (dpop k d).
Proof.
  intros W. unfold equiv, dict_equiv. rewrite !dmap_set, dmap_pop by done.
  by rewrite insert_delete_eq.
Qed.

(** A record keeps or renews its credentials. *)
Definition ix_fresh (ix : indexes) (cur r : TokenRecord) : Prop :=
  NoDup [r.(token); r.(preview_token); r.(control_token)] ∧
  (r.(token) = cur.(token) ∨ ix_used ix r.(token) = false) ∧
  (r.(preview_token) = cur.(preview_token) ∨ ix_used ix r.(preview_token) = false) ∧
  (r.(control_token) = cur.(control_token) ∨ ix_used ix r.(control_token) = false).

Lemma inv_replace ix cur r :
  inv ix → dget cur.(token) ix.(ix_records) = Some cur → ix_fresh ix cur r → inv (ix_replace cur r ix).
Proof.
  intros [W C] Hc (ND & F1 & F2 & F3). split; [by apply ix_replace_wf|]. destruct W as (W1 & W2 & W3).
  unfold ix_replace. cbn [ix_records ix_previews ix_controls]. rewrite !dmap_set, !dmap_pop by done. rewrite <- dmap_lookup in Hc.
  apply consistent_replace; [done..| | |]; naive_solver eauto using unused_free.
Qed.

Lemma inv_register ix r :
  inv ix → NoDup [r.(token); r.(preview_token); r.(control_token)] →
  ix_used ix r.(token) = false → ix_used ix r.(preview_token) = false →
  ix_used ix r.(control_token) = false → inv (ix_register r.(token) r ix).
Proof.
  intros [W C] ND F1 F2 F3. split; [by apply ix_register_wf|]. unfold ix_register. cbn [ix_records ix_previews ix_controls].
  rewrite !dmap_set. apply consistent_add; eauto using unused_free.
Qed.

Lemma inv_remove ix r :
  inv ix → dget r.(token) ix.(ix_records) = Some r →
  inv (Indexes (dpop r.(token) ix.(ix_records)) (dpop r.(preview_token) ix.(ix_previews))
         (dpop r.(control_token) ix.(ix_controls))).
Proof.
  intros [(W1 & W2 & W3) C] Hr. split; [split_and!; simpl; eauto with py_list|]. cbn [ix_records ix_previews ix_controls].
  rewrite !dmap_pop by done. rewrite <- dmap_lookup in Hr. by apply consistent_remove.
Qed.

(** Putting the old record back restores the indexes. *)
Lemma ix_restore ix cur r :
  inv ix → dget cur.(token) ix.(ix_records) = Some cur → ix_fresh ix cur r →
  ix_replace r cur (ix_replace cur r ix) ≡ ix.
Proof.
  intros [(W1 & W2 & W3) C] Hc (ND & F1 & F2 & F3). rewrite <- dmap_lookup in Hc.
  destruct (of_read _ _ _ C _ _ Hc) as (_ & Hp & Hk).
  assert (∀ (m : gmap string TokenRecord) k k',
    m !! k = Some cur → (k' = k ∨ m !! k' = None) →
    <[k := cur]> (delete k' (<[k' := r]> (delete k m))) = m) as Back.
  { intros m k k' Hm Hk'. rewrite delete_insert_eq. destruct Hk' as [->|Hk'].
    - rewrite (delete_id (delete k m)) by apply lookup_delete_eq. by rewrite insert_delete_id.
    - rewrite (delete_id (delete k m)) by (apply lookup_delete_None; by right).
      by rewrite insert_delete_id. }
  unfold equiv, indexes_equiv, ix_maps, ix_replace. cbn [ix_records ix_previews ix_controls].
  repeat (rewrite dmap_set || rewrite dmap_pop by eauto with py_list).
  pose proof (λ v, unused_free ix v) as U. unfold free in U.
  rewrite !Back by (try done; naive_solver). done.
Qed.

(** ** The abstract registry

    A vault is a set of records by read token.  Its steps add a record with unused
    credentials, put one record in the place of another, or remove one. *)

Definition credentials (r : TokenRecord) : list string :=
  [r.(token); r.(preview_token); r.(control_token)].

Definition vault_unused (R : gmap string TokenRecord) (v : string) : Prop :=
  ∀ k x, R !! k = Some x → v ∉ credentials x.

Inductive vault_step (R : gmap string TokenRecord) : gmap string TokenRecord → Prop :=
| vault_stutter : vault_step R R
| vault_add r :
    NoDup (credentials r) → (∀ v, v ∈ credentials r → vault_unused R v) →
    vault_step R (<[r.(token) := r]> R)
| vault_replace cur r :
    R !! cur.(token) = Some cur → NoDup (credentials r) →
    (r.(token) = cur.(token) ∨ vault_unused R r.(token)) →
    (r.(preview_token) = cur.(preview_token) ∨ vault_unused R r.(preview_token)) →
    (r.(control_token) = cur.(control_token) ∨ vault_unused R r.(control_token)) →
    vault_step R (<[r.(token) := r]> (delete cur.(token) R))
| vault_remove r : R !! r.(token) = Some r → vault_step R (delete r.(token) R).

Lemma unused_vault ix v : inv ix → ix_used ix v = false → vault_unused (dmap ix.(ix_records)) v.
Proof.
  intros [_ C] (U1 & U2 & U3)%unused_free k x Hx. destruct (of_read _ _ _ C _ _ Hx) as (Et & Ep & Ec).
  unfold credentials. rewrite !not_elem_of_cons. split_and!; [intros ->; congruence..|apply not_elem_of_nil].
Qed.

(** What every request leaves behind: sound indexes and a step of the vault. *)
Definition settled (ix0 ix : indexes) : Prop :=
  inv ix ∧ vault_step (dmap ix0.(ix_records)) (dmap ix.(ix_records)).

Lemma settled_refl ix : inv ix → settled ix ix.
Proof. intros I. split; [done|constructor]. Qed.

Section operations.
Context {fs : Type} `{Workspaces fs}.
Context (root : path) (persistent : bool) (idna_other : string → option string)
  (repr : json → string).

Lemma quiet_get t : quiet (fs := fs) (get t) (λ ix r, dget t ix.(ix_records) = Some r).
Proof. intros st. unfold get, mbind, M_bind, gets. by destruct (dget t (records st)) eqn:G. Qed.

Lemma quiet_validate r :
  quiet (fs := fs) (validate root idna_other r) (λ _ r', ∃ w, _validate idna_other root w r = Ok r').
Proof.
  intros st. unfold validate, mbind, M_bind, gets, lift.
  destruct (_validate idna_other root (disk st) r) eqn:V; [|done]. split; [done|]. by exists (disk st).
Qed.

Lemma quiet_save : quiet (fs := fs) (_save_locked persistent) (λ _ _, True).
Proof. intros st. unfold _save_locked. destruct (negb persistent); [done|]. by destruct (head (faults st)) as [[]|]. Qed.

Lemma quiet_new_token excluded :
  quiet (fs := fs) (_new_token_locked excluded) (λ ix v, ix_used ix v = false ∧ v ∉ excluded).
Proof.
  intros st. pose proof (quiet_draw_free token_urlsafe_alnum (unused st excluded) st) as Q.
  change (_new_token_locked excluded st) with (draw_free token_urlsafe_alnum (unused st excluded) st).
  destruct Q as [-> Q]. split; [done|]. destruct ((draw_free _ _ st).1); [|done].
  unfold unused in Q. apply andb_true_iff in Q as [Q1 Q2].
  apply negb_true_iff in Q1, Q2. by apply bool_decide_eq_false in Q1.
Qed.

Lemma quiet_new_preview excluded :
  quiet (fs := fs) (_new_preview_token_locked excluded) (λ ix v, ix_used ix v = false ∧ v ∉ excluded).
Proof. exact (quiet_new_token excluded). Qed.

Lemma quiet_new_control excluded :
  quiet (fs := fs) (_new_control_token_locked excluded) (λ ix v, ix_used ix v = false ∧ v ∉ excluded).
Proof.
  intros st.
  pose proof (quiet_draw_free token_urlsafe_alnum
                (λ v, unused st excluded (CONTROL_TOKEN_PREFIX +:+ v)) st) as Q.
  unfold _new_control_token_locked, mbind, M_bind, gets, id.
  destruct (draw_free token_urlsafe_alnum _ st) as [[v|e] st']; [|done].
  destruct Q as [Ei Q]. split; [done|]. cbn. unfold unused in Q. apply andb_true_iff in Q as [Q1 Q2].
  apply negb_true_iff in Q1, Q2. by apply bool_decide_eq_false in Q1.
Qed.

Lemma quiet_new_app : quiet (fs := fs) _new_app_id_locked (λ _ _, True).
Proof.
  intros st. destruct (quiet_draw_free token_hex
    (λ v, negb (bool_decide (v ∈ app_id <$> values st.(records)))) st) as [E _].
  split; [exact E|]. by destruct ((_new_app_id_locked st).1).
Qed.

(** A saved change returns; a failed write runs the handler. *)
Lemma wp_commit {A} (h : M unit) (r : A) Q E (st : state fs) :
  Q r (idx st) → (∀ st', idx st' = idx st → wp h (λ _ ix, E ix) E st') →
  wp (M_bind unit A (λ _, M_ret A r) (on_error (_save_locked persistent) h)) Q E st.
Proof.
  intros HQ Hh. unfold wp, M_bind, on_error. pose proof (quiet_save st) as [Ei _].
  unfold _save_locked in *. destruct (negb persistent); [exact HQ|].
  destruct (head (faults st)) as [[]|]; cbn in *; [|exact HQ..].
  specialize (Hh (State (records st) (preview_records st) (control_records st) (signed_nonces st)
    (file st) (disk st) (draws st) (tail (faults st))) eq_refl).
  unfold wp in Hh. by destruct (h _) as [[u|e] st'].
Qed.

Lemma wp_save {A} (r : A) Q E (st : state fs) :
  Q r (idx st) → E (idx st) →
  wp (M_bind unit A (λ _, M_ret A r) (_save_locked persistent)) Q E st.
Proof. intros HQ HE. eapply wp_quiet; [apply quiet_save|done|]. intros [] st' Ei _. apply wp_return. by rewrite Ei. Qed.

(** The outcome of a rotation: the record [r] took the place of the one under
    [t], or nothing changed. *)
Definition replaced (ix0 : indexes) (t : string) (r : TokenRecord) (ix : indexes) : Prop :=
  ∃ cur, dget t ix0.(ix_records) = Some cur ∧ ix_fresh ix0 cur r ∧ ix ≡ ix_replace cur r ix0 ∧ ix_wf ix.

Definition unchanged (ix0 ix : indexes) : Prop := ix ≡ ix0 ∧ ix_wf ix.

Lemma unchanged_refl ix : inv ix → unchanged ix ix.
Proof. intros [W _]. by split. Qed.

Lemma inv_token ix t cur : inv ix → dget t ix.(ix_records) = Some cur → cur.(token) = t.
Proof. intros [_ C] G. rewrite <- dmap_lookup in G. by apply (of_read _ _ _ C) in G as (? & _). Qed.

Lemma replaced_inv ix0 t r ix : inv ix0 → replaced ix0 t r ix → inv ix.
Proof.
  intros I (cur & G & F & Eq & W). eapply inv_equiv; [symmetry; exact Eq|done|].
  apply inv_replace; [done| |done]. by rewrite (inv_token _ _ _ I G).
Qed.

Lemma unchanged_inv ix0 ix : inv ix0 → unchanged ix0 ix → inv ix.
Proof. intros I [Eq W]. by eapply inv_equiv. Qed.

Lemma replaced_settled ix0 t r ix : inv ix0 → replaced ix0 t r ix → settled ix0 ix.
Proof.
  intros I R. split; [by eapply replaced_inv|]. destruct R as (cur & G & (ND & F1 & F2 & F3) & Eq & W).
  pose proof (inv_token _ _ _ I G) as Ht. subst t. injection Eq as -> _ _.
  destruct (I) as [(W1 & _ & _) _]. rewrite dmap_set, dmap_pop by done. rewrite <- dmap_lookup in G.
  constructor; naive_solver eauto using unused_vault.
Qed.

Lemma unchanged_settled ix0 ix : inv ix0 → unchanged ix0 ix → settled ix0 ix.
Proof.
  intros I U. split; [by eapply unchanged_inv|]. destruct U as [Eq _]. injection Eq as -> _ _. constructor.
Qed.
End operations.

(** Index states computed by an operation, as maps. *)
Ltac maps :=
  unfold equiv, indexes_equiv, ix_maps, ix_replace, ix_register;
  cbn [idx ix_records ix_previews ix_controls records preview_records control_records];
  repeat (rewrite dmap_set || rewrite dmap_pop by eauto 6 with py_list).
Ltac same_maps :=
  repeat rewrite ?delete_insert_eq, ?delete_delete_eq, ?insert_delete_eq, ?insert_insert_eq; done.

Ltac wf := split_and!; simpl; eauto 6 with py_list.

Section rotations.
Context {fs : Type} `{Workspaces fs}.
Context (root : path) (persistent : bool) (idna_other : string → option string)
  (repr : json → string).

(** The end of a rotation of [cur] into [r]: the new indexes are saved, or the
    handler puts [cur] back. *)
Ltac commit_swap cur E I G Et Ep Ec :=
  let Ht := fresh "Ht" in pose proof (inv_token _ _ _ I G) as Ht;
  let C := fresh "C" in destruct (I) as [(? & ? & ?) C];
  let Q1 := fresh "Q" in let Q2 := fresh "Q" in let Q3 := fresh "Q" in injection E as Q1 Q2 Q3;
  repeat apply wp_modify; apply wp_commit;
  [ exists cur; unfold idx; cbn; rewrite Q1, Q2, Q3; split_and!; [done|done| |wf];
    maps; rewrite ?Et, ?Ep, ?Ec, ?Ht; same_maps
  | let st' := fresh "st'" in let E' := fresh "E" in intros st' E';
    let R1 := fresh "R" in let R2 := fresh "R" in let R3 := fresh "R" in injection E' as R1 R2 R3;
    repeat apply wp_modify; apply wp_last;
    unfold idx; cbn; rewrite R1, R2, R3, Q1, Q2, Q3; split; [|wf];
    etransitivity; [|apply (ix_restore _ cur); [exact I|rewrite Ht; exact G|eassumption]];
    maps; rewrite ?Et, ?Ep, ?Ec, ?Ht; same_maps ].

Lemma rotate_control_spec t (st : state fs) :
  inv (idx st) →
  wp (rotate_control_token root persistent idna_other t) (replaced (idx st) t) (unchanged (idx st)) st.
Proof.
  intros I. pose proof (unchanged_refl _ I) as U.
  eapply wp_quiet; [apply quiet_get|done|]. intros cur st1 E1 G.
  eapply wp_quiet; [apply quiet_new_control|by rewrite E1|]. rewrite E1. intros control st2 E2 [F _].
  eapply wp_quiet; [apply quiet_validate|by rewrite E2|]. rewrite E2. intros r st3 E3 [w V].
  apply validate_identity in V as (Et & Ep & Ec & _ & ND). cbn in Et, Ep, Ec, ND.
  assert (ix_fresh (idx st) cur r) as Fr by (unfold ix_fresh; rewrite Et, Ep, Ec; auto).
  commit_swap cur E3 I G Et Ep Ec.
Qed.

Lemma rotate_read_spec t (st : state fs) :
  inv (idx st) →
  wp (rotate_read_token root persistent idna_other t) (replaced (idx st) t) (unchanged (idx st)) st.
Proof.
  intros I. pose proof (unchanged_refl _ I) as U.
  eapply wp_quiet; [apply quiet_get|done|]. intros cur st1 E1 G.
  eapply wp_quiet; [apply quiet_new_token|by rewrite E1|]. rewrite E1. intros new st2 E2 [F _].
  eapply wp_quiet; [apply quiet_validate|by rewrite E2|]. rewrite E2. intros r st3 E3 [w V].
  apply validate_identity in V as (Et & Ep & Ec & _ & ND). cbn in Et, Ep, Ec, ND.
  assert (ix_fresh (idx st) cur r) as Fr by (unfold ix_fresh; rewrite Et, Ep, Ec; auto).
  commit_swap cur E3 I G Et Ep Ec.
Qed.

Lemma new_pair_fresh ix cur read control r :
  ix_used ix read = false → ix_used ix control = false →
  NoDup [read; cur.(preview_token); control] →
  r.(token) = read → r.(preview_token) = cur.(preview_token) → r.(control_token) = control →
  ix_fresh ix cur r.
Proof. intros F1 F2 ND E1 E2 E3. unfold ix_fresh. rewrite E1, E2, E3. auto. Qed.

(** The record a renewal returns: new read and control tokens, the same identity,
    and the new short expiry. *)
Definition renewed (cur r : TokenRecord) (expiry : json) : Prop :=
  r.(preview_token) = cur.(preview_token) ∧ r.(app_id) = cur.(app_id) ∧ r.(enabled) = cur.(enabled) ∧
  r.(credentials_expires_at) = expiry.

Definition renewal (ix0 : indexes) (t : string) (expiry : json) (r : TokenRecord) (ix : indexes) : Prop :=
  ∃ cur, dget t ix0.(ix_records) = Some cur ∧ ix_fresh ix0 cur r ∧ ix ≡ ix_replace cur r ix0 ∧ ix_wf ix ∧
    ix_used ix0 r.(token) = false ∧ ix_used ix0 r.(control_token) = false ∧ renewed cur r expiry.

Lemma renewal_replaced ix0 t e r ix : renewal ix0 t e r ix → replaced ix0 t r ix.
Proof. intros (cur & ? & ? & ? & ? & _). by exists cur. Qed.

Lemma renew_both_spec cur expiry until read control (st st0 : state fs) :
  inv (idx st0) → idx st = idx st0 → dget cur.(token) (idx st0).(ix_records) = Some cur →
  ix_used (idx st0) read = false → ix_used (idx st0) control = false →
  parse_datetime (JStr expiry) = Ok (Some until) →
  wp (renew_both root persistent idna_other cur expiry read control)
    (renewal (idx st0) cur.(token) (JStr (iso_utc until))) (unchanged (idx st0)) st.
Proof.
  intros I E0 G F1 F2 D. pose proof (unchanged_refl _ I) as U.
  eapply wp_quiet; [apply quiet_validate|by rewrite E0|]. rewrite E0. intros r st3 E3 [w V].
  pose proof (validate_enabled _ _ _ _ _ V) as Ee. cbn in Ee.
  destruct (validate_dates _ _ _ _ _ V) as (e & c & _ & Hc & _ & Ec'). cbn -[parse_datetime] in Hc.
  rewrite D in Hc. injection Hc as <-. cbn in Ec'.
  apply validate_identity in V as (Et & Ep & Ec & Ea & ND). cbn in Et, Ep, Ec, Ea, ND.
  pose proof (new_pair_fresh _ _ _ _ _ F1 F2 ND Et Ep Ec) as Fr.
  assert (renewed cur r (JStr (iso_utc until))) as N by (unfold renewed; split_and!; done).
  destruct (I) as [(W1 & W2 & W3) C]. injection E3 as Q1 Q2 Q3.
  repeat apply wp_modify. apply wp_commit.
  - exists cur. unfold idx. cbn. rewrite Q1, Q2, Q3, Et, Ec. split_and!; [done|done| |wf|done|done|done].
    maps. rewrite ?Et, ?Ep, ?Ec. same_maps.
  - intros st' E'. injection E' as R1 R2 R3. repeat apply wp_modify. apply wp_last.
    unfold idx. cbn. rewrite R1, R2, R3, Q1, Q2, Q3. split; [|wf].
    etransitivity; [|by apply (ix_restore _ cur)]. maps. rewrite ?Et, ?Ep, ?Ec. same_maps.
Qed.

(** The two new credentials of a renewal are drawn under the same indexes. *)
Lemma renew_spec days now until t (st : state fs) expiry :
  inv (idx st) → parse_datetime (JStr expiry) = Ok (Some until) →
  credential_expiry now days = Ok expiry →
  wp (renew_credentials root persistent idna_other now t days)
    (renewal (idx st) t (JStr (iso_utc until))) (unchanged (idx st)) st.
Proof.
  intros I D X. pose proof (unchanged_refl _ I) as U. unfold renew_credentials. rewrite X.
  eapply (wp_quiet _ (λ _ e, e = expiry)); [by apply quiet_lift; intros ? ? [= <-]|done|].
  intros ? st0 E0 ->.
  eapply wp_quiet; [apply quiet_get|by rewrite E0|]. rewrite E0. intros cur st1 E1 G.
  eapply wp_quiet; [apply quiet_new_token|by rewrite E1|]. rewrite E1. intros read st2 E2 [F _].
  eapply wp_quiet; [apply quiet_new_control|by rewrite E2|]. rewrite E2. intros control st3 E3 [F' _].
  pose proof (inv_token _ _ _ I G) as Ht. subst t. by apply renew_both_spec.
Qed.

Lemma renew_if_due_spec now t (st : state fs) :
  inv (idx st) →
  wp (renew_credentials_if_due root persistent idna_other now t)
    (λ r ix, renewal (idx st) t (JStr (iso_utc (now + DEFAULT_CREDENTIAL_TTL_DAYS * day_us))) r ix ∧
       ∃ cur e, dget t (idx st).(ix_records) = Some cur ∧
         parse_datetime cur.(credentials_expires_at) = Ok (Some e) ∧ now < e < now + SELF_RENEWAL_WINDOW)
    (unchanged (idx st)) st.
Proof.
  intros I. pose proof (unchanged_refl _ I) as U. unfold renew_credentials_if_due.
  eapply wp_quiet; [apply quiet_get|done|]. intros cur st1 E1 G.
  eapply (wp_quiet _ (λ _ e, parse_datetime cur.(credentials_expires_at) = Ok e));
    [by apply quiet_lift|by rewrite E1|]. rewrite E1. intros [e|] st2 E2 P; [|unfold wp, fail; by rewrite E2].
  destruct (Z.leb_spec SELF_RENEWAL_WINDOW (e - now)); [unfold wp, fail; by rewrite E2|].
  destruct (Z.leb_spec (e - now) 0); [unfold wp, fail; by rewrite E2|].
  eapply wp_quiet; [apply quiet_new_token|by rewrite E2|]. rewrite E2. intros read st3 E3 [F _].
  eapply wp_quiet; [apply quiet_new_control|by rewrite E3|]. rewrite E3. intros control st4 E4 [F' _].
  eapply (wp_quiet _ (λ _ x, in_days now DEFAULT_CREDENTIAL_TTL_DAYS = Ok x));
    [by apply quiet_lift|by rewrite E4|]. rewrite E4. intros expires st5 E5 X.
  apply in_days_parse in X as [_ X]. pose proof (inv_token _ _ _ I G) as Ht. subst t.
  eapply wp_weaken; [by eapply (renew_both_spec cur expires)| |done].
  intros r ix R. split; [done|]. exists cur, e. split_and!; [done|done|lia|lia].
Qed.

Lemma rotate_preview_spec t (st : state fs) :
  inv (idx st) →
  wp (rotate_preview_token root persistent idna_other t) (replaced (idx st) t) (settled (idx st)) st.
Proof.
  intros I. pose proof (settled_refl _ I) as U. eapply wp_quiet; [apply quiet_get|done|]. intros cur st1 E1 G.
  eapply wp_quiet; [apply quiet_new_preview|by rewrite E1|]. rewrite E1. intros new st2 E2 [F _].
  eapply wp_quiet; [apply quiet_validate|by rewrite E2|]. rewrite E2. intros r st3 E3 [w V].
  apply validate_identity in V as (Et & Ep & Ec & _ & ND). cbn in Et, Ep, Ec, ND.
  pose proof (inv_token _ _ _ I G) as Ht. destruct (I) as [(W1 & W2 & W3) C].
  injection E3 as Q1 Q2 Q3. repeat apply wp_modify.
  match goal with |- wp _ _ _ ?s => assert (replaced (idx st) t r (idx s)) as R end.
  { exists cur. unfold idx. cbn. rewrite Q1, Q2, Q3. split_and!; [done| | |wf].
    - unfold ix_fresh. rewrite Et, Ep, Ec. auto.
    - maps. rewrite ?Et, ?Ep, ?Ec, ?Ht. same_maps. }
  apply wp_save; [done|]. by eapply replaced_settled.
Qed.

(** *** Changes that keep the identity *)

Lemma replace_identity r cs :
  existsb is_identity cs = false →
  (replace r cs).(token) = r.(token) ∧ (replace r cs).(preview_token) = r.(preview_token) ∧
  (replace r cs).(control_token) = r.(control_token) ∧ (replace r cs).(app_id) = r.(app_id).
Proof.
  revert r. induction cs as [|c cs IH]; intros r; [done|]. cbn [existsb].
  rewrite orb_false_iff. intros [Hc Hcs]. destruct (IH (replace1 r c) Hcs) as (E1 & E2 & E3 & E4).
  change (replace r (c :: cs)) with (replace (replace1 r c) cs). rewrite E1, E2, E3, E4. by destruct c.
Qed.

Lemma quiet_on_disk f : quiet (fs := fs) (on_disk f) (λ _ _, True).
Proof.
  intros st. unfold on_disk, mbind, M_bind, gets. destruct (f (disk st)) as [[e|] w']; by split.
Qed.

Lemma quiet_remove n : quiet (fs := fs) (_remove_new_workspace root n) (λ _ _, True).
Proof. by intros st. Qed.

Lemma quiet_raise_when b e : quiet (fs := fs) (raise_when b e) (λ _ _, True).
Proof. by destruct b; intros st. Qed.

Lemma quiet_prepare value : quiet (fs := fs) (_prepare_child_workspace root value) (λ _ _, True).
Proof.
  unfold _prepare_child_workspace.
  eapply quiet_bind; [apply quiet_raise_when|]. intros ? _.
  eapply quiet_bind; [by apply (quiet_gets disk (λ _ _, True))|]. intros w _.
  eapply quiet_bind; [apply quiet_raise_when|]. intros ? _.
  eapply quiet_bind; [apply quiet_raise_when|]. intros ? _.
  eapply (quiet_bind _ (λ _ _, True)).
  { destruct (negb _); [|by apply quiet_ret]. intros st. unfold mbind, M_bind, lift.
    destruct (mkdir _ w); by split. }
  intros ? _. eapply (quiet_bind _ (λ _ _, True)).
  { apply quiet_on_error; [apply quiet_on_disk|]. destruct (negb _); [apply quiet_remove|by apply quiet_ret]. }
  intros ? _. by apply quiet_ret.
Qed.

Lemma update_spec t changes (st : state fs) :
  inv (idx st) → wp (update root persistent idna_other t changes) (replaced (idx st) t) (settled (idx st)) st.
Proof.
  intros I. pose proof (settled_refl _ I) as U. eapply wp_quiet; [apply quiet_get|done|]. intros cur st1 E1 G.
  unfold raise_when. destruct (existsb is_identity changes) eqn:Id; [unfold wp, mbind, M_bind, fail; by rewrite E1|].
  eapply (wp_quiet _ (λ _ _, True)); [by apply quiet_ret|by rewrite E1|]. rewrite E1. intros _ st2 E2 _.
  eapply (wp_quiet _ (λ _ _, True)); [|by rewrite E2|].
  { destruct (list_find _ changes) as [[? []]|]; try by apply quiet_ret.
    eapply quiet_bind; [apply quiet_prepare|]. intros p _. by apply quiet_ret. }
  rewrite E2. intros prepared st3 E3 _.
  set (cs := match prepared with Some (n, _) => _ | None => changes end).
  assert (existsb is_identity cs = false) as Id'.
  { unfold cs. destruct prepared as [[n ?]|]; [|done]. apply not_true_iff_false. apply not_true_iff_false in Id.
    intros (c & Hc & Hi)%existsb_exists. apply Id, existsb_exists. apply in_map_iff in Hc as (c' & <- & Hc).
    exists c'. split; [done|]. by destruct c'. }
  eapply (wp_quiet _ (λ _ r, ∃ w, _validate idna_other root w (replace cur cs) = Ok r)); [|by rewrite E3|].
  { apply quiet_on_error; [apply quiet_validate|].
    destruct prepared as [[n []]|]; [apply quiet_remove|by apply quiet_ret..]. }
  rewrite E3. intros r st4 E4 [w V].
  apply validate_identity in V as (Et & Ep & Ec & _ & ND).
  destruct (replace_identity cur cs Id') as (X1 & X2 & X3 & _). rewrite X1, X2, X3 in *.
  pose proof (inv_token _ _ _ I G) as Ht. destruct (I) as [(W1 & W2 & W3) C].
  apply wp_register.
  match goal with |- wp _ _ _ ?s => assert (replaced (idx st) t r (idx s)) as R end.
  { exists cur. rewrite registered_idx, E4. split_and!; [done| | |by apply ix_register_wf].
    - unfold ix_fresh. rewrite Et, Ep, Ec. auto.
    - maps. rewrite ?Et, ?Ep, ?Ec, ?Ht. same_maps. }
  apply wp_save; [done|]. by eapply replaced_settled.
Qed.

(** *** New records *)

(** The record [r] was added under credentials nothing used. *)
Definition added (ix0 : indexes) (r : TokenRecord) (ix : indexes) : Prop :=
  ix = ix_register r.(token) r ix0 ∧ NoDup [r.(token); r.(preview_token); r.(control_token)] ∧
  ix_used ix0 r.(token) = false ∧ ix_used ix0 r.(preview_token) = false ∧
  ix_used ix0 r.(control_token) = false.

Lemma added_inv ix0 r ix : inv ix0 → added ix0 r ix → inv ix.
Proof. intros I (-> & ? & ? & ? & ?). by apply inv_register. Qed.

Lemma added_settled ix0 r ix : inv ix0 → added ix0 r ix → settled ix0 ix.
Proof.
  intros I A. split; [by eapply added_inv|]. destruct A as (-> & ND & F1 & F2 & F3).
  unfold ix_register. cbn [ix_records]. rewrite dmap_set. constructor; [done|].
  intros v. unfold credentials. rewrite !elem_of_cons.
  intros [->|[->|[->|[]%elem_of_nil]]]; by apply unused_vault.
Qed.

Lemma replace_app r cs cs' : replace r (cs ++ cs') = replace (replace r cs) cs'.
Proof. unfold replace. apply foldl_app. Qed.

Lemma token_create_spec now later prefix args (st : state fs) :
  inv (idx st) → wp (create root persistent idna_other now later prefix args) (added (idx st)) (settled (idx st)) st.
Proof.
  intros I. pose proof (settled_refl _ I) as U. unfold create.
  eapply wp_quiet; [apply quiet_prepare|done|]. intros [n created] st1 E1 _.
  eapply wp_quiet; [apply quiet_new_token|by rewrite E1|]. rewrite E1. intros t st2 E2 [F1 _].
  eapply wp_quiet; [apply quiet_new_preview|by rewrite E2|]. rewrite E2. intros p st3 E3 [F2 _].
  eapply wp_quiet; [apply quiet_new_control|by rewrite E3|]. rewrite E3. intros c st4 E4 [F3 _].
  eapply wp_quiet; [apply quiet_new_app|by rewrite E4|]. rewrite E4. intros app st5 E5 _.
  eapply (wp_quiet _ (λ _ r, r.(token) = t ∧ r.(preview_token) = p ∧ r.(control_token) = c ∧ NoDup [t; p; c]));
    [|by rewrite E5|].
  { apply quiet_on_error; [|destruct created; [apply quiet_remove|by apply quiet_ret]].
    eapply (quiet_bind _ (λ _ _, True)); [by apply quiet_lift|]. intros expiry _.
    eapply quiet_weaken; [apply quiet_validate|]. intros ix r [w V] _.
    apply validate_identity in V as (Et & Ep & Ec & _ & ND). rewrite replace_app in *. done. }
  rewrite E5. intros r st6 E6 (Et & Ep & Ec & ND). apply wp_register.
  match goal with |- wp _ _ _ ?s => assert (added (idx st) r (idx s)) as R end.
  { unfold added. rewrite registered_idx, E6, Et, Ep, Ec. done. }
  apply wp_save; [done|]. by eapply added_settled.
Qed.

Lemma delete_spec t (st : state fs) :
  inv (idx st) →
  wp (delete_token root persistent t)
    (λ _ ix, settled (idx st) ix ∧ ∃ r, dget t (idx st).(ix_records) = Some r ∧ dget t ix.(ix_records) = None ∧
       dget r.(preview_token) ix.(ix_previews) = None ∧ dget r.(control_token) ix.(ix_controls) = None)
    (settled (idx st)) st.
Proof.
  intros I. pose proof (settled_refl _ I) as U. unfold delete_token. eapply wp_quiet; [apply quiet_get|done|]. intros r st1 E1 G.
  eapply wp_quiet; [apply quiet_on_disk|by rewrite E1|]. rewrite E1. intros _ st2 E2 _.
  pose proof (inv_token _ _ _ I G) as Ht. subst t.
  
  assert (settled (idx st) (Indexes (dpop r.(token) (records st)) (dpop r.(preview_token) (preview_records st))
            (dpop r.(control_token) (control_records st)))) as I'.
  { split; [exact (inv_remove _ _ I G)|]. destruct I as [(W1 & _ & _) _]. cbn [ix_records].
    rewrite dmap_pop by done. rewrite <- dmap_lookup in G. by constructor. }
  injection E2 as Q1 Q2 Q3.
  repeat apply wp_modify. unfold wp.
  match goal with |- context [_save_locked persistent ?s] => destruct (quiet_save persistent s) as [Ei _];
    destruct (_save_locked persistent s) as [[u|e] st'] end; cbn [snd] in Ei; rewrite Ei; unfold idx; cbn;
    rewrite Q1, Q2, Q3; [|exact I'].
  split; [exact I'|]. exists r. split; [done|]. destruct I as [(W1 & W2 & W3) _]. cbn in W1, W2, W3.
  rewrite <- !dmap_lookup, !dmap_pop by done. by rewrite !lookup_delete_eq.
Qed.

(** *** Loading *)

Lemma add_index_added ix r ix' :
  inv ix → NoDup [r.(token); r.(preview_token); r.(control_token)] → add_index ix r = Ok ix' → inv ix'.
Proof.
  intros I ND. unfold add_index.
  destruct (dmem (token r) (ix_records ix)) eqn:D1; [done|].
  destruct (dmem (preview_token r) (ix_previews ix)) eqn:D2; [done|].
  destruct (dmem (control_token r) (ix_controls ix)) eqn:D3; [done|].
  destruct (_ || _) eqn:D4; [done|]. intros [= <-]. rewrite !orb_false_iff in D4.
  apply (inv_register ix r I ND); unfold ix_used; rewrite !orb_false_iff; tauto.
Qed.

Lemma quiet_complete ix0 r : quiet (fs := fs) (complete ix0 r) (λ _ _, True).
Proof.
  unfold complete.
  eapply (quiet_bind _ (λ _ _, True)).
  { destruct (is_empty _); [|by apply quiet_ret].
    eapply quiet_bind; [apply quiet_draw_free|]. intros v _. by apply quiet_ret. }
  intros r1 _. eapply (quiet_bind _ (λ _ _, True)).
  { destruct (is_empty _); [|by apply quiet_ret].
    eapply quiet_bind; [apply quiet_draw_free|]. intros v _. by apply quiet_ret. }
  intros r2 _. destruct (is_empty _); [|by apply quiet_ret].
  eapply quiet_bind; [apply quiet_draw_free|]. intros v _. by apply quiet_ret.
Qed.

Lemma quiet_load_items now expiry ix migrated items :
  inv ix →
  quiet (fs := fs) (load_items root idna_other repr now expiry ix migrated items) (λ _ x, inv x.1).
Proof.
  revert ix migrated. induction items as [|item items IH]; intros ix migrated I; [by apply quiet_ret|].
  cbn [load_items]. eapply (quiet_bind _ (λ _ _, True)); [by apply quiet_lift|]. intros r0 _.
  eapply quiet_bind; [apply quiet_complete|]. intros r1 _.
  eapply quiet_bind; [apply quiet_validate|]. intros r (_ & w & V).
  apply validate_identity in V as (Et & Ep & Ec & _ & ND). rewrite <- Et, <- Ep, <- Ec in ND.
  eapply (quiet_bind _ (λ _ ix', add_index ix r = Ok ix')); [by apply quiet_lift|]. intros ix' [_ A].
  eapply quiet_weaken; [apply IH; by eapply add_index_added|]. done.
Qed.

Lemma inv_empty : inv (Indexes [] [] []).
Proof. split; [wf|exact consistent_empty]. Qed.

Lemma wp_quiet_last {A} (m : M A) F (Q : A → indexes → Prop) E (st : state fs) :
  quiet m F → (∀ a, F (idx st) a → Q a (idx st)) → E (idx st) → wp m Q E st.
Proof.
  intros H1 HQ HE. specialize (H1 st). unfold wp. destruct (m st) as [[a|e] st']; cbn in H1;
    destruct H1 as [-> H1]; auto.
Qed.

Lemma load_spec now payload (st : state fs) :
  inv (idx st) → wp (_load root persistent idna_other repr now payload) (λ _, inv) inv st.
Proof.
  intros I. unfold _load. destruct payload as [| | | | | |fields]; try exact I.
  destruct (negb _); [exact I|]. destruct (obj_get "tokens" fields) as [[]|]; try exact I.
  eapply (wp_quiet _ (λ _ _, True)); [by apply quiet_lift|done|]. intros expiry st1 E1 _.
  eapply wp_quiet; [apply quiet_load_items, inv_empty|by rewrite E1|]. intros [ix migrated] st2 E2 I2.
  apply wp_modify. destruct migrated; [|exact I2].
  eapply wp_quiet_last; [apply quiet_save|intros _ _; exact I2|exact I2].
Qed.

Lemma bootstrap_spec now t (st : state fs) :
  inv (idx st) → wp (bootstrap root persistent idna_other now t) (λ _, inv) inv st.
Proof.
  intros I. unfold bootstrap. apply wp_gets. unfold id.
  destruct (is_empty t || dmem t (records st)) eqn:D; [exact I|].
  unfold raise_when. destruct (dmem t (preview_records st) || _) eqn:D'; [exact I|].
  assert (ix_used (idx st) t = false) as Ft.
  { unfold ix_used, idx. cbn. rewrite !orb_false_iff in *. tauto. }
  eapply (wp_quiet _ (λ _ _, True)); [by apply quiet_ret|done|]. intros _ st1 E1 _.
  eapply wp_quiet; [apply quiet_new_preview|by rewrite E1|]. rewrite E1. intros p st3 E3 [F2 _].
  eapply wp_quiet; [apply quiet_new_control|by rewrite E3|]. rewrite E3. intros c st4 E4 [F3 _].
  eapply wp_quiet; [apply quiet_new_app|by rewrite E4|]. rewrite E4. intros app st5 E5 _.
  eapply (wp_quiet _ (λ _ _, True)); [by apply quiet_lift|by rewrite E5|]. rewrite E5. intros x st6 E6 _.
  eapply wp_quiet; [apply quiet_validate|by rewrite E6|]. rewrite E6. intros r st7 E7 [w V].
  apply validate_identity in V as (Et & Ep & Ec & _ & ND). cbn in Et, Ep, Ec, ND.
  apply wp_register.
  assert (inv (idx (registered t r st7))) as I'.
  { apply (added_inv (idx st) r); [done|]. unfold added. rewrite registered_idx, E7, Et, Ep, Ec. done. }
  by eapply wp_quiet_last; [apply quiet_save|..].
Qed.

Lemma quiet_layouts prefixes : quiet (fs := fs) (ensure_layouts root prefixes) (λ _ _, True).
Proof.
  induction prefixes as [|p l IH]; [by apply quiet_ret|].
  eapply quiet_bind; [apply quiet_on_disk|]. intros ? _. eapply quiet_weaken; [exact IH|done].
Qed.

Lemma wp_inv_bind {A B} (m : M A) (k : A → M B) (st : state fs) :
  wp m (λ _, inv) inv st → (∀ a st', inv (idx st') → wp (k a) (λ _, inv) inv st') →
  wp (M_bind A B k m) (λ _, inv) inv st.
Proof. unfold wp, M_bind. intros Hm Hk. destruct (m st) as [[a|e] st']; [by apply Hk|done]. Qed.

Lemma init_spec now t (st : state fs) :
  inv (idx st) → wp (init root persistent idna_other repr now t) (λ _, inv) inv st.
Proof.
  intros I. unfold init. apply wp_gets. apply wp_inv_bind.
  { unfold id. destruct (file st) as [data|]; [|exact I].
    assert (∀ b : bool, wp (if b then _load root persistent idna_other repr now data else M_ret unit tt)
                          (λ _, inv) inv st) as L by (intros []; [by apply load_spec|exact I]).
    apply L. }
  intros _ st1 I1. apply wp_inv_bind; [by apply bootstrap_spec|]. intros _ st2 I2. apply wp_gets.
  by eapply wp_quiet_last; [apply quiet_layouts|..].
Qed.
End rotations.

(** ** Reachable registries *)

Inductive op : Type :=
| Create (now later : Z) (prefix : string) (args : list change)
| RotateRead (t : string)
| RotateControl (t : string)
| RotatePreview (t : string)
| Renew (now : Z) (t : string) (days : Z)
| RenewIfDue (now : Z) (t : string)
| RenewForApp (clock now : Z) (app workspace : string)
| Update (t : string) (changes : list change)
| Delete (t : string)
| ConsumeNonce (identity nonce : string) (now ttl : Z).

Section reachable.
Context {fs : Type} `{Workspaces fs}.
Context (root : path) (persistent : bool) (idna_other : string → option string)
  (repr : json → string).

Definition ignore {A} (m : @M fs A) : state fs → state fs := λ st, (m st).2.

Definition exec (o : op) : state fs → state fs :=
  match o with
  | Create now later prefix args => ignore (create root persistent idna_other now later prefix args)
  | RotateRead t => ignore (rotate_read_token root persistent idna_other t)
  | RotateControl t => ignore (rotate_control_token root persistent idna_other t)
  | RotatePreview t => ignore (rotate_preview_token root persistent idna_other t)
  | Renew now t days => ignore (renew_credentials root persistent idna_other now t days)
  | RenewIfDue now t => ignore (renew_credentials_if_due root persistent idna_other now t)
  | RenewForApp clock now app workspace =>
      ignore (renew_credentials_for_app_if_due root persistent idna_other clock now app workspace)
  | Update t changes => ignore (update root persistent idna_other t changes)
  | Delete t => ignore (delete_token root persistent t)
  | ConsumeNonce identity nonce now ttl => ignore (consume_signed_nonce identity nonce now ttl)
  end.

(** A process starts with empty indexes and loads the file; then requests run one
    after the other, each returning or raising, while the file system, the random
    source and the outcome of coming writes change freely. *)
Inductive reachable : state fs → Prop :=
| reach_start now bootstrap_token data w ds io :
    reachable (ignore (init root persistent idna_other repr now bootstrap_token)
                 (State [] [] [] [] data w ds io))
| reach_op o st : reachable st → reachable (exec o st)
| reach_world st w ds io :
    reachable st →
    reachable (State st.(records) st.(preview_records) st.(control_records) st.(signed_nonces)
                 st.(file) w ds io).

Lemma wp_ignore {A} (m : @M fs A) (Q : A → indexes → Prop) (E I : indexes → Prop) st :
  wp m Q E st → (∀ a ix, Q a ix → I ix) → (∀ ix, E ix → I ix) → I (idx (ignore m st)).
Proof. unfold wp, ignore. intros W HQ HE. destruct (m st) as [[a|e] st']; cbn; eauto. Qed.

Lemma credential_expiry_parse now days text :
  credential_expiry now days = Ok text → parse_datetime (JStr text) = Ok (Some (now + days * day_us)).
Proof. unfold credential_expiry. destruct (negb _); [done|]. intros E. by apply in_days_parse in E as [_ ?]. Qed.

Lemma renew_for_app_spec clock now app workspace st :
  inv (idx st) →
  wp (renew_credentials_for_app_if_due root persistent idna_other clock now app workspace)
    (λ _, settled (idx st)) (settled (idx st)) st.
Proof.
  intros I. pose proof (settled_refl _ I) as U. unfold renew_credentials_for_app_if_due.
  eapply (wp_quiet _ (λ _ _, True)); [|done|].
  { unfold get_by_app_id. eapply quiet_bind; [by apply (quiet_gets records (λ _ _, True))|].
    intros rs _. by apply quiet_lift. }
  intros [cur|] st1 E1 _; [|unfold wp, fail; by rewrite E1].
  eapply (wp_quiet _ (λ _ _, True)); [by apply quiet_lift|by rewrite E1|]. rewrite E1. intros ok st2 E2 _.
  destruct (negb ok || _); [unfold wp, fail; by rewrite E2|].
  eapply wp_weaken; [apply renew_if_due_spec; by rewrite E2| |]; rewrite E2.
  - intros r ix [R _]. eauto using replaced_settled, renewal_replaced.
  - intros ix N. by eapply unchanged_settled.
Qed.

Lemma exec_settled o st : inv (idx st) → settled (idx st) (idx (exec o st)).
Proof.
  intros I. destruct o; cbn [exec].
  - eapply wp_ignore; [by apply token_create_spec|eauto using added_settled|done].
  - eapply wp_ignore; [by apply rotate_read_spec|eauto using replaced_settled|eauto using unchanged_settled].
  - eapply wp_ignore; [by apply rotate_control_spec|eauto using replaced_settled|eauto using unchanged_settled].
  - eapply wp_ignore; [by apply rotate_preview_spec|eauto using replaced_settled|done].
  - destruct (credential_expiry now days) as [text|e] eqn:X.
    + eapply wp_ignore; [eapply renew_spec; eauto using credential_expiry_parse|
        eauto using replaced_settled, renewal_replaced|eauto using unchanged_settled].
    + unfold ignore, renew_credentials, mbind, M_bind. rewrite X. by apply settled_refl.
  - eapply wp_ignore; [by apply renew_if_due_spec| |eauto using unchanged_settled].
    intros r ix [R _]. eauto using replaced_settled, renewal_replaced.
  - eapply wp_ignore; [by apply renew_for_app_spec|done|done].
  - eapply wp_ignore; [by apply update_spec|eauto using replaced_settled|done].
  - eapply wp_ignore; [by apply delete_spec|naive_solver|done].
  - by apply settled_refl.
Qed.

Lemma token_reachable_inv st : reachable st → inv (idx st).
Proof.
  induction 1 as [now t data w ds io|o st _ IH|st w ds io _ IH]; [|by apply exec_settled|exact IH].
  eapply wp_ignore; [apply init_spec; exact inv_empty|done|done].
Qed.
End reachable.

(** ** Looking up credentials *)

Lemma scan_found supplied found d r :
  scan supplied found d = Ok (Some r) → found = Some r ∨ (supplied, r) ∈ d.
Proof.
  revert found. induction d as [|[t x] d IH]; intros found; simpl; [intros [= ->]; by left|].
  unfold compare_digest. destruct (is_ascii supplied && is_ascii t); [|done].
  destruct (String.eqb_spec supplied t) as [->|]; intros [E|E]%IH; [|by right; right|by left|by right; right].
  injection E as <-. right. left.
Qed.

Lemma scan_dget supplied d r : dwf d → scan supplied None d = Ok (Some r) → dget supplied d = Some r.
Proof. intros W [?|E]%scan_found; [done|]. by apply dget_elem. Qed.

Lemma authenticate_dget {fs} clock supplied (st : state fs) r :
  dwf st.(records) → authenticate clock supplied st = Ok (Some r) →
  dget supplied st.(records) = Some r ∧ credentials_valid r clock = Ok true.
Proof.
  intros W. unfold authenticate. destruct (scan supplied None (records st)) as [[x|]|] eqn:S; try done.
  apply scan_dget in S; [|done]. simpl. destruct (credentials_valid x clock) as [[]|] eqn:V; try done.
  by intros [= <-].
Qed.

Lemma authenticate_control_dget {fs} clock supplied (st : state fs) r :
  dwf st.(control_records) → authenticate_control clock supplied st = Ok (Some r) →
  dget supplied st.(control_records) = Some r ∧ credentials_valid r clock = Ok true.
Proof.
  intros W. unfold authenticate_control.
  destruct (scan supplied None (control_records st)) as [[x|]|] eqn:S; try done.
  apply scan_dget in S; [|done]. simpl. destruct (credentials_valid x clock) as [[]|] eqn:V; try done.
  by intros [= <-].
Qed.

(** What the indexes answer after a renewal. *)
Lemma renewal_lookups ix0 t e r ix :
  inv ix0 → renewal ix0 t e r ix →
  ∃ cur, dget t ix0.(ix_records) = Some cur ∧ r.(credentials_expires_at) = e ∧ ix_wf ix ∧
    dget r.(token) ix.(ix_records) = Some r ∧ dget r.(control_token) ix.(ix_controls) = Some r ∧
    dget cur.(preview_token) ix.(ix_previews) = Some r ∧
    dget t ix.(ix_records) = None ∧ dget cur.(control_token) ix.(ix_controls) = None.
Proof.
  intros I (cur & G & Fr & Eq & W & U1 & U2 & (Ep & _ & _ & Ee)). exists cur.
  pose proof (inv_token _ _ _ I G) as Ht. destruct (I) as [(W1 & W2 & W3) C].
  pose proof G as G'. rewrite <- dmap_lookup in G'. destruct (of_read _ _ _ C _ _ G') as (_ & _ & Gc).
  apply unused_free in U1 as (U1 & _ & _), U2 as (_ & _ & U2).
  injection Eq as E1 E2 E3. rewrite dmap_set, dmap_pop in E1, E2, E3 by done.
  split_and!; [done|done|done|..]; rewrite <- dmap_lookup, ?E1, ?E2, ?E3.
  - apply lookup_insert_eq.
  - apply lookup_insert_eq.
  - rewrite Ep. apply lookup_insert_eq.
  - rewrite Ht, lookup_insert_ne, lookup_delete_eq; congruence.
  - rewrite lookup_insert_ne, lookup_delete_eq; congruence.
Qed.

(** ** Nonces *)

(** Operations that leave the nonces alone. *)
Definition keeps {fs A} (m : @M fs A) : Prop := ∀ st, signed_nonces (m st).2 = signed_nonces st.

Section keeps.
Context {fs : Type}.

Lemma keeps_bind {A B} (m : @M fs A) (k : A → @M fs B) :
  keeps m → (∀ a, keeps (k a)) → keeps (M_bind A B k m).
Proof.
  intros Hm Hk st. specialize (Hm st). unfold M_bind. destruct (m st) as [[a|e] st']; [|done].
  cbn in Hm. by rewrite (Hk a st').
Qed.

Lemma keeps_ret {A} (a : A) : keeps (fs := fs) (M_ret A a).
Proof. done. Qed.
Lemma keeps_fail {A} e : keeps (fs := fs) (fail (A := A) e).
Proof. done. Qed.
Lemma keeps_gets {A} (f : state fs → A) : keeps (gets f).
Proof. done. Qed.
Lemma keeps_lift {A} (r : res exn A) : keeps (fs := fs) (lift r).
Proof. by destruct r. Qed.
Lemma keeps_raise b e : keeps (fs := fs) (raise_when b e).
Proof. by destruct b. Qed.
Lemma keeps_records f : keeps (fs := fs) (set_records f).
Proof. done. Qed.
Lemma keeps_previews f : keeps (fs := fs) (set_previews f).
Proof. done. Qed.
Lemma keeps_controls f : keeps (fs := fs) (set_controls f).
Proof. done. Qed.
Lemma keeps_disk w : keeps (fs := fs) (set_disk w).
Proof. done. Qed.
Lemma keeps_on_error {A} (m : @M fs A) h : keeps m → keeps h → keeps (on_error m h).
Proof.
  intros Hm Hh st. specialize (Hm st). unfold on_error. destruct (m st) as [[a|e] st']; [done|].
  specialize (Hh st'). destruct e; destruct (h st') as [[u|e'] st'']; cbn in *; congruence.
Qed.
Lemma keeps_save persistent : keeps (fs := fs) (_save_locked persistent).
Proof. intros st. unfold _save_locked. destruct (negb persistent); [done|]. by destruct (head _) as [[]|]. Qed.
Lemma keeps_draw draw ok : keeps (fs := fs) (draw_free draw ok).
Proof. intros st. unfold draw_free, mbind, M_bind, gets. by destruct (draw_loop _ _ _ _) as [[]|]. Qed.
End keeps.

Create HintDb keeps.
#[export] Hint Resolve keeps_ret keeps_fail keeps_gets keeps_lift keeps_raise keeps_records keeps_previews
  keeps_controls keeps_disk keeps_save keeps_draw : keeps.

(** Goes through the statements of an operation. *)
Ltac keeps_all :=
  repeat (intros; cbv beta zeta; first
    [ solve [auto with keeps]
    | apply keeps_ret
    | apply keeps_bind
    | apply keeps_on_error
    | match goal with |- keeps (match ?x with _ => _ end) => destruct x end
    | match goal with |- keeps (let '_ := ?x in _) => destruct x end ]).

Section nonces.
Context {fs : Type} `{Workspaces fs}.
Context (root : path) (persistent : bool) (idna_other : string → option string)
  (repr : json → string).

Lemma keeps_get t : keeps (fs := fs) (get t).
Proof. unfold get. keeps_all. Qed.
Lemma keeps_validate r : keeps (fs := fs) (validate root idna_other r).
Proof. unfold validate. keeps_all. Qed.
Lemma keeps_new_token ex : keeps (fs := fs) (_new_token_locked ex).
Proof. unfold _new_token_locked. keeps_all. Qed.
Lemma keeps_new_preview ex : keeps (fs := fs) (_new_preview_token_locked ex).
Proof. unfold _new_preview_token_locked. keeps_all. Qed.
Lemma keeps_new_control ex : keeps (fs := fs) (_new_control_token_locked ex).
Proof. unfold _new_control_token_locked. keeps_all. Qed.
Lemma keeps_new_app : keeps (fs := fs) _new_app_id_locked.
Proof. unfold _new_app_id_locked. keeps_all. Qed.
Lemma keeps_register key r : keeps (fs := fs) (register key r).
Proof. unfold register. keeps_all. Qed.
Lemma keeps_on_disk f : keeps (fs := fs) (on_disk f).
Proof. unfold on_disk. keeps_all. Qed.
Lemma keeps_remove n : keeps (fs := fs) (_remove_new_workspace root n).
Proof. unfold _remove_new_workspace. keeps_all. Qed.
#[local] Hint Resolve keeps_get keeps_validate keeps_new_token keeps_new_preview keeps_new_control
  keeps_new_app keeps_register keeps_on_disk keeps_remove : keeps.

Lemma keeps_prepare value : keeps (fs := fs) (_prepare_child_workspace root value).
Proof. unfold _prepare_child_workspace. keeps_all. Qed.
Lemma keeps_renew_both cur e r c : keeps (fs := fs) (renew_both root persistent idna_other cur e r c).
Proof. unfold renew_both. keeps_all. Qed.
#[local] Hint Resolve keeps_prepare keeps_renew_both : keeps.

Lemma keeps_if_due now t : keeps (fs := fs) (renew_credentials_if_due root persistent idna_other now t).
Proof. unfold renew_credentials_if_due. keeps_all. Qed.
#[local] Hint Resolve keeps_if_due : keeps.

(** Every other request leaves the nonces alone. *)
Lemma exec_keeps o (st : state fs) :
  (∀ identity nonce now ttl, o ≠ ConsumeNonce identity nonce now ttl) →
  signed_nonces (exec root persistent idna_other o st) = signed_nonces st.
Proof.
  intros N. destruct o; cbn [exec]; unfold ignore; [| | | | | | | | |by edestruct N].
  all: match goal with |- signed_nonces (?m ?s).2 = _ => enough (keeps m) as K by apply K end.
  - unfold create. keeps_all.
  - unfold rotate_read_token. keeps_all.
  - unfold rotate_control_token. keeps_all.
  - unfold rotate_preview_token. keeps_all.
  - unfold renew_credentials. keeps_all.
  - unfold renew_credentials_if_due. keeps_all.
  - unfold renew_credentials_for_app_if_due, get_by_app_id. keeps_all.
  - unfold update. keeps_all.
  - unfold delete_token. keeps_all.
Qed.

(** The times at which requests consume nonces. *)
Definition consumed_by (later : Z) (o : op) : Prop :=
  match o with ConsumeNonce _ _ now _ => now ≤ later | _ => True end.

Lemma consume_keeps_live identity nonce now ttl (st : state fs) e :
  e ∈ signed_nonces st → now < e.2 →
  e ∈ signed_nonces (consume_signed_nonce identity nonce now ttl st).2.
Proof.
  intros He Hn. unfold consume_signed_nonce. cbn [snd signed_nonces].
  assert (e ∈ filter (λ e, now < e.2) (signed_nonces st)) by (by apply list_elem_of_filter).
  destruct (existsb _ _); [done|]. apply elem_of_app. by left.
Qed.

Lemma exec_keeps_live later o (st : state fs) e :
  consumed_by later o → later < e.2 → e ∈ signed_nonces st →
  e ∈ signed_nonces (exec root persistent idna_other o st).
Proof.
  intros Hb Hl He. destruct o; try (rewrite exec_keeps; [done|congruence]).
  apply consume_keeps_live; [done|]. cbn in Hb. lia.
Qed.

Lemma run_keeps_live later os (st : state fs) e :
  Forall (consumed_by later) os → later < e.2 → e ∈ signed_nonces st →
  e ∈ signed_nonces (foldl (λ st o, exec root persistent idna_other o st) st os).
Proof.
  intros F. revert st. induction F as [|o os Ho _ IH]; intros st Hl He; [done|].
  apply IH; [done|]. by eapply exec_keeps_live.
Qed.

Lemma consume_seen identity nonce now ttl (st : state fs) :
  (∃ until, (identity, nonce, until) ∈ signed_nonces st ∧ now < until) ↔
  (consume_signed_nonce identity nonce now ttl st).1 = Ok false.
Proof.
  unfold consume_signed_nonce. cbn [fst]. set (seen := existsb _ _).
  assert (seen = true ↔ ∃ until, (identity, nonce, until) ∈ signed_nonces st ∧ now < until) as S.
  { unfold seen. rewrite existsb_exists. split.
    - intros ([[i n] u] & Hin & B). apply list_elem_of_In, list_elem_of_filter in Hin as [Hu Hin].
      apply andb_true_iff in B as [B1%String.eqb_eq B2%String.eqb_eq]. cbn in *. subst. eauto.
    - intros (u & Hin & Hu). exists (identity, nonce, u). split.
      + by apply list_elem_of_In, list_elem_of_filter.
      + cbn. by rewrite !String.eqb_refl. }
  rewrite <- S. clear. destruct seen; simpl; split; intros; congruence.
Qed.

Lemma consume_recorded identity nonce now ttl (st st' : state fs) :
  consume_signed_nonce identity nonce now ttl st = (Ok true, st') →
  (identity, nonce, now + ttl) ∈ signed_nonces st'.
Proof.
  unfold consume_signed_nonce. destruct (existsb _ _); [done|]. intros [= <-]. cbn.
  apply elem_of_app. right. left.
Qed.
End nonces.

(** ** Properties *)

Section claims.
Context {fs : Type} `{Workspaces fs}.
Context (root : path) (persistent : bool) (idna_other : string → option string)
  (repr : json → string).

(** C6: the three indexes refine one set of records.  In every reachable registry
    the preview and control indexes answer exactly the registered records under
    their own credentials, no text is a credential of two kinds, and each request,
    whether it returns or raises, is one step of the abstract registry: it adds a
    record with unused credentials, replaces one, removes one, or changes nothing. *)
Theorem token_store_refines (st : state fs) (o : op) :
  reachable root persistent idna_other repr st →
  vault_step (dmap st.(records)) (dmap (exec root persistent idna_other o st).(records)) ∧
  (∀ k r, dget k st.(records) = Some r → r.(token) = k ∧
     dmem k st.(preview_records) = false ∧ dmem k st.(control_records) = false) ∧
  (∀ k r, dget k st.(preview_records) = Some r ↔
     dget r.(token) st.(records) = Some r ∧ r.(preview_token) = k) ∧
  (∀ k r, dget k st.(control_records) = Some r ↔
     dget r.(token) st.(records) = Some r ∧ r.(control_token) = k).
Proof.
  intros I%token_reachable_inv. split; [by apply exec_settled|]. destruct I as [_ C].
  unfold idx in C. cbn in C. setoid_rewrite <- dmap_lookup. split_and!.
  - intros k r E. rewrite !dmem_false. destruct (of_read _ _ _ C _ _ E) as (? & _).
    split_and!; [done|by eapply map_disjoint_Some_l; [apply C|]|].
    by eapply map_disjoint_Some_l; [apply (read_control _ _ _ C)|].
  - intros k r. split; [intros E; by destruct (of_preview _ _ _ C _ _ E)|].
    intros [E <-]. by apply (of_read _ _ _ C) in E as (_ & ? & _).
  - intros k r. split; [intros E; by destruct (of_control _ _ _ C _ _ E)|].
    intros [E <-]. by apply (of_read _ _ _ C) in E as (_ & _ & ?).
Qed.

(** C29: self-renewal.  It succeeds only with more than nothing and less than two
    days left, and then the new read and control tokens and the unchanged preview
    token lead to the renewed record, which is good for three days from the
    request, while neither old credential is accepted at any time; when it raises,
    a failed write of the data file included, every credential leads where it led. *)
Theorem token_renewal (st : state fs) now t :
  reachable root persistent idna_other repr st →
  match renew_credentials_if_due root persistent idna_other now t st with
  | (Ok r, st') => ∃ cur e, dget t st.(records) = Some cur ∧
      parse_datetime cur.(credentials_expires_at) = Ok (Some e) ∧ now < e < now + 2 * day_us ∧
      r.(credentials_expires_at) = JStr (iso_utc (now + 3 * day_us)) ∧
      dget r.(token) st'.(records) = Some r ∧
      dget r.(control_token) st'.(control_records) = Some r ∧
      dget cur.(preview_token) st'.(preview_records) = Some r ∧
      (∀ clock x, authenticate clock t st' ≠ Ok (Some x)) ∧
      (∀ clock x, authenticate_control clock cur.(control_token) st' ≠ Ok (Some x))
  | (Err _, st') => ∀ k, dget k st'.(records) = dget k st.(records) ∧
      dget k st'.(preview_records) = dget k st.(preview_records) ∧
      dget k st'.(control_records) = dget k st.(control_records)
  end.
Proof.
  intros I%token_reachable_inv. pose proof (renew_if_due_spec root persistent idna_other now t st I) as W.
  unfold wp in W. destruct (renew_credentials_if_due _ _ _ now t st) as [[r|e] st'].
  - destruct W as [R (cur & e & G & P & Hw)].
    destruct (renewal_lookups _ _ _ _ _ I R) as (cur' & G' & Ee & (W1 & _ & W3) & L1 & L2 & L3 & L4 & L5).
    rewrite G in G'. injection G' as <-. exists cur, e. unfold SELF_RENEWAL_WINDOW in Hw.
    split_and!; [exact G|exact P|apply Hw..|exact Ee|exact L1|exact L2|exact L3| |].
    + intros clock x A. apply authenticate_dget in A as [A _]; [|done]. cbn in L4. congruence.
    + intros clock x A. apply authenticate_control_dget in A as [A _]; [|done]. cbn in L5. congruence.
  - destruct W as [Eq _]. injection Eq as E1 E2 E3. intros k. by rewrite <- !dmap_lookup, E1, E2, E3.
Qed.

(** A nonce that was accepted is refused as long as it is valid, whatever
    requests run in between, as long as the clock does not pass its expiry. *)
Theorem token_nonce_replay (st st' : state fs) identity nonce now ttl later ttl' os :
  consume_signed_nonce identity nonce now ttl st = (Ok true, st') →
  Forall (consumed_by later) os → later < now + ttl →
  (consume_signed_nonce identity nonce later ttl'
     (foldl (λ st o, exec root persistent idna_other o st) st' os)).1 = Ok false.
Proof.
  intros E%consume_recorded F Hl. apply (proj1 (consume_seen _ _ _ ttl' _)). exists (now + ttl). split; [|done].
  by eapply (run_keeps_live root persistent idna_other later os st' (identity, nonce, now + ttl)).
Qed.
End claims.

(** ** Concrete runs *)

Definition no_idna : string → option string := λ _, None.
Definition no_repr : json → string := λ _, ""%string.

(** A registry that bootstrapped on 2024-01-01. *)
Definition demo_now : Z := 63839664000000000.
Definition demo_store : state Tree.tree :=
  ignore (init demo_root true no_idna no_repr demo_now "boot-token")
    (State [] [] [] [] None demo_tree
       ["AbcdefghijklmnoP"; "control-one"; "0123456789abcdef"; "-rejected"; "read-two"; "control-two"]%string []).

Example demo_boots :
  (keys demo_store.(records), keys demo_store.(preview_records), keys demo_store.(control_records))
  = (["boot-token"], ["AbcdefghijklmnoP"], ["ks-control-one"])%string.
Proof. vm_compute. reflexivity. Qed.

Lemma token_demo_reachable : reachable demo_root true no_idna no_repr demo_store.
Proof. apply reach_start. Qed.

Lemma token_store_refines_witness :
  vault_step (dmap demo_store.(records))
    (dmap (exec demo_root true no_idna (RenewIfDue (demo_now + 2 * day_us) "boot-token") demo_store).(records)).
Proof.
  exact (proj1 (token_store_refines demo_root true no_idna no_repr demo_store
                  (RenewIfDue (demo_now + 2 * day_us) "boot-token") token_demo_reachable)).
Defined.

Definition demo_renewal : res stop TokenRecord * state Tree.tree :=
  renew_credentials_if_due demo_root true no_idna (demo_now + 2 * day_us) "boot-token" demo_store.

Example demo_renews :
  match demo_renewal with
  | (Ok r, st') => (r.(token), r.(control_token), keys st'.(records)) = ("read-two", "ks-control-two", ["read-two"])%string
  | _ => False
  end.
Proof. vm_compute. reflexivity. Qed.

Lemma token_renewal_witness :
  match demo_renewal with (Ok _, _) => true | (Err _, _) => false end = true ∧
  match renew_credentials_if_due demo_root true no_idna (demo_now + 2 * day_us) "boot-token" demo_store with
  | (Ok r, st') => ∃ cur e, dget "boot-token" demo_store.(records) = Some cur ∧
      parse_datetime cur.(credentials_expires_at) = Ok (Some e) ∧
      demo_now + 2 * day_us < e < demo_now + 2 * day_us + 2 * day_us ∧
      r.(credentials_expires_at) = JStr (iso_utc (demo_now + 2 * day_us + 3 * day_us)) ∧
      dget r.(token) st'.(records) = Some r ∧
      dget r.(control_token) st'.(control_records) = Some r ∧
      dget cur.(preview_token) st'.(preview_records) = Some r ∧
      (∀ clock x, authenticate clock "boot-token" st' ≠ Ok (Some x)) ∧
      (∀ clock x, authenticate_control clock cur.(control_token) st' ≠ Ok (Some x))
  | (Err _, st') => ∀ k, dget k st'.(records) = dget k demo_store.(records) ∧
      dget k st'.(preview_records) = dget k demo_store.(preview_records) ∧
      dget k st'.(control_records) = dget k demo_store.(control_records)
  end.
Proof.
  split; [vm_compute; reflexivity|].
  exact (token_renewal demo_root true no_idna no_repr demo_store (demo_now + 2 * day_us) "boot-token"
           token_demo_reachable).
Defined.

(** When the data file cannot be written, [rotate_preview_token] raises but keeps
    its change in memory: the old preview token stops working although the file
    still holds it, and it works again after a restart. *)
Theorem token_failed_save_diverges :
  let st := State demo_store.(records) demo_store.(preview_records) demo_store.(control_records) []
              demo_store.(file) demo_store.(disk) ["QrstuvwxyzABCDEF"%string] [true] in
  let '(r, st') := rotate_preview_token demo_root true no_idna "boot-token" st in
  let restarted := ignore (init demo_root true no_idna no_repr demo_now "")
                     (State [] [] [] [] st'.(file) st'.(disk) [] []) in
  r = Err OSError ∧
  authenticate_preview demo_now "AbcdefghijklmnoP" st' = Ok None ∧
  match authenticate_preview demo_now "AbcdefghijklmnoP" restarted with
  | Ok (Some r') => r'.(token) = "boot-token"%string
  | _ => False
  end.
Proof. vm_compute. done. Qed.
