(* ===== verification/Dispatcher.v ===== *)
(** * Dispatcher: the scheduler thread and the execution of its claims

    Models class [SchedulerManager] of src/openkapsel/execution/scheduler.py over
    the stores of Scheduler and the records of Tokens.  The heap holds one entry per
    store; the dispatcher fires the earliest one, claims it and starts its task.
    Every call of a store method is atomic (the store's lock and transaction);
    what other threads do to the same store between the calls of [_execute] is an
    argument. *)

From Stdlib Require Import ZArith QArith Lia Ascii String.
From stdpp Require Import base tactics list sorting gmap strings pretty fin_maps.
From S2P Require Import Prelude Calendar Cron Timing Tokens Scheduler SchedulerTheorems.

Local Open Scope Z_scope.

(** ** Executing a claim *)

(** [server.context_for(scope).add(...)]: an entry, a ValueError, another error. *)
Inductive context_result := Added (id : Z) | Rejected (msg : string) | ContextError.
(** [server.local_client.start_shell(...)]: a task, an ApiError, another error. *)
Inductive shell_result := Started (task : string) | ShellApi (code msg : string) | ShellError (name msg : string).

(** What [_execute] finds around it: the token record of the app, the outcomes of
    the two services, the clock at each store call, and what other threads did to
    the store before it. *)
Record env := {
  e_record : option TokenRecord;
  e_context : context_result;
  e_shell : shell_result;
  e_clock : nat → Z;
  e_others : nat → store → store }.

(** A watcher thread of [_watch_task]. *)
Record watch := Watch { w_run : string; w_task : string; w_context : Z }.

Definition CAPACITY_ERRORS : list string :=
  ["shell_task_token_limit_reached"; "shell_task_global_limit_reached"; "sandbox_process_limit_reached"]%string.

(** The [n]-th store call: its lock is free once the others are done. *)
Definition locked {A : Type} (e : env) (n : nat) (op : Z → store → res exn (A * store)) (st : store)
    : res exn A * store :=
  let st' := e.(e_others) n st in
  match op (e.(e_clock) n) st' with Ok (a, st'') => (Ok a, st'') | Err x => (Err x, st') end.

Definition finish (e : env) (n : nat) (rid : string) (s : run_status) (err : string) (st : store)
    : res exn ScheduleRunRecord * store :=
  locked e n (finish_run rid s None (Some err)) st.

(** The run ends here; the caller sees no watcher. *)
Definition finished (r : res exn ScheduleRunRecord * store) : res exn (option watch) * store :=
  (match r.1 with Ok _ => Ok None | Err x => Err x end, r.2).

Definition permitted (e : env) : res exn bool :=
  match e.(e_record) with
  | None => Ok false
  | Some r =>
      let! v := valid r (e.(e_clock) 0) in
      Ok (v && r.(can_schedule) && negb (String.eqb r.(shell_mode) "none"))
  end.

(** The error recorded when [bind_task] fails; it raises only [ScheduleError]. *)
Definition unbound_text (x : exn) : string :=
  ("schedule run could not be bound to task: " +:+ match x with ScheduleError msg => msg | _ => "" end)%string.

(** The closing of the context entry ([_finish_context], which swallows its
    exceptions) and the killing of an unbound task act on those services only; a
    failing kill is not modelled. *)
Definition _execute (e : env) (c : ScheduleClaim) (st : store) : res exn (option watch) * store :=
  let rid := c.(c_run).(run_id) in
  match permitted e with
  | Err x => (Err x, st)
  | Ok false =>
      match finish e 0 rid skipped_permission
              "schedule permission, Shell permission, or workspace validity was revoked" st with
      | (Err x, st1) => (Err x, st1)
      | (Ok _, st1) =>
          match e.(e_record) with
          | None => (Ok None, st1)
          | Some r => (Ok None, (pause_app r.(Tokens.app_id) (e.(e_clock) 1) (e.(e_others) 1 st1)).2)
          end
      end
  | Ok true =>
      match e.(e_context) with
      | Rejected msg => finished (finish e 0 rid failed msg st)
      | ContextError => finished (finish e 0 rid failed "Context operation could not be created" st)
      | Added ctx =>
          match e.(e_shell) with
          | ShellApi code msg =>
              let s := if bool_decide (code ∈ CAPACITY_ERRORS) then skipped_capacity else failed in
              finished (finish e 0 rid s msg st)
          | ShellError name msg => finished (finish e 0 rid failed (name +:+ ": " +:+ msg)%string st)
          | Started task =>
              match locked e 0 (bind_task rid task) st with
              | (Ok _, st1) => (Ok (Some (Watch rid task ctx)), st1)
              | (Err x, st1) => (Ok None, (finish e 1 rid failed (unbound_text x) st1).2)
              end
          end
      end
  end.

(** [_watch_task], when the task has ended; its [changed] is a step of its own
    ([m_announce]). *)
Definition _watch_task (e : env) (w : watch) (exit_code : option Z) (task_error : option string) (st : store)
    : res exn ScheduleRunRecord * store :=
  let succeeded_ := bool_decide (exit_code = Some 0) && bool_decide (task_error = None) in
  let error := match task_error with
               | Some m => Some m
               | None => if succeeded_ then None else Some ("command exited with status " +:+
                           match exit_code with Some c => pretty c | None => "None" end)%string
               end in
  locked e 0 (finish_run w.(w_run) (if succeeded_ then succeeded else failed) exit_code error) st.

(** ** The manager *)

Definition entry : Type := Z * string * string.

Record manager := Manager {
  stores : gmap string store; heap : list entry; dirty : bool; closing : bool }.

Definition put_store (scope : string) (st : store) (m : manager) : manager :=
  Manager (<[scope := st]> m.(stores)) m.(heap) m.(dirty) m.(closing).
Definition changed (m : manager) : manager := Manager m.(stores) m.(heap) true m.(closing).
Definition close (m : manager) : manager := Manager m.(stores) m.(heap) m.(dirty) true.

(** [store_for] of a resolved scope: a new one opens its database [db] and abandons its live runs. *)
Definition store_for (scope : string) (db : store) (now : Z) (m : manager) : store * manager :=
  match m.(stores) !! scope with
  | Some st => (st, m)
  | None => let st := (abandon_running now db).2 in (st, changed (put_store scope st m))
  end.

Definition manager_delete_app (scope : string) (db : store) (app : string) (now : Z) (m : manager)
    : nat * manager :=
  let (st, m1) := store_for scope db now m in
  let (n, st') := delete_app app st in (n, changed (put_store scope st' m1)).
Definition manager_pause_app (scope : string) (db : store) (app : string) (now : Z) (m : manager)
    : nat * manager :=
  let (st, m1) := store_for scope db now m in
  let (n, st') := pause_app app now st in (n, changed (put_store scope st' m1)).

(** One entry per store that has a next run.  Stored times are instants here, so
    the branch that skips an unreadable [next_run_at] has no counterpart. *)
Definition entries (s : gmap string store) : list entry :=
  omap (λ e, '(t, sid) ← next_due e.2; Some (t, sid, e.1)) (map_to_list s).

Definition _rebuild_heap_locked (m : manager) : manager :=
  Manager m.(stores) (entries m.(stores)) false m.(closing).

(** Tuples compare by due time, then by schedule and scope. *)
Definition entry_le (a b : entry) : bool :=
  match Z.compare a.1.1 b.1.1 with
  | Lt => true
  | Gt => false
  | Eq => match String.compare a.1.2 b.1.2 with
          | Lt => true
          | Gt => false
          | Eq => match String.compare a.2 b.2 with Gt => false | _ => true end
          end
  end.

(** [heap[0]] *)
Fixpoint least (l : list entry) : option entry :=
  match l with
  | [] => None
  | a :: l' => match least l' with
               | None => Some a
               | Some b => Some (if entry_le a b then a else b)
               end
  end.

#[export] Instance entry_eq_dec : EqDecision entry.
Proof. unfold entry. solve_decision. Defined.

(** [heapq.heappop] *)
Fixpoint pop (a : entry) (l : list entry) : list entry :=
  match l with [] => [] | b :: l' => if decide (a = b) then l' else b :: pop a l' end.

Inductive wake := Stop | Wait | Sleep (delay : Z) | Fire (target : entry).

(** One round of the inner loop of [_run]. *)
Definition poll (now : Z) (m : manager) : wake * manager :=
  if m.(closing) then (Stop, m)
  else
    let m1 := if m.(dirty) then _rebuild_heap_locked m else m in
    match least m1.(heap) with
    | None => (Wait, m1)
    | Some target =>
        if now <? target.1.1 then (Sleep (target.1.1 - now), m1)
        else (Fire target, Manager m1.(stores) (pop target m1.(heap)) m1.(dirty) m1.(closing))
    end.

Section zones.
Context (zi : string → res exn zone).
(** [config.schedule_misfire_grace_seconds] *)
Context (grace : Z).

(** After a claim: execute it when it says so. *)
Definition execute_claim (e : env) (r : res exn (option ScheduleClaim)) (st : store)
    : res exn (option watch) * store :=
  match r with
  | Ok (Some c) => if c.(c_execute) then _execute e c st else (Ok None, st)
  | Ok None => (Ok None, st)
  | Err x => (Err x, st)
  end.

(** The rest of the loop body of [_run]: exceptions are logged. *)
Definition dispatch (now : Z) (rid : string) (e : env) (target : entry) (m : manager)
    : option watch * manager :=
  let '(_, sid, scope) := target in
  match m.(stores) !! scope with
  | None => (None, changed m)
  | Some st =>
      let (r, st1) := claim_due zi sid now grace false None rid st in
      let (o, st2) := execute_claim e r st1 in
      (match o with Ok w => w | Err _ => None end, changed (put_store scope st2 m))
  end.

(** [run_now]; [changed] is skipped when something raises. *)
Definition run_now (now : Z) (rid : string) (e : env) (scope : string) (db : store) (app sid : string)
    (m : manager) : res exn (ScheduleClaim * option watch) * manager :=
  let (st, m1) := store_for scope db now m in
  match claim_due zi sid now 300 true (Some app) rid st with
  | (Err x, st1) => (Err x, put_store scope st1 m1)
  | (Ok None, st1) => (Err AssertionError, put_store scope st1 m1)
  | (Ok (Some c), st1) =>
      match execute_claim e (Ok (Some c)) st1 with
      | (Err x, st2) => (Err x, put_store scope st2 m1)
      | (Ok w, st2) => (Ok (c, w), changed (put_store scope st2 m1))
      end
  end.

(** The dispatcher while the clock shows [now]: it fires as long as something is
    due; [inputs] are the run ids it draws and what it finds around it. *)
Fixpoint run_at (now : Z) (inputs : list (string * env)) (m : manager) : list watch * manager :=
  match inputs with
  | [] => ([], m)
  | (rid, e) :: inputs' =>
      match poll now m with
      | (Fire target, m1) =>
          let (w, m2) := dispatch now rid e target m1 in
          let (ws, m3) := run_at now inputs' m2 in
          (match w with Some w => w :: ws | None => ws end, m3)
      | (_, m1) => ([], m1)
      end
  end.

End zones.

(** ** A claimed run is finished or watched *)

(** Other threads leave the run alone, except that deleting its app deletes it. *)
Definition spares (rid : string) (f : store → store) : Prop :=
  ∀ st, (f st).(schedule_runs) !! rid = st.(schedule_runs) !! rid ∨ (f st).(schedule_runs) !! rid = None.

(** The run is stored under its id, or not at all. *)
Definition keyed (rid : string) (st : store) : Prop :=
  ∀ x, st.(schedule_runs) !! rid = Some x → x.(run_id) = rid.

(** The run is over or gone. *)
Definition at_rest (rid : string) (st : store) : Prop :=
  ∀ x, st.(schedule_runs) !! rid = Some x → live x.(rstatus) = false.

Lemma spares_keyed rid f st : spares rid f → keyed rid st → keyed rid (f st).
Proof. intros Hf Hk x. destruct (Hf st) as [-> | ->]; [apply Hk|done]. Qed.

Lemma spares_rest rid f st : spares rid f → at_rest rid st → at_rest rid (f st).
Proof. intros Hf Hk x. destruct (Hf st) as [-> | ->]; [apply Hk|done]. Qed.

Lemma finish_rests e n rid s code err st :
  live s = false → spares rid (e.(e_others) n) → keyed rid st →
  at_rest rid (locked e n (finish_run rid s code err) st).2.
Proof.
  intros Hs Ho Hk. pose proof (spares_keyed _ _ _ Ho Hk) as Hk'. unfold locked.
  destruct (finish_run _ _ _ _ _ _) as [[y st']|] eqn:E; cbn.
  - apply finish_run_Ok in E as (row & _ & Hrow & -> & ->). intros x Hx%prune_sub.
    simpl in Hx. rewrite (Hk' row Hrow), lookup_insert_eq in Hx. by injection Hx as <-.
  - intros x Hx. unfold finish_run in E. by rewrite Hs, Hx in E.
Qed.

(** What [_execute] leaves: a watched, running run, or one that is over. *)
Definition settled (rid : string) (r : res exn (option watch)) (st : store) : Prop :=
  match r with
  | Ok (Some w) => w.(w_run) = rid ∧ keyed rid st ∧
      ∃ x, st.(schedule_runs) !! rid = Some x ∧ x.(rstatus) = running ∧ x.(task_id) = Some w.(w_task)
  | _ => at_rest rid st
  end.

Lemma finished_settled e n rid s msg st :
  live s = false → spares rid (e.(e_others) n) → keyed rid st →
  settled rid (finished (finish e n rid s msg st)).1 (finished (finish e n rid s msg st)).2.
Proof.
  intros Hs Ho Hk. pose proof (finish_rests e n rid s None (Some msg) st Hs Ho Hk) as H.
  unfold finished, finish. by destruct (locked _ _ _ _) as [[y|x] st1].
Qed.

Lemma bind_settled e rid task ctx st :
  spares rid (e.(e_others) 0) → spares rid (e.(e_others) 1) → keyed rid st →
  let o := match locked e 0 (bind_task rid task) st with
           | (Ok _, st1) => (Ok (Some (Watch rid task ctx)), st1)
           | (Err x, st1) => (Ok None, (finish e 1 rid failed (unbound_text x) st1).2)
           end in settled rid o.1 o.2.
Proof.
  intros H0 H1 Hk. pose proof (spares_keyed _ _ _ H0 Hk) as Hk'. unfold locked.
  destruct (bind_task _ _ _ _) as [[y st']|] eqn:E; cbn.
  - unfold bind_task in E. destruct (schedule_runs _ !! rid) as [row|] eqn:Er; [|done].
    case_bool_decide; [|done]. injection E as <- <-. rewrite swap_put_run. specialize (Hk' row Er).
    split_and!; [done| |].
    + intros x. simpl. rewrite Hk', lookup_insert_eq. by intros [= <-].
    + eexists. split; [simpl; by rewrite Hk', lookup_insert_eq|done].
  - by apply (finish_rests e 1 rid failed).
Qed.

Lemma execute_settled e c st :
  let rid := c.(c_run).(run_id) in
  st.(schedule_runs) !! rid = Some c.(c_run) → (∀ n, spares rid (e.(e_others) n)) →
  (∀ x, permitted e ≠ Err x) →
  settled rid (_execute e c st).1 (_execute e c st).2.
Proof.
  intros rid Hc Ho Hp. assert (keyed rid st) as Hk by (intros x Hx; rewrite Hc in Hx; by injection Hx as <-).
  unfold _execute. fold rid. destruct (permitted e) as [[]|x]; [| |by destruct (Hp x)].
  - destruct (e_context e) as [ctx|msg|]; [|by apply finished_settled..].
    destruct (e_shell e) as [task|code msg|name msg]; [|by apply finished_settled; [case_bool_decide|..]|by apply finished_settled].
    by apply bind_settled.
  - pose proof (finish_rests e 0 rid skipped_permission None
      (Some "schedule permission, Shell permission, or workspace validity was revoked"%string) st eq_refl (Ho 0%nat) Hk) as H.
    unfold finish. destruct (locked _ _ _ _) as [[y|x] st1]; [|done].
    destruct (e_record e) as [rec|]; [|done]. cbn in *. by apply (spares_rest rid (e_others e 1)).
Qed.

Lemma claim_stored zi sid now grace force app rid st c st1 :
  claim_due zi sid now grace force app rid st = (Ok (Some c), st1) →
  c.(c_run).(run_id) = rid ∧ st1.(schedule_runs) !! rid = Some c.(c_run).
Proof.
  unfold claim_due. destruct (claim_txn _ _ _ _ _ _ _ _) as [[[[[r [run|]] x]|] st']|] eqn:E; try done.
  intros [= <- <-]. cbn. apply claim_txn_taken in E as (r0 & t & rst & err & next & _ & _ & _ & _ & _ & _ & -> & Hrun).
  split; [|done]. symmetry in Hrun. rewrite prune_put in Hrun. apply prune_sub in Hrun.
  simpl in Hrun. rewrite lookup_insert_eq in Hrun. by injection Hrun as <-.
Qed.

Lemma unexecuted_rests zi sid now grace force app rid st c st1 :
  claim_due zi sid now grace force app rid st = (Ok (Some c), st1) → c.(c_execute) = false → at_rest rid st1.
Proof.
  unfold claim_due. destruct (claim_txn _ _ _ _ _ _ _ _) as [[[[[r [run|]] x]|] st']|] eqn:E; try done.
  intros [= <- <-]. cbn. intros ->.
  apply claim_txn_taken in E as (r0 & t & rst & err & next & _ & _ & Ho & _ & _ & _ & -> & _).
  intros y Hy. rewrite prune_put in Hy. apply prune_sub in Hy. simpl in Hy.
  rewrite lookup_insert_eq in Hy. injection Hy as <-. simpl.
  by apply claim_outcome_cases in Ho as [(? & _)|(_ & [-> | ->])].
Qed.

(** C31: A claim never leaves its run hanging.  Whatever the token
    registry, the context store and the shell answer, and whatever other threads do
    to other runs of the store meanwhile, as long as the permission check itself does
    not raise (the registry keeps only expiries that parse; killing a task and starting
    a thread are taken to succeed), the run is over at once, or is bound to
    the started task with a watcher, and the watcher ends it when the task is over (a
    run of an app that was deleted is gone). *)
Theorem claimed_run_settles zi sid now grace force app rid st c st1 e :
  claim_due zi sid now grace force app rid st = (Ok (Some c), st1) →
  (∀ n, spares rid (e.(e_others) n)) → (∀ x, permitted e ≠ Err x) →
  match execute_claim e (Ok (Some c)) st1 with
  | (Ok (Some w), st2) =>
      w.(w_run) = rid ∧
      (∃ x, st2.(schedule_runs) !! rid = Some x ∧ x.(rstatus) = running ∧ x.(task_id) = Some w.(w_task)) ∧
      ∀ e' code err, spares rid (e'.(e_others) 0) → at_rest rid (_watch_task e' w code err st2).2
  | (_, st2) => at_rest rid st2
  end.
Proof.
  intros Hc Ho Hp. cbn. destruct (c_execute c) eqn:Ex; [|by eapply unexecuted_rests].
  apply claim_stored in Hc as [<- Hrun]. pose proof (execute_settled e c st1 Hrun Ho Hp) as H. destruct (_execute e c st1) as [[[w|]|x] st2]; [|done..].
  destruct H as (Hw & Hk & Hx). split_and!; [done..|]. intros e' code err He'. unfold _watch_task. rewrite Hw.
  apply finish_rests; [|done..]. by destruct (_ && _).
Qed.

(** ** Due schedules and the heap *)

Definition is_due (now : Z) (r : ScheduleRecord) : Prop :=
  r.(sched_status) = active ∧ ∃ t, r.(next_run_at) = Some t ∧ t ≤ now.

(** The scan of [next_due] keeps the earliest next run of an active schedule. *)
Lemma foldl_earlier l best :
  match foldl earlier best l with
  | Some (t, sid) =>
      (best = Some (t, sid) ∨ ∃ r, r ∈ l ∧ r.(schedule_id) = sid ∧ r.(sched_status) = active ∧ r.(next_run_at) = Some t) ∧
      (∀ t' sid', best = Some (t', sid') → t ≤ t') ∧
      ∀ r t', r ∈ l → r.(sched_status) = active → r.(next_run_at) = Some t' → t ≤ t'
  | None => best = None ∧ ∀ r, r ∈ l → r.(sched_status) = active → r.(next_run_at) = None
  end.
Proof.
  revert best. induction l as [|r l IH]; intros best; cbn [foldl].
  { destruct best as [[t sid]|]; [|set_solver]. split_and!; [by left|intros; simplify_eq; lia|set_solver]. }
  assert (earlier best r = best ∧ (r.(sched_status) = active → ∀ t, r.(next_run_at) = Some t →
            ∃ b sid, best = Some (b, sid) ∧ b ≤ t) ∨
          ∃ t, r.(next_run_at) = Some t ∧ r.(sched_status) = active ∧ earlier best r = Some (t, r.(schedule_id)) ∧
            ∀ b sid, best = Some (b, sid) → t ≤ b) as [[-> Hr]|(t & Hn & Ha & -> & Hb)].
  { unfold earlier. destruct (next_run_at r) as [t|]; [|by left].
    destruct (bool_decide (sched_status r = active)) eqn:Ea; [|left; split; [done|]; intros E; by rewrite E in Ea].
    apply bool_decide_eq_true in Ea. destruct best as [[b sid]|]; cbn [andb].
    - destruct (Z.ltb_spec t b); [right; exists t; split_and!; [done..|intros ? ? [= <- <-]; lia]|left].
      split; [done|]. intros _ ? [= <-]. eauto.
    - right. exists t. by split_and!. }
  - specialize (IH best). destruct (foldl earlier best l) as [[t sid]|].
    + destruct IH as (Hex & Hb & Hm). split_and!; [set_solver|done|].
      intros r' t' [->|Hin]%elem_of_cons Ha Hn; [|by eapply Hm].
      destruct (Hr Ha t' Hn) as (b & sid' & E & ?). specialize (Hb b sid' E). lia.
    + destruct IH as [-> Hm]. split; [done|]. intros r' [->|Hin]%elem_of_cons Ha; [|by apply Hm].
      destruct (next_run_at r) as [t|]; [|done]. by destruct (Hr Ha t eq_refl) as (? & ? & ? & _).
  - specialize (IH (Some (t, schedule_id r))). destruct (foldl earlier _ l) as [[t1 sid1]|]; [|by destruct IH].
    destruct IH as (Hex & Hle & Hm). specialize (Hle _ _ eq_refl). split_and!.
    + right. destruct Hex as [[= <- <-]|(r' & ? & ?)]; [exists r|exists r']; set_solver.
    + intros b sid E. specialize (Hb b sid E). lia.
    + intros r' t' [->|Hin]%elem_of_cons Ha' Hn'; [|by eapply Hm]. simplify_eq. lia.
Qed.

Lemma next_due_spec st :
  match next_due st with
  | Some (t, sid) =>
      (∃ k r, st.(schedules) !! k = Some r ∧ r.(schedule_id) = sid ∧ r.(sched_status) = active ∧ r.(next_run_at) = Some t) ∧
      ∀ k r t', st.(schedules) !! k = Some r → r.(sched_status) = active → r.(next_run_at) = Some t' → t ≤ t'
  | None => ∀ k r, st.(schedules) !! k = Some r → r.(sched_status) = active → r.(next_run_at) = None
  end.
Proof.
  assert (∀ k r, schedules st !! k = Some r → r ∈ (map_to_list (schedules st)).*2) as Hin.
  { intros k r Hr%elem_of_map_to_list. by apply (list_elem_of_fmap_2 snd _ (k, r)). }
  unfold next_due. pose proof (foldl_earlier (map_to_list (schedules st)).*2 None) as H.
  destruct (foldl earlier None _) as [[t sid]|].
  - destruct H as ([?|(r & Hr & H)] & _ & Hm); [done|]. split; [|intros k r' t' Hr'; by eapply Hm, Hin].
    apply list_elem_of_fmap in Hr as ([k r'] & -> & Hr%elem_of_map_to_list). by exists k, r'.
  - destruct H as [_ Hm]. intros k r Hr. by eapply Hm, Hin.
Qed.

Lemma entries_spec s t sid scope :
  (t, sid, scope) ∈ entries s ↔ ∃ st, s !! scope = Some st ∧ next_due st = Some (t, sid).
Proof.
  unfold entries. rewrite list_elem_of_omap. split.
  - intros ([sc st] & Hst%elem_of_map_to_list & E). cbn in E. destruct (next_due st) as [[t' sid']|] eqn:En; [|done].
    injection E as <- <- <-. eauto.
  - intros (st & Hst%elem_of_map_to_list & Hn). exists (scope, st). split; [done|]. cbn. by rewrite Hn.
Qed.

Lemma least_spec l :
  match least l with
  | Some a => a ∈ l ∧ ∀ b, b ∈ l → a.1.1 ≤ b.1.1
  | None => l = []
  end.
Proof.
  assert (∀ a b, if entry_le a b then a.1.1 ≤ b.1.1 else b.1.1 ≤ a.1.1) as Hle.
  { intros a b. unfold entry_le. destruct (Z.compare_spec a.1.1 b.1.1); [|lia..].
    repeat case_match; lia. }
  induction l as [|a l IH]; cbn; [done|]. destruct (least l) as [b|].
  - destruct IH as [Hb Hm]. specialize (Hle a b). destruct (entry_le a b).
    + split; [by left|]. intros c [->|Hc]%elem_of_cons; [lia|]. specialize (Hm c Hc). lia.
    + split; [by right|]. intros c [->|Hc]%elem_of_cons; [lia|by apply Hm].
  - subst. split; [by left|]. intros c [->|Hc]%elem_of_cons; [lia|set_solver].
Qed.

(** The heap holds exactly the next run of every store. *)
Definition mirrors (m : manager) : Prop := ∀ a, a ∈ m.(heap) ↔ a ∈ entries m.(stores).

(** The stores are in order, and the heap is unless somebody is about to say so. *)
Definition managed_inv (zi : string → res exn zone) (m : manager) (unannounced : nat) : Prop :=
  (∀ scope st, m.(stores) !! scope = Some st → inv zi st) ∧
  (m.(dirty) = true ∨ unannounced ≠ 0%nat ∨ mirrors m).

(** What a round of the dispatcher decides, for a heap that is rebuilt or right. *)
Definition decides (now : Z) (m : manager) (w : wake) : Prop :=
  match w with
  | Stop => m.(closing) = true
  | Wait => ∀ scope st sid r, m.(stores) !! scope = Some st → st.(schedules) !! sid = Some r →
      r.(sched_status) ≠ active
  | Sleep d => 0 < d ∧ ∀ scope st sid r t, m.(stores) !! scope = Some st → st.(schedules) !! sid = Some r →
      r.(sched_status) = active → r.(next_run_at) = Some t → now + d ≤ t
  | Fire (t, sid, scope) => t ≤ now ∧
      (∃ st r, m.(stores) !! scope = Some st ∧ st.(schedules) !! sid = Some r ∧
         r.(sched_status) = active ∧ r.(next_run_at) = Some t) ∧
      ∀ scope' st' sid' r' t', m.(stores) !! scope' = Some st' → st'.(schedules) !! sid' = Some r' →
        r'.(sched_status) = active → r'.(next_run_at) = Some t' → t ≤ t'
  end.

Lemma poll_decides zi now m :
  (∀ scope st, m.(stores) !! scope = Some st → inv_schedules zi st) → m.(dirty) = true ∨ mirrors m →
  decides now m (poll now m).1 ∧ (poll now m).2.(stores) = m.(stores) ∧ (poll now m).2.(closing) = m.(closing) ∧
  ((∀ a, (poll now m).1 ≠ Fire a) → (poll now m).2 = m ∨ mirrors (poll now m).2).
Proof.
  intros Hinv Hm. unfold poll. destruct (closing m) eqn:Hc; [by cbn; auto|].
  set (m1 := if dirty m then _rebuild_heap_locked m else m).
  assert (mirrors m1 ∧ stores m1 = stores m ∧ closing m1 = false ∧ (m1 = m ∨ mirrors m1)) as (Hm1 & Es & Ec & Hkeep).
  { subst m1. destruct (dirty m); [assert (mirrors (_rebuild_heap_locked m)) by done; by auto|]. destruct Hm as [?|?]; [done|by auto]. }
  assert (Hmin : ∀ a, least (heap m1) = Some a → ∀ scope st sid r t, stores m !! scope = Some st →
    schedules st !! sid = Some r → sched_status r = active → next_run_at r = Some t → a.1.1 ≤ t).
  { intros a Ha scope st sid r t Hst Hr Hact Ht. pose proof (least_spec (heap m1)) as Hl. rewrite Ha in Hl.
    destruct Hl as [_ Hl]. pose proof (next_due_spec st) as Hd. destruct (next_due st) as [[t0 sid0]|] eqn:En.
    - destruct Hd as [_ Hd]. specialize (Hd sid r t Hr Hact Ht).
      specialize (Hl (t0, sid0, scope)). cbn in Hl. etrans; [apply Hl, Hm1, entries_spec|done]. rewrite Es. eauto.
    - specialize (Hd sid r Hr Hact). congruence. }
  pose proof (least_spec (heap m1)) as Hl. destruct (least (heap m1)) as [[[t sid] scope]|] eqn:El; cbn.
  - specialize (Hmin _ eq_refl). cbn in Hmin. destruct Hl as [Hin _].
    apply Hm1, entries_spec in Hin as (st & Hst & Hn). rewrite Es in Hst.
    destruct (Z.ltb_spec now t); cbn; (split; [|split; [done|split; [done|]]]).
    + split; [lia|]. intros scope' st' sid' r' t' H1 H2 H3 H4. specialize (Hmin _ _ _ _ _ H1 H2 H3 H4). lia.
    + by auto.
    + split_and!; [done| |by eauto]. pose proof (next_due_spec st) as Hd. rewrite Hn in Hd.
      destruct Hd as [(k & r & Hr & <- & Ha & Ht) _]. exists st, r.
      by rewrite (inv_key _ _ (Hinv _ _ Hst) _ _ Hr).
    + intros Hf. by destruct (Hf (t, sid, scope)).
  - split; [|by auto]. intros scope st sid r Hst Hr Ha.
    pose proof (next_due_spec st) as Hd. destruct (next_due st) as [[t0 sid0]|] eqn:En.
    + assert ((t0, sid0, scope) ∈ heap m1) as Hin by (apply Hm1, entries_spec; rewrite Es; eauto).
      rewrite Hl in Hin. set_solver.
    + specialize (Hd sid r Hr Ha). apply (inv_next _ _ (Hinv _ _ Hst) _ _ Hr) in Ha as [? ?]. congruence.
Qed.

(** ** The running system *)

Section system.
Context (zi : string → res exn zone) (grace : Z).

(** Other threads call methods of the store. *)
Definition polite (f : store → store) : Prop := ∀ st, rtc (step zi) st (f st).

(** Fresh identifiers for a dispatch: [st] is the store it claims from. *)
Definition fresh_env (sid rid : string) (now : Z) (e : env) (st : store) : Prop :=
  fresh_marker st (claim_marker rid) ∧ (∀ n, polite (e.(e_others) n)) ∧
  ∀ task, e.(e_shell) = Started task →
    task ≠ ""%string ∧ fresh_marker (e.(e_others) 0 (claim_due zi sid now grace false None rid st).2) task.

(** A step of the manager's threads.  [unannounced] counts the threads that have
    changed a store and not yet called [changed]; changes that leave the next run of
    the store alone (finished runs, forced claims) need no announcement. *)
Inductive mstep : manager * nat → manager * nat → Prop :=
| m_open m k scope db now : reachable zi db → mstep (m, k) ((store_for scope db now m).2, k)
| m_method m k scope st st' :
    m.(stores) !! scope = Some st → step zi st st' → mstep (m, k) (put_store scope st' m, S k)
| m_quiet m k scope st st' :
    m.(stores) !! scope = Some st → step zi st st' → next_due st' = next_due st →
    mstep (m, k) (put_store scope st' m, k)
| m_announce m k : mstep (m, S k) (changed m, k)
| m_sleep m k now : (∀ a, (poll now m).1 ≠ Fire a) → mstep (m, k) ((poll now m).2, k)
| m_fire m k now rid e t sid scope m1 st :
    poll now m = (Fire (t, sid, scope), m1) → m.(stores) !! scope = Some st → fresh_env sid rid now e st →
    mstep (m, k) ((dispatch zi grace now rid e (t, sid, scope) m1).2, k)
| m_close m k : mstep (m, k) (close m, k).

Definition managed : manager * nat → Prop := rtc mstep (Manager ∅ [] true false, 0%nat).

Lemma rtc_inv st st' : inv zi st → rtc (step zi) st st' → inv zi st'.
Proof. intros I R. revert I. induction R; eauto using step_inv. Qed.

Lemma finish_kept e n rid s code err st :
  polite (e.(e_others) n) → inv zi st → inv zi (locked e n (finish_run rid s code err) st).2.
Proof.
  intros Ho I. assert (inv zi (e_others e n st)) as I' by by eapply rtc_inv. unfold locked.
  destruct (finish_run _ _ _ _ _ _) as [[y st']|] eqn:E; [by eapply finish_inv|done].
Qed.

Lemma execute_kept e c st :
  (∀ n, polite (e.(e_others) n)) →
  (∀ task, e.(e_shell) = Started task → task ≠ ""%string ∧ fresh_marker (e.(e_others) 0 st) task) →
  inv zi st → inv zi (_execute e c st).2.
Proof.
  intros Ho Ht I. unfold _execute, finished, finish. destruct (permitted e) as [[]|x]; [| |done].
  - destruct (e_context e) as [ctx|msg|]; [|by apply finish_kept..].
    destruct (e_shell e) as [task|code msg|name msg]; [|by apply finish_kept..].
    destruct (Ht task eq_refl) as [Hne Hfr]. assert (inv zi (e_others e 0 st)) as I' by (eapply rtc_inv; [done|apply Ho]).
    unfold locked at 1. destruct (bind_task _ _ _ _) as [[y st']|] eqn:E; [by eapply bind_inv|].
    by apply finish_kept.
  - pose proof (finish_kept e 0 (run_id (c_run c)) skipped_permission None
      (Some "schedule permission, Shell permission, or workspace validity was revoked"%string) st (Ho 0%nat) I) as H.
    destruct (locked _ _ _ _) as [[y|x] st1]; [|done]. destruct (e_record e) as [rec|]; [|done].
    apply pause_app_inv. eapply rtc_inv; [exact H|apply Ho].
Qed.

Lemma put_store_inv scope st m :
  (∀ s st, m.(stores) !! s = Some st → inv zi st) → inv zi st →
  ∀ s st', (put_store scope st m).(stores) !! s = Some st' → inv zi st'.
Proof. intros Hm I s st'. cbn. rewrite lookup_insert. case_decide; [intros [= <-]; done|apply Hm]. Qed.

Lemma mirrors_put scope st st' m :
  m.(stores) !! scope = Some st → next_due st' = next_due st → mirrors m → mirrors (put_store scope st' m).
Proof.
  intros Hst Hn Hm [[t sid] sc]. rewrite (Hm (t, sid, sc)). cbn. rewrite !entries_spec.
  split; intros (s & Hs & Hd); (destruct (decide (sc = scope)) as [->|Hne];
    [rewrite ?lookup_insert_eq in *|rewrite ?lookup_insert_ne in * by done; by eauto]).
  - exists st'. split; [done|]. congruence.
  - exists st. split; [done|]. congruence.
Qed.

Lemma poll_stores now m : (poll now m).2.(stores) = m.(stores).
Proof. unfold poll. destruct (closing m); [done|]. destruct (dirty m); repeat case_match; done. Qed.

Lemma dispatch_kept now rid e t sid scope m st :
  (∀ s st, m.(stores) !! s = Some st → inv zi st) → m.(stores) !! scope = Some st → fresh_env sid rid now e st →
  ∀ s st', (dispatch zi grace now rid e (t, sid, scope) m).2.(stores) !! s = Some st' → inv zi st'.
Proof.
  intros I Hst (Hf & Ho & Ht). unfold dispatch. rewrite Hst.
  pose proof (claim_inv zi sid now grace false None rid st (I _ _ Hst) Hf) as I1.
  destruct (claim_due _ _ _ _ _ _ _ _) as [r st1]. cbn [snd] in *.
  assert (inv zi (execute_claim e r st1).2) as I2.
  { unfold execute_claim. destruct r as [[c|]|]; [|done..]. destruct (c_execute c); [by apply execute_kept|done]. }
  destruct (execute_claim e r st1) as [o st2]. by apply put_store_inv.
Qed.

Lemma mstep_inv x x' : managed_inv zi x.1 x.2 → mstep x x' → managed_inv zi x'.1 x'.2.
Proof.
  intros [I Hm] S.
  destruct S as [m k scope db now Hdb|m k scope st st' Hst Hs|m k scope st st' Hst Hs Hn|m k|m k now Hnf|
                 m k now rid e t sid scope m1 st Hp Hst (Hf & Ho & Ht)|m k]; cbn [fst snd] in *.
  - unfold store_for. destruct (stores m !! scope); [by split|]. split; [|by left].
    apply put_store_inv; [done|]. by apply abandon_inv, reachable_inv.
  - split; [|by right; left]. apply put_store_inv; [done|]. eapply step_inv; [by eapply I|done].
  - split; [apply put_store_inv; [done|]; eapply step_inv; [by eapply I|done]|].
    destruct Hm as [?|[?|Hm]]; [by left|by right; left|right; right]. by eapply mirrors_put.
  - split; [done|by left].
  - split; [intros s st Hst; rewrite poll_stores in Hst; by eapply I|].
    assert (dirty m = true ∨ mirrors m → (poll now m).2 = m ∨ mirrors (poll now m).2) as Hd.
    { intros H. apply (poll_decides zi now m); [intros s st Hst; by apply (I s)|done..]. }
    destruct Hm as [H|[?|H]]; [|by right; left|]; (destruct Hd as [->|?]; [by auto|by auto|by auto]).
  - assert (stores m1 = stores m) as E by (pose proof (poll_stores now m) as E; by rewrite Hp in E).
    split; [apply (dispatch_kept _ _ _ _ _ _ _ st); rewrite ?E; done|]. left. unfold dispatch. rewrite E, Hst.
    destruct (claim_due _ _ _ _ _ _ _ _) as [r st1]. by destruct (execute_claim e r st1).
  - by split.
Qed.

Lemma managed_inv_reached m k : managed (m, k) → managed_inv zi m k.
Proof.
  assert (∀ x x', rtc mstep x x' → managed_inv zi x.1 x.2 → managed_inv zi x'.1 x'.2) as H.
  { intros x x' R. induction R; eauto using mstep_inv. }
  intros R. apply (H _ _ R). split; [|by left]. intros scope st. cbn. by rewrite lookup_empty.
Qed.

(** ** Catching up *)

Section now.
Context (now : Z).

Definition tidy (st : store) : Prop := inv_schedules zi st ∧ ∀ rid, keyed rid st.

(** From [st] to [st'] no schedule becomes due, and no run id is taken. *)
Record tame (st st' : store) : Prop := {
  tame_tidy : tidy st → tidy st';
  tame_due : tidy st → ∀ sid r', st'.(schedules) !! sid = Some r' → is_due now r' → ∃ r,
    st.(schedules) !! sid = Some r ∧ is_due now r ∧ next_after_claim zi r' now = next_after_claim zi r now;
  tame_runs : tidy st → ∀ rid, st.(schedule_runs) !! rid = None → st'.(schedule_runs) !! rid = None }.

Lemma tame_refl st : tame st st.
Proof. split; eauto. Qed.

Lemma tame_trans st1 st2 st3 : tame st1 st2 → tame st2 st3 → tame st1 st3.
Proof.
  intros [A1 A2 A3] [B1 B2 B3]. split; [by auto| |by auto]. intros I sid r3 H3 D3.
  destruct (B2 (A1 I) sid r3 H3 D3) as (r2 & H2 & D2 & E2). destruct (A2 I sid r2 H2 D2) as (r1 & ? & ? & ?).
  exists r1. split_and!; [done..|congruence].
Qed.

Lemma tame_swap sid old new at_ st : tame st (swap_marker sid old new at_ st).
Proof.
  split; [intros [? ?]; split; [by apply swap_marker_inv|]| |]; unfold keyed; rewrite ?swap_marker_runs; try done.
  intros [I _] s r'. rewrite (swap_marker_lookup zi) by done. destruct (schedules st !! s) as [r|] eqn:Er; [|done].
  cbn. intros [= <-] D. exists r. by destruct (bool_decide _).
Qed.

Lemma tame_put_run x st : is_Some (st.(schedule_runs) !! x.(run_id)) → tame st (put_run st x).
Proof.
  intros [y Hy]. split; [intros [? Hk]; split; [by apply (inv_schedules_ext zi st)|]|by eauto|].
  - intros rid z. cbn. rewrite lookup_insert. case_decide; [by intros [= <-]|apply Hk].
  - intros _ rid Hn. cbn. rewrite lookup_insert_ne by congruence. done.
Qed.

Lemma tame_prune sid at_ keep st : tame st (prune_runs sid at_ keep st).
Proof.
  split; [intros [? Hk]; split; [by apply (inv_schedules_ext zi st)|]|by eauto|].
  - intros rid z Hz%prune_sub. by apply Hk.
  - intros _ rid Hn. destruct (schedule_runs (prune_runs sid at_ keep st) !! rid) eqn:E; [|done].
    apply prune_sub in E. congruence.
Qed.

Lemma tame_pause app at_ st : tame st (pause_app app at_ st).2.
Proof.
  split; [intros [? Hk]; split; [by apply pause_app_schedules|exact Hk]|intros I sid r'|by auto].
  cbn. rewrite lookup_fmap_Some. intros (r & <- & Hr) D. exists r. split; [done|].
  case_bool_decide; [|done]. by destruct D as [? _].
Qed.

(** Nobody else works on the store. *)
Definition undisturbed (e : env) : Prop := ∀ n st, e.(e_others) n st = st.

Lemma tame_finish e n rid s code err st :
  undisturbed e → keyed rid st → tame st (locked e n (finish_run rid s code err) st).2.
Proof.
  intros He Hk. unfold locked. rewrite He. destruct (finish_run _ _ _ _ _ _) as [[y st']|] eqn:E; [|apply tame_refl].
  apply finish_run_Ok in E as (row & _ & Hrow & -> & ->). cbn.
  eapply tame_trans; [|apply tame_prune]. eapply tame_trans; [apply tame_swap|apply tame_put_run].
  cbn. rewrite swap_marker_runs, (Hk row Hrow). eauto.
Qed.

Lemma tame_bind rid task at_ st x st' :
  keyed rid st → bind_task rid task at_ st = Ok (x, st') → tame st st'.
Proof.
  intros Hk E. unfold bind_task in E. destruct (schedule_runs st !! rid) as [row|] eqn:Er; [|done].
  case_bool_decide; [|done]. injection E as <- <-. eapply tame_trans; [|apply tame_swap].
  apply tame_put_run. cbn. rewrite (Hk row Er). eauto.
Qed.

Lemma tame_execute e c st : undisturbed e → (∀ rid, keyed rid st) → tame st (_execute e c st).2.
Proof.
  intros He Hk. assert (∀ n rid s msg, tame st (finished (finish e n rid s msg st)).2) as Hfin.
  { intros n rid s msg. by apply (tame_finish e n rid s None (Some msg)). }
  unfold _execute. destruct (permitted e) as [[]|x]; [| |apply tame_refl].
  - destruct (e_context e) as [ctx|msg|]; [|apply Hfin..].
    destruct (e_shell e) as [task|code msg|name msg]; [|apply Hfin..].
    unfold locked. rewrite He. destruct (bind_task _ _ _ _) as [[y st']|] eqn:E; [by eapply tame_bind|].
    by apply (tame_finish e 1 (run_id (c_run c)) failed).
  - pose proof (tame_finish e 0 (run_id (c_run c)) skipped_permission None
      (Some "schedule permission, Shell permission, or workspace validity was revoked"%string) st He (Hk _)) as H.
    unfold finish. destruct (locked _ _ _ _) as [[y|x] st1]; [|done]. destruct (e_record e) as [rec|]; [|done].
    cbn in *. rewrite He. eapply tame_trans; [exact H|apply tame_pause].
Qed.

(** A claim takes the schedule out of the due ones and leaves the others. *)
Lemma claim_serves sid rid st r next :
  tidy st → st.(schedules) !! sid = Some r → is_due now r → next_after_claim zi r now = Ok next →
  st.(schedule_runs) !! rid = None →
  let st1 := (claim_due zi sid now grace false None rid st).2 in
  tidy st1 ∧
  (∀ sid' r', st1.(schedules) !! sid' = Some r' → is_due now r' → sid' ≠ sid ∧ st.(schedules) !! sid' = Some r') ∧
  ∀ rid', rid' ≠ rid → st.(schedule_runs) !! rid' = None → st1.(schedule_runs) !! rid' = None.
Proof.
  intros [I Hk] Hr (Ha & t & Ht & Hle) Hn Hrid st1.
  assert (∃ x rst err r', r'.(schedule_id) = sid ∧ ¬ is_due now r' ∧
    st1 = put_schedule (prune_runs r.(schedule_id) now None (put_run st (claim_run r rid t x rst err now))) r')
    as (x & rst & err & r' & Hid & Hnd & E).
  { subst st1. rewrite claim_due_state. unfold claim_txn, claim_row. rewrite Hr. unfold claim_time. rewrite Ht.
    rewrite (bool_decide_eq_true_2 _ Ha). cbn [negb]. rewrite (proj2 (Z.ltb_ge now t) Hle).
    destruct (claim_outcome _ _ _ _ _) as [[x rst] err]. rewrite Hn, Hrid, bool_decide_eq_false_2 by (by intros [? ?]).
    exists x, rst, err. eexists. split_and!; [| |reflexivity]; cbn; [by apply (inv_key _ _ I)|].
    intros (_ & t' & Ht' & Hle'). cbn in Ht'. subst next.
    pose proof (next_after_claim_future zi r now t' (inv_row _ _ I _ _ Hr) Hn). lia. }
  assert (inv_schedules zi st1) as I1 by by apply claim_schedules. split_and!.
  - split; [done|]. intros rid' y Hy. rewrite E in Hy. rewrite prune_put in Hy. apply prune_sub in Hy.
    cbn in Hy. rewrite lookup_insert in Hy. case_decide as Hd; [by injection Hy as <-|by apply Hk].
  - intros sid' r0 H0 D0. rewrite E in H0. rewrite lookup_put, Hid in H0. case_decide as Hd.
    + injection H0 as <-. done.
    + split; [congruence|exact H0].
  - intros rid' Hne Hno. rewrite E, prune_put.
    destruct (schedule_runs (prune_runs _ _ _ _) !! rid') as [y|] eqn:Hy; [|done]. apply prune_sub in Hy. cbn in Hy.
    rewrite lookup_insert_ne in Hy by congruence. congruence.
Qed.

(** The due schedules are among [due] and can be claimed; the run ids are free. *)
Record pending (m : manager) (due : gset (string * string)) (ids : list string) : Prop := {
  p_tidy scope st : m.(stores) !! scope = Some st → tidy st;
  p_heap : m.(dirty) = true ∨ mirrors m;
  p_open : m.(closing) = false;
  p_due scope st sid r : m.(stores) !! scope = Some st → st.(schedules) !! sid = Some r → is_due now r →
    (scope, sid) ∈ due ∧ ∃ next, next_after_claim zi r now = Ok next;
  p_free scope st rid : m.(stores) !! scope = Some st → rid ∈ ids → st.(schedule_runs) !! rid = None }.

Lemma dispatch_serves m due rid ids e t sid scope m1 :
  pending m due (rid :: ids) → rid ∉ ids → undisturbed e → poll now m = (Fire (t, sid, scope), m1) →
  pending (dispatch zi grace now rid e (t, sid, scope) m1).2 (due ∖ {[(scope, sid)]}) ids ∧ (scope, sid) ∈ due.
Proof.
  intros [Ht Hh Ho Hd Hf] Hni He Hp.
  destruct (poll_decides zi now m) as (Hdec & Es & Ec & _); [intros s st Hst; by apply (Ht s)|done|].
  rewrite Hp in Hdec, Es, Ec. cbn [fst snd] in *. destruct Hdec as (Hle & (st & r & Hst & Hr & Ha & Hn) & _).
  assert (is_due now r) as Hdue by (split; eauto). destruct (Hd _ _ _ _ Hst Hr Hdue) as [Hin [next Hnext]].
  split; [|done]. unfold dispatch. rewrite Es, Hst.
  destruct (claim_serves sid rid st r next (Ht _ _ Hst) Hr Hdue Hnext) as (T1 & D1 & F1); [by eapply Hf; [|left]|].
  destruct (claim_due _ _ _ _ _ _ _ _) as [c st1]. cbn [snd] in *.
  assert (tame st1 (execute_claim e c st1).2) as Tm.
  { unfold execute_claim. destruct c as [[c|]|]; [|apply tame_refl..].
    destruct (c_execute c); [apply tame_execute; [done|apply T1]|apply tame_refl]. }
  destruct (execute_claim e c st1) as [o st2]. cbn [snd] in *. destruct Tm as [T2 D2 F2].
  split; cbn; try done; [|by left|by rewrite Ec| |].
  - intros s st'. rewrite Es, lookup_insert. case_decide; [intros [= <-]; by apply T2|apply Ht].
  - intros s st' sid' r'. rewrite Es, lookup_insert. case_decide as Hs; [intros [= <-]|intros Hst'].
    + subst s. intros Hr' Hdue'. destruct (D2 T1 sid' r' Hr' Hdue') as (r1 & Hr1 & Hdue1 & En).
      destruct (D1 sid' r1 Hr1 Hdue1) as [Hne Hr0]. destruct (Hd _ _ _ _ Hst Hr0 Hdue1) as [Hin' Hnx].
      split; [set_solver|by rewrite En].
    + intros Hr' Hdue'. destruct (Hd _ _ _ _ Hst' Hr' Hdue') as [Hin' Hnx]. split; [set_solver|done].
  - intros s st' rid'. rewrite Es, lookup_insert. case_decide as Hs; [intros [= <-]|].
    + intros Hrid'. apply F2, F1; [done|by intros ->|]. eapply Hf; [exact Hst|by right].
    + intros Hst' Hrid'. eapply Hf; [exact Hst'|by right].
Qed.

Lemma run_at_serves inputs m due :
  pending m due inputs.*1 → NoDup inputs.*1 → Forall (λ i, undisturbed i.2) inputs → (size due ≤ length inputs)%nat →
  ∀ scope st sid r, (run_at zi grace now inputs m).2.(stores) !! scope = Some st →
    st.(schedules) !! sid = Some r → ¬ is_due now r.
Proof.
  revert m due. induction inputs as [|[rid e] inputs IH]; intros m due P Hnd He Hsz; cbn [run_at fmap list_fmap].
  { intros scope st sid r Hst Hr Hdue. destruct (p_due _ _ _ P _ _ _ _ Hst Hr Hdue) as [Hin _].
    cbn in Hsz. assert (due ≡ ∅) as Hno by (apply size_empty_inv; lia). set_solver. }
  apply NoDup_cons in Hnd as [Hni Hnd]. apply Forall_cons in He as [He0 He].
  destruct (poll_decides zi now m) as (Hdec & Es & _ & _);
    [intros s st Hst; by apply (p_tidy _ _ _ P s)|apply (p_heap _ _ _ P)|].
  destruct (poll now m) as [[| |d|[[t sid] scope]] m1] eqn:Hp; cbn [fst snd] in *.
  - cbn in Hdec. by rewrite (p_open _ _ _ P) in Hdec.
  - rewrite Es. intros s st sid r Hst Hr [Ha _]. by eapply Hdec.
  - rewrite Es. intros s st sid r Hst Hr (Ha & t & Ht & Hle). destruct Hdec as [Hd Hdec].
    specialize (Hdec _ _ _ _ _ Hst Hr Ha Ht). lia.
  - destruct (dispatch_serves _ _ _ _ _ _ _ _ _ P Hni He0 Hp) as [P2 Hin].
    destruct (dispatch _ _ _ _ _ _ _) as [w m2]. cbn [snd] in P2.
    specialize (IH m2 _ P2 Hnd He). destruct (run_at zi grace now inputs m2) as [ws m3]. apply IH.
    rewrite size_difference by set_solver. rewrite size_singleton. cbn in Hsz. lia.
Qed.

End now.

(** C12: The dispatcher never sleeps past a schedule and serves the earliest first.
    In every state its threads can reach, once every change has been announced, a
    round of the loop at instant [now] waits only if no schedule of any workspace is
    active, sleeps no longer than until the next run of each active schedule, and
    otherwise fires a due schedule that no other schedule precedes. *)
Theorem dispatcher_never_oversleeps m now :
  managed (m, 0%nat) → decides now m (poll now m).1.
Proof.
  intros [I Hm]%managed_inv_reached.
  apply (poll_decides zi now m); [intros s st Hst; by apply (I s)|]. by destruct Hm as [?|[?|?]]; auto.
Qed.

(** C7: The dispatcher catches up.  However many schedules of however many
    workspaces are due at instant [now], after at most as many rounds none is due any
    more: each was claimed (and executed, skipped or recorded as missed) or its app
    was paused.  The next occurrence of the due schedules must be computable, the
    drawn run ids must be new, and nobody else changes the stores meanwhile. *)
Theorem dispatcher_catches_up (now : Z) (m : manager) (due : gset (string * string))
    (inputs : list (string * env)) (ws : list watch) (m' : manager) :
  managed (m, 0%nat) → m.(closing) = false →
  (∀ scope st sid r, m.(stores) !! scope = Some st → st.(schedules) !! sid = Some r → is_due now r →
     (scope, sid) ∈ due ∧ ∃ next, next_after_claim zi r now = Ok next) →
  (size due ≤ length inputs)%nat →
  NoDup inputs.*1 → Forall (λ i, undisturbed i.2) inputs →
  (∀ scope st rid, m.(stores) !! scope = Some st → rid ∈ inputs.*1 → st.(schedule_runs) !! rid = None) →
  run_at zi grace now inputs m = (ws, m') →
  ∀ scope st sid r, m'.(stores) !! scope = Some st → st.(schedules) !! sid = Some r → ¬ is_due now r.
Proof.
  intros [I Hm]%managed_inv_reached Hc Hd Hsz Hnd He Hf Hrun.
  assert (pending now m due inputs.*1) as P.
  { split; try done; [|by destruct Hm as [?|[?|?]]; auto]. intros scope st Hst. destruct (I _ _ Hst) as [IS IR].
    split; [done|]. intros rid x. apply (inv_run_key _ IR). }
  pose proof (run_at_serves now inputs m due P Hnd He Hsz) as H. by rewrite Hrun in H.
Qed.

(** A schedule whose next occurrence cannot be computed blocks the dispatcher.
    When the earliest due schedule makes [_next_after_claim] raise (its time zone is
    no longer known, or it has no occurrence in the lookahead window), the round
    changes no store, and the next round fires the same schedule again at once: the
    dispatcher spins on it and serves no other schedule. *)
Theorem unclaimable_schedule_blocks now m rid e t sid scope m1 st r x :
  m.(dirty) = true → poll now m = (Fire (t, sid, scope), m1) → m.(stores) !! scope = Some st →
  st.(schedules) !! sid = Some r → next_after_claim zi r now = Err x →
  let m2 := (dispatch zi grace now rid e (t, sid, scope) m1).2 in
  m2.(stores) = m.(stores) ∧ poll now m2 = (Fire (t, sid, scope), m1).
Proof.
  intros Hd Hp Hst Hr Hx m2. assert (stores m1 = stores m) as Es by (pose proof (poll_stores now m) as Es; by rewrite Hp in Es).
  assert (m2 = changed (Manager (stores m) (heap m1) (dirty m1) (closing m1))) as E.
  { subst m2. unfold dispatch. rewrite Es, Hst.
    assert ((claim_due zi sid now grace false None rid st).2 = st ∧
            ∀ c, (claim_due zi sid now grace false None rid st).1 ≠ Ok (Some c)) as [E1 E2].
    { unfold claim_due, claim_txn, claim_row. rewrite Hr. destruct (claim_time r false now) as [[?|]|]; [|done..].
      destruct (claim_outcome _ _ _ _ _) as [[? ?] ?]. by rewrite Hx. }
    destruct (claim_due _ _ _ _ _ _ _ _) as [[[c|]|] st1]; cbn in E1, E2; [by destruct (E2 c)|..]; subst st1; cbn;
      unfold put_store, changed; by rewrite Es, insert_id. }
  rewrite E. split; [done|]. unfold poll in *. destruct (closing m) eqn:Hc; [done|]. rewrite Hd in Hp.
  cbn in *. destruct (least (entries (stores m))) as [a|]; [|done].
  destruct (now <? a.1.1) eqn:Hlt; [done|]. injection Hp as -> <-. cbn in Hlt |- *. by rewrite Hc.
Qed.

End system.

(** ** A workspace with one schedule *)

Definition demo_env : env :=
  {| e_record := None; e_context := ContextError; e_shell := ShellError "OSError" "no shell"; e_clock := λ _, demo_due;
     e_others := λ _ st, st |}.
Definition demo_manager : manager := (store_for "w" demo_created demo_now (Manager ∅ [] true false)).2.

Lemma demo_created_reachable : reachable demo_zones demo_created.
Proof.
  apply rtc_once. eapply (step_create demo_zones empty_store "app" demo_args demo_now "s1").
  - exists demo_request, demo_now. vm_compute. reflexivity.
  - vm_compute. reflexivity.
Qed.

Lemma demo_managed grace : managed demo_zones grace (demo_manager, 0%nat).
Proof.
  apply rtc_once. apply (m_open demo_zones grace (Manager ∅ [] true false) 0 "w" demo_created demo_now).
  apply demo_created_reachable.
Qed.

Definition demo_opened : store := (abandon_running demo_now demo_created).2.
Definition demo_schedule : option ScheduleRecord := demo_opened.(schedules) !! "s1"%string.

Lemma demo_stores scope st : demo_manager.(stores) !! scope = Some st → scope = "w"%string ∧ st = demo_opened.
Proof.
  assert (stores demo_manager = {["w"%string := demo_opened]}) as -> by (vm_compute; reflexivity).
  intros [? ?]%lookup_singleton_Some. done.
Qed.

Lemma demo_row sid r : demo_opened.(schedules) !! sid = Some r → sid = "s1"%string ∧ Some r = demo_schedule.
Proof.
  intros Hr. assert (sid = "s1"%string) as ->; [|done].
  assert (sid ∈ dom demo_opened.(schedules)) as Hin by (apply elem_of_dom; eauto).
  assert (dom demo_opened.(schedules) = {["s1"%string]}) as E by (vm_compute; reflexivity).
  rewrite E in Hin. set_solver.
Qed.

Lemma dispatcher_never_oversleeps_witness :
  (poll demo_now demo_manager).1 = Sleep (300 * sec_us) ∧ decides demo_now demo_manager (poll demo_now demo_manager).1.
Proof.
  split; [vm_compute; reflexivity|].
  apply (dispatcher_never_oversleeps demo_zones 300). apply demo_managed.
Defined.

Definition demo_served : manager := (run_at demo_zones 300 demo_due [("r1"%string, demo_env)] demo_manager).2.

Lemma dispatcher_catches_up_witness :
  ∃ st r, demo_served.(stores) !! "w"%string = Some st ∧ st.(schedules) !! "s1"%string = Some r ∧ ¬ is_due demo_due r.
Proof.
  assert (∀ scope st sid r, demo_served.(stores) !! scope = Some st → st.(schedules) !! sid = Some r → ¬ is_due demo_due r) as H.
  { apply (dispatcher_catches_up demo_zones 300 demo_due demo_manager {[("w", "s1")]}%string [("r1"%string, demo_env)]
      (run_at demo_zones 300 demo_due [("r1"%string, demo_env)] demo_manager).1).
    - apply demo_managed.
    - reflexivity.
    - intros scope st sid r Hst Hr _. apply demo_stores in Hst as [-> ->]. apply demo_row in Hr as [-> Hr].
      split; [set_solver|]. vm_compute in Hr. injection Hr as ->. eexists. vm_compute. reflexivity.
    - vm_compute. lia.
    - apply NoDup_singleton.
    - by apply Forall_singleton.
    - intros scope st rid Hst _. apply demo_stores in Hst as [_ ->]. vm_compute. done.
    - unfold demo_served. apply surjective_pairing. }
  destruct (demo_served.(stores) !! "w"%string) as [st|] eqn:Est; [|vm_compute in Est; discriminate Est].
  destruct (st.(schedules) !! "s1"%string) as [r|] eqn:Er;
    [|vm_compute in Est; injection Est as <-; vm_compute in Er; discriminate Er].
  exists st, r. split; [reflexivity|]. split; [exact Er|exact (H _ _ _ _ Est Er)].
Defined.

(** The run of the demonstration claim, with a shell that starts a task. *)
Definition demo_started : env :=
  {| e_record := Some Tokens.demo_record; e_context := Added 1; e_shell := Started "task1"; e_clock := λ _, demo_due;
     e_others := λ _ st, st |}.

Lemma claimed_run_settles_witness :
  ∃ c st1 w st2, claim_due demo_zones "s1" demo_due 300 false None "r1" demo_created = (Ok (Some c), st1) ∧
    execute_claim demo_started (Ok (Some c)) st1 = (Ok (Some w), st2) ∧ w.(w_run) = "r1"%string ∧
    at_rest "r1" (_watch_task demo_env w (Some 0) None st2).2.
Proof.
  destruct (claim_due demo_zones "s1" demo_due 300 false None "r1" demo_created) as [[[c|]|] st1] eqn:E;
    try (vm_compute in E; discriminate E).
  pose proof (claimed_run_settles demo_zones "s1" demo_due 300 false None "r1" demo_created c st1 demo_started E) as H.
  destruct (execute_claim demo_started (Ok (Some c)) st1) as [[[w|]|] st2] eqn:Ex;
    try (vm_compute in E; injection E as <- <-; vm_compute in Ex; discriminate Ex).
  exists c, st1, w, st2. destruct H as (Hw & _ & Hwatch).
  - intros n st. by left.
  - intros x. vm_compute. discriminate.
  - split_and!; [done..|]. apply Hwatch. intros st. by left.
Defined.

(** A cron schedule whose zone has left the database. *)
Definition lost_request : json :=
  JObj [("type", JStr "cron"); ("expression", JStr "0 0 12 * * *"); ("timezone", JStr "Etc/GMT-1")]%string.
Definition lost_store : store :=
  match validate_timing demo_zones lost_request demo_now with
  | Ok t =>
      match create "app" {| ca_name := "noon"; ca_timing := t; ca_command := "make"; ca_cwd := "."; ca_timeout := None;
              ca_overlap := "skip"; ca_misfire := "skip"; ca_plan := 1; ca_taskname := "noon"; ca_message := "m" |}%string
              demo_now "s1" empty_store with
      | Ok (_, st) => st
      | Err _ => empty_store
      end
  | Err _ => empty_store
  end.
Definition lost_manager : manager := (store_for "w" lost_store demo_now (Manager ∅ [] true false)).2.
Definition no_zones (key : string) : res exn zone := Err (KeyError key).
Definition next_day : Z := demo_now + day_us.
