(* ===== verification/Sql.v ===== *)
(** * Sql: tables, and the LIKE operator

    A table is the list of its rows.  A table with an INTEGER PRIMARY KEY is kept in
    the order of that key, which is the order SQLite scans it in.  The column
    constraints that a statement can violate are checked where the statement is
    modelled.  LIKE with an escape character follows SQLite: [%] stands for any
    text, [_] for any character, letters compare without regard to ASCII case. *)

From Stdlib Require Import ZArith Lia Ascii String.
From stdpp Require Import base tactics list sorting gmap strings.
From S2P Require Import Prelude.

Local Open Scope Z_scope.

Lemma elem_take {A} (x : A) n l : x ∈ take n l → x ∈ l.
Proof. intros H. rewrite <- (take_drop n l). apply elem_of_app. by left. Qed.

(** ** Statements *)

Section tables.
Context {R : Type}.

(** SELECT ... WHERE p, first row. *)
Definition fetchone (p : R → bool) (t : list R) : option R := List.find p t.
(** SELECT ... WHERE p *)
Definition fetchall (p : R → bool) (t : list R) : list R := List.filter p t.
(** SELECT COUNT(...) WHERE p *)
Definition count (p : R → bool) (t : list R) : Z := Z.of_nat (length (fetchall p t)).
(** UPDATE ... SET f WHERE p *)
Definition update_where (p : R → bool) (f : R → R) (t : list R) : list R :=
  (λ r, if p r then f r else r) <$> t.
(** DELETE ... WHERE p *)
Definition delete_where (p : R → bool) (t : list R) : list R := fetchall (λ r, negb (p r)) t.
(** SELECT MAX(f) *)
Definition max_of (f : R → Z) (t : list R) : option Z :=
  foldr (λ r acc, Some (match acc with Some m => Z.max (f r) m | None => f r end)) None t.

Lemma fetchone_Some p t r : fetchone p t = Some r → r ∈ t ∧ p r = true.
Proof. intros [H1 H2]%find_some. by rewrite list_elem_of_In. Qed.

Lemma fetchone_None p t r : fetchone p t = None → r ∈ t → p r = false.
Proof. intros H Hr. eapply find_none; [done|]. by rewrite <- list_elem_of_In. Qed.

Lemma elem_fetchall p t r : r ∈ fetchall p t ↔ r ∈ t ∧ p r = true.
Proof. unfold fetchall. by rewrite !list_elem_of_In, filter_In. Qed.

Lemma elem_update_where p f t r :
  r ∈ update_where p f t ↔ ∃ x, x ∈ t ∧ r = if p x then f x else x.
Proof. unfold update_where. rewrite list_elem_of_fmap. naive_solver. Qed.

Lemma elem_delete_where p t r : r ∈ delete_where p t ↔ r ∈ t ∧ p r = false.
Proof. unfold delete_where. by rewrite elem_fetchall, negb_true_iff. Qed.

Lemma fetchall_app p (t u : list R) : fetchall p (t ++ u) = fetchall p t ++ fetchall p u.
Proof. unfold fetchall. apply List.filter_app. Qed.

Lemma fetchall_none p (t : list R) : (∀ r, r ∈ t → p r = false) → fetchall p t = [].
Proof.
  induction t as [|r t IH]; intros H; [done|]. unfold fetchall. simpl.
  rewrite (H r) by left. apply IH. intros x Hx. apply H. by right.
Qed.

Lemma fetchall_all p (t : list R) : (∀ r, r ∈ t → p r = true) → fetchall p t = t.
Proof.
  induction t as [|r t IH]; intros H; [done|]. unfold fetchall. simpl.
  rewrite (H r) by left. f_equal. apply IH. intros x Hx. apply H. by right.
Qed.

Lemma fetchall_length_le p q (t : list R) :
  (∀ r, p r = true → q r = true) → (length (fetchall p t) ≤ length (fetchall q t))%nat.
Proof.
  intros H. unfold fetchall. induction t as [|r t IH]; [done|]. cbn.
  destruct (p r) eqn:E; [rewrite (H r E); cbn; lia|]. destruct (q r); cbn; lia.
Qed.

Lemma max_of_spec f t :
  match max_of f t with
  | Some m => (∃ r, r ∈ t ∧ f r = m) ∧ ∀ r, r ∈ t → f r ≤ m
  | None => t = []
  end.
Proof.
  induction t as [|r t IH]; [done|]. cbn [max_of foldr]. fold (max_of f t).
  destruct (max_of f t) as [m|].
  - destruct IH as [(x & Hx & Hm) Hle]. split.
    + destruct (Z.max_spec (f r) m) as [[_ ->]|[_ ->]]; [exists x|exists r]; set_solver.
    + intros y [->|Hy]%elem_of_cons; [lia|]. specialize (Hle y Hy). lia.
  - subst t. split; [exists r; set_solver|]. intros y [->|Hy]%elem_of_cons; [lia|set_solver].
Qed.

(** ** Rows in the order of a key *)

Definition ordered (f : R → Z) (t : list R) : Prop := StronglySorted Z.lt (f <$> t).

Lemma ordered_unique f t x y : ordered f t → x ∈ t → y ∈ t → f x = f y → x = y.
Proof.
  unfold ordered. induction t as [|r t IH]; [set_solver|]. cbn. intros S Hx Hy E.
  apply StronglySorted_inv in S as [S F]. rewrite Forall_fmap, Forall_forall in F.
  apply elem_of_cons in Hx as [->|Hx], Hy as [->|Hy]; [done| | |by apply IH].
  - specialize (F y Hy). simpl in F. lia.
  - specialize (F x Hx). simpl in F. lia.
Qed.

Lemma ordered_fetchone f t r : ordered f t → r ∈ t → fetchone (λ x, f x =? f r) t = Some r.
Proof.
  intros S Hr. destruct (fetchone _ t) as [x|] eqn:E.
  - apply fetchone_Some in E as [Hx E]. f_equal. eapply ordered_unique; eauto. lia.
  - eapply fetchone_None in E; [|done]. simpl in E. lia.
Qed.

Lemma ordered_fetchall f p t : ordered f t → ordered f (fetchall p t).
Proof.
  unfold ordered, fetchall. induction t as [|r t IH]; cbn; [done|]. intros S.
  apply StronglySorted_inv in S as [S F]. destruct (p r); cbn; [|by apply IH].
  constructor; [by apply IH|]. rewrite Forall_fmap, Forall_forall in F |- *.
  intros x [Hx _]%elem_fetchall. by apply F.
Qed.

Lemma ordered_snoc f t r : ordered f t → (∀ x, x ∈ t → f x < f r) → ordered f (t ++ [r]).
Proof.
  unfold ordered. induction t as [|y t IH]; cbn; intros S H; [repeat constructor|].
  apply StronglySorted_inv in S as [S F]. constructor; [apply IH; set_solver|].
  rewrite fmap_app. apply Forall_app. split; [done|]. constructor; [|done]. apply H. by left.
Qed.

Lemma ordered_update f p g t :
  (∀ r, r ∈ t → p r = true → f (g r) = f r) → ordered f t → ordered f (update_where p g t).
Proof.
  unfold ordered, update_where. intros H S. rewrite <- list_fmap_compose.
  replace ((f ∘ _) <$> t) with (f <$> t); [done|]. apply list_fmap_ext. intros i r Hr%list_elem_of_lookup_2. simpl.
  destruct (p r) eqn:E; [|done]. symmetry. by apply H.
Qed.

End tables.

(** ** LIKE *)

Inductive token := AnyText | AnyChar | Char (c : ascii).

(** A pattern that ends in the escape character matches nothing. *)
Fixpoint like_tokens (escape : ascii) (p : string) : option (list token) :=
  match p with
  | EmptyString => Some []
  | String c p' =>
      if Ascii.eqb c escape then
        match p' with
        | EmptyString => None
        | String d p'' => cons (Char d) <$> like_tokens escape p''
        end
      else cons (if Ascii.eqb c "%" then AnyText else if Ascii.eqb c "_" then AnyChar else Char c)
             <$> like_tokens escape p'
  end.

Fixpoint match_tokens (l : list token) (s : string) : bool :=
  match l with
  | [] => is_empty s
  | AnyText :: l' =>
      (fix any (s : string) : bool :=
         match_tokens l' s || match s with EmptyString => false | String _ s' => any s' end) s
  | AnyChar :: l' => match s with EmptyString => false | String _ s' => match_tokens l' s' end
  | Char c :: l' =>
      match s with
      | EmptyString => false
      | String d s' => Ascii.eqb (c_lower c) (c_lower d) && match_tokens l' s'
      end
  end.

(** [s LIKE p ESCAPE escape] *)
Definition like (escape : ascii) (p s : string) : bool :=
  match like_tokens escape p with Some l => match_tokens l s | None => false end.

(** The characters [c] of a text, each put after the escape character when it is
    special: [text.replace("\\", "\\\\").replace("%", "\\%").replace("_", "\\_")]. *)
Fixpoint replace_char (c : ascii) (by_ : string) (s : string) : string :=
  match s with
  | EmptyString => EmptyString
  | String d s' => (if Ascii.eqb d c then by_ else String d EmptyString) +:+ replace_char c by_ s'
  end.
Definition like_escape (s : string) : string :=
  replace_char "_" "\_" (replace_char "%" "\%" (replace_char "\" "\\" s)).

(** [f"%{escaped}%"] *)
Definition like_pattern (s : string) : string := String "%" (like_escape s +:+ "%").

(** A text contains another one, up to ASCII case. *)
Definition contains_nocase (q s : string) : Prop :=
  ∃ a m b, s = a +:+ (m +:+ b) ∧ lower m = lower q.

Definition escaped_char (c : ascii) : string :=
  if Ascii.eqb c "\" then "\\" else if Ascii.eqb c "%" then "\%"
  else if Ascii.eqb c "_" then "\_" else String c EmptyString.

Lemma replace_char_app c b s t : replace_char c b (s +:+ t) = replace_char c b s +:+ replace_char c b t.
Proof.
  induction s as [|d s IH]; [done|]. rewrite str_app_cons. simpl. by rewrite IH, str_app_assoc.
Qed.

Lemma like_escape_cons c s : like_escape (String c s) = escaped_char c +:+ like_escape s.
Proof.
  unfold like_escape, escaped_char. cbn [replace_char]. rewrite !replace_char_app. f_equal.
  destruct (Ascii.eqb_spec c "\") as [->|H1]; [done|]. cbn [replace_char].
  destruct (Ascii.eqb_spec c "%") as [->|H2]; [done|]. cbn [replace_char String.append].
  rewrite ?(proj2 (Ascii.eqb_neq c "%") H2). simpl.
  destruct (Ascii.eqb c "_"); reflexivity.
Qed.

Fixpoint literals (s : string) : list token :=
  match s with EmptyString => [] | String c s' => Char c :: literals s' end.

Lemma like_tokens_char c t : like_tokens "\" (escaped_char c +:+ t) = cons (Char c) <$> like_tokens "\" t.
Proof.
  unfold escaped_char.
  destruct (Ascii.eqb_spec c "\") as [->|H1]; [done|]. destruct (Ascii.eqb_spec c "%") as [->|H2]; [done|].
  destruct (Ascii.eqb_spec c "_") as [->|H3]; [done|]. rewrite str_app_cons.
  change (EmptyString +:+ t) with t. cbn [like_tokens].
  by rewrite (proj2 (Ascii.eqb_neq _ _) H1), (proj2 (Ascii.eqb_neq _ _) H2), (proj2 (Ascii.eqb_neq _ _) H3).
Qed.

Lemma like_tokens_escape s t : like_tokens "\" (like_escape s +:+ t) = (λ l, literals s ++ l) <$> like_tokens "\" t.
Proof.
  induction s as [|c s IH]; [change (like_escape EmptyString +:+ t) with t; by destruct (like_tokens "\" t)|].
  rewrite like_escape_cons, str_app_assoc, like_tokens_char, IH. by destruct (like_tokens "\" t).
Qed.

Lemma match_literals q l s :
  match_tokens (literals q ++ l) s = true ↔ ∃ m b, s = m +:+ b ∧ lower m = lower q ∧ match_tokens l b = true.
Proof.
  revert s. induction q as [|c q IH]; intros s; cbn [literals app].
  - split; [intros H; by exists "", s|]. intros (m & b & -> & Hm & H). destruct m; [done|]. simpl in Hm. done.
  - destruct s as [|d s]; cbn [match_tokens].
    + split; [done|]. intros (m & b & E & Hm & _). destruct m; [done|]. by rewrite str_app_cons in E.
    + rewrite andb_true_iff, Ascii.eqb_eq, IH. split.
      * intros [Hc (m & b & -> & Hm & H)]. exists (String d m), b. rewrite str_app_cons. split_and!; [done| |done].
        simpl. congruence.
      * intros (m & b & E & Hm & H). destruct m as [|e m]; [done|]. rewrite str_app_cons in E.
        injection E as -> ->. simpl in Hm. injection Hm as Hc Hm. split; [done|]. by exists m, b.
Qed.

Lemma match_any l s : match_tokens (AnyText :: l) s = true ↔ ∃ a b, s = a +:+ b ∧ match_tokens l b = true.
Proof.
  cbn [match_tokens]. induction s as [|c s IH].
  - rewrite orb_false_r. split; [intros H; by exists "", ""|]. intros (a & b & E & H).
    destruct a; [|by rewrite str_app_cons in E]. by change ("" +:+ b) with b in E; subst b.
  - rewrite orb_true_iff, IH. split.
    + intros [H|(a & b & -> & H)]; [by exists "", (String c s)|]. by exists (String c a), b.
    + intros (a & b & E & H). destruct a as [|d a]; [left; by change ("" +:+ b) with b in E; subst b|].
      rewrite str_app_cons in E. injection E as -> ->. right. by exists a, b.
Qed.

(** The escaped pattern finds exactly the texts that contain the query, whatever
    special characters it has. *)
Lemma like_pattern_contains q s : like "\" (like_pattern q) s = true ↔ contains_nocase q s.
Proof.
  unfold like, like_pattern.
  change (like_tokens "\" (String "%" (like_escape q +:+ "%"))) with
    (cons AnyText <$> like_tokens "\" (like_escape q +:+ "%")).
  rewrite like_tokens_escape. change (like_tokens "\" "%") with (Some [AnyText]). cbn [fmap option_fmap option_map].
  rewrite match_any. split.
  - intros (a & b & -> & H). apply match_literals in H as (m & c & -> & Hm & _). by exists a, m, c.
  - intros (a & m & b & -> & Hm). exists a, (m +:+ b). split; [done|]. apply match_literals. exists m, b.
    split_and!; [done..|]. apply match_any. exists b, "". by rewrite str_app_nil_r.
Qed.
