(* ===== verification/JsonText.v ===== *)
(** * JsonText: the texts that requests are identified by

    [json.dumps(value, ensure_ascii=False, sort_keys=True, separators=(",", ":"))]
    on the values that fingerprints are taken of: nothing, integers, texts, lists and
    dictionaries with distinct keys.  Used by context/conversation.py and
    context/context_plans.py. *)

From Stdlib Require Import ZArith Lia Ascii String.
From stdpp Require Import base tactics list sorting strings pretty.
From S2P Require Import Prelude Hashing.

Local Open Scope Z_scope.

Inductive plain :=
| PNone
| PInt (n : Z)
| PStr (s : string)
| PList (l : list plain)
| PDict (fields : list (string * plain)).

(** Escapes of a JSON string: quote, backslash, and the control characters. *)
Definition json_char (c : ascii) : string :=
  if Ascii.eqb c "\" then "\\"
  else if code c =? 34 then String "\" (String c EmptyString)
  else if code c =? 10 then "\n" else if code c =? 13 then "\r" else if code c =? 9 then "\t"
  else if code c =? 8 then "\b" else if code c =? 12 then "\f"
  else if code c <? 32 then "\u00" +:+ hex [code c]
  else String c EmptyString.

Fixpoint json_chars (s : string) : string :=
  match s with EmptyString => EmptyString | String c s' => json_char c +:+ json_chars s' end.

Definition quote : string := String (ascii_of_N 34) EmptyString.
Definition json_string (s : string) : string := quote +:+ json_chars s +:+ quote.

Definition key_le (a b : string * string) : Prop := String.leb a.1 b.1 = true.
#[export] Instance key_le_dec : RelDecision key_le.
Proof. intros a b. unfold key_le. apply _. Defined.

Fixpoint dumps (v : plain) : string :=
  match v with
  | PNone => "null"
  | PInt n => pretty n
  | PStr s => json_string s
  | PList l => "[" +:+ String.concat "," (dumps <$> l) +:+ "]"
  | PDict fields =>
      "{" +:+ String.concat "," ((λ f, json_string f.1 +:+ ":" +:+ f.2)
                            <$> merge_sort key_le ((λ f, (f.1, dumps f.2)) <$> fields)) +:+ "}"
  end.

(** [hashlib.sha256(text.encode("utf-8")).hexdigest()] of that text. *)
Definition fingerprint (v : plain) : string := sha256_hex (dumps v).

Example dumps_sorted :
  dumps (PDict [("b", PList [PInt (-3); PNone]); ("a", PStr ("x" +:+ quote +:+ "\"))])%string
  = ("{" +:+ quote +:+ "a" +:+ quote +:+ ":" +:+ quote +:+ "x\" +:+ quote +:+ "\\" +:+ quote +:+
     "," +:+ quote +:+ "b" +:+ quote +:+ ":[-3,null]}")%string.
Proof. vm_compute. reflexivity. Qed.
