(* ===== verification/Conversation.v ===== *)
(** * Conversation: append-only dialogue summaries

    Models src/openkapsel/context/conversation.py.  The three tables are part of the
    context database; a function of this module runs inside a transaction of its
    caller, so it returns the new tables or raises, and the caller keeps the old ones.
    The clock and the random characters of a nonce are arguments.  A receipt is the
    record that the code stores as JSON. *)

From Stdlib Require Import ZArith Lia Ascii String.
From stdpp Require Import base tactics list sorting gmap strings pretty.
From S2P Require Import Prelude Calendar Hashing JsonText Sql.

Local Open Scope Z_scope.

Definition MAX_CONVERSATION_CONTENT_CHARS : Z := 1000.
Definition MAX_CONVERSATION_SUMMARY_CHARS : Z := 8192.
Definition MAX_CONVERSATION_QUERY_LIMIT : nat := 100.
Definition DEFAULT_RECENT_CONVERSATION_COUNT : Z := 2.
Definition MAX_RECENT_CONVERSATION_PAGES : Z := 10.
Definition CONVERSATION_SUMMARY_PROMPT_AFTER : Z := 40.
Definition CONVERSATION_SUMMARY_REQUIRED_AFTER : Z := 49.
Definition MAX_CONVERSATION_CREATE_REQUESTS : Z := 100000.

(** ** Rows *)

Inductive role := user | ai | summary.
#[export] Instance role_eq_dec : EqDecision role.
Proof. solve_decision. Defined.

(** [role in CONVERSATION_ROLES]: membership in a tuple compares, it does not hash. *)
Definition role_of (v : json) : option role :=
  match v with
  | JStr s =>
      if String.eqb s "user" then Some user else if String.eqb s "ai" then Some ai
      else if String.eqb s "summary" then Some summary else None
  | _ => None
  end.
Definition role_text (r : role) : string :=
  match r with user => "user" | ai => "ai" | summary => "summary" end.

Record conversation := { cv_id : Z; cv_created : Z; cv_nonce : string }.

Record centry := {
  ce_conversation : Z; sub_id : Z; ce_created : Z; ce_role : role; ce_content : string }.

(** [{"role": ..., "content": ...}] *)
Record item := { i_role : role; i_content : string }.

Record summary_status := {
  user_ai_since_summary : Z;
  recommended : bool;
  required_before_next_user_ai : bool;
  source_start_sub_id : option Z;
  source_end_sub_id : option Z;
  instruction : option string }.

(** What [create_conversation] returns and, for a request id, stores. *)
Record creation := {
  cr_conversation : Z; cr_nonce : string; cr_entries : list centry; cr_status : summary_status;
  cr_request : option string; cr_replayed : option bool }.

Record create_request := { cq_fingerprint : string; cq_response : creation }.

Record cstore := {
  conversations : list conversation;
  conversation_entries : list centry;
  conversation_create_requests : gmap (string * string) create_request }.

Definition empty_cstore : cstore :=
  {| conversations := []; conversation_entries := []; conversation_create_requests := ∅ |}.

(** ** Validation *)

Definition sqlite_max : Z := 2 ^ 63 - 1.

(** [_CONVERSATION_ALPHABET] *)
Definition alphabet : string := "abcdefghijklmnopqrstuvwxyzABCDEFGHIJKLMNOPQRSTUVWXYZ0123456789".
Definition choice (n : Z) : ascii := default "a"%char (String.get (Z.to_nat (n mod 62)) alphabet).

(** The four draws are those of [secrets.choice]. *)
Definition generate_writer_nonce (a b c d : Z) : string :=
  String "@" (String (choice a) (String (choice b) (String (choice c) (String (choice d) "@")))).

(** [^@[A-Za-z0-9]{4}@$] *)
Definition nonce_pattern (s : string) : bool :=
  match s with
  | String x (String a (String b (String c (String d (String y EmptyString))))) =>
      Ascii.eqb x "@" && is_alnum a && is_alnum b && is_alnum c && is_alnum d && Ascii.eqb y "@"
  | _ => false
  end.

Definition validate_writer_nonce (value : json) : res exn string :=
  match value with
  | JStr s =>
      if nonce_pattern s then Ok s
      else Err (ValueError "writer_nonce must use exactly @xxxx@ with four ASCII letters or digits")
  | _ => Err (ValueError "writer_nonce must use exactly @xxxx@ with four ASCII letters or digits")
  end.

Definition validate_conversation_id (value : json) : res exn Z :=
  match value with
  | JInt n =>
      raise! (ValueError "conversation_id must be a non-negative integer") when n <? 0;
      raise! (ValueError "conversation_id exceeds the database ID range") when sqlite_max <? n;
      Ok n
  | _ => Err (ValueError "conversation_id must be a non-negative integer")
  end.

Definition next_conversation_id (s : cstore) : Z :=
  match max_of cv_id s.(conversations) with None => 0 | Some m => m + 1 end.

(** [set(item) != {"role", "content"}] *)
Definition only_role_content (fields : list (string * json)) : bool :=
  forallb (λ f, String.eqb f.1 "role" || String.eqb f.1 "content") fields &&
  match obj_get "role" fields, obj_get "content" fields with Some _, Some _ => true | _, _ => false end.

Definition normalize_entry (index : nat) (v : json) : res exn item :=
  match v with
  | JObj fields =>
      raise! (ValueError ("conversation entry " +:+ pretty index +:+ " must contain only role and content"))
        when negb (only_role_content fields);
      match role_of (obj_get_or "role" JNull fields) with
      | None => Err (ValueError "conversation role must be user, ai, or summary")
      | Some r =>
          match obj_get_or "content" JNull fields with
          | JStr content =>
              raise! (ValueError "conversation content must be a non-empty string") when is_empty (strip content);
              let maximum := if bool_decide (r = summary) then MAX_CONVERSATION_SUMMARY_CHARS
                             else MAX_CONVERSATION_CONTENT_CHARS in
              raise! (ValueError ("conversation " +:+ role_text r +:+ " content exceeds " +:+ pretty maximum
                        +:+ " characters")) when maximum <? slen content;
              Ok {| i_role := r; i_content := content |}
          | _ => Err (ValueError "conversation content must be a non-empty string")
          end
      end
  | _ => Err (ValueError ("conversation entry " +:+ pretty index +:+ " must contain only role and content"))
  end.

Fixpoint normalize_each (index : nat) (l : list json) : res exn (list item) :=
  match l with
  | [] => Ok []
  | v :: l' => let! i := normalize_entry index v in let! rest := normalize_each (S index) l' in Ok (i :: rest)
  end.

Definition starts_with_pair (l : list item) : bool :=
  match l with
  | a :: b :: _ => bool_decide (a.(i_role) = user) && bool_decide (b.(i_role) = ai)
  | _ => false
  end.

Definition normalize_entries (entries : json) (minimum : nat) (require_initial_pair require_ai : bool)
    : res exn (list item) :=
  let too_few := ValueError ("conversation entries must contain at least " +:+ pretty minimum +:+ " item(s)") in
  match entries with
  | JList l =>
      raise! too_few when (length l <? minimum)%nat;
      raise! (ValueError ("conversation entries cannot contain more than "
                +:+ pretty MAX_CONVERSATION_QUERY_LIMIT +:+ " items"))
        when (MAX_CONVERSATION_QUERY_LIMIT <? length l)%nat;
      let! normalized := normalize_each 0 l in
      raise! (ValueError "conversation creation requires first entry role=user and second entry role=ai")
        when require_initial_pair && negb (starts_with_pair normalized);
      raise! (ValueError "completing a plan requires at least one role=ai conversation entry")
        when require_ai && negb (existsb (λ i, bool_decide (i.(i_role) = ai)) normalized);
      Ok normalized
  | _ => Err too_few
  end.

(** ** Reading *)

Definition of_conversation (cid : Z) (e : centry) : bool := e.(ce_conversation) =? cid.
Definition ordinary (e : centry) : bool := negb (bool_decide (e.(ce_role) = summary)).

Definition find_conversation (cid : Z) (s : cstore) : option conversation :=
  fetchone (λ c, c.(cv_id) =? cid) s.(conversations).

Definition verify_writer_nonce (conversation_id writer_nonce : json) (s : cstore) : res exn Z :=
  let! cid := validate_conversation_id conversation_id in
  let! nonce := validate_writer_nonce writer_nonce in
  match find_conversation cid s with
  | None => Err (KeyError "conversation does not exist")
  | Some c =>
      raise! (PermissionError "conversation writer_nonce does not match")
        when negb (String.eqb c.(cv_nonce) nonce);
      Ok cid
  end.

(** [COALESCE(MAX(sub_id), 0)] *)
Definition last_sub_id (cid : Z) (s : cstore) : Z :=
  default 0 (max_of sub_id (fetchall (of_conversation cid) s.(conversation_entries))).
Definition latest_summary (cid : Z) (s : cstore) : option Z :=
  max_of sub_id (fetchall (λ e, of_conversation cid e && negb (ordinary e)) s.(conversation_entries)).

Definition optional_text (o : option Z) : string := match o with Some n => pretty n | None => "None" end.

Definition conversation_summary_status (cid : Z) (s : cstore) : summary_status :=
  let last_id := last_sub_id cid s in
  let latest_summary_id := latest_summary cid s in
  let ordinary_count :=
    count (λ e, of_conversation cid e && ordinary e && (default 0 latest_summary_id <? e.(sub_id)))
      s.(conversation_entries) in
  let recommended_ := CONVERSATION_SUMMARY_PROMPT_AFTER <=? ordinary_count in
  let required := CONVERSATION_SUMMARY_REQUIRED_AFTER <=? ordinary_count in
  let source_start := match latest_summary_id with
                      | Some m => Some m
                      | None => if last_id =? 0 then None else Some 1
                      end in
  {| user_ai_since_summary := ordinary_count;
     recommended := recommended_;
     required_before_next_user_ai := required;
     source_start_sub_id := source_start;
     source_end_sub_id := if last_id =? 0 then None else Some last_id;
     instruction :=
       if recommended_ then
         Some ((if required then "A role=summary entry is required before another user/ai entry. "
                else "Create a role=summary entry soon. ")
               +:+ "Compress Conversation entries sub_id " +:+ optional_text source_start +:+ " through "
               +:+ pretty last_id +:+ ", preserving important context.")%string
       else None |}.

(** ** Appending *)

(** INSERT INTO conversation_entries, with its primary and foreign key. *)
Definition insert_entry (e : centry) (s : cstore) : res exn cstore :=
  raise! IntegrityError when match find_conversation e.(ce_conversation) s with None => true | Some _ => false end;
  raise! IntegrityError when
    existsb (λ x, of_conversation e.(ce_conversation) x && (x.(sub_id) =? e.(sub_id))) s.(conversation_entries);
  Ok {| conversations := s.(conversations); conversation_entries := s.(conversation_entries) ++ [e];
        conversation_create_requests := s.(conversation_create_requests) |}.

(** The loop of [_append_locked]. *)
Fixpoint append_loop (cid now : Z) (items : list item) (last_id ordinary_count : Z) (latest : option Z)
    (created : list centry) (s : cstore) : res exn (list centry * cstore) :=
  match items with
  | [] => Ok (created, s)
  | i :: items' =>
      let is_summary := bool_decide (i.(i_role) = summary) in
      raise! (ValueError ("conversation summary is required before another user/ai entry after "
                +:+ pretty CONVERSATION_SUMMARY_REQUIRED_AFTER +:+ " user/ai entries; summarize sub_id "
                +:+ pretty (default 1 latest) +:+ " through " +:+ pretty last_id))
        when negb is_summary && (CONVERSATION_SUMMARY_REQUIRED_AFTER <=? ordinary_count);
      let sub := last_id + 1 in
      let e := {| ce_conversation := cid; sub_id := sub; ce_created := now; ce_role := i.(i_role);
                  ce_content := i.(i_content) |} in
      let! s' := insert_entry e s in
      append_loop cid now items' sub (if is_summary then 0 else ordinary_count + 1)
        (if is_summary then Some sub else latest) (created ++ [e]) s'
  end.

Definition _append_locked (cid now : Z) (items : list item) (s : cstore) : res exn (list centry * cstore) :=
  let state := conversation_summary_status cid s in
  let latest := match state.(source_start_sub_id) with
                | Some n => if n =? 1 then None else Some n
                | None => None
                end in
  append_loop cid now items (last_sub_id cid s) state.(user_ai_since_summary) latest [] s.

Definition append_conversation (conversation_id writer_nonce entries : json) (require_ai : bool) (now : Z)
    (s : cstore) : res exn (list centry * cstore) :=
  let! cid := verify_writer_nonce conversation_id writer_nonce s in
  let! normalized := normalize_entries entries 1 false require_ai in
  _append_locked cid now normalized s.

(** ** Creating *)

Definition request_char (c : ascii) : bool :=
  is_alnum c || Ascii.eqb c "." || Ascii.eqb c "_" || Ascii.eqb c ":" || Ascii.eqb c "-".

(** [[A-Za-z0-9][A-Za-z0-9._:-]{0,n}] *)
Definition id_pattern (n : Z) (s : string) : bool :=
  match s with
  | EmptyString => false
  | String c s' => is_alnum c && str_forall request_char s' && (slen s' <=? n)
  end.

Definition item_plain (i : item) : plain :=
  PDict [("role", PStr (role_text i.(i_role))); ("content", PStr i.(i_content))]%string.

Definition creation_fingerprint (cid : Z) (items : list item) : string :=
  fingerprint (PDict [("conversation_id", PInt cid); ("entries", PList (item_plain <$> items))]%string).

(** The insertions of a new conversation. *)
Definition insert_conversation (cid now : Z) (nonce : string) (items : list item) (s : cstore)
    : res exn (creation * cstore) :=
  raise! (ValueError "conversation_id is not the current next_conversation_id. Call conversation_query to retrieve and review existing Conversation history, then use the returned next_conversation_id for conversation_create. Do not retry with a guessed id.")
    when negb (cid =? next_conversation_id s);
  let s1 := {| conversations := s.(conversations) ++ [{| cv_id := cid; cv_created := now; cv_nonce := nonce |}];
               conversation_entries := s.(conversation_entries);
               conversation_create_requests := s.(conversation_create_requests) |} in
  let! (created, s2) := _append_locked cid now items s1 in
  Ok ({| cr_conversation := cid; cr_nonce := nonce; cr_entries := created;
         cr_status := conversation_summary_status cid s2; cr_request := None; cr_replayed := None |}, s2).

Definition with_request (rid : string) (replayed : bool) (c : creation) : creation :=
  {| cr_conversation := c.(cr_conversation); cr_nonce := c.(cr_nonce); cr_entries := c.(cr_entries);
     cr_status := c.(cr_status); cr_request := Some rid; cr_replayed := Some replayed |}.

Definition put_request (key : string * string) (q : create_request) (s : cstore) : cstore :=
  {| conversations := s.(conversations); conversation_entries := s.(conversation_entries);
     conversation_create_requests := <[key := q]> s.(conversation_create_requests) |}.

Definition create_conversation (conversation_id entries request_id : json) (actor_id : option string)
    (now : Z) (nonce : string) (s : cstore) : res exn (creation * cstore) :=
  let! cid := validate_conversation_id conversation_id in
  let! normalized := normalize_entries entries 2 true false in
  match request_id with
  | JNull => insert_conversation cid now nonce normalized s
  | JStr rid =>
      raise! (ValueError "request_id must be 1-128 ASCII letters, digits, dots, underscores, colons or hyphens, starting with a letter or digit")
        when negb (id_pattern 127 rid);
      match actor_id with
      | None | Some EmptyString => Err (ValueError "request_id requires a stable actor_id")
      | Some actor =>
          let fp := creation_fingerprint cid normalized in
          match s.(conversation_create_requests) !! (actor, rid) with
          | Some q =>
              raise! (RequestConflict "context_request_conflict" "request_id was already used with a different conversation request")
                when negb (String.eqb q.(cq_fingerprint) fp);
              raise! (RequestConflict "context_request_gone" "original conversation is missing; request_id cannot create a replacement")
                when match find_conversation cid s with
                     | Some c => negb (String.eqb c.(cv_nonce) q.(cq_response).(cr_nonce))
                     | None => true
                     end;
              Ok (with_request rid true q.(cq_response), s)
          | None =>
              raise! (RequestConflict "context_request_limit" "workspace conversation request ledger is full")
                when MAX_CONVERSATION_CREATE_REQUESTS <=? Z.of_nat (size s.(conversation_create_requests));
              let! (c, s') := insert_conversation cid now nonce normalized s in
              let c' := with_request rid false c in
              Ok (c', put_request (actor, rid) {| cq_fingerprint := fp; cq_response := c' |} s')
          end
      end
  | _ => Err (ValueError "request_id must be 1-128 ASCII letters, digits, dots, underscores, colons or hyphens, starting with a letter or digit")
  end.

(** ** Listing *)

(** [created_at.strftime("%Y-%m-%d")] and ["%H:%M:%S"] or ["%H:%M"] of the stored
    timestamp. *)
Definition date_text (t : Z) : string := String.substring 0 10 (iso_utc t).
Definition time_text (seconds : bool) (t : Z) : string := String.substring 11 (if seconds then 8 else 5) (iso_utc t).

Record query_entry := { q_sub_id : Z; q_time : string; q_role : role; q_content : string }.
Record query_group := { q_conversation : Z; q_date : string; q_entries : list query_entry }.

Definition _format_query_entry (conversation_date : string) (seconds : bool) (e : centry) : query_entry :=
  let time := time_text seconds e.(ce_created) in
  {| q_sub_id := e.(sub_id);
     q_time := if String.eqb (date_text e.(ce_created)) conversation_date then time
               else (date_text e.(ce_created) +:+ " " +:+ time)%string;
     q_role := e.(ce_role); q_content := e.(ce_content) |}.

Definition _conversation_group (cid updated_at : Z) (rows : list centry) (seconds : bool) : query_group :=
  {| q_conversation := cid; q_date := date_text updated_at;
     q_entries := _format_query_entry (date_text updated_at) seconds <$> rows |}.

(** [c.id, MAX(e.created_at) ... GROUP BY c.id], the conversations with entries. *)
Definition conversation_rows (s : cstore) : list (Z * Z) :=
  omap (λ c, (λ m, (c.(cv_id), m)) <$> max_of ce_created (fetchall (of_conversation c.(cv_id)) s.(conversation_entries)))
    s.(conversations).

(** [ORDER BY updated_at DESC, c.id DESC] *)
Definition recent_le (a b : Z * Z) : Prop := b.2 < a.2 ∨ (a.2 = b.2 ∧ b.1 ≤ a.1).
#[export] Instance recent_le_dec : RelDecision recent_le.
Proof. intros a b. unfold recent_le. apply _. Defined.

(** The newest summary of a conversation and everything after it. *)
Definition recent_entries (cid : Z) (s : cstore) : list centry :=
  fetchall (λ e, of_conversation cid e && (default 1 (latest_summary cid s) <=? e.(sub_id)))
    s.(conversation_entries).

Definition bad_sub_id (v : option Z) : bool := match v with Some n => n <? 1 | None => false end.

Definition query_conversations (conversation_id start_sub_id end_sub_id : option Z) (page : Z) (s : cstore)
    : res exn (list query_group * Z * Z) :=
  raise! (ValueError ("conversation page must be between 1 and " +:+ pretty MAX_RECENT_CONVERSATION_PAGES))
    when negb ((1 <=? page) && (page <=? MAX_RECENT_CONVERSATION_PAGES));
  let! cid := match conversation_id with
              | Some n =>
                  let! n := validate_conversation_id (JInt n) in
                  raise! (ValueError "page is only available without conversation_id") when negb (page =? 1);
                  Ok (Some n)
              | None =>
                  raise! (ValueError "sub_id ranges require conversation_id")
                    when bool_decide (is_Some start_sub_id) || bool_decide (is_Some end_sub_id);
                  Ok None
              end in
  raise! (ValueError "start_sub_id must be a positive integer") when bad_sub_id start_sub_id;
  raise! (ValueError "end_sub_id must be a positive integer") when bad_sub_id end_sub_id;
  raise! (ValueError "start_sub_id cannot exceed end_sub_id")
    when match start_sub_id, end_sub_id with Some a, Some b => b <? a | _, _ => false end;
  match cid with
  | None =>
      let rows := conversation_rows s in
      let n := Z.to_nat DEFAULT_RECENT_CONVERSATION_COUNT in
      let shown := take n (drop (Z.to_nat (page - 1) * n) (merge_sort recent_le rows)) in
      Ok ((λ r, _conversation_group r.1 r.2 (recent_entries r.1 s) false) <$> shown,
          Z.of_nat (length rows), next_conversation_id s)
  | Some cid =>
      let rows := fetchall (λ e, of_conversation cid e
                     && match start_sub_id with Some a => a <=? e.(sub_id) | None => true end
                     && match end_sub_id with Some b => e.(sub_id) <=? b | None => true end)
                    s.(conversation_entries) in
      let shown := drop (length rows - MAX_CONVERSATION_QUERY_LIMIT) rows in
      let seconds := bool_decide (is_Some start_sub_id) || bool_decide (is_Some end_sub_id) in
      match max_of ce_created (fetchall (of_conversation cid) s.(conversation_entries)) with
      | None => Ok ([], Z.of_nat (length rows), next_conversation_id s)
      | Some updated => Ok ([_conversation_group cid updated shown seconds], Z.of_nat (length rows), next_conversation_id s)
      end
  end.

(** ** The counter of the summary rule *)

(** The entries of a conversation, in the order they were appended. *)
Definition entries_of (cid : Z) (s : cstore) : list centry := fetchall (of_conversation cid) s.(conversation_entries).

(** User and AI entries since the newest summary, counted along a list. *)
Definition since_from (c : Z) (l : list role) : Z :=
  foldl (λ c r, if bool_decide (r = summary) then 0 else c + 1) c l.
Definition since (l : list centry) : Z := since_from 0 (ce_role <$> l).

(** A list of entries may follow [c] entries without a summary. *)
Fixpoint fits (c : Z) (l : list role) : bool :=
  match l with
  | [] => true
  | r :: l' =>
      if bool_decide (r = summary) then fits 0 l'
      else (c <? CONVERSATION_SUMMARY_REQUIRED_AFTER) && fits (c + 1) l'
  end.

(** Sub ids count from one. *)
Definition dense (l : list centry) : Prop := sub_id <$> l = seqZ 1 (Z.of_nat (length l)).

Lemma dense_snoc l e : dense (l ++ [e]) ↔ dense l ∧ e.(sub_id) = Z.of_nat (length l) + 1.
Proof.
  unfold dense. rewrite length_app, fmap_app. cbn [length fmap list_fmap].
  replace (Z.of_nat (length l + 1)) with (Z.of_nat (length l) + 1) by lia.
  rewrite seqZ_app by lia.
  replace (seqZ (1 + Z.of_nat (length l)) 1) with [Z.of_nat (length l) + 1] by (rewrite seqZ_cons, seqZ_nil by lia; f_equal; lia). split.
  - intros H. apply app_inj_1 in H as [H1 H2]; [|by rewrite length_fmap, length_seqZ, Nat2Z.id].
    split; [done|]. by injection H2.
  - by intros [-> ->].
Qed.

Lemma dense_bound l e : dense l → e ∈ l → 1 ≤ e.(sub_id) ≤ Z.of_nat (length l).
Proof.
  intros D He. assert (e.(sub_id) ∈ seqZ 1 (Z.of_nat (length l))) as H by (rewrite <- D; by apply list_elem_of_fmap_2).
  apply elem_of_seqZ in H. lia.
Qed.

Lemma max_of_snoc {R} (f : R → Z) t r : (∀ x, x ∈ t → f x ≤ f r) → max_of f (t ++ [r]) = Some (f r).
Proof.
  intros H. pose proof (max_of_spec f (t ++ [r])) as S. destruct (max_of f (t ++ [r])) as [m|].
  - destruct S as [(x & Hx & <-) Hle]. f_equal. specialize (Hle r ltac:(set_solver)).
    apply elem_of_app in Hx as [Hx|Hx]; [specialize (H x Hx); lia|]. apply list_elem_of_singleton in Hx. by subst x.
  - by apply app_nil in S as [_ ?].
Qed.

Lemma dense_last l : dense l → default 0 (max_of sub_id l) = Z.of_nat (length l).
Proof.
  destruct l as [|e l] using rev_ind; [done|]. intros [D E]%dense_snoc.
  rewrite max_of_snoc; [cbn; rewrite E, length_app; cbn; lia|].
  intros x Hx%(dense_bound _ _ D). lia.
Qed.

Lemma since_snoc l e : since (l ++ [e]) = if ordinary e then since l + 1 else 0.
Proof.
  unfold since, since_from, ordinary. rewrite fmap_app, foldl_app. cbn. by destruct (bool_decide _).
Qed.

Lemma count_snoc {R} (p : R → bool) t r : count p (t ++ [r]) = count p t + (if p r then 1 else 0).
Proof.
  unfold count. rewrite fetchall_app, length_app. unfold fetchall at 2. cbn. destruct (p r); cbn; lia.
Qed.

(** On dense entries the two queries of the summary status count what [since] counts. *)
Lemma since_count l :
  dense l → count (λ e, ordinary e && (default 0 (max_of sub_id (fetchall (λ e, negb (ordinary e)) l)) <? e.(sub_id))) l
    = since l.
Proof.
  induction l as [|e l IH] using rev_ind; [done|]. intros [D E]%dense_snoc. specialize (IH D).
  rewrite since_snoc, count_snoc, fetchall_app. destruct (ordinary e) eqn:O; cbn [andb].
  - unfold fetchall at 2 4. cbn [List.filter]. rewrite O. cbn [negb]. rewrite app_nil_r, IH.
    pose proof (max_of_spec sub_id (fetchall (λ e, negb (ordinary e)) l)) as S.
    destruct (max_of _ _) as [m|]; cbn.
    + destruct S as [(x & [Hx _]%elem_fetchall & <-) _]. pose proof (dense_bound _ _ D Hx).
      destruct (Z.ltb_spec (sub_id x) (sub_id e)); lia.
    + destruct (Z.ltb_spec 0 (sub_id e)); lia.
  - assert (fetchall (λ e, negb (ordinary e)) [e] = [e]) as -> by (unfold fetchall; cbn; by rewrite O).
    rewrite max_of_snoc by (intros x [Hx _]%elem_fetchall; pose proof (dense_bound _ _ D Hx); lia).
    cbn. rewrite Z.add_0_r. unfold count. rewrite fetchall_none; [done|].
    intros x Hx. pose proof (dense_bound _ _ D Hx). apply andb_false_iff. right. lia.
Qed.

Lemma fits_app c l l' : fits c (l ++ l') = fits c l && fits (since_from c l) l'.
Proof.
  revert c. induction l as [|r l IH]; intros c; [done|]. cbn [fits app since_from foldl].
  destruct (bool_decide (r = summary)); [by rewrite IH|]. by rewrite IH, andb_assoc.
Qed.

Lemma fits_ordinary c l : Forall (λ r, r ≠ summary) l → fits c l = true → l = [] ∨ c + Z.of_nat (length l) ≤ 49.
Proof.
  revert c. induction l as [|r l IH]; intros c F H; [by left|]. apply Forall_cons in F as [Fr F]. right.
  cbn [fits] in H. rewrite bool_decide_false in H by done. unfold CONVERSATION_SUMMARY_REQUIRED_AFTER in H.
  apply andb_true_iff in H as [Hc H]. destruct (IH _ F H) as [->|]; cbn [length]; lia.
Qed.

Lemma since_nonneg c l : 0 ≤ c → 0 ≤ since_from c l.
Proof.
  unfold since_from. revert c. induction l as [|r l IH]; intros c Hc; [done|]. cbn. apply IH.
  destruct (bool_decide _); lia.
Qed.

(** Fifty entries in a row contain a summary. *)
Lemma fits_window l a m b :
  fits 0 l = true → l = a ++ m ++ b → Forall (λ r, r ≠ summary) m → (length m ≤ 49)%nat.
Proof.
  intros H -> F. rewrite !fits_app in H. bools. destruct H as [_ [H _]].
  pose proof (since_nonneg 0 a ltac:(lia)). apply fits_ordinary in H as [->|]; [cbn; lia|lia|done].
Qed.

(** ** What the append loop does *)

Fixpoint build (cid now next : Z) (items : list item) : list centry :=
  match items with
  | [] => []
  | i :: items' =>
      {| ce_conversation := cid; sub_id := next; ce_created := now; ce_role := i.(i_role); ce_content := i.(i_content) |}
        :: build cid now (next + 1) items'
  end.

Definition add_entries (l : list centry) (s : cstore) : cstore :=
  {| conversations := s.(conversations); conversation_entries := s.(conversation_entries) ++ l;
     conversation_create_requests := s.(conversation_create_requests) |}.

Lemma add_entries_nil s : add_entries [] s = s.
Proof. unfold add_entries. rewrite app_nil_r. by destruct s. Qed.

Lemma add_entries_app l l' s : add_entries l' (add_entries l s) = add_entries (l ++ l') s.
Proof. unfold add_entries. cbn. by rewrite app_assoc. Qed.

Lemma build_roles cid now n items : ce_role <$> build cid now n items = i_role <$> items.
Proof. revert n. induction items as [|i items IH]; intros n; cbn; [done|]. by rewrite <- (IH (n + 1)). Qed.

Lemma build_subs cid now n items : sub_id <$> build cid now n items = seqZ n (Z.of_nat (length items)).
Proof.
  revert n. induction items as [|i items IH]; intros n; cbn [build fmap list_fmap length]; [done|].
  rewrite seqZ_cons by lia. cbn. f_equal.
  rewrite IH. unfold Z.succ. f_equal. lia.
Qed.

Lemma build_of cid now n items e : e ∈ build cid now n items → e.(ce_conversation) = cid ∧
  ∃ i, i ∈ items ∧ e.(ce_role) = i.(i_role) ∧ e.(ce_content) = i.(i_content).
Proof.
  revert n. induction items as [|i items IH]; intros n; cbn; [set_solver|].
  intros [->|H]%elem_of_cons; [split; [done|]; exists i; set_solver|].
  destruct (IH _ H) as [? (j & ? & ?)]. split; [done|]. exists j. set_solver.
Qed.

Lemma append_loop_Ok cid now items last cnt latest created s created' s' :
  append_loop cid now items last cnt latest created s = Ok (created', s') →
  created' = created ++ build cid now (last + 1) items ∧ s' = add_entries (build cid now (last + 1) items) s ∧
  fits cnt (i_role <$> items) = true.
Proof.
  revert last cnt latest created s. induction items as [|i items IH]; intros last cnt latest created s; cbn [append_loop].
  { intros [= <- <-]. cbn. by rewrite app_nil_r, add_entries_nil. }
  destruct (negb _ && _) eqn:E; [done|]. unfold insert_entry.
  destruct (find_conversation _ s); [|done]. destruct (existsb _ _); [done|].
  intros (-> & -> & F)%IH. cbn [build fmap list_fmap]. rewrite <- app_assoc. split_and!; [done| |].
  - unfold add_entries. cbn. by rewrite <- app_assoc.
  - cbn [fits]. destruct (bool_decide (i_role i = summary)); [done|]. cbn in E. rewrite F.
    apply Z.leb_gt in E. by rewrite (proj2 (Z.ltb_lt _ _) E).
Qed.

Lemma append_loop_fits cid now items last cnt latest created s :
  find_conversation cid s ≠ None → (∀ e, e ∈ entries_of cid s → e.(sub_id) ≤ last) →
  fits cnt (i_role <$> items) = true →
  append_loop cid now items last cnt latest created s =
    Ok (created ++ build cid now (last + 1) items, add_entries (build cid now (last + 1) items) s).
Proof.
  revert last cnt latest created s. induction items as [|i items IH]; intros last cnt latest created s Hc Hl Hf; cbn [append_loop build].
  { by rewrite app_nil_r, add_entries_nil. }
  cbn [fits fmap list_fmap] in Hf.
  assert (negb (bool_decide (i_role i = summary)) && (CONVERSATION_SUMMARY_REQUIRED_AFTER <=? cnt) = false ∧
    fits (if bool_decide (i_role i = summary) then 0 else cnt + 1) (i_role <$> items) = true) as [-> Hf'].
  { destruct (bool_decide _); [done|]. cbn. apply andb_true_iff in Hf as [Hf ?]. split; [|done]. lia. }
  unfold insert_entry. cbn [ce_conversation]. destruct (find_conversation cid s) eqn:Ec; [|done]. cbn [ce_conversation sub_id].
  destruct (existsb _ _) eqn:Ex.
  { apply existsb_exists in Ex as (x & Hx & [Hx1 Hx2]%andb_true_iff). rewrite <- list_elem_of_In in Hx.
    specialize (Hl x). unfold entries_of in Hl. rewrite elem_fetchall in Hl. specialize (Hl (conj Hx Hx1)). lia. }
  rewrite IH; [|by rewrite <- Ec in Hc|..].
  - unfold add_entries. cbn. by rewrite <- !app_assoc.
  - intros e He. unfold entries_of in He. cbn in He. rewrite fetchall_app in He.
    apply elem_of_app in He as [He|He]; [specialize (Hl e He); lia|].
    apply elem_fetchall in He as [->%list_elem_of_singleton _]. cbn. lia.
  - done.
Qed.

(** ** The invariant of the tables *)

Definition text_fits (r : role) (content : string) : Prop :=
  strip content ≠ ""%string ∧
  slen content ≤ (if bool_decide (r = summary) then MAX_CONVERSATION_SUMMARY_CHARS
                  else MAX_CONVERSATION_CONTENT_CHARS).

Definition opening (l : list centry) : Prop :=
  ∃ a b rest, l = a :: b :: rest ∧ a.(ce_role) = user ∧ b.(ce_role) = ai.

(** The tables, possibly with conversations that have no entries yet. *)
Record ctables (s : cstore) : Prop := {
  ci_ids : cv_id <$> s.(conversations) = seqZ 0 (Z.of_nat (length s.(conversations)));
  ci_nonce : ∀ c, c ∈ s.(conversations) → nonce_pattern c.(cv_nonce) = true;
  ci_home : ∀ e, e ∈ s.(conversation_entries) → ∃ c, c ∈ s.(conversations) ∧ c.(cv_id) = e.(ce_conversation);
  ci_dense : ∀ cid, dense (entries_of cid s);
  ci_runs : ∀ cid, fits 0 (ce_role <$> entries_of cid s) = true;
  ci_text : ∀ e, e ∈ s.(conversation_entries) → text_fits e.(ce_role) e.(ce_content) }.

Definition cinv (s : cstore) : Prop :=
  ctables s ∧ ∀ c, c ∈ s.(conversations) → opening (entries_of c.(cv_id) s).

Lemma empty_cinv : cinv empty_cstore.
Proof. split; [split|]; cbn; try done; intros; set_solver. Qed.

Lemma entries_of_elem cid s e : e ∈ entries_of cid s ↔ e ∈ s.(conversation_entries) ∧ e.(ce_conversation) = cid.
Proof. unfold entries_of. rewrite elem_fetchall. unfold of_conversation. by rewrite Z.eqb_eq. Qed.

Lemma entries_of_add cid cid' l s :
  (∀ e, e ∈ l → e.(ce_conversation) = cid) →
  entries_of cid' (add_entries l s) = entries_of cid' s ++ (if cid =? cid' then l else []).
Proof.
  intros H. unfold entries_of, add_entries. cbn. rewrite fetchall_app. f_equal. unfold of_conversation.
  destruct (Z.eqb_spec cid cid') as [->|Hne].
  - apply fetchall_all. intros e He. rewrite (H e He). lia.
  - apply fetchall_none. intros e He. rewrite (H e He). lia.
Qed.

Lemma find_conversation_spec cid s :
  match find_conversation cid s with
  | Some c => c ∈ s.(conversations) ∧ c.(cv_id) = cid
  | None => ∀ c, c ∈ s.(conversations) → c.(cv_id) ≠ cid
  end.
Proof.
  unfold find_conversation. destruct (fetchone _ _) as [c|] eqn:E.
  - apply fetchone_Some in E as [? ?]. split; [done|lia].
  - intros c Hc. eapply fetchone_None in E; [|done]. cbn in E. lia.
Qed.

Lemma summary_status_since cid s :
  dense (entries_of cid s) → (conversation_summary_status cid s).(user_ai_since_summary) = since (entries_of cid s).
Proof.
  intros D. rewrite <- since_count by done. unfold conversation_summary_status, latest_summary. cbn.
  unfold entries_of, count, fetchall. generalize (conversation_entries s) as t. intros t.
  assert (∀ p q (l : list centry), List.filter p (List.filter q l) = List.filter (λ e, q e && p e) l) as F.
  { intros p q l. induction l as [|x l IH]; cbn; [done|]. destruct (q x); cbn; [destruct (p x); by rewrite IH|done]. }
  rewrite !F. do 2 f_equal. apply List.filter_ext. intros e. by rewrite andb_assoc.
Qed.

(** Appending keeps the invariant. *)
Lemma normalize_each_text n l items : normalize_each n l = Ok items →
  ∀ i, i ∈ items → text_fits i.(i_role) i.(i_content).
Proof.
  revert n items. induction l as [|v l IH]; intros n items; cbn [normalize_each]; [intros [= <-]; set_solver|].
  destruct (normalize_entry n v) as [i|] eqn:E; [|done]. destruct (normalize_each (S n) l) as [rest|] eqn:Er; [|done].
  intros [= <-] j [->|Hj]%elem_of_cons; [|by eapply IH].
  unfold normalize_entry in E. destruct v; try done. destruct (negb _); [done|].
  destruct (role_of _) as [r|]; [|done]. destruct (obj_get_or "content" JNull fields) as [| | | |c| |]; try done.
  destruct (is_empty (strip c)) eqn:Es; [done|]. destruct (_ <? _) eqn:El; [done|]. injection E as <-. cbn.
  split; [intros E; by rewrite E in Es|]. by apply Z.ltb_ge.
Qed.

Lemma normalize_entries_spec entries minimum pair want items :
  normalize_entries entries minimum pair want = Ok items →
  (minimum ≤ length items ≤ 100)%nat ∧ (pair = true → starts_with_pair items = true) ∧
  ∀ i, i ∈ items → text_fits i.(i_role) i.(i_content).
Proof.
  unfold normalize_entries. destruct entries as [| | | | |l|]; try done.
  destruct (length l <? minimum)%nat eqn:E1; [done|]. destruct (MAX_CONVERSATION_QUERY_LIMIT <? length l)%nat eqn:E2; [done|].
  destruct (normalize_each 0 l) as [its|] eqn:E; [|done]. destruct (pair && _) eqn:Ep; [done|].
  destruct (want && _); [done|]. intros [= <-].
  assert (length its = length l) as Hl.
  { clear -E. revert its E. generalize 0%nat. induction l as [|v l IH]; intros n its; cbn; [by intros [= <-]|].
    destruct (normalize_entry n v); [|done]. destruct (normalize_each (S n) l) eqn:E; [|done]. intros [= <-].
    cbn. f_equal. by eapply IH. }
  unfold MAX_CONVERSATION_QUERY_LIMIT in *. bools. split_and!; [lia..| |by eapply normalize_each_text].
  intros ->. by destruct Ep.
Qed.

Lemma append_locked_Ok cid now items s created s' :
  dense (entries_of cid s) → _append_locked cid now items s = Ok (created, s') →
  created = build cid now (Z.of_nat (length (entries_of cid s)) + 1) items ∧ s' = add_entries created s ∧
  fits (since (entries_of cid s)) (i_role <$> items) = true.
Proof.
  intros D H. unfold _append_locked in H. rewrite summary_status_since in H by done.
  unfold last_sub_id in H. fold (entries_of cid s) in H. rewrite dense_last in H by done.
  by apply append_loop_Ok in H as (-> & -> & F).
Qed.

(** What may be added to a conversation that exists or is being created. *)
Lemma add_built_tables cid now items s :
  ctables s → (∃ c, c ∈ s.(conversations) ∧ c.(cv_id) = cid) →
  (∀ i, i ∈ items → text_fits i.(i_role) i.(i_content)) →
  fits (since (entries_of cid s)) (i_role <$> items) = true →
  ctables (add_entries (build cid now (Z.of_nat (length (entries_of cid s)) + 1) items) s).
Proof.
  intros I Hc Ht Hf. set (new := build _ _ _ _).
  assert (∀ cid', entries_of cid' (add_entries new s) = entries_of cid' s ++ (if cid =? cid' then new else [])) as En.
  { intros cid'. apply entries_of_add. intros e He. by apply build_of in He as [? _]. }
  split; [exact (ci_ids s I)|exact (ci_nonce s I)| | | |].
  - intros e He. cbn in He. apply elem_of_app in He as [He|[<- _]%build_of]; [by apply (ci_home s I)|done].
  - intros cid'. rewrite En. destruct (Z.eqb_spec cid cid') as [<-|]; [|rewrite app_nil_r; apply I].
    unfold dense. rewrite fmap_app, (ci_dense s I), length_app. unfold new. rewrite build_subs.
    assert (length (build cid now (Z.of_nat (length (entries_of cid s)) + 1) items) = length items) as ->.
    { rewrite <- (length_fmap ce_role), build_roles. apply length_fmap. }
    rewrite Nat2Z.inj_add, seqZ_app by lia. do 2 f_equal. lia.
  - intros cid'. rewrite En. destruct (Z.eqb_spec cid cid') as [<-|]; [|rewrite app_nil_r; apply I].
    rewrite fmap_app, fits_app, (ci_runs s I). unfold new. rewrite build_roles. exact Hf.
  - intros e He. cbn in He. apply elem_of_app in He as [He|(_ & i & Hi & Er & Ec)%build_of]; [by apply (ci_text s I)|].
    rewrite Er, Ec. by apply Ht.
Qed.

Lemma opening_app l l' : opening l → opening (l ++ l').
Proof. intros (a & b & rest & -> & ?). exists a, b, (rest ++ l'). done. Qed.

Lemma verify_spec c w s cid : verify_writer_nonce c w s = Ok cid →
  c = JInt cid ∧ 0 ≤ cid ≤ sqlite_max ∧ ∃ conv, find_conversation cid s = Some conv ∧ w = JStr conv.(cv_nonce).
Proof.
  unfold verify_writer_nonce, validate_conversation_id. destruct c as [| |n| | | |]; try done.
  destruct (n <? 0) eqn:E1; [done|]. destruct (sqlite_max <? n) eqn:E2; [done|].
  unfold validate_writer_nonce. destruct w as [| | | |w| |]; try done. destruct (nonce_pattern w); [|done].
  destruct (find_conversation n s) as [conv|] eqn:Ec; [|done].
  destruct (String.eqb_spec (cv_nonce conv) w) as [<-|]; [|done]. intros [= <-]. bools. eauto 6.
Qed.

(** [append_conversation] extends one conversation, on proof of its nonce. *)
Lemma append_chat_spec c w es want now s created s' :
  cinv s → append_conversation c w es want now s = Ok (created, s') →
  ∃ cid conv, c = JInt cid ∧ find_conversation cid s = Some conv ∧ w = JStr conv.(cv_nonce) ∧
    created ≠ [] ∧ (∀ e, e ∈ created → e.(ce_conversation) = cid) ∧ s' = add_entries created s ∧ cinv s'.
Proof.
  intros [T O] H. unfold append_conversation in H. destruct (verify_writer_nonce c w s) as [cid|] eqn:Ev; [|done].
  apply verify_spec in Ev as (-> & _ & conv & Ec & ->).
  destruct (normalize_entries es 1 false want) as [items|] eqn:En; [|done].
  apply normalize_entries_spec in En as ([L _] & _ & Ht).
  apply (append_locked_Ok _ _ _ _ _ _ (ci_dense s T cid)) in H as (Hb & -> & F).
  exists cid, conv. pose proof (find_conversation_spec cid s) as Hc. rewrite Ec in Hc.
  assert (∀ e, e ∈ created → e.(ce_conversation) = cid) as Hof by (intros e He; subst created; by apply build_of in He as [? _]).
  split_and!; try done.
  - subst created. destruct items; [cbn in L; lia|done].
  - split; [subst created; apply add_built_tables; eauto|]. intros c Hin.
    rewrite (entries_of_add cid) by done. by apply opening_app, O.
Qed.

Lemma next_id_length s : ctables s → next_conversation_id s = Z.of_nat (length s.(conversations)).
Proof.
  intros T. unfold next_conversation_id. pose proof (ci_ids s T) as E. revert E.
  generalize (conversations s) as t. intros t. destruct t as [|c l] using rev_ind; [done|]. intros E. rewrite fmap_app, length_app in E. cbn in E.
  rewrite Nat2Z.inj_add, seqZ_app in E by lia. apply app_inj_1 in E as [E1 E2].
  2:{ rewrite length_fmap, length_seqZ. lia. }
  rewrite seqZ_cons in E2 by lia. injection E2 as E2. rewrite max_of_snoc.
  - rewrite length_app. cbn. lia.
  - intros x Hx. assert (cv_id x ∈ seqZ 0 (Z.of_nat (length l))) as Hs by (rewrite <- E1; by apply list_elem_of_fmap_2).
    apply elem_of_seqZ in Hs. lia.
Qed.

Lemma insert_conversation_spec cid now nonce items s c s' :
  cinv s → nonce_pattern nonce = true → starts_with_pair items = true →
  (∀ i, i ∈ items → text_fits i.(i_role) i.(i_content)) →
  insert_conversation cid now nonce items s = Ok (c, s') →
  cid = Z.of_nat (length s.(conversations)) ∧ c.(cr_conversation) = cid ∧ c.(cr_nonce) = nonce ∧
  s'.(conversations) = s.(conversations) ++ [{| cv_id := cid; cv_created := now; cv_nonce := nonce |}] ∧
  s'.(conversation_entries) = s.(conversation_entries) ++ c.(cr_entries) ∧
  (∀ e, e ∈ c.(cr_entries) → e.(ce_conversation) = cid) ∧
  s'.(conversation_create_requests) = s.(conversation_create_requests) ∧ cinv s'.
Proof.
  intros [T O] Hn Hp Ht H. unfold insert_conversation in H. rewrite next_id_length in H by done.
  destruct (Z.eqb_spec cid (Z.of_nat (length (conversations s)))) as [->|]; [|done]. cbn [negb] in H.
  set (cid := Z.of_nat _) in *. set (s1 := {| conversations := _ |}) in H.
  assert (entries_of cid s = []) as Hnone.
  { apply fetchall_none. intros e He. unfold of_conversation. destruct (ci_home s T e He) as (x & Hx & <-).
    assert (cv_id x ∈ seqZ 0 cid) as Hs by (unfold cid; rewrite <- (ci_ids s T); by apply list_elem_of_fmap_2).
    apply elem_of_seqZ in Hs. lia. }
  assert (ctables s1) as T1.
  { split; [|intros x [Hx|Hx%list_elem_of_singleton]%elem_of_app; [by apply (ci_nonce s T)|by subst x]|..|apply T|apply T|apply T].
    - cbn. rewrite fmap_app, length_app, (ci_ids s T). cbn. rewrite Nat2Z.inj_add, seqZ_app by lia. f_equal.
    - intros e He. destruct (ci_home s T e He) as (x & Hx & E). exists x. set_solver. }
  destruct (_append_locked cid now items s1) as [[created s2]|] eqn:E; [|done]. injection H as <- <-. cbn.
  apply (append_locked_Ok _ _ _ _ _ _ (ci_dense s1 T1 cid)) in E as (Hb & -> & F).
  change (entries_of cid s1) with (entries_of cid s) in *. rewrite Hnone in *.
  assert (∀ e, e ∈ created → e.(ce_conversation) = cid) as Hof by (intros e He; subst created; by apply build_of in He as [? _]).
  split_and!; try done. split.
  - pose proof (add_built_tables cid now items s1 T1) as A. change (entries_of cid s1) with (entries_of cid s) in A.
    rewrite Hnone in A. subst created. apply A; try done. eexists. split; [apply elem_of_app; right; by left|done].
  - intros x Hx. rewrite (entries_of_add cid) by done. cbn in Hx. apply elem_of_app in Hx as [Hx|Hx%list_elem_of_singleton]; [|subst x].
    + by apply opening_app, (O x).
    + change (opening (entries_of cid s ++ (if cid =? cid then created else []))). rewrite Z.eqb_refl, Hnone. subst created.
      destruct items as [|a [|b items]]; try done. cbn in Hp. bools. cbn. unfold opening. by eexists _, _, _.
Qed.

(** ** Requests *)

Inductive cop :=
| Create (conversation_id entries request_id : json) (actor_id : option string) (now a b c d : Z)
| Append (conversation_id writer_nonce entries : json) (require_ai : bool) (now : Z).

(** A request that raises leaves the tables alone. *)
Definition cexec (s : cstore) (o : cop) : cstore :=
  match o with
  | Create cid es rid actor now a b c d =>
      match create_conversation cid es rid actor now (generate_writer_nonce a b c d) s with
      | Ok (_, s') => s' | Err _ => s end
  | Append cid w es want now =>
      match append_conversation cid w es want now s with Ok (_, s') => s' | Err _ => s end
  end.

Definition creachable (s : cstore) : Prop := ∃ ops, s = foldl cexec empty_cstore ops.

Lemma choice_alnum n : is_alnum (choice n) = true.
Proof.
  assert (forallb (λ k, is_alnum (default "a"%char (String.get k alphabet))) (seq 0 62) = true) as H by (vm_compute; reflexivity).
  rewrite forallb_forall in H. apply H. apply in_seq. pose proof (Z.mod_pos_bound n 62 ltac:(lia)). lia.
Qed.

Lemma nonce_generated a b c d : nonce_pattern (generate_writer_nonce a b c d) = true.
Proof. unfold nonce_pattern, generate_writer_nonce. by rewrite !choice_alnum. Qed.

(** A creation inserts a conversation, or replays the receipt of its request id. *)
Lemma create_chat_spec cid es rid actor now nonce s c s' :
  cinv s → nonce_pattern nonce = true → create_conversation cid es rid actor now nonce s = Ok (c, s') →
  s' = s ∨
  ∃ s1 c1 items, insert_conversation (Z.of_nat (length s.(conversations))) now nonce items s = Ok (c1, s1) ∧
    starts_with_pair items = true ∧ (∀ i, i ∈ items → text_fits i.(i_role) i.(i_content)) ∧
    (s' = s1 ∨ ∃ k q, s.(conversation_create_requests) !! k = None ∧ s' = put_request k q s1).
Proof.
  intros I Hn H. unfold create_conversation in H. destruct (validate_conversation_id cid) as [n|]; [|done].
  destruct (normalize_entries es 2 true false) as [items|] eqn:En; [|done].
  apply normalize_entries_spec in En as (_ & Hp & Ht). specialize (Hp eq_refl).
  assert (∀ r, insert_conversation n now nonce items s = Ok r → n = Z.of_nat (length s.(conversations))) as Hid.
  { intros [c1 s1] Hi. by apply (insert_conversation_spec _ _ _ _ _ _ _ I Hn Hp Ht) in Hi as [? _]. }
  destruct rid as [| | | |rid| |]; try done.
  - right. exists s', c, items. rewrite <- (Hid _ H). auto.
  - destruct (negb _); [done|]. destruct actor as [[|x a]|]; try done.
    destruct (_ !! (String x a, rid)) as [q|] eqn:Eq.
    + destruct (negb _); [done|]. destruct (find_conversation n s); [|done]. destruct (negb _); [done|].
      injection H as <- <-. by left.
    + destruct (_ <=? _); [done|]. destruct (insert_conversation _ _ _ _ _) as [[c1 s1]|] eqn:Ei; [|done].
      injection H as <- <-. right. exists s1, c1, items. rewrite <- (Hid _ eq_refl). eauto 10.
Qed.

Lemma put_request_cinv k q s : cinv s → cinv (put_request k q s).
Proof. intros [[] ?]. by split. Qed.

(** Nothing stored is ever changed or removed. *)
Record extends (s s' : cstore) : Prop := {
  ex_conversations : s.(conversations) `prefix_of` s'.(conversations);
  ex_entries : ∀ cid, entries_of cid s `prefix_of` entries_of cid s';
  ex_requests : s.(conversation_create_requests) ⊆ s'.(conversation_create_requests) }.

#[export] Instance extends_preorder : PreOrder extends.
Proof.
  split; [by split|]. intros s1 s2 s3 [A1 B1 C1] [A2 B2 C2]. split; [by etrans|intros cid; etrans; [apply B1|apply B2]|etrans; [exact C1|exact C2]].
Qed.

Lemma insert_extends cid now nonce items s c s' :
  cinv s → nonce_pattern nonce = true → starts_with_pair items = true →
  (∀ i, i ∈ items → text_fits i.(i_role) i.(i_content)) →
  insert_conversation cid now nonce items s = Ok (c, s') → extends s s'.
Proof.
  intros I Hn Hp Ht H. apply insert_conversation_spec in H as (_ & _ & _ & E1 & E2 & _ & E3 & _); try done.
  split; [rewrite E1; by exists [{| cv_id := cid; cv_created := now; cv_nonce := nonce |}]| |by rewrite E3].
  intros cid'. unfold entries_of. rewrite E2, fetchall_app. eexists. reflexivity.
Qed.

Lemma cexec_spec s o : cinv s → cinv (cexec s o) ∧ extends s (cexec s o).
Proof.
  intros I. destruct o as [cid es rid actor now a b c d|cid w es want now]; cbn.
  - destruct (create_conversation _ _ _ _ _ _ _) as [[r s']|] eqn:E; [|done].
    pose proof (nonce_generated a b c d) as Hn.
    destruct (create_chat_spec _ _ _ _ _ _ _ _ _ I Hn E) as [->|(s1 & c1 & items & Hi & Hp & Ht & Hs)]; [done|].
    pose proof (insert_extends _ _ _ _ _ _ _ I Hn Hp Ht Hi) as X.
    apply insert_conversation_spec in Hi as (_ & _ & _ & _ & _ & _ & E3 & I1); try done.
    destruct Hs as [->|(k & q & Hk & ->)]; [done|]. split; [by apply put_request_cinv|].
    split; [apply X|apply X|]. cbn. rewrite E3. by apply insert_subseteq.
  - destruct (append_conversation _ _ _ _ _ _) as [[r s']|] eqn:E; [|done].
    destruct (append_chat_spec _ _ _ _ _ _ _ _ I E) as (n & conv & _ & _ & _ & _ & Hof & -> & I'). split; [done|].
    split; [done| |done]. intros cid'. rewrite (entries_of_add n) by done. eexists. reflexivity.
Qed.

Lemma creachable_cinv s : creachable s → cinv s.
Proof.
  intros [ops ->]. assert (∀ s, cinv s → cinv (foldl cexec s ops)) as H; [|apply H, empty_cinv].
  induction ops as [|o ops IH]; intros s I; [done|]. cbn. apply IH. by apply cexec_spec.
Qed.

Lemma cexec_extends s ops : cinv s → extends s (foldl cexec s ops).
Proof.
  revert s. induction ops as [|o ops IH]; intros s I; [done|]. cbn. etrans; [by apply cexec_spec|].
  apply IH. by apply cexec_spec.
Qed.

Lemma extends_find cid s s' c : cinv s → extends s s' → find_conversation cid s = Some c → find_conversation cid s' = Some c.
Proof.
  intros _ [[k E] _ _]. unfold find_conversation, fetchone. rewrite E. clear E.
  induction (conversations s) as [|x l IH]; cbn; [done|]. by destruct (cv_id x =? cid).
Qed.

(** ** Theorems *)

(** C26: after any requests the conversations are numbered from zero without gaps,
    the entries of each are numbered from one, begin with a user and an AI entry,
    contain a summary among any fifty in a row, and keep to the length limits of
    their roles. *)
Theorem conversation_sound s :
  creachable s →
  cv_id <$> s.(conversations) = seqZ 0 (Z.of_nat (length s.(conversations))) ∧
  ∀ c, c ∈ s.(conversations) →
    let l := entries_of c.(cv_id) s in
    sub_id <$> l = seqZ 1 (Z.of_nat (length l)) ∧ opening l ∧
    (∀ a m b, l = a ++ m ++ b → Forall (λ e, e.(ce_role) ≠ summary) m → (length m ≤ 49)%nat) ∧
    Forall (λ e, text_fits e.(ce_role) e.(ce_content)) l.
Proof.
  intros [T O]%creachable_cinv. split; [apply T|]. intros c Hc l. split_and!; [apply T|by apply O| |].
  - intros a m b E F. rewrite <- (length_fmap ce_role).
    apply (fits_window (ce_role <$> l) (ce_role <$> a) _ (ce_role <$> b)); [apply T|by rewrite E, !fmap_app|].
    by rewrite Forall_fmap.
  - apply Forall_forall. intros e [He _]%entries_of_elem. by apply (ci_text s T).
Qed.

(** A conversation only grows at its end, and only for those who know its
    nonce: whatever a request does, the stored nonce and entries stay, and if entries
    were added to an existing conversation the request was an append that presented
    exactly that nonce. *)
Theorem conversation_append_only s o cid c :
  creachable s → find_conversation cid s = Some c →
  find_conversation cid (cexec s o) = Some c ∧
  ∃ new, entries_of cid (cexec s o) = entries_of cid s ++ new ∧
    (new ≠ [] → ∃ es want now, o = Append (JInt cid) (JStr c.(cv_nonce)) es want now).
Proof.
  intros I%creachable_cinv Hc. destruct (cexec_spec s o I) as [_ X]. split; [by eapply extends_find|].
  destruct o as [n es rid actor now a b x d|n w es want now]; cbn in *.
  - exists []. rewrite app_nil_r. split; [|done].
    destruct (create_conversation _ _ _ _ _ _ _) as [[r s']|] eqn:E; [|done].
    pose proof (nonce_generated a b x d) as Hn.
    destruct (create_chat_spec _ _ _ _ _ _ _ _ _ I Hn E) as [->|(s1 & c1 & items & Hi & Hp & Ht & Hs)]; [done|].
    apply insert_conversation_spec in Hi as (_ & _ & _ & _ & E2 & Hof & _ & _); try done.
    assert (entries_of cid s1 = entries_of cid s) as <-.
    { unfold entries_of. rewrite E2, fetchall_app, (fetchall_none _ (cr_entries c1)); [by rewrite app_nil_r|].
      intros e He. unfold of_conversation. rewrite (Hof e He).
      pose proof (find_conversation_spec cid s) as Hf. rewrite Hc in Hf. destruct Hf as [Hin <-].
      assert (cv_id c ∈ seqZ 0 (Z.of_nat (length (conversations s)))) as Hz
        by (rewrite <- (ci_ids s (proj1 I)); by apply list_elem_of_fmap_2).
      apply elem_of_seqZ in Hz. lia. }
    by destruct Hs as [->|(k & q & _ & ->)].
  - destruct (append_conversation _ _ _ _ _ _) as [[r s']|] eqn:E; [|exists []; by rewrite app_nil_r].
    destruct (append_chat_spec _ _ _ _ _ _ _ _ I E) as (m & conv & -> & Hm & -> & _ & Hof & -> & _).
    rewrite (entries_of_add m) by done. eexists. split; [reflexivity|].
    destruct (Z.eqb_spec m cid) as [->|]; [|done]. intros _. rewrite Hc in Hm. injection Hm as <-. eauto.
Qed.

(** The owner of a conversation is never locked out: presenting the nonce, a list
    of valid entries is accepted exactly when no user or AI entry would be the
    fiftieth without a summary; so a single summary is always accepted. *)
Theorem conversation_append_accepted s cid c entries want now items :
  creachable s → find_conversation cid s = Some c → cid ≤ sqlite_max →
  normalize_entries entries 1 false want = Ok items →
  (∃ r, append_conversation (JInt cid) (JStr c.(cv_nonce)) entries want now s = Ok r) ↔
  fits (since (entries_of cid s)) (i_role <$> items) = true.
Proof.
  intros [T O]%creachable_cinv Hc Hm Hn. pose proof (find_conversation_spec cid s) as Hf. rewrite Hc in Hf. destruct Hf as [Hin Hid].
  assert (verify_writer_nonce (JInt cid) (JStr c.(cv_nonce)) s = Ok cid) as Hv.
  { unfold verify_writer_nonce, validate_conversation_id, validate_writer_nonce.
    assert (cid ∈ seqZ 0 (Z.of_nat (length (conversations s)))) as Hs
      by (rewrite <- (ci_ids s T), <- Hid; by apply list_elem_of_fmap_2).
    apply elem_of_seqZ in Hs. rewrite (proj2 (Z.ltb_ge cid 0)), (proj2 (Z.ltb_ge sqlite_max cid)) by lia.
    by rewrite (ci_nonce s T c Hin), Hc, String.eqb_refl. }
  unfold append_conversation. rewrite Hv, Hn. split.
  - intros [[created s'] H]. by apply (append_locked_Ok _ _ _ _ _ _ (ci_dense s T cid)) in H as (_ & _ & F).
  - intros F. unfold _append_locked. rewrite summary_status_since by apply T. rewrite append_loop_fits; [eauto|by rewrite Hc| |done].
    intros e He. unfold last_sub_id. fold (entries_of cid s). rewrite dense_last by apply T.
    apply (dense_bound _ _ (ci_dense s T cid)) in He. lia.
Qed.

(** Creation with a request id is idempotent: once it succeeded, the same call
    by the same actor, after any other requests, returns the same conversation, nonce
    and entries, marked as replayed, and changes nothing. *)
Theorem conversation_create_retry s cid es rid actor now a b x d r s1 ops now' nonce' :
  creachable s →
  create_conversation cid es (JStr rid) actor now (generate_writer_nonce a b x d) s = Ok (r, s1) →
  let s2 := foldl cexec s1 ops in
  create_conversation cid es (JStr rid) actor now' nonce' s2 = Ok (with_request rid true r, s2).
Proof.
  intros R H s2. pose proof (creachable_cinv s R) as I.
  assert (cexec s (Create cid es (JStr rid) actor now a b x d) = s1) as E1 by (cbn; by rewrite H).
  destruct (cexec_spec s (Create cid es (JStr rid) actor now a b x d) I) as [I1 _]. rewrite E1 in I1.
  assert (extends s1 s2) as X by by apply cexec_extends. clear E1.
  unfold create_conversation in H |- *. destruct (validate_conversation_id cid) as [n|]; [|done].
  destruct (normalize_entries es 2 true false) as [items|] eqn:En; [|done].
  apply normalize_entries_spec in En as (_ & Hp & Ht). specialize (Hp eq_refl).
  destruct (negb _); [done|]. destruct actor as [[|y act]|]; try done.
  assert (∀ q, conversation_create_requests s1 !! (String y act, rid) = Some q →
    conversation_create_requests s2 !! (String y act, rid) = Some q) as Hq by (intros q Hl; eapply lookup_weaken; [exact Hl|exact (ex_requests _ _ X)]).
  destruct (conversation_create_requests s !! (String y act, rid)) as [q|] eqn:Eq.
  - destruct (String.eqb_spec (cq_fingerprint q) (creation_fingerprint n items)) as [Ef|]; [|done]. cbn [negb] in H.
    destruct (find_conversation n s) as [c|] eqn:Ec; [|done].
    destruct (String.eqb_spec (cv_nonce c) (cr_nonce (cq_response q))) as [Eno|]; [|done]. injection H as <- <-.
    rewrite (Hq _ Eq), Ef, String.eqb_refl. cbn [negb]. rewrite (extends_find n s s2 c I X Ec), Eno, String.eqb_refl. done.
  - destruct (_ <=? _); [done|]. destruct (insert_conversation _ _ _ _ _) as [[c1 s0]|] eqn:Ei; [|done].
    injection H as <- <-. rewrite (Hq {| cq_fingerprint := creation_fingerprint n items; cq_response := with_request rid false c1 |}) by (cbn; apply lookup_insert_eq).
    cbn [cq_fingerprint cq_response]. rewrite String.eqb_refl. cbn [negb].
    apply insert_conversation_spec in Ei as (Hn & _ & Enonce & Econv & _ & _ & _ & I0); try done; [|apply nonce_generated].
    destruct I0 as [T0 _]. pose proof (find_conversation_spec n s0) as Hf.
    destruct (find_conversation n s0) as [c|] eqn:Ef.
    2:{ by destruct (Hf {| cv_id := n; cv_created := now; cv_nonce := generate_writer_nonce a b x d |}); [rewrite Econv; set_solver|]. }
    destruct Hf as [Hin Hid].
    assert (c = {| cv_id := n; cv_created := now; cv_nonce := generate_writer_nonce a b x d |}) as ->.
    { apply (ordered_unique cv_id (conversations s0)); [|done|rewrite Econv; set_solver|done].
      unfold ordered. rewrite (ci_ids s0 T0). clear. generalize (length (conversations s0)) as k. intros k. generalize 0 as z.
      induction k as [|k IH]; intros z; [constructor|]. rewrite Nat2Z.inj_succ, seqZ_cons by lia. rewrite Z.pred_succ.
      constructor; [apply IH|]. apply Forall_forall. intros y Hy%elem_of_seqZ. lia. }
    rewrite (extends_find n _ s2 _ I1 X Ef). cbn [cv_nonce]. unfold with_request at 1. cbn [cr_nonce]. rewrite Enonce, String.eqb_refl. done.
Qed.

(** ** A conversation *)

Definition demo_item (r c : string) : json := JObj [("role", JStr r); ("content", JStr c)]%string.
Definition demo_opening : json := JList [demo_item "user" "hi"; demo_item "ai" "hello"].
Definition demo_create : cop := Create (JInt 0) demo_opening (JStr "req-1") (Some "actor"%string) 5 0 1 2 3.
Definition demo_chat : cstore := cexec empty_cstore demo_create.
Definition demo_conversation : conversation := {| cv_id := 0; cv_created := 5; cv_nonce := "@abcd@" |}.

Lemma demo_chat_reachable : creachable demo_chat.
Proof. by exists [demo_create]. Qed.

Lemma conversation_sound_witness :
  sub_id <$> entries_of 0 demo_chat = [1; 2] ∧ opening (entries_of 0 demo_chat).
Proof.
  split; [vm_compute; reflexivity|].
  refine (proj1 (proj2 (proj2 (conversation_sound demo_chat demo_chat_reachable) demo_conversation _))).
  vm_compute. left.
Defined.
