(* ===== verification/PosixPath.v ===== *)
(** * PosixPath: [posixpath.normpath], and the scopes of project memory

    The path functions of [MemoryStore] in src/openkapsel/context/memory_store.py
    (lines 440 to 553 and 1053 to 1080) over Python's lexical normalisation of
    POSIX paths. *)

From Stdlib Require Import ZArith Lia Ascii String.
From stdpp Require Import base tactics list sorting gmap strings pretty.
From S2P Require Import Prelude PathAccess.

Local Open Scope Z_scope.

(** ** [posixpath.normpath] *)

(** How many slashes a normal path keeps in front: two are special in POSIX. *)
Definition initial_slashes (s : string) : nat :=
  if startswith "///" s then 1 else if startswith "//" s then 2 else if startswith "/" s then 1 else 0.

(** The loop over the components; [acc] holds the kept ones, last first. *)
Fixpoint normal_comps (absolute : bool) (acc comps : list string) : list string :=
  match comps with
  | [] => rev acc
  | c :: rest =>
      if String.eqb c "" || String.eqb c "." then normal_comps absolute acc rest
      else if negb (String.eqb c "..") then normal_comps absolute (c :: acc) rest
      else match acc with
           | [] => if absolute then normal_comps absolute [] rest else normal_comps absolute [c] rest
           | d :: acc' => if String.eqb d ".." then normal_comps absolute (c :: acc) rest
                          else normal_comps absolute acc' rest
           end
  end.

Definition slashes (n : nat) : string := match n with 0%nat => "" | 1%nat => "/" | _ => "//" end.

Definition normpath (s : string) : string :=
  if is_empty s then "."
  else
    let n := initial_slashes s in
    let p := slashes n +:+ String.concat "/" (normal_comps (negb (n =? 0)%nat) [] (split_on "/" s)) in
    if is_empty p then "." else p.

(** ** Memory scopes *)

Definition MAX_MEMORY_PATH_CHARS : Z := 4096.
Definition MAX_MEMORY_SCOPE_PATHS : nat := 64.
Definition MAX_MEMORY_TAGS : nat := 32.
Definition MAX_MEMORY_TAG_CHARS : Z := 64.

Definition slash (c : ascii) : bool := Ascii.eqb c "/".

(** [value.replace("\\", "/")] *)
Fixpoint to_slashes (s : string) : string :=
  match s with EmptyString => EmptyString | String c s' => String (if Ascii.eqb c "\" then "/"%char else c) (to_slashes s') end.

(** [re.match(r"^[A-Za-z]:/", path)] *)
Definition has_drive (s : string) : bool :=
  match s with String a (String b (String c _)) => is_alpha a && Ascii.eqb b ":" && slash c | _ => false end.

Definition escapes (s : string) : bool := String.eqb s ".." || startswith "../" s.

(** The namespace of a scope, its target, and the raw path. *)
Definition scope_kind (raw : string) : res exn (string * option string * string) :=
  match after_prefix "server:" raw with
  | Some p => Ok ("server", None, p)
  | None =>
      match after_prefix "mapping:" raw with
      | Some rest =>
          let '(target, sep, p) := partition_on ":" rest in
          if sep && negb (is_empty target) then Ok ("mapping", Some target, p)
          else Err (ValueError "mapping memory paths require mapping:<mapping_id>:<path>")
      | None =>
          match after_prefix "storage:" raw with
          | Some rest =>
              let '(target, sep, p) := partition_on ":" rest in
              if sep && negb (is_empty target) then Ok ("storage", Some target, p)
              else Err (ValueError "storage memory paths require storage:<provider_id>:<path>")
          | None => Ok ("server", None, raw)
          end
      end
  end%string.

Definition scope_prefix (kind : string) (target : option string) : string :=
  match target with None => kind +:+ ":" | Some t => kind +:+ ":" +:+ t +:+ ":" end.

Definition _normalize_path (value : json) : res exn string :=
  match value with
  | JStr v =>
      let raw := strip v in
      raise! (ValueError "memory path must be a non-empty string") when is_empty raw;
      let! (kind, target, path_value) := scope_kind raw in
      let slashed := to_slashes path_value in
      let p := normpath (if is_empty slashed then "." else slashed) in
      let! path := if String.eqb kind "server" then
                     let stripped := lstrip slash p in
                     let q := if is_empty stripped then "."%string else stripped in
                     raise! (ValueError "server memory paths must stay inside the workspace root") when escapes q;
                     Ok q
                   else
                     raise! (ValueError (kind +:+ " memory paths must stay inside their target root"))
                       when negb (startswith "/" p) && negb (has_drive p) && escapes p;
                     Ok p in
      let normalized := scope_prefix kind target +:+ path in
      raise! (ValueError ("memory path exceeds " +:+ pretty MAX_MEMORY_PATH_CHARS +:+ " characters"))
        when MAX_MEMORY_PATH_CHARS <? slen normalized;
      Ok normalized
  | _ => Err (ValueError "memory path must be a non-empty string")
  end.

(** The namespace, target and path of a normalized scope. *)
Definition split_scope (s : string) : string * option string * string :=
  if startswith "mapping:" s || startswith "storage:" s then
    let '(kind, _, rest) := partition_on ":" s in
    let '(target, _, p) := partition_on ":" rest in (kind, Some target, p)
  else ("server"%string, None, default ""%string (after_prefix "server:" s)).

Definition _path_parts (scope : string) : res exn (string * option string * string) :=
  let! normalized := _normalize_path (JStr scope) in Ok (split_scope normalized).

Definition filled_parts (s : string) : list string := List.filter (λ p, negb (is_empty p)) (split_on "/" s).

Definition newline : ascii := ascii_of_N 10.

(** What the rest of a line up to [$] captures: a final line break may follow it. *)
Definition line_of (s : string) : option string :=
  let '(line, found, rest) := partition_on newline s in
  if found && negb (is_empty rest) then None else Some line.

(** The regular expression for a drive: a letter, a colon, a slash, and a line. *)
Definition drive_match (p : string) : option (string * string) :=
  if has_drive p then (λ line, (String.substring 0 2 p, line)) <$> line_of (String.substring 3 (String.length p - 3) p)
  else None.

Definition _path_anchor (p : string) : string * list string :=
  if String.eqb p "." then (".", [])
  else match drive_match p, after_prefix "//" p, after_prefix "/" p with
       | Some (drive, rest), _, _ => (drive, filled_parts rest)
       | None, Some rest, _ => ("//", filled_parts rest)
       | None, None, Some rest => ("/", filled_parts rest)
       | None, None, None => ("", filled_parts p)
       end%string.

Definition fold_for (kind s : string) : string := if String.eqb kind "mapping" then casefold s else s.

(** The longest list of components that all have, up to the folding. *)
Fixpoint common_two (kind : string) (a b : list string) : list string :=
  match a, b with
  | x :: a', y :: b' => if String.eqb (fold_for kind x) (fold_for kind y) then x :: common_two kind a' b' else []
  | _, _ => []
  end.
Definition common_parts (kind : string) (l : list (list string)) : list string :=
  match l with [] => [] | a :: rest => foldl (common_two kind) a rest end.

Fixpoint parse_all (l : list string) : res exn (list (string * option string * string)) :=
  match l with
  | [] => Ok []
  | s :: l' => let! p := _path_parts s in let! rest := parse_all l' in Ok (p :: rest)
  end.

Definition same_target (a b : string * option string * string) : bool := bool_decide (a.1 = b.1).

Definition _common_path (scopes : list string) : res exn string :=
  let! parsed := parse_all scopes in
  match parsed with
  | [] => Ok "server:."%string
  | first :: rest =>
      if negb (forallb (same_target first) rest) then Ok "server:."%string
      else
        let '(kind, target, _) := first in
        let prefix := scope_prefix kind target in
        let paths := (λ p, p.2) <$> parsed in
        if existsb (String.eqb ".") paths then Ok (prefix +:+ ".")
        else
          let anchored := _path_anchor <$> paths in
          let anchor := default ""%string (head anchored.*1) in
          if negb (forallb (λ a, String.eqb (fold_for kind a) (fold_for kind anchor)) anchored.*1) then Ok (prefix +:+ ".")
          else
            let joined := String.concat "/" (common_parts kind anchored.*2) in
            let path :=
              if String.eqb anchor "/" then "/" +:+ joined
              else if String.eqb anchor "//" then "//" +:+ joined
              else if negb (is_empty anchor) then anchor +:+ "/" +:+ joined
              else if is_empty joined then "." else joined in
            Ok (prefix +:+ path)
  end.

(** Keep the first of equal texts. *)
Definition add_new (l : list string) (x : string) : list string := if bool_decide (x ∈ l) then l else l ++ [x].

Fixpoint normalize_scopes (acc : list string) (l : list json) : res exn (list string) :=
  match l with
  | [] => Ok acc
  | v :: l' => let! p := _normalize_path v in normalize_scopes (add_new acc p) l'
  end.

Definition _validate_scope_paths (value : json) : res exn (list string) :=
  match value with
  | JNull => Ok []
  | JList l =>
      raise! (ValueError ("memory scope paths must be an array of at most " +:+ pretty MAX_MEMORY_SCOPE_PATHS +:+ " strings"))
        when (MAX_MEMORY_SCOPE_PATHS <? length l)%nat;
      normalize_scopes [] l
  | _ => Err (ValueError ("memory scope paths must be an array of at most " +:+ pretty MAX_MEMORY_SCOPE_PATHS +:+ " strings"))
  end.

(** Both sides are normalized again before they are compared. *)
Definition _paths_overlap (left right : string) : res exn bool :=
  let! left := _normalize_path (JStr left) in
  let! right := _normalize_path (JStr right) in
  if String.eqb left "server:." || String.eqb right "server:." then Ok true
  else
    let '(lkind, ltarget, lpath) := split_scope left in
    let '(rkind, rtarget, rpath) := split_scope right in
    if negb (bool_decide ((lkind, ltarget) = (rkind, rtarget))) then Ok false
    else if String.eqb lpath "." || String.eqb rpath "." then Ok true
    else
      let l := fold_for lkind lpath in
      let r := fold_for lkind rpath in
      Ok (String.eqb l r || startswith (rstrip slash r +:+ "/") l || startswith (rstrip slash l +:+ "/") r).

(** ** Texts and tags *)

Definition _required_text (value : json) (name : string) (maximum : Z) : res exn string :=
  match value with
  | JStr v =>
      let result := strip v in
      raise! (ValueError ("memory " +:+ name +:+ " must be a non-empty string")) when is_empty result;
      raise! (ValueError ("memory " +:+ name +:+ " exceeds " +:+ pretty maximum +:+ " characters"))
        when maximum <? slen result;
      Ok result
  | _ => Err (ValueError ("memory " +:+ name +:+ " must be a non-empty string"))
  end.

Fixpoint tags_loop (acc : list string) (l : list json) : res exn (list string) :=
  match l with
  | [] => Ok acc
  | v :: l' => let! t := _required_text v "tag" MAX_MEMORY_TAG_CHARS in tags_loop (add_new acc t) l'
  end.

Definition _validate_tags (value : json) (required : bool) : res exn (list string) :=
  let bad := if required then ValueError ("memory tags must be an array of 1 to " +:+ pretty MAX_MEMORY_TAGS +:+ " strings")
             else ValueError ("memory tags must be an array of at most " +:+ pretty MAX_MEMORY_TAGS +:+ " strings") in
  match value with
  | JNull => if required then Err (ValueError "memory tags must contain at least one tag") else Ok []
  | JList l =>
      raise! bad when (MAX_MEMORY_TAGS <? length l)%nat;
      let! tags := tags_loop [] l in
      raise! (ValueError "memory tags must contain at least one tag")
        when required && match tags with [] => true | _ => false end;
      Ok tags
  | _ => Err bad
  end.
