(* ===== verification/ScopeTheorems.v ===== *)
(** * ScopeTheorems: normal paths and memory scopes

    [normpath] leaves normal paths alone; [_normalize_path] is idempotent on scopes
    that do not end in white space, and not on others; the overlap of two workspace
    scopes is the prefix relation of their components. *)

From Stdlib Require Import ZArith Lia Ascii String.
From stdpp Require Import base tactics list sorting gmap strings pretty.
From S2P Require Import Prelude PathAccess PosixPath.

Local Open Scope Z_scope.

(** ** Normal components *)

(** A stack of components, last first, in which [..] stands only below other [..],
    and not at all when the path is absolute. *)
Fixpoint normal_stack (absolute : bool) (acc : list string) : Prop :=
  match acc with
  | [] => True
  | d :: acc' =>
      wf_comp d ∧ (d = ".."%string → absolute = false ∧ match acc' with [] => True | e :: _ => e = ".."%string end)
      ∧ normal_stack absolute acc'
  end.

Lemma normal_stack_app absolute a b : normal_stack absolute (a ++ b) → normal_stack absolute b.
Proof. induction a as [|x a IH]; [done|]. cbn. intros (_ & _ & H). by apply IH. Qed.

Lemma normal_stack_comps absolute l : normal_stack absolute l → Forall wf_comp l.
Proof. induction l as [|x l IH]; cbn; [done|]. intros (? & _ & ?). constructor; auto. Qed.

Lemma normal_stack_relative l : normal_stack true l → normal_stack false l.
Proof. induction l as [|x l IH]; cbn; [done|]. intros (? & Hd & ?). split_and!; [done| |by auto]. by intros [? _]%Hd. Qed.

Lemma normal_comps_normal absolute acc comps :
  normal_stack absolute acc → Forall (λ c, has_char "/" c = false) comps →
  normal_stack absolute (rev (normal_comps absolute acc comps)).
Proof.
  revert acc. induction comps as [|c comps IH]; intros acc Hs Hc; cbn [normal_comps]; [by rewrite rev_involutive|].
  inversion_clear Hc as [|? ? Hc1 Hc2].
  destruct (String.eqb_spec c "") as [->|N1]; [by apply IH|]. destruct (String.eqb_spec c ".") as [->|N2]; [by apply IH|].
  cbn [orb]. destruct (String.eqb_spec c "..") as [->|N3]; cbn [negb].
  - destruct acc as [|d acc'].
    + destruct absolute; [by apply IH|]. apply IH; [|done]. cbn. done.
    + destruct (String.eqb_spec d "..") as [->|N4]; [|apply IH; [by apply Hs|done]].
      apply IH; [|done]. destruct Hs as (? & Hd & ?). destruct (Hd eq_refl) as [-> ?].
      cbn. split_and!; try done.
  - apply IH; [|done]. cbn. done.
Qed.

(** Normal components pass unchanged. *)
Lemma normal_comps_id absolute comps acc :
  normal_stack absolute (rev comps ++ acc) → normal_comps absolute acc comps = rev acc ++ comps.
Proof.
  revert acc. induction comps as [|c comps IH]; intros acc Hs; cbn [normal_comps]; [by rewrite app_nil_r|].
  cbn [rev] in Hs. rewrite <- (assoc_L (++)) in Hs. cbn in Hs. pose proof (normal_stack_app _ _ _ Hs) as ((N1 & N2 & _) & Hd & _).
  rewrite (proj2 (String.eqb_neq _ _) N1), (proj2 (String.eqb_neq _ _) N2). cbn [orb].
  assert (normal_comps absolute (c :: acc) comps = rev acc ++ c :: comps) as E.
  { rewrite IH by done. cbn [rev]. by rewrite <- (assoc_L (++)). }
  destruct (String.eqb_spec c "..") as [->|N3]; cbn [negb]; [|done].
  destruct (Hd eq_refl) as [-> Ht]. destruct acc as [|d acc']; [done|]. by subst d.
Qed.

(** ** Joining and splitting *)

Definition slashless (l : list string) : Prop := Forall (λ c, has_char "/" c = false) l.

Lemma split_slashless s : slashless (split_on "/" s).
Proof.
  unfold slashless. induction s as [|c s IH]; cbn [split_on]; [by repeat constructor|].
  destruct (Ascii.eqb "/" c) eqn:E; [by constructor|].
  destruct (split_on "/" s) as [|w ws]; [constructor; [|done]; unfold has_char; cbn [str_exists]; by rewrite E|].
  inversion_clear IH. constructor; [|done]. unfold has_char in *. cbn [str_exists]. by rewrite E.
Qed.

Lemma components_slashless l : Forall wf_comp l → slashless l.
Proof. intros H. eapply Forall_impl; [done|]. by intros c (_ & _ & ?). Qed.

Lemma concat_first_char c l : wf_comp c → ∃ a t, String.concat "/" (c :: l) = String a t ∧ slash a = false.
Proof.
  intros (N1 & _ & Hc). destruct c as [|a c]; [done|]. unfold has_char in Hc. cbn [str_exists] in Hc. apply orb_false_iff in Hc as [Ha _].
  exists a. unfold slash. rewrite Ascii.eqb_sym, Ha. destruct l; [by exists c|]. by exists (c +:+ "/" +:+ String.concat "/" (s :: l)).
Qed.

(** ** Normal paths *)

(** [normpath] is a number of slashes and normal components. *)
Record normal_path (n : nat) (l : list string) (p : string) : Prop := {
  np_stack : normal_stack (negb (n =? 0)%nat) (rev l);
  np_slashes : (n ≤ 2)%nat;
  np_text : p = if (n =? 0)%nat && match l with [] => true | _ => false end then "."%string else slashes n +:+ String.concat "/" l }.

Lemma slashes_empty n l : Forall wf_comp l → (n ≤ 2)%nat →
  is_empty (slashes n +:+ String.concat "/" l) = ((n =? 0)%nat && match l with [] => true | _ => false end).
Proof.
  intros H L. destruct n as [|[|[|n]]]; [|done|done|lia]. cbn. destruct l as [|c l]; [done|]. inversion_clear H as [|? ? Hc].
  destruct (concat_first_char c l Hc) as (a & t & E & _). by rewrite E.
Qed.

Lemma normpath_normal s : ∃ n l, normal_path n l (normpath s).
Proof.
  unfold normpath. destruct (is_empty s) eqn:E; [exists 0%nat, []; by split; [|lia|]|].
  set (n := initial_slashes s). set (l := normal_comps _ [] _). exists n, l.
  assert (normal_stack (negb (n =? 0)%nat) (rev l)) as Hs by (apply normal_comps_normal; [done|apply split_slashless]).
  assert (n ≤ 2)%nat as Hn by (unfold n, initial_slashes; repeat case_match; lia).
  split; [done..|]. pose proof (normal_stack_comps _ _ Hs) as Hc. apply Forall_rev in Hc. rewrite rev_involutive in Hc.
  rewrite slashes_empty by done. by destruct (_ && _).
Qed.

Lemma starts_slash_none a t : slash a = false → startswith "/" (String a t) = false.
Proof.
  unfold startswith. intros H. destruct (String.prefix "/" (String a t)) eqn:E; [|done].
  apply prefix_app in E as [b [= -> _]]. discriminate H.
Qed.

Lemma starts_longer p c s : startswith (p +:+ c) s = true → startswith p s = true.
Proof. unfold startswith. rewrite !prefix_app. intros [b ->]. exists (c +:+ b). by rewrite str_app_assoc. Qed.

Lemma starts_more p s : startswith (String "/" p) (String "/" s) = startswith p s.
Proof. done. Qed.

Lemma initial_slashes_normal n l : Forall wf_comp l → (n ≤ 2)%nat → initial_slashes (slashes n +:+ String.concat "/" l) = n.
Proof.
  intros H L.
  assert (startswith "/" (String.concat "/" l) = false) as Hn.
  { destruct l as [|c l]; [done|]. inversion_clear H as [|? ? Hc].
    destruct (concat_first_char c l Hc) as (a & t & -> & Ha). by apply starts_slash_none. }
  set (q := String.concat "/" l) in *. unfold initial_slashes.
  assert (∀ p, startswith ("/" +:+ p) q = false) as Hq.
  { intros p. destruct (startswith ("/" +:+ p) q) eqn:E; [|done]. by apply starts_longer in E; rewrite E in Hn. }
  destruct n as [|[|[|n]]]; [| | |lia].
  - change (slashes 0 +:+ q) with q. by rewrite (Hq "//"%string : startswith "///" q = false), (Hq "/"%string : startswith "//" q = false), Hn.
  - change (slashes 1 +:+ q) with (String "/" q). rewrite !starts_more, Hn, (Hq "/"%string : startswith "//" q = false). by destruct q.
  - change (slashes 2 +:+ q) with (String "/" (String "/" q)). rewrite !starts_more, Hn. by destruct q.
Qed.

Lemma normal_path_fixed n l p : normal_path n l p → normpath p = p.
Proof.
  intros [Hs Hn ->]. pose proof (normal_stack_comps _ _ Hs) as Hc. apply Forall_rev in Hc. rewrite rev_involutive in Hc.
  destruct ((n =? 0)%nat && _) eqn:E; [done|]. unfold normpath. rewrite slashes_empty, E, initial_slashes_normal by done.
  assert (normal_comps (negb (n =? 0)%nat) [] (split_on "/" (slashes n +:+ String.concat "/" l)) = l) as ->.
  { assert (∀ m, normal_comps m [] (split_on "/" (slashes n +:+ String.concat "/" l)) = normal_comps m [] (split_on "/" (String.concat "/" l))) as ->.
    { intros m. destruct n as [|[|[|n]]]; [done..|lia]. }
    destruct l as [|c l]; [done|]. rewrite concat_split by done. rewrite normal_comps_id; [done|]. by rewrite app_nil_r. }
  by rewrite slashes_empty, E.
Qed.

Lemma normpath_idem s : normpath (normpath s) = normpath s.
Proof. destruct (normpath_normal s) as (n & l & H). by eapply normal_path_fixed. Qed.

(** ** Scopes *)

Definition no_backslash (s : string) : Prop := str_forall (λ c, negb (Ascii.eqb c "\")) s = true.

Lemma to_slashes_none s : no_backslash (to_slashes s).
Proof.
  unfold no_backslash. induction s as [|c s IH]; [done|]. cbn [to_slashes str_forall].
  destruct (Ascii.eqb c "\") eqn:E; [done|]. by rewrite E.
Qed.

Lemma to_slashes_id s : no_backslash s → to_slashes s = s.
Proof.
  unfold no_backslash. induction s as [|c s IH]; [done|]. cbn [to_slashes str_forall]. rewrite andb_true_iff, negb_true_iff.
  intros [-> H]. by rewrite IH.
Qed.

(** Every character of a normal path is one of the path, or a dot or a slash. *)
Lemma split_forall p s : str_forall p s = true → Forall (λ c, str_forall p c = true) (split_on "/" s).
Proof.
  induction s as [|c s IH]; cbn [split_on str_forall]; [by repeat constructor|]. rewrite andb_true_iff. intros [Hc Hs].
  specialize (IH Hs). destruct (Ascii.eqb "/" c); [by constructor|].
  destruct (split_on "/" s) as [|w ws]; [constructor; [cbn [str_forall]; by rewrite Hc|done]|].
  inversion_clear IH. constructor; [|done]. cbn [str_forall]. by apply andb_true_iff.
Qed.

Lemma normal_comps_sub absolute acc comps (P : string → Prop) :
  Forall P acc → Forall P comps → P ".."%string → Forall P (normal_comps absolute acc comps).
Proof.
  intros Ha Hc Hd. revert acc Ha Hc. induction comps as [|c comps IH]; intros acc Ha Hc; cbn [normal_comps]; [by apply Forall_rev|].
  inversion_clear Hc. destruct (_ || _); [by apply IH|]. destruct (negb _); [apply IH; [by constructor|done]|].
  destruct acc as [|d acc']; [destruct absolute; (apply IH; [by repeat constructor|done])|].
  destruct (String.eqb d ".."); (apply IH; [|done]); inversion_clear Ha; by repeat constructor.
Qed.

Lemma concat_forall p l : Forall (λ c, str_forall p c = true) l → p "/"%char = true → str_forall p (String.concat "/" l) = true.
Proof.
  intros H Hp. induction H as [|c l Hc _ IH]; [done|]. destruct l as [|d l]; [done|].
  change (String.concat "/" (c :: d :: l)) with (c +:+ String "/" (String.concat "/" (d :: l))).
  rewrite str_forall_app, Hc. cbn [str_forall]. by rewrite Hp.
Qed.

Lemma normpath_forall p s : str_forall p s = true → p "/"%char = true → p "."%char = true → str_forall p (normpath s) = true.
Proof.
  intros Hs H1 H2. assert (str_forall p "." = true) as Hdot by (cbn [str_forall]; by rewrite H2).
  unfold normpath. destruct (is_empty s); [done|].
  set (l := normal_comps _ _ _). assert (Forall (λ c, str_forall p c = true) l) as Hl.
  { apply normal_comps_sub; [constructor|by apply split_forall|]. cbn [str_forall]. by rewrite H2. }
  destruct (is_empty _); [done|]. rewrite str_forall_app, concat_forall by done.
  destruct (initial_slashes s) as [|[|n]]; cbn [slashes str_forall]; by rewrite ?H1.
Qed.

(** A namespace and target as [_normalize_path] produces them. *)
Definition good_target (kind : string) (target : option string) : Prop :=
  (kind = "server"%string ∧ target = None) ∨
  ((kind = "mapping" ∨ kind = "storage")%string ∧ ∃ t, target = Some t ∧ t ≠ ""%string ∧ has_char ":" t = false).

Lemma partition_target c s a b : partition_on c s = (a, true, b) → has_char c a = false ∧ s = a +:+ String c b.
Proof.
  unfold has_char. revert a. induction s as [|d s IH]; intros a; cbn [partition_on]; [done|].
  destruct (Ascii.eqb_spec c d) as [<-|N]; [by intros [= <- <-]|].
  destruct (partition_on c s) as [[a' f] b'] eqn:E. intros [= <- -> <-]. destruct (IH _ eq_refl) as [H ->].
  cbn [str_exists]. by rewrite (proj2 (Ascii.eqb_neq c d) N).
Qed.

Lemma partition_app c a b : has_char c a = false → partition_on c (a +:+ String c b) = (a, true, b).
Proof.
  unfold has_char. induction a as [|d a IH]; intros H; [change ("" +:+ String c b) with (String c b); cbn [partition_on]; by rewrite Ascii.eqb_refl|]. rewrite str_app_cons.
  cbn [partition_on str_exists] in *. apply orb_false_iff in H as [-> H]. by rewrite IH.
Qed.

Lemma after_prefix_app p s : after_prefix p (p +:+ s) = Some s.
Proof. induction p as [|c p IH]; [by destruct s|]. rewrite str_app_cons. cbn [after_prefix]. by rewrite Ascii.eqb_refl. Qed.

Lemma scope_kind_good raw kind target p : scope_kind raw = Ok (kind, target, p) → good_target kind target.
Proof.
  unfold scope_kind. destruct (after_prefix "server:" raw); [intros [= <- <- _]; by left|].
  destruct (after_prefix "mapping:" raw) as [rest|].
  - destruct (partition_on ":" rest) as [[t f] x] eqn:E. destruct f; [|done]. destruct (is_empty t) eqn:Et; [done|].
    intros [= <- <- _]. apply partition_target in E as [H _]. right. split; [by left|]. exists t. split_and!; [done| |done]. by intros ->.
  - destruct (after_prefix "storage:" raw) as [rest|]; [|intros [= <- <- _]; by left].
    destruct (partition_on ":" rest) as [[t f] x] eqn:E. destruct f; [|done]. destruct (is_empty t) eqn:Et; [done|].
    intros [= <- <- _]. apply partition_target in E as [H _]. right. split; [by right|]. exists t. split_and!; [done| |done]. by intros ->.
Qed.

Lemma scope_kind_again kind target p : good_target kind target → scope_kind (scope_prefix kind target +:+ p) = Ok (kind, target, p).
Proof.
  intros [[-> ->]|[Hk (t & -> & Ht & Hc)]]; cbn [scope_prefix].
  - unfold scope_kind. by rewrite (after_prefix_app "server:" p : after_prefix "server:" (("server" +:+ ":") +:+ p) = Some p).
  - assert (negb (is_empty t) = true) as He by by destruct t.
    assert (∀ k, (k +:+ ":" +:+ t +:+ ":") +:+ p = (k +:+ ":") +:+ (t +:+ String ":" p)) as Eq
      by (intros k; by rewrite !str_app_assoc).
    rewrite Eq. unfold scope_kind. destruct Hk as [-> | ->].
    + change (after_prefix "server:" _) with (@None string).
      rewrite (after_prefix_app "mapping:" _ : after_prefix "mapping:" (("mapping" +:+ ":") +:+ _) = Some _).
      by rewrite partition_app, He by done.
    + change (after_prefix "server:" _) with (@None string). change (after_prefix "mapping:" _) with (@None string).
      rewrite (after_prefix_app "storage:" _ : after_prefix "storage:" (("storage" +:+ ":") +:+ _) = Some _).
      by rewrite partition_app, He by done.
Qed.

(** A path that [_normalize_path] leaves as it is below a namespace. *)
Record settled (kind p : string) : Prop := {
  st_nonempty : p ≠ ""%string;
  st_slashes : no_backslash p;
  st_normal : normpath p = p;
  st_inside : if String.eqb kind "server" then lstrip slash p = p ∧ escapes p = false
              else negb (startswith "/" p) && negb (has_drive p) && escapes p = false }.

Lemma lstrip_slashes n l : Forall wf_comp l → lstrip slash (slashes n +:+ String.concat "/" l) = String.concat "/" l.
Proof.
  intros H. assert (lstrip slash (String.concat "/" l) = String.concat "/" l) as E.
  { destruct l as [|c l]; [done|]. inversion_clear H as [|? ? Hc]. destruct (concat_first_char c l Hc) as (a & t & -> & Ha).
    cbn [lstrip]. by rewrite Ha. }
  by destruct n as [|[|n]].
Qed.

(** The server's path: without its leading slashes it is still normal. *)
Lemma server_path s (q := if is_empty (lstrip slash (normpath s)) then "."%string else lstrip slash (normpath s)) :
  lstrip slash q = q ∧ ∃ l, normal_path 0 l q.
Proof.
  destruct (normpath_normal s) as (n & l & [Hs Hn E]). subst q. rewrite E.
  pose proof (normal_stack_comps _ _ Hs) as Hc. apply Forall_rev in Hc. rewrite rev_involutive in Hc.
  destruct ((n =? 0)%nat && _) eqn:E0; [split; [done|]; exists []; by split; [|lia|]|].
  rewrite lstrip_slashes by done. destruct l as [|c l]; [split; [done|]; exists []; by split; [|lia|]|].
  rewrite (slashes_empty 0 (c :: l) Hc ltac:(lia) : is_empty (String.concat "/" (c :: l)) = false). split.
  - exact (lstrip_slashes 0 _ Hc).
  - exists (c :: l). split; [|lia|done]. cbn [Nat.eqb negb]. destruct (n =? 0)%nat; [done|]. by apply normal_stack_relative.
Qed.

Lemma normpath_nonempty s : normpath s ≠ ""%string.
Proof. unfold normpath. destruct (is_empty s); [done|]. set (p := _ +:+ _). clearbody p. by destruct p. Qed.

Lemma lstrip_str_forall p q s : str_forall p s = true → str_forall p (lstrip q s) = true.
Proof. induction s as [|c s IH]; [done|]. cbn [lstrip]. destruct (q c); [|done]. cbn. rewrite andb_true_iff. tauto. Qed.

Lemma normalize_Ok v q : _normalize_path v = Ok q →
  ∃ kind target p, q = scope_prefix kind target +:+ p ∧ good_target kind target ∧ settled kind p ∧ slen q ≤ MAX_MEMORY_PATH_CHARS.
Proof.
  unfold _normalize_path. destruct v as [| | | |v| |]; try done. destruct (is_empty (strip v)); [done|].
  destruct (scope_kind (strip v)) as [[[kind target] pv]|] eqn:Ek; [|done]. apply scope_kind_good in Ek.
  set (x := if is_empty (to_slashes pv) then "."%string else to_slashes pv).
  assert (no_backslash (normpath x)) as Hb.
  { apply normpath_forall; [|done..]. unfold x. destruct (is_empty _); [done|]. apply to_slashes_none. }
  intros H. destruct (if String.eqb kind "server" then _ else _) as [p|] eqn:Ep; [|done].
  destruct (MAX_MEMORY_PATH_CHARS <? _) eqn:El; [done|]. injection H as <-. exists kind, target, p.
  split_and!; [done..| |lia]. destruct (String.eqb kind "server") eqn:Es.
  - set (y := if is_empty (lstrip slash (normpath x)) then _ else _) in Ep. destruct (escapes y) eqn:Ee; [done|]. injection Ep as <-.
    destruct (server_path x) as [Hl (l & Hn)]. fold y in Hl, Hn.
    split; [| |by eapply normal_path_fixed|by rewrite Es].
    + unfold y. clear. by destruct (lstrip slash (normpath x)).
    + unfold y. destruct (is_empty (lstrip slash (normpath x))); [done|]. by apply lstrip_str_forall.
  - destruct (_ && escapes _) eqn:Ee; [done|]. injection Ep as <-.
    split; [apply normpath_nonempty|done|apply normpath_idem|by rewrite Es].
Qed.

Lemma normalize_again kind target p (q := scope_prefix kind target +:+ p) :
  good_target kind target → settled kind p → slen q ≤ MAX_MEMORY_PATH_CHARS → strip q = q → _normalize_path (JStr q) = Ok q.
Proof.
  intros Hg [Hne Hb Hn Hi] Hl Hs. unfold _normalize_path. rewrite Hs.
  assert (is_empty q = false) as -> by (unfold q, scope_prefix; destruct Hg as [[-> ->]|[[-> | ->] (t & -> & _)]]; done).
  unfold q at 1. rewrite scope_kind_again by done. rewrite to_slashes_id by done.
  assert (is_empty p = false) as -> by by destruct p. rewrite Hn.
  destruct (String.eqb kind "server") eqn:Es.
  - destruct Hi as [Hi1 Hi2]. rewrite Hi1. assert (is_empty p = false) as -> by by destruct p. rewrite Hi2. fold q.
    by rewrite (proj2 (Z.ltb_ge _ _)).
  - rewrite Hi. fold q. by rewrite (proj2 (Z.ltb_ge _ _)).
Qed.

(** ** Overlap *)

(** The scope of a workspace directory, from its components. *)
Definition server_scope (l : list string) : string :=
  "server:" +:+ match l with [] => "."%string | _ => String.concat "/" l end.

Lemma server_scope_comps v a :
  _normalize_path v = Ok a → startswith "server:" a = true →
  ∃ l, Forall wf_comp l ∧ a = server_scope l.
Proof.
  intros (kind & target & p & -> & Hg & [Hne Hb Hn Hi] & _)%normalize_Ok Hs.
  destruct Hg as [[-> ->]|[Hk (t & -> & _)]].
  2:{ exfalso. apply prefix_app in Hs as [b E]. by destruct Hk as [-> | ->]. }
  cbn [scope_prefix] in *. destruct Hi as [Hi _]. destruct (normpath_normal p) as (n & l & [Hst Hln E]). rewrite Hn in E.
  pose proof (normal_stack_comps _ _ Hst) as Hc. apply Forall_rev in Hc. rewrite rev_involutive in Hc.
  assert (n = 0%nat) as ->.
  { destruct n as [|n]; [done|]. exfalso. cbn [Nat.eqb andb] in E. rewrite E, lstrip_slashes in Hi by done.
    revert Hi. generalize (String.concat "/" l). intros q Hi. apply (f_equal String.length) in Hi. destruct n; [change (slashes 1 +:+ q) with (String "/" q) in Hi|change (slashes (S (S n)) +:+ q) with (String "/" (String "/" q)) in Hi]; cbn [String.length] in Hi; lia. }
  exists l. split; [done|]. unfold server_scope. rewrite E. by destruct l.
Qed.

Lemma concat_app l k : l ≠ [] → k ≠ [] → String.concat "/" (l ++ k) = String.concat "/" l +:+ String "/" (String.concat "/" k).
Proof.
  intros Hl Hk. induction l as [|c l IH]; [done|]. destruct l as [|d l]; [by destruct k|].
  change ((c :: d :: l) ++ k) with (c :: (d :: l) ++ k).
  change (String.concat "/" (c :: (d :: l) ++ k)) with (c +:+ String "/" (String.concat "/" ((d :: l) ++ k))).
  rewrite IH by done. change (String.concat "/" (c :: d :: l)) with (c +:+ String "/" (String.concat "/" (d :: l))).
  by rewrite str_app_assoc.
Qed.

Lemma rstrip_slash s : rstrip slash s = rstrip (Ascii.eqb "/") s.
Proof. induction s as [|c s IH]; [done|]. cbn [rstrip]. rewrite IH. unfold slash. by rewrite (Ascii.eqb_sym c). Qed.

(** A directory lies above what starts with its text and a slash. *)
Lemma below_prefix r l : Forall wf_comp r → Forall wf_comp l → r ≠ [] → l ≠ [] →
  startswith (rstrip slash (String.concat "/" r) +:+ "/") (String.concat "/" l) = true ↔ r `prefix_of` l ∧ r ≠ l.
Proof.
  intros Hr Hl Nr Nl. rewrite rstrip_slash, concat_last_char by done. unfold startswith. rewrite prefix_app. split.
  - intros [b E]. rewrite str_app_assoc in E. change ("/" +:+ b) with (String "/" b) in E.
    apply (f_equal (split_on "/")) in E. rewrite split_on_concat, !concat_split in E by done. split; [by exists (split_on "/" b)|].
    intros ->. apply (f_equal length) in E. rewrite length_app in E.
    pose proof (split_on_nonempty "/" b). destruct (split_on "/" b); [done|]. cbn in E. lia.
  - intros [[k ->] Hne]. assert (k ≠ []) as Nk by (intros ->; by rewrite app_nil_r in Hne).
    exists (String.concat "/" k). rewrite concat_app by done. by rewrite str_app_assoc.
Qed.

Lemma server_scope_split l : split_scope (server_scope l) = ("server"%string, None, match l with [] => "."%string | _ => String.concat "/" l end).
Proof. unfold server_scope, split_scope. rewrite after_prefix_app. done. Qed.

Lemma dot_comps l : Forall wf_comp l → String.eqb (match l with [] => "."%string | _ => String.concat "/" l end) "." = bool_decide (l = []).
Proof.
  intros H. destruct l as [|c l]; [done|]. rewrite bool_decide_false by done. apply String.eqb_neq. intros E.
  apply (f_equal (split_on "/")) in E. rewrite concat_split in E by done. injection E as -> ->. inversion_clear H as [|? ? Hc].
  by destruct Hc as (_ & ? & _).
Qed.

Lemma server_scope_root l : Forall wf_comp l → String.eqb (server_scope l) "server:." = bool_decide (l = []).
Proof. intros H. rewrite <- (dot_comps l H). by unfold server_scope; destruct l. Qed.

Lemma normalize_settles v q : _normalize_path v = Ok q → strip q = q → _normalize_path (JStr q) = Ok q.
Proof. intros (kind & target & p & -> & Hg & Hp & Hl)%normalize_Ok Hs. by apply normalize_again. Qed.

(** Normalizing a memory scope settles it: the scope that comes out normalizes to
    itself, provided it does not begin or end in white space. *)
Theorem memory_scope_settles v q :
  _normalize_path v = Ok q → strip q = q → _normalize_path (JStr q) = Ok q.
Proof. apply normalize_settles. Qed.

(** With white space at its end a scope does not settle: each round of
    normalization takes more of it off, until the path leaves the workspace and the
    third round raises. *)
Theorem memory_scope_unsettled :
  _normalize_path (JStr ".. / /.") = Ok "server:.. / "%string ∧
  _normalize_path (JStr "server:.. / ") = Ok "server:.. "%string ∧
  _normalize_path (JStr "server:.. ") = Err (ValueError "server memory paths must stay inside the workspace root").
Proof. vm_compute. done. Qed.

(** Two workspace scopes overlap exactly when one directory contains the other,
    component by component; a sibling whose name merely begins alike does not. *)
Theorem memory_scopes_overlap v w a b :
  _normalize_path v = Ok a → _normalize_path w = Ok b → startswith "server:" a = true → startswith "server:" b = true →
  strip a = a → strip b = b →
  ∃ l r, Forall wf_comp l ∧ Forall wf_comp r ∧ a = server_scope l ∧ b = server_scope r ∧
    _paths_overlap a b = Ok (bool_decide (l `prefix_of` r ∨ r `prefix_of` l)).
Proof.
  intros Ha Hb Sa Sb Ta Tb. destruct (server_scope_comps _ _ Ha Sa) as (l & Hl & El), (server_scope_comps _ _ Hb Sb) as (r & Hr & Er).
  exists l, r. split_and!; [done..|]. unfold _paths_overlap.
  assert (_normalize_path (JStr a) = Ok a) as -> by by eapply normalize_settles.
  assert (_normalize_path (JStr b) = Ok b) as -> by by eapply normalize_settles.
  rewrite El, Er, !server_scope_root, !server_scope_split, !dot_comps, (bool_decide_true (("server"%string, None) = _)) by done.
  cbn [negb]. destruct l as [|c l]; [rewrite (bool_decide_true (_ ∨ _)) by (left; apply prefix_nil); done|].
  destruct r as [|d r]; [rewrite (bool_decide_true (_ ∨ _)) by (right; apply prefix_nil); done|].
  rewrite !(bool_decide_false (_ :: _ = [])) by done. cbn [orb]. change (fold_for "server" ?s) with s. f_equal.
  apply eq_iff_eq_true. rewrite !orb_true_iff, bool_decide_eq_true, !below_prefix, String.eqb_eq by done. split.
  - intros [[E|[? _]]|[? _]]; [|by right|by left]. left.
    apply (f_equal (split_on "/")) in E. rewrite !concat_split in E by done. by rewrite E.
  - intros H. destruct (decide (c :: l = d :: r)) as [->|N]; [by left; left|].
    destruct H; [by right|left; right]. split; [done|]. by intros E; symmetry in E.
Qed.
