(* ===== verification/Context.v ===== *)
(** * Context: the operation history and plan tracker of a workspace

    Models class [ContextStore] of src/openkapsel/context/context_store.py.  The
    database is the list of its entries in the order of their ids, the id counter of
    AUTOINCREMENT, the recorded paths, the debriefs, the receipts of plan requests and
    the conversation tables.  A method is one transaction: it returns its value with
    the new database, or raises with the old one.  Stored JSON texts are the values
    they read back as.  The clock is an argument. *)

From Stdlib Require Import ZArith QArith Lia Ascii String.
From stdpp Require Import base tactics list sorting gmap strings pretty fin_maps.
From S2P Require Import Prelude JsonText Sql PosixPath Conversation.

Local Open Scope Z_scope.

Definition MAX_CONTEXT_ENTRIES : Z := 100000.
Definition CONTEXT_TRIM_ENTRIES : nat := 1000.
Definition MAX_CONTEXT_QUERY_LIMIT : Z := 200.
Definition MAX_CONTEXT_CONTENT_CHARS : Z := 32768.
Definition MAX_CONTEXT_OPERATION_MESSAGE_CHARS : Z := 200.
Definition MAX_CONTEXT_TASKNAME_CHARS : Z := 32.
Definition MAX_CONTEXT_ACTOR_ID_CHARS : Z := 256.
Definition MAX_CONTEXT_PATH_CHARS : Z := 4096.
Definition CONTEXT_PATH_KEYS : list string := ["path"; "source"; "destination"; "cwd"].
Definition MAX_PLAN_TREE_DEPTH : Z := 32.
Definition MAX_UNFINISHED_ROOT_PLAN_HINTS : Z := 20.
Definition MAX_PLAN_HINT_CONTENT_CHARS : nat := 256.

(** ** Rows *)

Inductive etype := operation | plan | note.
#[export] Instance etype_eq_dec : EqDecision etype.
Proof. solve_decision. Defined.
Inductive op_status := running | succeeded | failed.
#[export] Instance op_status_eq_dec : EqDecision op_status.
Proof. solve_decision. Defined.
Inductive pstatus := in_progress | completed | cancelled.
#[export] Instance pstatus_eq_dec : EqDecision pstatus.
Proof. solve_decision. Defined.

Definition type_of (s : string) : option etype :=
  if String.eqb s "operation" then Some operation else if String.eqb s "plan" then Some plan
  else if String.eqb s "note" then Some note else None.
Definition status_of (s : string) : option op_status :=
  if String.eqb s "running" then Some running else if String.eqb s "succeeded" then Some succeeded
  else if String.eqb s "failed" then Some failed else None.
Definition plan_status_of (s : string) : option pstatus :=
  if String.eqb s "in_progress" then Some in_progress else if String.eqb s "completed" then Some completed
  else if String.eqb s "cancelled" then Some cancelled else None.

Definition dictionary : Type := list (string * json).

Record row := {
  id : Z;
  created_at : Z;
  updated_at : Z;
  entry_type : etype;
  content : string;
  operation_name : option string;
  status : option op_status;
  result_summary : option string;
  actor_id : option string;
  request_json : option dictionary;
  result_json : option dictionary;
  taskname : string;
  plan_status : option pstatus;
  plan_id : option Z;
  conversation_id : option Z;
  revision : Z }.

(** An item of a debrief: one durable fact with its tags. *)
Record debrief_item := { di_content : string; di_tags : list string }.

Record debrief_row := {
  d_plan : Z; d_created : Z; d_actor : option string; d_summary : string; d_items : list debrief_item;
  d_outcome : string; d_refs : list json; d_feedback : list json; d_conflicts : list json }.

(** A child of a creation receipt. *)
Record child_receipt := {
  h_id : Z; h_plan_id : option Z; h_taskname : string; h_status : option pstatus; h_revision : Z;
  h_index : nat; h_ref : option string }.

(** What [create_plans] returns and, for a request id, stores. *)
Record plan_receipt := {
  p_root : row; p_todos : list child_receipt; p_scope_paths : list string; p_memory_tags : list string;
  p_entries : list centry; p_summary : summary_status; p_request : option string; p_replayed : option bool }.

Record plan_request := { pr_fingerprint : string; pr_created : Z; pr_response : plan_receipt }.

Record db := Db {
  entries : list row;
  sequence : Z;
  entry_paths : gset (Z * string);
  plan_debriefs : list debrief_row;
  plan_requests : gmap (string * string) plan_request;
  chats : cstore }.

Definition empty_db : db := Db [] 0 ∅ [] ∅ empty_cstore.

(** Run a transaction: an exception rolls back. *)
Definition txn {A} (f : db → res exn (A * db)) (d : db) : res exn A * db :=
  match f d with Ok (a, d') => (Ok a, d') | Err x => (Err x, d) end.

(** ** Validation *)

Definition stripped_text (value : json) (empty : string) (maximum : Z) (long : string) : res exn string :=
  match value with
  | JStr s =>
      raise! (ValueError empty) when is_empty (strip s);
      raise! (ValueError long) when maximum <? slen (strip s);
      Ok (strip s)
  | _ => Err (ValueError empty)
  end.

Definition _validate_content (value : json) : res exn string :=
  stripped_text value "context content must be a non-empty string" MAX_CONTEXT_CONTENT_CHARS
    ("context content exceeds " +:+ pretty MAX_CONTEXT_CONTENT_CHARS +:+ " characters").
Definition _validate_taskname (value : json) : res exn string :=
  stripped_text value "context taskname must be a non-empty string" MAX_CONTEXT_TASKNAME_CHARS
    ("context taskname exceeds " +:+ pretty MAX_CONTEXT_TASKNAME_CHARS +:+ " characters").
Definition _validate_actor_id (value : string) : res exn string :=
  stripped_text (JStr value) "context actor_id must be a non-empty string" MAX_CONTEXT_ACTOR_ID_CHARS
    ("context actor_id exceeds " +:+ pretty MAX_CONTEXT_ACTOR_ID_CHARS +:+ " characters").
Definition validate_actor (actor : option string) : res exn (option string) :=
  match actor with None => Ok None | Some a => let! a' := _validate_actor_id a in Ok (Some a') end.

Definition _normalize_path (p : string) : res exn string :=
  raise! (ValueError "context path must be a non-empty string") when is_empty (strip p);
  let v := normpath (strip p) in
  raise! (ValueError ("context path exceeds " +:+ pretty MAX_CONTEXT_PATH_CHARS +:+ " characters"))
    when MAX_CONTEXT_PATH_CHARS <? slen v;
  Ok v.

(** A candidate path; blank and overlong ones are skipped. *)
Definition path_item (v : json) : option string :=
  match v with
  | JStr s => match _normalize_path s with Ok p => Some p | Err _ => None end
  | _ => None
  end.

Definition _extract_paths (value : option dictionary) : gset string :=
  match value with
  | None => ∅
  | Some fields =>
      let named := mjoin ((λ k, match obj_get k fields with
                                | Some (JList l) => omap path_item l
                                | Some v => omap path_item [v]
                                | None => []
                                end) <$> CONTEXT_PATH_KEYS) in
      let items := match obj_get "items" fields with
                   | Some (JList l) =>
                       omap (λ v, match v with
                                  | JObj f => match obj_get "path" f with Some p => path_item p | None => None end
                                  | _ => None
                                  end) l
                   | _ => []
                   end in
      list_to_set (named ++ items)
  end.

(** INSERT OR IGNORE INTO context_entry_paths *)
Definition _insert_paths (entry : Z) (value : option dictionary) (d : db) : db :=
  Db d.(entries) d.(sequence) (d.(entry_paths) ∪ set_map (λ p, (entry, p)) (_extract_paths value))
    d.(plan_debriefs) d.(plan_requests) d.(chats).

Definition _validate_plan_id_value (v : json) : res exn Z :=
  match v with
  | JInt n => raise! (ValueError "plan_id must be a positive integer") when n <? 1; Ok n
  | _ => Err (ValueError "plan_id must be a positive integer")
  end.

Definition _validate_revision (v : json) : res exn Z :=
  match v with
  | JInt n => raise! (ValueError "plan expected_revision must be a positive integer") when n <? 1; Ok n
  | _ => Err (ValueError "plan expected_revision must be a positive integer")
  end.

(** SELECT * FROM context_entries WHERE id = ?; an id beyond the range of SQLite's
    integers cannot be bound. *)
Definition by_id (n : Z) (r : row) : bool := r.(id) =? n.
Definition select_entry (n : Z) (d : db) : res exn (option row) :=
  raise! OverflowError when sqlite_max <? n; Ok (fetchone (by_id n) d.(entries)).

Definition is_plan (r : row) : bool := bool_decide (r.(entry_type) = plan).
(** [row["plan_status"] or "in_progress"] *)
Definition plan_state (r : row) : pstatus := default in_progress r.(plan_status).

Definition _require_plan (pid : json) (d : db) : res exn row :=
  let! n := _validate_plan_id_value pid in
  let! r := select_entry n d in
  match r with
  | None => Err (ValueError "plan_id does not exist")
  | Some r => raise! (ValueError "plan_id must reference a plan") when negb (is_plan r); Ok r
  end.

Definition _require_in_progress_plan_row (pid : json) (d : db) : res exn row :=
  let! r := _require_plan pid d in
  raise! (ValueError "plan_id must reference an in_progress plan") when negb (bool_decide (plan_state r = in_progress));
  Ok r.

Definition require_in_progress_plan (pid : json) (d : db) : res exn Z :=
  let! n := _validate_plan_id_value pid in
  let! _ := _require_in_progress_plan_row pid d in Ok n.

Definition capability_conversation (pid nonce : json) (d : db) : res exn Z :=
  let! r := _require_in_progress_plan_row pid d in
  match r.(conversation_id) with
  | None => Err (ValueError "plan has no owning conversation")
  | Some c => verify_writer_nonce (JInt c) nonce d.(chats)
  end.

(** ** The hierarchy of plans *)

Definition find_plan (n : Z) (t : list row) : option row := fetchone (λ r, by_id n r && is_plan r) t.

(** The loop of [_plan_root]; [fuel] bounds its rounds, [Ok None] is the run that
    needs more of them. *)
Fixpoint root_loop (fuel : nat) (child : option Z) (current : Z) (visited : list Z) (root : option row) (t : list row)
    : res exn (option row) :=
  match fuel with
  | 0%nat => Ok None
  | S fuel' =>
      raise! (ValueError "plan parent would create a cycle") when bool_decide (child = Some current);
      raise! (ValueError "existing plan hierarchy contains a cycle") when bool_decide (current ∈ visited);
      match find_plan current t with
      | None => match root with None => Err AssertionError | Some _ => Ok root end
      | Some r =>
          match r.(plan_id) with
          | None => Ok (Some r)
          | Some p => root_loop fuel' child p (current :: visited) (Some r) t
          end
      end
  end.

Definition _plan_root (pid : json) (child : option Z) (d : db) : res exn (option row) :=
  let! n := _validate_plan_id_value pid in
  let! _ := _require_plan pid d in
  raise! (ValueError "a plan cannot be its own parent") when bool_decide (child = Some n);
  root_loop (S (length d.(entries))) child n [] None d.(entries).

Definition _validate_plan_parent (pid : json) (child : option Z) (require_root_in_progress : bool) (d : db)
    : res exn Z :=
  let! n := _validate_plan_id_value pid in
  let! parent := _require_plan pid d in
  raise! (ValueError "subplan creation requires the parent plan to be in_progress")
    when negb (bool_decide (plan_state parent = in_progress));
  let! root := _plan_root pid child d in
  raise! (ValueError "subplan creation requires the root plan to be in_progress")
    when require_root_in_progress &&
         match root with Some r => negb (bool_decide (plan_state r = in_progress)) | None => false end;
  Ok n.

(** ** Insertion and trimming *)

(** INSERT INTO context_entries: the next id, revision 1. *)
Definition insert_row (r : row) (d : db) : db :=
  Db (d.(entries) ++ [r]) r.(id) d.(entry_paths) d.(plan_debriefs) d.(plan_requests) d.(chats).
Definition next_id (d : db) : Z := d.(sequence) + 1.

(** DELETE FROM context_entries, with its two cascades. *)
Definition delete_rows (p : row → bool) (d : db) : db :=
  let gone := id <$> fetchall p d.(entries) in
  Db (delete_where p d.(entries)) d.(sequence) (filter (λ e, e.1 ∉ gone) d.(entry_paths))
    (delete_where (λ b, bool_decide (b.(d_plan) ∈ gone)) d.(plan_debriefs)) d.(plan_requests) d.(chats).

(** A plan that some entry belongs to is kept. *)
Definition referenced (t : list row) (r : row) : bool := existsb (λ x, bool_decide (x.(plan_id) = Some r.(id))) t.
Definition trim_candidates (protected_ids : list Z) (t : list row) : list row :=
  fetchall (λ r, (negb (is_plan r) || negb (referenced t r)) && negb (bool_decide (r.(id) ∈ protected_ids))) t.

Definition _trim_if_needed (protected_ids : list Z) (d : db) : db :=
  if MAX_CONTEXT_ENTRIES <? Z.of_nat (length d.(entries)) then
    let old := id <$> take CONTEXT_TRIM_ENTRIES (trim_candidates protected_ids d.(entries)) in
    delete_rows (λ r, bool_decide (r.(id) ∈ old)) d
  else d.

(** ** Adding entries *)

Record add_args := {
  aa_type : string; aa_content : json; aa_taskname : json; aa_actor : option string; aa_operation : option string;
  aa_status : option string; aa_plan_status : option string; aa_plan : json; aa_request : option dictionary;
  aa_require_in_progress : bool }.

(** The checks of [add] on the type and the two statuses. *)
Definition add_kind (a : add_args) : res exn (etype * option op_status * option pstatus) :=
  match type_of a.(aa_type) with
  | None => Err (ValueError "context type must be operation, plan, or note")
  | Some t =>
      let! s := match a.(aa_status) with
                | None => Ok None
                | Some s => match status_of s with
                            | None => Err (ValueError "invalid context operation status")
                            | Some s => Ok (Some s)
                            end
                end in
      raise! (ValueError "only operation context can have an operation status")
        when negb (bool_decide (t = operation)) && bool_decide (is_Some s);
      raise! (ValueError "operation context cannot have a plan status")
        when bool_decide (t = operation) && bool_decide (is_Some a.(aa_plan_status));
      raise! (ValueError "plan creation does not accept status; all plans start in_progress")
        when bool_decide (t = plan) && bool_decide (is_Some a.(aa_plan_status));
      raise! (ValueError "only plan context can have a plan status")
        when negb (bool_decide (t = plan)) && bool_decide (is_Some a.(aa_plan_status));
      Ok (t, s, if bool_decide (t = plan) then Some in_progress else None)
  end.

(** The plan an entry is attached to. *)
Definition add_plan (t : etype) (a : add_args) (d : db) : res exn (option Z) :=
  match a.(aa_plan) with
  | JNull => Ok None
  | pid =>
      match t with
      | plan => let! n := _validate_plan_parent pid None true d in Ok (Some n)
      | note => let! n := _validate_plan_id_value pid in let! _ := _require_in_progress_plan_row pid d in Ok (Some n)
      | operation =>
          let! n := _validate_plan_id_value pid in
          let! _ := (if a.(aa_require_in_progress) then _require_in_progress_plan_row pid d else _require_plan pid d) in
          Ok (Some n)
      end
  end.

Definition add_entry (a : add_args) (now : Z) (d : db) : res exn (Z * db) :=
  let! (t, s, ps) := add_kind a in
  let! text := _validate_content a.(aa_content) in
  raise! (ValueError ("context operation message exceeds " +:+ pretty MAX_CONTEXT_OPERATION_MESSAGE_CHARS +:+ " characters"))
    when bool_decide (t = operation) && (MAX_CONTEXT_OPERATION_MESSAGE_CHARS <? slen text);
  let! name := _validate_taskname a.(aa_taskname) in
  let! actor := validate_actor a.(aa_actor) in
  let! pid := add_plan t a d in
  let n := next_id d in
  let d1 := insert_row {| id := n; created_at := now; updated_at := now; entry_type := t; content := text;
                          operation_name := a.(aa_operation); status := s; result_summary := None; actor_id := actor;
                          request_json := a.(aa_request); result_json := None; taskname := name; plan_status := ps;
                          plan_id := pid; conversation_id := None; revision := 1 |} d in
  Ok (n, _trim_if_needed [] (_insert_paths n a.(aa_request) d1)).

Definition add (a : add_args) (now : Z) : db → res exn Z * db := txn (add_entry a now).

(** ** Updating plans *)

(** Plans whose parent is one of [ids]. *)
Definition children (ids : list Z) (t : list row) : list row :=
  fetchall (λ r, is_plan r && match r.(plan_id) with Some p => bool_decide (p ∈ ids) | None => false end) t.

(** The recursive query for the descendants of a plan: UNION drops what is already
    there, and the query ends when a round adds nothing. *)
Fixpoint descend (fuel : nat) (found frontier : list Z) (t : list row) : list Z :=
  match fuel with
  | 0%nat => found
  | S fuel' =>
      let next := id <$> fetchall (λ r, negb (bool_decide (r.(id) ∈ found))) (children frontier t) in
      match next with [] => found | _ => descend fuel' (found ++ next) next t end
  end.
Definition descendants (n : Z) (t : list row) : list Z :=
  let first := id <$> children [n] t in descend (S (length t)) first first t.

(** [... WHERE plan_status = 'in_progress' ORDER BY id ASC LIMIT 1] *)
Definition incomplete_descendant (n : Z) (t : list row) : option row :=
  fetchone (λ r, bool_decide (r.(id) ∈ descendants n t) && bool_decide (plan_state r = in_progress)) t.

Definition pstatus_text (p : pstatus) : string :=
  match p with in_progress => "in_progress" | completed => "completed" | cancelled => "cancelled" end.

(** A tag of a debrief item: stripped, new. *)
Fixpoint debrief_tags (index : nat) (acc : list string) (l : list json) : res exn (list string) :=
  match l with
  | [] => Ok acc
  | JStr t :: l' =>
      raise! (ValueError ("plan debrief item " +:+ pretty index +:+ " tags must be non-empty strings up to 64 characters"))
        when is_empty (strip t) || (64 <? slen (strip t));
      raise! (ValueError ("plan debrief item " +:+ pretty index +:+ " tags must be unique"))
        when bool_decide (strip t ∈ acc);
      debrief_tags index (acc ++ [strip t]) l'
  | _ :: _ => Err (ValueError ("plan debrief item " +:+ pretty index +:+ " tags must be non-empty strings up to 64 characters"))
  end.

Definition validate_debrief_item (index : nat) (v : json) : res exn debrief_item :=
  match v with
  | JObj fields =>
      match obj_get "content" fields with
      | Some (JStr c) =>
          raise! (ValueError ("plan debrief item " +:+ pretty index +:+ " content must be 1-256 characters"))
            when is_empty (strip c) || (256 <? slen (strip c));
          match obj_get "tags" fields with
          | Some (JList l) =>
              raise! (ValueError ("plan debrief item " +:+ pretty index +:+ " tags must contain 1-32 tags; prefer 4-16"))
                when (length l =? 0)%nat || (32 <? length l)%nat;
              let! tags := debrief_tags index [] l in
              Ok {| di_content := strip c; di_tags := tags |}
          | _ => Err (ValueError ("plan debrief item " +:+ pretty index +:+ " tags must contain 1-32 tags; prefer 4-16"))
          end
      | _ => Err (ValueError ("plan debrief item " +:+ pretty index +:+ " content must be 1-256 characters"))
      end
  | _ => Err (ValueError ("plan debrief item " +:+ pretty index +:+ " must be an object"))
  end.

Fixpoint debrief_items (index : nat) (l : list json) : res exn (list debrief_item) :=
  match l with
  | [] => Ok []
  | v :: l' => let! i := validate_debrief_item index v in let! rest := debrief_items (S index) l' in Ok (i :: rest)
  end.

Definition _validate_debrief_items (v : option json) : res exn (list debrief_item) :=
  match v with
  | Some (JList l) =>
      raise! (ValueError "plan debrief items cannot contain more than 20 items") when (20 <? length l)%nat;
      debrief_items 0 l
  | _ => Err (ValueError "plan debrief items must be an array")
  end.

Record update_args := {
  ua_revision : json; ua_taskname : json; ua_content : option json; ua_status : option string;
  ua_debrief : option json; ua_actor : option string; ua_conversation : option json; ua_nonce : option json;
  ua_entries : option json; ua_require_conversation : bool }.

(** The debrief of an update, checked. *)
Record checked_debrief := {
  cd_items : list debrief_item; cd_outcome : string; cd_refs : list json; cd_feedback : list json;
  cd_conflicts : list json; cd_actor : option string }.

(** [debrief.get(key, [])], which must be a list. *)
Definition list_field (key : string) (fields : dictionary) : res exn (list json) :=
  match obj_get_or key (JList []) fields with
  | JList l => Ok l
  | _ => Err (ValueError ("plan debrief " +:+ key +:+ " must be an array"))
  end.

Definition check_debrief (a : update_args) : res exn (option checked_debrief) :=
  match a.(ua_debrief) with
  | None => Ok None
  | Some v =>
      raise! (ValueError "plan debrief is only valid when status is completed")
        when negb (bool_decide (a.(ua_status) = Some "completed"%string));
      match v with
      | JObj fields =>
          let! items := _validate_debrief_items (obj_get "items" fields) in
          let! known := in_strings (obj_get_or "outcome" JNull fields) ["succeeded"; "partial"; "no_change"] in
          raise! (ValueError "plan debrief outcome must be succeeded, partial, or no_change") when negb known;
          let outcome := match obj_get_or "outcome" JNull fields with JStr s => s | _ => ""%string end in
          let! refs := list_field "memory_refs" fields in
          let! feedback := list_field "memory_feedback" fields in
          let! conflicts := list_field "memory_conflicts" fields in
          let! actor := validate_actor a.(ua_actor) in
          Ok (Some {| cd_items := items; cd_outcome := outcome; cd_refs := refs; cd_feedback := feedback;
                      cd_conflicts := conflicts; cd_actor := actor |})
      | _ => Err (ValueError "plan debrief must be an object")
      end
  end.

(** The validated arguments of [update_plan]. *)
Record update_plan_args := {
  up_revision : Z; up_taskname : string; up_content : option string; up_status : option pstatus;
  up_closing_only : bool; up_conversation : option (json * json * json); up_debrief : option checked_debrief }.

Definition check_update (a : update_args) : res exn update_plan_args :=
  let! rev := _validate_revision a.(ua_revision) in
  let! name := _validate_taskname a.(ua_taskname) in
  raise! (ValueError "plan update requires content or status")
    when bool_decide (a.(ua_content) = None) && bool_decide (a.(ua_status) = None) && bool_decide (a.(ua_debrief) = None);
  let! text := match a.(ua_content) with
               | None => Ok None
               | Some c => let! c' := _validate_content c in Ok (Some c')
               end in
  let! st := match a.(ua_status) with
             | None => Ok None
             | Some s => match plan_status_of s with
                         | None => Err (ValueError "plan status must be in_progress, completed, or cancelled")
                         | Some p => Ok (Some p)
                         end
             end in
  let closing_only := bool_decide (st = Some cancelled) && bool_decide (text = None) && bool_decide (a.(ua_debrief) = None) in
  let supplied := bool_decide (is_Some a.(ua_conversation)) || bool_decide (is_Some a.(ua_nonce)) || bool_decide (is_Some a.(ua_entries)) in
  let! conv := (if negb closing_only && (a.(ua_require_conversation) || supplied) then
                  match a.(ua_conversation), a.(ua_nonce), a.(ua_entries) with
                  | None, _, _ => Err (ValueError "plan create/update requires conversation_id")
                  | _, None, _ => Err (ValueError "plan create/update requires writer_nonce")
                  | _, _, None => Err (ValueError "plan create/update requires conversation_entries")
                  | Some c, Some n, Some e => Ok (Some (c, n, e))
                  end
                else Ok None) in
  let! debrief := check_debrief a in
  Ok {| up_revision := rev; up_taskname := name; up_content := text; up_status := st; up_closing_only := closing_only;
        up_conversation := conv; up_debrief := debrief |}.

(** A row after UPDATE ... SET of [update_plan]. *)
Definition updated_row (u : update_plan_args) (now : Z) (conv : option Z) (r : row) : row :=
  {| id := r.(id); created_at := r.(created_at); updated_at := now; entry_type := r.(entry_type);
     content := default r.(content) u.(up_content); operation_name := r.(operation_name); status := r.(status);
     result_summary := r.(result_summary); actor_id := r.(actor_id); request_json := r.(request_json);
     result_json := r.(result_json); taskname := if u.(up_closing_only) then r.(taskname) else u.(up_taskname);
     plan_status := Some (default (plan_state r) u.(up_status)); plan_id := r.(plan_id); conversation_id := conv;
     revision := u.(up_revision) + 1 |}.

Definition put_rows (t : list row) (d : db) : db :=
  Db t d.(sequence) d.(entry_paths) d.(plan_debriefs) d.(plan_requests) d.(chats).
Definition put_chats (c : cstore) (d : db) : db :=
  Db d.(entries) d.(sequence) d.(entry_paths) d.(plan_debriefs) d.(plan_requests) c.
Definition put_debrief (b : debrief_row) (d : db) : db :=
  Db d.(entries) d.(sequence) d.(entry_paths) (d.(plan_debriefs) ++ [b]) d.(plan_requests) d.(chats).

Definition has_debrief (n : Z) (d : db) : bool := existsb (λ b, b.(d_plan) =? n) d.(plan_debriefs).

Definition debrief_of (n now : Z) (c : checked_debrief) : debrief_row :=
  {| d_plan := n; d_created := now; d_actor := c.(cd_actor);
     d_summary := match c.(cd_items) with i :: _ => i.(di_content) | [] => ""%string end;
     d_items := c.(cd_items); d_outcome := c.(cd_outcome); d_refs := c.(cd_refs); d_feedback := c.(cd_feedback);
     d_conflicts := c.(cd_conflicts) |}.

(** What [update_plan] returns: the new row, and what was appended to its
    conversation. *)
Record update_result := { ur_row : row; ur_entries : option (list centry * summary_status) }.

(** The guards of [apply] before anything is written. *)
Definition may_update (n : Z) (u : update_plan_args) (d : db) : res exn row :=
  let! r := select_entry n d in
  match r with
  | None => Err (KeyError "context entry does not exist")
  | Some r =>
      raise! (ValueError "context entry is not a plan") when negb (is_plan r);
      raise! (RuntimeError ("plan revision is " +:+ pretty r.(revision) +:+ ", not " +:+ pretty u.(up_revision)))
        when negb (r.(revision) =? u.(up_revision));
      raise! (ValueError "completed plan cannot be modified; create a new plan")
        when bool_decide (r.(plan_status) = Some completed) || has_debrief n d;
      let! _ := (if bool_decide (u.(up_status) = Some completed) then
                   match incomplete_descendant n d.(entries) with
                   | Some x => Err (ValueError ("plan completion requires every descendant plan to be completed or cancelled; plan "
                                  +:+ pretty x.(id) +:+ " is " +:+ pstatus_text (plan_state x)))
                   | None => Ok tt
                   end
                 else Ok tt) in
      raise! (ValueError "plan already has a completion debrief")
        when bool_decide (is_Some u.(up_debrief)) && has_debrief n d;
      Ok r
  end.

(** The conversation entries of an update. *)
Definition update_chat (u : update_plan_args) (now : Z) (r : row) (c : cstore)
    : res exn (option Z * option (list centry) * cstore) :=
  match u.(up_conversation) with
  | None => Ok (r.(conversation_id), None, c)
  | Some (cid, nonce, es) =>
      let! n := validate_conversation_id cid in
      raise! (ValueError "plan belongs to a different conversation")
        when match r.(conversation_id) with Some m => negb (m =? n) | None => false end;
      let! (created, c') := append_conversation cid nonce es (bool_decide (u.(up_status) = Some completed)) now c in
      Ok (Some n, Some created, c')
  end.

(** [apply] of [update_plan]; [now] are the instants of its clock readings. *)
Definition apply_update (n : Z) (u : update_plan_args) (now : Z) (d : db) : res exn (update_result * db) :=
  let! r := may_update n u d in
  let! (conv, created, c) := update_chat u now r d.(chats) in
  let r' := updated_row u now conv r in
  let matched := λ x, by_id n x && is_plan x && (x.(revision) =? u.(up_revision)) in
  raise! (RuntimeError "plan revision changed during update") when negb (count matched d.(entries) =? 1);
  let d1 := put_chats c (put_rows (update_where matched (λ _, r') d.(entries)) d) in
  let d2 := match u.(up_debrief) with Some b => put_debrief (debrief_of n now b) d1 | None => d1 end in
  Ok ({| ur_row := r';
         ur_entries := match created, conv with
                       | Some (x :: l), Some m => Some (x :: l, conversation_summary_status m c)
                       | _, _ => None
                       end |}, d2).

Definition update_plan (n : Z) (a : update_args) (now : Z) : db → res exn update_result * db :=
  txn (λ d, let! u := check_update a in apply_update n u now d).

(** [plan_completion_transaction]: the checks at its start. *)
Definition completion_check (n : Z) (rev : json) (d : db) : res exn row :=
  let! k := _validate_revision rev in
  let! r := select_entry n d in
  match r with
  | None => Err (KeyError "context entry does not exist")
  | Some r =>
      raise! (ValueError "context entry is not a plan") when negb (is_plan r);
      raise! (RuntimeError ("plan revision is " +:+ pretty r.(revision) +:+ ", not " +:+ pretty k))
        when negb (r.(revision) =? k);
      Ok r
  end.

Definition plan_debrief (pid : json) (d : db) : res exn (option debrief_row) :=
  let! n := _validate_plan_id_value pid in
  raise! OverflowError when sqlite_max <? n;
  Ok (fetchone (λ b, b.(d_plan) =? n) d.(plan_debriefs)).

(** ** Notes and operations *)

(** [plan_id] is [None] when the caller did not set it. *)
Definition replace_note (n : Z) (task text : json) (actor : option string) (pid : option json) (now : Z) (d : db)
    : res exn row * db :=
  let inserted :=
    let! name := _validate_taskname task in
    let! body := _validate_content text in
    let! a := validate_actor actor in
    let! found := select_entry n d in
    match found with
    | None => Err (KeyError "context entry does not exist")
    | Some r =>
        raise! (ValueError "context entry is not a note") when negb (bool_decide (r.(entry_type) = note));
        let! next := match pid with
                     | None => Ok (match r.(plan_id) with Some p => JInt p | None => JNull end)
                     | Some JNull => Err (ValueError "notes must reference a plan_id")
                     | Some v => let! p := _validate_plan_id_value v in Ok (JInt p)
                     end in
        let! p := _require_in_progress_plan_row next d in
        let r' := {| id := next_id d; created_at := now; updated_at := now; entry_type := note; content := body;
                     operation_name := None; status := None; result_summary := None; actor_id := a;
                     request_json := None; result_json := None; taskname := name; plan_status := None;
                     plan_id := Some p.(id); conversation_id := None; revision := 1 |} in
        Ok (r', _trim_if_needed [] (delete_rows (by_id n) (insert_row r' d)))
    end in
  match inserted with
  | Err x => (Err x, d)
  | Ok (r', d') =>
      (* the transaction is committed before the result is asserted *)
      (match fetchone (by_id r'.(id)) d'.(entries) with Some x => Ok x | None => Err AssertionError end, d')
  end.

Definition finished_row (now : Z) (ok : bool) (summary : string) (result : option dictionary) (r : row) : row :=
  {| id := r.(id); created_at := r.(created_at); updated_at := now; entry_type := r.(entry_type);
     content := r.(content); operation_name := r.(operation_name); status := Some (if ok then succeeded else failed);
     result_summary := Some summary; actor_id := r.(actor_id); request_json := r.(request_json);
     result_json := result; taskname := r.(taskname); plan_status := r.(plan_status); plan_id := r.(plan_id);
     conversation_id := r.(conversation_id); revision := r.(revision) |}.

Definition finish_operation (n : Z) (ok : bool) (summary : json) (result : option dictionary) (now : Z)
    : db → res exn unit * db :=
  txn (λ d,
    let! text := _validate_content summary in
    raise! OverflowError when sqlite_max <? n;
    let matched := λ r, by_id n r && bool_decide (r.(entry_type) = operation) in
    raise! (KeyError "context operation does not exist") when negb (count matched d.(entries) =? 1);
    Ok (tt, _insert_paths n result (put_rows (update_where matched (finished_row now ok text result) d.(entries)) d))).

(** ** Conversations *)

Definition store_create_conversation (cid es rid : json) (actor : option string) (now : Z) (nonce : string)
    : db → res exn creation * db :=
  txn (λ d,
    let! a := validate_actor actor in
    let! (r, c) := create_conversation cid es rid a now nonce d.(chats) in
    Ok (r, put_chats c d)).

Definition store_append_conversation (cid nonce es : json) (require_ai : bool) (now : Z)
    : db → res exn (Z * list centry * summary_status) * db :=
  txn (λ d,
    let! (created, c) := append_conversation cid nonce es require_ai now d.(chats) in
    let! n := validate_conversation_id cid in
    Ok ((n, created, conversation_summary_status n c), put_chats c d)).

(** ** Queries *)

Record query_args := {
  qa_id : option Z; qa_exclude : option Z; qa_query : option string; qa_type : option string; qa_status : option string;
  qa_taskname : option string; qa_actor : option string; qa_path : option string; qa_plan : option json;
  qa_root_plans : bool; qa_before : option Z; qa_limit : Z }.

(** A status filter: of an operation, or of a plan. *)
Inductive status_filter := OpStatus (s : op_status) | PlanStatus (p : pstatus).
Definition status_filter_of (s : string) : option status_filter :=
  match status_of s, plan_status_of s with
  | Some o, _ => Some (OpStatus o)
  | None, Some p => Some (PlanStatus p)
  | None, None => None
  end.

Definition check_type (a : query_args) : res exn (option etype) :=
  match a.(qa_type) with
  | None => Ok None
  | Some s => match type_of s with
              | None => Err (ValueError "context type must be operation, plan, or note")
              | Some t => Ok (Some t)
              end
  end.

Definition check_status (t : option etype) (a : query_args) : res exn (option status_filter) :=
  match a.(qa_status) with
  | None => Ok None
  | Some s =>
      match status_filter_of s with
      | None => Err (ValueError "invalid context status filter")
      | Some f =>
          raise! (ValueError "invalid plan status filter")
            when bool_decide (t = Some plan) && match f with PlanStatus _ => false | _ => true end;
          raise! (ValueError "invalid operation status filter")
            when bool_decide (t = Some operation) && match f with OpStatus _ => false | _ => true end;
          raise! (ValueError "note context has no status") when bool_decide (t = Some note);
          Ok (Some f)
      end
  end.

Definition optional {A} (f : A → res exn string) (o : option A) : res exn (option string) :=
  match o with None => Ok None | Some a => let! s := f a in Ok (Some s) end.

(** [o is not None and p(o)] *)
Definition given {A} (p : A → bool) (o : option A) : bool := match o with Some a => p a | None => false end.
(** a clause that is absent without its argument *)
Definition clause {A} (p : A → bool) (o : option A) : bool := match o with Some a => p a | None => true end.

(** The status clause; COALESCE(plan_status, status) without a type. *)
Definition has_status (t : option etype) (f : status_filter) (r : row) : bool :=
  match f with
  | PlanStatus p => bool_decide (r.(plan_status) = Some p)
  | OpStatus s => bool_decide (r.(status) = Some s) &&
                  (bool_decide (t = Some operation) || bool_decide (r.(plan_status) = None))
  end.

Definition matches_text (q : string) (r : row) : bool :=
  let p := like_pattern q in
  like "\" p r.(content) || like "\" p (default "" r.(result_summary))%string
  || like "\" p (default "" r.(operation_name))%string || like "\" p r.(taskname).

(** SQLite compares a value that does not fit with an error. *)
Definition too_big (o : option Z) : bool := given (λ n, sqlite_max <? n) o.

(** The clauses of a query that do not search text. *)
Definition selected_by (a : query_args) (pid : option Z) (t : option etype) (f : option status_filter)
    (name actor path : option string) (d : db) (r : row) : bool :=
  clause (λ n, r.(id) =? n) a.(qa_id) && clause (λ n, negb (r.(id) =? n)) a.(qa_exclude)
  && clause (λ t, bool_decide (r.(entry_type) = t)) t && clause (λ f, has_status t f r) f
  && clause (λ s, String.eqb r.(taskname) s) name && clause (λ s, bool_decide (r.(actor_id) = Some s)) actor
  && clause (λ p, bool_decide ((r.(id), p) ∈ d.(entry_paths))) path
  && clause (λ n, bool_decide (r.(plan_id) = Some n)) pid
  && (negb a.(qa_root_plans) || (is_plan r && bool_decide (r.(plan_id) = None)))
  && clause (λ n, r.(id) <? n) a.(qa_before).

Definition query (a : query_args) (d : db) : res exn (list row * Z) :=
  raise! (ValueError ("context limit must be between 1 and " +:+ pretty MAX_CONTEXT_QUERY_LIMIT))
    when negb ((1 <=? a.(qa_limit)) && (a.(qa_limit) <=? MAX_CONTEXT_QUERY_LIMIT));
  raise! (ValueError "context id must be positive") when given (λ n, n <? 1) a.(qa_id);
  raise! (ValueError "excluded context id must be positive") when given (λ n, n <? 1) a.(qa_exclude);
  raise! (ValueError "before_id must be positive") when given (λ n, n <? 1) a.(qa_before);
  let! pid := match a.(qa_plan) with None => Ok None | Some v => let! n := _validate_plan_id_value v in Ok (Some n) end in
  raise! (ValueError "root_plans and plan_id filters cannot be combined") when a.(qa_root_plans) && bool_decide (is_Some pid);
  let! t := check_type a in
  let! f := check_status t a in
  let! name := optional (λ s, _validate_taskname (JStr s)) a.(qa_taskname) in
  let! actor := optional _validate_actor_id a.(qa_actor) in
  let! path := optional _normalize_path a.(qa_path) in
  let text := strip (default ""%string a.(qa_query)) in
  raise! (ValueError "context query exceeds 1000 characters") when 1000 <? slen text;
  raise! OverflowError when too_big a.(qa_id) || too_big a.(qa_exclude) || too_big pid || too_big a.(qa_before);
  let selected := λ r : row, selected_by a pid t f name actor path d r && (is_empty text || matches_text text r) in
  let rows := fetchall selected d.(entries) in
  Ok (take (Z.to_nat a.(qa_limit)) (rev rows), Z.of_nat (length rows)).

(** [_attach_debriefs] *)
Definition attach_debrief (d : db) (r : row) : row * option debrief_row :=
  (r, if is_plan r then fetchone (λ b, b.(d_plan) =? r.(id)) d.(plan_debriefs) else None).

Record hint := { hint_row : row; content_preview : string; content_truncated : bool }.

Definition unfinished_root_plan_hints (exclude : option Z) (d : db) : res exn (list hint * Z * bool) :=
  let! (rows, total) := query {| qa_id := None; qa_exclude := exclude; qa_query := None; qa_type := Some "plan";
      qa_status := Some "in_progress"; qa_taskname := None; qa_actor := None; qa_path := None; qa_plan := None;
      qa_root_plans := true; qa_before := None; qa_limit := MAX_UNFINISHED_ROOT_PLAN_HINTS |}%string d in
  Ok ((λ r, {| hint_row := r; content_preview := String.substring 0 MAX_PLAN_HINT_CONTENT_CHARS r.(content);
               content_truncated := (MAX_PLAN_HINT_CONTENT_CHARS <? String.length r.(content))%nat |}) <$> rows,
      total, Z.of_nat (length rows) <? total).

(** ** Plan trees *)

(** A row of the recursive query: a plan, its depth and the ids on the way to it. *)
Record tree_row := { t_id : Z; t_depth : Z; t_visited : list Z }.

(** One round of the recursive query from [parent]. *)
Definition tree_children (max_depth : Z) (t : list row) (parent : tree_row) : list tree_row :=
  (λ r, {| t_id := r.(id); t_depth := parent.(t_depth) + 1; t_visited := parent.(t_visited) ++ [r.(id)] |})
    <$> fetchall (λ r, is_plan r && bool_decide (r.(plan_id) = Some parent.(t_id)) && (parent.(t_depth) <? max_depth)
                       && negb (bool_decide (r.(id) ∈ parent.(t_visited)))) t.

(** The rounds up to the depth limit. *)
Fixpoint tree_rounds (rounds : nat) (max_depth : Z) (level : list tree_row) (t : list row) : list tree_row :=
  match rounds with
  | 0%nat => level
  | S rounds' => level ++ tree_rounds rounds' max_depth (mjoin (tree_children max_depth t <$> level)) t
  end.

(** [ORDER BY depth ASC, id ASC] *)
Definition tree_le (a b : tree_row) : Prop := a.(t_depth) < b.(t_depth) ∨ (a.(t_depth) = b.(t_depth) ∧ a.(t_id) ≤ b.(t_id)).
#[export] Instance tree_le_dec : RelDecision tree_le.
Proof. intros a b. unfold tree_le. apply _. Defined.

Record plan_tree_result := {
  pt_plans : list (row * Z); pt_entries : list row; pt_plans_truncated : bool; pt_entries_truncated : bool }.

(** The rows of the recursive query, joined with the entries they stand for. *)
Definition tree_plans (n max_depth : Z) (t : list row) : list (row * Z) :=
  let root := {| t_id := n; t_depth := 0; t_visited := [n] |} in
  omap (λ x, (λ r, (r, x.(t_depth))) <$> fetchone (by_id x.(t_id)) t)
    (merge_sort tree_le (tree_rounds (Z.to_nat max_depth) max_depth [root] t)).

Definition plan_tree (pid : json) (max_depth limit : Z) (d : db) : res exn plan_tree_result :=
  let! n := _validate_plan_id_value pid in
  raise! (ValueError ("plan tree max_depth must be between 0 and " +:+ pretty MAX_PLAN_TREE_DEPTH))
    when negb ((0 <=? max_depth) && (max_depth <=? MAX_PLAN_TREE_DEPTH));
  raise! (ValueError ("plan tree limit must be between 1 and " +:+ pretty MAX_CONTEXT_QUERY_LIMIT))
    when negb ((1 <=? limit) && (limit <=? MAX_CONTEXT_QUERY_LIMIT));
  let! _ := _require_plan pid d in
  let plans := tree_plans n max_depth d.(entries) in
  let selected := take (Z.to_nat limit) plans in
  let ids := (λ x, x.1.(id)) <$> selected in
  let linked := rev (fetchall (λ r, negb (is_plan r) && match r.(plan_id) with Some p => bool_decide (p ∈ ids) | None => false end)
                      d.(entries)) in
  Ok {| pt_plans := selected; pt_entries := take (Z.to_nat limit) linked;
        pt_plans_truncated := limit <? Z.of_nat (length plans);
        pt_entries_truncated := limit <? Z.of_nat (length linked) |}.
