(* ===== verification/Plans.v ===== *)
(** * Plans: atomic plan creation and its retry receipts

    Models src/openkapsel/context/context_plans.py on the database of Context. *)

From Stdlib Require Import ZArith QArith Lia Ascii String.
From stdpp Require Import base tactics list sorting gmap strings pretty fin_maps.
From S2P Require Import Prelude Hashing JsonText Sql PosixPath Conversation Context.

Local Open Scope Z_scope.

Definition MAX_TODOS : nat := 64.
Definition MAX_PLAN_REQUEST_BYTES : Z := 256 * 1024.
Definition MAX_PLAN_REQUESTS : Z := 100000.

(** ** Normalizing a request *)

(** [_text]: no NUL (surrogates lie outside the modelled code points). *)
Definition plain_text (s : string) : res exn string :=
  raise! (ValueError "plan text must not contain NUL or unpaired Unicode surrogates") when has_char Ascii.zero s;
  Ok s.

Fixpoint scope_loop (acc : list string) (l : list json) : res exn (list string) :=
  match l with
  | [] => Ok acc
  | JStr s :: l' =>
      raise! (ValueError "scope_paths entries must be non-empty strings") when is_empty (strip s);
      let raw := to_slashes (strip s) in
      raise! (ValueError "scope_paths must be workspace-relative") when startswith "/" raw;
      let p := normpath raw in
      raise! (ValueError "scope_paths must stay inside the workspace") when escapes p;
      raise! (ValueError "scope_paths entry exceeds 4096 characters") when 4096 <? slen p;
      scope_loop (add_new acc p) l'
  | _ :: _ => Err (ValueError "scope_paths entries must be non-empty strings")
  end.

Definition _plan_scope_paths (v : option json) : res exn (list string) :=
  let bad := ValueError ("scope_paths must be an array of at most " +:+ pretty MAX_MEMORY_SCOPE_PATHS +:+ " paths") in
  match v with
  | None | Some JNull => Ok []
  | Some (JList l) => raise! bad when (MAX_MEMORY_SCOPE_PATHS <? length l)%nat; scope_loop [] l
  | Some _ => Err bad
  end.

Record node := {
  n_content : string; n_taskname : string; n_scope_paths : list string; n_memory_tags : list string; n_ref : option string }.

Fixpoint check_texts (l : list string) : res exn unit :=
  match l with [] => Ok tt | s :: l' => let! _ := plain_text s in check_texts l' end.

(** The inner function [node]. *)
Definition make_node (raw : dictionary) (inherited : json) : res exn node :=
  let! paths := _plan_scope_paths (obj_get "scope_paths" raw) in
  let! tags := _validate_tags (obj_get_or "memory_tags" JNull raw) false in
  let! _ := check_texts (paths ++ tags) in
  let! text := _validate_content (obj_get_or "content" JNull raw) in
  let! text := plain_text text in
  let! name := _validate_taskname (obj_get_or "taskname" inherited raw) in
  let! name := plain_text name in
  Ok {| n_content := text; n_taskname := name; n_scope_paths := paths; n_memory_tags := tags; n_ref := None |}.

Definition has_key (k : string) (fields : dictionary) : bool := bool_decide (is_Some (obj_get k fields)).
Definition only_keys (allowed : list string) (fields : dictionary) : bool :=
  forallb (λ f, bool_decide (f.1 ∈ allowed)) fields.

Definition PLAN_KEYS : list string :=
  ["type"; "content"; "taskname"; "plan_id"; "scope_paths"; "memory_tags"; "todos"; "request_id"; "message";
   "conversation_id"; "writer_nonce"; "conversation_entries"].
Definition TODO_KEYS : list string := ["ref"; "content"; "taskname"; "scope_paths"; "memory_tags"].

Definition is_list (v : json) : bool := match v with JList _ => true | _ => false end.
Definition with_ref (ref : string) (n : node) : node :=
  {| n_content := n.(n_content); n_taskname := n.(n_taskname); n_scope_paths := n.(n_scope_paths);
     n_memory_tags := n.(n_memory_tags); n_ref := Some ref |}.

Definition todo_label (index : nat) (text : string) : exn := ValueError ("todos[" +:+ pretty index +:+ text).

(** One element of [todos]; [refs] are those of the elements before it. *)
Definition make_todo (index : nat) (inherited : string) (refs : list string) (v : json) : res exn node :=
  let supported := todo_label index "] must be a direct child object with only supported fields" in
  match v with
  | JObj child =>
      raise! (todo_label index "] does not accept status; all plans start in_progress") when has_key "status" child;
      raise! supported when negb (only_keys TODO_KEYS child);
      raise! (todo_label index "].scope_paths must be an array")
        when given (λ v, negb (is_list v)) (obj_get "scope_paths" child);
      raise! (todo_label index "].memory_tags must be an array")
        when given (λ v, negb (is_list v)) (obj_get "memory_tags" child);
      let! n := make_node child (JStr inherited) in
      match obj_get "ref" child with
      | None => Ok n
      | Some (JStr ref) =>
          raise! (ValueError "todo ref must contain 1-64 ASCII letters, digits, dots, underscores, colons or hyphens, starting with a letter or digit")
            when negb (id_pattern 63 ref);
          raise! (ValueError "todo refs must be unique within this request") when bool_decide (ref ∈ refs);
          Ok (with_ref ref n)
      | Some _ => Err (ValueError "todo ref must contain 1-64 ASCII letters, digits, dots, underscores, colons or hyphens, starting with a letter or digit")
      end
  | _ => Err supported
  end.

Fixpoint make_todos (index : nat) (inherited : string) (refs : list string) (l : list json) : res exn (list node) :=
  match l with
  | [] => Ok []
  | v :: l' =>
      let! n := make_todo index inherited refs v in
      let! rest := make_todos (S index) inherited (match n.(n_ref) with Some r => r :: refs | None => refs end) l' in
      Ok (n :: rest)
  end.

Record plan_spec := {
  s_root : node; s_parent : option Z; s_todos : list node; s_conversation : Z; s_nonce : string; s_entries : list item;
  s_request : option string; s_fingerprint : string; s_hint_paths : list string; s_hint_tags : list string;
  s_hint_content : string }.

Definition node_fields (n : node) : list (string * plain) :=
  [("content", PStr n.(n_content)); ("taskname", PStr n.(n_taskname)); ("status", PStr "in_progress");
   ("scope_paths", PList (PStr <$> n.(n_scope_paths))); ("memory_tags", PList (PStr <$> n.(n_memory_tags)))]%string
  ++ match n.(n_ref) with Some r => [("ref"%string, PStr r)] | None => [] end.

(** The request that is fingerprinted, with the former name of [todos]. *)
Definition fingerprint_request (root : node) (parent : option Z) (todos : list node) (cid : Z) (es : list item) : plain :=
  PDict [("root", PDict (node_fields root ++ [("plan_id", match parent with Some p => PInt p | None => PNone end)]));
         ("conversation_id", PInt cid); ("conversation_entries", PList (item_plain <$> es));
         ("subplans", PList ((λ n, PDict (node_fields n)) <$> todos))]%string.

(** [list(dict.fromkeys(...))] *)
Definition unique (l : list string) : list string := foldl add_new [] l.

Definition check_parent (v : option json) : res exn (option Z) :=
  match v with
  | None | Some JNull => Ok None
  | Some p =>
      let! n := _validate_plan_id_value p in
      raise! (ValueError "plan_id exceeds the database ID range") when sqlite_max <? n;
      Ok (Some n)
  end.

Definition check_request_id (v : option json) : res exn (option string) :=
  let bad := ValueError "request_id must contain 1-128 ASCII letters, digits, dots, underscores, colons or hyphens, starting with a letter or digit" in
  match v with
  | None => Ok None
  | Some (JStr s) => raise! bad when negb (id_pattern 127 s); Ok (Some s)
  | Some _ => Err bad
  end.

Definition normalize_plan_request (body : dictionary) : res exn plan_spec :=
  raise! (ValueError "batch creation requires type=plan")
    when match obj_get_or "type" (JStr "plan") body with JStr s => negb (String.eqb s "plan") | _ => true end;
  raise! (ValueError "plan creation does not accept status; all plans start in_progress") when has_key "status" body;
  raise! (ValueError "subplans was renamed to todos; use todos instead") when has_key "subplans" body;
  raise! (ValueError "plan creation contains unknown fields")
    when (has_key "todos" body || has_key "request_id" body) && negb (only_keys PLAN_KEYS body);
  let! parent := check_parent (obj_get "plan_id" body) in
  let! root := make_node body JNull in
  raise! (ValueError "root plan creation requires todos; use [] when there are no direct child plans")
    when bool_decide (parent = None) && negb (has_key "todos" body);
  let! children := match obj_get_or "todos" (JList []) body with
                   | JList l => if (MAX_TODOS <? length l)%nat
                                then Err (ValueError ("todos must be an array of at most " +:+ pretty MAX_TODOS +:+ " direct children"))
                                else Ok l
                   | _ => Err (ValueError ("todos must be an array of at most " +:+ pretty MAX_TODOS +:+ " direct children"))
                   end in
  let! todos := make_todos 0 root.(n_taskname) [] children in
  let! cid := validate_conversation_id (obj_get_or "conversation_id" JNull body) in
  let! nonce := validate_writer_nonce (obj_get_or "writer_nonce" JNull body) in
  let! es := normalize_entries (obj_get_or "conversation_entries" JNull body) 1 false false in
  let text := dumps (fingerprint_request root parent todos cid es) in
  raise! (ValueError ("combined plan request exceeds " +:+ pretty MAX_PLAN_REQUEST_BYTES +:+ " UTF-8 bytes"))
    when MAX_PLAN_REQUEST_BYTES <? Z.of_nat (length (utf8 text));
  let nodes := root :: todos in
  let paths := unique (mjoin (n_scope_paths <$> nodes)) in
  let tags := unique (mjoin (n_memory_tags <$> nodes)) in
  let! _ := _validate_scope_paths (JList (JStr <$> paths)) in
  let! _ := _validate_tags (JList (JStr <$> tags)) false in
  let! rid := check_request_id (obj_get "request_id" body) in
  Ok {| s_root := root; s_parent := parent; s_todos := todos; s_conversation := cid; s_nonce := nonce; s_entries := es;
        s_request := rid; s_fingerprint := sha256_hex text; s_hint_paths := paths; s_hint_tags := tags;
        s_hint_content := String.concat (String newline EmptyString) (n_content <$> nodes) |}.

(** ** Creating *)

Definition item_json (i : item) : json :=
  JObj [("role", JStr (role_text i.(i_role))); ("content", JStr i.(i_content))]%string.

(** [{key: node[key] for key in ("ref", "scope_paths", "memory_tags") if node.get(key)}] *)
Definition metadata (n : node) : option dictionary :=
  let fields :=
    match n.(n_ref) with Some EmptyString | None => [] | Some r => [("ref"%string, JStr r)] end
    ++ match n.(n_scope_paths) with [] => [] | l => [("scope_paths"%string, JList (JStr <$> l))] end
    ++ match n.(n_memory_tags) with [] => [] | l => [("memory_tags"%string, JList (JStr <$> l))] end in
  match fields with [] => None | _ => Some fields end.

Definition plan_row (n : node) (parent : option Z) (actor : option string) (now cid : Z) (d : db) : row :=
  {| id := next_id d; created_at := now; updated_at := now; entry_type := plan; content := n.(n_content);
     operation_name := None; status := None; result_summary := None; actor_id := actor; request_json := metadata n;
     result_json := None; taskname := n.(n_taskname); plan_status := Some in_progress; plan_id := parent;
     conversation_id := Some cid; revision := 1 |}.

Definition _insert_plan (n : node) (parent : option Z) (actor : option string) (now cid : Z) (d : db) : row * db :=
  let r := plan_row n parent actor now cid d in
  (r, _insert_paths r.(id) (Some [("path", JList (JStr <$> n.(n_scope_paths)))]%string) (insert_row r d)).

Definition child_of (index : nat) (n : node) (r : row) : child_receipt :=
  {| h_id := r.(id); h_plan_id := r.(plan_id); h_taskname := r.(taskname); h_status := r.(plan_status);
     h_revision := r.(revision); h_index := index; h_ref := n.(n_ref) |}.

Fixpoint insert_todos (index : nat) (todos : list node) (parent : Z) (actor : option string) (now cid : Z) (d : db)
    : list child_receipt * db :=
  match todos with
  | [] => ([], d)
  | n :: rest =>
      let (r, d1) := _insert_plan n (Some parent) actor now cid d in
      let (l, d2) := insert_todos (S index) rest parent actor now cid d1 in
      (child_of index n r :: l, d2)
  end.

Definition receipt_ids (p : plan_receipt) : list Z := p.(p_root).(id) :: (h_id <$> p.(p_todos)).

Definition as_request (rid : string) (replayed : bool) (p : plan_receipt) : plan_receipt :=
  {| p_root := p.(p_root); p_todos := p.(p_todos); p_scope_paths := p.(p_scope_paths); p_memory_tags := p.(p_memory_tags);
     p_entries := p.(p_entries); p_summary := p.(p_summary); p_request := Some rid; p_replayed := Some replayed |}.

(** INSERT INTO context_plan_requests *)
Definition put_plan_request (key : string * string) (q : plan_request) (d : db) : db :=
  Db d.(entries) d.(sequence) d.(entry_paths) d.(plan_debriefs) (<[key := q]> d.(plan_requests)) d.(chats).

(** A request id that was used before: its receipt, while all its plans exist. *)
Definition replay_plan (rid : string) (s : plan_spec) (q : plan_request) (d : db) : res exn plan_receipt :=
  raise! (RequestConflict "context_request_conflict" "request_id was already used with a different plan request")
    when negb (String.eqb q.(pr_fingerprint) s.(s_fingerprint));
  let ids := receipt_ids q.(pr_response) in
  raise! (RequestConflict "context_request_gone" "one or more original plans were pruned; this request_id cannot create replacements")
    when negb (count (λ r, is_plan r && bool_decide (r.(id) ∈ ids)) d.(entries) =? Z.of_nat (length ids));
  Ok (as_request rid true q.(pr_response)).

(** The parent of a new plan, and its conversation. *)
Definition check_place (s : plan_spec) (cid : Z) (d : db) : res exn unit :=
  match s.(s_parent) with
  | None => Ok tt
  | Some p =>
      let! _ := _validate_plan_parent (JInt p) None true d in
      raise! (ValueError "parent plan belongs to a different conversation")
        when match find_plan p d.(entries) with
             | Some r => given (λ c, negb (c =? cid)) r.(conversation_id)
             | None => false
             end;
      Ok tt
  end.

(** The insertions of a new plan with its children. *)
Definition insert_plans (s : plan_spec) (cid : Z) (actor : option string) (now : Z) (d : db) : res exn (plan_receipt * db) :=
  let! _ := check_place s cid d in
  let! (created, c) := append_conversation (JInt cid) (JStr s.(s_nonce)) (JList (item_json <$> s.(s_entries))) false now d.(chats) in
  let (root, d1) := _insert_plan s.(s_root) s.(s_parent) actor now cid (put_chats c d) in
  let (todos, d2) := insert_todos 0 s.(s_todos) root.(id) actor now cid d1 in
  let p := {| p_root := root; p_todos := todos; p_scope_paths := s.(s_root).(n_scope_paths);
              p_memory_tags := s.(s_root).(n_memory_tags); p_entries := created;
              p_summary := conversation_summary_status cid c; p_request := None; p_replayed := None |} in
  Ok (p, _trim_if_needed (receipt_ids p) d2).

Definition create_plans_in (s : plan_spec) (actor : option string) (now : Z) (d : db) : res exn (plan_receipt * db) :=
  let! cid := verify_writer_nonce (JInt s.(s_conversation)) (JStr s.(s_nonce)) d.(chats) in
  match s.(s_request), actor with
  | None, _ => insert_plans s cid actor now d
  | Some rid, None => Err (ValueError "request_id requires a stable actor_id")
  | Some rid, Some a =>
      match d.(plan_requests) !! (a, rid) with
      | Some q => let! p := replay_plan rid s q d in Ok (p, d)
      | None =>
          raise! (RequestConflict "context_request_limit" "workspace plan request ledger is full; existing request IDs remain replayable")
            when MAX_PLAN_REQUESTS <=? Z.of_nat (size d.(plan_requests));
          let! (p, d') := insert_plans s cid actor now d in
          let p' := as_request rid false p in
          Ok (p', put_plan_request (a, rid) {| pr_fingerprint := s.(s_fingerprint); pr_created := now; pr_response := p' |} d')
      end
  end.

Definition create_plans (body : dictionary) (actor : option string) (now : Z) : db → res exn plan_receipt * db :=
  txn (λ d,
    let! s := normalize_plan_request body in
    let! a := validate_actor actor in
    raise! (ValueError "request_id requires a stable actor_id")
      when bool_decide (is_Some s.(s_request)) && bool_decide (a = None);
    create_plans_in s a now d).
