(* ===== verification/ContextTheorems.v ===== *)
(** * ContextTheorems: the context database under all its operations

    The invariant of the database of Context and Plans, kept by every operation; the
    hierarchy of plans; completion; retries; queries and trees. *)

From Stdlib Require Import ZArith QArith Lia Ascii String.
From stdpp Require Import base tactics list sorting gmap strings pretty fin_maps relations.
From S2P Require Import Prelude Hashing JsonText Sql PosixPath Conversation Context Plans.

Local Open Scope Z_scope.

(** ** The invariant *)

(** The statuses of a row fit its type. *)
Definition typed (r : row) : Prop :=
  1 ≤ r.(revision) ∧
  match r.(entry_type) with
  | operation => r.(plan_status) = None
  | plan => r.(status) = None ∧ is_Some r.(plan_status)
  | note => r.(status) = None ∧ r.(plan_status) = None
  end.

Definition parent_of (t : list row) (p : Z) : Prop := ∃ x, x ∈ t ∧ x.(id) = p ∧ x.(entry_type) = plan.

Record dinv (d : db) : Prop := {
  dv_order : ordered id d.(entries);
  dv_ids : ∀ r, r ∈ d.(entries) → 1 ≤ r.(id) ≤ d.(sequence);
  dv_seq : 0 ≤ d.(sequence);
  dv_typed : ∀ r, r ∈ d.(entries) → typed r;
  dv_parent : ∀ r p, r ∈ d.(entries) → r.(plan_id) = Some p → p < r.(id) ∧ parent_of d.(entries) p;
  dv_debrief : ∀ b, b ∈ d.(plan_debriefs) →
    ∃ r, r ∈ d.(entries) ∧ r.(id) = b.(d_plan) ∧ r.(entry_type) = plan ∧ r.(plan_status) = Some completed;
  dv_debrief_unique : NoDup (d_plan <$> d.(plan_debriefs));
  dv_paths : ∀ e, e ∈ d.(entry_paths) → ∃ r, r ∈ d.(entries) ∧ r.(id) = e.1;
  dv_chats : cinv d.(chats) }.

Lemma empty_dinv : dinv empty_db.
Proof. split; cbn; try set_solver; try lia; [constructor|constructor|apply empty_cinv]. Qed.

Lemma is_plan_iff r : is_plan r = true ↔ r.(entry_type) = plan.
Proof. apply bool_decide_eq_true. Qed.

Lemma by_id_iff n r : by_id n r = true ↔ r.(id) = n.
Proof. apply Z.eqb_eq. Qed.

Lemma dv_unique d x y : dinv d → x ∈ d.(entries) → y ∈ d.(entries) → x.(id) = y.(id) → x = y.
Proof. intros I. apply ordered_unique, I. Qed.

(** ** Inserting *)

Lemma insert_row_inv r d :
  dinv d → r.(id) = next_id d → typed r → (∀ p, r.(plan_id) = Some p → parent_of d.(entries) p) → dinv (insert_row r d).
Proof.
  intros I Hid Ht Hp. unfold next_id in Hid. pose proof (dv_seq d I).
  assert (∀ p, parent_of d.(entries) p → parent_of (entries (insert_row r d)) p) as Hmono.
  { intros p (x & Hx & ?). exists x. cbn. set_solver. }
  split; cbn -[parent_of].
  - apply ordered_snoc; [apply I|]. intros x Hx%(dv_ids d I). lia.
  - intros x [Hx%(dv_ids d I)|Hx%list_elem_of_singleton]%elem_of_app; [lia|subst x; lia].
  - lia.
  - intros x [Hx|Hx%list_elem_of_singleton]%elem_of_app; [by apply (dv_typed d I)|by subst x].
  - intros x p [Hx|Hx%list_elem_of_singleton]%elem_of_app E.
    + destruct (dv_parent d I x p Hx E) as [? ?]. split; [done|]. by apply Hmono.
    + subst x. split; [|by apply Hmono, Hp]. destruct (Hp p E) as (y & Hy%(dv_ids d I) & <- & _). lia.
  - intros b Hb. destruct (dv_debrief d I b Hb) as (x & Hx & ?). exists x. set_solver.
  - apply I.
  - intros e He. destruct (dv_paths d I e He) as (x & Hx & ?). exists x. set_solver.
  - apply I.
Qed.

Lemma insert_paths_inv n v d : dinv d → (∃ r, r ∈ d.(entries) ∧ r.(id) = n) → dinv (_insert_paths n v d).
Proof.
  intros [] Hn. split; cbn; try done. intros e [He|He]%elem_of_union; [by auto|].
  apply elem_of_map in He as (p & -> & _). done.
Qed.

Lemma insert_row_elem r d : r ∈ entries (insert_row r d).
Proof. cbn. apply elem_of_app. right. by left. Qed.
#[export] Hint Resolve insert_row_elem : core.

(** ** Deleting *)

(** Rows that may go: no entry belongs to them, and they carry no debrief of a kept row. *)
Lemma delete_rows_inv p d :
  dinv d → (∀ r x, r ∈ d.(entries) → x ∈ d.(entries) → p x = true → r.(plan_id) ≠ Some x.(id)) → dinv (delete_rows p d).
Proof.
  intros I Hp.
  assert (∀ r, r ∈ entries (delete_rows p d) ↔ r ∈ d.(entries) ∧ p r = false) as Hin by (intros r; apply elem_delete_where).
  assert (∀ r, r ∈ d.(entries) → r.(id) ∉ (id <$> fetchall p d.(entries)) → p r = false) as Hkeep.
  { intros r Hr Hn. destruct (p r) eqn:E; [|done]. destruct Hn. apply list_elem_of_fmap_2, elem_fetchall. done. }
  split.
  - apply ordered_fetchall, I.
  - intros r [Hr _]%Hin. by apply (dv_ids d I).
  - apply I.
  - intros r [Hr _]%Hin. by apply (dv_typed d I).
  - intros r q [Hr _]%Hin E. destruct (dv_parent d I r q Hr E) as [? (x & Hx & <- & ?)]. split; [done|].
    exists x. rewrite Hin. split_and!; [done| |done..]. destruct (p x) eqn:Ex; [|done]. by destruct (Hp r x Hr Hx Ex).
  - intros b [Hb Hn]%elem_delete_where. apply bool_decide_eq_false in Hn.
    destruct (dv_debrief d I b Hb) as (r & Hr & E & ? & ?). exists r. rewrite Hin. split_and!; try done.
    apply Hkeep; [done|]. by rewrite E.
  - cbn. unfold delete_where, fetchall. pose proof (dv_debrief_unique d I) as N. revert N.
    generalize (plan_debriefs d) as l. intros l. induction l as [|b l IH]; cbn; [done|]. intros [Hb N]%NoDup_cons.
    destruct (negb _); [|by apply IH]. cbn. constructor; [|by apply IH]. intros H. apply Hb.
    apply list_elem_of_fmap in H as (x & -> & Hx). apply list_elem_of_fmap_2. rewrite list_elem_of_In, filter_In in Hx.
    rewrite list_elem_of_In. tauto.
  - intros e He. apply elem_of_filter in He as [Hn He]. destruct (dv_paths d I e He) as (r & Hr & E). exists r.
    rewrite Hin. split_and!; [done| |done]. apply Hkeep; [done|]. by rewrite E.
  - apply I.
Qed.

Lemma trim_candidates_free l t r x :
  x ∈ trim_candidates l t → x.(entry_type) = plan → r ∈ t → r.(plan_id) ≠ Some x.(id).
Proof.
  intros [_ H]%elem_fetchall Hplan Hr E. apply andb_true_iff in H as [[H|H]%orb_true_iff _].
  - apply negb_true_iff, bool_decide_eq_false in H. done.
  - apply negb_true_iff in H. unfold referenced in H.
    assert (existsb (λ z, bool_decide (z.(plan_id) = Some x.(id))) t = true) as H'; [|congruence].
    apply existsb_exists. exists r. rewrite <- list_elem_of_In. split; [done|]. by apply bool_decide_eq_true.
Qed.

Lemma trim_inv l d : dinv d → dinv (_trim_if_needed l d).
Proof.
  intros I. unfold _trim_if_needed. destruct (_ <? _); [|done]. apply delete_rows_inv; [done|].
  intros r x Hr Hx H E. apply bool_decide_eq_true in H. apply list_elem_of_fmap in H as (y & Ey & Hy).
  apply (elem_take _ _ _) in Hy.
  assert (x = y) as <-.
  { apply elem_fetchall in Hy as [Hy' _]. by apply (dv_unique d). }
  destruct (dv_parent d I r _ Hr E) as [_ (z & Hz & Ez & Hplan)].
  assert (z = x) as -> by by apply (dv_unique d).
  by apply (trim_candidates_free l d.(entries) r x).
Qed.

(** Protected rows survive trimming. *)
Lemma trim_keeps l d r : r ∈ d.(entries) → r.(id) ∈ l → r ∈ entries (_trim_if_needed l d).
Proof.
  intros Hr Hl. unfold _trim_if_needed. destruct (_ <? _); [|done]. cbn. apply elem_delete_where. split; [done|].
  apply bool_decide_eq_false. intros H. apply list_elem_of_fmap in H as (y & E & Hy).
  apply (elem_take _ _ _) in Hy.
  apply elem_fetchall in Hy as [_ Hy]. apply andb_true_iff in Hy as [_ Hy]. rewrite <- E in Hy.
  apply negb_true_iff, bool_decide_eq_false in Hy. done.
Qed.

Lemma trim_sub l d r : r ∈ entries (_trim_if_needed l d) → r ∈ d.(entries).
Proof. unfold _trim_if_needed. destruct (_ <? _); [|done]. cbn. by intros [? _]%elem_delete_where. Qed.

Lemma trim_chats l d : chats (_trim_if_needed l d) = chats d.
Proof. unfold _trim_if_needed. by destruct (_ <? _). Qed.

Lemma trim_requests l d : plan_requests (_trim_if_needed l d) = plan_requests d.
Proof. unfold _trim_if_needed. by destruct (_ <? _). Qed.

(** ** Looking up *)

Lemma select_entry_Some n d r : select_entry n d = Ok (Some r) → r ∈ d.(entries) ∧ r.(id) = n ∧ n ≤ sqlite_max.
Proof.
  unfold select_entry. destruct (_ <? _) eqn:E; [done|]. intros [= [H1 H2]%fetchone_Some]. apply by_id_iff in H2.
  split_and!; [done..|lia].
Qed.

Lemma select_entry_elem d r : dinv d → r ∈ d.(entries) → r.(id) ≤ sqlite_max → select_entry r.(id) d = Ok (Some r).
Proof.
  intros I Hr Hm. unfold select_entry. rewrite (proj2 (Z.ltb_ge sqlite_max (id r))) by lia. f_equal.
  apply (ordered_fetchone id); [apply I|done].
Qed.

Lemma require_plan_Ok pid d r :
  _require_plan pid d = Ok r → pid = JInt r.(id) ∧ r ∈ d.(entries) ∧ r.(entry_type) = plan ∧ 1 ≤ r.(id) ≤ sqlite_max.
Proof.
  unfold _require_plan, _validate_plan_id_value. destruct pid as [| |n| | | |]; try done.
  destruct (n <? 1) eqn:En; [done|]. destruct (select_entry n d) as [[x|]|] eqn:E; try done.
  destruct (is_plan x) eqn:Ep; [|done]. intros [= <-]. apply select_entry_Some in E as (? & <- & ?).
  apply is_plan_iff in Ep. split_and!; [done..|lia|lia].
Qed.

Lemma require_plan_elem d r :
  dinv d → r ∈ d.(entries) → r.(entry_type) = plan → r.(id) ≤ sqlite_max → _require_plan (JInt r.(id)) d = Ok r.
Proof.
  intros I Hr Hp Hm. pose proof (dv_ids d I r Hr). unfold _require_plan, _validate_plan_id_value.
  rewrite (proj2 (Z.ltb_ge (id r) 1)) by lia. rewrite select_entry_elem by done.
  by rewrite (proj2 (is_plan_iff r) Hp).
Qed.

Lemma require_live_Ok pid d r :
  _require_in_progress_plan_row pid d = Ok r → _require_plan pid d = Ok r ∧ plan_state r = in_progress.
Proof.
  unfold _require_in_progress_plan_row. destruct (_require_plan pid d) as [x|]; [|done].
  destruct (bool_decide _) eqn:E; [|done]. intros [= <-]. by apply bool_decide_eq_true in E.
Qed.

Lemma plan_parent_Ok pid child b d n :
  _validate_plan_parent pid child b d = Ok n → ∃ r, _require_plan pid d = Ok r ∧ r.(id) = n ∧ plan_state r = in_progress.
Proof.
  unfold _validate_plan_parent. destruct (_validate_plan_id_value pid) as [m|] eqn:Em; [|done].
  destruct (_require_plan pid d) as [r|] eqn:Er; [|done]. destruct (bool_decide _) eqn:E; [|done].
  destruct (_plan_root _ _ _) as [root|]; [|done]. destruct (b && _); [done|]. intros [= <-].
  exists r. apply bool_decide_eq_true in E. split_and!; [done| |done].
  apply require_plan_Ok in Er as (-> & _ & _ & ?). cbn in Em. destruct (_ <? _); [done|]. by injection Em.
Qed.

Lemma require_plan_parent pid d r : _require_plan pid d = Ok r → parent_of d.(entries) r.(id).
Proof. intros (_ & ? & ? & _)%require_plan_Ok. by exists r. Qed.

Lemma plan_id_value_Ok pid n d r : _validate_plan_id_value pid = Ok n → _require_plan pid d = Ok r → n = r.(id).
Proof.
  intros Hn (-> & _)%require_plan_Ok. cbn in Hn. destruct (_ <? _); [done|]. by injection Hn.
Qed.

Lemma add_plan_Ok t a d p : add_plan t a d = Ok (Some p) → parent_of d.(entries) p.
Proof.
  unfold add_plan. destruct (aa_plan a) as [|b|n|q|s|l|f] eqn:E; [done|..]; rewrite <- E; destruct t;
    destruct (_validate_plan_id_value (aa_plan a)) as [m|] eqn:Em; try done; try (destruct (_validate_plan_parent _ _ _ _) as [k|] eqn:Ev; [|done];
      intros [= <-]; apply plan_parent_Ok in Ev as (r & Hr & <- & _); by eapply require_plan_parent).
  all: try (destruct (_require_in_progress_plan_row (aa_plan a) d) as [r|] eqn:Er; [|done]; intros [= <-];
    apply require_live_Ok in Er as [Er _]; rewrite (plan_id_value_Ok _ _ _ _ Em Er); by eapply require_plan_parent).
  all: destruct (if aa_require_in_progress a then _ else _) as [r|] eqn:Er; [|done]; intros [= <-];
    assert (_require_plan (aa_plan a) d = Ok r) as Er' by (destruct (aa_require_in_progress a); [by apply require_live_Ok in Er as [? _]|done]);
    rewrite (plan_id_value_Ok _ _ _ _ Em Er'); by eapply require_plan_parent.
Qed.

(** ** Every operation keeps the invariant *)

Lemma add_kind_typed a t s ps : add_kind a = Ok (t, s, ps) →
  (t = plan → s = None ∧ ps = Some in_progress) ∧ (t ≠ plan → ps = None) ∧ (t ≠ operation → s = None).
Proof.
  unfold add_kind. destruct (type_of _) as [t'|]; [|done].
  destruct (match aa_status a with Some _ => _ | None => _ end) as [s'|]; [|done].
  destruct (negb (bool_decide (t' = operation)) && bool_decide (is_Some s')) eqn:E1; [done|].
  destruct (bool_decide (t' = operation) && _); [done|]. destruct (bool_decide (t' = plan) && _); [done|].
  destruct (negb (bool_decide (t' = plan)) && _); [done|].
  intros [= <- <- <-]. apply andb_false_iff in E1. rewrite negb_false_iff, bool_decide_eq_true, bool_decide_eq_false in E1.
  assert (t' ≠ operation → s' = None) as Hs by (intros ?; destruct s'; [|done]; destruct E1 as [?|[]]; [done|by eexists]).
  split_and!; [intros ->; split; [by apply Hs|done]| |done]. intros ?. by rewrite bool_decide_false.
Qed.

Lemma add_entry_inv a now d n d' : dinv d → add_entry a now d = Ok (n, d') → dinv d'.
Proof.
  intros I H. unfold add_entry in H. destruct (add_kind a) as [[[t s] ps]|] eqn:Ek; [|done].
  destruct (_validate_content _) as [text|]; [|done]. destruct (bool_decide (t = operation) && _); [done|].
  destruct (_validate_taskname _) as [name|]; [|done]. destruct (validate_actor _) as [actor|]; [|done].
  destruct (add_plan t a d) as [pid|] eqn:Ep; [|done]. injection H as <- <-.
  apply trim_inv, insert_paths_inv; [|by eexists; split; [apply insert_row_elem|]]. apply insert_row_inv; [done..| |].
  - apply add_kind_typed in Ek as (K1 & K2 & K3). split; [cbn; lia|]. cbn. destruct t.
    + by apply K2.
    + destruct (K1 eq_refl) as [-> ->]. by split.
    + split; [by apply K3|by apply K2].
  - cbn. intros p ->. by eapply add_plan_Ok.
Qed.

(** Updates that keep the shape of the rows. *)
Lemma update_rows_inv p f d :
  dinv d →
  (∀ r, r ∈ d.(entries) → p r = true → (f r).(id) = r.(id) ∧ (f r).(entry_type) = r.(entry_type) ∧
    (f r).(plan_id) = r.(plan_id) ∧ typed (f r) ∧ (r.(plan_status) = Some completed → (f r).(plan_status) = Some completed)) →
  dinv (put_rows (update_where p f d.(entries)) d).
Proof.
  intros I H. set (g := λ r, if p r then f r else r).
  assert (∀ r, r ∈ d.(entries) → (g r).(id) = r.(id) ∧ (g r).(entry_type) = r.(entry_type) ∧ (g r).(plan_id) = r.(plan_id) ∧
    typed (g r) ∧ (r.(plan_status) = Some completed → (g r).(plan_status) = Some completed)) as Hg.
  { intros r Hr. unfold g. destruct (p r) eqn:E; [by apply H|]. split_and!; try done. by apply (dv_typed d I). }
  assert (∀ x, x ∈ update_where p f d.(entries) ↔ ∃ r, r ∈ d.(entries) ∧ x = g r) as Hin by (intros x; apply elem_update_where).
  assert (∀ r, r ∈ d.(entries) → g r ∈ update_where p f d.(entries)) as Hin' by (intros r Hr; apply Hin; eauto).
  split; cbn -[parent_of update_where].
  - apply ordered_update; [|apply I]. intros r Hr E. by apply H.
  - intros x (r & Hr & ->)%Hin. destruct (Hg r Hr) as (-> & _). by apply (dv_ids d I).
  - apply I.
  - intros x (r & Hr & ->)%Hin. by apply Hg.
  - intros x q (r & Hr & ->)%Hin E. destruct (Hg r Hr) as (-> & _ & Ep & _). rewrite Ep in E.
    destruct (dv_parent d I r q Hr E) as [? (y & Hy & <- & Hy')]. split; [done|]. exists (g y).
    destruct (Hg y Hy) as (? & -> & _). auto.
  - intros b Hb. destruct (dv_debrief d I b Hb) as (r & Hr & E & Et & Es). exists (g r).
    destruct (Hg r Hr) as (? & ? & _ & _ & ?). split_and!; [by apply Hin'|congruence..|by auto].
  - apply I.
  - intros e He. destruct (dv_paths d I e He) as (r & Hr & E). exists (g r). destruct (Hg r Hr) as (? & _).
    split; [by apply Hin'|congruence].
  - apply I.
Qed.

Lemma put_chats_inv c d : dinv d → cinv c → dinv (put_chats c d).
Proof. intros [] ?. by split. Qed.

Lemma finish_operation_inv n ok sm result now d : dinv d → dinv (finish_operation n ok sm result now d).2.
Proof.
  intros I. unfold finish_operation, txn. destruct (_validate_content sm) as [text|]; [|done]. destruct (sqlite_max <? n); [done|].
  destruct (Z.eqb_spec (count (λ r, by_id n r && bool_decide (entry_type r = operation)) d.(entries)) 1) as [Ec|]; [|done].
  cbn. apply insert_paths_inv.
  - apply update_rows_inv; [done|]. intros r Hr [_ Ht]%andb_true_iff. apply bool_decide_eq_true in Ht.
    destruct (dv_typed d I r Hr) as [? Hty]. rewrite Ht in Hty. unfold typed. cbn. rewrite Ht. by split_and!.
  - unfold count in Ec. destruct (fetchall _ _) as [|r l] eqn:E; [done|].
    assert (r ∈ fetchall (λ r, by_id n r && bool_decide (entry_type r = operation)) d.(entries)) as Hr by (rewrite E; left).
    apply elem_fetchall in Hr as [Hr Hp]. exists (finished_row now ok text result r). split.
    + cbn. apply elem_update_where. exists r. by rewrite Hp.
    + apply andb_true_iff in Hp as [Hp _]. by apply by_id_iff in Hp.
Qed.

Lemma may_update_Ok n u d r :
  may_update n u d = Ok r →
  r ∈ d.(entries) ∧ r.(id) = n ∧ r.(entry_type) = plan ∧ r.(revision) = u.(up_revision) ∧ r.(plan_status) ≠ Some completed ∧
  has_debrief n d = false ∧ (u.(up_status) = Some completed → incomplete_descendant n d.(entries) = None).
Proof.
  unfold may_update. destruct (select_entry n d) as [[x|]|] eqn:E; try done. apply select_entry_Some in E as (Hx & Hid & _).
  destruct (is_plan x) eqn:Ep; [|done]. destruct (Z.eqb_spec (revision x) (up_revision u)); [|done]. cbn [negb].
  destruct (_ || _) eqn:Ec; [done|]. apply orb_false_iff in Ec as [Ec Ed]. apply bool_decide_eq_false in Ec.
  destruct (if bool_decide _ then _ else _) eqn:Ei; [|done]. destruct (_ && _); [done|]. intros [= <-].
  apply is_plan_iff in Ep. split_and!; try done. intros Hs. rewrite bool_decide_true in Ei by done.
  by destruct (incomplete_descendant n (entries d)).
Qed.

Lemma update_chat_Ok u now r c conv created c' :
  cinv c → update_chat u now r c = Ok (conv, created, c') → cinv c' ∧
  (c' = c ∨ ∃ cid nonce es want, c' = cexec c (Append cid nonce es want now)).
Proof.
  intros I. unfold update_chat. destruct (up_conversation u) as [[[cid nonce] es]|].
  - destruct (validate_conversation_id cid) as [m|]; [|done]. destruct (match conversation_id r with Some _ => _ | None => _ end); [done|].
    destruct (append_conversation _ _ _ _ _ _) as [[l c1]|] eqn:E; [|done]. intros [= <- <- <-]. split.
    + by apply append_chat_spec in E as (? & ? & _ & _ & _ & _ & _ & _ & ?).
    + right. eexists cid, nonce, es, _. cbn. by rewrite E.
  - intros [= <- <- <-]. auto.
Qed.

Lemma check_update_completed a u : check_update a = Ok u → is_Some u.(up_debrief) → u.(up_status) = Some completed.
Proof.
  unfold check_update. intros H [b Hb]. destruct (_validate_revision _) as [rev|]; [|done].
  destruct (_validate_taskname _) as [name|]; [|done]. destruct (_ && _ && _); [done|].
  destruct (match ua_content a with Some _ => _ | None => _ end) as [text|]; [|done].
  destruct (match ua_status a with Some _ => _ | None => _ end) as [st|] eqn:Es; [|done].
  destruct (if negb _ && _ then _ else _) as [conv|]; [|done]. destruct (check_debrief a) as [cd|] eqn:Ec; [|done].
  injection H as <-. cbn in Hb |- *. subst cd. unfold check_debrief in Ec. destruct (ua_debrief a); [|done].
  destruct (bool_decide (ua_status a = Some "completed"%string)) eqn:Eb; [|done]. apply bool_decide_eq_true in Eb.
  rewrite Eb in Es. cbn in Es. by injection Es.
Qed.

Lemma check_update_revision a u : check_update a = Ok u → _validate_revision a.(ua_revision) = Ok u.(up_revision).
Proof. unfold check_update. intros H. destruct (_validate_revision _) as [k|]; [|done]. by split_matches H. Qed.

(** What [apply] of [update_plan] does to the database. *)
Lemma apply_update_Ok n u now d ur d' :
  dinv d → apply_update n u now d = Ok (ur, d') →
  ∃ r conv created c, may_update n u d = Ok r ∧ update_chat u now r d.(chats) = Ok (conv, created, c) ∧
    ur.(ur_row) = updated_row u now conv r ∧
    (∀ x, x ∈ d'.(entries) ↔ x = ur.(ur_row) ∨ (x ∈ d.(entries) ∧ x.(id) ≠ n)) ∧
    d'.(chats) = c ∧ d'.(plan_requests) = d.(plan_requests) ∧ d'.(sequence) = d.(sequence) ∧
    d'.(plan_debriefs) = d.(plan_debriefs) ++ match u.(up_debrief) with Some b => [debrief_of n now b] | None => [] end ∧
    d' = match u.(up_debrief) with Some b => put_debrief (debrief_of n now b) | None => λ d, d end
           (put_chats c (put_rows (update_where (λ x, by_id n x && is_plan x && (x.(revision) =? u.(up_revision)))
              (λ _, ur.(ur_row)) d.(entries)) d)).
Proof.
  intros I H. unfold apply_update in H. destruct (may_update n u d) as [r|] eqn:Em; [|done].
  destruct (update_chat u now r (chats d)) as [[[conv created] c]|] eqn:Ec; [|done].
  destruct (negb _) eqn:En; [done|]. injection H as <- <-. exists r, conv, created, c.
  pose proof (may_update_Ok _ _ _ _ Em) as (Hr & Hid & Hp & Hrev & _).
  split_and!; try done; [|by destruct (up_debrief u)..|destruct (up_debrief u); cbn; by rewrite ?app_nil_r|by destruct (up_debrief u)].
  intros x. cbn [ur_row].
  replace (entries _) with (update_where (λ x, by_id n x && is_plan x && (revision x =? up_revision u))
       (λ _, updated_row u now conv r) d.(entries)) by by destruct (up_debrief u).
  rewrite elem_update_where. split.
  - intros (y & Hy & ->). destruct (_ && _) eqn:Eb; [by left|right]. split; [done|]. intros Ey.
    assert (y = r) as -> by (apply (dv_unique d y r I Hy Hr); congruence).
    rewrite (proj2 (by_id_iff n r)), (proj2 (is_plan_iff r)), Hrev, Z.eqb_refl in Eb by done. done.
  - intros [->|[Hx Hne]].
    + exists r. rewrite (proj2 (by_id_iff n r)), (proj2 (is_plan_iff r)), Hrev, Z.eqb_refl by done. done.
    + exists x. split; [done|]. assert (by_id n x = false) as -> by (apply Z.eqb_neq; congruence). done.
Qed.

Lemma updated_row_typed u now conv r : typed r → r.(entry_type) = plan → r.(revision) = u.(up_revision) → typed (updated_row u now conv r).
Proof. intros [? Ht] Hp Hr. rewrite Hp in Ht. unfold typed. cbn. rewrite Hp. destruct Ht. split_and!; [lia|done|by eexists]. Qed.

Lemma has_debrief_iff n d : has_debrief n d = true ↔ n ∈ d_plan <$> d.(plan_debriefs).
Proof.
  unfold has_debrief. rewrite existsb_exists, list_elem_of_fmap. setoid_rewrite <- list_elem_of_In. split.
  - intros (b & ? & ?%Z.eqb_eq). eauto.
  - intros (b & -> & ?). exists b. by rewrite Z.eqb_refl.
Qed.

Lemma put_debrief_inv b d :
  dinv d → has_debrief b.(d_plan) d = false →
  (∃ r, r ∈ d.(entries) ∧ r.(id) = b.(d_plan) ∧ r.(entry_type) = plan ∧ r.(plan_status) = Some completed) →
  dinv (put_debrief b d).
Proof.
  intros I Hn Hr. split; try apply I; cbn.
  - intros x [Hx|Hx%list_elem_of_singleton]%elem_of_app; [by apply (dv_debrief d I)|by subst x].
  - rewrite fmap_app. apply NoDup_app. split_and!; [apply I| |apply NoDup_singleton].
    intros x Hx [= ->]%list_elem_of_singleton. apply has_debrief_iff in Hx. congruence.
Qed.

Lemma apply_update_inv n u now d ur d' :
  dinv d → (is_Some u.(up_debrief) → u.(up_status) = Some completed) → apply_update n u now d = Ok (ur, d') → dinv d'.
Proof.
  intros I Hc H. destruct (apply_update_Ok _ _ _ _ _ _ I H) as (r & conv & created & c & Em & Ec & Er & Hin & _ & _ & _ & _ & ->).
  pose proof (may_update_Ok _ _ _ _ Em) as (Hr & Hid & Hp & Hrev & Hnc & Hnd & _).
  apply update_chat_Ok in Ec as [Ic _]; [|apply I]. set (p := λ x, by_id n x && _ && _) in *.
  assert (dinv (put_chats c (put_rows (update_where p (λ _, ur_row ur) (entries d)) d))) as I1.
  { apply put_chats_inv; [|done]. apply update_rows_inv; [done|]. intros x Hx Hpx.
    assert (x = r) as ->.
    { apply (dv_unique d x r I Hx Hr). unfold p in Hpx. apply andb_true_iff in Hpx as [[E%by_id_iff _]%andb_true_iff _]. congruence. }
    rewrite Er. split_and!; try done. apply updated_row_typed; [by apply (dv_typed d I)|done..]. }
  destruct (up_debrief u) as [b|] eqn:Eb; [|done]. apply put_debrief_inv; [done..|].
  exists (ur_row ur). split; [apply Hin; by left|]. rewrite Er. split_and!; [done..|]. cbn. by rewrite Hc.
Qed.

Lemma delete_note_inv n d :
  dinv d → (∀ r, r ∈ d.(entries) → r.(id) = n → r.(entry_type) = note) → dinv (delete_rows (by_id n) d).
Proof.
  intros I Hn. apply delete_rows_inv; [done|]. intros r x Hr Hx Ex%by_id_iff E.
  destruct (dv_parent d I r _ Hr E) as [_ (y & Hy & Ey & Hp)]. assert (y = x) as -> by by apply (dv_unique d).
  by rewrite (Hn x Hx Ex) in Hp.
Qed.

Lemma replace_note_inv n task text actor pid now d : dinv d → dinv (replace_note n task text actor pid now d).2.
Proof.
  intros I. unfold replace_note. destruct (_validate_taskname task) as [name|]; [|done].
  destruct (_validate_content text) as [body|]; [|done]. destruct (validate_actor actor) as [a|]; [|done].
  destruct (select_entry n d) as [[r|]|] eqn:Es; [|done..]. destruct (bool_decide (entry_type r = note)) eqn:Et; [|done]. cbn [negb].
  destruct (match pid with Some _ => _ | None => _ end) as [next|]; [|done].
  destruct (_require_in_progress_plan_row next d) as [p|] eqn:Ep; [|done]. cbn.
  apply select_entry_Some in Es as (Hr & Hid & _). apply bool_decide_eq_true in Et. apply require_live_Ok in Ep as [Ep _].
  apply trim_inv, delete_note_inv.
  - apply insert_row_inv; [done..| |]; [by split|]. cbn. intros q [= <-]. by eapply require_plan_parent.
  - intros x [Hx|Hx%list_elem_of_singleton]%elem_of_app Ex; [|by subst x].
    assert (x = r) as -> by (apply (dv_unique d x r I Hx Hr); congruence). done.
Qed.

Lemma insert_plan_inv nd parent actor now cid d :
  dinv d → (∀ p, parent = Some p → parent_of d.(entries) p) → dinv (_insert_plan nd parent actor now cid d).2.
Proof.
  intros I Hp. cbn. apply insert_paths_inv; [|by eexists; split; [apply insert_row_elem|]].
  apply insert_row_inv; [done..|by split|done].
Qed.

(** What the insertion of children leaves alone. *)
Lemma insert_todos_spec i todos parent actor now cid d l d' :
  insert_todos i todos parent actor now cid d = (l, d') → dinv d → parent_of d.(entries) parent →
  dinv d' ∧ (∀ r, r ∈ d.(entries) → r ∈ d'.(entries)) ∧ d'.(chats) = d.(chats) ∧ d'.(plan_requests) = d.(plan_requests) ∧
  length l = length todos ∧
  Forall2 (λ h nd, ∃ r, r ∈ d'.(entries) ∧ r.(id) = h.(h_id) ∧ r.(entry_type) = plan ∧ r.(plan_id) = Some parent ∧
    r.(plan_status) = Some in_progress ∧ r.(content) = nd.(n_content) ∧ r.(taskname) = nd.(n_taskname) ∧
    r.(conversation_id) = Some cid ∧ h.(h_ref) = nd.(n_ref)) l todos.
Proof.
  revert i d l. induction todos as [|nd todos IH]; intros i d l; cbn [insert_todos].
  { intros [= <- <-] I _. split_and!; [done..|constructor]. }
  unfold _insert_plan at 1. destruct (insert_todos _ _ _ _ _ _ _) as [l1 d1] eqn:E. intros [= <- <-] I Hp.
  pose proof (insert_plan_inv nd (Some parent) actor now cid d I ltac:(by intros p [= <-])) as I1. cbn in I1.
  apply IH in E as (I2 & Hsub & Hch & Hrq & Hl & HF); [|done|].
  2:{ destruct Hp as (x & Hx & ?). exists x. split; [|done]. cbn. set_solver. }
  split_and!; [done| |done|done|cbn; by rewrite Hl|].
  - intros r Hr. apply Hsub. cbn. set_solver.
  - constructor; [|done]. exists (plan_row nd (Some parent) actor now cid d). split_and!; try done.
    apply Hsub. cbn. set_solver.
Qed.

Lemma check_place_Ok s cid d u p : check_place s cid d = Ok u → s.(s_parent) = Some p → parent_of d.(entries) p.
Proof.
  unfold check_place. intros H E. rewrite E in H. destruct (_validate_plan_parent _ _ _ _) as [m|] eqn:Ev; [|done].
  apply plan_parent_Ok in Ev as (r & Hr & Hm & _). pose proof (require_plan_Ok _ _ _ Hr) as ([= ->] & _).
  by eapply require_plan_parent.
Qed.

(** A new plan and its children are all there afterwards. *)
Lemma insert_plans_spec s cid actor now d p d' :
  dinv d → insert_plans s cid actor now d = Ok (p, d') →
  dinv d' ∧ d'.(plan_requests) = d.(plan_requests) ∧
  d'.(chats) = cexec d.(chats) (Append (JInt cid) (JStr s.(s_nonce)) (JList (item_json <$> s.(s_entries))) false now) ∧
  p.(p_root) ∈ d'.(entries) ∧ p.(p_root).(entry_type) = plan ∧ p.(p_root).(plan_id) = s.(s_parent) ∧
  p.(p_root).(plan_status) = Some in_progress ∧ p.(p_root).(content) = s.(s_root).(n_content) ∧
  Forall2 (λ h nd, ∃ r, r ∈ d'.(entries) ∧ r.(id) = h.(h_id) ∧ r.(entry_type) = plan ∧ r.(plan_id) = Some p.(p_root).(id) ∧
    r.(plan_status) = Some in_progress ∧ r.(content) = nd.(n_content) ∧ r.(taskname) = nd.(n_taskname) ∧
    r.(conversation_id) = Some cid ∧ h.(h_ref) = nd.(n_ref)) p.(p_todos) s.(s_todos).
Proof.
  intros I H. unfold insert_plans in H. destruct (check_place s cid d) as [[]|] eqn:Ep; [|done].
  destruct (append_conversation _ _ _ _ _ _) as [[created c]|] eqn:Ec; [|done].
  destruct (append_chat_spec _ _ _ _ _ _ _ _ (dv_chats d I) Ec) as (_ & _ & _ & _ & _ & _ & _ & _ & Ic).
  destruct (_insert_plan _ _ _ _ _ _) as [root d1] eqn:E1. destruct (insert_todos _ _ _ _ _ _ _) as [todos d2] eqn:E2.
  injection H as <- <-.
  assert (dinv (put_chats c d)) as I0 by by apply put_chats_inv, Ic.
  pose proof (insert_plan_inv (s_root s) (s_parent s) actor now cid (put_chats c d) I0 ltac:(intros q; by eapply check_place_Ok)) as I1.
  rewrite E1 in I1. cbn [snd] in I1. unfold _insert_plan in E1. injection E1 as Er Ed.
  assert (root ∈ entries d1) as Hroot by (rewrite <- Ed, <- Er; cbn; set_solver).
  assert (entry_type root = plan) as Ht by by rewrite <- Er.
  apply insert_todos_spec in E2 as (I2 & Hsub & Hch & Hrq & Hl & HF); [|done|by exists root].
  rewrite trim_chats, trim_requests, Hch, Hrq. split_and!; try done.
  - by apply trim_inv.
  - by rewrite <- Ed.
  - rewrite <- Ed. cbn. by rewrite Ec.
  - cbn [p_root]. apply trim_keeps; [by apply Hsub|]. left.
  - by rewrite <- Er.
  - by rewrite <- Er.
  - by rewrite <- Er.
  - cbn [p_root p_todos]. apply Forall2_same_length_lookup_2; [done|]. intros i h nd Hh Hnd.
    pose proof (Forall2_lookup_lr _ _ _ _ _ _ HF Hh Hnd) as (r & Hr & Eid & ?). exists r. split; [|done].
    apply trim_keeps; [done|]. unfold receipt_ids. cbn. right. rewrite Eid. apply list_elem_of_fmap_2.
    by eapply list_elem_of_lookup_2.
Qed.

(** ** Requests *)

Inductive dop :=
| Add (a : add_args) (now : Z)
| CreatePlans (body : dictionary) (actor : option string) (now : Z)
| UpdatePlan (n : Z) (a : update_args) (now : Z)
| ReplaceNote (n : Z) (task text : json) (actor : option string) (pid : option json) (now : Z)
| FinishOperation (n : Z) (ok : bool) (summary : json) (result : option dictionary) (now : Z)
| CreateConversation (cid es rid : json) (actor : option string) (now a b c d : Z)
| AppendConversation (cid nonce es : json) (want : bool) (now : Z).

Definition dexec (d : db) (o : dop) : db :=
  match o with
  | Add a now => (add a now d).2
  | CreatePlans body actor now => (create_plans body actor now d).2
  | UpdatePlan n a now => (update_plan n a now d).2
  | ReplaceNote n task text actor pid now => (replace_note n task text actor pid now d).2
  | FinishOperation n ok sm result now => (finish_operation n ok sm result now d).2
  | CreateConversation cid es rid actor now a b c e => (store_create_conversation cid es rid actor now (generate_writer_nonce a b c e) d).2
  | AppendConversation cid nonce es want now => (store_append_conversation cid nonce es want now d).2
  end.

Definition dreachable (d : db) : Prop := ∃ ops, d = foldl dexec empty_db ops.

(** A transaction that raises keeps the database. *)
Lemma ctxn_inv {A} (f : db → res exn (A * db)) d (P : db → Prop) :
  P d → (∀ a d', f d = Ok (a, d') → P d') → P (txn f d).2.
Proof. intros H Hf. unfold txn. destruct (f d) as [[a d']|]; [by eapply Hf|done]. Qed.

(** The cases of [create_plans]: a replay, or an insertion with or without a receipt. *)
Lemma create_plans_cases s actor now d p d' :
  create_plans_in s actor now d = Ok (p, d') →
  (d' = d ∧ ∃ rid a q, s.(s_request) = Some rid ∧ actor = Some a ∧ d.(plan_requests) !! (a, rid) = Some q ∧ replay_plan rid s q d = Ok p) ∨
  ∃ cid p1 d1, insert_plans s cid actor now d = Ok (p1, d1) ∧ verify_writer_nonce (JInt s.(s_conversation)) (JStr s.(s_nonce)) d.(chats) = Ok cid ∧
    ((p = p1 ∧ d' = d1) ∨
     ∃ rid a, s.(s_request) = Some rid ∧ actor = Some a ∧ d.(plan_requests) !! (a, rid) = None ∧ p = as_request rid false p1 ∧
       d' = put_plan_request (a, rid) {| pr_fingerprint := s.(s_fingerprint); pr_created := now; pr_response := p |} d1).
Proof.
  unfold create_plans_in. destruct (verify_writer_nonce _ _ _) as [cid|]; [|done].
  destruct (s_request s) as [rid|], actor as [a|]; try done.
  - destruct (plan_requests d !! (a, rid)) as [q|] eqn:Eq.
    + destruct (replay_plan rid s q d) as [x|] eqn:E; [|done]. intros [= <- <-]. left. split; [done|]. by exists rid, a, q.
    + destruct (_ <=? _); [done|]. destruct (insert_plans _ _ _ _ _) as [[p1 d1]|] eqn:E; [|done]. intros [= <- <-].
      right. exists cid, p1, d1. split_and!; [done..|]. right. by exists rid, a.
  - intros H. right. exists cid, p, d'. auto.
  - intros H. right. exists cid, p, d'. auto.
Qed.

Lemma put_plan_request_inv k q d : dinv d → dinv (put_plan_request k q d).
Proof. intros []. by split. Qed.

(** What one request does: it keeps the invariant, appends at most once to the
    conversations, and forgets no receipt. *)
Definition advances (d d' : db) : Prop :=
  dinv d' ∧ (d'.(chats) = d.(chats) ∨ ∃ o, d'.(chats) = cexec d.(chats) o) ∧ d.(plan_requests) ⊆ d'.(plan_requests).

Lemma advances_refl d : dinv d → advances d d.
Proof. intros I. split; [done|]. split; [by left|done]. Qed.

Lemma create_plans_advances body actor now d : dinv d → advances d (create_plans body actor now d).2.
Proof.
  intros I. unfold create_plans. apply ctxn_inv; [by apply advances_refl|]. intros p d'.
  destruct (normalize_plan_request body) as [s|]; [|done]. destruct (validate_actor actor) as [a|]; [|done].
  destruct (bool_decide _ && _); [done|]. intros [[-> _]|(cid & p1 & d1 & Hi & _ & Hd)]%create_plans_cases; [by apply advances_refl|].
  destruct (insert_plans_spec _ _ _ _ _ _ _ I Hi) as (I1 & Hrq & Hch & _).
  destruct Hd as [[-> ->]|(rid & b & _ & _ & Hn & -> & ->)].
  - split_and!; [done|by eauto|by rewrite Hrq].
  - split_and!; [by apply put_plan_request_inv|right; eexists; exact Hch|]. cbn. rewrite Hrq. by apply insert_subseteq.
Qed.

Lemma update_plan_advances n a now d : dinv d → advances d (update_plan n a now d).2.
Proof.
  intros I. unfold update_plan. apply ctxn_inv; [by apply advances_refl|]. intros ur d'.
  destruct (check_update a) as [u|] eqn:Eu; [|done]. intros H.
  split; [eapply apply_update_inv; [done| |done]; by eapply check_update_completed|].
  destruct (apply_update_Ok _ _ _ _ _ _ I H) as (r & conv & created & c & _ & Ec & _ & _ & -> & -> & _).
  apply update_chat_Ok in Ec as [_ [->|(cid & nonce & es & want & ->)]]; [| |apply I]; eauto.
Qed.

Lemma dexec_advances d o : dinv d → advances d (dexec d o).
Proof.
  intros I. destruct o; cbn [dexec].
  - unfold add. apply ctxn_inv; [by apply advances_refl|]. intros n d' H.
    split; [by eapply add_entry_inv|]. unfold add_entry in H. split_matches H. rewrite trim_chats, trim_requests. by split; [left|].
  - by apply create_plans_advances.
  - by apply update_plan_advances.
  - split; [by apply replace_note_inv|]. unfold replace_note.
    destruct (let! _ := _validate_taskname task in _) as [[r d']|] eqn:E; [|by split; [left|]].
    cbn [snd]. split_matches E; rewrite trim_chats, trim_requests; by split; [left|].
  - split; [by apply finish_operation_inv|]. unfold finish_operation, txn.
    destruct (_validate_content summary); [|by split; [left|]]. destruct (sqlite_max <? n); [by split; [left|]|]. destruct (negb _); by split; [left|].
  - unfold store_create_conversation. apply ctxn_inv; [by apply advances_refl|]. intros r d'.
    destruct (validate_actor actor) as [a'|]; [|done]. destruct (create_conversation _ _ _ _ _ _ _) as [[x c']|] eqn:E; [|done].
    intros [= <- <-]. assert (cexec (chats d) (Create cid es rid a' now a b c d0) = c') as Ex by (cbn; by rewrite E).
    split_and!; [apply put_chats_inv; [done|]; rewrite <- Ex; by apply cexec_spec, I|right; by eexists|done].
  - unfold store_append_conversation. apply ctxn_inv; [by apply advances_refl|]. intros r d'.
    destruct (append_conversation _ _ _ _ _ _) as [[x c']|] eqn:E; [|done]. destruct (validate_conversation_id cid); [|done].
    intros [= <- <-]. assert (cexec (chats d) (Append cid nonce es want now) = c') as Ex by (cbn; by rewrite E).
    split_and!; [apply put_chats_inv; [done|]; rewrite <- Ex; by apply cexec_spec, I|right; by eexists|done].
Qed.

Lemma dreachable_inv d : dreachable d → dinv d.
Proof.
  intros [ops ->]. assert (∀ d, dinv d → dinv (foldl dexec d ops)) as H; [|apply H, empty_dinv].
  induction ops as [|o ops IH]; intros d I; [done|]. cbn. apply IH. by apply dexec_advances.
Qed.

(** Later requests keep the receipts and extend the conversations. *)
Lemma dexec_later d ops : dinv d →
  dinv (foldl dexec d ops) ∧ extends d.(chats) (foldl dexec d ops).(chats) ∧
  d.(plan_requests) ⊆ (foldl dexec d ops).(plan_requests).
Proof.
  revert d. induction ops as [|o ops IH]; intros d I; [done|]. cbn.
  destruct (dexec_advances d o I) as (I1 & Hc & Hr). destruct (IH _ I1) as (I2 & Hc2 & Hr2).
  split_and!; [done| |by etrans]. etrans; [|exact Hc2]. destruct Hc as [->|[c ->]]; [done|]. by apply cexec_spec, I.
Qed.

(** ** The hierarchy of plans *)

(** [p] is the parent of [q]. *)
Definition edge (t : list row) (p q : Z) : Prop := ∃ r, r ∈ t ∧ r.(entry_type) = plan ∧ r.(plan_id) = Some p ∧ r.(id) = q.

Lemma edge_lt d p q : dinv d → edge d.(entries) p q → p < q.
Proof. intros I (r & Hr & _ & E & <-). by apply (dv_parent d I). Qed.

Lemma tc_edge_lt d p q : dinv d → tc (edge d.(entries)) p q → p < q.
Proof. intros I. induction 1 as [p q E|p q m E _ IH]; apply (edge_lt d) in E; try done. lia. Qed.

Lemma find_plan_elem d r : dinv d → r ∈ d.(entries) → r.(entry_type) = plan → find_plan r.(id) d.(entries) = Some r.
Proof.
  intros I Hr Hp. unfold find_plan. destruct (fetchone _ _) as [x|] eqn:E.
  - apply fetchone_Some in E as [Hx E]. apply andb_true_iff in E as [E%by_id_iff _]. f_equal. by apply (dv_unique d).
  - eapply fetchone_None in E; [|exact Hr]. unfold by_id in E. by rewrite Z.eqb_refl, (proj2 (is_plan_iff r) Hp) in E.
Qed.

Lemma find_plan_Some n t r : find_plan n t = Some r → r ∈ t ∧ r.(id) = n ∧ r.(entry_type) = plan.
Proof. intros [? [?%by_id_iff ?%is_plan_iff]%andb_true_iff]%fetchone_Some. done. Qed.

(** The loop of [_plan_root] ends, whatever the table holds. *)
Lemma root_loop_ends fuel child n visited root t :
  NoDup visited → visited ⊆ (id <$> t) → (S (length t) ≤ fuel + length visited)%nat →
  (∃ x, root_loop fuel child n visited root t = Ok (Some x)) ∨ ∃ e, root_loop fuel child n visited root t = Err e.
Proof.
  revert n visited root. induction fuel as [|fuel IH]; intros n visited root N S L; cbn [root_loop].
  - exfalso. pose proof (NoDup_submseteq visited (id <$> t) N S) as M%submseteq_length. rewrite length_fmap in M. lia.
  - destruct (bool_decide (child = Some n)); [by eauto|]. destruct (bool_decide (n ∈ visited)) eqn:Ev; [by eauto|].
    apply bool_decide_eq_false in Ev. destruct (find_plan n t) as [r|] eqn:Er; [|destruct root; by eauto].
    apply find_plan_Some in Er as (Hr & <- & _). destruct (plan_id r) as [p|]; [|by eauto].
    apply IH; [by constructor| |cbn; lia]. intros x [->|Hx]%elem_of_cons; [by apply list_elem_of_fmap_2|by apply S].
Qed.

(** From a plan of a sound table it climbs to the root. *)
Definition rank (t : list row) (n : Z) : nat := length (fetchall (λ r, r.(id) <=? n) t).

Lemma rank_le t n : (rank t n ≤ length t)%nat.
Proof. unfold rank, fetchall. induction t as [|r t IH]; cbn; [lia|]. destruct (_ <=? _); cbn; lia. Qed.

Lemma rank_lt t p n r : p < n → r ∈ t → r.(id) = n → (rank t p < rank t n)%nat.
Proof.
  intros L Hr E. unfold rank, fetchall. induction t as [|x t IH]; [set_solver|]. cbn.
  assert (∀ l : list row, (length (List.filter (λ r, (id r <=? p)%Z) l) ≤ length (List.filter (λ r, (id r <=? n)%Z) l))%nat) as M.
  { induction l as [|y l IHl]; cbn; [lia|]. destruct (Z.leb_spec (id y) p), (Z.leb_spec (id y) n); cbn; lia. }
  apply elem_of_cons in Hr as [->|Hr].
  - specialize (M t). destruct (Z.leb_spec (id x) p), (Z.leb_spec (id x) n); cbn; lia.
  - specialize (IH Hr). destruct (Z.leb_spec (id x) p), (Z.leb_spec (id x) n); cbn; lia.
Qed.

Definition is_root_of (d : db) (n : Z) (r : row) : Prop :=
  r ∈ d.(entries) ∧ r.(entry_type) = plan ∧ r.(plan_id) = None ∧ rtc (edge d.(entries)) r.(id) n.

Lemma root_loop_finds d fuel x visited root0 :
  dinv d → x ∈ d.(entries) → x.(entry_type) = plan → (∀ v, v ∈ visited → x.(id) < v) →
  (rank d.(entries) x.(id) ≤ fuel)%nat →
  ∃ r, root_loop fuel None x.(id) visited root0 d.(entries) = Ok (Some r) ∧ is_root_of d x.(id) r.
Proof.
  intros I. revert x visited root0. induction fuel as [|fuel IH]; intros x visited root0 Hx Hp Hv L.
  { pose proof (rank_lt d.(entries) (x.(id) - 1) x.(id) x ltac:(lia) Hx eq_refl). lia. }
  cbn [root_loop]. rewrite (bool_decide_false (None = Some x.(id))) by done.
  rewrite (bool_decide_false (x.(id) ∈ visited)) by (intros H%Hv; lia). rewrite find_plan_elem by done.
  destruct (plan_id x) as [p|] eqn:E; [|exists x; split_and!; try done].
  destruct (dv_parent d I x p Hx E) as [Hlt (y & Hy & <- & Hyp)].
  destruct (IH y (x.(id) :: visited) (Some x) Hy Hyp) as (r & Hr & H1 & H2 & H3 & H4).
  - intros v [->|Hin]%elem_of_cons; [done|]. specialize (Hv v Hin). lia.
  - pose proof (rank_lt d.(entries) _ _ x Hlt Hx eq_refl). lia.
  - exists r. split; [done|]. split_and!; try done. eapply rtc_r; [done|]. by exists x.
Qed.

(** ** Descendants *)

Lemma children_elem ids t r : r ∈ children ids t ↔ r ∈ t ∧ r.(entry_type) = plan ∧ ∃ p, r.(plan_id) = Some p ∧ p ∈ ids.
Proof.
  unfold children. rewrite elem_fetchall, andb_true_iff, is_plan_iff. destruct (plan_id r) as [p|].
  - rewrite bool_decide_eq_true. naive_solver.
  - naive_solver.
Qed.

Lemma ordered_nodup t : ordered id t → NoDup (id <$> t).
Proof.
  unfold ordered. induction (id <$> t) as [|x l IH]; [constructor|]. intros [S F]%StronglySorted_inv. constructor; [|by apply IH].
  intros H. rewrite Forall_forall in F. specialize (F x H). lia.
Qed.

(** What [descend] has found, and what it has still to look at. *)
Record searching (n : Z) (t : list row) (found frontier : list Z) : Prop := {
  se_nodup : NoDup found;
  se_rows : found ⊆ (id <$> t);
  se_sound : ∀ q, q ∈ found → tc (edge t) n q;
  se_front : frontier ⊆ found;
  se_closed : ∀ p q, p = n ∨ p ∈ found → p ∉ frontier → edge t p q → q ∈ found }.

Lemma descend_spec n t fuel found frontier :
  ordered id t → n ∉ frontier → (∀ q, tc (edge t) n q → q ≠ n) → searching n t found frontier →
  (S (length t) ≤ fuel + length found)%nat →
  ∀ q, q ∈ descend fuel found frontier t ↔ tc (edge t) n q.
Proof.
  intros O Hn0 Hirr. revert found frontier Hn0. induction fuel as [|fuel IH]; intros found frontier Hn0 S L.
  { exfalso. pose proof (NoDup_submseteq found (id <$> t) (se_nodup _ _ _ _ S) (se_rows _ _ _ _ S)) as M%submseteq_length.
    rewrite length_fmap in M. lia. }
  cbn [descend]. set (next := id <$> _).
  assert (∀ q, q ∈ next ↔ ((q ∉ found) ∧ (∃ p, p ∈ frontier ∧ edge t p q))) as Hnext.
  { intros q. unfold next. rewrite list_elem_of_fmap. split.
    - intros (r & -> & [(Hr & Ht & p & Ep & Hp)%children_elem Hf]%elem_fetchall).
      apply negb_true_iff, bool_decide_eq_false in Hf. split; [done|]. exists p. split; [done|]. by exists r.
    - intros (Hf & p & Hp & r & Hr & Ht & Ep & <-). exists r. split; [done|]. apply elem_fetchall.
      rewrite negb_true_iff, bool_decide_eq_false, children_elem. eauto 10. }
  destruct next as [|z next'] eqn:En.
  - intros q. split; [apply S|]. intros Hq.
    assert (∀ p q, p = n ∨ p ∈ found → edge t p q → q ∈ found) as Hcl.
    { intros p q' Hp He. destruct (decide (p ∈ frontier)) as [Hf|Hf]; [|by eapply (se_closed _ _ _ _ S)].
      destruct (decide (q' ∈ found)) as [|Hn]; [done|]. exfalso. apply (not_elem_of_nil q'), Hnext. eauto. }
    assert (∀ p, p = n ∨ p ∈ found → tc (edge t) p q → q ∈ found) as Hc; [|apply (Hc n); auto].
    clear Hq. intros p Hp Hq. induction Hq as [p q He|p m q He _ IHq]; [by eapply Hcl|]. apply IHq. right. by eapply Hcl.
  - rewrite <- En in *. apply IH.
    + intros [_ (p & Hp & He)]%Hnext. eapply Hirr; [|done]. eapply tc_r; [|done]. by apply (se_sound _ _ _ _ S), (se_front _ _ _ _ S).
    + split.
      * apply NoDup_app. split_and!; [apply S|intros q Hq [Hq' _]%Hnext; done|].
        unfold next. apply ordered_nodup, ordered_fetchall, ordered_fetchall, O.
      * intros q [Hq|[_ (p & _ & r & Hr & _ & _ & <-)]%Hnext]%elem_of_app; [by apply (se_rows _ _ _ _ S)|by apply list_elem_of_fmap_2].
      * intros q [Hq|[_ (p & Hp & He)]%Hnext]%elem_of_app; [by apply (se_sound _ _ _ _ S)|].
        eapply tc_r; [|done]. by apply (se_sound _ _ _ _ S), (se_front _ _ _ _ S).
      * intros q Hq. apply elem_of_app. by right.
      * intros p q Hp Hnf He. destruct (decide (q ∈ found)) as [|Hq]; [apply elem_of_app; by left|].
        assert (p = n ∨ p ∈ found) as Hp' by (destruct Hp as [->|[Hp|Hp]%elem_of_app]; [by left|by right|done]).
        destruct (decide (p ∈ frontier)) as [Hf|Hf]; [|by destruct Hq; eapply (se_closed _ _ _ _ S)].
        apply elem_of_app. right. apply Hnext. eauto.
    + rewrite length_app, En. cbn. lia.
Qed.

Lemma descendants_spec d n q : dinv d → q ∈ descendants n d.(entries) ↔ tc (edge d.(entries)) n q.
Proof.
  intros I. unfold descendants. set (first := id <$> _).
  assert (∀ x, x ∈ first ↔ edge d.(entries) n x) as Hf.
  { intros x. unfold first. rewrite list_elem_of_fmap. split.
    - intros (r & -> & (Hr & Ht & p & Ep & ->%list_elem_of_singleton)%children_elem). by exists r.
    - intros (r & Hr & Ht & Ep & <-). exists r. split; [done|]. apply children_elem. split_and!; [done..|]. exists n. by split; [|left]. }
  assert (∀ x, tc (edge d.(entries)) n x → x ≠ n) as Hirr by (intros x Hx%(tc_edge_lt d); [lia|done]).
  apply descend_spec; [apply I|intros H%Hf; by destruct (Hirr n); [apply tc_once|]|done| |lia].
  split.
  - apply ordered_nodup, ordered_fetchall, I.
  - intros x (r & Hr & _ & _ & <-)%Hf. by apply list_elem_of_fmap_2.
  - intros x Hx%Hf. by apply tc_once.
  - done.
  - intros p x [->|Hp] Hn He; [by apply Hf|done].
Qed.

Lemma tc_subrel {A} (R S : relation A) : (∀ p q, R p q → S p q) → ∀ p q, tc R p q → tc S p q.
Proof. intros H p q. induction 1; [by apply tc_once, H|eapply tc_l; eauto]. Qed.

Lemma incomplete_descendant_None d n : dinv d → incomplete_descendant n d.(entries) = None →
  ∀ r, r ∈ d.(entries) → tc (edge d.(entries)) n r.(id) → plan_state r ≠ in_progress.
Proof.
  intros I H r Hr Ht E. eapply fetchone_None in H; [|exact Hr]. cbn in H. rewrite !bool_decide_true in H; [done..|].
  by apply descendants_spec.
Qed.

(** ** Completed plans *)

Lemma insert_row_only r d x : dinv d → x ∈ entries (insert_row r d) → r.(id) = next_id d → x.(id) ≤ d.(sequence) → x ∈ d.(entries).
Proof. intros I [Hx|Hx%list_elem_of_singleton]%elem_of_app E L; [done|]. subst x. unfold next_id in E. lia. Qed.

Lemma delete_rows_sub p d x : x ∈ entries (delete_rows p d) → x ∈ d.(entries).
Proof. by intros [? _]%elem_delete_where. Qed.

Lemma insert_todos_only i todos parent actor now cid d l d' x :
  insert_todos i todos parent actor now cid d = (l, d') → dinv d → parent_of d.(entries) parent →
  x ∈ d'.(entries) → x.(id) ≤ d.(sequence) → x ∈ d.(entries).
Proof.
  revert i d l. induction todos as [|nd todos IH]; intros i d l; cbn [insert_todos]; [by intros [= <- <-]|].
  unfold _insert_plan at 1. destruct (insert_todos _ _ _ _ _ _ _) as [l1 d1] eqn:E. intros [= <- <-] I Hp Hx L.
  pose proof (insert_plan_inv nd (Some parent) actor now cid d I ltac:(by intros p [= <-])) as I1. cbn in I1.
  eapply IH in E; [|done| |done|cbn; unfold next_id; lia].
  - by eapply (insert_row_only (plan_row nd (Some parent) actor now cid d)).
  - destruct Hp as (y & Hy & ?). exists y. split; [|done]. cbn. set_solver.
Qed.

Lemma insert_plans_only s cid actor now d p d' x :
  dinv d → insert_plans s cid actor now d = Ok (p, d') → x ∈ d'.(entries) → x.(id) ≤ d.(sequence) → x ∈ d.(entries).
Proof.
  intros I H Hx L. unfold insert_plans in H. destruct (check_place s cid d) as [[]|] eqn:Ep; [|done].
  destruct (append_conversation _ _ _ _ _ _) as [[created c]|] eqn:Ec; [|done].
  destruct (append_chat_spec _ _ _ _ _ _ _ _ (dv_chats d I) Ec) as (_ & _ & _ & _ & _ & _ & _ & _ & Ic).
  destruct (_insert_plan _ _ _ _ _ _) as [root d1] eqn:E1. destruct (insert_todos _ _ _ _ _ _ _) as [todos d2] eqn:E2.
  injection H as <- <-. apply trim_sub in Hx.
  assert (dinv (put_chats c d)) as I0 by by apply put_chats_inv, Ic.
  pose proof (insert_plan_inv (s_root s) (s_parent s) actor now cid (put_chats c d) I0 ltac:(intros q; by eapply check_place_Ok)) as I1.
  rewrite E1 in I1. cbn [snd] in I1. unfold _insert_plan in E1. injection E1 as Er Ed.
  eapply insert_todos_only in E2; [|done| |done|].
  - rewrite <- Ed in E2. by eapply (insert_row_only _ (put_chats c d)) in E2.
  - exists root. rewrite <- Ed, <- Er. cbn. set_solver.
  - rewrite <- Ed. cbn. unfold next_id. cbn. lia.
Qed.

(** Where an old row of the new table comes from. *)
Inductive row_from (d : db) : row → Prop :=
| Kept x : x ∈ d.(entries) → row_from d x
| Updated u now conv r : r ∈ d.(entries) → r.(entry_type) = plan → r.(plan_status) ≠ Some completed →
    r.(revision) = u.(up_revision) → row_from d (updated_row u now conv r)
| Finished now ok text result r : r ∈ d.(entries) → r.(entry_type) = operation → row_from d (finished_row now ok text result r).

Lemma dexec_rows d o x : dinv d → x ∈ (dexec d o).(entries) → x.(id) ≤ d.(sequence) → row_from d x.
Proof.
  intros I Hx L. destruct o; cbn [dexec] in Hx.
  - unfold add, txn in Hx. destruct (add_entry a now d) as [[n d']|] eqn:Ea; [|by constructor]. apply Kept.
    unfold add_entry in Ea. split_matches Ea. apply trim_sub in Hx. by eapply insert_row_only; [done|exact Hx|done|].
  - unfold create_plans, txn in Hx. destruct (normalize_plan_request body) as [s|]; [|by constructor].
    destruct (validate_actor actor) as [a|]; [|by constructor]. destruct (bool_decide _ && _); [by constructor|].
    destruct (create_plans_in s a now d) as [[p d']|] eqn:Ec; [|by constructor].
    apply create_plans_cases in Ec as [[-> _]|(cid & p1 & d1 & Hi & _ & Hd)]; [by constructor|]. apply Kept.
    eapply insert_plans_only; [done|done| |done]. by destruct Hd as [[-> ->]|(? & ? & _ & _ & _ & _ & ->)].
  - unfold update_plan, txn in Hx. destruct (check_update a) as [u|]; [|by constructor].
    destruct (apply_update n u now d) as [[ur d']|] eqn:Ea; [|by constructor].
    destruct (apply_update_Ok _ _ _ _ _ _ I Ea) as (y & conv & created & c & Em & _ & Er & Hin & _).
    apply Hin in Hx as [->|[Hx _]]; [|by constructor]. apply may_update_Ok in Em as (Hy & _ & Hp & Hv & Hnc & _).
    rewrite Er. by apply Updated.
  - unfold replace_note in Hx. destruct (let! _ := _validate_taskname task in _) as [[y d']|] eqn:Ea; [|by constructor].
    cbn [snd] in Hx. apply Kept. split_matches Ea; apply trim_sub, delete_rows_sub in Hx;
      (by eapply insert_row_only; [done|exact Hx|done|]).
  - unfold finish_operation, txn in Hx. destruct (_validate_content summary); [|by constructor].
    destruct (sqlite_max <? n); [by constructor|]. destruct (negb _); [by constructor|].
    cbn in Hx. apply elem_update_where in Hx as (y & Hy & ->). destruct (by_id n y && _) eqn:Eb; [|by constructor].
    apply andb_true_iff in Eb as [_ Eb%bool_decide_eq_true]. by apply Finished.
  - unfold store_create_conversation, txn in Hx. destruct (validate_actor actor); [|by constructor].
    destruct (create_conversation _ _ _ _ _ _ _) as [[? ?]|]; by constructor.
  - unfold store_append_conversation, txn in Hx. destruct (append_conversation _ _ _ _ _ _) as [[? ?]|]; [|by constructor].
    destruct (validate_conversation_id _); by constructor.
Qed.

Lemma dexec_completed d o r x :
  dinv d → r ∈ d.(entries) → r.(entry_type) = plan → r.(plan_status) = Some completed →
  x ∈ (dexec d o).(entries) → x.(id) = r.(id) → x = r.
Proof.
  intros I Hr Hp Hs Hx E. pose proof (dv_ids d I r Hr) as [_ Hseq].
  apply dexec_rows in Hx; [|done|lia].
  destruct Hx as [x Hx|u now conv y Hy _ Hc _|now ok text result y Hy Ht]; cbn in E.
  - by apply (dv_unique d).
  - by rewrite (dv_unique d y r I Hy Hr E) in Hc.
  - rewrite (dv_unique d y r I Hy Hr E) in Ht. congruence.
Qed.

(** Ids are not given out twice: the counter never goes back. *)
Lemma trim_sequence l d : sequence (_trim_if_needed l d) = sequence d.
Proof. unfold _trim_if_needed. by destruct (_ <? _). Qed.

Lemma insert_todos_sequence i todos parent actor now cid d :
  sequence d ≤ sequence (insert_todos i todos parent actor now cid d).2.
Proof.
  revert i d. induction todos as [|nd todos IH]; intros i d; cbn [insert_todos]; [done|]. unfold _insert_plan.
  match goal with |- context [insert_todos (S i) todos parent actor now cid ?d1] =>
    specialize (IH (S i) d1); destruct (insert_todos (S i) todos parent actor now cid d1) end.
  cbn in IH |- *. unfold next_id in IH. lia.
Qed.

Lemma insert_plans_sequence s cid actor now d p d' : insert_plans s cid actor now d = Ok (p, d') → sequence d ≤ sequence d'.
Proof.
  intros H. unfold insert_plans in H. destruct (check_place s cid d); [|done].
  destruct (append_conversation _ _ _ _ _ _) as [[created c]|]; [|done]. unfold _insert_plan in H.
  match type of H with context [insert_todos 0 ?t ?n actor now cid ?d1] =>
    pose proof (insert_todos_sequence 0 t n actor now cid d1) as L; destruct (insert_todos 0 t n actor now cid d1) end.
  injection H as _ <-. rewrite trim_sequence. cbn in L |- *. unfold next_id in L. cbn in L. lia.
Qed.

Lemma dexec_sequence d o : dinv d → sequence d ≤ sequence (dexec d o).
Proof.
  intros I. destruct o; cbn [dexec].
  - unfold add. apply (ctxn_inv _ _ (λ e, sequence d ≤ sequence e)); [done|]. intros n d' Ea. unfold add_entry in Ea.
    split_matches Ea. rewrite trim_sequence. cbn. unfold next_id. lia.
  - unfold create_plans. apply (ctxn_inv _ _ (λ e, sequence d ≤ sequence e)); [done|]. intros p d' H.
    destruct (normalize_plan_request body) as [s|]; [|done]. destruct (validate_actor actor) as [a|]; [|done].
    destruct (bool_decide _ && _); [done|].
    apply create_plans_cases in H as [[-> _]|(cid & p1 & d1 & Hi%insert_plans_sequence & _ & Hd)]; [done|].
    by destruct Hd as [[-> ->]|(? & ? & _ & _ & _ & _ & ->)].
  - unfold update_plan. apply (ctxn_inv _ _ (λ e, sequence d ≤ sequence e)); [done|]. intros ur d' H.
    destruct (check_update a) as [u|]; [|done].
    by destruct (apply_update_Ok _ _ _ _ _ _ I H) as (? & ? & ? & ? & _ & _ & _ & _ & _ & _ & -> & _).
  - unfold replace_note. destruct (let! _ := _validate_taskname task in _) as [[y d']|] eqn:Ea; [|done].
    cbn [snd]. split_matches Ea; rewrite trim_sequence; cbn; unfold next_id; lia.
  - unfold finish_operation, txn. destruct (_validate_content summary); [|done]. destruct (sqlite_max <? n); [done|]. by destruct (negb _).
  - unfold store_create_conversation, txn. destruct (validate_actor actor); [|done].
    by destruct (create_conversation _ _ _ _ _ _ _) as [[? ?]|].
  - unfold store_append_conversation, txn. destruct (append_conversation _ _ _ _ _ _) as [[? ?]|]; [|done].
    by destruct (validate_conversation_id _).
Qed.

(** The revision of an entry is at least [k], if it is still there. *)
Definition past (n k : Z) (d : db) : Prop := n ≤ d.(sequence) ∧ ∀ x, x ∈ d.(entries) → x.(id) = n → k ≤ x.(revision).

Lemma past_later n k d ops : dinv d → past n k d → past n k (foldl dexec d ops).
Proof.
  revert d. induction ops as [|o ops IH]; intros d I [L P]; [done|]. cbn. apply IH; [by apply dexec_advances|].
  split; [pose proof (dexec_sequence d o I); lia|]. intros x Hx E. apply dexec_rows in Hx; [|done|lia].
  destruct Hx as [x Hx|u now conv y Hy _ _ Hv|now ok text result y Hy _]; cbn in E |- *; [by apply P| |by apply P].
  specialize (P y Hy E). lia.
Qed.

(** ** Theorems *)

(** C5: after any requests the context database is sound: ids are unique and
    increasing, every entry has the statuses of its type, every reference leads to a
    stored plan with a smaller id (so trimming never leaves a dangling reference and
    plans never form a cycle), debriefs belong to completed plans, one each, recorded
    paths belong to stored entries, and the conversations are sound. *)
Theorem context_sound d :
  dreachable d →
  ordered id d.(entries) ∧
  (∀ r, r ∈ d.(entries) → typed r ∧ 1 ≤ r.(id) ≤ d.(sequence) ∧
     ∀ p, r.(plan_id) = Some p → p < r.(id) ∧ parent_of d.(entries) p) ∧
  NoDup (d_plan <$> d.(plan_debriefs)) ∧
  (∀ b, b ∈ d.(plan_debriefs) → ∃ r, r ∈ d.(entries) ∧ r.(id) = b.(d_plan) ∧ r.(entry_type) = plan ∧ r.(plan_status) = Some completed) ∧
  (∀ e, e ∈ d.(entry_paths) → ∃ r, r ∈ d.(entries) ∧ r.(id) = e.1) ∧ cinv d.(chats).
Proof.
  intros []%dreachable_inv. split_and!; try done. intros r Hr. split_and!; [by auto|by apply dv_ids0..|by auto].
Qed.

(** Looking for the root of a plan always ends: the loop returns or raises for
    any table, and in a reachable database it finds, from every plan, the root that
    the plan descends from. *)
Theorem plan_root_found d :
  (∀ child n, (∃ x, root_loop (S (length d.(entries))) child n [] None d.(entries) = Ok (Some x)) ∨
              ∃ e, root_loop (S (length d.(entries))) child n [] None d.(entries) = Err e) ∧
  (dreachable d → ∀ r, r ∈ d.(entries) → r.(entry_type) = plan → r.(id) ≤ sqlite_max →
     ∃ root, _plan_root (JInt r.(id)) None d = Ok (Some root) ∧ is_root_of d r.(id) root).
Proof.
  split.
  - intros child n. apply root_loop_ends; [constructor|set_solver|cbn; lia].
  - intros I%dreachable_inv r Hr Hp Hm. unfold _plan_root. rewrite require_plan_elem by done. cbn [_validate_plan_id_value].
    pose proof (dv_ids d I r Hr). rewrite (proj2 (Z.ltb_ge r.(id) 1)) by lia. rewrite bool_decide_false by done.
    apply root_loop_finds; [done..|set_solver|]. pose proof (rank_le d.(entries) r.(id)). lia.
Qed.

(** Completion is final: whatever request comes next, the row of a completed plan
    stays exactly as it is, or is trimmed. *)
Theorem plan_completed_final d o r :
  dreachable d → r ∈ d.(entries) → r.(entry_type) = plan → r.(plan_status) = Some completed →
  ∀ x, x ∈ (dexec d o).(entries) → x.(id) = r.(id) → x = r.
Proof. intros I%dreachable_inv. by intros; eapply dexec_completed. Qed.

(** C14: a plan is completed only when nothing below it is open: an update that
    completes a plan leaves no plan in progress among its descendants at any depth. *)
Theorem plan_completion_gate d n a now ur d' :
  dreachable d → update_plan n a now d = (Ok ur, d') → ur.(ur_row).(plan_status) = Some completed →
  ∀ x, x ∈ d'.(entries) → tc (edge d'.(entries)) n x.(id) → plan_state x ≠ in_progress.
Proof.
  intros I%dreachable_inv H Hs x Hx Ht. unfold update_plan, txn in H.
  destruct (check_update a) as [u|] eqn:Eu; [|done]. destruct (apply_update n u now d) as [[ur0 d0]|] eqn:Ea; [|done].
  injection H as <- <-. destruct (apply_update_Ok _ _ _ _ _ _ I Ea) as (r & conv & created & c & Em & _ & Er & Hin & _).
  assert (dinv d0) as I0 by (eapply apply_update_inv; [done| |done]; by eapply check_update_completed).
  pose proof (may_update_Ok _ _ _ _ Em) as (Hr & Hid & Hp & _ & Hnc & _ & Hinc).
  assert (up_status u = Some completed) as Hc.
  { rewrite Er in Hs. cbn in Hs. destruct (up_status u) as [s|]; cbn in Hs; [congruence|]. unfold plan_state in Hs.
    by destruct (plan_status r) as [[]|]. }
  specialize (Hinc Hc).
  assert (∀ p q, edge d0.(entries) p q → edge d.(entries) p q) as Hedge.
  { intros p q (y & Hy & Hyt & Hyp & Hyi). apply Hin in Hy as [->|[Hy _]]; [|by exists y].
    rewrite Er in Hyt, Hyp, Hyi. cbn in Hyt, Hyp, Hyi. by exists r. }
  assert (tc (edge d.(entries)) n x.(id)) as Ht' by exact (tc_subrel _ _ Hedge _ _ Ht).
  pose proof (tc_edge_lt d0 _ _ I0 Ht) as Hlt.
  apply Hin in Hx as [->|[Hx _]]; [rewrite Er in Hlt; cbn in Hlt; lia|]. by apply (incomplete_descendant_None d n).
Qed.

(** A receipt under a request id. *)
Lemma verify_later c w s s' cid : cinv s → extends s s' → verify_writer_nonce c w s = Ok cid → verify_writer_nonce c w s' = Ok cid.
Proof.
  intros I X. unfold verify_writer_nonce. destruct (validate_conversation_id c) as [n|]; [|done].
  destruct (validate_writer_nonce w) as [v|]; [|done].
  destruct (find_conversation n s) as [x|] eqn:E; [|done]. by rewrite (extends_find n s s' x I X E).
Qed.

(** Whether every plan of a receipt is still there. *)
Definition plans_present (p : plan_receipt) (d : db) : bool :=
  count (λ r, is_plan r && bool_decide (r.(id) ∈ receipt_ids p)) d.(entries) =? Z.of_nat (length (receipt_ids p)).

Lemma replay_fits rid s q d : q.(pr_fingerprint) = s.(s_fingerprint) →
  replay_plan rid s q d =
    if plans_present q.(pr_response) d then Ok (as_request rid true q.(pr_response))
    else Err (RequestConflict "context_request_gone" "one or more original plans were pruned; this request_id cannot create replacements").
Proof. intros E. unfold replay_plan, plans_present. rewrite E, String.eqb_refl. by destruct (_ =? _). Qed.

(** A successful request with an id leaves its receipt. *)
Lemma create_plans_receipt s actor now d p d' rid :
  dinv d → create_plans_in s actor now d = Ok (p, d') → p.(p_request) = Some rid →
  s.(s_request) = Some rid ∧ dinv d' ∧ extends d.(chats) d'.(chats) ∧
  ∃ a q, actor = Some a ∧ d'.(plan_requests) !! (a, rid) = Some q ∧ q.(pr_fingerprint) = s.(s_fingerprint) ∧
    as_request rid true q.(pr_response) = as_request rid true p.
Proof.
  intros I H Hr. apply create_plans_cases in H as [[-> (rid' & a & q & Es & -> & Hq & Hp)]|(cid & p1 & d1 & Hi & _ & Hd)].
  - unfold replay_plan in Hp. destruct (String.eqb_spec (pr_fingerprint q) (s_fingerprint s)); [|done]. cbn [negb] in Hp.
    destruct (negb _); [done|]. injection Hp as <-. cbn in Hr. injection Hr as ->.
    split_and!; [done..|]. by exists a, q.
  - destruct (insert_plans_spec _ _ _ _ _ _ _ I Hi) as (I1 & _ & Hch & _).
    assert (extends (chats d) (chats d1)) as X by (rewrite Hch; apply cexec_spec, I).
    destruct Hd as [[-> ->]|(rid' & a & Es & -> & Hn & -> & ->)].
    + exfalso. unfold insert_plans in Hi. split_matches Hi.
    + cbn in Hr. injection Hr as ->. split_and!; [done|by apply put_plan_request_inv|done|].
      eexists a, _. split_and!; [done|cbn; by rewrite lookup_insert_eq|done|done].
Qed.

(** C11: a plan request with an id is carried out at most once: whatever happened
    since, the same request returns the same receipt, or is refused because one of
    its plans was pruned, and in either case it writes nothing. *)
Theorem plan_request_once d body actor now p d1 rid ops now' :
  dreachable d → create_plans body actor now d = (Ok p, d1) → p.(p_request) = Some rid →
  create_plans body actor now' (foldl dexec d1 ops) =
    (if plans_present p (foldl dexec d1 ops) then Ok (as_request rid true p)
     else Err (RequestConflict "context_request_gone" "one or more original plans were pruned; this request_id cannot create replacements"),
     foldl dexec d1 ops).
Proof.
  intros I%dreachable_inv H Hr. unfold create_plans, txn in *.
  destruct (normalize_plan_request body) as [s|]; [|done]. destruct (validate_actor actor) as [a|]; [|done].
  destruct (bool_decide (is_Some (s_request s)) && _); [done|].
  destruct (create_plans_in s a now d) as [[p0 d0]|] eqn:Ec; [|done]. injection H as <- <-.
  destruct (create_plans_receipt _ _ _ _ _ _ _ I Ec Hr) as (Es & I1 & X1 & b & q & -> & Hq & Hf & Hp).
  destruct (dexec_later d0 ops I1) as (I2 & X2 & Hsub). set (d2 := foldl dexec d0 ops) in *.
  assert (plans_present p0 d2 = plans_present (pr_response q) d2) as ->.
  { unfold plans_present. by replace (receipt_ids p0) with (receipt_ids (pr_response q)) by (unfold receipt_ids; injection Hp; congruence). }
  unfold create_plans_in in *. destruct (verify_writer_nonce _ _ (chats d)) as [cid|] eqn:Ev; [|done].
  rewrite (verify_later _ _ _ (chats d2) _ (dv_chats d I) ltac:(by etrans) Ev), Es, (lookup_weaken _ _ _ _ Hq Hsub).
  rewrite replay_fits by done. rewrite <- Hp. by destruct (plans_present _ _).
Qed.

(** Of the updates that expect the same revision of a plan at most one is carried
    out: once one succeeded, no later update with that revision does. *)
Theorem plan_update_once d n a now ur d1 ops a' now' :
  dreachable d → update_plan n a now d = (Ok ur, d1) → a'.(ua_revision) = a.(ua_revision) →
  ∃ e, update_plan n a' now' (foldl dexec d1 ops) = (Err e, foldl dexec d1 ops).
Proof.
  intros I%dreachable_inv H E. assert (dinv d1) as I1.
  { pose proof (dexec_advances d (UpdatePlan n a now) I) as [X _]. cbn [dexec] in X. by rewrite H in X. }
  unfold update_plan, txn in *. destruct (check_update a) as [u|] eqn:Eu; [|done].
  destruct (apply_update n u now d) as [[ur0 d0]|] eqn:Ea; [|done]. injection H as <- <-.
  destruct (apply_update_Ok _ _ _ _ _ _ I Ea) as (r & conv & created & c & Em & _ & Er & Hin & _ & _ & Hs & _).
  apply may_update_Ok in Em as (Hr & Hid & Hp & Hv & _). pose proof (dv_ids d I r Hr).
  assert (past n (up_revision u + 1) d0) as [_ P]%(past_later n _ d0 ops I1).
  { split; [lia|]. intros x [->|[_ Hn]]%Hin Hx; [|done]. by rewrite Er. }
  destruct (check_update a') as [u'|] eqn:Eu'; [|by eexists].
  assert (up_revision u' = up_revision u) as Ev.
  { pose proof (check_update_revision _ _ Eu) as R. pose proof (check_update_revision _ _ Eu') as R'. congruence. }
  destruct (apply_update n u' now' (foldl dexec d0 ops)) as [[ur' d']|e] eqn:Ea'; [|by exists e].
  exfalso. unfold apply_update in Ea'. destruct (may_update _ _ _) as [y|] eqn:Ey; [|done].
  apply may_update_Ok in Ey as (Hy & Hyid & _ & Hyv & _). specialize (P y Hy Hyid). lia.
Qed.

(** A plan and its todos are created together: a request that is not a replay
    inserts the root below the parent it names and one open child per todo, in order,
    all of the conversation it proved; a request that raises changes nothing. *)
Theorem plans_created_together d body actor now :
  dreachable d →
  match create_plans body actor now d with
  | (Err _, d') => d' = d
  | (Ok p, d') => p.(p_replayed) = Some true ∧ d' = d ∨
      ∃ s, normalize_plan_request body = Ok s ∧
        p.(p_root) ∈ d'.(entries) ∧ p.(p_root).(plan_id) = s.(s_parent) ∧ p.(p_root).(plan_status) = Some in_progress ∧
        p.(p_root).(content) = s.(s_root).(n_content) ∧
        Forall2 (λ h nd, ∃ r, r ∈ d'.(entries) ∧ r.(id) = h.(h_id) ∧ r.(entry_type) = plan ∧
          r.(plan_id) = Some p.(p_root).(id) ∧ r.(plan_status) = Some in_progress ∧ r.(content) = nd.(n_content) ∧
          r.(taskname) = nd.(n_taskname) ∧ r.(conversation_id) = Some s.(s_conversation) ∧ h.(h_ref) = nd.(n_ref)) p.(p_todos) s.(s_todos)
  end.
Proof.
  intros I%dreachable_inv. unfold create_plans, txn.
  destruct (normalize_plan_request body) as [s|]; [|done]. destruct (validate_actor actor) as [a|]; [|done].
  destruct (bool_decide (is_Some (s_request s)) && _); [done|].
  destruct (create_plans_in s a now d) as [[p d']|] eqn:Ec; [|done].
  apply create_plans_cases in Ec as [[-> (rid & b & q & _ & _ & _ & Hp)]|(cid & p1 & d1 & Hi & Hv & Hd)].
  - left. unfold replay_plan in Hp. split_matches Hp. done.
  - right. exists s. split; [done|]. apply verify_spec in Hv as ([= ->] & _).
    destruct (insert_plans_spec _ _ _ _ _ _ _ I Hi) as (_ & _ & _ & Hr & _ & Hpid & Hps & Hc & HF).
    by destruct Hd as [[-> ->]|(? & ? & _ & _ & _ & -> & ->)].
Qed.

(** ** Queries *)

Definition without_text (a : query_args) : query_args :=
  {| qa_id := a.(qa_id); qa_exclude := a.(qa_exclude); qa_query := None; qa_type := a.(qa_type); qa_status := a.(qa_status);
     qa_taskname := a.(qa_taskname); qa_actor := a.(qa_actor); qa_path := a.(qa_path); qa_plan := a.(qa_plan);
     qa_root_plans := a.(qa_root_plans); qa_before := a.(qa_before); qa_limit := a.(qa_limit) |}.

(** An entry that mentions a text in one of the searched columns. *)
Definition mentions (q : string) (r : row) : Prop :=
  contains_nocase q r.(content) ∨ contains_nocase q (default ""%string r.(result_summary)) ∨
  contains_nocase q (default ""%string r.(operation_name)) ∨ contains_nocase q r.(taskname).

Lemma matches_text_mentions q r : matches_text q r = true ↔ mentions q r.
Proof. unfold matches_text, mentions. rewrite !orb_true_iff, !like_pattern_contains. tauto. Qed.

Lemma rev_sorted (l : list Z) : StronglySorted Z.lt l → StronglySorted Z.gt (rev l).
Proof.
  induction 1 as [|x l S IH F]; [constructor|]. cbn [rev]. apply StronglySorted_app_2; [|done|repeat constructor].
  intros y z Hy ->%list_elem_of_singleton. rewrite list_elem_of_In, <- in_rev, <- list_elem_of_In in Hy.
  rewrite Forall_forall in F. specialize (F y Hy). lia.
Qed.

(** A text search finds what it says: the entries come newest first, and, when
    they fit the page, they are exactly the entries that the other filters select and
    that mention the text, without regard to case and with no character special. *)
Theorem context_search d a rows total :
  dreachable d → query a d = Ok (rows, total) → strip (default ""%string a.(qa_query)) ≠ ""%string →
  StronglySorted Z.gt (id <$> rows) ∧
  ∃ rows0 total0, query (without_text a) d = Ok (rows0, total0) ∧ total ≤ total0 ∧
    (total0 ≤ a.(qa_limit) →
       total = Z.of_nat (length rows) ∧
       ∀ r, r ∈ rows ↔ r ∈ rows0 ∧ mentions (strip (default ""%string a.(qa_query))) r).
Proof.
  intros I%dreachable_inv H Ht. unfold query in *. cbn [without_text qa_limit qa_id qa_exclude qa_before qa_plan qa_root_plans qa_query
    qa_taskname qa_actor qa_path].
  change (check_type (without_text a)) with (check_type a). 
  destruct (negb _) eqn:El; [done|]. destruct (given _ (qa_id a)); [done|]. destruct (given _ (qa_exclude a)); [done|].
  destruct (given _ (qa_before a)); [done|]. destruct (match qa_plan a with Some _ => _ | None => _ end) as [pid|]; [|done].
  destruct (qa_root_plans a && _); [done|]. destruct (check_type a) as [t|]; [|done].
  change (check_status t (without_text a)) with (check_status t a).
  destruct (check_status t a) as [f|]; [|done]. destruct (optional _ (qa_taskname a)) as [name|]; [|done].
  destruct (optional _ (qa_actor a)) as [actor|]; [|done]. destruct (optional _ (qa_path a)) as [path|]; [|done].
  destruct (1000 <? _); [done|]. change (1000 <? _) with false. cbn match. destruct (_ || too_big (qa_before a)); [done|].
  injection H as <- <-. set (text := strip (default ""%string (qa_query a))) in *.
  change (is_empty (strip (default ""%string None))) with true. cbn [orb].
  replace (is_empty text) with false by by destruct text. cbn [orb].
  change (selected_by (without_text a)) with (selected_by a).
  set (sel := selected_by a pid t f name actor path d). set (k := Z.to_nat (qa_limit a)).
  assert (∀ r, r ∈ fetchall (λ r, sel r && matches_text text r) d.(entries) ↔ r ∈ fetchall (λ r, sel r && true) d.(entries) ∧ mentions text r) as Hx.
  { intros r. rewrite !elem_fetchall, andb_true_r, andb_true_iff, matches_text_mentions. tauto. }
  assert (length (fetchall (λ r, sel r && matches_text text r) d.(entries)) ≤ length (fetchall (λ r, sel r && true) d.(entries)))%nat as Hl.
  { apply fetchall_length_le. intros r. rewrite andb_true_r, andb_true_iff. tauto. }
  split.
  - rewrite fmap_take. eapply (StronglySorted_app_1_l _ _ (drop k _)). rewrite take_drop.
    change (id <$> rev ?l) with (map id (rev l)). rewrite map_rev. apply rev_sorted, ordered_fetchall, I.
  - eexists _, _. split; [done|]. split; [lia|]. intros L.
    rewrite !take_ge by (rewrite length_rev; unfold k; lia). split; [by rewrite length_rev|].
    intros r. rewrite !list_elem_of_In, <- !in_rev, <- !list_elem_of_In. apply Hx.
Qed.

(** ** A workspace *)

Definition demo_body : dictionary :=
  [("content", JStr "ship it"); ("taskname", JStr "release"); ("todos", JList [JObj [("content", JStr "run the 100% tests")]]);
   ("request_id", JStr "plan-1"); ("conversation_id", JInt 0); ("writer_nonce", JStr "@abcd@");
   ("conversation_entries", JList [demo_item "ai" "planning"])]%string.
Definition demo_update (status : string) (rev : Z) : update_args :=
  {| ua_revision := JInt rev; ua_taskname := JStr "release"; ua_content := None; ua_status := Some status; ua_debrief := None;
     ua_actor := None; ua_conversation := Some (JInt 0); ua_nonce := Some (JStr "@abcd@");
     ua_entries := Some (JList [demo_item "ai" "going on"]); ua_require_conversation := true |}.

Definition demo_start : list dop := [CreateConversation (JInt 0) demo_opening (JStr "req-1") (Some "actor"%string) 5 0 1 2 3].
Definition demo_plans : list dop := demo_start ++ [CreatePlans demo_body (Some "actor"%string) 6].
Definition demo_closed : list dop := demo_plans ++ [UpdatePlan 2 (demo_update "cancelled" 1) 7].
Definition demo_done : list dop := demo_closed ++ [UpdatePlan 1 (demo_update "completed" 1) 8].
Definition run (ops : list dop) : db := foldl dexec empty_db ops.

Lemma run_reachable ops : dreachable (run ops).
Proof. by exists ops. Qed.

Definition demo_row (n updated : Z) (text : string) (st : pstatus) (parent : option Z) (rev : Z) : row :=
  {| id := n; created_at := 6; updated_at := updated; entry_type := plan; content := text; operation_name := None; status := None;
     result_summary := None; actor_id := Some "actor"%string; request_json := None; result_json := None; taskname := "release";
     plan_status := Some st; plan_id := parent; conversation_id := Some 0; revision := rev |}.
Definition demo_todo : row := demo_row 2 6 "run the 100% tests" in_progress (Some 1) 1.

(** The gate of completion holds at the moment of completion only: a cancelled
    child of a completed plan can be taken up again, which leaves the completed plan
    with a descendant in progress. *)
Theorem cancelled_child_reopens :
  ∃ d a now ur d', dreachable d ∧ update_plan 2 a now d = (Ok ur, d') ∧
    demo_row 1 8 "ship it" completed None 2 ∈ d'.(entries) ∧
    demo_row 2 9 "run the 100% tests" in_progress (Some 1) 3 ∈ d'.(entries).
Proof.
  exists (run demo_done), (demo_update "in_progress" 2), 9.
  destruct (update_plan 2 (demo_update "in_progress" 2) 9 (run demo_done)) as [r d'] eqn:E. vm_compute in E.
  injection E as <- <-. eexists _, _. split; [apply run_reachable|]. split; [reflexivity|]. split; vm_compute; repeat constructor.
Qed.

Lemma context_sound_witness : ordered id (run demo_done).(entries).
Proof. apply (context_sound (run demo_done) (run_reachable demo_done)). Defined.

Lemma plan_completion_gate_witness :
  Forall (λ x, tc (edge (run demo_done).(entries)) 1 x.(id) → plan_state x ≠ in_progress) (run demo_done).(entries).
Proof.
  apply Forall_forall. unfold run, demo_done. rewrite foldl_app. cbn [foldl dexec]. fold (run demo_closed).
  destruct (update_plan 1 (demo_update "completed" 1) 8 (run demo_closed)) as [[ur|e] d'] eqn:E; [|vm_compute in E; discriminate E].
  apply (plan_completion_gate (run demo_closed) 1 (demo_update "completed" 1) 8 ur d' (run_reachable demo_closed) E).
  vm_compute in E. injection E as <- _. reflexivity.
Defined.

Lemma plan_request_once_witness :
  ∃ p, create_plans demo_body (Some "actor"%string) 99 (run demo_done) = (Ok (as_request "plan-1" true p), run demo_done).
Proof.
  destruct (create_plans demo_body (Some "actor"%string) 6 (run demo_start)) as [[p|e] d1] eqn:E; [|vm_compute in E; discriminate E].
  exists p. assert (run demo_done = foldl dexec d1 [UpdatePlan 2 (demo_update "cancelled" 1) 7; UpdatePlan 1 (demo_update "completed" 1) 8]) as H.
  { change (run demo_done) with (foldl dexec (dexec (run demo_start) (CreatePlans demo_body (Some "actor"%string) 6))
      [UpdatePlan 2 (demo_update "cancelled" 1) 7; UpdatePlan 1 (demo_update "completed" 1) 8]). cbn [dexec]. by rewrite E. }
  assert (plans_present p (run demo_done) = true) as Hp by (vm_compute in E; injection E as <- _; vm_compute; reflexivity).
  assert (p_request p = Some "plan-1"%string) as Hr by (vm_compute in E; injection E as <- _; reflexivity).
  pose proof (plan_request_once (run demo_start) demo_body (Some "actor"%string) 6 p d1 "plan-1"
    [UpdatePlan 2 (demo_update "cancelled" 1) 7; UpdatePlan 1 (demo_update "completed" 1) 8] 99 (run_reachable demo_start) E Hr) as T.
  rewrite <- H, Hp in T. exact T.
Defined.

Definition demo_query : query_args :=
  {| qa_id := None; qa_exclude := None; qa_query := Some "100% T"%string; qa_type := None; qa_status := None; qa_taskname := None;
     qa_actor := None; qa_path := None; qa_plan := None; qa_root_plans := false; qa_before := None; qa_limit := 10 |}.
