(* ===== verification/Memory.v ===== *)
(** * Memory: the revisioned memory of a project

    Models class [MemoryStore] of src/openkapsel/context/memory_store.py: the four
    tables, and each method as one transaction that returns its value with the new
    tables or raises with the old ones.  A method that can join a running transaction
    has its body as a definition of its own.  Stored JSON texts are the values they
    read back as; the clock and the random identifiers are arguments.  The migration
    of databases of earlier releases is not modelled. *)

From Stdlib Require Import ZArith QArith Lia Ascii String.
From stdpp Require Import base tactics list sorting gmap strings pretty fin_maps.
From S2P Require Import Prelude Sql PosixPath Conversation.

Local Open Scope Z_scope.

Definition MAX_MEMORY_CONTENT_CHARS : Z := 256.
Definition MAX_MEMORY_CHANGE_MESSAGE_CHARS : Z := 200.
Definition MAX_MEMORY_QUERY_LIMIT : Z := 200.
Definition MAX_MEMORY_REVISION_LIMIT : Z := 200.
Definition MAX_MEMORY_RELATED_CANDIDATES : nat := 2000.
Definition MAX_MEMORY_FEEDBACK_REFS : nat := 20.

Definition dict : Type := list (string * json).

(** ** Tables *)

Record memory := {
  m_id : string;
  m_created : Z;
  m_updated : Z;
  m_content : string;
  m_tags : list string;
  m_path : string;
  m_revision : Z;
  m_source_plan : option Z;
  m_last_plan : option Z;
  m_helpful : Z;
  m_helpful_at : option Z;
  m_actor : option string;
  m_archived : option Z }.

(** The serialized form without the feedback columns: what a revision keeps. *)
Record snapshot := {
  s_id : string; s_created : Z; s_updated : Z; s_content : string; s_tags : list string; s_path : string;
  s_revision : Z; s_source_plan : option Z; s_last_plan : option Z; s_actor : option string; s_archived : option Z }.

(** The serialized form. *)
Record item := { snap : snapshot; helpful_count : Z; last_helpful_at : option Z }.

Record mrevision := {
  v_memory : string; v_revision : Z; v_changed : Z; v_actor : option string; v_plan : option Z; v_message : string;
  v_snapshot : snapshot }.

Record mfeedback := { f_plan : Z; f_memory : string; f_revision : Z; f_actor : option string; f_created : Z }.

Record mstore := Store {
  memories : list memory;
  memory_tags : gset (string * string);
  memory_revisions : list mrevision;
  memory_feedback : list mfeedback }.

Definition empty_mstore : mstore := Store [] ∅ [] [].

(** [atomic_transaction]: an exception rolls back. *)
Definition atomic {A} (f : mstore → res exn (A * mstore)) (s : mstore) : res exn A * mstore :=
  match f s with Ok (a, s') => (Ok a, s') | Err x => (Err x, s) end.

(** ** Validation *)

Definition _validate_plan_id (v : json) (required : bool) : res exn (option Z) :=
  match v with
  | JNull => if required then Err (ValueError "memory plan_id must be a positive integer") else Ok None
  | JInt n => raise! (ValueError "memory plan_id must be a positive integer") when n <? 1; Ok (Some n)
  | _ => Err (ValueError "memory plan_id must be a positive integer")
  end.

Definition _validate_revision (v : json) : res exn Z :=
  match v with
  | JInt n => raise! (ValueError "memory revision must be a positive integer") when n <? 1; Ok n
  | _ => Err (ValueError "memory revision must be a positive integer")
  end.

Definition _change_message (v : string) : res exn string :=
  _required_text (JStr v) "change message" MAX_MEMORY_CHANGE_MESSAGE_CHARS.

(** ** Rows and their serialized form *)

Definition snapshot_of (path : string) (r : memory) : snapshot :=
  {| s_id := r.(m_id); s_created := r.(m_created); s_updated := r.(m_updated); s_content := r.(m_content);
     s_tags := r.(m_tags); s_path := path; s_revision := r.(m_revision); s_source_plan := r.(m_source_plan);
     s_last_plan := r.(m_last_plan); s_actor := r.(m_actor); s_archived := r.(m_archived) |}.

(** The path is normalized once more. *)
Definition _snapshot (r : memory) : res exn snapshot :=
  let! p := _normalize_path (JStr r.(m_path)) in Ok (snapshot_of p r).

Definition _serialize (r : memory) : res exn item :=
  let! s := _snapshot r in Ok {| snap := s; helpful_count := r.(m_helpful); last_helpful_at := r.(m_helpful_at) |}.

Fixpoint serialize_all (l : list memory) : res exn (list item) :=
  match l with
  | [] => Ok []
  | r :: l' => let! i := _serialize r in let! rest := serialize_all l' in Ok (i :: rest)
  end.

(** The first 500 characters, and whether an ellipsis follows them. *)
Definition excerpt (text : string) : string * bool := (String.substring 0 500 text, 500 <? slen text).

Definition _deserialize_snapshot (s : snapshot) : res exn snapshot :=
  let! p := _normalize_path (JStr s.(s_path)) in
  Ok {| s_id := s.(s_id); s_created := s.(s_created); s_updated := s.(s_updated); s_content := s.(s_content);
        s_tags := s.(s_tags); s_path := p; s_revision := s.(s_revision); s_source_plan := s.(s_source_plan);
        s_last_plan := s.(s_last_plan); s_actor := s.(s_actor); s_archived := s.(s_archived) |}.

Definition with_id (n : string) (r : memory) : bool := String.eqb r.(m_id) n.
(** SELECT * FROM memories WHERE id = ? *)
Definition select_memory (n : string) (s : mstore) : option memory := fetchone (with_id n) s.(memories).
Definition live (r : memory) : bool := bool_decide (r.(m_archived) = None).

(** A value beyond SQLite's integers cannot be bound. *)
Definition unbindable (o : option Z) : bool := match o with Some n => sqlite_max <? n | None => false end.

(** ** Statements *)

Definition insert_memory (r : memory) (s : mstore) : mstore :=
  Store (s.(memories) ++ [r]) s.(memory_tags) s.(memory_revisions) s.(memory_feedback).

Definition put_memories (l : list memory) (s : mstore) : mstore :=
  Store l s.(memory_tags) s.(memory_revisions) s.(memory_feedback).

(** INSERT INTO memory_tags, one row per tag; the pair is the primary key. *)
Fixpoint insert_tags (n : string) (tags : list string) (s : mstore) : res exn mstore :=
  match tags with
  | [] => Ok s
  | t :: rest =>
      raise! IntegrityError when bool_decide ((n, t) ∈ s.(memory_tags));
      insert_tags n rest (Store s.(memories) ({[(n, t)]} ∪ s.(memory_tags)) s.(memory_revisions) s.(memory_feedback))
  end.

(** DELETE FROM memory_tags WHERE memory_id = ? *)
Definition delete_tags (n : string) (s : mstore) : mstore :=
  Store s.(memories) (filter (λ e, e.1 ≠ n) s.(memory_tags)) s.(memory_revisions) s.(memory_feedback).

Definition is_revision (n : string) (k : Z) (v : mrevision) : bool := String.eqb v.(v_memory) n && (v.(v_revision) =? k).

(** INSERT INTO memory_revisions; memory and revision are the primary key. *)
Definition insert_revision (v : mrevision) (s : mstore) : res exn mstore :=
  raise! IntegrityError when existsb (is_revision v.(v_memory) v.(v_revision)) s.(memory_revisions);
  Ok (Store s.(memories) s.(memory_tags) (s.(memory_revisions) ++ [v]) s.(memory_feedback)).

(** ** Creating *)

(** The rounds of the loop that allocates an identifier. *)
Fixpoint allocate (rounds : nat) (draw : nat → string) (i : nat) (s : mstore) : res exn string :=
  match rounds with
  | 0%nat => Err (RuntimeError "unable to allocate memory id")
  | S rounds' =>
      let n := "mem_" +:+ draw i in
      match select_memory n s with
      | None => Ok n
      | Some _ => allocate rounds' draw (S i) s
      end
  end.

Record create_args := {
  c_content : json; c_tags : json; c_path : json; c_plan : json; c_actor : option string; c_message : string }.

Definition create_in (a : create_args) (now : Z) (draw : nat → string) (s : mstore) : res exn (item * mstore) :=
  let! content := _required_text a.(c_content) "content" MAX_MEMORY_CONTENT_CHARS in
  let! tags := _validate_tags a.(c_tags) true in
  let! path := _normalize_path (match a.(c_path) with JNull => JStr "server:." | v => v end) in
  let! pid := _validate_plan_id a.(c_plan) false in
  let! message := _change_message a.(c_message) in
  raise! OverflowError when unbindable pid;
  let! n := allocate 8 draw 0 s in
  let r := {| m_id := n; m_created := now; m_updated := now; m_content := content; m_tags := tags; m_path := path;
              m_revision := 1; m_source_plan := pid; m_last_plan := pid; m_helpful := 0; m_helpful_at := None;
              m_actor := a.(c_actor); m_archived := None |} in
  let! s1 := insert_tags n tags (insert_memory r s) in
  let! sn := _snapshot r in
  let! s2 := insert_revision {| v_memory := n; v_revision := 1; v_changed := now; v_actor := a.(c_actor); v_plan := pid;
                                v_message := message; v_snapshot := sn |} s1 in
  let! i := _serialize r in
  Ok (i, s2).

Definition create (a : create_args) (now : Z) (draw : nat → string) : mstore → res exn item * mstore :=
  atomic (create_in a now draw).

Definition get (n : string) (include_archived : bool) (s : mstore) : res exn item :=
  match select_memory n s with
  | Some r => raise! (KeyError "memory does not exist") when negb (live r) && negb include_archived; _serialize r
  | None => Err (KeyError "memory does not exist")
  end.

(** ** Updating and archiving *)

(** The guards that both share: the row, live, at the expected revision. *)
Definition current (n : string) (expected : Z) (s : mstore) : res exn memory :=
  match select_memory n s with
  | Some r =>
      raise! (KeyError "memory does not exist") when negb (live r);
      raise! (RuntimeError ("memory revision is " +:+ pretty r.(m_revision) +:+ ", not " +:+ pretty expected))
        when negb (r.(m_revision) =? expected);
      Ok r
  | None => Err (KeyError "memory does not exist")
  end.

Definition at_revision (n : string) (k : Z) (r : memory) : bool := with_id n r && (r.(m_revision) =? k) && live r.

Definition str_le (a b : string) : Prop := String.leb a b = true.
#[export] Instance str_le_dec : RelDecision str_le.
Proof. intros a b. unfold str_le. apply _. Defined.

(** [", ".join(sorted(unknown))] *)
Definition listed (l : list string) : string := String.concat ", " (merge_sort str_le l).
Definition unknown_keys (allowed : list string) (d : dict) : list string :=
  List.filter (λ k, negb (bool_decide (k ∈ allowed))) d.*1.

Definition no_unknown (label : string) (allowed : list string) (d : dict) : res exn unit :=
  match unknown_keys allowed d with
  | [] => Ok tt
  | l => Err (ValueError (label +:+ listed l))
  end.

Record change_args := {
  g_expected : json; g_plan : json; g_actor : option string; g_message : string }.

(** The new values of an update. *)
Definition changed_fields (changes : dict) (r : memory) : res exn (string * list string * string) :=
  let! content := match obj_get "content" changes with
                  | Some v => _required_text v "content" MAX_MEMORY_CONTENT_CHARS
                  | None => Ok r.(m_content)
                  end in
  let! tags := _validate_tags (obj_get_or "tags" (JList (JStr <$> r.(m_tags))) changes) true in
  let! path := _normalize_path (obj_get_or "path" (JStr r.(m_path)) changes) in
  Ok (content, tags, path).

Definition updated_memory (content : string) (tags : list string) (path : string) (revision : Z) (pid : option Z)
    (actor : option string) (now : Z) (r : memory) : memory :=
  {| m_id := r.(m_id); m_created := r.(m_created); m_updated := now; m_content := content; m_tags := tags; m_path := path;
     m_revision := revision; m_source_plan := r.(m_source_plan); m_last_plan := pid; m_helpful := r.(m_helpful);
     m_helpful_at := r.(m_helpful_at); m_actor := actor; m_archived := r.(m_archived) |}.

Definition update_in (n : string) (changes : dict) (g : change_args) (now : Z) (s : mstore) : res exn (item * mstore) :=
  let! expected := _validate_revision g.(g_expected) in
  let! pid := _validate_plan_id g.(g_plan) true in
  let! message := _change_message g.(g_message) in
  let! _ := no_unknown "unknown memory fields: " ["content"; "tags"; "path"] changes in
  raise! (ValueError "memory update requires content, tags, or path") when match changes with [] => true | _ => false end;
  let! r := current n expected s in
  let! (content, tags, path) := changed_fields changes r in
  let r' := updated_memory content tags path (expected + 1) pid g.(g_actor) now r in
  raise! OverflowError when unbindable pid;
  raise! (RuntimeError "memory revision changed during update") when negb (count (at_revision n expected) s.(memories) =? 1);
  let s1 := put_memories (update_where (at_revision n expected) (λ _, r') s.(memories)) s in
  let! s2 := insert_tags n tags (delete_tags n s1) in
  let! sn := _snapshot r' in
  let! s3 := insert_revision {| v_memory := n; v_revision := expected + 1; v_changed := now; v_actor := g.(g_actor);
                                v_plan := pid; v_message := message; v_snapshot := sn |} s2 in
  let! i := _serialize r' in
  Ok (i, s3).

Definition update (n : string) (changes : dict) (g : change_args) (now : Z) : mstore → res exn item * mstore :=
  atomic (update_in n changes g now).

Definition archived_memory (revision : Z) (pid : option Z) (actor : option string) (now : Z) (r : memory) : memory :=
  {| m_id := r.(m_id); m_created := r.(m_created); m_updated := now; m_content := r.(m_content); m_tags := r.(m_tags);
     m_path := r.(m_path); m_revision := revision; m_source_plan := r.(m_source_plan); m_last_plan := pid;
     m_helpful := r.(m_helpful); m_helpful_at := r.(m_helpful_at); m_actor := actor; m_archived := Some now |}.

Definition archive_in (n : string) (g : change_args) (now : Z) (s : mstore) : res exn (item * mstore) :=
  let! expected := _validate_revision g.(g_expected) in
  let! pid := _validate_plan_id g.(g_plan) true in
  let! message := _change_message g.(g_message) in
  let! r := current n expected s in
  let r' := archived_memory (expected + 1) pid g.(g_actor) now r in
  raise! OverflowError when unbindable pid;
  raise! (RuntimeError "memory revision changed during archive") when negb (count (at_revision n expected) s.(memories) =? 1);
  let s1 := put_memories (update_where (at_revision n expected) (λ _, r') s.(memories)) s in
  let! sn := _snapshot r' in
  let! s2 := insert_revision {| v_memory := n; v_revision := expected + 1; v_changed := now; v_actor := g.(g_actor);
                                v_plan := pid; v_message := message; v_snapshot := sn |} s1 in
  let! i := _serialize r' in
  Ok (i, s2).

Definition archive (n : string) (g : change_args) (now : Z) : mstore → res exn item * mstore := atomic (archive_in n g now).

(** ** Checking the actions of a completion *)

(** [item.get("action")] and the like. *)
Definition text_field (key : string) (d : dict) : option string :=
  match obj_get key d with Some (JStr s) => Some s | _ => None end.

(** Without the keys that every action has. *)
Definition without_meta (d : dict) : dict :=
  List.filter (λ f, negb (bool_decide (f.1 ∈ ["action"; "memory_id"; "expected_revision"]%string))) d.

(** [if "content" in changes: check(changes["content"])] *)
Definition check_field {A} (key : string) (d : dict) (check : json → res exn A) : res exn unit :=
  match obj_get key d with None => Ok tt | Some v => let! _ := check v in Ok tt end.

(** What the simulation knows of a memory: its revision, and whether it is archived. *)
Definition simulated_state (n : string) (sim : gmap string (Z * bool)) (s : mstore) : res exn (Z * bool) :=
  match sim !! n with
  | Some st => Ok st
  | None =>
      match select_memory n s with
      | Some r => raise! (KeyError "memory does not exist") when negb (live r); Ok (r.(m_revision), false)
      | None => Err (KeyError "memory does not exist")
      end
  end.

(** The checks on the fields of one action; whether it archives. *)
Definition check_action (d : dict) : res exn bool :=
  match text_field "action" d with
  | Some a =>
      if String.eqb a "update" then
        let! _ := no_unknown "unknown memory action fields: "
                    ["action"; "memory_id"; "expected_revision"; "content"; "tags"; "path"] d in
        let changes := without_meta d in
        raise! (ValueError "memory update requires content, tags, or path") when match changes with [] => true | _ => false end;
        let! _ := check_field "content" changes (λ v, _required_text v "content" MAX_MEMORY_CONTENT_CHARS) in
        let! _ := check_field "tags" changes (λ v, _validate_tags v true) in
        let! _ := check_field "path" changes _normalize_path in
        Ok false
      else if String.eqb a "archive" then
        let! _ := no_unknown "unknown memory action fields: " ["action"; "memory_id"; "expected_revision"] d in Ok true
      else Err (ValueError "memory action must be update or archive")
  | None => Err (ValueError "memory action must be update or archive")
  end.

(** One round: the memory, and its simulated state afterwards. *)
Definition preflight_one (index : nat) (v : json) (sim : gmap string (Z * bool)) (s : mstore) : res exn (gmap string (Z * bool)) :=
  match v with
  | JObj d =>
      match text_field "memory_id" d with
      | None | Some EmptyString => Err (ValueError ("memory action " +:+ pretty index +:+ " requires memory_id"))
      | Some n =>
          let! expected := _validate_revision (obj_get_or "expected_revision" JNull d) in
          let! (revision, archived) := simulated_state n sim s in
          raise! (KeyError "memory does not exist") when archived;
          raise! (RuntimeError ("memory revision is " +:+ pretty revision +:+ ", not " +:+ pretty expected))
            when negb (revision =? expected);
          let! closes := check_action d in
          Ok (<[n := (revision + 1, closes)]> sim)
      end
  | _ => Err (ValueError ("memory action " +:+ pretty index +:+ " must be an object"))
  end.

Fixpoint preflight_loop (index : nat) (l : list json) (sim : gmap string (Z * bool)) (s : mstore) : res exn unit :=
  match l with
  | [] => Ok tt
  | v :: l' => let! sim' := preflight_one index v sim s in preflight_loop (S index) l' sim' s
  end.

Definition preflight_actions (actions : json) (s : mstore) : res exn unit :=
  match actions with
  | JList l => preflight_loop 0 l ∅ s
  | _ => Err (ValueError "memory actions must be an array")
  end.

(** ** Feedback *)

Fixpoint feedback_loop (index : nat) (l : list json) (seen : list string) (s : mstore) : res exn (list (string * Z)) :=
  match l with
  | [] => Ok []
  | JObj d :: l' =>
      match text_field "memory_id" d with
      | None | Some EmptyString => Err (ValueError ("memory feedback " +:+ pretty index +:+ " requires memory_id"))
      | Some n =>
          let! k := _validate_revision (obj_get_or "revision" JNull d) in
          raise! (ValueError ("memory feedback duplicates " +:+ n)) when bool_decide (n ∈ seen);
          match select_memory n s with
          | None => Err (KeyError "memory does not exist")
          | Some r =>
              raise! (KeyError "memory does not exist") when negb (live r);
              raise! OverflowError when sqlite_max <? k;
              raise! (ValueError ("memory feedback revision " +:+ pretty k +:+ " does not exist for " +:+ n))
                when negb (existsb (is_revision n k) s.(memory_revisions));
              let! rest := feedback_loop (S index) l' (n :: seen) s in
              Ok ((n, k) :: rest)
          end
      end
  | _ :: _ => Err (ValueError ("memory feedback " +:+ pretty index +:+ " must be an object"))
  end.

Definition validate_helpful_feedback (v : json) (s : mstore) : res exn (list (string * Z)) :=
  match v with
  | JList l =>
      raise! (ValueError ("memory feedback cannot contain more than " +:+ pretty MAX_MEMORY_FEEDBACK_REFS +:+ " items"))
        when (MAX_MEMORY_FEEDBACK_REFS <? length l)%nat;
      feedback_loop 0 l [] s
  | _ => Err (ValueError "memory feedback must be an array")
  end.

Definition helped (now : Z) (r : memory) : memory :=
  {| m_id := r.(m_id); m_created := r.(m_created); m_updated := r.(m_updated); m_content := r.(m_content);
     m_tags := r.(m_tags); m_path := r.(m_path); m_revision := r.(m_revision); m_source_plan := r.(m_source_plan);
     m_last_plan := r.(m_last_plan); m_helpful := r.(m_helpful) + 1; m_helpful_at := Some now; m_actor := r.(m_actor);
     m_archived := r.(m_archived) |}.

Definition is_feedback (pid : Z) (n : string) (f : mfeedback) : bool := (f.(f_plan) =? pid) && String.eqb f.(f_memory) n.

(** One item: what is on record already is returned, or refused with another
    revision. *)
Definition record_one (pid : Z) (actor : option string) (now : Z) (i : string * Z) (s : mstore)
    : res exn (string * Z * Z * mstore) :=
  let '(n, k) := i in
  raise! (ValueError "memory revision must be a positive integer") when k <? 1;
  raise! OverflowError when sqlite_max <? pid;
  match fetchone (is_feedback pid n) s.(memory_feedback) with
  | Some f =>
      raise! (ValueError ("plan " +:+ pretty pid +:+ " already recorded a different revision for " +:+ n))
        when negb (f.(f_revision) =? k);
      Ok (n, k, f.(f_created), s)
  | None =>
      match select_memory n s with
      | None => Err (KeyError "memory does not exist")
      | Some _ =>
          raise! OverflowError when sqlite_max <? k;
          Ok (n, k, now,
              Store (update_where (with_id n) (helped now) s.(memories)) s.(memory_tags) s.(memory_revisions)
                (s.(memory_feedback) ++ [{| f_plan := pid; f_memory := n; f_revision := k; f_actor := actor; f_created := now |}]))
      end
  end.

Fixpoint record_loop (pid : Z) (actor : option string) (now : Z) (l : list (string * Z)) (s : mstore)
    : res exn (list (string * Z * Z) * mstore) :=
  match l with
  | [] => Ok ([], s)
  | i :: l' =>
      let! (x, s1) := record_one pid actor now i s in
      let! (rest, s2) := record_loop pid actor now l' s1 in
      Ok (x :: rest, s2)
  end.

Definition record_in (pid : json) (feedback : list (string * Z)) (actor : option string) (now : Z) (s : mstore)
    : res exn (list (string * Z * Z) * mstore) :=
  let! p := _validate_plan_id pid true in
  raise! (ValueError ("memory feedback cannot contain more than " +:+ pretty MAX_MEMORY_FEEDBACK_REFS +:+ " items"))
    when (MAX_MEMORY_FEEDBACK_REFS <? length feedback)%nat;
  match p with Some p => record_loop p actor now feedback s | None => Err AssertionError end.

Definition record_helpful_feedback (pid : json) (feedback : list (string * Z)) (actor : option string) (now : Z)
    : mstore → res exn (list (string * Z * Z)) * mstore :=
  atomic (record_in pid feedback actor now).

(** ** Reading *)

Fixpoint read_revisions (l : list mrevision) : res exn (list (mrevision * snapshot)) :=
  match l with
  | [] => Ok []
  | v :: l' => let! s := _deserialize_snapshot v.(v_snapshot) in let! rest := read_revisions l' in Ok ((v, s) :: rest)
  end.

(** [ORDER BY revision DESC] *)
Definition newer (a b : mrevision) : Prop := b.(v_revision) ≤ a.(v_revision).
#[export] Instance newer_dec : RelDecision newer.
Proof. intros a b. unfold newer. apply _. Defined.

Definition revisions (n : string) (limit : Z) (s : mstore) : res exn (list (mrevision * snapshot)) :=
  raise! (ValueError ("memory revision limit must be between 1 and " +:+ pretty MAX_MEMORY_REVISION_LIMIT))
    when negb ((1 <=? limit) && (limit <=? MAX_MEMORY_REVISION_LIMIT));
  match select_memory n s with
  | None => Err (KeyError "memory does not exist")
  | Some _ =>
      read_revisions (take (Z.to_nat limit) (merge_sort newer (fetchall (λ v, String.eqb v.(v_memory) n) s.(memory_revisions))))
  end.

(** The time of the last change or the last help, whichever is later. *)
Definition touched (r : memory) : Z :=
  match r.(m_helpful_at) with Some h => if r.(m_updated) <? h then h else r.(m_updated) | None => r.(m_updated) end.
Definition fresher (a b : memory) : Prop := touched b ≤ touched a.
#[export] Instance fresher_dec : RelDecision fresher.
Proof. intros a b. unfold fresher. apply _. Defined.

(** [[item for item in items if self._paths_overlap(path, item["path"])]] *)
Fixpoint overlapping (path : string) (l : list item) : res exn (list item) :=
  match l with
  | [] => Ok []
  | i :: l' =>
      let! b := _paths_overlap path i.(snap).(s_path) in
      let! rest := overlapping path l' in
      Ok (if b then i :: rest else rest)
  end.

Definition query (text : string) (tag path : option string) (include_archived : bool) (limit : Z) (s : mstore)
    : res exn (list item * Z) :=
  raise! (ValueError ("memory limit must be between 1 and " +:+ pretty MAX_MEMORY_QUERY_LIMIT))
    when negb ((1 <=? limit) && (limit <=? MAX_MEMORY_QUERY_LIMIT));
  let q := strip text in
  raise! (ValueError "memory query exceeds 1000 characters") when 1000 <? slen q;
  let! scope := match path with None => Ok None | Some p => let! p' := _normalize_path (JStr p) in Ok (Some p') end in
  let! label := match tag with None => Ok None | Some t => let! t' := _required_text (JStr t) "tag" MAX_MEMORY_TAG_CHARS in Ok (Some t') end in
  let selected := λ r,
    (include_archived || live r)
    && match label with None => true | Some t => bool_decide ((r.(m_id), t) ∈ s.(memory_tags)) end
    && (is_empty q || like "\" (like_pattern q) r.(m_content)) in
  let! items := serialize_all (merge_sort fresher (fetchall selected s.(memories))) in
  let! found := match scope with None => Ok items | Some p => overlapping p items end in
  Ok (take (Z.to_nat limit) found, Z.of_nat (length found)).

(** [re.findall(r"[a-z0-9_.-]{2,}", lowered)] as a set. *)
Definition word_char (c : ascii) : bool :=
  is_lower c || is_dec c || Ascii.eqb c "_" || Ascii.eqb c "." || Ascii.eqb c "-".
Fixpoint words (word : string) (s : string) : list string :=
  match s with
  | EmptyString => [word]
  | String c s' => if word_char c then words (word +:+ String c EmptyString) s' else word :: words EmptyString s'
  end.
Definition _keywords (s : string) : gset string :=
  list_to_set (List.filter (λ w, (2 <=? String.length w)%nat) (words EmptyString (lower s))).

(** [any(self._paths_overlap(scope, path) for scope in paths)] *)
Fixpoint any_overlap (path : string) (scopes : list string) : res exn bool :=
  match scopes with
  | [] => Ok false
  | p :: rest => let! b := _paths_overlap p path in if b then Ok true else any_overlap path rest
  end.

Record related_item := { rl_score : Z; rl_item : item; rl_path : option string; rl_tags : list string }.

Definition rate (content : gset string) (paths : list string) (tags : list string) (i : item) : res exn related_item :=
  let! hit := any_overlap i.(snap).(s_path) paths in
  let matched := merge_sort str_le (elements (list_to_set tags ∩ list_to_set i.(snap).(s_tags) : gset string)) in
  let found := content ∩ _keywords (String.concat " " (i.(snap).(s_content) :: i.(snap).(s_tags))) in
  Ok {| rl_score := Z.of_nat (size found) * 2 + (if hit then 12 else 0) + Z.of_nat (length matched) * 10
                    + Z.min 3 i.(helpful_count);
        rl_item := i; rl_path := if hit then Some i.(snap).(s_path) else None; rl_tags := matched |}.

Fixpoint rate_all (content : gset string) (paths tags : list string) (l : list item) : res exn (list related_item) :=
  match l with
  | [] => Ok []
  | i :: l' =>
      let! x := rate content paths tags i in
      let! rest := rate_all content paths tags l' in
      Ok (if 0 <? x.(rl_score) then x :: rest else rest)
  end.

Definition last_touch (x : related_item) : Z :=
  match x.(rl_item).(last_helpful_at) with
  | Some h => Z.max x.(rl_item).(snap).(s_updated) h
  | None => x.(rl_item).(snap).(s_updated)
  end.

(** [ranked.sort(key=..., reverse=True)] *)
Definition ranks (a b : related_item) : Prop :=
  b.(rl_score) < a.(rl_score) ∨ (a.(rl_score) = b.(rl_score) ∧ last_touch b ≤ last_touch a).
#[export] Instance ranks_dec : RelDecision ranks.
Proof. intros a b. unfold ranks. apply _. Defined.

Definition related (content : string) (scope_paths memory_tags : json) (limit : nat) (s : mstore) : res exn (list related_item) :=
  let! paths := _validate_scope_paths scope_paths in
  let! tags := _validate_tags memory_tags false in
  let rows := take MAX_MEMORY_RELATED_CANDIDATES (merge_sort fresher (fetchall live s.(memories))) in
  let! items := serialize_all rows in
  let! ranked := rate_all (_keywords content) paths tags items in
  Ok (take limit (merge_sort ranks ranked)).

Definition project (s : mstore) : res exn (list item * Z * bool) :=
  let total := count live s.(memories) in
  let! items := serialize_all (take 50 (merge_sort fresher (fetchall live s.(memories)))) in
  Ok (items, total, Z.of_nat (length items) <? total).
