(* ===== verification/MemoryTheorems.v ===== *)
(** * MemoryTheorems: the memory store under all its operations

    The invariant of the four tables of Memory, kept by every operation inside and
    outside a transaction; the history of a memory; the check of a completion's
    actions; feedback. *)

From Stdlib Require Import ZArith QArith Lia Ascii String.
From stdpp Require Import base tactics list list_numbers sorting gmap strings pretty fin_maps.
From S2P Require Import Prelude Sql PathAccess PosixPath ScopeTheorems Conversation Memory.

Local Open Scope Z_scope.

(** ** Tags *)

Definition good_tag (t : string) : Prop := _required_text (JStr t) "tag" MAX_MEMORY_TAG_CHARS = Ok t.

Lemma required_text_again v name maximum t : _required_text v name maximum = Ok t → _required_text (JStr t) name maximum = Ok t.
Proof.
  unfold _required_text. destruct v as [| | | |v| |]; try done. destruct (is_empty (strip v)) eqn:E; [done|].
  destruct (_ <? _) eqn:L; [done|]. intros [= <-]. by rewrite strip_idem, E, L.
Qed.

Lemma tags_loop_Ok acc l tags : tags_loop acc l = Ok tags → NoDup acc → Forall good_tag acc →
  NoDup tags ∧ Forall good_tag tags ∧ (length tags ≤ length acc + length l)%nat.
Proof.
  revert acc. induction l as [|v l IH]; intros acc; cbn [tags_loop]; [intros [= <-] ? ?; split_and!; [done..|cbn; lia]|].
  destruct (_required_text _ _ _) as [t|] eqn:E; [|done]. intros H Hn Hg. apply required_text_again in E.
  unfold add_new in H. destruct (bool_decide (t ∈ acc)) eqn:Eb.
  - destruct (IH _ H Hn Hg) as (? & ? & ?). split_and!; [done..|cbn; lia].
  - apply bool_decide_eq_false in Eb. destruct (IH _ H) as (? & ? & L).
    + apply NoDup_app. split_and!; [done| |apply NoDup_singleton]. intros x Hx ->%list_elem_of_singleton. done.
    + apply Forall_app. split; [done|]. by constructor.
    + split_and!; [done..|]. rewrite length_app in L. cbn in L |- *. lia.
Qed.

Lemma tags_loop_again acc l : NoDup (acc ++ l) → Forall good_tag l → tags_loop acc (JStr <$> l) = Ok (acc ++ l).
Proof.
  revert acc. induction l as [|t l IH]; intros acc Hn Hg; [by rewrite app_nil_r|]. cbn [fmap list_fmap tags_loop].
  inversion_clear Hg as [|? ? Ht Hl]. unfold good_tag in Ht. rewrite Ht. unfold add_new. rewrite bool_decide_false.
  - rewrite IH; [by rewrite <- (assoc_L (++))| |done]. by rewrite <- (assoc_L (++)).
  - apply NoDup_app in Hn as (_ & H & _). intros Hin. apply (H t Hin). by left.
Qed.

(** A list of tags that the store holds. *)
Record good_tags (tags : list string) : Prop := {
  gt_nodup : NoDup tags;
  gt_each : Forall good_tag tags;
  gt_nonempty : tags ≠ [];
  gt_few : (length tags ≤ MAX_MEMORY_TAGS)%nat }.

Lemma validate_tags_Ok v tags : _validate_tags v true = Ok tags → good_tags tags.
Proof.
  unfold _validate_tags. destruct v as [| | | | |l|]; try done. destruct (Nat.ltb_spec MAX_MEMORY_TAGS (length l)); [done|].
  destruct (tags_loop [] l) as [t|] eqn:E; [|done]. destruct t as [|x t]; [done|]. cbn [andb]. intros [= <-].
  apply tags_loop_Ok in E as (? & ? & ?); [|constructor..]. split; [done..|cbn in *; lia].
Qed.

Lemma validate_tags_again tags : good_tags tags → _validate_tags (JList (JStr <$> tags)) true = Ok tags.
Proof.
  intros [Hn Hg He Hl]. unfold _validate_tags. rewrite length_fmap, (proj2 (Nat.ltb_ge _ _)) by done.
  rewrite (tags_loop_again []) by done. by destruct tags.
Qed.

(** ** The invariant *)

Definition history (n : string) (s : mstore) : list mrevision := fetchall (λ v, String.eqb v.(v_memory) n) s.(memory_revisions).
Definition helps (n : string) (s : mstore) : Z := count (λ f, String.eqb f.(f_memory) n) s.(memory_feedback).

(** A row with its history, tags and feedback. *)
Record row_ok (s : mstore) (r : memory) : Prop := {
  ro_positive : 1 ≤ r.(m_revision);
  ro_history : v_revision <$> history r.(m_id) s = seqZ 1 r.(m_revision);
  ro_last : ∀ v, v ∈ history r.(m_id) s → v.(v_revision) = r.(m_revision) → _snapshot r = Ok v.(v_snapshot);
  ro_tags : ∀ t, (r.(m_id), t) ∈ s.(memory_tags) ↔ t ∈ r.(m_tags);
  ro_good : good_tags r.(m_tags);
  ro_path : ∃ v, _normalize_path v = Ok r.(m_path);
  ro_helpful : r.(m_helpful) = helps r.(m_id) s }.

Record minv (s : mstore) : Prop := {
  mi_unique : NoDup (m_id <$> s.(memories));
  mi_rows : ∀ r, r ∈ s.(memories) → row_ok s r;
  mi_tagged : ∀ e, e ∈ s.(memory_tags) → e.1 ∈ m_id <$> s.(memories);
  mi_revised : ∀ v, v ∈ s.(memory_revisions) → v.(v_memory) ∈ m_id <$> s.(memories) ∧
    v.(v_snapshot).(s_id) = v.(v_memory) ∧ v.(v_snapshot).(s_revision) = v.(v_revision);
  mi_helped : ∀ f, f ∈ s.(memory_feedback) → f.(f_memory) ∈ m_id <$> s.(memories);
  mi_once : NoDup ((λ f, (f.(f_plan), f.(f_memory))) <$> s.(memory_feedback)) }.

Lemma empty_minv : minv empty_mstore.
Proof. split; cbn; try set_solver; constructor. Qed.

Lemma unique_id s x y : minv s → x ∈ s.(memories) → y ∈ s.(memories) → x.(m_id) = y.(m_id) → x = y.
Proof.
  intros I Hx Hy E. apply list_elem_of_lookup in Hx as [i Hi], Hy as [j Hj].
  assert (i = j) as ->; [|congruence]. eapply (NoDup_lookup _ _ _ _ (mi_unique s I)); rewrite list_lookup_fmap.
  - by rewrite Hi.
  - rewrite Hj. cbn. by rewrite E.
Qed.

Lemma select_memory_Some n s r : select_memory n s = Some r → r ∈ s.(memories) ∧ r.(m_id) = n.
Proof. unfold select_memory. intros [? E]%fetchone_Some. split; [done|]. by apply String.eqb_eq in E. Qed.

Lemma select_elem s r : minv s → r ∈ s.(memories) → select_memory r.(m_id) s = Some r.
Proof.
  intros I Hr. destruct (select_memory r.(m_id) s) as [x|] eqn:E.
  - apply select_memory_Some in E as [Hx Ex]. f_equal. by apply (unique_id s).
  - unfold select_memory in E. eapply fetchone_None in E; [|exact Hr]. unfold with_id in E. by rewrite String.eqb_refl in E.
Qed.

Lemma select_None n s : select_memory n s = None → n ∉ m_id <$> s.(memories).
Proof.
  intros E (r & -> & Hr)%list_elem_of_fmap. unfold select_memory in E. eapply fetchone_None in E; [|exact Hr].
  unfold with_id in E. by rewrite String.eqb_refl in E.
Qed.

Lemma elem_history n s v : v ∈ history n s ↔ v ∈ s.(memory_revisions) ∧ v.(v_memory) = n.
Proof. unfold history. by rewrite elem_fetchall, String.eqb_eq. Qed.

(** ** Writing tags and revisions *)

Lemma insert_tags_Ok n tags s : NoDup tags → (∀ t, t ∈ tags → (n, t) ∉ s.(memory_tags)) →
  ∃ T, insert_tags n tags s = Ok (Store s.(memories) T s.(memory_revisions) s.(memory_feedback)) ∧
       ∀ e, e ∈ T ↔ e ∈ s.(memory_tags) ∨ (e.1 = n ∧ e.2 ∈ tags).
Proof.
  revert s. induction tags as [|t tags IH]; intros s Hn Hf; cbn [insert_tags].
  - exists s.(memory_tags). split; [by destruct s|]. set_solver.
  - inversion_clear Hn as [|? ? Ht Hn']. rewrite bool_decide_false by (apply Hf; by left).
    destruct (IH (Store (memories s) ({[(n, t)]} ∪ memory_tags s) (memory_revisions s) (memory_feedback s)) Hn') as (T & -> & HT).
    { cbn. intros u Hu [E%elem_of_singleton|H]%elem_of_union; [|apply (Hf u); [by right|done]]. congruence. }
    exists T. split; [done|]. intros [a b]. rewrite HT. cbn. rewrite elem_of_union, elem_of_singleton, elem_of_cons. naive_solver.
Qed.

Lemma insert_tags_only n tags s s' : insert_tags n tags s = Ok s' → NoDup tags ∧ ∀ t, t ∈ tags → (n, t) ∉ s.(memory_tags).
Proof.
  revert s. induction tags as [|t tags IH]; intros s; cbn [insert_tags]; [intros _; split; [constructor|set_solver]|].
  destruct (bool_decide _) eqn:E; [done|]. apply bool_decide_eq_false in E. intros [Hn Hf]%IH. cbn in Hf. split.
  - constructor; [|done]. intros Ht. apply (Hf t Ht). set_solver.
  - intros u [->|Hu]%elem_of_cons; [done|]. specialize (Hf u Hu). set_solver.
Qed.

(** A new revision is free when the history ends before it. *)
Lemma revision_free s r k : minv s → r ∈ s.(memories) → r.(m_revision) < k →
  existsb (is_revision r.(m_id) k) s.(memory_revisions) = false.
Proof.
  intros I Hr L. apply not_true_iff_false. intros (v & Hv & E)%existsb_exists. rewrite <- list_elem_of_In in Hv.
  apply andb_true_iff in E as [E1%String.eqb_eq E2%Z.eqb_eq].
  assert (v.(v_revision) ∈ v_revision <$> history r.(m_id) s) as H by (apply list_elem_of_fmap_2, elem_history; done).
  rewrite (ro_history s r (mi_rows s I r Hr)), elem_of_seqZ in H. lia.
Qed.

(** ** Adding and replacing rows *)

Lemma history_snoc n s l T v f :
  history n (Store l T (s.(memory_revisions) ++ [v]) f) = history n s ++ (if String.eqb v.(v_memory) n then [v] else []).
Proof. unfold history. cbn. rewrite fetchall_app. done. Qed.

Lemma history_fresh n s : minv s → n ∉ m_id <$> s.(memories) → history n s = [].
Proof.
  intros I Hn. apply fetchall_none. intros v Hv. apply String.eqb_neq. intros <-. by destruct Hn; apply (mi_revised s I).
Qed.

Lemma helps_fresh n s : minv s → n ∉ m_id <$> s.(memories) → helps n s = 0.
Proof.
  intros I Hn. unfold helps, count. rewrite fetchall_none; [done|]. intros f Hf. apply String.eqb_neq. intros <-.
  by destruct Hn; apply (mi_helped s I).
Qed.

(** Rows of other memories keep what belongs to them. *)
Lemma row_kept s l T v f x : row_ok s x → v.(v_memory) ≠ x.(m_id) → f = s.(memory_feedback) →
  (∀ t, (x.(m_id), t) ∈ T ↔ (x.(m_id), t) ∈ s.(memory_tags)) → row_ok (Store l T (s.(memory_revisions) ++ [v]) f) x.
Proof.
  intros [] Hv -> HT. split; try done.
  - rewrite history_snoc, (proj2 (String.eqb_neq _ _) Hv), app_nil_r. done.
  - rewrite history_snoc, (proj2 (String.eqb_neq _ _) Hv), app_nil_r. done.
  - intros t. cbn. by rewrite HT.
Qed.

Lemma seqZ_snoc k : 1 ≤ k → seqZ 1 k = seqZ 1 (k - 1) ++ [k].
Proof.
  intros Hk. replace (seqZ 1 k) with (seqZ 1 ((k - 1) + 1)) by (f_equal; lia). rewrite seqZ_app by lia.
  f_equal. unfold seqZ. change (Z.to_nat 1) with 1%nat. cbn [seq fmap list_fmap]. f_equal. lia.
Qed.

(** The row that a new revision describes. *)
Lemma row_revised s l T v f r :
  v.(v_memory) = r.(m_id) → v.(v_revision) = r.(m_revision) → _snapshot r = Ok v.(v_snapshot) →
  1 ≤ r.(m_revision) → v_revision <$> history r.(m_id) s = seqZ 1 (r.(m_revision) - 1) →
  (∀ t, (r.(m_id), t) ∈ T ↔ t ∈ r.(m_tags)) → good_tags r.(m_tags) → (∃ w, _normalize_path w = Ok r.(m_path)) →
  f = s.(memory_feedback) → r.(m_helpful) = helps r.(m_id) s →
  row_ok (Store l T (s.(memory_revisions) ++ [v]) f) r.
Proof.
  intros Ev Ek Es Hp Hh HT Hg Hpath -> Hhelp. split; try done; rewrite history_snoc, Ev, String.eqb_refl.
  - rewrite fmap_app, Hh. cbn [fmap list_fmap]. rewrite Ek. symmetry. by apply seqZ_snoc.
  - intros w [Hw| ->%list_elem_of_singleton]%elem_of_app Ew; [|done]. exfalso.
    assert (w.(v_revision) ∈ v_revision <$> history r.(m_id) s) as H by by apply list_elem_of_fmap_2.
    rewrite Hh, elem_of_seqZ in H. lia.
Qed.

Lemma snapshot_keys r sn : _snapshot r = Ok sn → sn.(s_id) = r.(m_id) ∧ sn.(s_revision) = r.(m_revision).
Proof. unfold _snapshot. destruct (_normalize_path _); [|done]. by intros [= <-]. Qed.

Lemma append_inv s r v T :
  minv s → r.(m_id) ∉ m_id <$> s.(memories) → r.(m_revision) = 1 → r.(m_helpful) = 0 → good_tags r.(m_tags) →
  (∃ w, _normalize_path w = Ok r.(m_path)) → _snapshot r = Ok v.(v_snapshot) → v.(v_memory) = r.(m_id) → v.(v_revision) = 1 →
  (∀ e, e ∈ T ↔ e ∈ s.(memory_tags) ∨ (e.1 = r.(m_id) ∧ e.2 ∈ r.(m_tags))) →
  minv (Store (s.(memories) ++ [r]) T (s.(memory_revisions) ++ [v]) s.(memory_feedback)).
Proof.
  intros I Hn Hk Hh Hg Hp Hs Hv Hvk HT.
  assert (∀ t, (r.(m_id), t) ∉ s.(memory_tags)) as Hnt by (intros t Ht; by apply (mi_tagged s I) in Ht).
  assert (∀ n, n ∈ m_id <$> s.(memories) → n ∈ m_id <$> (s.(memories) ++ [r])) as Hmono by (intros n; rewrite fmap_app; set_solver).
  split; cbn [memories memory_tags memory_revisions memory_feedback].
  - rewrite fmap_app. apply NoDup_app. split_and!; [apply I| |apply NoDup_singleton]. intros x Hx ->%list_elem_of_singleton. done.
  - intros x [Hx| ->%list_elem_of_singleton]%elem_of_app.
    + assert (x.(m_id) ≠ r.(m_id)) as Hne by (intros E; apply Hn; rewrite <- E; by apply list_elem_of_fmap_2).
      apply row_kept; [by apply I|congruence|done|]. intros t. rewrite HT. cbn. naive_solver.
    + apply row_revised; [done|congruence|done|lia| | |done..|rewrite helps_fresh by done; done].
      * rewrite history_fresh by done. by rewrite Hk.
      * intros t. rewrite HT. cbn. naive_solver.
  - intros [a b] [Hb%(mi_tagged s I)|[-> _]]%HT; [by apply Hmono|]. rewrite fmap_app. cbn. set_solver.
  - intros w [Hw%(mi_revised s I)| ->%list_elem_of_singleton]%elem_of_app; [naive_solver|].
    apply snapshot_keys in Hs as [H1 H2]. split_and!; [rewrite fmap_app; cbn; set_solver|congruence..].
  - intros f Hf%(mi_helped s I). by apply Hmono.
  - apply I.
Qed.

Lemma replaced_rows s n k r r' x :
  minv s → r ∈ s.(memories) → at_revision n k r = true → r'.(m_id) = r.(m_id) →
  x ∈ update_where (at_revision n k) (λ _, r') s.(memories) ↔ x = r' ∨ (x ∈ s.(memories) ∧ x.(m_id) ≠ r.(m_id)).
Proof.
  intros I Hr Ha Eid. assert (r.(m_id) = n) as En.
  { unfold at_revision, with_id in Ha. rewrite !andb_true_iff, String.eqb_eq in Ha. tauto. }
  rewrite elem_update_where. split.
  - intros (y & Hy & ->). destruct (at_revision n k y) eqn:E; [by left|right]. split; [done|]. intros Ey.
    rewrite (unique_id s y r I Hy Hr Ey) in E. congruence.
  - intros [->|[Hx Hne]]; [exists r; by rewrite Ha|]. exists x. split; [done|].
    assert (at_revision n k x = false) as -> by (unfold at_revision, with_id; rewrite (proj2 (String.eqb_neq _ _)); [done|congruence]). done.
Qed.

Lemma replaced_ids s n k r r' : minv s → r ∈ s.(memories) → at_revision n k r = true → r'.(m_id) = r.(m_id) →
  m_id <$> update_where (at_revision n k) (λ _, r') s.(memories) = m_id <$> s.(memories).
Proof.
  intros I Hr Ha Eid. unfold update_where. rewrite <- list_fmap_compose. apply list_fmap_ext. intros i x Hx%list_elem_of_lookup_2.
  cbn. destruct (at_revision n k x) eqn:E; [|done]. rewrite Eid.
  unfold at_revision, with_id in Ha, E. rewrite !andb_true_iff, !String.eqb_eq in Ha, E. destruct Ha as [[-> _] _], E as [[-> _] _]. done.
Qed.

Lemma revise_inv s n k r r' v T :
  minv s → r ∈ s.(memories) → at_revision n k r = true → r'.(m_id) = r.(m_id) → r'.(m_revision) = r.(m_revision) + 1 →
  r'.(m_helpful) = r.(m_helpful) → good_tags r'.(m_tags) → (∃ w, _normalize_path w = Ok r'.(m_path)) →
  _snapshot r' = Ok v.(v_snapshot) → v.(v_memory) = r.(m_id) → v.(v_revision) = r.(m_revision) + 1 →
  (∀ e, e ∈ T ↔ (e.1 ≠ r.(m_id) ∧ e ∈ s.(memory_tags)) ∨ (e.1 = r.(m_id) ∧ e.2 ∈ r'.(m_tags))) →
  minv (Store (update_where (at_revision n k) (λ _, r') s.(memories)) T (s.(memory_revisions) ++ [v]) s.(memory_feedback)).
Proof.
  intros I Hr Ha Eid Ek Eh Hg Hp Hs Hv Hvk HT. pose proof (mi_rows s I r Hr) as Ro. pose proof (ro_positive s r Ro).
  split; cbn [memories memory_tags memory_revisions memory_feedback]; rewrite ?(replaced_ids s n k r r' I Hr Ha Eid).
  - apply I.
  - intros x [->|[Hx Hne]]%(replaced_rows s n k r r' x I Hr Ha Eid).
    + apply row_revised; rewrite ?Eid; [done|congruence|done|lia| | |done|done|done|].
      * rewrite (ro_history s r Ro). f_equal. lia.
      * intros t. rewrite HT. cbn. naive_solver.
      * rewrite Eh. apply Ro.
    + apply row_kept; [by apply I|congruence|done|]. intros t. rewrite HT. cbn. naive_solver.
  - intros [a b] [[_ Hb%(mi_tagged s I)]|[-> _]]%HT; [done|]. by apply list_elem_of_fmap_2.
  - intros w [Hw%(mi_revised s I)| ->%list_elem_of_singleton]%elem_of_app; [done|].
    apply snapshot_keys in Hs as [H1 H2]. split_and!; [rewrite Hv; by apply list_elem_of_fmap_2|congruence..].
  - apply I.
  - apply I.
Qed.

(** ** What the operations do *)

(** The columns that revisions record are the same. *)
Definition same_text (r r' : memory) : Prop := r'.(m_path) = r.(m_path) ∧ ∀ p, snapshot_of p r' = snapshot_of p r.

(** How the tables develop: revisions and feedback are only appended, a row that
    changes gets a new revision, and an archived row stays as it is. *)
Definition row_grows (r r' : memory) : Prop :=
  r'.(m_id) = r.(m_id) ∧ r'.(m_created) = r.(m_created) ∧ r.(m_revision) ≤ r'.(m_revision) ∧ r.(m_helpful) ≤ r'.(m_helpful) ∧
  (r'.(m_revision) = r.(m_revision) ∨ r.(m_archived) ≠ None → same_text r r').

Record grows (s s' : mstore) : Prop := {
  gr_history : s.(memory_revisions) `prefix_of` s'.(memory_revisions);
  gr_feedback : s.(memory_feedback) `prefix_of` s'.(memory_feedback);
  gr_rows : ∀ r, r ∈ s.(memories) → ∃ r', r' ∈ s'.(memories) ∧ row_grows r r' }.

Lemma row_grows_refl r : row_grows r r.
Proof. by unfold row_grows, same_text. Qed.

#[export] Instance grows_preorder : PreOrder grows.
Proof.
  split.
  - intros s. split; [done..|]. intros r Hr. exists r. split; [done|apply row_grows_refl].
  - intros s1 s2 s3 [H1 F1 R1] [H2 F2 R2]. split; [by etrans..|]. intros r Hr.
    destruct (R1 r Hr) as (r' & Hr' & A1 & A2 & A3 & A4 & A5), (R2 r' Hr') as (x & Hx & B1 & B2 & B3 & B4 & B5).
    exists x. split; [done|]. split_and!; [congruence..|lia|lia|]. intros H.
    assert (same_text r r') as [P1 Q1] by (apply A5; destruct H; [left; lia|by right]).
    assert (same_text r' x) as [P2 Q2].
    { apply B5. destruct H as [?|H]; [left; lia|right]. intros E. apply H. specialize (Q1 ""%string).
      apply (f_equal s_archived) in Q1. cbn in Q1. congruence. }
    split; [congruence|]. intros p. by rewrite Q2.
Qed.

Lemma serialize_snapshot r sn : _snapshot r = Ok sn → _serialize r = Ok {| snap := sn; helpful_count := r.(m_helpful); last_helpful_at := r.(m_helpful_at) |}.
Proof. unfold _serialize. by intros ->. Qed.

Lemma allocate_Ok rounds draw i s n : allocate rounds draw i s = Ok n → n ∉ m_id <$> s.(memories).
Proof.
  revert i. induction rounds as [|k IH]; intros i; cbn [allocate]; [done|].
  destruct (select_memory _ s) eqn:E; [apply IH|]. intros [= <-]. by apply select_None.
Qed.

Lemma grows_snoc s r v T f : f = s.(memory_feedback) → grows s (Store (s.(memories) ++ [r]) T (s.(memory_revisions) ++ [v]) f).
Proof. intros ->. split; cbn; [by eexists|done|]. intros x Hx. exists x. split; [set_solver|apply row_grows_refl]. Qed.

Lemma create_in_Ok a now draw s i s' : minv s → create_in a now draw s = Ok (i, s') →
  minv s' ∧ grows s s' ∧ ∃ r, (r ∉ s.(memories)) ∧ r ∈ s'.(memories) ∧ i.(snap).(s_id) = r.(m_id) ∧ r.(m_archived) = None ∧ r.(m_revision) = 1.
Proof.
  intros I H. unfold create_in in H. destruct (_required_text _ _ _) as [content|]; [|done].
  destruct (_validate_tags _ _) as [tags|] eqn:Et; [|done]. destruct (_normalize_path _) as [p|] eqn:Ep; [|done].
  destruct (_validate_plan_id _ _) as [pid|]; [|done]. destruct (_change_message _) as [msg|]; [|done].
  destruct (unbindable pid); [done|]. destruct (allocate 8 draw 0 s) as [n|] eqn:En; [|done]. apply allocate_Ok in En.
  set (r := {| m_id := n |}) in H. apply validate_tags_Ok in Et.
  destruct (insert_tags_Ok n tags (insert_memory r s) (gt_nodup _ Et)) as (T & ET & HT).
  { intros t _ Ht. cbn in Ht. by apply (mi_tagged s I) in Ht. }
  rewrite ET in H. destruct (_snapshot r) as [sn|] eqn:Es; [|done].
  destruct (insert_revision _ _) as [s2|] eqn:Ei; [|done]. unfold insert_revision in Ei. destruct (existsb _ _); [done|]. injection Ei as <-.
  rewrite (serialize_snapshot r sn Es) in H. injection H as <- <-. split; [|split; [by apply grows_snoc|]].
  - apply append_inv; try done. by eexists.
  - exists r. cbn. apply snapshot_keys in Es as [-> _]. split_and!; [|set_solver|done..].
    intros Hr. apply En. by apply (list_elem_of_fmap_2 m_id) in Hr.
Qed.

Lemma current_Ok n k s r : current n k s = Ok r → r ∈ s.(memories) ∧ r.(m_id) = n ∧ r.(m_archived) = None ∧ r.(m_revision) = k.
Proof.
  unfold current. destruct (select_memory n s) as [x|] eqn:E; [|done]. apply select_memory_Some in E as [Hx Hid].
  destruct (live x) eqn:El; [|done]. apply bool_decide_eq_true in El. destruct (Z.eqb_spec (m_revision x) k); [|done].
  by intros [= <-].
Qed.

Lemma current_at n k s r : current n k s = Ok r → at_revision n k r = true.
Proof.
  intros (_ & E & El & Ek)%current_Ok. unfold at_revision, with_id, live.
  by rewrite E, String.eqb_refl, Ek, Z.eqb_refl, El.
Qed.

Lemma grows_revise s n k r r' v T f :
  minv s → current n k s = Ok r → r'.(m_id) = r.(m_id) → r'.(m_created) = r.(m_created) → r'.(m_revision) = r.(m_revision) + 1 →
  r'.(m_helpful) = r.(m_helpful) → f = s.(memory_feedback) →
  grows s (Store (update_where (at_revision n k) (λ _, r') s.(memories)) T (s.(memory_revisions) ++ [v]) f).
Proof.
  intros I Hc E1 E2 E3 E4 ->. pose proof (current_at _ _ _ _ Hc) as Ha. apply current_Ok in Hc as (Hr & _ & El & _).
  split; cbn; [by eexists|done|]. intros x Hx. destruct (decide (x.(m_id) = r.(m_id))) as [E|Hne].
  - rewrite (unique_id s x r I Hx Hr E). exists r'. split; [apply (replaced_rows s n k r r' r' I Hr Ha E1); by left|].
    split_and!; [done..|lia|lia|]. intros [?|?]; [lia|done].
  - exists x. split; [|apply row_grows_refl]. apply (replaced_rows s n k r r' x I Hr Ha E1). by right.
Qed.

Lemma update_in_Ok n changes g now s i s' : minv s → update_in n changes g now s = Ok (i, s') →
  minv s' ∧ grows s s' ∧ ∃ r r' k, _validate_revision g.(g_expected) = Ok k ∧ current n k s = Ok r ∧
    r'.(m_id) = n ∧ r'.(m_revision) = k + 1 ∧ r'.(m_archived) = None ∧ r' ∈ s'.(memories) ∧
    (∃ sn, _snapshot r' = Ok sn ∧ i.(snap) = sn) ∧
    (∃ T v, s' = Store (update_where (at_revision n k) (λ _, r') s.(memories)) T (s.(memory_revisions) ++ [v]) s.(memory_feedback)).
Proof.
  intros I H. unfold update_in in H. destruct (_validate_revision _) as [k|]; [|done].
  destruct (_validate_plan_id _ _) as [pid|]; [|done]. destruct (_change_message _) as [msg|]; [|done].
  destruct (no_unknown _ _ _); [|done]. destruct (match changes with [] => _ | _ => _ end); [done|].
  destruct (current n k s) as [r|] eqn:Ec; [|done].
  destruct (changed_fields changes r) as [[[content tags] p]|] eqn:Ef; [|done]. destruct (unbindable pid); [done|].
  destruct (negb _); [done|]. set (r' := updated_memory _ _ _ _ _ _ _ _) in H.
  assert (good_tags tags ∧ ∃ w, _normalize_path w = Ok p) as [Hg Hp].
  { unfold changed_fields in Ef. destruct (match obj_get _ _ with Some _ => _ | None => _ end); [|done].
    destruct (_validate_tags _ _) as [tg|] eqn:Et; [|done]. destruct (_normalize_path _) eqn:Ep; [|done].
    injection Ef as <- <- <-. split; [by eapply validate_tags_Ok|by eexists]. }
  pose proof (current_at _ _ _ _ Ec) as Ha. pose proof (current_Ok _ _ _ _ Ec) as (Hr & Hid & El & Ek).
  destruct (insert_tags_Ok n tags (delete_tags n (put_memories (update_where (at_revision n k) (λ _, r') s.(memories)) s)) (gt_nodup _ Hg))
    as (T & ET & HT). { intros t _. cbn. rewrite elem_of_filter. cbn. naive_solver. }
  rewrite ET in H. destruct (_snapshot r') as [sn|] eqn:Es; [|done]. unfold insert_revision in H. destruct (existsb _ _); [done|].
  rewrite (serialize_snapshot r' sn Es) in H. injection H as <- <-. cbn [memories memory_tags memory_revisions memory_feedback delete_tags put_memories].
  split; [|split].
  - apply (revise_inv s n k r); try done; [cbn; lia|cbn; lia|]. intros e. rewrite HT. cbn. rewrite elem_of_filter, Hid. naive_solver.
  - by apply (grows_revise s n k r); cbn; [..|lia|done|done].
  - exists r, r', k. split_and!; try done; [apply (replaced_rows s n k r r' r' I Hr Ha eq_refl); by left|by eexists|by eexists _, _].
Qed.

Lemma archive_in_Ok n g now s i s' : minv s → archive_in n g now s = Ok (i, s') →
  minv s' ∧ grows s s' ∧ ∃ r r' k, _validate_revision g.(g_expected) = Ok k ∧ current n k s = Ok r ∧
    r'.(m_id) = n ∧ r'.(m_revision) = k + 1 ∧ r'.(m_archived) = Some now ∧ r' ∈ s'.(memories) ∧
    (∃ v, s' = Store (update_where (at_revision n k) (λ _, r') s.(memories)) s.(memory_tags) (s.(memory_revisions) ++ [v]) s.(memory_feedback)).
Proof.
  intros I H. unfold archive_in in H. destruct (_validate_revision _) as [k|]; [|done].
  destruct (_validate_plan_id _ _) as [pid|]; [|done]. destruct (_change_message _) as [msg|]; [|done].
  destruct (current n k s) as [r|] eqn:Ec; [|done]. destruct (unbindable pid); [done|].
  destruct (negb _); [done|]. set (r' := archived_memory _ _ _ _ _) in H.
  pose proof (current_at _ _ _ _ Ec) as Ha. pose proof (current_Ok _ _ _ _ Ec) as (Hr & Hid & El & Ek).
  pose proof (mi_rows s I r Hr) as Ro.
  destruct (_snapshot r') as [sn|] eqn:Es; [|done]. unfold insert_revision in H. destruct (existsb _ _); [done|].
  rewrite (serialize_snapshot r' sn Es) in H. injection H as <- <-. cbn [memories memory_tags memory_revisions memory_feedback put_memories].
  split; [|split].
  - apply (revise_inv s n k r); try done; [cbn; lia|apply Ro|apply Ro|cbn; lia|].
    intros [a b]. cbn. destruct (decide (a = r.(m_id))) as [->|Hne]; [|naive_solver]. rewrite (ro_tags s r Ro). naive_solver.
  - by apply (grows_revise s n k r); cbn; [..|lia|done|done].
  - exists r, r', k. split_and!; try done; [apply (replaced_rows s n k r r' r' I Hr Ha eq_refl); by left|by eexists].
Qed.

(** ** Feedback *)

Definition help (n : string) (now : Z) (f : mfeedback) (s : mstore) : mstore :=
  Store (update_where (with_id n) (helped now) s.(memories)) s.(memory_tags) s.(memory_revisions) (s.(memory_feedback) ++ [f]).

Lemma helped_ids n now l : m_id <$> update_where (with_id n) (helped now) l = m_id <$> l.
Proof.
  unfold update_where. rewrite <- list_fmap_compose. apply list_fmap_ext. intros i x _. cbn. by destruct (with_id n x).
Qed.

Lemma help_inv n now f s :
  minv s → f.(f_memory) = n → n ∈ m_id <$> s.(memories) → (f.(f_plan), n) ∉ (λ f, (f.(f_plan), f.(f_memory))) <$> s.(memory_feedback) →
  minv (help n now f s).
Proof.
  intros I Ef Hn Hf. split; cbn [help memories memory_tags memory_revisions memory_feedback]; rewrite ?helped_ids; try apply I.
  - intros x (y & Hy & ->)%elem_update_where. destruct (mi_rows s I y Hy) as [H1 H2 H3 H4 H5 H6 H7].
    assert (helps y.(m_id) (help n now f s) = helps y.(m_id) s + if with_id n y then 1 else 0) as Eh.
    { unfold helps, count, help. cbn [memory_feedback]. rewrite fetchall_app, length_app, Nat2Z.inj_add. f_equal.
      unfold fetchall. cbn [List.filter]. rewrite Ef. unfold with_id. rewrite String.eqb_sym. by destruct (String.eqb _ _). }
    destruct (with_id n y) eqn:Ew; split; try done; cbn; [rewrite Eh; lia|rewrite Eh; lia].
  - intros g [Hg|Hg%list_elem_of_singleton]%elem_of_app; [by apply I|]. by rewrite Hg, Ef.
  - rewrite fmap_app. apply NoDup_app. split_and!; [apply I| |apply NoDup_singleton]. cbn. rewrite Ef.
    intros x Hx ->%list_elem_of_singleton. done.
Qed.

Lemma help_grows n now f s : grows s (help n now f s).
Proof.
  split; cbn; [done|by eexists|]. intros r Hr. exists (if with_id n r then helped now r else r). split; [apply elem_update_where; eauto|].
  destruct (with_id n r); [|apply row_grows_refl]. unfold row_grows, same_text. cbn. split_and!; [done..|lia|done].
Qed.

Lemma record_one_cases pid actor now n k s x s' : record_one pid actor now (n, k) s = Ok (x, s') →
  (s' = s ∧ ∃ f, f ∈ s.(memory_feedback) ∧ f.(f_plan) = pid ∧ f.(f_memory) = n ∧ f.(f_revision) = k ∧ x = (n, k, f.(f_created))) ∨
  (fetchone (is_feedback pid n) s.(memory_feedback) = None ∧ x = (n, k, now) ∧
   n ∈ m_id <$> s.(memories) ∧ s' = help n now {| f_plan := pid; f_memory := n; f_revision := k; f_actor := actor; f_created := now |} s).
Proof.
  unfold record_one. destruct (k <? 1); [done|]. destruct (sqlite_max <? pid); [done|].
  destruct (fetchone _ _) as [f|] eqn:Ef.
  - destruct (Z.eqb_spec (f_revision f) k); [|done]. intros [= <- <-]. left. split; [done|]. exists f.
    apply fetchone_Some in Ef as [Hf [E1%Z.eqb_eq E2%String.eqb_eq]%andb_true_iff]. done.
  - destruct (select_memory n s) as [r|] eqn:Es; [|done]. destruct (sqlite_max <? k); [done|]. intros [= <- <-]. right.
    apply select_memory_Some in Es as [Hr <-]. split_and!; [done..|by apply list_elem_of_fmap_2|done].
Qed.

Lemma not_recorded pid n s : fetchone (is_feedback pid n) s.(memory_feedback) = None →
  (pid, n) ∉ (λ f, (f.(f_plan), f.(f_memory))) <$> s.(memory_feedback).
Proof.
  intros H (f & E & Hf)%list_elem_of_fmap. injection E as -> ->. eapply fetchone_None in H; [|exact Hf].
  unfold is_feedback in H. by rewrite Z.eqb_refl, String.eqb_refl in H.
Qed.

Lemma record_one_Ok pid actor now i s x s' : minv s → record_one pid actor now i s = Ok (x, s') → minv s' ∧ grows s s'.
Proof.
  destruct i as [n k]. intros I [[-> _]|(Hn & _ & Hin & ->)]%record_one_cases; [done|]. split; [|apply help_grows].
  apply help_inv; [done..|]. by apply not_recorded.
Qed.

Lemma record_loop_Ok pid actor now l s x s' : minv s → record_loop pid actor now l s = Ok (x, s') → minv s' ∧ grows s s'.
Proof.
  revert s x. induction l as [|i l IH]; intros s x I; cbn [record_loop]; [by intros [= _ <-]|].
  destruct (record_one pid actor now i s) as [[y s1]|] eqn:E; [|done]. apply record_one_Ok in E as [I1 G1]; [|done].
  destruct (record_loop pid actor now l s1) as [[rest s2]|] eqn:E2; [|done]. intros [= _ <-].
  destruct (IH _ _ I1 E2) as [I2 G2]. split; [done|by etrans].
Qed.

Lemma record_in_Ok pid l actor now s x s' : minv s → record_in pid l actor now s = Ok (x, s') → minv s' ∧ grows s s'.
Proof.
  intros I. unfold record_in. destruct (_validate_plan_id pid true) as [[p|]|]; [| |done]; destruct (_ <? _)%nat; try done.
  by apply record_loop_Ok.
Qed.

(** ** Requests *)

Inductive mop :=
| Create (a : create_args) (now : Z) (draw : nat → string)
| Update (n : string) (changes : dict) (g : change_args) (now : Z)
| Archive (n : string) (g : change_args) (now : Z)
| Feedback (pid : json) (feedback : list (string * Z)) (actor : option string) (now : Z).

Definition mexec (s : mstore) (o : mop) : mstore :=
  match o with
  | Create a now draw => (create a now draw s).2
  | Update n changes g now => (update n changes g now s).2
  | Archive n g now => (archive n g now s).2
  | Feedback pid feedback actor now => (record_helpful_feedback pid feedback actor now s).2
  end.

Definition mreachable (s : mstore) : Prop := ∃ ops, s = foldl mexec empty_mstore ops.

Lemma atomic_inv {A} (f : mstore → res exn (A * mstore)) s (P : mstore → Prop) :
  P s → (∀ a s', f s = Ok (a, s') → P s') → P (atomic f s).2.
Proof. intros H Hf. unfold atomic. destruct (f s) as [[a s']|]; [by eapply Hf|done]. Qed.

Lemma mexec_spec s o : minv s → minv (mexec s o) ∧ grows s (mexec s o).
Proof.
  intros I. destruct o; cbn [mexec]; apply (atomic_inv _ _ (λ s', minv s' ∧ grows s s')); try done; intros x s' H.
  - by apply create_in_Ok in H as (? & ? & _).
  - by apply update_in_Ok in H as (? & ? & _).
  - by apply archive_in_Ok in H as (? & ? & _).
  - by apply record_in_Ok in H.
Qed.

Lemma mexec_later s ops : minv s → minv (foldl mexec s ops) ∧ grows s (foldl mexec s ops).
Proof.
  revert s. induction ops as [|o ops IH]; intros s I; [done|]. cbn. destruct (mexec_spec s o I) as [I1 G1].
  destruct (IH _ I1) as [I2 G2]. split; [done|by etrans].
Qed.

Lemma mreachable_inv s : mreachable s → minv s.
Proof. intros [ops ->]. apply mexec_later, empty_minv. Qed.

(** ** Theorems *)

(** C10: after any requests the memory database is sound: ids are unique, the history
    of a memory is its revisions from 1 to the current one without a gap, the last of
    them records exactly what reading the memory returns, the tag table lists the
    tags of each memory and nothing else, and a memory counts as helpful once for
    every plan that said so. *)
Theorem memory_sound s :
  mreachable s →
  NoDup (m_id <$> s.(memories)) ∧ NoDup ((λ f, (f.(f_plan), f.(f_memory))) <$> s.(memory_feedback)) ∧
  ∀ r, r ∈ s.(memories) →
    v_revision <$> history r.(m_id) s = seqZ 1 r.(m_revision) ∧
    (∃ v, v ∈ history r.(m_id) s ∧ v.(v_revision) = r.(m_revision) ∧
       get r.(m_id) true s = Ok {| snap := v.(v_snapshot); helpful_count := helps r.(m_id) s; last_helpful_at := r.(m_helpful_at) |}) ∧
    (∀ t, (r.(m_id), t) ∈ s.(memory_tags) ↔ t ∈ r.(m_tags)) ∧ good_tags r.(m_tags).
Proof.
  intros I%mreachable_inv. split_and!; [apply I..|]. intros r Hr. destruct (mi_rows s I r Hr) as [H1 H2 H3 H4 H5 H6 H7].
  split_and!; try done. assert (r.(m_revision) ∈ v_revision <$> history r.(m_id) s) as (v & Ev & Hv)%list_elem_of_fmap.
  { rewrite H2, elem_of_seqZ. lia. }
  exists v. split_and!; [done..|]. unfold get. rewrite (select_elem s r I Hr), andb_false_r.
  rewrite (serialize_snapshot r _ (H3 v Hv (eq_sym Ev))). by rewrite H7.
Qed.

(** History is append-only: whatever requests follow, every revision and every
    recorded feedback stays, every memory stays under its id with a revision that
    never goes back, and an archived memory keeps its contents. *)
Theorem memory_history_kept s ops :
  mreachable s →
  s.(memory_revisions) `prefix_of` (foldl mexec s ops).(memory_revisions) ∧
  s.(memory_feedback) `prefix_of` (foldl mexec s ops).(memory_feedback) ∧
  ∀ r, r ∈ s.(memories) → ∃ r', r' ∈ (foldl mexec s ops).(memories) ∧ r'.(m_id) = r.(m_id) ∧ r.(m_revision) ≤ r'.(m_revision) ∧
    (r.(m_archived) ≠ None → same_text r r').
Proof.
  intros I%mreachable_inv. destruct (mexec_later s ops I) as [_ [G1 G2 G3]]. split_and!; [done..|].
  intros r Hr. destruct (G3 r Hr) as (r' & Hr' & E1 & _ & E2 & _ & E3). exists r'. split_and!; [done..|]. intros H. apply E3. by right.
Qed.

Lemma recorded_again pid actor now i s s' f :
  minv s' → s.(memory_feedback) `prefix_of` s'.(memory_feedback) → f ∈ s.(memory_feedback) → f.(f_plan) = pid → f.(f_memory) = i.1 →
  f.(f_revision) = i.2 → 1 ≤ i.2 → pid ≤ sqlite_max →
  record_one pid actor now i s' = Ok (i.1, i.2, f.(f_created), s').
Proof.
  intros I [k Hk] Hf E1 E2 E3 L1 L2. destruct i as [n r]. cbn in *. rewrite (proj2 (Z.ltb_ge r 1)), (proj2 (Z.ltb_ge sqlite_max pid)) by lia.
  assert (f ∈ s'.(memory_feedback)) as Hf' by (rewrite Hk; set_solver).
  destruct (fetchone _ _) as [g|] eqn:E.
  - apply fetchone_Some in E as [Hg [G1%Z.eqb_eq G2%String.eqb_eq]%andb_true_iff].
    assert (g = f) as ->; [|by rewrite E3, Z.eqb_refl].
    apply list_elem_of_lookup in Hf' as [a Ha], Hg as [b Hb].
    assert (a = b) as ->; [|congruence]. eapply (NoDup_lookup _ _ _ _ (mi_once s' I)); rewrite list_lookup_fmap.
    + by rewrite Ha.
    + rewrite Hb. cbn. congruence.
  - eapply fetchone_None in E; [|exact Hf']. unfold is_feedback in E. by rewrite E1, E2, Z.eqb_refl, String.eqb_refl in E.
Qed.

Lemma record_one_bounds pid actor now i s x s' : record_one pid actor now i s = Ok (x, s') → 1 ≤ i.2 ∧ pid ≤ sqlite_max ∧
  ∃ f, f ∈ s'.(memory_feedback) ∧ f.(f_plan) = pid ∧ f.(f_memory) = i.1 ∧ f.(f_revision) = i.2 ∧ x = (i.1, i.2, f.(f_created)).
Proof.
  intros H. destruct i as [n k]. split; [|split].
  - unfold record_one in H. destruct (k <? 1) eqn:E; [done|]. cbn. lia.
  - unfold record_one in H. destruct (k <? 1); [done|]. destruct (sqlite_max <? pid) eqn:E; [done|]. lia.
  - apply record_one_cases in H as [[-> (f & Hf & ?)]|(_ & -> & _ & ->)]; [by exists f|].
    eexists. split; [cbn; apply elem_of_app; right; by left|done].
Qed.

Lemma record_loop_again pid actor actor' now now' l s x s1 s2 :
  minv s → record_loop pid actor now l s = Ok (x, s1) → minv s2 → grows s1 s2 → record_loop pid actor' now' l s2 = Ok (x, s2).
Proof.
  revert s x. induction l as [|i l IH]; intros s x I; cbn [record_loop]; [by intros [= <- <-]|].
  destruct (record_one pid actor now i s) as [[y s0]|] eqn:E; [|done]. destruct (record_loop pid actor now l s0) as [[rest s1']|] eqn:E2; [|done].
  intros [= <- <-] I2 G. destruct (record_one_Ok _ _ _ _ _ _ _ I E) as [I0 _]. destruct (record_loop_Ok _ _ _ _ _ _ _ I0 E2) as [_ G0].
  destruct (record_one_bounds _ _ _ _ _ _ _ E) as (L1 & L2 & f & Hf & F1 & F2 & F3 & ->).
  rewrite (recorded_again pid actor' now' i s0 s2 f I2 ltac:(etrans; [apply G0|apply G]) Hf F1 F2 F3 L1 L2).
  by rewrite (IH _ _ I0 E2 I2 G).
Qed.

(** Feedback is recorded once: sending the same feedback for the same plan again,
    whatever happened in between, returns the same times and counts nothing twice. *)
Theorem memory_feedback_once s pid l actor now x s1 ops actor' now' :
  mreachable s → record_helpful_feedback pid l actor now s = (Ok x, s1) →
  record_helpful_feedback pid l actor' now' (foldl mexec s1 ops) = (Ok x, foldl mexec s1 ops).
Proof.
  intros I%mreachable_inv H. unfold record_helpful_feedback, atomic in *.
  destruct (record_in pid l actor now s) as [[y s0]|] eqn:E; [|done]. injection H as <- <-.
  destruct (record_in_Ok _ _ _ _ _ _ _ I E) as [I0 _]. destruct (mexec_later s0 ops I0) as [I2 G2].
  unfold record_in in *. destruct (_validate_plan_id pid true) as [[p|]|]; [| |done]; destruct (_ <? _)%nat; try done.
  by rewrite (record_loop_again _ _ _ _ _ _ _ _ _ _ I E I2 G2).
Qed.

(** ** A project *)

Definition demo_memory (path : string) : create_args :=
  {| c_content := JStr "Tests need Python 3.12"; c_tags := JList [JStr "tests"; JStr " python "; JStr "tests"]; c_path := JStr path;
     c_plan := JInt 1; c_actor := Some "actor"%string; c_message := "note it" |}.
Definition demo_change (k : Z) : change_args :=
  {| g_expected := JInt k; g_plan := JInt 2; g_actor := Some "actor"%string; g_message := "change it" |}.
Definition demo_draw (i : nat) : string := "A" +:+ pretty i.

Definition demo_ops (path : string) : list mop :=
  [Create (demo_memory path) 5 demo_draw; Update "mem_A0" [("content", JStr "Tests need Python 3.13")]%string (demo_change 1) 6].
Definition demo_project (path : string) : mstore := foldl mexec empty_mstore (demo_ops path).

Lemma demo_project_reachable path : mreachable (demo_project path).
Proof. by exists (demo_ops path). Qed.

(** One memory can make the project unreadable: a memory whose scope ends in white
    space behind [..] is created and listed, and from then on every search by path,
    every request for related memories of a scope, and its own history raise. *)
Theorem memory_scope_poisons :
  ∃ s i, create (demo_memory ".. / /.") 5 demo_draw empty_mstore = (Ok i, s) ∧
    (∃ l, query "" None None false 10 s = Ok l) ∧
    query "" None (Some "src"%string) false 10 s = Err (ValueError "server memory paths must stay inside the workspace root") ∧
    related "tests" (JList [JStr "src"]) JNull 5 s = Err (ValueError "server memory paths must stay inside the workspace root") ∧
    revisions "mem_A0" 10 s = Err (ValueError "server memory paths must stay inside the workspace root").
Proof.
  destruct (create (demo_memory ".. / /.") 5 demo_draw empty_mstore) as [[i|] s] eqn:E; vm_compute in E; [|discriminate E].
  exists s, i. injection E as <- <-. split; [reflexivity|]. split; [eexists; vm_compute; reflexivity|]. split_and!; vm_compute; reflexivity.
Qed.

Lemma memory_sound_witness : NoDup (m_id <$> (demo_project "src/app").(memories)) ∧ length (demo_project "src/app").(memories) = 1%nat.
Proof. split; [exact (proj1 (memory_sound (demo_project "src/app") (demo_project_reachable "src/app")))|vm_compute; reflexivity]. Defined.
