(* ===== verification/Completion.v ===== *)
(** * Completion: closing a plan across the context and memory databases

    Models the completion of a plan as both interfaces carry it out: the transaction
    block of [_handle_context_plan_update] in server_runtime/context_http.py (and of
    [context_plan_update] in api/mcp_handlers.py), with [_apply_memory_debrief],
    [_plan_memory_path] and their helpers of context/memory_handlers.py.  The plan is
    updated in the context database and the debrief in the memory database, each in a
    transaction of its own; a trial run of the update precedes the debrief.

    The resolution of a server path against mappings and mounts is a parameter
    ([virtual_scope] for [_virtual_memory_scope]). *)

From Stdlib Require Import ZArith QArith Lia Ascii String.
From stdpp Require Import base tactics list list_numbers sorting gmap strings pretty fin_maps.
From S2P Require Import Prelude Calendar Sql PathAccess PosixPath Conversation Context Memory.

Local Open Scope Z_scope.

(** What a request ends in: an answer to the client, or an exception that nothing
    turned into one; [sqlite3.Error] is apart, since no handler on the way catches it. *)
Inductive failure := Api (e : ApiError) | Raised (x : exn) | DatabaseFailed.

Definition bad_debrief : failure := Api (api_error 400 "invalid_plan_debrief").

(** [_memory_error], for the exceptions that the callers catch. *)
Definition memory_error (x : exn) : failure :=
  match x with
  | KeyError _ => Api (api_error 404 "memory_not_found")
  | RuntimeError _ => Api (api_error 412 "memory_revision_conflict")
  | ValueError _ | RequestConflict _ _ => Api (api_error 400 "invalid_memory")
  | _ => Raised x
  end.

Definition catching {A} (f : exn → failure) (r : res exn A) : res failure A :=
  match r with Ok a => Ok a | Err x => Err (f x) end.

(** ** The scope of a plan *)

Definition path_key (key : string) : bool := bool_decide (key ∈ ["path"; "source"; "destination"; "cwd"]%string).

(** [value.get("operation") == "mkdir"] *)
Definition makes_directory (fields : dictionary) : bool :=
  match obj_get "operation" fields with Some (JStr s) => String.eqb s "mkdir" | _ => false end.

Fixpoint _extract_operation_paths (v : json) : list (string * bool) :=
  match v with
  | JObj fields =>
      let mkdir := makes_directory fields in
      (fix each (l : list (string * json)) : list (string * bool) :=
         match l with
         | [] => []
         | (key, x) :: l' =>
             match x with
             | JStr s => if path_key key then (s, String.eqb key "cwd" || (String.eqb key "path" && mkdir)) :: each l' else each l'
             | JObj _ | JList _ => _extract_operation_paths x ++ each l'
             | _ => each l'
             end
         end) fields
  | JList l => (fix each (l : list json) : list (string * bool) :=
                  match l with [] => [] | x :: l' => _extract_operation_paths x ++ each l' end) l
  | _ => []
  end.

(** What precedes the last character [c], with it. *)
Fixpoint up_to_last (c : ascii) (s : string) : string :=
  match s with
  | EmptyString => EmptyString
  | String d s' =>
      let t := up_to_last c s' in
      if is_empty t then (if Ascii.eqb d c then String d EmptyString else EmptyString) else String d t
  end.

(** [posixpath.dirname] *)
Definition dirname (s : string) : string :=
  let head := up_to_last "/" s in if str_forall slash head then head else rstrip slash head.

(** [ntpath.dirname(s.replace("/", "\\")).replace("\\", "/")] of a path with a drive. *)
Definition drive_dirname (s : string) : string :=
  String.substring 0 3 s +:+ rstrip slash (up_to_last "/" (String.substring 3 (String.length s - 3) s)).

Definition _mapping_scope (mapping raw : string) (directory : bool) : string :=
  let n := if is_empty (to_slashes raw) then "."%string else to_slashes raw in
  let parent := if has_drive n then drive_dirname n else dirname n in
  let chosen := if negb directory && negb (String.eqb n ".") then (if is_empty parent then "."%string else parent) else n in
  "mapping:" +:+ mapping +:+ ":" +:+ to_slashes (normpath chosen).

Definition write_operations : list string :=
  ["fs.copy"; "fs.content.put"; "fs.mutate"; "fs.large.replace"; "fs.mkdir"; "fs.move"; "fs.transfer.control";
   "recycle.restore"; "upload.commit"; "shell.exec"; "schedule.execute"; "server.rpc"; "mapping.rpc"].

Section scope.
Context (virtual_scope : string → bool → string).

(** The scopes of one recorded operation. *)
Definition entry_scopes (r : row) : list string :=
  match r.(operation_name) with
  | None => []
  | Some op =>
      if negb (bool_decide (op ∈ write_operations)) then []
      else
        let request := default [] r.(request_json) in
        let result := default [] r.(result_json) in
        let candidates :=
          if String.eqb op "shell.exec" then
            [(match obj_get_or "cwd" (JStr ".") request with JStr s => s | _ => "."%string end, true)]
          else _extract_operation_paths (JObj request) ++ _extract_operation_paths (JObj result) in
        if String.eqb op "mapping.rpc" then
          match obj_get "mapping_id" request with
          | Some (JStr EmptyString) | None => ["server:."%string]
          | Some (JStr m) =>
              match candidates with
              | [] => ["mapping:" +:+ m +:+ ":."]
              | _ => (λ c, _mapping_scope m c.1 c.2) <$> candidates
              end
          | Some _ => ["server:."%string]
          end
        else if String.eqb op "server.rpc" && match candidates with [] => true | _ => false end then ["server:."%string]
        else (λ c, virtual_scope c.1 c.2) <$> candidates
  end.

Definition operations_page (pid : Z) (before : option Z) (d : db) : res exn (list row * Z) :=
  Context.query {| qa_id := None; qa_exclude := None; qa_query := None; qa_type := Some "operation";
    qa_status := Some "succeeded"; qa_taskname := None; qa_actor := None; qa_path := None; qa_plan := Some (JInt pid);
    qa_root_plans := false; qa_before := before; qa_limit := MAX_CONTEXT_QUERY_LIMIT |}%string d.

(** The loop over the pages; [fuel] bounds its rounds, and [Ok None] is the run that
    needs more of them. *)
Fixpoint scope_pages (fuel : nat) (pid : Z) (before : option Z) (d : db) : res exn (option (list string)) :=
  match fuel with
  | 0%nat => Ok None
  | S fuel' =>
      let! (rows, _) := operations_page pid before d in
      let here := mjoin (entry_scopes <$> rows) in
      if Z.of_nat (length rows) <? MAX_CONTEXT_QUERY_LIMIT then Ok (Some here)
      else match last rows with
           | None => Ok (Some here)
           | Some r => let! rest := scope_pages fuel' pid (Some r.(id)) d in Ok ((λ l, here ++ l) <$> rest)
           end
  end.

Definition _plan_memory_path (pid : Z) (d : db) : res exn (option string) :=
  let! scopes := scope_pages (S (length d.(entries))) pid None d in
  match scopes with
  | None => Ok None
  | Some l => let! p := _common_path l in Ok (Some p)
  end.

End scope.

(** ** The debrief *)

Definition stripped_within (v : json) (maximum : Z) : option string :=
  match v with
  | JStr s => if is_empty (strip s) || (maximum <? slen (strip s)) then None else Some (strip s)
  | _ => None
  end.

Fixpoint item_tags (acc : list string) (l : list json) : res failure (list string) :=
  match l with
  | [] => Ok acc
  | v :: l' =>
      match stripped_within v 64 with
      | None => Err bad_debrief
      | Some t => raise! bad_debrief when bool_decide (t ∈ acc); item_tags (acc ++ [t]) l'
      end
  end.

Definition debrief_item_of (v : json) : res failure debrief_item :=
  match v with
  | JObj fields =>
      match stripped_within (obj_get_or "content" JNull fields) 256 with
      | None => Err bad_debrief
      | Some content =>
          match obj_get_or "tags" JNull fields with
          | JList l =>
              raise! bad_debrief when (length l =? 0)%nat || (32 <? length l)%nat;
              let! tags := item_tags [] l in
              Ok {| di_content := content; di_tags := tags |}
          | _ => Err bad_debrief
          end
      end
  | _ => Err bad_debrief
  end.

Fixpoint debrief_items_of (l : list json) : res failure (list debrief_item) :=
  match l with
  | [] => Ok []
  | v :: l' => let! i := debrief_item_of v in let! rest := debrief_items_of l' in Ok (i :: rest)
  end.

(** [debrief.get(key)], which must be a list of at most 20 elements. *)
Definition list_of (key : string) (fields : dictionary) : res failure (list json) :=
  match obj_get_or key JNull fields with
  | JList l => raise! bad_debrief when (20 <? length l)%nat; Ok l
  | _ => Err bad_debrief
  end.

Record conflict := { k_memory : string; k_revision : Z; k_reason : string }.

Definition conflict_of (seen : list string) (v : json) : res failure conflict :=
  match v with
  | JObj fields =>
      match text_field "memory_id" fields, obj_get_or "revision" JNull fields, stripped_within (obj_get_or "reason" JNull fields) 1000 with
      | Some EmptyString, _, _ | None, _, _ => Err bad_debrief
      | Some n, JInt k, Some reason =>
          raise! bad_debrief when (k <? 1) || bool_decide (n ∈ seen);
          Ok {| k_memory := n; k_revision := k; k_reason := reason |}
      | Some _, _, _ => Err bad_debrief
      end
  | _ => Err bad_debrief
  end.

Fixpoint conflicts_of (seen : list string) (l : list json) : res failure (list conflict) :=
  match l with
  | [] => Ok []
  | v :: l' => let! c := conflict_of seen v in let! rest := conflicts_of (c.(k_memory) :: seen) l' in Ok (c :: rest)
  end.

(** [action in {"update", "archive"}] raises for a list or an object. *)
Fixpoint actions_hashable (l : list json) : res failure unit :=
  match l with
  | [] => Ok tt
  | JObj d :: l' =>
      let! _ := catching Raised (in_strings (obj_get_or "action" JNull d) ["update"; "archive"]) in actions_hashable l'
  | _ :: l' => actions_hashable l'
  end.

Definition handles (n : string) (k : Z) (d : dictionary) : bool :=
  match text_field "action" d, text_field "memory_id" d, obj_get "expected_revision" d with
  | Some a, Some m, Some (JInt e) => bool_decide (a ∈ ["update"; "archive"]%string) && String.eqb m n && (e =? k)
  | _, _, _ => false
  end.

(** The last action on a memory at a revision: what [conflict_handlers] holds. *)
Fixpoint handler_of (n : string) (k : Z) (found : option dictionary) (l : list json) : option dictionary :=
  match l with
  | [] => found
  | JObj d :: l' => handler_of n k (if handles n k d then Some d else found) l'
  | _ :: l' => handler_of n k found l'
  end.

(** A conflict is resolved by an action that archives the memory or rewrites its
    content. *)
Definition resolved (actions : list json) (c : conflict) : res failure unit :=
  let open := Api (api_error 400 "unresolved_memory_conflict") in
  match handler_of c.(k_memory) c.(k_revision) None actions with
  | None => Err open
  | Some d => raise! open when match text_field "action" d with Some a => String.eqb a "update" | None => false end
                               && bool_decide (obj_get "content" d = None); Ok tt
  end.

Fixpoint all_resolved (actions : list json) (l : list conflict) : res failure unit :=
  match l with [] => Ok tt | c :: l' => let! _ := resolved actions c in all_resolved actions l' end.

(** ** Writing the debrief into memory *)

Record written := { w_action : string; w_memory : string; w_revision : Z }.

Fixpoint create_items (pid : Z) (actor : option string) (path : string) (now : Z) (draw : nat → nat → string) (index : nat)
    (l : list debrief_item) (s : mstore) : res failure (list written * mstore) :=
  match l with
  | [] => Ok ([], s)
  | i :: l' =>
      let! (e, s1) := catching memory_error
        (create_in {| c_content := JStr i.(di_content); c_tags := JList (JStr <$> i.(di_tags)); c_path := JStr path;
                      c_plan := JInt pid; c_actor := actor; c_message := "Plan " +:+ pretty pid +:+ " debrief memory" |}
           now (draw index) s) in
      let! (rest, s2) := create_items pid actor path now draw (S index) l' s1 in
      Ok ({| w_action := "create"; w_memory := e.(snap).(s_id); w_revision := e.(snap).(s_revision) |} :: rest, s2)
  end.

Definition completion_change (pid : Z) (actor : option string) (d : dict) : change_args :=
  {| g_expected := obj_get_or "expected_revision" JNull d; g_plan := JInt pid; g_actor := actor;
     g_message := "Plan " +:+ pretty pid +:+ " completion" |}.

(** One action of the debrief. *)
Definition apply_action (pid : Z) (actor : option string) (now : Z) (v : json) (s : mstore) : res failure (written * mstore) :=
  match v with
  | JObj d =>
      let change := completion_change pid actor d in
      let! (a, (e, s1)) := catching memory_error
        (match text_field "action" d with
         | Some a =>
             if String.eqb a "update" then
               match text_field "memory_id" d with
               | None | Some EmptyString => Err (ValueError "memory_id is required for update")
               | Some n => let! r := update_in n (without_meta d) change now s in Ok (a, r)
               end
             else if String.eqb a "archive" then
               match text_field "memory_id" d with
               | None | Some EmptyString => Err (ValueError "memory_id is required for archive")
               | Some n => let! r := archive_in n change now s in Ok (a, r)
               end
             else Err (ValueError "memory action must be update or archive")
         | None => Err (ValueError "memory action must be update or archive")
         end) in
      Ok ({| w_action := a; w_memory := e.(snap).(s_id); w_revision := e.(snap).(s_revision) |}, s1)
  | _ => Err bad_debrief
  end.

Fixpoint apply_actions (pid : Z) (actor : option string) (now : Z) (l : list json) (s : mstore) : res failure (list written * mstore) :=
  match l with
  | [] => Ok ([], s)
  | v :: l' =>
      let! (w, s1) := apply_action pid actor now v s in
      let! (rest, s2) := apply_actions pid actor now l' s1 in
      Ok (w :: rest, s2)
  end.

(** What a completed debrief consists of. *)
Record debriefed := {
  b_items : list debrief_item; b_outcome : string; b_refs : list written; b_feedback : list (string * Z * Z);
  b_conflicts : list conflict }.

(** The transaction of the memory database. *)
Definition write_debrief (pid : Z) (actor : option string) (path : string) (now : Z) (draw : nat → nat → string)
    (items : list debrief_item) (actions : list json) (feedback : list (string * Z)) (s : mstore)
    : res failure (list written * list (string * Z * Z) * mstore) :=
  let! (made, s1) := create_items pid actor path now draw 0 items s in
  let! (done_, s2) := apply_actions pid actor now actions s1 in
  let! (recorded, s3) := catching memory_error (record_in (JInt pid) feedback actor now s2) in
  Ok (made ++ done_, recorded, s3).

(** [_apply_memory_debrief]: the checks, then the transaction. *)
Definition apply_memory_debrief (virtual_scope : string → bool → string) (pid : Z) (actor : option string) (v : json) (now : Z)
    (draw : nat → nat → string) (d : db) (s : mstore) : res failure (debriefed * mstore) :=
  match v with
  | JObj fields =>
      let! items := match obj_get_or "items" JNull fields with
                    | JList l => if (20 <? length l)%nat then Err bad_debrief else debrief_items_of l
                    | _ => Err bad_debrief
                    end in
      let! known := catching Raised (in_strings (obj_get_or "outcome" JNull fields) ["succeeded"; "partial"; "no_change"]) in
      raise! bad_debrief when negb known;
      let outcome := match obj_get_or "outcome" JNull fields with JStr o => o | _ => ""%string end in
      let! actions := list_of "memory_actions" fields in
      let! feedback := list_of "memory_feedback" fields in
      let! conflicts := list_of "memory_conflicts" fields in
      let! helpful := catching memory_error (validate_helpful_feedback (JList feedback) s) in
      let! conflicting := conflicts_of [] conflicts in
      raise! bad_debrief when existsb (λ c, bool_decide (c.(k_memory) ∈ helpful.*1)) conflicting;
      let! _ := actions_hashable actions in
      let! _ := all_resolved actions conflicting in
      let! _ := catching memory_error (preflight_actions (JList actions) s) in
      let! path := catching Raised (_plan_memory_path virtual_scope pid d) in
      match path with
      | None => Err (Raised AssertionError)
      | Some path =>
          let! (refs, recorded, s') := write_debrief pid actor path now draw items actions helpful s in
          Ok ({| b_items := items; b_outcome := outcome; b_refs := refs; b_feedback := recorded; b_conflicts := conflicting |}, s')
      end
  | _ => Err (Api (api_error 400 "plan_completion_requires_debrief"))
  end.

(** ** Completing a plan *)

Definition written_json (w : written) : json :=
  JObj [("action", JStr w.(w_action)); ("memory_id", JStr w.(w_memory)); ("revision", JInt w.(w_revision))]%string.
Definition feedback_json (f : string * Z * Z) : json :=
  JObj [("memory_id", JStr f.1.1); ("revision", JInt f.1.2); ("helpful_at", JStr (iso_utc f.2))]%string.
Definition conflict_json (c : conflict) : json :=
  JObj [("memory_id", JStr c.(k_memory)); ("revision", JInt c.(k_revision)); ("reason", JStr c.(k_reason))]%string.
Definition item_value (i : debrief_item) : json :=
  JObj [("content", JStr i.(di_content)); ("tags", JList (JStr <$> i.(di_tags)))]%string.

(** The dictionary that [_apply_memory_debrief] returns. *)
Definition debrief_value (b : debriefed) : json :=
  JObj [("items", JList (item_value <$> b.(b_items))); ("outcome", JStr b.(b_outcome));
        ("memory_refs", JList (written_json <$> b.(b_refs))); ("memory_feedback", JList (feedback_json <$> b.(b_feedback)));
        ("memory_conflicts", JList (conflict_json <$> b.(b_conflicts)))]%string.

Definition trial_debrief : json :=
  JObj [("items", JList []); ("outcome", JStr "no_change"); ("memory_refs", JList []); ("memory_feedback", JList []);
        ("memory_conflicts", JList [])]%string.

(** The changes of a completion with a debrief and the actor. *)
Definition with_debrief (v : json) (actor : option string) (a : update_args) : update_args :=
  {| ua_revision := a.(ua_revision); ua_taskname := a.(ua_taskname); ua_content := a.(ua_content); ua_status := a.(ua_status);
     ua_debrief := Some v; ua_actor := actor; ua_conversation := a.(ua_conversation); ua_nonce := a.(ua_nonce);
     ua_entries := a.(ua_entries); ua_require_conversation := a.(ua_require_conversation) |}.

(** What the handler makes of an exception of the context store. *)
Definition context_error (x : exn) : failure :=
  match x with
  | KeyError _ => Api (api_error 404 "context_not_found")
  | PermissionError _ => Api (api_error 403 "conversation_writer_nonce_mismatch")
  | RuntimeError _ => Api (api_error 412 "context_plan_revision_conflict")
  | ValueError _ | RequestConflict _ _ => Api (api_error 400 "invalid_context_entry")
  | _ => Raised x
  end.
Definition as_context_error (f : failure) : failure := match f with Raised x => context_error x | f => f end.

(** The body of [update_plan] on a running transaction. *)
Definition update_plan_in (n : Z) (a : update_args) (now : Z) (d : db) : res exn (update_result * db) :=
  let! u := check_update a in apply_update n u now d.

(** Where a call to a database fails ([sqlite3.Error], or the end of the process): in
    the context transaction before the debrief, in the debrief, or in the last write
    of the context transaction and its commit. *)
Inductive phase := Opening | Debriefing | Closing.
#[export] Instance phase_eq_dec : EqDecision phase.
Proof. solve_decision. Defined.

(** The context transaction around the memory transaction: a failure rolls the
    context database back; what the debrief committed stays. *)
Definition complete_plan (virtual_scope : string → bool → string) (n : Z) (a : update_args) (actor : option string) (debrief : json)
    (trial now : Z) (draw : nat → nat → string) (fault : option phase) (d : db) (s : mstore) : res failure (row * debriefed) * (db * mstore) :=
  if bool_decide (fault = Some Opening) then (Err DatabaseFailed, (d, s)) else
  match completion_check n a.(ua_revision) d with
  | Err x => (Err (context_error x), (d, s))
  | Ok existing =>
      if bool_decide (existing.(plan_status) = Some completed) then (Err (context_error (ValueError "plan is already completed")), (d, s))
      else
        match update_plan_in n (with_debrief trial_debrief actor a) trial d with
        | Err x => (Err (context_error x), (d, s))
        | Ok _ =>
            if bool_decide (fault = Some Debriefing) then (Err DatabaseFailed, (d, s)) else
            match apply_memory_debrief virtual_scope n actor debrief now draw d s with
            | Err f => (Err (as_context_error f), (d, s))
            | Ok (b, s') =>
                if bool_decide (fault = Some Closing) then (Err DatabaseFailed, (d, s')) else
                match update_plan_in n (with_debrief (debrief_value b) actor a) now d with
                | Err x => (Err (context_error x), (d, s'))
                | Ok (ur, d') => (Ok (ur.(ur_row), b), (d', s'))
                end
            end
        end
  end.
