(* ===== verification/CompletionTheorems.v ===== *)
(** * CompletionTheorems: completing a plan in two databases

    What a failed completion leaves behind; what its check accepts can be applied; what
    it writes; and the scope of a plan is taken from all its pages. *)

From Stdlib Require Import ZArith QArith Lia Ascii String.
From stdpp Require Import base tactics list list_numbers sorting gmap strings pretty fin_maps.
From S2P Require Import Prelude Calendar Sql PathAccess PosixPath ScopeTheorems Conversation Context Plans ContextTheorems.
From S2P Require Import Memory MemoryTheorems Completion.

Local Open Scope Z_scope.

(** ** A trial run predicts the update *)

(** Conversations with the same entries, whenever they were written. *)
Definition alike (s s' : cstore) : Prop :=
  s'.(conversations) = s.(conversations) ∧
  (λ e, (e.(ce_conversation), e.(sub_id))) <$> s'.(conversation_entries) = (λ e, (e.(ce_conversation), e.(sub_id))) <$> s.(conversation_entries).

Lemma insert_entry_alike e e' s s' s1 :
  alike s s' → insert_entry e s = Ok s1 → e'.(ce_conversation) = e.(ce_conversation) → e'.(sub_id) = e.(sub_id) →
  ∃ s1', insert_entry e' s' = Ok s1' ∧ alike s1 s1'.
Proof.
  intros [Ec Ee] H E1 E2. revert H. unfold insert_entry, find_conversation. rewrite Ec, E1, E2.
  destruct (fetchone _ (conversations s)); [|done].
  assert (∀ l, existsb (λ x, of_conversation (ce_conversation e) x && (sub_id x =? sub_id e)) l =
     existsb (λ k, (k.1 =? ce_conversation e) && (k.2 =? sub_id e)) ((λ e, (e.(ce_conversation), e.(sub_id))) <$> l)) as Hx.
  { induction l as [|x l IH]; [done|]. cbn [existsb fmap list_fmap]. rewrite IH. done. }
  rewrite !Hx, Ee. destruct (existsb _ _); [done|]. intros [= <-]. eexists. split; [done|]. split; [done|]. cbn. rewrite !fmap_app, Ee. cbn.
  by rewrite E1, E2.
Qed.

Lemma append_loop_alike cid now now' items last ordinary latest created created' s s' x s1 :
  alike s s' → append_loop cid now items last ordinary latest created s = Ok (x, s1) →
  ∃ r, append_loop cid now' items last ordinary latest created' s' = Ok r.
Proof.
  revert last ordinary latest created created' s s'. induction items as [|i items IH]; intros last ordinary latest created created' s s' A;
    cbn [append_loop]; [by eauto|].
  destruct (negb _ && _); [done|]. destruct (insert_entry _ s) as [s2|] eqn:E; [|done]. intros H.
  edestruct (insert_entry_alike _ {| ce_conversation := cid; sub_id := last + 1; ce_created := now'; ce_role := i_role i; ce_content := i_content i |}
    _ _ _ A E eq_refl eq_refl) as (s2' & -> & A2). by eapply IH.
Qed.

Lemma append_any_time c w es want now now' s r :
  append_conversation c w es want now s = Ok r → ∃ r', append_conversation c w es want now' s = Ok r'.
Proof.
  unfold append_conversation. destruct (verify_writer_nonce c w s) as [cid|]; [|done].
  destruct (normalize_entries _ _ _ _) as [items|]; [|done]. unfold _append_locked. destruct r. by apply append_loop_alike.
Qed.

Definition set_debrief (b : option checked_debrief) (u : update_plan_args) : update_plan_args :=
  {| up_revision := u.(up_revision); up_taskname := u.(up_taskname); up_content := u.(up_content); up_status := u.(up_status);
     up_closing_only := u.(up_closing_only); up_conversation := u.(up_conversation); up_debrief := b |}.

Lemma check_update_other v w actor a u b :
  check_update (with_debrief v actor a) = Ok u → check_debrief (with_debrief w actor a) = Ok (Some b) →
  check_update (with_debrief w actor a) = Ok (set_debrief (Some b) u).
Proof.
  unfold check_update. cbn [with_debrief ua_revision ua_taskname ua_content ua_status ua_debrief ua_conversation ua_nonce ua_entries
    ua_require_conversation]. intros H Hb. rewrite Hb. rewrite !(bool_decide_false (Some _ = None)), !andb_false_r in * by done.
  destruct (Context._validate_revision _) as [k|]; [|done]. destruct (_validate_taskname _) as [name|]; [|done].
  destruct (match ua_content a with Some _ => _ | None => _ end) as [text|]; [|done].
  destruct (match ua_status a with Some _ => _ | None => _ end) as [st|]; [|done].
  destruct (if _ : bool then _ else Ok None) as [conv|]; [|done]. destruct (check_debrief (with_debrief v actor a)) as [b0|]; [|done].
  by injection H as <-.
Qed.

Lemma apply_update_other n u b now now' d r :
  is_Some u.(up_debrief) → apply_update n u now d = Ok r → ∃ r', apply_update n (set_debrief (Some b) u) now' d = Ok r'.
Proof.
  intros [b0 Eb] H. unfold apply_update in *.
  assert (may_update n (set_debrief (Some b) u) d = may_update n u d) as Em by (unfold may_update; cbn; rewrite Eb; done).
  rewrite Em. destruct (may_update n u d) as [x|]; [|done].
  destruct (update_chat u now x (chats d)) as [[[conv created] c]|] eqn:Ec; [|done].
  assert (∃ y, update_chat (set_debrief (Some b) u) now' x (chats d) = Ok y) as [[[conv' created'] c'] ->].
  { unfold update_chat in *. cbn. destruct (up_conversation u) as [[[cid nonce] es]|]; [|by eexists].
    destruct (validate_conversation_id cid); [|done]. destruct (match conversation_id x with Some _ => _ | None => _ end); [done|].
    destruct (append_conversation _ _ _ _ _ _) as [[l c1]|] eqn:Ea; [|done].
    destruct (append_any_time _ _ _ _ _ now' _ _ Ea) as [[l' c1'] ->]. by eexists. }
  cbn [set_debrief up_revision up_debrief]. destruct (negb _); [done|]. by eexists.
Qed.

(** ** The debrief that is stored *)

Definition stripped_text_within (s : string) (maximum : Z) : Prop := strip s = s ∧ is_empty s = false ∧ slen s ≤ maximum.

Record good_item (i : debrief_item) : Prop := {
  gi_content : stripped_text_within i.(di_content) 256;
  gi_tags : NoDup i.(di_tags);
  gi_each : Forall (λ t, stripped_text_within t 64) i.(di_tags);
  gi_some : i.(di_tags) ≠ [];
  gi_few : (length i.(di_tags) ≤ 32)%nat }.

Lemma stripped_within_Ok v m s : stripped_within v m = Some s → stripped_text_within s m.
Proof.
  unfold stripped_within. destruct v as [| | | |v| |]; try done. destruct (_ || _) eqn:E; [done|]. intros [= <-].
  apply orb_false_iff in E as [E1 E2]. split_and!; [apply strip_idem|done|lia].
Qed.

Lemma item_tags_Ok acc l tags : item_tags acc l = Ok tags → NoDup acc → Forall (λ t, stripped_text_within t 64) acc →
  NoDup tags ∧ Forall (λ t, stripped_text_within t 64) tags ∧ length tags = (length acc + length l)%nat.
Proof.
  revert acc. induction l as [|v l IH]; intros acc; cbn [item_tags]; [intros [= <-] ? ?; split_and!; [done..|cbn; lia]|].
  destruct (stripped_within v 64) as [t|] eqn:E; [|done]. apply stripped_within_Ok in E.
  destruct (bool_decide (t ∈ acc)) eqn:Eb; [done|]. apply bool_decide_eq_false in Eb. intros H Hn Hf.
  destruct (IH _ H) as (? & ? & L).
  - apply NoDup_app. split_and!; [done| |apply NoDup_singleton]. by intros x Hx ->%list_elem_of_singleton.
  - apply Forall_app. split; [done|]. by constructor.
  - split_and!; [done..|]. rewrite L, length_app. cbn. lia.
Qed.

(** How an element of the request reads as an item. *)
Definition item_reads (v : json) (i : debrief_item) : Prop :=
  ∃ fields content tags, v = JObj fields ∧ obj_get_or "content" JNull fields = JStr content ∧
    obj_get_or "tags" JNull fields = JList (JStr <$> tags) ∧ i = {| di_content := strip content; di_tags := strip <$> tags |}.

Lemma item_tags_read acc l tags : item_tags acc l = Ok tags → ∃ raw, l = JStr <$> raw ∧ tags = acc ++ (strip <$> raw).
Proof.
  revert acc. induction l as [|v l IH]; intros acc; cbn [item_tags]; [intros [= <-]; exists []; by rewrite app_nil_r|].
  destruct (stripped_within v 64) as [t|] eqn:E; [|done]. destruct (bool_decide _); [done|]. intros H.
  destruct (IH _ H) as (raw & -> & ->). unfold stripped_within in E. destruct v as [| | | |v| |]; try done.
  destruct (_ || _); [done|]. injection E as <-. exists (v :: raw). split; [done|]. by rewrite <- (assoc_L (++)).
Qed.

Lemma debrief_items_read l items : debrief_items_of l = Ok items → Forall2 item_reads l items.
Proof.
  revert items. induction l as [|v l IH]; intros items; cbn [debrief_items_of]; [by intros [= <-]|].
  destruct (debrief_item_of v) as [i|] eqn:E; [|done]. destruct (debrief_items_of l) as [rest|]; [|done]. intros [= <-].
  constructor; [|by apply IH]. unfold debrief_item_of in E. destruct v as [| | | | | |fields]; try done.
  destruct (stripped_within _ 256) as [c|] eqn:Ec; [|done]. destruct (obj_get_or "tags" JNull fields) as [| | | | |t|] eqn:Et; try done.
  destruct (_ || _); [done|]. destruct (item_tags [] t) as [tags|] eqn:Ei; [|done]. injection E as <-.
  apply item_tags_read in Ei as (raw & -> & ->). unfold stripped_within in Ec.
  destruct (obj_get_or "content" JNull fields) as [| | | |s| |] eqn:Es; try done. destruct (_ || _); [done|]. injection Ec as <-.
  by exists fields, s, raw.
Qed.

Lemma debrief_items_of_Ok l items : debrief_items_of l = Ok items → Forall good_item items ∧ length items = length l.
Proof.
  revert items. induction l as [|v l IH]; intros items; cbn [debrief_items_of]; [by intros [= <-]|].
  destruct (debrief_item_of v) as [i|] eqn:E; [|done]. destruct (debrief_items_of l) as [rest|]; [|done]. intros [= <-].
  destruct (IH _ eq_refl) as [H1 H2]. split; [constructor; [|done]|cbn; lia]. unfold debrief_item_of in E.
  destruct v as [| | | | | |fields]; try done. destruct (stripped_within _ 256) as [c|] eqn:Ec; [|done]. apply stripped_within_Ok in Ec.
  destruct (obj_get_or "tags" JNull fields) as [| | | | |t|]; try done. destruct (_ || _) eqn:El; [done|].
  apply orb_false_iff in El as [E1%Nat.eqb_neq E2%Nat.ltb_ge]. destruct (item_tags [] t) as [tags|] eqn:Et; [|done].
  injection E as <-. apply item_tags_Ok in Et as (? & ? & L); [|constructor..]. split; [done..| |cbn in *; lia].
  intros Hn. cbn in Hn. rewrite Hn in L. cbn in L. lia.
Qed.

Lemma debrief_tags_again index acc l : NoDup (acc ++ l) → Forall (λ t, stripped_text_within t 64) l →
  debrief_tags index acc (JStr <$> l) = Ok (acc ++ l).
Proof.
  revert acc. induction l as [|t l IH]; intros acc Hn Hf; [by rewrite app_nil_r|]. cbn [fmap list_fmap debrief_tags].
  inversion_clear Hf as [|? ? (Ht1 & Ht2 & Ht3) Hl]. rewrite Ht1, Ht2, (proj2 (Z.ltb_ge _ _)) by done. cbn [orb].
  rewrite bool_decide_false.
  - rewrite IH; [by rewrite <- (assoc_L (++))| |done]. by rewrite <- (assoc_L (++)).
  - apply NoDup_app in Hn as (_ & H & _). intros Hin. apply (H t Hin). by left.
Qed.

Lemma debrief_items_again index items : Forall good_item items → debrief_items index (item_value <$> items) = Ok items.
Proof.
  intros H. revert index. induction H as [|i items [[C1 [C2 C3]] T1 T2 T3 T4] _ IH]; intros index; [done|]. cbn [fmap list_fmap debrief_items].
  assert (validate_debrief_item index (item_value i) = Ok i) as ->; [|by rewrite IH].
  unfold validate_debrief_item, item_value.
  change (obj_get "content" _) with (Some (JStr (di_content i))). change (obj_get "tags" _) with (Some (JList (JStr <$> di_tags i))).
  cbn match. rewrite C1, C2, (proj2 (Z.ltb_ge _ _)) by done. cbn [orb]. rewrite length_fmap, (proj2 (Nat.ltb_ge _ _)) by done.
  assert ((length (di_tags i) =? 0)%nat = false) as -> by (apply Nat.eqb_neq; by destruct (di_tags i)). cbn [orb].
  rewrite (debrief_tags_again index []) by done. by destruct i.
Qed.

(** What the checks of [_apply_memory_debrief] establish, and what it writes. *)
Lemma apply_memory_debrief_Ok scope pid actor v now draw d s b s' :
  apply_memory_debrief scope pid actor v now draw d s = Ok (b, s') →
  Forall good_item b.(b_items) ∧ (length b.(b_items) ≤ 20)%nat ∧ b.(b_outcome) ∈ ["succeeded"; "partial"; "no_change"]%string ∧
  (∃ fields l, v = JObj fields ∧ obj_get_or "items" JNull fields = JList l ∧ Forall2 item_reads l b.(b_items)) ∧
  ∃ actions helpful path, preflight_actions (JList actions) s = Ok tt ∧ _plan_memory_path scope pid d = Ok (Some path) ∧
    all_resolved actions b.(b_conflicts) = Ok tt ∧
    write_debrief pid actor path now draw b.(b_items) actions helpful s = Ok (b.(b_refs), b.(b_feedback), s').
Proof.
  unfold apply_memory_debrief. destruct v as [| | | | | |fields]; try done.
  destruct (match obj_get_or "items" JNull fields with JList _ => _ | _ => _ end) as [items|] eqn:Ei; [|done].
  destruct (catching Raised (in_strings (obj_get_or "outcome" JNull fields) _)) as [known|] eqn:Ek; [|done].
  destruct known; [|done]. cbn [negb]. destruct (list_of "memory_actions" fields) as [actions|]; [|done].
  destruct (list_of "memory_feedback" fields) as [feedback|]; [|done]. destruct (list_of "memory_conflicts" fields) as [conflicts|]; [|done].
  destruct (catching memory_error (validate_helpful_feedback _ _)) as [helpful|]; [|done].
  destruct (conflicts_of [] conflicts) as [conflicting|]; [|done]. destruct (existsb _ conflicting); [done|].
  destruct (actions_hashable actions); [|done]. destruct (all_resolved actions conflicting) as [[]|] eqn:Er; [|done].
  destruct (preflight_actions (JList actions) s) as [[]|] eqn:Ep; [|done]. cbn [catching].
  destruct (_plan_memory_path scope pid d) as [[path|]|] eqn:Epath; cbn [catching]; try done.
  destruct (write_debrief _ _ _ _ _ _ _ _ _) as [[[refs recorded] s1]|] eqn:Ew; [|done]. intros [= <- <-]. cbn.
  destruct (obj_get_or "items" JNull fields) as [| | | | |l|] eqn:El; try done. destruct (Nat.ltb_spec 20 (length l)); [done|].
  apply debrief_items_read in Ei as Hr. apply debrief_items_of_Ok in Ei as [Hi Hl].
  split_and!; [done|lia| |by exists fields, l|by exists actions, helpful, path].
  destruct (obj_get_or "outcome" JNull fields) as [| | | |o| |]; try done. cbn in Ek. injection Ek as Ek. by apply bool_decide_eq_true in Ek.
Qed.

Lemma check_debrief_value b actor a act :
  Forall good_item b.(b_items) → (length b.(b_items) ≤ 20)%nat → b.(b_outcome) ∈ ["succeeded"; "partial"; "no_change"]%string →
  a.(ua_status) = Some "completed"%string → validate_actor actor = Ok act →
  check_debrief (with_debrief (debrief_value b) actor a) =
    Ok (Some {| cd_items := b.(b_items); cd_outcome := b.(b_outcome); cd_refs := written_json <$> b.(b_refs);
                cd_feedback := feedback_json <$> b.(b_feedback); cd_conflicts := conflict_json <$> b.(b_conflicts); cd_actor := act |}).
Proof.
  intros Hi Hl Ho Hs Ha. unfold check_debrief. cbn [with_debrief ua_debrief ua_status ua_actor]. rewrite Hs, bool_decide_true by done.
  cbn [negb]. unfold debrief_value.
  change (obj_get "items" _) with (Some (JList (item_value <$> b_items b))). cbn [_validate_debrief_items].
  rewrite length_fmap, (proj2 (Nat.ltb_ge _ _)), debrief_items_again by done.
  change (obj_get_or "outcome" JNull _) with (JStr (b_outcome b)). cbn [in_strings]. rewrite bool_decide_true by done. cbn [negb].
  unfold list_field. change (obj_get_or "memory_refs" _ _) with (JList (written_json <$> b_refs b)).
  change (obj_get_or "memory_feedback" _ _) with (JList (feedback_json <$> b_feedback b)).
  change (obj_get_or "memory_conflicts" _ _) with (JList (conflict_json <$> b_conflicts b)). cbn match. by rewrite Ha.
Qed.

Lemma trial_check actor a u : check_update (with_debrief trial_debrief actor a) = Ok u →
  a.(ua_status) = Some "completed"%string ∧ is_Some u.(up_debrief) ∧ ∃ act, validate_actor actor = Ok act.
Proof.
  unfold check_update. destruct (Context._validate_revision _) as [k|]; [|done]. destruct (_validate_taskname _) as [name|]; [|done].
  destruct (_ && _ && _); [done|]. destruct (match ua_content _ with Some _ => _ | None => _ end) as [text|]; [|done].
  destruct (match ua_status _ with Some _ => _ | None => _ end) as [st|]; [|done].
  destruct (if _ : bool then _ else Ok None) as [conv|]; [|done]. destruct (check_debrief _) as [cd|] eqn:Ec; [|done].
  intros [= <-]. cbn. unfold check_debrief in Ec. cbn [with_debrief ua_debrief ua_status ua_actor] in Ec.
  destruct (bool_decide (ua_status a = Some "completed"%string)) eqn:Es; [|done]. apply bool_decide_eq_true in Es.
  cbn in Ec. destruct (validate_actor actor) as [act|]; [|done]. injection Ec as <-. split_and!; [done|by eexists|by eexists].
Qed.

(** Once the debrief is committed the update of the plan cannot fail. *)
Lemma update_after_trial n a actor trial now d b r :
  update_plan_in n (with_debrief trial_debrief actor a) trial d = Ok r →
  Forall good_item b.(b_items) → (length b.(b_items) ≤ 20)%nat → b.(b_outcome) ∈ ["succeeded"; "partial"; "no_change"]%string →
  ∃ u b', check_update (with_debrief (debrief_value b) actor a) = Ok u ∧ u.(up_status) = Some completed ∧ u.(up_debrief) = Some b' ∧
    b'.(cd_items) = b.(b_items) ∧ b'.(cd_outcome) = b.(b_outcome) ∧ ∃ r', apply_update n u now d = Ok r'.
Proof.
  intros H Hi Hl Ho. unfold update_plan_in in H. destruct (check_update _) as [u|] eqn:Eu; [|done].
  destruct (trial_check _ _ _ Eu) as (Hs & Hd & act & Ha).
  pose proof (check_update_completed _ _ Eu Hd) as Hc.
  pose proof (check_debrief_value b actor a act Hi Hl Ho Hs Ha) as Hb. eexists _, _.
  split; [exact (check_update_other _ _ _ _ _ _ Eu Hb)|]. cbn. split_and!; [done..|]. by eapply apply_update_other.
Qed.

(** C3: a completion that fails leaves the context database (the plan and its
    conversation) as it was, and the memory database too, whatever check refuses the
    request and whatever call to a database fails before the debrief is committed.
    Once it is committed only a failure of the context database itself, at the last
    write or the commit, can fail the completion; memory then holds the whole
    debrief. *)
Theorem completion_failure_contained scope n a actor debrief trial now draw fault d s f st :
  complete_plan scope n a actor debrief trial now draw fault d s = (Err f, st) →
  st = (d, s) ∨
  fault = Some Closing ∧ f = DatabaseFailed ∧
    ∃ b s', apply_memory_debrief scope n actor debrief now draw d s = Ok (b, s') ∧ st = (d, s').
Proof.
  unfold complete_plan. case_bool_decide as F1; [by intros [= _ <-]; left|].
  destruct (completion_check _ _ _) as [existing|]; [|by intros [= _ <-]; left].
  case_bool_decide; [by intros [= _ <-]; left|].
  destruct (update_plan_in n (with_debrief trial_debrief actor a) trial d) as [r|] eqn:Et; [|by intros [= _ <-]; left].
  case_bool_decide as F2; [by intros [= _ <-]; left|].
  destruct (apply_memory_debrief _ _ _ _ _ _ _ _) as [[b s']|] eqn:Ea; [|by intros [= _ <-]; left].
  case_bool_decide as F3; [intros [= <- <-]; right; split_and!; [done..|by exists b, s']|].
  destruct (apply_memory_debrief_Ok _ _ _ _ _ _ _ _ _ _ Ea) as (Hi & Hl & Ho & _).
  destruct (update_after_trial _ _ _ _ now _ _ _ Et Hi Hl Ho) as (u & b' & Eu & _ & _ & _ & _ & [ur d'] & Eap).
  unfold update_plan_in. by rewrite Eu, Eap.
Qed.

(** ** What is written to memory *)

Lemma required_stripped s name maximum : stripped_text_within s maximum → _required_text (JStr s) name maximum = Ok s.
Proof. intros (E1 & E2 & E3). unfold _required_text. by rewrite E1, E2, (proj2 (Z.ltb_ge _ _)). Qed.

Lemma good_item_tags i : good_item i → good_tags i.(di_tags).
Proof. intros [_ T1 T2 T3 T4]. split; [done| |done|done]. eapply Forall_impl; [done|]. intros t Ht. by apply required_stripped. Qed.

(** The first revision of what [create] makes. *)
Lemma create_in_writes a now draw s e s' content tags pid :
  create_in a now draw s = Ok (e, s') → _required_text a.(c_content) "content" MAX_MEMORY_CONTENT_CHARS = Ok content →
  _validate_tags a.(c_tags) true = Ok tags → _validate_plan_id a.(c_plan) false = Ok pid →
  ∃ v, v ∈ s'.(memory_revisions) ∧ v.(v_revision) = 1 ∧ v.(v_plan) = pid ∧ v.(v_memory) = e.(snap).(s_id) ∧
       v.(v_snapshot).(s_content) = content ∧ v.(v_snapshot).(s_tags) = tags ∧ e.(snap).(s_revision) = 1 ∧
       (v.(v_memory) ∉ m_id <$> s.(memories)).
Proof.
  intros H Ec Et Ep. unfold create_in in H. rewrite Ec, Et, Ep in H. destruct (PosixPath._normalize_path _) as [p|]; [|done].
  destruct (_change_message _) as [msg|]; [|done]. destruct (unbindable pid); [done|].
  destruct (allocate 8 draw 0 s) as [m|] eqn:Em; [|done]. apply allocate_Ok in Em.
  destruct (insert_tags _ _ _) as [s1|]; [|done]. set (r := {| m_id := m |}) in H. destruct (_snapshot r) as [sn|] eqn:Es; [|done].
  unfold insert_revision in H. destruct (existsb _ _); [done|]. rewrite (serialize_snapshot r sn Es) in H. injection H as <- <-.
  eexists. split; [cbn; apply elem_of_app; right; by left|]. cbn. unfold _snapshot in Es. destruct (PosixPath._normalize_path _); [|done].
  by injection Es as <-.
Qed.

Definition debrief_revision (pid : Z) (i : debrief_item) (v : mrevision) : Prop :=
  v.(v_revision) = 1 ∧ v.(v_plan) = Some pid ∧ v.(v_snapshot).(s_content) = i.(di_content) ∧ v.(v_snapshot).(s_tags) = i.(di_tags).

(** The revisions that record the items of a debrief: one each, of memories that did
    not exist before. *)
Record new_memories (pid : Z) (l : list debrief_item) (vs : list mrevision) (s s' : mstore) : Prop := {
  nm_items : Forall2 (debrief_revision pid) l vs;
  nm_distinct : NoDup (v_memory <$> vs);
  nm_stored : ∀ v, v ∈ vs → v ∈ s'.(memory_revisions) ∧ v.(v_memory) ∉ m_id <$> s.(memories) }.

Definition created (v : mrevision) : written := {| w_action := "create"; w_memory := v.(v_memory); w_revision := v.(v_revision) |}.

Lemma new_memories_later pid l vs s s1 s' : grows s1 s' → new_memories pid l vs s s1 → new_memories pid l vs s s'.
Proof.
  intros [[k Ek] _ _] [H1 H2 H3]. split; [done..|]. intros v Hv. destruct (H3 v Hv) as [H4 H5]. split; [|done]. rewrite Ek. set_solver.
Qed.

Lemma new_memories_cons pid i l v vs s s1 s2 :
  minv s1 → grows s1 s2 → (∀ r, r ∈ s.(memories) → r ∈ s1.(memories)) → v ∈ s1.(memory_revisions) → debrief_revision pid i v →
  v.(v_memory) ∉ m_id <$> s.(memories) → new_memories pid l vs s1 s2 → new_memories pid (i :: l) (v :: vs) s s2.
Proof.
  intros I1 [[k Ek] _ _] Hk Hv Hi Hf [H1 H2 H3]. split; [by constructor| |].
  - rewrite fmap_cons. apply NoDup_cons. split; [|done]. intros (w & Ew & Hw)%list_elem_of_fmap. destruct (H3 w Hw) as [_ Hn]. apply Hn. rewrite <- Ew.
    apply (mi_revised s1 I1), Hv.
  - intros w [->|Hw]%elem_of_cons; [split; [rewrite Ek; set_solver|done]|]. destruct (H3 w Hw) as [H4 H5]. split; [done|].
    intros (r & Er & Hr)%list_elem_of_fmap. apply H5, list_elem_of_fmap. exists r. eauto.
Qed.

Lemma create_in_keeps a now draw s e s' r : create_in a now draw s = Ok (e, s') → r ∈ s.(memories) → r ∈ s'.(memories).
Proof.
  intros H Hr. unfold create_in in H. destruct (_required_text _ _ _); [|done]. destruct (_validate_tags _ _) as [tags|]; [|done].
  destruct (PosixPath._normalize_path _) as [p|]; [|done]. destruct (_validate_plan_id _ _) as [pid|]; [|done]. destruct (_change_message _) as [msg|]; [|done].
  destruct (unbindable pid); [done|]. destruct (allocate 8 draw 0 s) as [m|]; [|done].
  destruct (insert_tags _ _ _) as [s1|] eqn:E; [|done]. pose proof (insert_tags_only _ _ _ _ E) as [Hn Hf].
  destruct (insert_tags_Ok _ _ _ Hn Hf) as (T & E2 & _). rewrite E2 in E. injection E as <-.
  destruct (_snapshot _) as [sn|]; [|done]. unfold insert_revision in H. destruct (existsb _ _); [done|].
  destruct (_serialize _); [|done]. injection H as <- <-. cbn. set_solver.
Qed.

Lemma create_items_Ok pid actor path now draw index l s ws s' :
  minv s → 1 ≤ pid → Forall good_item l → create_items pid actor path now draw index l s = Ok (ws, s') →
  minv s' ∧ grows s s' ∧ (∀ r, r ∈ s.(memories) → r ∈ s'.(memories)) ∧
  ∃ vs, ws = created <$> vs ∧ new_memories pid l vs s s'.
Proof.
  intros I Hp Hl. revert index s ws I. induction Hl as [|i l Hi Hl IH]; intros index s ws I; cbn [create_items].
  { intros [= <- <-]. split_and!; [done..|]. exists []. split; [done|]. split; [constructor..|set_solver]. }
  destruct (create_in _ _ _ _) as [[e s1]|] eqn:E; [|done]. cbn [catching].
  destruct (create_items _ _ _ _ _ _ _ _) as [[rest s2]|] eqn:E2; [|done]. intros [= <- <-].
  destruct (create_in_Ok _ _ _ _ _ _ I E) as (I1 & G1 & _). destruct (IH _ _ _ I1 E2) as (I2 & G2 & K2 & vs & -> & H2).
  split_and!; [done|by etrans| |].
  - intros r Hr. apply K2. by eapply create_in_keeps.
  - destruct (create_in_writes _ _ _ _ _ _ (di_content i) (di_tags i) (Some pid) E) as (v & Hv & E1 & E3 & Em & E4 & E5 & Er & Hf).
    + apply required_stripped, Hi.
    + by apply validate_tags_again, good_item_tags.
    + cbn. by rewrite (proj2 (Z.ltb_ge pid 1)).
    + exists (v :: vs). split; [cbn; unfold created at 2; by rewrite Em, E1, Er|].
      apply (new_memories_cons pid i l v vs s s1 s2); try done. intros r Hr. by eapply create_in_keeps.
Qed.

Lemma apply_action_Ok pid actor now v s w s' : minv s → apply_action pid actor now v s = Ok (w, s') → minv s' ∧ grows s s'.
Proof.
  intros I H. unfold apply_action in H. destruct v as [| | | | | |d]; try done. destruct (text_field "action" d) as [act|]; [|done].
  destruct (String.eqb act "update"); [|destruct (String.eqb act "archive"); [|done]];
    (destruct (text_field "memory_id" d) as [[|c m]|]; [done| |done]).
  - destruct (update_in _ _ _ _ _) as [[e s1]|] eqn:E; [|done]. cbn in H. injection H as <- <-. by apply update_in_Ok in E as (? & ? & _).
  - destruct (archive_in _ _ _ _) as [[e s1]|] eqn:E; [|done]. cbn in H. injection H as <- <-. by apply archive_in_Ok in E as (? & ? & _).
Qed.

Lemma apply_actions_Ok pid actor now l s ws s' : minv s → apply_actions pid actor now l s = Ok (ws, s') → minv s' ∧ grows s s'.
Proof.
  revert s ws. induction l as [|v l IH]; intros s ws I; cbn [apply_actions]; [by intros [= _ <-]|].
  destruct (apply_action _ _ _ _ _) as [[w s1]|] eqn:E; [|done]. destruct (apply_actions _ _ _ _ _) as [[rest s2]|] eqn:E2; [|done].
  intros [= _ <-]. destruct (apply_action_Ok _ _ _ _ _ _ _ I E) as [I1 G1]. destruct (IH _ _ I1 E2) as [I2 G2]. split; [done|by etrans].
Qed.

Lemma write_debrief_Ok pid actor path now draw items actions helpful s refs recorded s' :
  minv s → 1 ≤ pid → Forall good_item items →
  write_debrief pid actor path now draw items actions helpful s = Ok (refs, recorded, s') →
  minv s' ∧ grows s s' ∧ ∃ vs rest, refs = (created <$> vs) ++ rest ∧ new_memories pid items vs s s'.
Proof.
  intros I Hp Hi H. unfold write_debrief in H. destruct (create_items _ _ _ _ _ _ _ _) as [[made s1]|] eqn:E1; [|done].
  destruct (apply_actions _ _ _ _ _) as [[done_ s2]|] eqn:E2; [|done].
  destruct (record_in _ _ _ _ _) as [[rec s3]|] eqn:E3; [|done]. cbn in H. injection H as <- _ <-.
  destruct (create_items_Ok _ _ _ _ _ _ _ _ _ _ I Hp Hi E1) as (I1 & G1 & _ & vs & -> & H1).
  destruct (apply_actions_Ok _ _ _ _ _ _ _ I1 E2) as [I2 G2]. destruct (record_in_Ok _ _ _ _ _ _ _ I2 E3) as [I3 G3].
  split_and!; [done|by do 2 (etrans; [done|])|]. exists vs, done_. split; [done|]. eapply new_memories_later; [|done]. by etrans.
Qed.

(** C25: a completed plan is on record in both databases: its row is completed with
    the debrief beside it; every item of the request, stripped of white space and in
    its order, is the first revision, naming the plan, of a memory of its own that did
    not exist before, and the answer refers to these memories; nothing that memory held
    before is lost. *)
Theorem completion_effect scope n a actor debrief trial now draw fault d s r b d' s' :
  dreachable d → mreachable s →
  complete_plan scope n a actor debrief trial now draw fault d s = (Ok (r, b), (d', s')) →
  r ∈ d'.(entries) ∧ r.(id) = n ∧ r.(plan_status) = Some completed ∧
  (∃ x, x ∈ d'.(plan_debriefs) ∧ x.(d_plan) = n ∧ x.(d_items) = b.(b_items) ∧ x.(d_outcome) = b.(b_outcome)) ∧
  (∃ fields l, debrief = JObj fields ∧ obj_get_or "items" JNull fields = JList l ∧ Forall2 item_reads l b.(b_items)) ∧
  (∃ vs rest, b.(b_refs) = (created <$> vs) ++ rest ∧ new_memories n b.(b_items) vs s s') ∧ minv s' ∧ grows s s'.
Proof.
  intros Id%dreachable_inv Is%mreachable_inv. unfold complete_plan. case_bool_decide; [done|].
  destruct (completion_check _ _ _) as [existing|]; [|done]. case_bool_decide; [done|].
  destruct (update_plan_in n (with_debrief trial_debrief actor a) trial d) as [t|] eqn:Et; [|done]. case_bool_decide; [done|].
  destruct (apply_memory_debrief _ _ _ _ _ _ _ _) as [[b0 s0]|] eqn:Ea; [|done]. case_bool_decide; [done|].
  destruct (apply_memory_debrief_Ok _ _ _ _ _ _ _ _ _ _ Ea) as (Hi & Hl & Ho & Hread & actions & helpful & path & _ & _ & _ & Hw).
  destruct (update_after_trial _ _ _ _ now _ _ _ Et Hi Hl Ho) as (u & b' & Eu & Es & Eb & E1 & E2 & [ur d0] & Eap).
  unfold update_plan_in. rewrite Eu, Eap. intros [= <- <- <- <-].
  destruct (apply_update_Ok _ _ _ _ _ _ Id Eap) as (x & conv & created & c & Em & _ & Er & Hin & _ & _ & _ & Hd & _).
  apply may_update_Ok in Em as (Hx & Hid & _). assert (1 ≤ n) as Hn by (apply (dv_ids d Id) in Hx; lia).
  destruct (write_debrief_Ok _ _ _ _ _ _ _ _ _ _ _ _ Is Hn Hi Hw) as (I2 & G2 & Hnew).
  split_and!; [apply Hin; by left|by rewrite Er|rewrite Er; cbn; by rewrite Es| |done..].
  rewrite Hd, Eb. eexists. split; [apply elem_of_app; right; by left|done].
Qed.

(** ** The check of the actions *)

Lemma pretty_length n : 1 ≤ n ≤ sqlite_max → slen (pretty n) ≤ 20.
Proof.
  intros [H1 H2]. unfold slen. destruct n as [|p|p]; [lia| |lia]. change (pretty (Z.pos p)) with (pretty (N.pos p)).
  unfold pretty, pretty_N. rewrite decide_False by done.
  assert (String.length (pretty_N_go (N.pos p) "") ≤ 0 + 20)%nat; [|lia]. apply (pretty_go_length 20 (N.pos p) "").
  assert (N.pos p ≤ Z.to_N sqlite_max)%N by lia. eapply N.le_lt_trans; [done|]. vm_compute. reflexivity.
Qed.

Lemma length_lstrip p s : (String.length (lstrip p s) ≤ String.length s)%nat.
Proof. induction s as [|c s IH]; cbn [lstrip String.length]; [done|]. destruct (p c); cbn [String.length]; lia. Qed.
Lemma length_rstrip p s : (String.length (rstrip p s) ≤ String.length s)%nat.
Proof. induction s as [|c s IH]; cbn [rstrip String.length]; [done|]. destruct (_ && _); cbn [String.length]; lia. Qed.

Lemma length_append a b : String.length (a +:+ b) = (String.length a + String.length b)%nat.
Proof. induction a as [|c a IH]; [done|]. rewrite str_app_cons. cbn [String.length]. lia. Qed.

(** The messages that completions write are accepted. *)
Lemma plan_message pid text : 1 ≤ pid ≤ sqlite_max → slen text ≤ 100 →
  ∃ m, _change_message ("Plan " +:+ pretty pid +:+ text) = Ok m.
Proof.
  intros Hp Ht. apply pretty_length in Hp. unfold _change_message, _required_text.
  set (q := "Plan " +:+ pretty pid +:+ text). assert (slen (strip q) ≤ 200).
  { unfold slen in *. unfold strip. pose proof (length_rstrip c_isspace (lstrip c_isspace q)). pose proof (length_lstrip c_isspace q).
    assert (String.length q = (5 + (String.length (pretty pid) + String.length text))%nat) by (unfold q; by rewrite !length_append). lia. }
  assert (is_empty (strip q) = false) as ->.
  { change q with (String "P" ("lan " +:+ pretty pid +:+ text)). unfold strip. cbn [lstrip]. change (c_isspace "P") with false.
    cbn [rstrip]. change (c_isspace "P") with false. by rewrite andb_false_r. }
  rewrite (proj2 (Z.ltb_ge _ _)) by done. by eexists.
Qed.

Lemma obj_get_meta key d : key ∉ ["action"; "memory_id"; "expected_revision"]%string → obj_get key (without_meta d) = obj_get key d.
Proof.
  intros Hk. induction d as [|[k v] d IH]; [done|]. unfold without_meta. cbn [List.filter fst]. fold (without_meta d).
  destruct (bool_decide (k ∈ _)) eqn:E; cbn [negb obj_get].
  - apply bool_decide_eq_true in E. destruct (String.eqb_spec k key) as [->|]; [done|exact IH].
  - by rewrite <- IH.
Qed.

Lemma no_unknown_iff label allowed d : no_unknown label allowed d = Ok tt ↔ ∀ k, k ∈ d.*1 → k ∈ allowed.
Proof.
  unfold no_unknown, unknown_keys. split.
  - destruct (List.filter _ _) as [|x l] eqn:E; [|done]. intros _ k Hk. destruct (decide (k ∈ allowed)) as [|Hn]; [done|].
    exfalso. assert (k ∈ List.filter (λ k, negb (bool_decide (k ∈ allowed))) d.*1) as H.
    { rewrite list_elem_of_In, filter_In, <- list_elem_of_In, negb_true_iff, bool_decide_eq_false. done. }
    rewrite E in H. by apply not_elem_of_nil in H.
  - intros H. destruct (List.filter _ _) as [|x l] eqn:E; [done|].
    assert (x ∈ List.filter (λ k, negb (bool_decide (k ∈ allowed))) d.*1) as Hx by (rewrite E; left).
    rewrite list_elem_of_In, filter_In, <- list_elem_of_In, negb_true_iff, bool_decide_eq_false in Hx. destruct Hx as [Hx Hn].
    by apply H in Hx.
Qed.

Lemma without_meta_known d :
  no_unknown "unknown memory action fields: " ["action"; "memory_id"; "expected_revision"; "content"; "tags"; "path"] d = Ok tt →
  no_unknown "unknown memory fields: " ["content"; "tags"; "path"] (without_meta d) = Ok tt.
Proof.
  rewrite !no_unknown_iff. intros H k (f & -> & Hf)%list_elem_of_fmap. unfold without_meta in Hf.
  rewrite list_elem_of_In, filter_In, <- list_elem_of_In, negb_true_iff, bool_decide_eq_false in Hf. destruct Hf as [Hf Hn].
  specialize (H f.1 (list_elem_of_fmap_2 fst d f Hf)). set_solver.
Qed.

Lemma at_revision_once s n k r : minv s → r ∈ s.(memories) → at_revision n k r = true → count (at_revision n k) s.(memories) = 1.
Proof.
  intros I Hr Ha. unfold count. assert (fetchall (at_revision n k) s.(memories) = [r]) as ->; [|done].
  apply list_elem_of_split in Hr as (l1 & l2 & E). pose proof (mi_unique s I) as Hn. rewrite E in Hn |- *.
  rewrite fmap_app in Hn. cbn in Hn. apply NoDup_app in Hn as (_ & Hn1 & Hn2). inversion_clear Hn2 as [|? ? Hn3 _].
  assert (∀ x, at_revision n k x = true → x.(m_id) = r.(m_id)) as Hid.
  { intros x. unfold at_revision, with_id in *. rewrite !andb_true_iff, !String.eqb_eq in *. naive_solver congruence. }
  rewrite fetchall_app, fetchall_none.
  - unfold fetchall. cbn [List.filter]. rewrite Ha. cbn. f_equal. apply fetchall_none. intros x Hx.
    apply not_true_iff_false. intros Hx'%Hid. apply Hn3. rewrite <- Hx'. by apply list_elem_of_fmap_2.
  - intros x Hx. apply not_true_iff_false. intros Hx'%Hid. apply (Hn1 x.(m_id)); [by apply list_elem_of_fmap_2|]. rewrite Hx'. left.
Qed.

(** A scope without white space at its end. *)
Definition steady (p : string) : Prop := strip p = p.

Lemma steady_snapshot r : (∃ v, PosixPath._normalize_path v = Ok r.(m_path)) → steady r.(m_path) →
  _snapshot r = Ok (snapshot_of r.(m_path) r).
Proof. intros [v Hv] Hs. unfold _snapshot. by rewrite (normalize_settles v _ Hv Hs). Qed.

Section applying.
Context (pid : Z) (actor : option string) (now : Z) (Hpid : 1 ≤ pid ≤ sqlite_max).

Lemma plan_fits : _validate_plan_id (JInt pid) true = Ok (Some pid) ∧ unbindable (Some pid) = false.
Proof. split; cbn; [rewrite (proj2 (Z.ltb_ge _ _))|apply Z.ltb_ge]; by try lia. Qed.

Lemma archive_applies d n k r s :
  minv s → _validate_revision (obj_get_or "expected_revision" JNull d) = Ok k → current n k s = Ok r → steady r.(m_path) →
  ∃ e s', archive_in n (completion_change pid actor d) now s = Ok (e, s').
Proof.
  intros I Hk Hc Hs. pose proof (current_at _ _ _ _ Hc) as Ha. pose proof (current_Ok _ _ _ _ Hc) as (Hr & Hid & _ & Erev).
  unfold archive_in. cbn [completion_change g_expected g_plan g_actor g_message]. rewrite Hk.
  destruct plan_fits as [-> ->]. destruct (plan_message pid " completion" Hpid) as [m ->]; [done|]. rewrite Hc.
  rewrite (at_revision_once s n k r I Hr Ha). cbn [Z.eqb negb].
  set (r' := archived_memory _ _ _ _ _). pose proof (steady_snapshot r' (ro_path s r (mi_rows s I r Hr)) Hs) as E.
  rewrite E. unfold insert_revision. cbn [put_memories memory_revisions v_memory v_revision].
  rewrite <- Hid, (revision_free s r (k + 1) I Hr ltac:(lia)). rewrite (serialize_snapshot _ _ E). by eexists _, _.
Qed.

Lemma update_applies d n k r s :
  minv s → _validate_revision (obj_get_or "expected_revision" JNull d) = Ok k → current n k s = Ok r → steady r.(m_path) →
  no_unknown "unknown memory action fields: " ["action"; "memory_id"; "expected_revision"; "content"; "tags"; "path"] d = Ok tt →
  without_meta d ≠ [] →
  check_field "content" (without_meta d) (λ v, _required_text v "content" MAX_MEMORY_CONTENT_CHARS) = Ok tt →
  check_field "tags" (without_meta d) (λ v, _validate_tags v true) = Ok tt →
  check_field "path" (without_meta d) PosixPath._normalize_path = Ok tt →
  (∀ v p, obj_get "path" d = Some v → PosixPath._normalize_path v = Ok p → steady p) →
  ∃ e s', update_in n (without_meta d) (completion_change pid actor d) now s = Ok (e, s') ∧
    ∀ r', r' ∈ s'.(memories) → r'.(m_id) = n → steady r'.(m_path).
Proof.
  intros I Hk Hc Hs Hu Hne Hcontent Htags Hpath Hsteady.
  pose proof (current_at _ _ _ _ Hc) as Ha. pose proof (current_Ok _ _ _ _ Hc) as (Hr & Hid & _ & Erev).
  pose proof (mi_rows s I r Hr) as Ro.
  assert (∃ content tags p, changed_fields (without_meta d) r = Ok (content, tags, p) ∧ good_tags tags ∧
    (∃ v, PosixPath._normalize_path v = Ok p) ∧ steady p) as (content & tags & p & Ef & Hg & Hn & Hp).
  { unfold changed_fields, check_field, obj_get_or in *. rewrite (obj_get_meta "path") in * by set_solver.
    assert (∃ c, match obj_get "content" (without_meta d) with Some v => _required_text v "content" MAX_MEMORY_CONTENT_CHARS
      | None => Ok (m_content r) end = Ok c) as [c ->].
    { destruct (obj_get "content" (without_meta d)); [|by eexists]. destruct (_required_text _ _ _); [by eexists|done]. }
    assert (∃ t, _validate_tags (match obj_get "tags" (without_meta d) with Some v => v | None => JList (JStr <$> m_tags r) end) true = Ok t) as [t Et].
    { destruct (obj_get "tags" (without_meta d)); [|eexists; apply validate_tags_again, Ro]. destruct (_validate_tags _ _); [by eexists|done]. }
    rewrite Et. apply validate_tags_Ok in Et. destruct (obj_get "path" d) as [v|].
    - destruct (PosixPath._normalize_path v) as [p|] eqn:Ep; [|done]. exists c, t, p. split_and!; [done..|by eexists|by eapply Hsteady].
    - destruct (ro_path s r Ro) as [v Hv]. rewrite (normalize_settles v _ Hv Hs). exists c, t, (m_path r). split_and!; [done..|by eexists|done]. }
  unfold update_in. cbn [completion_change g_expected g_plan g_actor g_message]. rewrite Hk.
  destruct plan_fits as [-> ->]. destruct (plan_message pid " completion" Hpid) as [m ->]; [done|].
  rewrite (without_meta_known d Hu). assert (match without_meta d with [] => true | _ => false end = false) as -> by by destruct (without_meta d).
  rewrite Hc, Ef, (at_revision_once s n k r I Hr Ha). cbn [Z.eqb negb]. set (r' := updated_memory _ _ _ _ _ _ _ _).
  destruct (insert_tags_Ok n tags (delete_tags n (put_memories (update_where (at_revision n k) (λ _, r') s.(memories)) s)) (gt_nodup _ Hg))
    as (T & ET & _). { intros t _. cbn. rewrite elem_of_filter. cbn. naive_solver. }
  rewrite ET. pose proof (steady_snapshot r' Hn Hp) as E. rewrite E. unfold insert_revision.
  cbn [put_memories delete_tags memories memory_revisions memory_feedback v_memory v_revision].
  rewrite <- Hid, (revision_free s r (k + 1) I Hr ltac:(lia)). rewrite (serialize_snapshot _ _ E). eexists _, _. split; [done|].
  cbn [memories]. rewrite Hid. intros x [->|[_ Hx]]%(replaced_rows s n k r r' x I Hr Ha eq_refl) Ex; [done|]. by rewrite Hid in Hx.
Qed.

(** The rows that the simulation knows of are there, live and steady. *)
Definition simulates (s : mstore) (sim : gmap string (Z * bool)) (s1 : mstore) : Prop :=
  minv s1 ∧ ∀ n k, simulated_state n sim s = Ok (k, false) →
    ∃ r, current n k s1 = Ok r ∧ steady r.(m_path).

Lemma current_intro s r n k : minv s → r ∈ s.(memories) → r.(m_id) = n → r.(m_revision) = k → r.(m_archived) = None → current n k s = Ok r.
Proof.
  intros I Hr <- <- Hl. unfold current, live. rewrite (select_elem s r I Hr), bool_decide_true by done. cbn [negb].
  by rewrite Z.eqb_refl.
Qed.

Lemma current_other s s1 n k m j r T v f x :
  minv s → minv s1 → current n k s = Ok r → x.(m_id) = r.(m_id) →
  s1 = Store (update_where (at_revision n k) (λ _, x) s.(memories)) T v f →
  m ≠ n → ∀ y, current m j s = Ok y → current m j s1 = Ok y.
Proof.
  intros I I1 Hc Ex -> Hne y Hy. pose proof (current_at _ _ _ _ Hc) as Ha.
  apply current_Ok in Hc as (Hr & Hid & _), Hy as (Hy & Hyid & Hyl & Hyk).
  apply current_intro; try done. apply (replaced_rows s n k r x y I Hr Ha Ex). right. split; [done|]. congruence.
Qed.

Lemma simulated_insert n m st sim s : simulated_state m (<[n := st]> sim) s = if decide (m = n) then Ok st else simulated_state m sim s.
Proof. unfold simulated_state. destruct (decide (m = n)) as [->|]; [by rewrite lookup_insert_eq|by rewrite lookup_insert_ne by done]. Qed.

(** The memory of a step moved on, the others stay as the simulation knows them. *)
Lemma simulates_step s sim s1 s2 n k r x T v f closes :
  simulates s sim s1 → minv s2 → current n k s1 = Ok r → x.(m_id) = n →
  s2 = Store (update_where (at_revision n k) (λ _, x) s1.(memories)) T v f →
  (closes = false → current n (k + 1) s2 = Ok x ∧ steady x.(m_path)) →
  simulates s (<[n := (k + 1, closes)]> sim) s2.
Proof.
  intros [I1 Hsim] I2 Hc Ex E2 Hx. split; [done|]. intros m j Hj. rewrite simulated_insert in Hj. destruct (decide (m = n)) as [->|Hne].
  - injection Hj as <- ->. exists x. by apply Hx.
  - destruct (Hsim m j Hj) as (y & Hy & Hs). exists y. split; [|done].
    pose proof (current_Ok _ _ _ _ Hc) as (_ & Hid & _).
    by eapply (current_other s1 s2 n k m j r T v f x I1 I2 Hc); [congruence|..].
Qed.

Lemma preflight_one_applies index v sim sim' s s1 :
  simulates s sim s1 → preflight_one index v sim s = Ok sim' →
  (∀ d w p, v = JObj d → obj_get "path" d = Some w → PosixPath._normalize_path w = Ok p → steady p) →
  ∃ w s2, apply_action pid actor now v s1 = Ok (w, s2) ∧ simulates s sim' s2.
Proof.
  intros S H Hst. unfold preflight_one in H. destruct v as [| | | | | |d]; try done.
  destruct (text_field "memory_id" d) as [[|c m]|] eqn:Em; try done. set (n := String c m) in *.
  destruct (_validate_revision _) as [k|] eqn:Ek; [|done].
  destruct (simulated_state n sim s) as [[rev closed]|] eqn:Es; [|done]. destruct closed; [done|].
  destruct (Z.eqb_spec rev k) as [->|]; [|done]. cbn [negb] in H. destruct (check_action d) as [closes|] eqn:Ea; [|done].
  injection H as <-. pose proof S as [I1 Hsim]. destruct (Hsim n k Es) as (r & Hc & Hs).
  unfold check_action in Ea. unfold apply_action. rewrite Em. destruct (text_field "action" d) as [a|]; [|done].
  destruct (String.eqb a "update") eqn:Eu.
  - destruct (no_unknown _ _ _) as [[]|] eqn:Eunk; [|done]. destruct (match without_meta d with [] => _ | _ => _ end) eqn:En; [done|].
    destruct (check_field "content" _ _) as [[]|] eqn:E1; [|done]. destruct (check_field "tags" _ _) as [[]|] eqn:E2; [|done].
    destruct (check_field "path" _ _) as [[]|] eqn:E3; [|done]. injection Ea as <-.
    destruct (update_applies d n k r s1 I1 Ek Hc Hs Eunk ltac:(by intros E; rewrite E in En) E1 E2 E3 ltac:(by eauto)) as (e & s2 & E & Hsteady).
    rewrite E. cbn. eexists _, _. split; [done|].
    destruct (update_in_Ok _ _ _ _ _ _ _ I1 E) as (I2 & _ & r0 & x & k0 & Hk0 & Hc0 & Hx1 & Hx2 & Hx3 & Hx4 & _ & T & w & E2').
    cbn in Hk0. rewrite Ek in Hk0. injection Hk0 as <-.
    eapply (simulates_step s sim s1 s2 n k r x); [done..|]. intros _. split; [by apply current_intro|by apply Hsteady].
  - destruct (String.eqb a "archive"); [|done]. destruct (no_unknown _ _ _); [|done]. injection Ea as <-.
    destruct (archive_applies d n k r s1 I1 Ek Hc Hs) as (e & s2 & E).
    rewrite E. cbn. eexists _, _. split; [done|].
    destruct (archive_in_Ok _ _ _ _ _ _ I1 E) as (I2 & _ & r0 & x & k0 & Hk0 & Hc0 & Hx1 & Hx2 & Hx3 & Hx4 & w & E2').
    cbn in Hk0. rewrite Ek in Hk0. injection Hk0 as <-. by eapply (simulates_step s sim s1 s2 n k r x).
Qed.

Lemma preflight_loop_applies index l sim s s1 :
  simulates s sim s1 → preflight_loop index l sim s = Ok tt →
  (∀ d w p, JObj d ∈ l → obj_get "path" d = Some w → PosixPath._normalize_path w = Ok p → steady p) →
  ∃ ws s2, apply_actions pid actor now l s1 = Ok (ws, s2).
Proof.
  revert index sim s1. induction l as [|v l IH]; intros index sim s1 S; cbn [preflight_loop apply_actions]; [by eexists _, _|].
  destruct (preflight_one index v sim s) as [sim'|] eqn:E; [|done]. intros H Hst.
  destruct (preflight_one_applies _ _ _ _ _ _ S E) as (w & s2 & -> & S2). { intros d w p ->. apply Hst. left. }
  destruct (IH _ _ _ S2 H) as (ws & s3 & ->); [|by eexists _, _]. intros d w' p Hd. apply Hst. by right.
Qed.
End applying.

Lemma simulates_start s s1 : minv s → minv s1 → (∀ r, r ∈ s.(memories) → r ∈ s1.(memories)) →
  (∀ r, r ∈ s.(memories) → steady r.(m_path)) → simulates s ∅ s1.
Proof.
  intros I I1 Hsub Hst. split; [done|]. intros n k. unfold simulated_state. rewrite lookup_empty.
  destruct (select_memory n s) as [r|] eqn:E; [|done]. apply select_memory_Some in E as [Hr Hid]. destruct (live r) eqn:El; [|done].
  apply bool_decide_eq_true in El. intros [= <-]. exists r. split; [|by apply Hst]. apply current_intro; [done|by apply Hsub|done..].
Qed.

(** C9: what the check accepts can be done: when [preflight_actions] accepts the
    actions of a debrief, applying them to memory succeeds, also after the debrief's
    own items have been added, for plans of any valid id and as long as no scope ends
    in white space. *)
Theorem preflight_sound s l pid actor now path draw items ws s1 :
  mreachable s → 1 ≤ pid ≤ sqlite_max → preflight_actions (JList l) s = Ok tt →
  (∀ r, r ∈ s.(memories) → steady r.(m_path)) →
  (∀ d w p, JObj d ∈ l → obj_get "path" d = Some w → PosixPath._normalize_path w = Ok p → steady p) →
  Forall good_item items → create_items pid actor path now draw 0 items s = Ok (ws, s1) →
  ∃ done_ s2, apply_actions pid actor now l s1 = Ok (done_, s2).
Proof.
  intros I%mreachable_inv Hp H Hs Hst Hi Hc. destruct (create_items_Ok _ _ _ _ _ _ _ _ _ _ I (proj1 Hp) Hi Hc) as (I1 & _ & Hk & _).
  by eapply (preflight_loop_applies pid actor now Hp 0 l ∅ s s1); [apply simulates_start|..].
Qed.

(** ** The pages of a plan's operations *)

(** The operations that the scope of a plan is taken from. *)
Definition counted (pid : Z) (r : row) : bool :=
  bool_decide (r.(entry_type) = operation) && bool_decide (r.(status) = Some succeeded) && bool_decide (r.(plan_id) = Some pid).

Definition counted_before (pid : Z) (before : option Z) (d : db) : list row :=
  rev (fetchall (λ r, counted pid r && clause (λ n, r.(id) <? n) before) d.(entries)).

Lemma operations_page_rows pid before d :
  dinv d → 1 ≤ pid ≤ sqlite_max → match before with Some n => 1 ≤ n ≤ sqlite_max | None => True end →
  ∃ total, operations_page pid before d = Ok (take (Z.to_nat MAX_CONTEXT_QUERY_LIMIT) (counted_before pid before d), total).
Proof.
  intros I Hp Hb. unfold operations_page, Context.query. cbn [qa_id qa_exclude qa_query qa_type qa_status qa_taskname qa_actor qa_path qa_plan
    qa_root_plans qa_before qa_limit given]. change (negb _) with false. cbn match.
  assert (given (λ n, n <? 1) before = false) as -> by (destruct before; cbn; lia). cbn [_validate_plan_id_value].
  rewrite (proj2 (Z.ltb_ge pid 1)) by lia. cbn [check_type check_status status_filter_of qa_type qa_status optional andb].
  change (check_type _) with (Ok (Some operation) : res exn (option etype)). cbn match.
  change (check_status _ _) with (Ok (Some (OpStatus succeeded)) : res exn (option status_filter)). cbn match.
  change (1000 <? _) with false. cbn match.
  assert (too_big None || too_big None || too_big (Some pid) || too_big before = false) as ->.
  { unfold too_big, given. rewrite !orb_false_iff. split_and!; [done..|lia|]. destruct before; [|done]. lia. }
  eexists. do 2 f_equal. unfold counted_before. do 2 f_equal. apply List.filter_ext. intros r.
  change (is_empty (strip (default ""%string None))) with true. cbn [orb].
  unfold selected_by, counted, clause, has_status. cbn [qa_id qa_exclude qa_root_plans qa_before negb orb andb].
  rewrite (bool_decide_true (Some operation = Some operation)), !andb_true_r by done. cbn [orb]. done.
Qed.

(** Cutting a descending list at the last row of a page. *)
Lemma cut_page (l : list row) k r : StronglySorted Z.gt (id <$> l) → last (take k l) = Some r →
  fetchall (λ x, x.(id) <? r.(id)) l = drop k l.
Proof.
  intros Hs Hl. rewrite <- (take_drop k l) in Hs |- * at 1. rewrite fmap_app in Hs. apply StronglySorted_app in Hs as (H1 & H2 & _).
  apply last_Some in Hl as [l' El]. rewrite fetchall_app, fetchall_none, fetchall_all; [done| |].
  - intros x Hx. apply Z.ltb_lt. cut (r.(id) > x.(id)); [lia|]. apply H1; apply list_elem_of_fmap_2; [|done]. rewrite El. set_solver.
  - intros x Hx. apply Z.ltb_ge. rewrite El in Hx, H2. rewrite fmap_app in H2. apply StronglySorted_app in H2 as (H2 & _).
    apply elem_of_app in Hx as [Hx| ->%list_elem_of_singleton]; [|lia].
    cut (x.(id) > r.(id)); [lia|]. apply H2; [by apply list_elem_of_fmap_2|]. cbn. left.
Qed.

Lemma counted_before_sorted pid before d : dinv d → StronglySorted Z.gt (id <$> counted_before pid before d).
Proof.
  intros I. unfold counted_before. change (id <$> rev ?l) with (map id (rev l)). rewrite map_rev. apply rev_sorted, ordered_fetchall, I.
Qed.

Lemma fetchall_fetchall {R} (p q : R → bool) t : fetchall p (fetchall q t) = fetchall (λ r, q r && p r) t.
Proof. unfold fetchall. induction t as [|r t IH]; [done|]. cbn. destruct (q r); cbn; [|done]. by destruct (p r); rewrite IH. Qed.

Lemma counted_before_next pid before d n : match before with Some m => n ≤ m | None => True end →
  counted_before pid (Some n) d = fetchall (λ x, x.(id) <? n) (counted_before pid before d).
Proof.
  intros Hb. unfold counted_before, fetchall. rewrite List.filter_rev. f_equal.
  change (List.filter ?p (List.filter ?q ?t)) with (fetchall p (fetchall q t)). rewrite fetchall_fetchall. unfold fetchall.
  apply List.filter_ext. intros r. cbn [clause]. destruct (counted pid r); [|done]. cbn [andb]. destruct before as [m|]; cbn [clause]; [|done].
  destruct (Z.ltb_spec r.(id) n), (Z.ltb_spec r.(id) m); try done; lia.
Qed.

Lemma scope_pages_all scope pid d fuel before :
  dinv d → 1 ≤ pid ≤ sqlite_max → (∀ r, r ∈ d.(entries) → r.(id) ≤ sqlite_max) →
  match before with Some n => 1 ≤ n ≤ sqlite_max | None => True end → (length (counted_before pid before d) < fuel)%nat →
  scope_pages scope fuel pid before d = Ok (Some (mjoin (entry_scopes scope <$> counted_before pid before d))).
Proof.
  intros I Hp Hm. revert before. induction fuel as [|fuel IH]; intros before Hb Hf; [lia|]. cbn [scope_pages].
  destruct (operations_page_rows pid before d I Hp Hb) as [total ->]. set (k := Z.to_nat MAX_CONTEXT_QUERY_LIMIT).
  set (l := counted_before pid before d) in *. assert (Z.of_nat k = MAX_CONTEXT_QUERY_LIMIT) as Ek by done.
  rewrite length_take. destruct (Z.ltb_spec (Z.of_nat (k `min` length l)) MAX_CONTEXT_QUERY_LIMIT).
  { by rewrite take_ge by lia. }
  assert (k ≤ length l)%nat as Hk by lia. assert (0 < k)%nat as Hk0 by (apply Nat.ltb_lt; reflexivity).
  destruct (last (take k l)) as [r|] eqn:El.
  2:{ apply last_None in El. apply (f_equal length) in El. rewrite length_take in El. cbn in El. lia. }
  assert (r ∈ l) as Hr by (apply last_Some_elem_of in El; by apply elem_take in El).
  assert (r ∈ d.(entries) ∧ clause (λ n, r.(id) <? n) before = true) as [Hrd Hrb].
  { unfold l, counted_before in Hr. rewrite list_elem_of_In, <- in_rev, <- list_elem_of_In in Hr.
    apply elem_fetchall in Hr as [? [_ ?]%andb_true_iff]. done. }
  assert (counted_before pid (Some r.(id)) d = drop k l) as Ed.
  { rewrite (counted_before_next pid before) by (destruct before; [cbn in Hrb; lia|done]). fold l.
    apply cut_page; [by apply counted_before_sorted|done]. }
  rewrite IH; [|pose proof (dv_ids d I r Hrd); pose proof (Hm r Hrd); lia|rewrite Ed, length_drop; lia].
  rewrite Ed. cbn. do 2 f_equal. rewrite <- (take_drop k l) at 3. by rewrite fmap_app, join_app.
Qed.

(** C36: the scope of a completed plan is taken from all its work: reading the recorded
    operations page by page ends and collects the scopes of every successful
    operation of the plan, each once, newest first. *)
Theorem plan_scope_complete scope pid d :
  dreachable d → 1 ≤ pid ≤ sqlite_max → (∀ r, r ∈ d.(entries) → r.(id) ≤ sqlite_max) →
  scope_pages scope (S (length d.(entries))) pid None d =
    Ok (Some (mjoin (entry_scopes scope <$> rev (fetchall (counted pid) d.(entries))))).
Proof.
  intros I%dreachable_inv Hp Hm. rewrite scope_pages_all; [|done..|].
  - unfold counted_before, fetchall. do 5 f_equal. apply List.filter_ext. intros r. apply andb_true_r.
  - unfold counted_before. rewrite length_rev. unfold fetchall. pose proof (List.filter_length_le (λ r, counted pid r && clause (λ n, r.(id) <? n) None) d.(entries)). lia.
Qed.

(** ** A completion *)

Definition demo_action (k : Z) : json :=
  JObj [("action", JStr "update"); ("memory_id", JStr "mem_A0"); ("expected_revision", JInt k); ("content", JStr "Tests need Python 3.14")]%string.
Definition demo_debrief (k : Z) : json :=
  JObj [("items", JList [JObj [("content", JStr "Released"); ("tags", JList [JStr "release"; JStr "done"])]]); ("outcome", JStr "succeeded");
        ("memory_actions", JList [demo_action k]); ("memory_feedback", JList []); ("memory_conflicts", JList [])]%string.
Definition demo_scope (raw : string) (directory : bool) : string := "server:.".
Definition demo_complete (fault : option phase) (k : Z) : res failure (row * debriefed) * (db * mstore) :=
  complete_plan demo_scope 1 (demo_update "completed" 1) (Some "actor"%string) (demo_debrief k) 20 21 (λ i j, "B" +:+ pretty (i + j)%nat) fault
    (run demo_closed) (demo_project "src/app").

(** A stale revision in the debrief, and a commit that fails after the debrief. *)
Lemma completion_failure_contained_witness :
  (∃ st, demo_complete None 1 = (Err (Api (api_error 412 "memory_revision_conflict")), st) ∧ st = (run demo_closed, demo_project "src/app")) ∧
  (∃ st, demo_complete (Some Closing) 2 = (Err DatabaseFailed, st) ∧ st.1 = run demo_closed ∧ length st.2.(memories) = 2%nat).
Proof.
  split.
  - destruct (demo_complete None 1) as [[rb|f] st] eqn:E; [vm_compute in E; discriminate E|]. exists st. split.
    + f_equal. vm_compute in E. injection E as <- _. reflexivity.
    + destruct (completion_failure_contained _ _ _ _ _ _ _ _ _ _ _ f st E) as [H|[H _]]; [exact H|discriminate H].
  - destruct (demo_complete (Some Closing) 2) as [[rb|f] st] eqn:E; [vm_compute in E; discriminate E|]. exists st.
    destruct (completion_failure_contained _ _ _ _ _ _ _ _ _ _ _ f st E) as [H|(_ & -> & b & s' & _ & H)].
    + exfalso. apply (f_equal (λ x, length (memories x.2))) in H. vm_compute in E. injection E as _ <-. vm_compute in H. discriminate H.
    + split; [done|]. split; [by rewrite H|]. vm_compute in E. injection E as <-. reflexivity.
Defined.

Lemma completion_effect_witness :
  ∃ r b d' s', demo_complete None 2 = (Ok (r, b), (d', s')) ∧ r.(plan_status) = Some completed ∧ length b.(b_items) = 1%nat ∧
    length b.(b_refs) = 2%nat ∧ grows (demo_project "src/app") s'.
Proof.
  destruct (demo_complete None 2) as [[[r b]|f] [d' s']] eqn:E; [|vm_compute in E; discriminate E]. exists r, b, d', s'.
  destruct (completion_effect _ _ _ _ _ _ _ _ _ _ _ r b d' s' (run_reachable demo_closed) (demo_project_reachable "src/app") E)
    as (_ & _ & H1 & _ & _ & _ & _ & H2).
  split_and!; [done|done| | |done]; vm_compute in E; injection E as _ <- _ _; reflexivity.
Defined.

Lemma preflight_sound_witness :
  ∃ ws s, apply_actions 1 (Some "actor"%string) 21 [demo_action 2] (demo_project "src/app") = Ok (ws, s).
Proof.
  apply (preflight_sound (demo_project "src/app") [demo_action 2] 1 (Some "actor"%string) 21 "server:." (λ i j, "") [] []);
    [apply demo_project_reachable|vm_compute; split; discriminate|vm_compute; reflexivity| | |constructor|reflexivity].
  - intros r Hr%(list_elem_of_fmap_2 m_path).
    replace (m_path <$> memories (demo_project "src/app")) with ["server:src/app"%string] in Hr by (vm_compute; reflexivity).
    apply list_elem_of_singleton in Hr. rewrite Hr. reflexivity.
  - intros d w p [= ->]%list_elem_of_singleton H. discriminate H.
Defined.

Definition demo_shell (now : Z) : add_args :=
  {| aa_type := "operation"; aa_content := JStr "run tests"; aa_taskname := JStr "release"; aa_actor := None;
     aa_operation := Some "shell.exec"%string; aa_status := Some "succeeded"%string; aa_plan_status := None; aa_plan := JInt 1;
     aa_request := Some [("cwd", JStr "src/app")]%string; aa_require_in_progress := true |}.
Definition demo_worked : db := run (demo_plans ++ [Add (demo_shell 10) 10; Add (demo_shell 11) 11]).

Lemma plan_scope_complete_witness :
  scope_pages (λ raw _, "server:" +:+ raw) 5 1 None demo_worked = Ok (Some ["server:src/app"; "server:src/app"]%string).
Proof.
  change 5%nat with (S (length demo_worked.(entries))).
  rewrite (plan_scope_complete (λ raw _, "server:" +:+ raw) 1 demo_worked (run_reachable _)); [vm_compute; reflexivity|vm_compute; split; discriminate|].
  intros r Hr%(list_elem_of_fmap_2 id). replace (id <$> entries demo_worked) with [1; 2; 3; 4] in Hr by (vm_compute; reflexivity).
  assert (1 ≤ id r ≤ 4) as H by (rewrite !elem_of_cons in Hr; destruct Hr as [->|[->|[->|[->|Hr]]]]; [lia..|by apply not_elem_of_nil in Hr]).
  transitivity 4; [apply H|discriminate].
Defined.
