(* ===== verification/Binary64.v ===== *)
(** * Binary64: rounding of floating-point results

    A Python [float] is the rational number it stands for.  The sum or difference of
    two floats is the exact result rounded to a significand of 53 bits, ties to even;
    [fround] computes that rounding.  Infinities do not arise: the program only adds
    clock readings and durations.  [fround_error] bounds what rounding changes. *)

From Stdlib Require Import ZArith QArith Qabs Lia Lqa.
From stdpp Require Import base tactics numbers.

Local Open Scope Z_scope.

(** The exponent of the last bit: the binary logarithm of the number less 52, but
    not below that of the subnormal numbers. *)
Definition last_bit (x : Q) : Z :=
  let n := Z.abs (Qnum x) in
  let d := Z.pos (Qden x) in
  let k := Z.log2 n - Z.log2 d in
  let reached := if 0 <=? k then d * 2 ^ k <=? n else d <=? n * 2 ^ (- k) in
  Z.max ((if reached then k else k - 1) - 52) (-1074).

(** The integer nearest to [a / b], the even one of two. *)
Definition round_even (a b : Z) : Z :=
  let q := a / b in
  let r := a mod b in
  if 2 * r <? b then q else if b <? 2 * r then q + 1 else if Z.even q then q else q + 1.

Definition fround (x : Q) : Q :=
  let e := last_bit x in
  Qred (if e <? 0 then Qmake (round_even (Qnum x * 2 ^ (- e)) (Z.pos (Qden x))) (Z.to_pos (2 ^ (- e)))
        else inject_Z (round_even (Qnum x) (Z.pos (Qden x) * 2 ^ e) * 2 ^ e)).

Example fround_tenth : fround (1 # 10) = (3602879701896397 # 36028797018963968)%Q.
Proof. vm_compute. reflexivity. Qed.
Example fround_even : fround (inject_Z (2 ^ 53 + 1)) = inject_Z (2 ^ 53) ∧ fround (inject_Z (- 2 ^ 53 - 3)) = inject_Z (- 2 ^ 53 - 4).
Proof. vm_compute. split; reflexivity. Qed.

Lemma round_even_error a b : 0 < b → 2 * Z.abs (round_even a b * b - a) ≤ b.
Proof.
  intros Hb. pose proof (Z.div_mod a b ltac:(lia)) as E. pose proof (Z.mod_pos_bound a b Hb) as Hr.
  unfold round_even. set (q := a / b) in *. set (r := a mod b) in *.
  destruct (2 * r <? b) eqn:E1; [apply Z.ltb_lt in E1; nia|apply Z.ltb_ge in E1].
  destruct (b <? 2 * r) eqn:E2; [apply Z.ltb_lt in E2; nia|apply Z.ltb_ge in E2].
  destruct (Z.even q); nia.
Qed.

(** A number below [2 ^ j] has its last bit at [j - 53] or below. *)
Lemma last_bit_below x j : 0 ≤ j → Z.abs (Qnum x) < 2 ^ j * Z.pos (Qden x) → last_bit x ≤ Z.max (j - 53) (-1074).
Proof.
  intros Hj Hx. unfold last_bit. set (n := Z.abs (Qnum x)) in *. set (d := Z.pos (Qden x)) in *.
  assert (Hd : 0 < d) by (unfold d; lia). set (k := Z.log2 n - Z.log2 d).
  apply Z.max_le_compat_r. destruct (decide (k ≤ 0)) as [Hk|Hk].
  { destruct (decide (k = 0)) as [->|].
    - cbn [Z.leb Z.compare]. change (2 ^ 0) with 1. destruct (d * 1 <=? n) eqn:E; [|lia]. apply Z.leb_le in E.
      destruct (decide (j = 0)) as [->|]; [change (2 ^ 0) with 1 in Hx; lia|lia].
    - destruct (if 0 <=? k then _ else _); lia. }
  assert (Hn : 0 < n). { destruct (decide (n = 0)) as [E|]; [|lia]. unfold k in Hk. rewrite E in Hk. pose proof (Z.log2_nonneg d). change (Z.log2 0) with 0 in Hk. lia. }
  rewrite (proj2 (Z.leb_le 0 k)) by lia. destruct (d * 2 ^ k <=? n) eqn:E.
  - apply Z.leb_le in E. assert (k < j); [|lia]. apply Z.nle_gt. intros Hle. pose proof (Z.pow_le_mono_r 2 j k ltac:(lia) Hle). nia.
  - assert (k - 1 < j); [|lia]. apply Z.nle_gt. intros Hle. pose proof (Z.pow_le_mono_r 2 j (k - 1) ltac:(lia) Hle) as Hp.
    destruct (Z.log2_spec n Hn) as [Hn1 _]. destruct (Z.log2_spec d Hd) as [_ Hd2].
    replace (Z.log2 n) with ((k - 1) + Z.succ (Z.log2 d)) in Hn1 by (unfold k; lia).
    rewrite Z.pow_add_r in Hn1 by (pose proof (Z.log2_nonneg d); lia).
    assert (2 ^ (k - 1) * d < 2 ^ (k - 1) * 2 ^ Z.succ (Z.log2 d)) by (apply Z.mul_lt_mono_pos_l; [apply Z.pow_pos_nonneg; lia|done]). nia.
Qed.

(** Rounding a number below [2 ^ j] moves it by at most half of its last bit. *)
Lemma fround_error x j :
  0 ≤ j ≤ 52 → (Qabs x < inject_Z (2 ^ j))%Q → (Qabs (fround x - x) <= 1 # Z.to_pos (2 ^ (54 - j)))%Q.
Proof.
  intros Hj Hx. assert (He : last_bit x ≤ j - 53).
  { etrans; [apply (last_bit_below x j); [lia|]|lia]. destruct x as [n d]. unfold Qlt, Qabs, inject_Z in Hx. cbn in Hx |- *. lia. }
  unfold fround. rewrite Qred_correct. set (e := last_bit x) in *. rewrite (proj2 (Z.ltb_lt e 0)) by lia.
  destruct x as [n d]. cbn [Qnum Qden]. set (P := 2 ^ (- e)).
  assert (HP : 0 < P) by (apply Z.pow_pos_nonneg; lia).
  assert (HQ : 0 < 2 ^ (54 - j)) by (apply Z.pow_pos_nonneg; lia).
  assert (Hle : 2 ^ (54 - j) ≤ 2 * P).
  { unfold P. rewrite <- Z.pow_succ_r by lia. apply Z.pow_le_mono_r; lia. }
  pose proof (round_even_error (n * P) (Z.pos d) ltac:(lia)) as Hr. set (m := round_even (n * P) (Z.pos d)) in *.
  unfold Qle, Qabs, Qminus, Qplus, Qopp. cbn [Qnum Qden]. rewrite Pos2Z.inj_mul, !Z2Pos.id by done.
  assert (E : m * Z.pos d + - n * P = m * Z.pos d - n * P) by ring. rewrite E.
  set (w := Z.abs _) in *. assert (0 ≤ w) by (unfold w; lia).
  rewrite Z.mul_1_l. nia.
Qed.
