(* ===== verification/FunctionGrants.v ===== *)
(** * FunctionGrants: authorizations that belong to functions of a client

    Models src/openkapsel/auth/function_grants.py.  A client decides what a function
    may do and answers with a JSON document whose [grants] carry their own expiry;
    the server keeps the document for a while and never looks into it.  The clock is
    an argument of every operation (a float, in seconds; see Binary64), tickets are
    arguments, and a client is a function of the old document, the request and the
    duration, which answers or raises.  [float_repr] is Python's [repr] of a float,
    of which only the length of the text matters.  Every method runs under the lock;
    one that raises may have changed the state, so operations return a result and
    the new state.  [password_attempt] gives the lock up while the password is
    checked: its two halves are two operations. *)

From Stdlib Require Import ZArith QArith Qabs Lia Lqa Ascii String.
From stdpp Require Import base tactics list list_numbers sorting gmap strings pretty fin_maps.
From S2P Require Import Prelude Hashing JsonText Dict Binary64 Capability.

Local Open Scope Z_scope.

Definition SERVER_EXPIRY_GRACE_SECONDS : Z := 60.

(** ** JSON documents as Python values *)

(** Python compares numbers by value, [True] is [1], and the order of the keys of a
    dictionary does not count: two documents are equal when they have one form. *)
Abbreviation form := (gen_tree (string + Z * positive)).

Definition form_key_le (a b : string * form) : Prop := String.leb a.1 b.1 = true.
#[export] Instance form_key_le_dec : RelDecision form_key_le.
Proof. intros a b. unfold form_key_le. apply _. Defined.

Definition number_form (q : Q) : form := GenLeaf (inr (Qnum (Qred q), Qden (Qred q))).

Fixpoint form_of (v : json) : form :=
  match v with
  | JNull => GenNode 0 []
  | JBool b => number_form (if b then 1 else 0)
  | JInt n => number_form (inject_Z n)
  | JFloat q => number_form q
  | JStr s => GenLeaf (inl s)
  | JList l => GenNode 1 (form_of <$> l)
  | JObj fields =>
      GenNode 2 ((λ f, GenNode 3 [GenLeaf (inl f.1); f.2]) <$> merge_sort form_key_le ((λ f, (f.1, form_of f.2)) <$> fields))
  end.

(** [a == b] *)
Definition same (a b : json) : bool := bool_decide (form_of a = form_of b).

Example same_order :
  same (JObj [("a", JInt 1); ("b", JList [JFloat (1 # 2)])]) (JObj [("b", JList [JFloat (2 # 4)]); ("a", JBool true)])%string = true
  ∧ same (JStr "1") (JInt 1) = false.
Proof. vm_compute. split; reflexivity. Qed.

(** (workspace, conversation, target, function) *)
Abbreviation fkey := (string * Z * string * string)%type.

(** A client: the old document, the request and the duration to its answer. *)
Abbreviation client := (option json → json → Z → res exn json).

Section store.
Context (float_repr : Q → string).

(** [json.dumps(value, ensure_ascii=False, separators=(",", ":"))] *)
Fixpoint encode (v : json) : string :=
  match v with
  | JNull => "null"
  | JBool b => if b then "true" else "false"
  | JInt n => pretty n
  | JFloat q => float_repr q
  | JStr s => json_string s
  | JList l => "[" +:+ String.concat "," (encode <$> l) +:+ "]"
  | JObj fields => "{" +:+ String.concat "," ((λ f, json_string f.1 +:+ ":" +:+ encode f.2) <$> fields) +:+ "}"
  end.

Definition _json_copy (v : json) : res exn json :=
  raise! (ValueError "approval data exceeds 128 KiB") when 128 * 1024 <? Z.of_nat (length (utf8 (encode v)));
  Ok v.

(** ** Client documents *)

Inductive number := Int (n : Z) | Float (q : Q).
Definition value (x : number) : Q := match x with Int n => inject_Z n | Float q => q end.

(** [type(x) in (int, float)] *)
Definition as_number (v : json) : option number :=
  match v with JInt n => Some (Int n) | JFloat q => Some (Float q) | _ => None end.

Definition expires_at (item : json) : option number :=
  match item with JObj fields => obj_get "expires_at" fields ≫= as_number | _ => None end.

Definition valid_item (item : json) : bool :=
  match expires_at item with
  | Some x => Qle_bool 0 (value x) && Qle_bool (value x) (inject_Z (10 ^ 13))
  | None => false
  end.

Definition grants_list (auth : json) : option (list json) :=
  match auth with
  | JObj fields => match obj_get "grants" fields with Some (JList l) => Some l | _ => None end
  | _ => None
  end.
(** [auth["grants"]] of a document that was validated. *)
Definition grants_of (auth : json) : list json := default [] (grants_list auth).

Definition with_grants (l : list json) (auth : json) : json :=
  match auth with JObj fields => JObj (dset "grants" (JList l) fields) | _ => auth end.

Definition _validated_auth (auth : json) : res exn json :=
  match grants_list auth with
  | None => Err (ValueError "function auth requires a grants list")
  | Some l =>
      raise! (ValueError "each grant requires a finite numeric expires_at") when negb (forallb valid_item l);
      Ok auth
  end.

Definition without_expiry (item : json) : json :=
  match item with JObj fields => JObj (filter (λ f, f.1 ≠ "expires_at"%string) fields) | _ => item end.
Definition _semantic_auth (auth : json) : json := with_grants (without_expiry <$> grants_of auth) auth.

(** ** The store *)

Record FunctionRequest := {
  r_workspace : string; r_conversation : Z; r_target : string; r_function : string;
  r_request : json; r_display : json; r_deadline : Q; r_reason : string; r_attempts : Z }.

Record FunctionAuth := { a_auth : json; a_deadlines : list Q; a_revision : Z }.

(** A proposal that waits for its confirmation: browser, document, duration and the
    revision it replaces. *)
Record confirmation := { c_browser : string; c_auth : json; c_seconds : Z; c_revision : Z }.

Record fstore := Fstore {
  f_pending : gmap string FunctionRequest;
  f_active : gmap fkey FunctionAuth;
  f_confirmations : gmap string confirmation }.

Definition empty_fstore : fstore := Fstore ∅ ∅ ∅.

Definition fkey_of (r : FunctionRequest) : fkey := (r.(r_workspace), r.(r_conversation), r.(r_target), r.(r_function)).

Definition before (a b : Q) : bool := negb (Qle_bool b a).

(** The items that have not expired, with their deadlines. *)
Definition unexpired (now : Q) (items : list json) (ds : list Q) : list (json * Q) :=
  filter (λ p, before now p.2 = true) (zip items ds).

Definition prune_auth (now : Q) (a : FunctionAuth) : option FunctionAuth :=
  let keep := filter (λ d, before now d = true) a.(a_deadlines) in
  if bool_decide (length keep = length a.(a_deadlines)) then Some a
  else match keep with
       | [] => None
       | _ => let left := unexpired now (grants_of a.(a_auth)) a.(a_deadlines) in
              Some {| a_auth := with_grants left.*1 a.(a_auth); a_deadlines := left.*2; a_revision := a.(a_revision) |}
       end.

Definition restrict_confirmations (p : gmap string FunctionRequest) (c : gmap string confirmation) : gmap string confirmation :=
  filter (λ kv, is_Some (p !! kv.1)) c.

Definition _prune (now : Q) (s : fstore) : fstore :=
  let p := filter (λ kv, before now kv.2.(r_deadline) = true) s.(f_pending) in
  Fstore p (omap (prune_auth now) s.(f_active)) (restrict_confirmations p s.(f_confirmations)).

Definition pending_of (ws : string) (s : fstore) : Z :=
  Z.of_nat (size (filter (λ kv, kv.2.(r_workspace) = ws) s.(f_pending))).

Definition request (now : Q) (ticket ws : string) (conv : Z) (target function : string) (req display : json) (reason : string)
    (s : fstore) : res exn string * fstore :=
  if is_empty ws || is_empty target || is_empty function || (conv <? 0) then (Err (ValueError "invalid function approval binding"), s)
  else
    match _json_copy req, _json_copy display with
    | Err e, _ | Ok _, Err e => (Err e, s)
    | Ok requested, Ok displayed =>
        let s := _prune now s in
        if 32 <=? pending_of ws s then (Err (ValueError "too many pending function approvals"), s)
        else
          let r := {| r_workspace := ws; r_conversation := conv; r_target := target; r_function := function; r_request := requested;
                      r_display := displayed; r_deadline := fround (now + inject_Z PENDING_SECONDS); r_reason := reason; r_attempts := 0 |} in
          (Ok ticket, Fstore (<[ticket := r]> s.(f_pending)) s.(f_active) s.(f_confirmations))
    end.

Definition pending (now : Q) (ticket : string) (s : fstore) : option FunctionRequest * fstore :=
  let s := _prune now s in (s.(f_pending) !! ticket, s).

Definition current (now : Q) (k : fkey) (s : fstore) : res exn (option json) * fstore :=
  let s := _prune now s in
  match s.(f_active) !! k with
  | Some a => (match _json_copy a.(a_auth) with Ok v => Ok (Some v) | Err e => Err e end, s)
  | None => (Ok None, s)
  end.

(** ** Passwords *)

Definition attempt_start (now : Q) (ticket : string) (s : fstore) : res exn string * fstore :=
  let s := _prune now s in
  match s.(f_pending) !! ticket with
  | Some r => (Ok r.(r_workspace), s)
  | None => (Err (ValueError "function approval expired or used"), s)
  end.

Definition set_attempts (n : Z) (r : FunctionRequest) : FunctionRequest :=
  {| r_workspace := r.(r_workspace); r_conversation := r.(r_conversation); r_target := r.(r_target); r_function := r.(r_function);
     r_request := r.(r_request); r_display := r.(r_display); r_deadline := r.(r_deadline); r_reason := r.(r_reason); r_attempts := n |}.

Definition attempt_finish (now : Q) (ticket : string) (valid : bool) (s : fstore) : res exn bool * fstore :=
  let s := _prune now s in
  match s.(f_pending) !! ticket with
  | None => (Err (ValueError "function approval expired or revoked"), s)
  | Some r =>
      if valid then (Ok true, s)
      else
        let n := r.(r_attempts) + 1 in
        (Ok false, Fstore (if 5 <=? n then delete ticket s.(f_pending) else <[ticket := set_attempts n r]> s.(f_pending))
                          s.(f_active) s.(f_confirmations))
  end.

(** ** Deadlines *)

(** The first entry that equals the item, and the entries without it. *)
Fixpoint take_match (item : json) (old : list (json * Q)) : option (Q * list (json * Q)) :=
  match old with
  | [] => None
  | (prior, d) :: old' =>
      if same prior item then Some (d, old')
      else match take_match item old' with Some (d', rest) => Some (d', (prior, d) :: rest) | None => None end
  end.

(** For every item its old deadline, or [None] when it is new. *)
Fixpoint match_items (items : list json) (old : list (json * Q)) : list (option Q) :=
  match items with
  | [] => []
  | item :: items' =>
      match take_match item old with
      | Some (d, rest) => Some d :: match_items items' rest
      | None => None :: match_items items' old
      end
  end.

(** [max] of Python: the first of the greatest. *)
Definition max_number (x : number) (l : list number) : number :=
  foldl (λ m y, if before (value m) (value y) then y else m) x l.

Definition minus (x : number) (n : Z) : number :=
  match x with Int m => Int (m - n) | Float q => Float (fround (q - inject_Z n)) end.

Definition expiry (item : json) : number := default (Int 0) (expires_at item).

Definition fresh_items (items : list json) (ds : list (option Q)) : list json :=
  (filter (λ p, p.2 = None) (zip items ds)).*1.

Definition fresh_deadline (started : Q) (client_now : number) (item : json) : Q :=
  fround (fround (fround (started + value (expiry item)) - value client_now) + inject_Z SERVER_EXPIRY_GRACE_SECONDS).

Definition fill (started : Q) (client_now : number) (p : json * option Q) : Q :=
  match p.2 with Some d => d | None => fresh_deadline started client_now p.1 end.

Definition _deadlines (previous : option FunctionAuth) (items : list json) (started : Q) (seconds : Z) : list Q :=
  let old := match previous with Some a => zip (grants_of a.(a_auth)) a.(a_deadlines) | None => [] end in
  let ds := match_items items old in
  match expiry <$> fresh_items items ds with
  | [] => fill started (Int 0) <$> zip items ds
  | x :: l => fill started (minus (max_number x l) seconds) <$> zip items ds
  end.

(** ** Approval *)

(** The clock readings of one approval: when it begins, before the client is asked,
    for the deadlines that are looked at after its answer, and at the end. *)
Record moments := { at_entry : Q; at_call : Q; at_check : nat → Q; at_return : Q; at_exit : Q }.

(** [all(deadline <= time.monotonic() for deadline in deadlines)] *)
Fixpoint all_expired (check : nat → Q) (i : nat) (ds : list Q) : bool :=
  match ds with [] => true | d :: ds' => Qle_bool d (check i) && all_expired check (S i) ds' end.

Record candidate := { cd_key : fkey; cd_previous : option FunctionAuth; cd_updated : json; cd_deadlines : list Q }.

Definition _candidate (m : moments) (p : FunctionRequest) (seconds : Z) (grant : client) (s : fstore) : res exn candidate :=
  let k := fkey_of p in
  let previous := s.(f_active) !! k in
  let! old := match previous with Some a => match _json_copy a.(a_auth) with Ok v => Ok (Some v) | Err e => Err e end | None => Ok None end in
  let! req := _json_copy p.(r_request) in
  let! answer := grant old req seconds in
  let! copied := _json_copy answer in
  let! updated := _validated_auth copied in
  let ds := _deadlines previous (grants_of updated) m.(at_call) seconds in
  raise! (ValueError "function grant has no active authorization")
    when match ds with [] => true | _ => all_expired m.(at_check) 0 ds end;
  Ok {| cd_key := k; cd_previous := previous; cd_updated := updated; cd_deadlines := ds |}.

Definition revision_of (previous : option FunctionAuth) : Z := match previous with Some a => a.(a_revision) | None => 0 end.

(** Whether the approval is the one that the browser was shown. *)
Definition confirmed (browser : option string) (ticket : string) (seconds : Z) (c : candidate) (s : fstore) : bool :=
  match browser with
  | None => true
  | Some b =>
      match s.(f_confirmations) !! ticket with
      | Some x => String.eqb x.(c_browser) b && (x.(c_seconds) =? seconds) && (x.(c_revision) =? revision_of c.(cd_previous))
                  && same (_semantic_auth x.(c_auth)) (_semantic_auth c.(cd_updated))
      | None => false
      end
  end.

Definition bad_seconds (seconds : Z) : bool := negb ((60 <=? seconds) && (seconds <=? MAX_SECONDS)).

Definition approve (m : moments) (ticket : string) (seconds : Z) (grant : client) (browser : option string) (s : fstore)
    : res exn (option json) * fstore :=
  if bad_seconds seconds then (Err (ValueError "invalid function approval duration"), s)
  else
    let s := _prune m.(at_entry) s in
    match s.(f_pending) !! ticket with
    | None => (Err (ValueError "function approval expired or used"), s)
    | Some p =>
        match _candidate m p seconds grant s with
        | Err e => (Err e, s)
        | Ok c =>
            let s := _prune m.(at_return) s in
            if bool_decide (s.(f_pending) !! ticket = None) || Qle_bool p.(r_deadline) m.(at_return) then
              (Err (ValueError "function approval expired or revoked"), s)
            else if negb (confirmed browser ticket seconds c s) then
              (Err (ValueError "approval changed; request a new confirmation"), s)
            else
              let a := {| a_auth := c.(cd_updated); a_deadlines := c.(cd_deadlines); a_revision := revision_of c.(cd_previous) + 1 |} in
              let s := _prune m.(at_exit) (Fstore (delete ticket s.(f_pending)) (<[c.(cd_key) := a]> s.(f_active))
                                                  (delete ticket s.(f_confirmations))) in
              (match s.(f_active) !! c.(cd_key) with
               | Some a => match _json_copy a.(a_auth) with Ok v => Ok (Some v) | Err e => Err e end
               | None => Ok None
               end, s)
        end
    end.

Definition prepare_confirmation (m : moments) (ticket browser : string) (seconds : Z) (grant : client) (s : fstore)
    : res exn json * fstore :=
  if bad_seconds seconds then (Err (ValueError "invalid function approval duration"), s)
  else
    let s := _prune m.(at_entry) s in
    match s.(f_pending) !! ticket with
    | None => (Err (ValueError "function approval expired or used"), s)
    | Some p =>
        match _candidate m p seconds grant s with
        | Err e => (Err e, s)
        | Ok c =>
            if Qle_bool p.(r_deadline) m.(at_return) then (Err (ValueError "function approval expired or revoked"), s)
            else
              let x := {| c_browser := browser; c_auth := c.(cd_updated); c_seconds := seconds; c_revision := revision_of c.(cd_previous) |} in
              (_json_copy c.(cd_updated), Fstore s.(f_pending) s.(f_active) (<[ticket := x]> s.(f_confirmations)))
        end
    end.

(** [confirmation] *)
Definition get_confirmation (now : Q) (ticket browser : string) (s : fstore) : res exn (option (json * Z)) * fstore :=
  let s := _prune now s in
  match s.(f_confirmations) !! ticket with
  | Some x => (if String.eqb x.(c_browser) browser
               then match _json_copy x.(c_auth) with Ok v => Ok (Some (v, x.(c_seconds))) | Err e => Err e end else Ok None, s)
  | None => (Ok None, s)
  end.

(** ** Revocation *)

Definition revoke (k : fkey) (s : fstore) : fstore :=
  let p := filter (λ kv, fkey_of kv.2 ≠ k) s.(f_pending) in
  Fstore p (delete k s.(f_active)) (restrict_confirmations p s.(f_confirmations)).

Definition revoke_workspace (ws : string) (s : fstore) : fstore :=
  let p := filter (λ kv, kv.2.(r_workspace) ≠ ws) s.(f_pending) in
  Fstore p (filter (λ kv, kv.1.1.1.1 ≠ ws) s.(f_active)) (restrict_confirmations p s.(f_confirmations)).

(** ** Requests in sequence *)

Inductive op :=
| Request (now : Q) (ticket ws : string) (conv : Z) (target function : string) (req display : json) (reason : string)
| Look (now : Q) (ticket : string)
| Current (now : Q) (k : fkey)
| AttemptStart (now : Q) (ticket : string)
| AttemptFinish (now : Q) (ticket : string) (valid : bool)
| Approve (m : moments) (ticket : string) (seconds : Z) (grant : client) (browser : option string)
| Prepare (m : moments) (ticket browser : string) (seconds : Z) (grant : client)
| GetConfirmation (now : Q) (ticket browser : string)
| Revoke (k : fkey)
| RevokeWorkspace (ws : string).

Definition exec (s : fstore) (o : op) : fstore :=
  match o with
  | Request now ticket ws conv target function req display reason => (request now ticket ws conv target function req display reason s).2
  | Look now ticket => (pending now ticket s).2
  | Current now k => (current now k s).2
  | AttemptStart now ticket => (attempt_start now ticket s).2
  | AttemptFinish now ticket valid => (attempt_finish now ticket valid s).2
  | Approve m ticket seconds grant browser => (approve m ticket seconds grant browser s).2
  | Prepare m ticket browser seconds grant => (prepare_confirmation m ticket browser seconds grant s).2
  | GetConfirmation now ticket browser => (get_confirmation now ticket browser s).2
  | Revoke k => revoke k s
  | RevokeWorkspace ws => revoke_workspace ws s
  end.

Definition run (ops : list op) : fstore := foldl exec empty_fstore ops.

End store.
