(* ===== verification/FunctionGrantsTheorems.v ===== *)
(** * FunctionGrantsTheorems: what a stored authorization stands for

    Every authorization that the store returns was granted by its client in answer to
    an approved request for the same workspace, conversation, target and function,
    and for no longer than was approved, whatever the clocks of clients do; and what
    a confirmed approval stores is what the confirming browser was shown. *)

From Stdlib Require Import ZArith QArith Qabs Lia Lqa Ascii String.
From stdpp Require Import base tactics list list_numbers sorting gmap strings pretty fin_maps.
From S2P Require Import Prelude Hashing JsonText Dict Binary64 Capability FunctionGrants.

Local Open Scope Z_scope.

(** ** Documents *)

Lemma same_iff a b : same a b = true ↔ form_of a = form_of b.
Proof. apply bool_decide_eq_true. Qed.

Lemma same_refl a : same a a = true.
Proof. by apply same_iff. Qed.

Lemma same_trans a b c : same a b = true → same b c = true → same a c = true.
Proof. rewrite !same_iff. congruence. Qed.

Lemma obj_get_set key v fields : obj_get key (dset key v fields) = Some v.
Proof.
  induction fields as [|[k w] fields IH]; cbn; [by rewrite String.eqb_refl|].
  destruct (String.eqb_spec k key) as [->|Hne]; cbn; [by rewrite String.eqb_refl|]. by destruct (String.eqb_spec k key).
Qed.

Lemma grants_of_with l auth : is_Some (grants_list auth) → grants_of (with_grants l auth) = l ∧ is_Some (grants_list (with_grants l auth)).
Proof. intros [l0 E]. destruct auth; cbn in E; try done. unfold grants_of. cbn. by rewrite obj_get_set. Qed.

Lemma before_lt a b : before a b = true ↔ (a < b)%Q.
Proof.
  unfold before. rewrite negb_true_iff. split.
  - intros H. apply Qnot_le_lt. intros Hle. by rewrite (proj2 (Qle_bool_iff _ _) Hle) in H.
  - intros H. apply not_true_iff_false. rewrite Qle_bool_iff. by apply Qlt_not_le.
Qed.

(** ** Entries *)

(** An entry has a deadline for every item. *)
Definition entry_ok (a : FunctionAuth) : Prop :=
  is_Some (grants_list a.(a_auth)) ∧ length (grants_of a.(a_auth)) = length a.(a_deadlines).

Definition items_of (a : FunctionAuth) : list (json * Q) := zip (grants_of a.(a_auth)) a.(a_deadlines).

Lemma unexpired_pairs now items ds : zip (unexpired now items ds).*1 (unexpired now items ds).*2 = unexpired now items ds.
Proof. apply zip_fst_snd. Qed.

(** Pruning keeps exactly the items that are not over. *)
Lemma prune_auth_Some now a a' :
  entry_ok a → prune_auth now a = Some a' →
  entry_ok a' ∧ a'.(a_revision) = a.(a_revision) ∧
  ∀ x d, (x, d) ∈ items_of a' → (x, d) ∈ items_of a ∧ (now < d)%Q.
Proof.
  intros [Hs Hl]. unfold prune_auth. case_bool_decide as Hk.
  - intros [= <-]. split_and!; [done..|]. intros x d Hx. split; [done|].
    assert (Hf : filter (λ d, before now d = true) (a_deadlines a) = a_deadlines a).
    { clear -Hk. induction (a_deadlines a) as [|e l IH]; [done|]. rewrite filter_cons in *. case_decide; cbn in *; [f_equal; apply IH; lia|].
      pose proof (length_filter (λ d, before now d = true) l). lia. }
    apply elem_of_zip_r in Hx. rewrite <- Hf in Hx. apply list_elem_of_filter in Hx as [Hd _]. by apply before_lt.
  - destruct (filter _ (a_deadlines a)) eqn:E; [done|]. intros [= <-].
    set (u := unexpired now (grants_of (a_auth a)) (a_deadlines a)).
    destruct (grants_of_with u.*1 (a_auth a) Hs) as [Eg Hs']. split_and!; [split; [done|]|done|].
    + cbn [a_auth a_deadlines]. by rewrite Eg, !length_fmap.
    + unfold items_of. cbn [a_auth a_deadlines]. rewrite Eg, zip_fst_snd. intros x d Hx.
      unfold u, unexpired in Hx. apply list_elem_of_filter in Hx as [Hd Hx]. split; [done|]. by apply before_lt.
Qed.

(** ** Deadlines *)

Lemma take_match_Some item old d rest :
  take_match item old = Some (d, rest) → (∃ prior, (prior, d) ∈ old ∧ same prior item = true) ∧ ∀ p, p ∈ rest → p ∈ old.
Proof.
  revert rest. induction old as [|[prior e] old IH]; intros rest; cbn; [done|].
  destruct (same prior item) eqn:E.
  - intros [= <- <-]. split; [exists prior; split; [by left|done]|]. intros p Hp. by right.
  - destruct (take_match item old) as [[d' rest']|]; [|done]. intros [= <- <-].
    destruct (IH _ eq_refl) as [(q & Hq & Es) Hr]. split; [exists q; split; [by right|done]|].
    intros p [->|Hp]%elem_of_cons; [by left|right; by apply Hr].
Qed.

Lemma match_items_length items old : length (match_items items old) = length items.
Proof. revert old. induction items as [|x items IH]; intros old; cbn; [done|]. destruct (take_match x old) as [[d r]|]; cbn; by rewrite IH. Qed.

Lemma match_items_old items old x d :
  (x, Some d) ∈ zip items (match_items items old) → ∃ prior, (prior, d) ∈ old ∧ same prior x = true.
Proof.
  revert old. induction items as [|y items IH]; intros old; cbn; [by intros ?%elem_of_nil|].
  destruct (take_match y old) as [[e rest]|] eqn:E; cbn.
  - apply take_match_Some in E as [H Hr]. intros [[= -> ->]|Hx]%elem_of_cons; [done|].
    destruct (IH _ Hx) as (q & Hq & Es). exists q. split; [by apply Hr|done].
  - intros [[=]|Hx]%elem_of_cons. by apply IH.
Qed.

(** How often an item occurs. *)
Definition copies (x : json) (l : list json) : nat := length (filter (λ y, form_of y = form_of x) l).

Lemma copies_cons x y l : copies x (y :: l) = ((if decide (form_of y = form_of x) then 1 else 0) + copies x l)%nat.
Proof. unfold copies. rewrite filter_cons. by case_decide. Qed.

Lemma take_match_copies x item old :
  match take_match item old with
  | Some (_, rest) => copies x old.*1 = ((if decide (form_of item = form_of x) then 1 else 0) + copies x rest.*1)%nat
  | None => copies item old.*1 = 0%nat
  end.
Proof.
  induction old as [|[prior e] old IH]; [done|]. rewrite fmap_cons. cbn [take_match fst]. destruct (same prior item) eqn:E.
  - apply same_iff in E. by rewrite copies_cons, E.
  - assert (Hne : form_of prior ≠ form_of item) by (intros H; apply same_iff in H; congruence).
    destruct (take_match item old) as [[d rest]|]; rewrite ?fmap_cons, ?copies_cons; cbn [fst].
    + rewrite IH. lia.
    + by rewrite decide_False.
Qed.

(** A new item occurs more often than before. *)
Lemma match_items_new items old x :
  (x, None) ∈ zip items (match_items items old) → (copies x old.*1 < copies x items)%nat.
Proof.
  revert old. induction items as [|y items IH]; intros old; cbn [match_items]; [by intros ?%elem_of_nil|].
  pose proof (take_match_copies x y old) as Hc. rewrite copies_cons. destruct (take_match y old) as [[e rest]|] eqn:E; cbn [zip_with].
  - intros [[=]|Hx]%elem_of_cons. specialize (IH _ Hx). lia.
  - intros [[= ->]|Hx]%elem_of_cons; [rewrite decide_True by done; lia|]. specialize (IH _ Hx). lia.
Qed.

Lemma max_number_spec x l : max_number x l ∈ x :: l ∧ ∀ y, y ∈ x :: l → (value y <= value (max_number x l))%Q.
Proof.
  unfold max_number. revert x. induction l as [|z l IH]; intros x; cbn.
  { split; [by left|]. intros y ->%list_elem_of_singleton. apply Qle_refl. }
  destruct (before (value x) (value z)) eqn:E.
  - apply before_lt in E. destruct (IH z) as [H1 H2]. split; [by right|]. intros y [->|Hy]%elem_of_cons; [|by apply H2].
    apply Qlt_le_weak. eapply Qlt_le_trans; [exact E|]. apply H2. by left.
  - assert (Hz : (value z <= value x)%Q). { apply Qnot_lt_le. intros H. apply before_lt in H. congruence. }
    destruct (IH x) as [H1 H2]. split; [set_solver|]. intros y [->|[->|Hy]%elem_of_cons]%elem_of_cons.
    + apply H2. by left.
    + eapply Qle_trans; [exact Hz|]. apply H2. by left.
    + apply H2. by right.
Qed.

Lemma valid_item_bounds x : valid_item x = true → (0 <= value (expiry x) <= inject_Z (10 ^ 13))%Q.
Proof. unfold valid_item, expiry. destruct (expires_at x); [|done]. cbn. by rewrite andb_true_iff, !Qle_bool_iff. Qed.

(** Rounding below [2 ^ 45], where all these numbers are, moves them by at most
    two thousandths. *)
Lemma fround_near q : (- inject_Z (3 * 10 ^ 13) <= q <= inject_Z (3 * 10 ^ 13))%Q → (q - (1 # 512) <= fround q <= q + (1 # 512))%Q.
Proof.
  intros [H1 H2]. assert (Hq : (Qabs q < inject_Z (2 ^ 45))%Q).
  { eapply Qle_lt_trans; [apply Qabs_Qle_condition; split; [exact H1|exact H2]|]. reflexivity. }
  pose proof (fround_error q 45 ltac:(lia) Hq) as He. change (Z.to_pos (2 ^ (54 - 45))) with 512%positive in He.
  apply Qabs_Qle_condition in He as [E1 E2]. lra.
Qed.

Lemma minus_near x n :
  (0 <= value x <= inject_Z (10 ^ 13))%Q → 60 ≤ n ≤ MAX_SECONDS →
  (value x - inject_Z n - (1 # 512) <= value (minus x n) <= value x - inject_Z n + (1 # 512))%Q.
Proof.
  intros [H1 H2] [N1 N2]. assert (B1 : (60 # 1 <= inject_Z n)%Q) by (unfold Qle; cbn; lia).
  assert (B2 : (inject_Z n <= 86400 # 1)%Q) by (unfold Qle; cbn; unfold MAX_SECONDS in N2; lia).
  destruct x as [m|q]; cbn [minus value] in *.
  - assert (E : (inject_Z (m - n) == inject_Z m - inject_Z n)%Q) by (unfold Z.sub; rewrite inject_Z_plus, inject_Z_opp; reflexivity). lra.
  - apply fround_near. change (inject_Z (10 ^ 13)) with (10000000000000 # 1)%Q in *. change (inject_Z (3 * 10 ^ 13)) with (30000000000000 # 1)%Q. lra.
Qed.

(** A new item is kept for no longer than the approved duration after the client was
    asked, and the grace period. *)
Lemma fresh_deadline_bound started x M seconds :
  (0 <= started <= inject_Z (10 ^ 13))%Q → 60 ≤ seconds ≤ MAX_SECONDS →
  valid_item x = true → (value (expiry x) <= value M)%Q → (0 <= value M <= inject_Z (10 ^ 13))%Q →
  (fresh_deadline started (minus M seconds) x <= started + inject_Z seconds + (60 # 1) + (1 # 128))%Q.
Proof.
  intros Hs Hn Hx Hle HM. apply valid_item_bounds in Hx. destruct (minus_near M seconds HM Hn) as [C1 C2].
  assert (B1 : (60 # 1 <= inject_Z seconds)%Q) by (unfold Qle; cbn; lia).
  assert (B2 : (inject_Z seconds <= 86400 # 1)%Q) by (unfold Qle; cbn; unfold MAX_SECONDS in Hn; lia).
  change (inject_Z (10 ^ 13)) with (10000000000000 # 1)%Q in *. unfold fresh_deadline.
  change (inject_Z SERVER_EXPIRY_GRACE_SECONDS) with (60 # 1)%Q.
  set (a := (started + value (expiry x))%Q). set (c := value (minus M seconds)) in *.
  assert (Ha : (a - (1 # 512) <= fround a <= a + (1 # 512))%Q).
  { apply fround_near. change (inject_Z (3 * 10 ^ 13)) with (30000000000000 # 1)%Q. unfold a. lra. }
  assert (Hb : (fround a - c - (1 # 512) <= fround (fround a - c) <= fround a - c + (1 # 512))%Q).
  { apply fround_near. change (inject_Z (3 * 10 ^ 13)) with (30000000000000 # 1)%Q. unfold a in *. lra. }
  set (b := fround (fround a - c)) in *.
  assert (Hd : (b + (60 # 1) - (1 # 512) <= fround (b + (60 # 1)) <= b + (60 # 1) + (1 # 512))%Q).
  { apply fround_near. change (inject_Z (3 * 10 ^ 13)) with (30000000000000 # 1)%Q. unfold a in *. lra. }
  unfold a in *. lra.
Qed.

Lemma zip_fill started c items ds x d :
  (x, d) ∈ zip items (fill started c <$> zip items ds) → (x, Some d) ∈ zip items ds ∨ (x, None) ∈ zip items ds ∧ d = fresh_deadline started c x.
Proof.
  revert ds. induction items as [|y items IH]; intros [|e ds]; cbn; [by intros ?%elem_of_nil..|].
  intros [[= -> ->]|H]%elem_of_cons.
  - destruct e as [d'|]; cbn; [left; by left|right; split; [by left|done]].
  - destruct (IH _ H) as [H1|[H1 ->]]; [left; by right|right; split; [by right|done]].
Qed.

(** The items of the entry before. *)
Definition stored (previous : option FunctionAuth) : list json := match previous with Some a => grants_of a.(a_auth) | None => [] end.

(** Every deadline is that of an equal item of the entry before, or belongs to a new
    item and is bounded. *)
Lemma deadlines_spec previous items started seconds x d :
  (∀ a, previous = Some a → entry_ok a) →
  (0 <= started <= inject_Z (10 ^ 13))%Q → 60 ≤ seconds ≤ MAX_SECONDS → Forall (λ x, valid_item x = true) items →
  (x, d) ∈ zip items (_deadlines previous items started seconds) →
  (∃ a prior, previous = Some a ∧ (prior, d) ∈ items_of a ∧ same prior x = true) ∨
  (copies x (stored previous) < copies x items)%nat ∧ (d <= started + inject_Z seconds + (60 # 1) + (1 # 128))%Q.
Proof.
  intros Ho Hs Hn Hv. unfold _deadlines. set (old := match previous with Some a => _ | None => _ end).
  set (ds := match_items items old). intros Hx.
  assert (H : ∃ c, (x, d) ∈ zip items (fill started c <$> zip items ds) ∧
            ((x, None) ∈ zip items ds → ∃ y l, expiry <$> fresh_items items ds = y :: l ∧ c = minus (max_number y l) seconds)).
  { destruct (expiry <$> fresh_items items ds) as [|y l] eqn:E.
    - exists (Int 0). split; [done|]. intros HN. exfalso. apply fmap_nil_inv in E. unfold fresh_items in E.
      apply fmap_nil_inv in E. apply (not_elem_of_nil (x, None : option Q)). rewrite <- E. by apply list_elem_of_filter.
    - eexists. split; [exact Hx|]. intros _. by exists y, l. }
  clear Hx. destruct H as (c & Hx & Hc). apply zip_fill in Hx as [Hx|[Hx ->]].
  - left. apply match_items_old in Hx as (prior & Hp & Es). unfold old in Hp. destruct previous as [a|]; [|by apply elem_of_nil in Hp].
    by exists a, prior.
  - right. split.
    { apply match_items_new in Hx. assert (Eo : old.*1 = stored previous); [|by rewrite Eo in Hx]. unfold old, stored.
      destruct previous as [a|]; [|done]. destruct (Ho a eq_refl) as [_ Hl]. apply fst_zip. lia. }
    destruct (Hc Hx) as (y & l & E & ->). destruct (max_number_spec y l) as [HM Hmax]. rewrite <- E in HM, Hmax.
    assert (Hin : x ∈ fresh_items items ds). { apply list_elem_of_fmap. exists (x, None). split; [done|]. by apply list_elem_of_filter. }
    assert (Hsub : ∀ z, z ∈ fresh_items items ds → valid_item z = true).
    { intros z Hz. apply list_elem_of_fmap in Hz as ([z' o] & -> & [_ Hz]%list_elem_of_filter). apply elem_of_zip_l in Hz.
      apply (proj1 (Forall_forall _ _) Hv). exact Hz. }
    apply fresh_deadline_bound; [done|done|by apply Hsub| |].
    + apply Hmax. by apply list_elem_of_fmap_2.
    + apply list_elem_of_fmap in HM as (z & -> & Hz). by apply valid_item_bounds, Hsub.
Qed.

Lemma deadlines_length previous items started seconds : length (_deadlines previous items started seconds) = length items.
Proof.
  unfold _deadlines. set (ds := match_items _ _). assert (length ds = length items) by apply match_items_length.
  destruct (expiry <$> _); rewrite length_fmap, length_zip; lia.
Qed.

Section history.
Context (float_repr : Q → string).

Lemma json_copy_Ok v w : _json_copy float_repr v = Ok w → w = v.
Proof. unfold _json_copy. destruct (_ <? _); [done|]. by intros [= <-]. Qed.

(** The document under a key, as it is handed to a client. *)
Definition document (k : fkey) (s : fstore) : res exn (option json) :=
  match s.(f_active) !! k with
  | Some a => match _json_copy float_repr a.(a_auth) with Ok v => Ok (Some v) | Err e => Err e end
  | None => Ok None
  end.

Lemma current_document now k s : (current float_repr now k s).1 = document k (_prune now s).
Proof. unfold current, document. by destruct (f_active _ !! _). Qed.

Lemma candidate_Ok m p seconds grant s c :
  _candidate float_repr m p seconds grant s = Ok c →
  c.(cd_key) = fkey_of p ∧ c.(cd_previous) = s.(f_active) !! fkey_of p ∧
  (∃ old, document (fkey_of p) s = Ok old ∧ grant old p.(r_request) seconds = Ok c.(cd_updated)) ∧
  _json_copy float_repr c.(cd_updated) = Ok c.(cd_updated) ∧
  is_Some (grants_list c.(cd_updated)) ∧ Forall (λ x, valid_item x = true) (grants_of c.(cd_updated)) ∧
  c.(cd_deadlines) = _deadlines c.(cd_previous) (grants_of c.(cd_updated)) m.(at_call) seconds.
Proof.
  unfold _candidate. intros H. fold (document (fkey_of p) s) in H.
  destruct (document (fkey_of p) s) as [old|] eqn:Eo; [|done].
  destruct (_json_copy float_repr (r_request p)) as [req|] eqn:Er; [|done]. apply json_copy_Ok in Er as ->.
  destruct (grant _ _ _) as [answer|] eqn:Eg; [|done]. destruct (_json_copy float_repr answer) as [copied|] eqn:Ec; [|done].
  pose proof (json_copy_Ok _ _ Ec) as ->. unfold _validated_auth in H. destruct (grants_list answer) as [l|] eqn:El; [|done].
  destruct (negb (forallb valid_item l)) eqn:Ev; [done|]. destruct (match _deadlines _ _ _ _ with [] => _ | _ => _ end); [done|].
  injection H as <-. cbn. split_and!; [done|done|by exists old|done|by eexists| |done]. unfold grants_of. rewrite El. cbn.
  apply negb_false_iff in Ev. apply Forall_forall. intros x Hx. rewrite forallb_forall in Ev. by apply Ev, list_elem_of_In.
Qed.

(** ** One step *)

Definition store_ok (s : fstore) : Prop := ∀ k a, s.(f_active) !! k = Some a → entry_ok a.

(** What is stored under a key afterwards was stored there before. *)
Definition descends (s s' : fstore) (k : fkey) : Prop :=
  ∀ a', s'.(f_active) !! k = Some a' →
    entry_ok a' ∧ ∃ a, s.(f_active) !! k = Some a ∧ ∀ x d, (x, d) ∈ items_of a' → (x, d) ∈ items_of a.

Lemma descends_same s s' k : store_ok s → s'.(f_active) !! k = s.(f_active) !! k → descends s s' k.
Proof. intros I E a' H. rewrite E in H. split; [by eapply I|]. by exists a'. Qed.

Lemma prune_active now s k a' :
  store_ok s → (_prune now s).(f_active) !! k = Some a' →
  entry_ok a' ∧ ∃ a, s.(f_active) !! k = Some a ∧ ∀ x d, (x, d) ∈ items_of a' → (x, d) ∈ items_of a ∧ (now < d)%Q.
Proof.
  intros I. unfold _prune. cbn. rewrite lookup_omap. destruct (f_active s !! k) as [a|] eqn:E; cbn; [|done]. intros H.
  destruct (prune_auth_Some now a a' (I _ _ E) H) as (H1 & _ & H2). split; [done|]. by exists a.
Qed.

Lemma prune_ok now s : store_ok s → store_ok (_prune now s).
Proof. intros I k a H. by apply (prune_active now s k a I) in H as [H _]. Qed.

Lemma prune_descends now s k : store_ok s → descends s (_prune now s) k.
Proof. intros I a' H. destruct (prune_active now s k a' I H) as (H1 & a & Ha & H2). split; [done|]. exists a. split; [done|]. intros x d Hx. by apply H2. Qed.

Lemma descends_trans s1 s2 s3 k : descends s1 s2 k → descends s2 s3 k → descends s1 s3 k.
Proof.
  intros H1 H2 a3 H3. destruct (H2 _ H3) as (O & a2 & E2 & K2). destruct (H1 _ E2) as (_ & a1 & E1 & K1).
  split; [done|]. exists a1. split; [done|]. intros x d Hx. by apply K1, K2.
Qed.

(** The client answered an approved request for this key with this item. *)
Definition granted_by (s : fstore) (o : op) (k : fkey) (x : json) (d : Q) : Prop :=
  ∃ m ticket seconds grant browser p old answer a,
    o = Approve m ticket seconds grant browser ∧ 60 ≤ seconds ≤ MAX_SECONDS ∧
    (pending m.(at_entry) ticket s).1 = Some p ∧ fkey_of p = k ∧
    (current float_repr m.(at_entry) k s).1 = Ok old ∧ grant old p.(r_request) seconds = Ok answer ∧
    x ∈ grants_of answer ∧ (copies x (from_option grants_of [] old) < copies x (grants_of answer))%nat ∧
    (exec float_repr s o).(f_active) !! k = Some a ∧ x ∈ grants_of a.(a_auth) ∧
    (d <= m.(at_call) + inject_Z seconds + (60 # 1) + (1 # 128))%Q.

Definition revokes (k : fkey) (o : op) : Prop :=
  match o with Revoke k' => k' = k | RevokeWorkspace ws => ws = k.1.1.1 | _ => False end.

(** The monotonic clock counts from zero and stays below ten to the thirteen. *)
Definition timely (o : op) : Prop :=
  match o with Approve m _ _ _ _ => (0 <= m.(at_call) <= inject_Z (10 ^ 13))%Q | _ => True end.

(** An approval fails and only prunes, or publishes what the client answered. *)
Lemma approve_cases m ticket seconds grant browser s :
  let s1 := _prune m.(at_entry) s in let s2 := _prune m.(at_return) s1 in
  (∃ e s0, approve float_repr m ticket seconds grant browser s = (Err e, s0) ∧ (s0 = s ∨ s0 = s1 ∨ s0 = s2)) ∨
  ∃ p c, 60 ≤ seconds ≤ MAX_SECONDS ∧ s1.(f_pending) !! ticket = Some p ∧
    _candidate float_repr m p seconds grant s1 = Ok c ∧ confirmed browser ticket seconds c s2 = true ∧
    (approve float_repr m ticket seconds grant browser s).2.(f_active) = omap (prune_auth m.(at_exit))
      (<[c.(cd_key) := {| a_auth := c.(cd_updated); a_deadlines := c.(cd_deadlines); a_revision := revision_of c.(cd_previous) + 1 |}]>
         s2.(f_active)).
Proof.
  unfold approve, bad_seconds. cbv zeta. set (s1 := _prune (at_entry m) s). set (s2 := _prune (at_return m) s1).
  destruct (negb ((60 <=? seconds) && (seconds <=? MAX_SECONDS))) eqn:Eb; [left; eexists _, _; by split; [|left]|].
  destruct (f_pending s1 !! ticket) as [p|] eqn:Ep; [|left; eexists _, _; by split; [|right; left]].
  destruct (_candidate float_repr m p seconds grant s1) as [c|] eqn:Ec; [|left; eexists _, _; by split; [|right; left]].
  destruct (bool_decide _ || _); [left; eexists _, _; by split; [|right; right]|].
  destruct (negb (confirmed _ _ _ _ _)) eqn:Ef; [left; eexists _, _; by split; [|right; right]|].
  right. exists p, c. bools. split_and!; [lia..|done|done|done|done].
Qed.

(** Every other operation keeps, prunes or revokes. *)
Lemma other_descends s o k :
  store_ok s → match o with Approve _ _ _ _ _ => False | _ => True end → descends s (exec float_repr s o) k.
Proof.
  intros I. pose proof (λ now, prune_descends now s k I) as Hp. pose proof (λ s', descends_same s s' k I) as Hs.
  destruct o as [now ticket ws conv target function req display reason| |now k'| |now ticket valid| |m ticket browser seconds grant| |k'|ws];
    intros Ho; cbn [exec]; try done; try apply Hp.
  - unfold request. destruct (_ || _ || _ || _); [by apply Hs|]. destruct (_json_copy _ req); [|by apply Hs].
    destruct (_json_copy _ display); [|by apply Hs]. destruct (_ <=? _); apply Hp.
  - unfold current. destruct (f_active (_prune _ _) !! _); apply Hp.
  - unfold attempt_start. destruct (f_pending _ !! _); apply Hp.
  - unfold attempt_finish. destruct (f_pending _ !! _); [|apply Hp]. destruct valid; apply Hp.
  - unfold prepare_confirmation. destruct (bad_seconds _); [by apply Hs|]. destruct (f_pending _ !! _); [|apply Hp].
    destruct (_candidate _ _ _ _ _ _); [|apply Hp]. destruct (Qle_bool _ _); apply Hp.
  - unfold get_confirmation. destruct (f_confirmations _ !! _); apply Hp.
  - intros a' H. unfold revoke in H. cbn in H. apply lookup_delete_Some in H as [_ H]. split; [by eapply I|]. by exists a'.
  - intros a' H. unfold revoke_workspace in H. cbn in H. apply map_lookup_filter_Some in H as [H _]. split; [by eapply I|]. by exists a'.
Qed.

Lemma revoked_gone s o k a : (exec float_repr s o).(f_active) !! k = Some a → ¬ revokes k o.
Proof.
  destruct o; cbn; try (by intros _ []).
  - by intros [Hne _]%lookup_delete_Some.
  - intros [_ Hne]%map_lookup_filter_Some. cbn in Hne. by intros ->.
Qed.

Lemma published_items m c p seconds grant s k a' x d :
  store_ok s → 60 ≤ seconds ≤ MAX_SECONDS → (0 <= m.(at_call) <= inject_Z (10 ^ 13))%Q →
  _candidate float_repr m p seconds grant (_prune m.(at_entry) s) = Ok c → k = c.(cd_key) →
  prune_auth m.(at_exit) {| a_auth := c.(cd_updated); a_deadlines := c.(cd_deadlines); a_revision := revision_of c.(cd_previous) + 1 |} = Some a' →
  entry_ok a' ∧ ((x, d) ∈ items_of a' →
    x ∈ grants_of a'.(a_auth) ∧ x ∈ grants_of c.(cd_updated) ∧
    ((∃ a y, s.(f_active) !! k = Some a ∧ (y, d) ∈ items_of a ∧ same y x = true) ∨
     (copies x (stored c.(cd_previous)) < copies x (grants_of c.(cd_updated)))%nat ∧ (d <= m.(at_call) + inject_Z seconds + (60 # 1) + (1 # 128))%Q)).
Proof.
  intros I Hn Ht Ec -> Hp. destruct (candidate_Ok _ _ _ _ _ _ Ec) as (Ek & Ev & _ & _ & Hs & Hv & Ed).
  apply prune_auth_Some in Hp as (Ho & _ & Hi).
  2: { split; [done|]. cbn. by rewrite Ed, deadlines_length. }
  split; [done|]. intros Hx. split; [by eapply elem_of_zip_l|]. destruct (Hi _ _ Hx) as [Hx' _]. unfold items_of in Hx'. cbn in Hx'.
  split; [by eapply elem_of_zip_l|]. rewrite Ed in Hx'.
  apply deadlines_spec in Hx' as [(a & prior & Ea & Hq & Es)|Hb]; [|by right| |done..].
  2: { intros a Ha. rewrite Ev in Ha. by eapply prune_ok. }
  left.
  rewrite Ev, <- Ek in Ea. destruct (prune_active _ _ _ _ I Ea) as (_ & a0 & Ha & Hsub). exists a0, prior. split_and!; [done|by apply Hsub|done].
Qed.

(** Where an item comes from. *)
Lemma exec_items s o k a' :
  store_ok s → timely o → (exec float_repr s o).(f_active) !! k = Some a' →
  entry_ok a' ∧ ∀ x d, (x, d) ∈ items_of a' →
    (∃ a y, s.(f_active) !! k = Some a ∧ (y, d) ∈ items_of a ∧ same y x = true) ∨ granted_by s o k x d.
Proof.
  intros I Ht H.
  assert (Hd : descends s (exec float_repr s o) k → entry_ok a' ∧ ∀ x d, (x, d) ∈ items_of a' →
     (∃ a y, s.(f_active) !! k = Some a ∧ (y, d) ∈ items_of a ∧ same y x = true) ∨ granted_by s o k x d).
  { intros D. destruct (D _ H) as (Ho & a & Ha & Hi). split; [done|]. intros x d Hx. left. exists a, x. split_and!; [done|by apply Hi|apply same_refl]. }
  destruct o as [| | | | |m ticket seconds grant browser| | | |]; try (by apply Hd, other_descends). cbn [timely] in Ht.
  pose proof (prune_ok (at_entry m) s I) as I1. pose proof (prune_ok (at_return m) _ I1) as I2.
  assert (D2 : descends s (_prune (at_return m) (_prune (at_entry m) s)) k) by (eapply descends_trans; by apply prune_descends).
  destruct (approve_cases m ticket seconds grant browser s) as [(e & s0 & E & Hs)|(p & c & Hn & Ep & Ec & _ & Ea)].
  { apply Hd. cbn [exec]. rewrite E. destruct Hs as [->|[->| ->]]; [by apply descends_same|by apply prune_descends|done]. }
  cbn [exec] in H, Hd. destruct (decide (k = cd_key c)) as [Hk|Hk].
  - pose proof H as H'. rewrite Ea, Hk, lookup_omap, lookup_insert_eq in H. cbn in H.
    pose proof (λ x d, published_items m c p seconds grant s k a' x d I Hn Ht Ec Hk H) as Hi.
    split; [apply (Hi JNull 0%Q)|]. intros x d Hx. destruct (Hi x d) as (_ & [Hx1 (Hx2 & [Hl|Hb])]%(λ f, f Hx)); [by left|right]. destruct Hb as [Hnew Hb].
    destruct (candidate_Ok _ _ _ _ _ _ Ec) as (Ek & Ev & (old & Eo & Eg) & _).
    exists m, ticket, seconds, grant, browser, p, old, (cd_updated c), a'. split_and!; try done.
    + lia.
    + lia.
    + by rewrite Hk.
    + by rewrite current_document, Hk, Ek.
    + rewrite Ev in Hnew. unfold document in Eo. unfold stored in Hnew. destruct (f_active _ !! fkey_of p) as [b|]; [|by injection Eo as <-].
      destruct (_json_copy float_repr (a_auth b)) as [w|] eqn:Ew; [|done]. apply json_copy_Ok in Ew as ->. by injection Eo as <-.
  - apply Hd. intros b Hb. cbn [exec] in Hb. rewrite Ea, lookup_omap, lookup_insert_ne in Hb by done.
    apply (descends_trans _ _ _ _ D2 (prune_descends (at_exit m) _ k I2)). unfold _prune at 1. cbn [f_active]. by rewrite lookup_omap.
Qed.

(** ** Histories *)

Lemma run_snoc ops o : run float_repr (ops ++ [o]) = exec float_repr (run float_repr ops) o.
Proof. apply foldl_snoc. Qed.

Lemma history_items ops :
  Forall timely ops →
  store_ok (run float_repr ops) ∧
  ∀ k a x d, (run float_repr ops).(f_active) !! k = Some a → (x, d) ∈ items_of a →
    ∃ ops1 o ops2 y, ops = ops1 ++ o :: ops2 ∧ Forall (λ o, ¬ revokes k o) ops2 ∧
      granted_by (run float_repr ops1) o k y d ∧ same y x = true.
Proof.
  induction ops as [|o ops IH] using rev_ind; intros Ht.
  { split; [intros k a|intros k a x d]; cbn; by rewrite lookup_empty. }
  apply Forall_app in Ht as [Ht [Ho _]%Forall_cons]. destruct (IH Ht) as [I Hi]. rewrite run_snoc.
  split; [intros k a Ha; by apply (exec_items _ o k a I Ho) in Ha as [Ha _]|]. intros k a x d Ha Hx.
  destruct (exec_items _ o k a I Ho Ha) as [_ Hc]. destruct (Hc x d Hx) as [(a0 & y & Ha0 & Hy & Es)|Hg].
  - destruct (Hi _ _ _ _ Ha0 Hy) as (ops1 & o1 & ops2 & z & -> & Hr & Hg & Ez).
    exists ops1, o1, (ops2 ++ [o]), z. split_and!; [by rewrite <- app_assoc| |done|by eapply same_trans].
    apply Forall_app. split; [done|]. apply Forall_singleton. by eapply revoked_gone.
  - exists ops, o, [], x. split_and!; [done|by apply Forall_nil|done|apply same_refl].
Qed.

(** C24: an authorization that is handed out was granted for this, and its time is not
    up: every item that [current] returns equals one that the client gave in answer
    to an approved request for the same workspace, conversation, target and function,
    where it was new (the document held fewer of it before), which was published then
    and not revoked since, and no more than the approved duration and the grace period
    have passed since the client was asked: later approvals that repeat the item and
    the clock of the client do not extend it. *)
Theorem function_grant_bounded ops t k v x :
  Forall timely ops → (current float_repr t k (run float_repr ops)).1 = Ok (Some v) → x ∈ grants_of v →
  ∃ ops1 m ticket seconds grant browser ops2 p old answer y a,
    ops = ops1 ++ Approve m ticket seconds grant browser :: ops2 ∧ Forall (λ o, ¬ revokes k o) ops2 ∧ 60 ≤ seconds ≤ MAX_SECONDS ∧
    (pending m.(at_entry) ticket (run float_repr ops1)).1 = Some p ∧ fkey_of p = k ∧
    (current float_repr m.(at_entry) k (run float_repr ops1)).1 = Ok old ∧
    grant old p.(r_request) seconds = Ok answer ∧ y ∈ grants_of answer ∧ same y x = true ∧
    (copies y (from_option grants_of [] old) < copies y (grants_of answer))%nat ∧
    (run float_repr (ops1 ++ [Approve m ticket seconds grant browser])).(f_active) !! k = Some a ∧ y ∈ grants_of a.(a_auth) ∧
    (t < m.(at_call) + inject_Z seconds + (60 # 1) + (1 # 128))%Q.
Proof.
  intros Ht Hc Hx. destruct (history_items ops Ht) as [I Hi]. rewrite current_document in Hc. unfold document in Hc.
  destruct (f_active (_prune t (run float_repr ops)) !! k) as [a|] eqn:Ea; [|done].
  destruct (_json_copy float_repr (a_auth a)) as [w|] eqn:Ej; [|done]. apply json_copy_Ok in Ej as ->. injection Hc as <-.
  destruct (prune_active t _ k a I Ea) as ([_ Hl] & a0 & Ha0 & Hsub).
  assert (Hd : ∃ d, (x, d) ∈ items_of a).
  { apply list_elem_of_lookup in Hx as [i Hx]. destruct (lookup_lt_is_Some_2 a.(a_deadlines) i) as [d Hd]; [rewrite <- Hl; by eapply lookup_lt_Some|].
    exists d. apply list_elem_of_lookup. exists i. apply lookup_zip_with_Some. by exists x, d. }
  destruct Hd as [d Hd]. destruct (Hsub _ _ Hd) as [Hd0 Hlt].
  destruct (Hi _ _ _ _ Ha0 Hd0) as (ops1 & o & ops2 & y & -> & Hr & (m & ticket & seconds & grant & browser & p & old & answer & b & -> & Hn & Hp & Hk & Ho & Hg & Hy & Hnew & Hb & Hyb & Hle) & Es).
  exists ops1, m, ticket, seconds, grant, browser, ops2, p, old, answer, y, b.
  split_and!; try done; [lia..|by rewrite run_snoc|]. eapply Qlt_le_trans; [exact Hlt|done].
Qed.

(** ** Confirmations *)

Definition same_request (p q : FunctionRequest) : Prop := fkey_of p = fkey_of q ∧ p.(r_request) = q.(r_request).

Definition issues (o : op) : option string := match o with Request _ ticket _ _ _ _ _ _ _ => Some ticket | _ => None end.
Definition issued (ops : list op) : list string := omap issues ops.

Lemma prune_pending now s ticket p : (_prune now s).(f_pending) !! ticket = Some p → s.(f_pending) !! ticket = Some p.
Proof. cbn. by intros [H _]%map_lookup_filter_Some. Qed.

Lemma prune_confirmations now s ticket x :
  (_prune now s).(f_confirmations) !! ticket = Some x → s.(f_confirmations) !! ticket = Some x.
Proof. cbn. by intros [H _]%map_lookup_filter_Some. Qed.

(** A request under a ticket stays what it is. *)
Lemma exec_pending s o ticket p :
  (exec float_repr s o).(f_pending) !! ticket = Some p →
  issues o = Some ticket ∨ ∃ p0, s.(f_pending) !! ticket = Some p0 ∧ same_request p0 p.
Proof.
  assert (Hs : s.(f_pending) !! ticket = Some p → issues o = Some ticket ∨ ∃ p0, s.(f_pending) !! ticket = Some p0 ∧ same_request p0 p) by (right; by exists p).
  assert (Hp : ∀ now, (_prune now s).(f_pending) !! ticket = Some p → issues o = Some ticket ∨ ∃ p0, s.(f_pending) !! ticket = Some p0 ∧ same_request p0 p)
    by (intros now H; by apply Hs, (prune_pending now)).
  destruct o as [now u ws conv target function req display reason| |now k| |now u valid|m u seconds grant browser|m u browser seconds grant| |k|ws]; cbn [exec].
  - unfold request. destruct (_ || _ || _ || _); [done|]. destruct (_json_copy _ req); [|done].
    destruct (_json_copy _ display); [|done]. destruct (_ <=? _); [apply Hp|]. cbn [snd f_pending].
    intros [[-> _]|[_ H]]%lookup_insert_Some; [by left|by eapply Hp].
  - apply Hp.
  - unfold current. destruct (f_active _ !! _); apply Hp.
  - unfold attempt_start. destruct (f_pending (_prune _ _) !! _); apply Hp.
  - unfold attempt_finish. destruct (f_pending (_prune now s) !! u) as [r|] eqn:E; [|apply Hp]. destruct valid; [apply Hp|]. cbn [snd f_pending].
    destruct (_ <=? _); [intros [_ H]%lookup_delete_Some; by eapply Hp|].
    intros [[-> <-]|[_ H]]%lookup_insert_Some; [|by eapply Hp]. right. exists r. split; [by eapply prune_pending|done].
  - unfold approve. destruct (bad_seconds _); [done|]. destruct (f_pending (_prune (at_entry m) s) !! u); [|apply Hp].
    destruct (_candidate _ _ _ _ _ _); [|apply Hp].
    destruct (bool_decide _ || _); [intros H%prune_pending; by eapply Hp|]. destruct (negb _); [intros H%prune_pending; by eapply Hp|].
    cbn [snd]. intros H%prune_pending. cbn [f_pending] in H. apply lookup_delete_Some in H as [_ H%prune_pending]. by eapply Hp.
  - unfold prepare_confirmation. destruct (bad_seconds _); [done|]. destruct (f_pending (_prune _ _) !! _); [|apply Hp].
    destruct (_candidate _ _ _ _ _ _); [|apply Hp]. destruct (Qle_bool _ _); apply Hp.
  - unfold get_confirmation. destruct (f_confirmations (_prune _ _) !! _); apply Hp.
  - cbn. intros [H _]%map_lookup_filter_Some. by apply Hs.
  - cbn. intros [H _]%map_lookup_filter_Some. by apply Hs.
Qed.

(** Proposals are recorded by [prepare_confirmation] only, as it shows them. *)
Lemma exec_confirmations s o ticket x :
  (exec float_repr s o).(f_confirmations) !! ticket = Some x →
  s.(f_confirmations) !! ticket = Some x ∨
  ∃ m grant p, o = Prepare m ticket x.(c_browser) x.(c_seconds) grant ∧ (pending m.(at_entry) ticket s).1 = Some p ∧
    (prepare_confirmation float_repr m ticket x.(c_browser) x.(c_seconds) grant s).1 = Ok x.(c_auth).
Proof.
  set (G := _ ∨ _). assert (Hs : s.(f_confirmations) !! ticket = Some x → G) by (by left).
  assert (Hp : ∀ now, (_prune now s).(f_confirmations) !! ticket = Some x → G) by (intros now H; by apply Hs, (prune_confirmations now)).
  destruct o as [now u ws conv target function req display reason| |now k| |now u valid|m u seconds grant browser|m u browser seconds grant| |k|ws]; cbn [exec].
  - unfold request. destruct (_ || _ || _ || _); [done|]. destruct (_json_copy _ req); [|done].
    destruct (_json_copy _ display); [|done]. destruct (_ <=? _); apply Hp.
  - apply Hp.
  - unfold current. destruct (f_active _ !! _); apply Hp.
  - unfold attempt_start. destruct (f_pending _ !! _); apply Hp.
  - unfold attempt_finish. destruct (f_pending _ !! _); [|apply Hp]. destruct valid; apply Hp.
  - unfold approve. destruct (bad_seconds _); [done|]. destruct (f_pending (_prune (at_entry m) s) !! u); [|apply Hp].
    destruct (_candidate _ _ _ _ _ _); [|apply Hp].
    destruct (bool_decide _ || _); [intros H%prune_confirmations; by eapply Hp|]. destruct (negb _); [intros H%prune_confirmations; by eapply Hp|].
    cbn [snd]. intros H%prune_confirmations. cbn [f_confirmations] in H. apply lookup_delete_Some in H as [_ H%prune_confirmations]. by eapply Hp.
  - unfold prepare_confirmation. destruct (bad_seconds seconds) eqn:Eb; [done|].
    destruct (f_pending (_prune (at_entry m) s) !! u) as [p|] eqn:Ep; [|apply Hp].
    destruct (_candidate float_repr m p seconds grant (_prune (at_entry m) s)) as [c|] eqn:Ec; [|apply Hp].
    destruct (Qle_bool (r_deadline p) (at_return m)) eqn:Eq; [apply Hp|]. cbn [snd f_confirmations].
    intros [[-> <-]|[_ H]]%lookup_insert_Some; [|by eapply Hp]. right. exists m, grant, p. cbn [c_browser c_seconds c_auth].
    split_and!; [done|done|]. unfold prepare_confirmation. rewrite Eb, Ep, Ec, Eq. cbn [fst]. by destruct (candidate_Ok _ _ _ _ _ _ Ec) as (_ & _ & _ & E & _).
  - unfold get_confirmation. destruct (f_confirmations (_prune _ s) !! _); apply Hp.
  - cbn. intros [H _]%map_lookup_filter_Some. by apply Hs.
  - cbn. intros [H _]%map_lookup_filter_Some. by apply Hs.
Qed.

(** The proposal was shown to its browser, for the request that is pending. *)
Definition shown (ops : list op) (ticket : string) (x : confirmation) : Prop :=
  ∃ ops1 m grant ops2 p0, ops = ops1 ++ Prepare m ticket x.(c_browser) x.(c_seconds) grant :: ops2 ∧
    (pending m.(at_entry) ticket (run float_repr ops1)).1 = Some p0 ∧
    (prepare_confirmation float_repr m ticket x.(c_browser) x.(c_seconds) grant (run float_repr ops1)).1 = Ok x.(c_auth) ∧
    ∀ p, (run float_repr ops).(f_pending) !! ticket = Some p → same_request p0 p.

Lemma issued_snoc ops o : issued (ops ++ [o]) = issued ops ++ match issues o with Some t => [t] | None => [] end.
Proof. unfold issued. rewrite omap_app. cbn. by destruct (issues o). Qed.

Lemma history_pending ops ticket p : (run float_repr ops).(f_pending) !! ticket = Some p → ticket ∈ issued ops.
Proof.
  revert p. induction ops as [|o ops IH] using rev_ind; intros p; [cbn; by rewrite lookup_empty|].
  rewrite run_snoc, issued_snoc. intros [E|(p0 & Hp & _)]%exec_pending; apply elem_of_app.
  - right. rewrite E. by left.
  - left. by eapply IH.
Qed.

Lemma history_shown ops ticket x :
  NoDup (issued ops) → (run float_repr ops).(f_confirmations) !! ticket = Some x → ticket ∈ issued ops ∧ shown ops ticket x.
Proof.
  revert x. induction ops as [|o ops IH] using rev_ind; intros x; [cbn; by rewrite lookup_empty|].
  rewrite run_snoc, issued_snoc. intros (Hn & Hd & _)%NoDup_app Hx.
  apply exec_confirmations in Hx as [Hx|(m & grant & p & -> & Hp & Hr)].
  - destruct (IH x Hn Hx) as [Ht (ops1 & m & grant & ops2 & p0 & -> & Hp & Hr & Hs)]. split; [by apply elem_of_app; left|].
    exists ops1, m, grant, (ops2 ++ [o]), p0. split_and!; [by rewrite <- app_assoc|done|done|]. intros p. rewrite run_snoc.
    intros [E|(q & Hq & [E1 E2])]%exec_pending.
    + destruct (Hd _ Ht). rewrite E. by left.
    + destruct (Hs _ Hq) as [E3 E4]. split; congruence.
  - assert (Hq : (run float_repr ops).(f_pending) !! ticket = Some p) by exact (prune_pending _ _ _ _ Hp).
    split; [apply elem_of_app; left; by eapply history_pending|]. exists ops, m, grant, [], p. split_and!; [done..|].
    intros q. rewrite run_snoc. intros [E|(p0 & Hp0 & Es)]%exec_pending; [done|]. congruence.
Qed.

(** C35: a confirmed approval stores what was confirmed: when an approval by a browser
    succeeds, that browser was shown, for the same request and duration, a proposal
    that equals the answer of the client now in everything but its expiry times. *)
Theorem function_confirmation_shown ops m ticket seconds grant browser r s' :
  NoDup (issued ops) →
  approve float_repr m ticket seconds grant (Some browser) (run float_repr ops) = (Ok r, s') →
  ∃ ops1 m0 grant0 ops2 p0 seen p old answer,
    ops = ops1 ++ Prepare m0 ticket browser seconds grant0 :: ops2 ∧
    (pending m0.(at_entry) ticket (run float_repr ops1)).1 = Some p0 ∧
    (prepare_confirmation float_repr m0 ticket browser seconds grant0 (run float_repr ops1)).1 = Ok seen ∧
    (pending m.(at_entry) ticket (run float_repr ops)).1 = Some p ∧ same_request p0 p ∧
    (current float_repr m.(at_entry) (fkey_of p) (run float_repr ops)).1 = Ok old ∧
    grant old p.(r_request) seconds = Ok answer ∧ same (_semantic_auth seen) (_semantic_auth answer) = true ∧
    s'.(f_active) !! fkey_of p = prune_auth m.(at_exit)
      {| a_auth := answer; a_deadlines := _deadlines ((_prune m.(at_entry) (run float_repr ops)).(f_active) !! fkey_of p)
                             (grants_of answer) m.(at_call) seconds;
         a_revision := revision_of ((_prune m.(at_entry) (run float_repr ops)).(f_active) !! fkey_of p) + 1 |}.
Proof.
  intros Hn Ha. destruct (approve_cases m ticket seconds grant (Some browser) (run float_repr ops)) as [(e & s0 & E & _)|(p & c & _ & Ep & Ec & Ef & Ea)]; [congruence|].
  rewrite Ha in Ea. cbn [snd] in Ea. destruct (candidate_Ok _ _ _ _ _ _ Ec) as (Ek & Ev & (old & Eo & Eg) & _ & _ & _ & Ed).
  cbn [confirmed] in Ef. destruct (f_confirmations _ !! ticket) as [x|] eqn:Ex; [|done]. bools. destruct Ef as [[[Eb Es] _] Hsame].
  apply String.eqb_eq in Eb as <-. subst seconds. apply prune_confirmations, prune_confirmations in Ex.
  destruct (history_shown ops ticket x Hn Ex) as [_ (ops1 & m0 & grant0 & ops2 & p0 & E & Hp0 & Hr & Hq)].
  exists ops1, m0, grant0, ops2, p0, (c_auth x), p, old, (cd_updated c). split_and!; try done.
  - by eapply Hq, prune_pending.
  - by rewrite current_document.
  - rewrite Ea, lookup_omap, <- Ek, lookup_insert_eq. cbn. by rewrite Ed, Ev, Ek.
Qed.
End history.

(** ** A sample: an approval of ten minutes, confirmed, and a second one that keeps it *)

Definition demo_item (path : string) (expires : number) : json :=
  JObj [("path", JStr path); ("expires_at", match expires with Int n => JInt n | Float q => JFloat q end)]%string.
Definition demo_client (answer : list json) : client := λ _ _ _, Ok (JObj [("version", JInt 1); ("grants", JList answer)]%string).
Definition demo_moments (t : Q) : moments := {| at_entry := t; at_call := t; at_check := λ _, t; at_return := t; at_exit := t |}.
Definition demo_repr (_ : Q) : string := "1.5".
Definition demo_key : fkey := ("app", 0, "laptop", "files.read")%string.
Definition demo_ask (now : Q) (ticket : string) : op :=
  Request now ticket "app" 0 "laptop" "files.read" (JObj [("path", JStr "/data")])%string JNull "".
Definition demo_first : client := demo_client [demo_item "/data" (Int 5000600)].
Definition demo_both : client := demo_client [demo_item "/logs" (Float (10000201 # 2)); demo_item "/data" (Float 5000600)].
Definition demo_ops : list op :=
  [demo_ask 10 "T1"; AttemptStart 11 "T1"; AttemptFinish 12 "T1" true; Prepare (demo_moments 12) "T1" "fox" 600 demo_first;
   Approve (demo_moments 20) "T1" 600 demo_first (Some "fox"%string); demo_ask 30 "T2"]%string.
Definition demo_later : list op := demo_ops ++ [Approve (demo_moments 40) "T2" 60 demo_both None]%string.

(** The kept item ends 660 seconds after its own approval, the new one 120 seconds
    after the second. *)
Example demo_deadlines :
  a_deadlines <$> (run demo_repr demo_later).(f_active) !! demo_key = Some [160%Q; 680%Q]
  ∧ (current demo_repr 170 demo_key (run demo_repr demo_later)).1 =
      Ok (Some (JObj [("version", JInt 1); ("grants", JList [demo_item "/data" (Float 5000600)])]%string))
  ∧ (current demo_repr 680 demo_key (run demo_repr demo_later)).1 = Ok None.
Proof. vm_compute. split_and!; reflexivity. Qed.

Lemma function_grant_bounded_witness :
  ∃ ops1 m ticket seconds grant browser ops2, demo_later = ops1 ++ Approve m ticket seconds grant browser :: ops2
    ∧ Forall (λ o, ¬ revokes demo_key o) ops2 ∧ (170 < m.(at_call) + inject_Z seconds + (60 # 1) + (1 # 128))%Q.
Proof.
  destruct (function_grant_bounded demo_repr demo_later 170 demo_key
    (JObj [("version", JInt 1); ("grants", JList [demo_item "/data" (Float 5000600)])]%string) (demo_item "/data" (Float 5000600)))
    as (ops1 & m & ticket & seconds & grant & browser & ops2 & p & old & answer & y & a & E & Hr & _ & _ & _ & _ & _ & _ & _ & _ & _ & _ & Hlt).
  - repeat constructor; done.
  - vm_compute. reflexivity.
  - by left.
  - by exists ops1, m, ticket, seconds, grant, browser, ops2.
Defined.

Definition demo_prepared : list op := take 4 demo_ops.

Lemma function_confirmation_shown_witness :
  ∃ ops1 m0 grant0 ops2 seen, demo_prepared = ops1 ++ Prepare m0 "T1" "fox" 600 grant0 :: ops2 ∧
    (prepare_confirmation demo_repr m0 "T1" "fox" 600 grant0 (run demo_repr ops1)).1 = Ok seen.
Proof.
  destruct (function_confirmation_shown demo_repr demo_prepared (demo_moments 20) "T1" 600 demo_first "fox"
    (Some (JObj [("version", JInt 1); ("grants", JList [demo_item "/data" (Int 5000600)])]%string))
    (approve demo_repr (demo_moments 20) "T1" 600 demo_first (Some "fox"%string) (run demo_repr demo_prepared)).2)
    as (ops1 & m0 & grant0 & ops2 & p0 & seen & p & old & answer & E & _ & Hs & _).
  - repeat constructor; set_solver.
  - apply injective_projections; [vm_compute; reflexivity|reflexivity].
  - by exists ops1, m0, grant0, ops2, seen.
Defined.
