(* ===== verification/TaskOutput.v ===== *)
(** * TaskOutput: the output of shell tasks

    Models, from src/openkapsel/execution/tasks.py, the bounded buffer that keeps the
    tail of an output stream and the loop that copies a pipe into it and hides the
    command line of the sandbox launcher; from execution/task_history.py the view of
    an archived stream; and from server_runtime/task_http.py the event stream that
    follows a task.  A pipe is the list of chunks its reads return.  The decoded text
    next to the Base64 form of a chunk is left out. *)

From Stdlib Require Import ZArith Lia Ascii String.
From stdpp Require Import base tactics list list_numbers.
From S2P Require Import Prelude Hashing.

Local Open Scope Z_scope.

Definition size (l : bytes) : Z := Z.of_nat (length l).

(** ** Buffers *)

Record BoundedOutput := { o_limit : Z; o_data : bytes; o_dropped : Z }.

Definition new_output (limit : Z) : BoundedOutput := {| o_limit := limit; o_data := []; o_dropped := 0 |}.

Definition append (chunk : bytes) (o : BoundedOutput) : BoundedOutput :=
  let data := o.(o_data) ++ chunk in
  let overflow := size data - o.(o_limit) in
  if 0 <? overflow
  then {| o_limit := o.(o_limit); o_data := drop (Z.to_nat overflow) data; o_dropped := o.(o_dropped) + overflow |}
  else {| o_limit := o.(o_limit); o_data := data; o_dropped := o.(o_dropped) |}.

Definition snapshot_bytes (o : BoundedOutput) : bytes * Z := (o.(o_data), o.(o_dropped)).

(** [data[i:j]] for [0 <= i]; a negative [j] counts from the end. *)
Definition py_slice (l : bytes) (i j : Z) : bytes :=
  let j := if j <? 0 then Z.max 0 (size l + j) else j in take (Z.to_nat (j - i)) (drop (Z.to_nat i) l).

Record read_result := { rd_chunk : bytes; rd_offset : Z; rd_next : Z; rd_end : Z; rd_gap : bool }.

Definition read_window (data : bytes) (dropped offset limit : Z) : read_result :=
  let start := dropped in
  let stop := start + size data in
  let actual := Z.min (Z.max offset start) stop in
  let relative := actual - start in
  let chunk := py_slice data relative (relative + limit) in
  {| rd_chunk := chunk; rd_offset := actual; rd_next := actual + size chunk; rd_end := stop; rd_gap := offset <? start |}.

Definition read_from (offset limit : Z) (o : BoundedOutput) : read_result := read_window o.(o_data) o.(o_dropped) offset limit.

(** [ArchivedOutput]: the same view of what was saved. *)
Record ArchivedOutput := { ao_data : bytes; ao_dropped : Z }.
Definition archive (o : BoundedOutput) : ArchivedOutput := {| ao_data := o.(o_data); ao_dropped := o.(o_dropped) |}.
Definition read_archived (offset limit : Z) (o : ArchivedOutput) : read_result := read_window o.(ao_data) o.(ao_dropped) offset limit.

(** ** Copying a pipe *)

Definition text_bytes (s : string) : bytes := utf8 s.

Definition _SANDBOX_STDERR_BUFFER_LIMIT : Z := 256 * 1024.
Definition _SANDBOX_LAUNCHERS : list bytes := text_bytes <$> ["bwrap"; "rootlesskit"; "cgroup_exec.py"]%string.
Definition _SANDBOX_LAUNCH_ARGUMENTS : list bytes :=
  text_bytes <$> ["--ro-bind"; "--bind"; "--unshare-user"; "--unshare-pid"; "--cap-drop"; "--die-with-parent"]%string.
Definition _SANDBOX_LAUNCH_REDACTION : bytes := text_bytes "[workspace] sandbox launcher error details redacted".

Fixpoint starts_with (p l : bytes) : bool :=
  match p, l with [], _ => true | a :: p', b :: l' => (a =? b) && starts_with p' l' | _, [] => false end.

(** [p in l] *)
Fixpoint contains (p l : bytes) : bool :=
  starts_with p l || match l with [] => false | _ :: l' => contains p l' end.

Definition _looks_like_sandbox_launch (line : bytes) : bool :=
  existsb (λ i, contains i line) _SANDBOX_LAUNCHERS &&
  (2 <=? Z.of_nat (length (filter (λ i, contains i line = true) _SANDBOX_LAUNCH_ARGUMENTS))).

Definition newline : Z := 10.
Definition ends_line (line : bytes) : bool := match last line with Some c => c =? newline | None => false end.

(** [append_line] *)
Definition shown_line (line : bytes) : bytes :=
  if _looks_like_sandbox_launch line then _SANDBOX_LAUNCH_REDACTION ++ (if ends_line line then [newline] else []) else line.

(** The bytes up to and including the first newline, and the rest. *)
Fixpoint cut_line (l : bytes) : option (bytes * bytes) :=
  match l with
  | [] => None
  | c :: l' => if c =? newline then Some ([c], l')
               else match cut_line l' with Some (line, rest) => Some (c :: line, rest) | None => None end
  end.

(** The inner loop: all complete lines of [pending], each shown or, the first one
    after an oversized one, discarded. *)
Fixpoint take_lines (fuel : nat) (pending : bytes) (discarding : bool) (o : BoundedOutput) : bytes * bool * BoundedOutput :=
  match fuel with
  | 0%nat => (pending, discarding, o)
  | S fuel' =>
      match cut_line pending with
      | None => (pending, discarding, o)
      | Some (line, rest) => take_lines fuel' rest false (if discarding then o else append (shown_line line) o)
      end
  end.

(** What happens when an unfinished line outgrows the buffer. *)
Definition relieve (pending : bytes) (discarding : bool) (o : BoundedOutput) : bytes * bool * BoundedOutput :=
  let pending := if discarding && (_SANDBOX_STDERR_BUFFER_LIMIT <? size pending) then [] else pending in
  if _SANDBOX_STDERR_BUFFER_LIMIT <? size pending then
    if _looks_like_sandbox_launch pending then ([], true, append _SANDBOX_LAUNCH_REDACTION o)
    else let flush := Z.to_nat (size pending - _SANDBOX_STDERR_BUFFER_LIMIT / 2) in
         (drop flush pending, discarding, append (take flush pending) o)
  else (pending, discarding, o).

Fixpoint copy_redacted (chunks : list bytes) (pending : bytes) (discarding : bool) (o : BoundedOutput) : BoundedOutput :=
  match chunks with
  | [] => match pending with [] => o | _ => if discarding then o else append (shown_line pending) o end
  | chunk :: chunks' =>
      let pending := pending ++ chunk in
      let '(pending, discarding, o) := take_lines (S (length pending)) pending discarding o in
      let '(pending, discarding, o) := relieve pending discarding o in
      copy_redacted chunks' pending discarding o
  end.

Definition _copy_stream (chunks : list bytes) (redact_sandbox_launcher : bool) (o : BoundedOutput) : BoundedOutput :=
  if redact_sandbox_launcher then copy_redacted chunks [] false o
  else foldl (λ o c, append c o) o chunks.

(** ** What a buffer holds *)

(** The last [limit] bytes of a stream. *)
Definition tail_of (limit : Z) (s : bytes) : bytes := drop (Z.to_nat (size s - limit)) s.

Definition holds (limit : Z) (o : BoundedOutput) (s : bytes) : Prop :=
  0 ≤ limit ∧ o.(o_limit) = limit ∧ o.(o_data) = tail_of limit s ∧ o.(o_dropped) = Z.max 0 (size s - limit).

Lemma size_app a b : size (a ++ b) = size a + size b.
Proof. unfold size. rewrite length_app. lia. Qed.

Lemma size_nonneg l : 0 ≤ size l.
Proof. unfold size. lia. Qed.

Lemma size_drop n l : size (drop n l) = Z.max 0 (size l - Z.of_nat n).
Proof. unfold size. rewrite length_drop. lia. Qed.

Lemma size_take n l : size (take n l) = Z.min (Z.of_nat n) (size l).
Proof. unfold size. rewrite length_take. lia. Qed.

Lemma size_tail limit s : 0 ≤ limit → size (tail_of limit s) = Z.min limit (size s).
Proof. intros. unfold tail_of. rewrite size_drop. pose proof (size_nonneg s). lia. Qed.

Lemma new_holds limit : 0 ≤ limit → holds limit (new_output limit) [].
Proof. intros. split_and!; cbn; [done|done|unfold tail_of; by rewrite drop_nil|unfold size; cbn; lia]. Qed.

Lemma append_holds limit c o s : holds limit o s → holds limit (append c o) (s ++ c).
Proof.
  intros (Hl & El & Hd & Hn). pose proof (size_nonneg s). pose proof (size_nonneg c). split; [done|].
  assert (Hs : size (o_data o ++ c) = Z.min limit (size s) + size c) by (by rewrite size_app, Hd, size_tail).
  unfold append. rewrite Hs, El. destruct (0 <? _) eqn:E; cbn [o_limit o_data o_dropped]; rewrite size_app; (split; [done|]).
  - apply Z.ltb_lt in E. split; [|lia]. rewrite Hd. unfold tail_of. rewrite size_app. destruct (decide (size s ≤ limit)) as [Hle|Hgt].
    + rewrite (Z2Nat.nonpos (size s - limit)) by lia. rewrite drop_0. f_equal. lia.
    + rewrite <- (drop_app_le s c (Z.to_nat (size s - limit))) by (unfold size in *; lia). rewrite drop_drop. f_equal. lia.
  - apply Z.ltb_ge in E. split; [|lia]. rewrite Hd. destruct (decide (size s ≤ limit)) as [Hle|Hgt].
    + unfold tail_of. by rewrite size_app, (Z2Nat.nonpos (size s - limit)), (Z2Nat.nonpos (size s + size c - limit)), !drop_0 by lia.
    + assert (c = []) as -> by (apply nil_length_inv; unfold size in *; lia). by rewrite !app_nil_r.
Qed.

Lemma append_all_holds limit cs o s : holds limit o s → holds limit (foldl (λ o c, append c o) o cs) (s ++ mjoin cs).
Proof.
  revert o s. induction cs as [|c cs IH]; intros o s H; cbn; [by rewrite app_nil_r|]. rewrite app_assoc. by apply IH, append_holds.
Qed.

(** A read returns the bytes of the stream at the offset it reports. *)
Lemma read_holds limit offset n o s :
  holds limit o s → 0 ≤ n → let r := read_from offset n o in
  r.(rd_offset) = Z.min (Z.max offset (Z.max 0 (size s - limit))) (size s) ∧
  r.(rd_chunk) = take (Z.to_nat n) (drop (Z.to_nat r.(rd_offset)) s) ∧
  r.(rd_next) = r.(rd_offset) + size r.(rd_chunk) ∧ r.(rd_end) = size s ∧
  (r.(rd_gap) = true ↔ offset < Z.max 0 (size s - limit)).
Proof.
  intros (Hl & _ & Hd & Hn) Hp. cbv zeta. unfold read_from, read_window. cbn. pose proof (size_nonneg s).
  assert (Hs : o_dropped o + size (o_data o) = size s) by (rewrite Hd, size_tail, Hn; lia).
  rewrite Hs, Hn. set (a := Z.min _ _). set (k := Z.max 0 (size s - limit)) in *.
  assert (Ha : k ≤ a) by (unfold a, k; lia). split_and!; [done| |done|done|apply Z.ltb_lt].
  unfold py_slice. rewrite (proj2 (Z.ltb_ge _ _)) by lia. replace (a - k + n - (a - k)) with n by lia.
  f_equal. rewrite Hd. unfold tail_of. rewrite drop_drop. f_equal. unfold k in *. lia.
Qed.

(** ** Following a stream *)

(** A process writes and a client polls, each poll from the offset the one before
    returned. *)
Inductive event := Write (chunk : bytes) | Poll (n : Z).
Record reader := { at_offset : Z; got : bytes; missed : bool }.

Definition follow (st : BoundedOutput * reader) (e : event) : BoundedOutput * reader :=
  match e with
  | Write c => (append c st.1, st.2)
  | Poll n =>
      let r := read_from st.2.(at_offset) n st.1 in
      (st.1, {| at_offset := r.(rd_next); got := st.2.(got) ++ r.(rd_chunk); missed := st.2.(missed) || r.(rd_gap) |})
  end.

Definition written (es : list event) : bytes := mjoin ((λ e, match e with Write c => c | Poll _ => [] end) <$> es).

Definition start_reading (limit : Z) : BoundedOutput * reader := (new_output limit, {| at_offset := 0; got := []; missed := false |}).

Lemma written_snoc es e : written (es ++ [e]) = written es ++ match e with Write c => c | Poll _ => [] end.
Proof. unfold written. rewrite fmap_app, join_app. cbn. by rewrite app_nil_r. Qed.

Lemma take_more a n (w : bytes) : (a ≤ length w)%nat → take a w ++ take n (drop a w) = take (a + length (take n (drop a w))) w.
Proof.
  intros Ha. rewrite take_take_drop, length_take, length_drop. destruct (decide (n ≤ length w - a)%nat); [f_equal; lia|].
  by rewrite !take_ge by lia.
Qed.

Lemma follow_spec limit es :
  0 ≤ limit → Forall (λ e, match e with Poll n => 0 ≤ n | Write _ => True end) es →
  let st := foldl follow (start_reading limit) es in
  holds limit st.1 (written es) ∧ 0 ≤ st.2.(at_offset) ≤ size (written es) ∧
  (st.2.(missed) = false → st.2.(got) = take (Z.to_nat st.2.(at_offset)) (written es)) ∧
  (size (written es) ≤ limit → st.2.(missed) = false).
Proof.
  intros Hl. induction es as [|e es IH] using rev_ind; intros Hes; cbv zeta.
  { cbn. split_and!; [by apply new_holds|lia|unfold size; cbn; lia|done|done]. }
  apply Forall_app in Hes as [Hes [He _]%Forall_cons]. specialize (IH Hes). cbv zeta in IH. rewrite foldl_snoc, written_snoc.
  destruct (foldl follow _ es) as [o r]. cbn [fst snd] in IH. destruct IH as (Ho & Hr & Hg & Hm). destruct e as [c|n]; cbn [follow fst snd].
  - rewrite size_app. pose proof (size_nonneg c). split_and!; [by apply append_holds|lia|lia| |intros; apply Hm; lia].
    intros E. rewrite (Hg E), take_app_le; [done|]. unfold size in Hr. lia.
  - rewrite app_nil_r. destruct (read_holds limit (at_offset r) n o (written es) Ho He) as (E1 & E2 & E3 & E4 & E5).
    set (rd := read_from _ _ _) in *. cbn [at_offset got missed].
    assert (Hc : size (rd_chunk rd) = Z.min n (Z.max 0 (size (written es) - rd_offset rd))) by (rewrite E2, size_take, size_drop; lia).
    split_and!; [done|lia|lia| |].
    + intros [Em Eg]%orb_false_iff. apply not_true_iff_false in Eg. rewrite E5 in Eg. assert (Eo : rd_offset rd = at_offset r) by lia.
      rewrite (Hg Em), E3, Eo, E2, Eo, take_more by (unfold size in Hr; lia). f_equal. unfold size. lia.
    + intros Hle. apply orb_false_iff. split; [by apply Hm|]. apply not_true_iff_false. rewrite E5. lia.
Qed.

(** C23: A client that follows the offsets reads the stream: however writes and polls
    interleave, the buffer holds the last bytes of the stream within its limit; as
    long as no poll reported a gap the client has exactly the stream up to its
    offset; a stream within the limit never has a gap; and the next poll that is large
    enough, of the buffer or of its archived copy, completes it. *)
Theorem task_output_stream limit es n :
  0 ≤ limit → Forall (λ e, match e with Poll n => 0 ≤ n | Write _ => True end) es →
  let st := foldl follow (start_reading limit) es in
  let r := read_from st.2.(at_offset) n st.1 in
  st.1.(o_data) = tail_of limit (written es) ∧ size st.1.(o_data) ≤ limit ∧
  (st.2.(missed) = false → st.2.(got) = take (Z.to_nat st.2.(at_offset)) (written es)) ∧
  (size (written es) ≤ limit → st.2.(missed) = false) ∧
  read_archived st.2.(at_offset) n (archive st.1) = r ∧
  (st.2.(missed) = false → r.(rd_gap) = false → size (written es) ≤ st.2.(at_offset) + n → 0 ≤ n →
     st.2.(got) ++ r.(rd_chunk) = written es).
Proof.
  intros Hl Hes st r. destruct (follow_spec limit es Hl Hes) as (Ho & Hr & Hg & Hm). fold st in Ho, Hr, Hg, Hm.
  pose proof Ho as (_ & _ & Hd & _). split_and!; [done|rewrite Hd, size_tail; lia|done|done|done|].
  intros Em Eg Hn Hp. destruct (read_holds limit (at_offset st.2) n st.1 _ Ho Hp) as (E1 & E2 & _ & _ & E5). fold r in E1, E2, E5.
  apply not_true_iff_false in Eg. rewrite E5 in Eg. rewrite (Hg Em), E2. replace (rd_offset r) with (at_offset st.2) by lia.
  rewrite (take_ge (drop _ _)); [apply take_drop|]. rewrite length_drop. unfold size in Hn. lia.
Qed.

(** ** Redaction, line by line *)

(** The lines of a stream, with their newlines. *)
Fixpoint lines (l : bytes) : list bytes :=
  match l with
  | [] => []
  | c :: l' => if c =? newline then [c] :: lines l'
               else match lines l' with [] => [[c]] | x :: xs => (c :: x) :: xs end
  end.

Definition shown_stream (s : bytes) : bytes := mjoin (shown_line <$> lines s).

Lemma cut_line_Some l line rest r : cut_line l = Some (line, rest) → lines (l ++ r) = line :: lines (rest ++ r) ∧ (length rest < length l)%nat.
Proof.
  revert line rest. induction l as [|c l IH]; intros line rest; cbn; [done|]. destruct (c =? newline); [intros [= <- <-]; cbn; auto with lia|].
  destruct (cut_line l) as [[line' rest']|]; [|done]. intros [= <- <-]. destruct (IH _ _ eq_refl) as [E H]. rewrite E. auto with lia.
Qed.

(** Bytes without a newline are the beginning of one line. *)
Lemma cut_line_None l r : cut_line l = None → l ≠ [] → ∃ x xs, lines (l ++ r) = (l ++ x) :: xs ∧ (r = [] → x = [] ∧ xs = []).
Proof.
  induction l as [|c l IH]; [done|]. intros H _. cbn in H. cbn. destruct (c =? newline); [done|]. destruct (cut_line l) as [[? ?]|] eqn:E; [done|].
  destruct l as [|d l].
  - cbn. destruct (lines r) as [|y ys] eqn:Er; [by exists [], []|]. exists y, ys. split; [done|]. by intros ->.
  - destruct (IH eq_refl ltac:(done)) as (x & xs & Ex & Hr). rewrite Ex. by exists x, xs.
Qed.

Lemma take_lines_spec limit fuel pending o s r p' d' o' :
  (length pending < fuel)%nat → holds limit o s → take_lines fuel pending false o = (p', d', o') →
  ∃ done_, lines (pending ++ r) = done_ ++ lines (p' ++ r) ∧ cut_line p' = None ∧ d' = false ∧ holds limit o' (s ++ mjoin (shown_line <$> done_)).
Proof.
  revert pending o s. induction fuel as [|fuel IH]; intros pending o s Hf Ho; [lia|]. cbn [take_lines].
  destruct (cut_line pending) as [[line rest]|] eqn:E.
  - destruct (cut_line_Some _ _ _ r E) as [El Hl]. intros H.
    apply (IH rest (append (shown_line line) o) (s ++ shown_line line)) in H as (done_ & Ed & Hc & Hd & Hh); [|lia|by apply append_holds].
    exists (line :: done_). cbn. rewrite El, Ed, app_assoc. split_and!; done.
  - intros [= <- <- <-]. exists []. cbn. by rewrite app_nil_r.
Qed.

Definition short_lines (s : bytes) : Prop := Forall (λ l, size l ≤ _SANDBOX_STDERR_BUFFER_LIMIT) (lines s).

Lemma copy_redacted_spec limit chunks pending o s :
  holds limit o s → cut_line pending = None → short_lines (pending ++ mjoin chunks) →
  holds limit (copy_redacted chunks pending false o) (s ++ shown_stream (pending ++ mjoin chunks)).
Proof.
  revert pending o s. induction chunks as [|chunk chunks IH]; intros pending o s Ho Hc Hs; cbn [copy_redacted].
  - cbn. rewrite app_nil_r. unfold shown_stream. destruct pending as [|b pending]; [by rewrite app_nil_r|].
    destruct (cut_line_None (b :: pending) [] Hc ltac:(done)) as (x & xs & E & Hx). destruct (Hx eq_refl) as [-> ->]. rewrite !app_nil_r in E. rewrite E.
    cbn. rewrite app_nil_r. by apply append_holds.
  - destruct (take_lines _ (pending ++ chunk) false o) as [[p' d'] o'] eqn:E.
    apply (take_lines_spec limit _ _ _ s (mjoin chunks)) in E as (done_ & El & Hc' & -> & Ho'); [|lia|done].
    change (mjoin (chunk :: chunks)) with (chunk ++ mjoin chunks) in *. rewrite app_assoc in Hs |- *. unfold short_lines in Hs. rewrite El in Hs. apply Forall_app in Hs as [_ Hs].
    assert (Hsmall : size p' ≤ _SANDBOX_STDERR_BUFFER_LIMIT).
    { destruct p' as [|b p']; [done|]. destruct (cut_line_None _ (mjoin chunks) Hc' ltac:(done)) as (x & xs & Ex & _). rewrite Ex in Hs.
      apply Forall_cons in Hs as [Hs _]. rewrite size_app in Hs. pose proof (size_nonneg x). lia. }
    unfold relieve. cbn [andb]. rewrite (proj2 (Z.ltb_ge _ _)) by done. unfold shown_stream. rewrite El, fmap_app, join_app, app_assoc.
    by apply IH.
Qed.

(** C22: Redaction does not depend on how the output arrives: as long as no line
    exceeds the buffer, copying the error stream of a sandboxed task keeps the
    tail of exactly its lines with every line that looks like a launch replaced, for
    any division into chunks; and a stream that is not redacted is kept as it is. *)
Theorem stderr_redaction limit chunks :
  0 ≤ limit → short_lines (mjoin chunks) →
  let o := _copy_stream chunks true (new_output limit) in
  o.(o_data) = tail_of limit (shown_stream (mjoin chunks)) ∧
  o.(o_dropped) = Z.max 0 (size (shown_stream (mjoin chunks)) - limit) ∧
  (_copy_stream chunks false (new_output limit)).(o_data) = tail_of limit (mjoin chunks).
Proof.
  intros Hl Hs o. destruct (append_all_holds limit chunks _ _ (new_holds limit Hl)) as (_ & _ & Ha & _). by destruct (copy_redacted_spec limit chunks [] (new_output limit) [] (new_holds limit Hl) eq_refl Hs) as (_ & _ & Hd & Hn).
Qed.

(** ** The event stream of a task *)

(** One round of [_handle_task_stream] sees both streams, the status, and two clock
    readings (in microseconds). *)
Record glance := { g_stdout : ArchivedOutput; g_stderr : ArchivedOutput; g_finished : bool; g_sent : Z; g_now : Z }.

Inductive sse :=
| SseOutput (out err : read_result)
| SseDone
| SseReconnect (stdout_offset stderr_offset : Z)
| SseKeepAlive.

Definition has_data (r : read_result) : bool := negb (size r.(rd_chunk) =? 0).

Definition STREAM_CHUNK : Z := 65536.

(** The loop, on a task of this server or of a client ([remote]). *)
Fixpoint stream_rounds (remote : bool) (max_duration started heartbeat stdout_offset stderr_offset : Z) (looks : list glance) : list sse :=
  match looks with
  | [] => []
  | g :: looks' =>
      let out := read_archived stdout_offset STREAM_CHUNK g.(g_stdout) in
      let err := read_archived stderr_offset STREAM_CHUNK g.(g_stderr) in
      let send := has_data out || has_data err || out.(rd_gap) || err.(rd_gap) in
      let so := if send then out.(rd_next) else stdout_offset in
      let se := if send then err.(rd_next) else stderr_offset in
      let beat := if send then g.(g_sent) else heartbeat in
      (if send then [SseOutput out err] else []) ++
      (if g.(g_finished) && (negb remote || (out.(rd_end) <=? so)) then [SseDone]
       else if max_duration <=? g.(g_now) - started then [SseReconnect so se]
       else let alive := 10 * 1000000 <=? g.(g_now) - beat in
            (if alive then [SseKeepAlive] else []) ++
            stream_rounds remote max_duration started (if alive then g.(g_now) else beat) so se looks')
  end.

(** What the events carry of the two streams. *)
Definition sent_stdout (l : list sse) : bytes := mjoin ((λ e, match e with SseOutput out _ => out.(rd_chunk) | _ => [] end) <$> l).
Definition sent_stderr (l : list sse) : bytes := mjoin ((λ e, match e with SseOutput _ err => err.(rd_chunk) | _ => [] end) <$> l).

(** What the buffer holds from the offset of a client on. *)
Definition ahead (offset : Z) (o : ArchivedOutput) : bytes := drop (Z.to_nat (offset - o.(ao_dropped))) o.(ao_data).

Lemma read_ahead offset o : rd_chunk (read_archived offset STREAM_CHUNK o) = take (Z.to_nat STREAM_CHUNK) (ahead offset o).
Proof.
  unfold read_archived, read_window, ahead, py_slice. cbn [rd_chunk]. pose proof (size_nonneg o.(ao_data)).
  set (rel := Z.min _ _ - ao_dropped o). assert (0 ≤ rel ≤ size (ao_data o)) by (unfold rel; lia).
  rewrite (proj2 (Z.ltb_ge _ _)) by (unfold STREAM_CHUNK; lia). replace (rel + STREAM_CHUNK - rel) with STREAM_CHUNK by lia. f_equal.
  destruct (decide (offset - ao_dropped o ≤ size (ao_data o))).
  - f_equal. unfold rel. lia.
  - rewrite !drop_ge; [done|unfold size in *; lia|]. replace rel with (size (ao_data o)) by (unfold rel; lia). unfold size. lia.
Qed.

(** C40: The event stream of a task of this server that is finished ends in its first
    round: whatever the offsets of the client, it sends of standard output and of
    standard error the first 65536 bytes that the buffer holds from the offset on, and
    reports the end; of an output that has more than these the rest is not sent. *)
Theorem finished_stream_truncated max_duration started heartbeat so se g looks :
  g.(g_finished) = true →
  let events := stream_rounds false max_duration started heartbeat so se (g :: looks) in
  last events = Some SseDone ∧
  sent_stdout events = take (Z.to_nat STREAM_CHUNK) (ahead so g.(g_stdout)) ∧
  sent_stderr events = take (Z.to_nat STREAM_CHUNK) (ahead se g.(g_stderr)) ∧
  (STREAM_CHUNK < size (ahead so g.(g_stdout)) → size (sent_stdout events) < size (ahead so g.(g_stdout))) ∧
  (STREAM_CHUNK < size (ahead se g.(g_stderr)) → size (sent_stderr events) < size (ahead se g.(g_stderr))).
Proof.
  intros Hf events. rewrite <- !read_ahead. unfold events. cbn [stream_rounds]. rewrite Hf. cbn [andb negb orb].
  assert (Hsmall : ∀ o a, STREAM_CHUNK < size (ahead o a) → size (rd_chunk (read_archived o STREAM_CHUNK a)) < size (ahead o a)).
  { intros o a H. rewrite read_ahead, size_take. unfold STREAM_CHUNK in *. lia. }
  generalize (Hsmall so g.(g_stdout)), (Hsmall se g.(g_stderr)). clear Hsmall.
  generalize (read_archived so STREAM_CHUNK g.(g_stdout)), (read_archived se STREAM_CHUNK g.(g_stderr)). intros out err H1 H2.
  assert (Hnone : ∀ r, has_data r = false → rd_chunk r = []).
  { intros r Hr. unfold has_data in Hr. apply negb_false_iff, Z.eqb_eq in Hr. destruct (rd_chunk r); [done|unfold size in Hr; cbn in Hr; lia]. }
  unfold sent_stdout, sent_stderr. destruct (_ || _ || _ || _) eqn:E; cbn; rewrite ?app_nil_r; [by split_and!|].
  apply orb_false_iff in E as [[[Eo%Hnone Ee%Hnone]%orb_false_iff _]%orb_false_iff _]. rewrite Eo, Ee in *. by split_and!.
Qed.

(** ** Samples *)

Definition demo_events : list event := [Write [1; 2; 3]; Poll 2; Write [4; 5]; Poll 9].

Lemma task_output_stream_witness : size (foldl follow (start_reading 4) demo_events).1.(o_data) ≤ 4.
Proof.
  apply (task_output_stream 4 demo_events 9); [lia|]. repeat constructor; lia.
Defined.

Definition demo_chunks : list bytes :=
  text_bytes <$> ["warning
bwrap --ro-b"; "ind / / --bi"; "nd /x
exit"]%string.

Example demo_redacted :
  (_copy_stream demo_chunks true (new_output 100)).(o_data)
  = text_bytes "warning
[workspace] sandbox launcher error details redacted
exit".
Proof. vm_compute. reflexivity. Qed.

Lemma stderr_redaction_witness :
  (_copy_stream demo_chunks true (new_output 100)).(o_data) = tail_of 100 (shown_stream (mjoin demo_chunks)).
Proof.
  apply (stderr_redaction 100 demo_chunks); [lia|]. vm_compute. repeat constructor; discriminate.
Defined.

Definition demo_glance : glance :=
  {| g_stdout := {| ao_data := replicate (Z.to_nat (STREAM_CHUNK + 9)) 65; ao_dropped := 5 |};
     g_stderr := {| ao_data := [66; 67]; ao_dropped := 0 |}; g_finished := true; g_sent := 1; g_now := 2 |}.

Lemma finished_stream_truncated_witness :
  size (sent_stdout (stream_rounds false 3600000000 0 0 7 1 [demo_glance])) < size (ahead 7 demo_glance.(g_stdout)) ∧
  sent_stderr (stream_rounds false 3600000000 0 0 7 1 [demo_glance]) = [67].
Proof.
  destruct (finished_stream_truncated 3600000000 0 0 7 1 demo_glance [] eq_refl) as (_ & _ & H2 & H3 & _). split.
  - apply H3. unfold ahead. cbn [g_stdout demo_glance ao_data ao_dropped]. rewrite size_drop. unfold size. rewrite length_replicate. unfold STREAM_CHUNK. lia.
  - rewrite H2. reflexivity.
Defined.
