(* ===== verification/TaskHistory.v ===== *)
(** * TaskHistory: completed tasks on disk

    Models class [TaskHistoryStore] of src/openkapsel/execution/task_history.py: a
    directory per token, named by a hash of the token, with one directory per task
    that holds its metadata and the tail of its output.  The names in a directory
    come in any order ([iterdir]); the wall clock is an argument, a float in seconds;
    failing system calls of [save] are an argument, removals succeed.  Of listing tasks
    only the cleaning is modelled. *)

From Stdlib Require Import ZArith QArith Lia Lqa Ascii String.
From stdpp Require Import base tactics list list_numbers sorting gmap strings fin_maps.
From S2P Require Import Prelude Hashing Dict Tokens Binary64 TaskOutput.

Local Open Scope Z_scope.

(** ** Names *)

Definition url_char (c : ascii) : bool := is_alnum c || Ascii.eqb c "_" || Ascii.eqb c "-".

Definition TASK_ID_PATTERN (s : string) : bool :=
  match s with
  | String a (String b (String c (String d (String e (String f EmptyString))))) =>
      Ascii.eqb a "&" && is_alnum b && is_alnum c && is_alnum d && is_alnum e && Ascii.eqb f "&"
  | _ => false
  end
  || (startswith "task_" s && let n := Z.of_nat (String.length s) in
      (6 <=? n) && (n <=? 133) && str_forall url_char (substring 5 (String.length s) s)).

(** [hashlib.sha256(token.encode("utf-8")).hexdigest()[:32]] *)
Definition token_key (token : string) : string := substring 0 32 (sha256_hex token).

(** ** Directories *)

(** What a name stands for: a directory with the three files it may have, or
    something else (a file, a symbolic link). *)
Inductive node := TaskDir (meta : option json) (stdout stderr : option bytes) | OtherNode.

Abbreviation tdir := (gmap string node).

(** The directories of the tokens below the root. *)
Abbreviation history := (gmap string tdir).

Definition field (key : string) (fields : list (string * json)) : json := obj_get_or key JNull fields.

(** [value == 1], which holds of [1.0] and [True] too. *)
Definition is_one (v : json) : bool :=
  match v with JInt n => n =? 1 | JBool b => b | JFloat q => Qeq_bool q 1 | _ => false end.

Definition is_text (t : string) (v : json) : bool := match v with JStr s => String.eqb s t | _ => false end.

Definition _read_metadata (name : string) (n : node) : option (list (string * json)) :=
  match n with
  | TaskDir (Some (JObj fields)) _ _ =>
      if is_one (field "version" fields) && is_text name (field "task_id" fields) && is_text "finished" (field "status" fields)
      then Some fields else None
  | _ => None
  end.

(** [float(archived_at)] of a number that is not a [bool]. *)
Definition timestamp (fields : list (string * json)) : option Q :=
  match field "archived_at" fields with JInt n => Some (fround (inject_Z n)) | JFloat q => Some q | _ => None end.

Section store.
Context (iterdir : tdir → list (string * node)).
Context (retention_seconds max_per_token : Z).

Definition is_dir (n : node) : bool := match n with TaskDir _ _ _ => true | OtherNode => false end.

Definition _task_directories (d : tdir) : list (string * node) :=
  filter (λ e, is_dir e.2 && TASK_ID_PATTERN e.1 = true) (iterdir d).

(** The time a directory is kept by, [None] when it is removed at once. *)
Definition kept_since (now : Q) (e : string * node) : option Q :=
  match _read_metadata e.1 e.2 with
  | None => None
  | Some fields =>
      match timestamp fields with
      | None => None
      | Some t => if Qle_bool (fround (t + inject_Z retention_seconds)) now then None else Some t
      end
  end.

Definition newer (a b : Q * string) : Prop := Qle_bool b.1 a.1 = true.
#[global] Instance newer_dec : RelDecision newer.
Proof. intros a b. unfold newer. apply _. Defined.

Definition retained (now : Q) (d : tdir) : list (Q * string) :=
  omap (λ e, (λ t, (t, e.1)) <$> kept_since now e) (_task_directories d).

Definition expired_names (now : Q) (d : tdir) : list string :=
  (filter (λ e, kept_since now e = None) (_task_directories d)).*1.

Definition remove_all (names : list string) (d : tdir) : tdir := foldr delete d names.

Definition _cleanup_token_locked (now : Q) (d : tdir) : tdir :=
  let kept := retained now d in
  remove_all (expired_names now d ++ (drop (Z.to_nat max_per_token) (merge_sort newer kept)).*2) d.

Definition with_dir (key : string) (f : tdir → tdir) (h : history) : history := alter f key h.

(** ** Operations *)

(** How far the system calls of [save] get: all of them succeed, one fails while the
    new directory is prepared, or the final rename fails after the old directory was
    removed. *)
Inductive progress := Saved | FailsEarly | FailsLate.

Definition payload (metadata : list (string * json)) (now : Q) : json :=
  JObj (dset "archived_at" (JFloat now) (dset "version" (JInt 1) metadata)).

Definition meta_text (key : string) (metadata : list (string * json)) : string :=
  match field key metadata with JStr s => s | _ => EmptyString end.

Definition save (p : progress) (token : string) (metadata : list (string * json)) (stdout stderr : bytes) (now later : Q) (h : history)
    : res exn unit * history :=
  let id := meta_text "task_id" metadata in
  if negb (TASK_ID_PATTERN id) then (Err (ValueError "invalid task id"), h)
  else
    let key := token_key token in
    let d := default ∅ (h !! key) in
    match p with
    | FailsEarly => (Err (RuntimeError "OSError"), <[key := d]> h)
    | FailsLate => (Err (RuntimeError "OSError"), <[key := delete id d]> h)
    | Saved =>
        let d := <[id := TaskDir (Some (payload metadata now)) (Some stdout) (Some stderr)]> d in
        (Ok tt, <[key := _cleanup_token_locked later d]> h)
    end.

Record ArchivedTask := { at_id : string; at_meta : list (string * json); at_stdout : ArchivedOutput; at_stderr : ArchivedOutput }.

Definition has_field (key : string) (fields : list (string * json)) : bool := dmem key fields.

(** The constructor raises [KeyError], [TypeError] or [ValueError] on metadata that
    lacks a field or has a count that is no number. *)
Definition archived_task (fields : list (string * json)) (stdout stderr : bytes) : option ArchivedTask :=
  if forallb (λ k, has_field k fields) ["task_id"; "command"; "cwd"; "started_at"; "finished_at"]%string then
    match int_of (obj_get_or "stdout_truncated_bytes" (JInt 0) fields), int_of (obj_get_or "stderr_truncated_bytes" (JInt 0) fields) with
    | Ok a, Ok b => Some {| at_id := meta_text "task_id" fields; at_meta := fields;
                            at_stdout := {| ao_data := stdout; ao_dropped := a |}; at_stderr := {| ao_data := stderr; ao_dropped := b |} |}
    | _, _ => None
    end
  else None.

Definition load (token id : string) (now : Q) (h : history) : option ArchivedTask * history :=
  if negb (TASK_ID_PATTERN id) then (None, h)
  else
    let key := token_key token in
    let h := with_dir key (_cleanup_token_locked now) h in
    (n ← (d ← h !! key; d !! id);
     fields ← _read_metadata id n;
     match n with TaskDir _ (Some out) (Some err) => archived_task fields out err | _ => None end, h).

Definition cleanup_all (now : Q) (h : history) : history := _cleanup_token_locked now <$> h.

End store.

(** ** What cleaning keeps *)

Lemma lookup_remove_all names (d : tdir) k : remove_all names d !! k = if bool_decide (k ∈ names) then None else d !! k.
Proof.
  unfold remove_all. induction names as [|a names IH]; cbn [foldr]; [done|]. destruct (decide (k = a)) as [->|Hne].
  - rewrite lookup_delete_eq, bool_decide_true; [done|by left].
  - rewrite lookup_delete_ne, IH by done. case_bool_decide; case_bool_decide; set_solver.
Qed.

Section cleaning.
Context (iterdir : tdir → list (string * node)).
Hypothesis iterdir_perm : ∀ d, iterdir d ≡ₚ map_to_list d.
Context (retention_seconds max_per_token : Z).

Abbreviation directories := (_task_directories iterdir).
Abbreviation kept := (retained iterdir retention_seconds).
Abbreviation clean := (_cleanup_token_locked iterdir retention_seconds max_per_token).

Lemma elem_directories d k n : (k, n) ∈ directories d ↔ d !! k = Some n ∧ is_dir n = true ∧ TASK_ID_PATTERN k = true.
Proof.
  unfold _task_directories. rewrite list_elem_of_filter, andb_true_iff, iterdir_perm, elem_of_map_to_list. naive_solver.
Qed.

Lemma NoDup_directories d : NoDup (directories d).*1.
Proof.
  assert (H : NoDup (iterdir d).*1) by (rewrite iterdir_perm; apply NoDup_fst_map_to_list).
  unfold _task_directories. revert H. induction (iterdir d) as [|e l IH]; [constructor|]. rewrite fmap_cons. intros [Hn Hl]%NoDup_cons.
  rewrite filter_cons. case_decide; [|by apply IH]. rewrite fmap_cons. apply NoDup_cons. split; [|by apply IH].
  intros (e' & E & [_ He]%list_elem_of_filter)%list_elem_of_fmap. apply Hn. rewrite E. by apply list_elem_of_fmap_2.
Qed.

Lemma elem_retained now d t k : (t, k) ∈ kept now d ↔ ∃ n, (k, n) ∈ directories d ∧ kept_since retention_seconds now (k, n) = Some t.
Proof.
  unfold retained. rewrite list_elem_of_omap. split.
  - intros ([k' n] & Hd & E). destruct (kept_since _ _ _) eqn:Ek; [|done]. injection E as <- <-. by exists n.
  - intros (n & Hd & Ek). exists (k, n). split; [done|]. by rewrite Ek.
Qed.

Lemma NoDup_kept now d : NoDup (kept now d).*2.
Proof.
  unfold retained. pose proof (NoDup_directories d) as H. revert H. induction (directories d) as [|e l IH]; cbn; [constructor|].
  intros [Hn Hl]%NoDup_cons. destruct (kept_since _ _ e) as [t|]; cbn; [|by apply IH]. apply NoDup_cons. split; [|by apply IH].
  intros ([t' k] & E & He)%list_elem_of_fmap. cbn in E. apply list_elem_of_omap in He as (e' & He & E').
  destruct (kept_since _ _ e') as [t''|]; [|done]. injection E' as _ <-. apply Hn. rewrite E. by apply list_elem_of_fmap_2.
Qed.

(** The names with a time not before [t]. *)
Definition not_before (now t : Q) (d : tdir) : list string := (filter (λ p, Qle_bool t p.1 = true) (kept now d)).*2.

#[local] Instance newer_total : Total newer.
Proof. intros [a ?] [b ?]. unfold newer. cbn. rewrite !Qle_bool_iff. destruct (Qlt_le_dec a b); [right; by apply Qlt_le_weak|by left]. Qed.
#[local] Instance newer_trans : Transitive newer.
Proof. intros [a ?] [b ?] [c ?]. unfold newer. cbn. rewrite !Qle_bool_iff. intros. by eapply Qle_trans. Qed.

(** A task is kept while its time is not over and fewer than the allowed number of
    others are as new. *)
Lemma clean_keeps now d id n t :
  d !! id = Some n → is_dir n = true → TASK_ID_PATTERN id = true → kept_since retention_seconds now (id, n) = Some t →
  (Z.of_nat (length (not_before now t d)) ≤ max_per_token) → clean now d !! id = Some n.
Proof.
  intros Hd Hi Hp Hk Hc. unfold _cleanup_token_locked. rewrite lookup_remove_all, bool_decide_false; [done|].
  assert (Hin : (id, n) ∈ directories d) by (by apply elem_directories).
  assert (Hkin : (t, id) ∈ kept now d) by (apply elem_retained; by exists n).
  rewrite elem_of_app. intros [H|H].
  - unfold expired_names in H. apply list_elem_of_fmap in H as ([k n'] & E & [Hn He]%list_elem_of_filter). cbn in E. subst k.
    apply elem_directories in He as (He & _ & _). rewrite Hd in He. injection He as <-. congruence.
  - set (l := merge_sort newer (kept now d)) in H. apply list_elem_of_fmap in H as ([t' k] & E & H). cbn in E. subst k.
    assert (Hperm : l ≡ₚ kept now d) by apply merge_sort_Permutation.
    assert (t' = t) as ->.
    { assert (Hin2 : (t', id) ∈ kept now d). { rewrite <- Hperm. rewrite <- (take_drop (Z.to_nat max_per_token) l). apply elem_of_app. by right. }
      apply elem_retained in Hin2 as (n2 & Hd2 & Ek2). apply elem_directories in Hd2 as (Hd2 & _). rewrite Hd in Hd2. injection Hd2 as <-. congruence. }
    pose proof (StronglySorted_merge_sort newer (kept now d)) as Hs. fold l in Hs. rewrite <- (take_drop (Z.to_nat max_per_token) l) in Hs.
    assert (Hlen2 : length (not_before now t d) = (length (take (Z.to_nat max_per_token) l) + length (filter (λ p : Q * string, Qle_bool t p.1 = true) (drop (Z.to_nat max_per_token) l)))%nat).
    { unfold not_before. rewrite length_fmap, <- Hperm. rewrite <- (take_drop (Z.to_nat max_per_token) l) at 1. rewrite filter_app, length_app. f_equal. f_equal.
      apply list_filter_all. intros p Hp'. exact (StronglySorted_app_1_elem_of newer _ _ p (t, id) Hs Hp' H). }
    assert (Hone : (1 ≤ length (filter (λ p : Q * string, Qle_bool t p.1 = true) (drop (Z.to_nat max_per_token) l)))%nat).
    { assert (Hf : (t, id) ∈ filter (λ p : Q * string, Qle_bool t p.1 = true) (drop (Z.to_nat max_per_token) l)).
      { apply list_elem_of_filter. split; [apply Qle_bool_iff, Qle_refl|done]. }
      destruct (filter _ _); [by apply elem_of_nil in Hf|cbn; lia]. }
    rewrite length_take in Hlen2.
    assert (Hlen : (Z.to_nat max_per_token < length l)%nat).
    { apply list_elem_of_lookup in H as [i Hlk]. rewrite lookup_drop in Hlk. apply lookup_lt_Some in Hlk. lia. }
    lia.
Qed.

(** ** Retention over many operations *)

Definition time_of (k : string) (n : node) : option Q := fields ← _read_metadata k n; timestamp fields.

Lemma kept_since_time now k n t :
  kept_since retention_seconds now (k, n) = Some t ↔ time_of k n = Some t ∧ ¬ (fround (t + inject_Z retention_seconds) <= now)%Q.
Proof.
  unfold kept_since, time_of. cbn. destruct (_read_metadata k n) as [fields|]; cbn; [|naive_solver].
  destruct (timestamp fields) as [u|]; [|naive_solver]. destruct (Qle_bool _ now) eqn:E.
  - apply Qle_bool_iff in E. naive_solver.
  - assert (¬ (fround (u + inject_Z retention_seconds) <= now)%Q) by (intros H; apply Qle_bool_iff in H; congruence). naive_solver.
Qed.

(** The task is there, and only it and the tasks [later] are as new as [t]. *)
Definition tracked (id : string) (n : node) (t : Q) (later : list string) (d : tdir) : Prop :=
  d !! id = Some n ∧ ∀ k n' t', d !! k = Some n' → time_of k n' = Some t' → (t <= t')%Q → k = id ∨ k ∈ later.

Lemma clean_tracked now id n t later d :
  is_dir n = true → TASK_ID_PATTERN id = true → time_of id n = Some t → ¬ (fround (t + inject_Z retention_seconds) <= now)%Q →
  Z.of_nat (length later) < max_per_token → tracked id n t later d → tracked id n t later (clean now d).
Proof.
  intros Hi Hp Ht Hn Hl [Hd Hk]. split.
  - apply (clean_keeps now d id n t); [done..|by apply kept_since_time|].
    assert (Hsub : not_before now t d ⊆+ id :: later).
    { apply NoDup_submseteq.
      - unfold not_before. pose proof (NoDup_kept now d) as H. revert H. generalize (kept now d) as l. intros l.
        induction l as [|p l IH]; [constructor|]. rewrite fmap_cons. intros [Hx Hl']%NoDup_cons. rewrite filter_cons. case_decide; [|by apply IH].
        rewrite fmap_cons. apply NoDup_cons. split; [|by apply IH]. intros (q & E & [_ Hq]%list_elem_of_filter)%list_elem_of_fmap.
        apply Hx. rewrite E. by apply list_elem_of_fmap_2.
      - intros k Hin. unfold not_before in Hin. apply list_elem_of_fmap in Hin as ([t' k'] & -> & [Hle Hin]%list_elem_of_filter). cbn in *.
        apply elem_retained in Hin as (n' & Hd' & Ek). apply elem_directories in Hd' as (Hd' & _). apply kept_since_time in Ek as [Ek _].
        apply Qle_bool_iff in Hle. destruct (Hk _ _ _ Hd' Ek Hle) as [->|]; [by left|by right]. }
    apply submseteq_length in Hsub. cbn in Hsub. lia.
  - intros k n' t' H. unfold _cleanup_token_locked in H. rewrite lookup_remove_all in H. destruct (bool_decide _); [done|]. by eapply Hk.
Qed.

Inductive hop :=
| Save (p : progress) (token : string) (metadata : list (string * json)) (stdout stderr : bytes) (now later : Q)
| Load (token id : string) (now : Q)
| ListTasks (token : string) (now : Q)
| CleanupAll (now : Q).

Definition hexec (h : history) (o : hop) : history :=
  match o with
  | Save p token metadata out err now later => (save iterdir retention_seconds max_per_token p token metadata out err now later h).2
  | Load token id now => (load iterdir retention_seconds max_per_token token id now h).2
  | ListTasks token now => with_dir (token_key token) (_cleanup_token_locked iterdir retention_seconds max_per_token now) h
  | CleanupAll now => cleanup_all iterdir retention_seconds max_per_token now h
  end.

(** The tasks that an operation archives for a token. *)
Definition archives (key : string) (o : hop) : option string :=
  match o with
  | Save _ token metadata _ _ _ _ => if String.eqb (token_key token) key then Some (meta_text "task_id" metadata) else None
  | _ => None
  end.

(** The operation cleans before the time of the task is over. *)
Definition timely (t : Q) (o : hop) : Prop :=
  let now := match o with Save _ _ _ _ _ _ later => later | Load _ _ now | ListTasks _ now | CleanupAll now => now end in
  ¬ (fround (t + inject_Z retention_seconds) <= now)%Q.

Definition tracked_in (key id : string) (n : node) (t : Q) (later : list string) (h : history) : Prop :=
  ∃ d, h !! key = Some d ∧ tracked id n t later d.

Lemma tracked_grow id n t a b d : tracked id n t a d → tracked id n t (a ++ b) d.
Proof. intros [H1 H2]. split; [done|]. intros k n' t' Hk Ht Hle. destruct (H2 _ _ _ Hk Ht Hle); [by left|right; set_solver]. Qed.

Lemma hexec_tracked key id n t later o h :
  is_dir n = true → TASK_ID_PATTERN id = true → time_of id n = Some t → timely t o → archives key o ≠ Some id →
  Z.of_nat (length (later ++ option_list (archives key o))) < max_per_token →
  tracked_in key id n t later h → tracked_in key id n t (later ++ option_list (archives key o)) (hexec h o).
Proof.
  intros Hi Hp Ht Hn Ha Hl (d & Hd & Htr). destruct o as [p token metadata out err now0 now1|token tid now|token now|now]; cbn [hexec timely archives] in *.
  - unfold save. destruct (negb _); [exists d; split; [done|by apply tracked_grow]|].
    destruct (String.eqb_spec (token_key token) key) as [E|E]; cbn [option_list] in *.
    + rewrite E, Hd. cbn [default]. set (tid := meta_text "task_id" metadata) in *. assert (Hne : tid ≠ id) by congruence.
      assert (Hnew : ∀ x, tracked id n t (later ++ [tid]) (<[tid := x]> d)).
      { intros x. destruct Htr as [H1 H2]. split; [by rewrite lookup_insert_ne|]. intros k n' t' [[<- _]|[_ Hk]]%lookup_insert_Some Et Hle; [right; set_solver|].
        destruct (H2 _ _ _ Hk Et Hle); [by left|right; set_solver]. }
      destruct p; cbn [snd]; eexists; (split; [by rewrite lookup_insert_eq|]).
      * by apply clean_tracked.
      * by apply tracked_grow.
      * destruct Htr as [H1 H2]. split; [by rewrite lookup_delete_ne|]. intros k n' t' [_ Hk]%lookup_delete_Some Et Hle.
        destruct (H2 _ _ _ Hk Et Hle); [by left|right; set_solver].
    + rewrite app_nil_r in *. exists d. split; [|done]. destruct p; cbn [snd]; by rewrite lookup_insert_ne.
  - cbn [option_list] in *. rewrite app_nil_r in *. unfold load. destruct (negb _); [by exists d|]. cbn [snd]. unfold with_dir.
    destruct (decide (token_key token = key)) as [<-|Hk].
    + eexists. rewrite lookup_alter_eq, Hd. split; [done|]. by apply clean_tracked.
    + exists d. by rewrite lookup_alter_ne.
  - cbn [option_list] in *. rewrite app_nil_r in *. unfold with_dir. destruct (decide (token_key token = key)) as [<-|Hk].
    + eexists. rewrite lookup_alter_eq, Hd. split; [done|]. by apply clean_tracked.
    + exists d. by rewrite lookup_alter_ne.
  - cbn [option_list] in *. rewrite app_nil_r in *. eexists. unfold cleanup_all. rewrite lookup_fmap, Hd. split; [done|]. by apply clean_tracked.
Qed.

(** A tracked task that is well formed is found. *)
Lemma load_tracked token id fields out err t later h now :
  TASK_ID_PATTERN id = true → _read_metadata id (TaskDir (Some (JObj fields)) (Some out) (Some err)) = Some fields → timestamp fields = Some t →
  ¬ (fround (t + inject_Z retention_seconds) <= now)%Q → Z.of_nat (length later) < max_per_token →
  tracked_in (token_key token) id (TaskDir (Some (JObj fields)) (Some out) (Some err)) t later h →
  (load iterdir retention_seconds max_per_token token id now h).1 = archived_task fields out err.
Proof.
  intros Hp Hm Ht Hn Hl (d & Hd & Htr). unfold load. rewrite Hp. cbn [negb fst]. unfold with_dir. rewrite lookup_alter_eq, Hd. cbn [fmap option_fmap option_map mbind option_bind].
  destruct (clean_tracked now id (TaskDir (Some (JObj fields)) (Some out) (Some err)) t later d) as [-> _]; try done.
  - unfold time_of. by rewrite Hm.
  - cbn [mbind option_bind]. by rewrite Hm.
Qed.

(** Saving the newest task of a token begins to track it. *)
Lemma save_tracked token metadata out err now later h :
  let id := meta_text "task_id" metadata in let n := TaskDir (Some (payload metadata now)) (Some out) (Some err) in
  TASK_ID_PATTERN id = true → time_of id n = Some now → ¬ (fround (now + inject_Z retention_seconds) <= later)%Q → 0 < max_per_token →
  (∀ d k n' t', h !! token_key token = Some d → d !! k = Some n' → time_of k n' = Some t' → (t' < now)%Q) →
  tracked_in (token_key token) id n now [] (save iterdir retention_seconds max_per_token Saved token metadata out err now later h).2.
Proof.
  intros id n Hp Ht Hn Hm Hold. unfold save. fold id. rewrite Hp. cbn [negb snd]. eexists. rewrite lookup_insert_eq. split; [done|].
  apply clean_tracked; try done. split; [by rewrite lookup_insert_eq|]. intros k n' t' [[<- <-]|[Hne Hk]]%lookup_insert_Some Et Hle; [by left|].
  destruct (h !! token_key token) as [d|] eqn:Ed; cbn in Hk; [|done]. specialize (Hold d k n' t' eq_refl Hk Et). exfalso. by eapply Qle_not_lt.
Qed.
End cleaning.
