(* ===== verification/TaskRegistry.v ===== *)
(** * TaskRegistry: shell and plugin tasks, live and archived

    Models class [TaskRegistry] of src/openkapsel/execution/tasks.py with the part of
    [ShellTask] and of its worker threads that the registry sees.  Task objects live
    in a heap, because the registry maps an id to an object and its worker keeps the
    object after the registry has dropped it.  A worker takes its last steps (finish,
    archive, leave the registry) one at a time, so that the operations of other
    threads come between them.  Processes, signals and the two locks are left out:
    each operation that holds the lock of the registry is one step. *)

From Stdlib Require Import ZArith QArith Lia Ascii String.
From stdpp Require Import base tactics list gmap strings fin_maps.
From S2P Require Import Prelude Hashing Dict Tokens Binary64 TaskOutput TaskHistory.

Local Open Scope Z_scope.

(** ** Tasks *)

(** What the caller of [start] or [start_rpc] fixes. *)
Record launch := {
  l_command : string;
  l_cwd : string;
  l_owner : string;
  l_interactive : bool;
  l_sandboxed : bool;
  l_backend : option string;
  l_network : bool;
  l_limited : bool;
  l_rpc : option (string * string * bool);
  l_started_at : string
}.

(** Where the worker of a task is: at work, done with the status set, done with the
    attempt to archive, gone from the registry. *)
Inductive phase := Working | Finished | Archived | Gone.

Record task := {
  t_id : string;
  t_launch : launch;
  t_phase : phase;
  t_exit : json;
  t_error : json;
  t_result : json;
  t_finished_at : option string;
  t_timed_out : bool;
  t_interrupted : bool;
  t_killed : bool;
  t_stdout : BoundedOutput;
  t_stderr : BoundedOutput
}.

Definition t_owner (t : task) : string := t.(t_launch).(l_owner).
Definition is_working (t : task) : bool := match t.(t_phase) with Working => true | _ => false end.
Definition is_gone (t : task) : bool := match t.(t_phase) with Gone => true | _ => false end.
Definition status (t : task) : string := if is_working t then "running" else "finished".

Definition new_task (id : string) (l : launch) (limit : Z) : task :=
  {| t_id := id; t_launch := l; t_phase := Working; t_exit := JNull; t_error := JNull; t_result := JNull; t_finished_at := None;
     t_timed_out := false; t_interrupted := false; t_killed := false; t_stdout := new_output limit; t_stderr := new_output limit |}.

Definition jopt (o : option string) : json := match o with Some s => JStr s | None => JNull end.

(** [serialize] without the two output texts. *)
Definition summary (t : task) (stdin_open : bool) : list (string * json) :=
  let l := t.(t_launch) in
  [("task_id", JStr t.(t_id)); ("status", JStr (status t)); ("command", JStr l.(l_command)); ("cwd", JStr l.(l_cwd)); ("exit_code", t.(t_exit));
   ("stdout_truncated_bytes", JInt (snapshot_bytes t.(t_stdout)).2); ("stderr_truncated_bytes", JInt (snapshot_bytes t.(t_stderr)).2);
   ("started_at", JStr l.(l_started_at)); ("finished_at", jopt t.(t_finished_at)); ("timed_out", JBool t.(t_timed_out));
   ("interrupted", JBool t.(t_interrupted)); ("force_killed", JBool t.(t_killed)); ("interactive", JBool l.(l_interactive));
   ("stdin_open", JBool stdin_open); ("error", t.(t_error)); ("sandboxed", JBool l.(l_sandboxed)); ("sandbox_backend", jopt l.(l_backend));
   ("network_access", JBool l.(l_network)); ("resource_limited", JBool l.(l_limited))]%string ++
  match l.(l_rpc) with
  | Some (family, operation, write) =>
      [("kind", JStr "rpc"); ("rpc_family", JStr family); ("rpc_operation", JStr operation); ("write", JBool write);
       ("execution", JStr "task"); ("result", t.(t_result))]%string
  | None => []
  end.

(** What the worker archives; the input of the process is closed by then. *)
Definition metadata (t : task) : list (string * json) :=
  dset "stderr_truncated_bytes" (JInt (snapshot_bytes t.(t_stderr)).2)
    (dset "stdout_truncated_bytes" (JInt (snapshot_bytes t.(t_stdout)).2) (summary t false)).

Definition set_phase (p : phase) (t : task) : task :=
  {| t_id := t.(t_id); t_launch := t.(t_launch); t_phase := p; t_exit := t.(t_exit); t_error := t.(t_error); t_result := t.(t_result);
     t_finished_at := t.(t_finished_at); t_timed_out := t.(t_timed_out); t_interrupted := t.(t_interrupted); t_killed := t.(t_killed);
     t_stdout := t.(t_stdout); t_stderr := t.(t_stderr) |}.

Definition set_flags (timed_out interrupted killed : bool) (t : task) : task :=
  {| t_id := t.(t_id); t_launch := t.(t_launch); t_phase := t.(t_phase); t_exit := t.(t_exit); t_error := t.(t_error); t_result := t.(t_result);
     t_finished_at := t.(t_finished_at); t_timed_out := t.(t_timed_out) || timed_out; t_interrupted := t.(t_interrupted) || interrupted;
     t_killed := t.(t_killed) || killed; t_stdout := t.(t_stdout); t_stderr := t.(t_stderr) |}.

Definition add_output (err : bool) (chunk : bytes) (t : task) : task :=
  {| t_id := t.(t_id); t_launch := t.(t_launch); t_phase := t.(t_phase); t_exit := t.(t_exit); t_error := t.(t_error); t_result := t.(t_result);
     t_finished_at := t.(t_finished_at); t_timed_out := t.(t_timed_out); t_interrupted := t.(t_interrupted); t_killed := t.(t_killed);
     t_stdout := if err then t.(t_stdout) else append chunk t.(t_stdout); t_stderr := if err then append chunk t.(t_stderr) else t.(t_stderr) |}.

Definition finish (exit error result : json) (at_ : string) (t : task) : task :=
  {| t_id := t.(t_id); t_launch := t.(t_launch); t_phase := Finished; t_exit := exit; t_error := error; t_result := result;
     t_finished_at := Some at_; t_timed_out := t.(t_timed_out); t_interrupted := t.(t_interrupted); t_killed := t.(t_killed);
     t_stdout := t.(t_stdout); t_stderr := t.(t_stderr) |}.

(** ** The registry *)

Record registry := {
  objects : gmap nat task;
  tasks : gmap string nat;
  closing : bool;
  hist : history;
  next : nat
}.

Definition with_objects (f : gmap nat task → gmap nat task) (s : registry) : registry :=
  {| objects := f s.(objects); tasks := s.(tasks); closing := s.(closing); hist := s.(hist); next := s.(next) |}.
Definition with_hist (h : history) (s : registry) : registry :=
  {| objects := s.(objects); tasks := s.(tasks); closing := s.(closing); hist := h; next := s.(next) |}.

Definition empty_registry (h : history) : registry := {| objects := ∅; tasks := ∅; closing := false; hist := h; next := 0 |}.

Section registry.
Context (iterdir : tdir → list (string * node)).
Context (retention_seconds max_finished : Z).
Context (output_limit max_per_owner max_global : Z).

Abbreviation h_load := (load iterdir retention_seconds max_finished).
Abbreviation h_save := (save iterdir retention_seconds max_finished).

(** The tasks of the registry whose status is running. *)
Definition running (s : registry) : list (nat * task) :=
  omap (λ p : string * nat, t ← s.(objects) !! p.2; if is_working t then Some (p.2, t) else None) (map_to_list s.(tasks)).

Definition limit_error (owner : string) (prefix : string) (s : registry) : option ApiError :=
  let running := running s in
  if max_per_owner <=? Z.of_nat (length (filter (λ p, t_owner p.2 = owner) running)) then Some (api_error 429 (prefix +:+ "_token_limit_reached"))
  else if max_global <=? Z.of_nat (length running) then Some (api_error 429 (prefix +:+ "_global_limit_reached"))
  else None.

Definition ID_TRIES : nat := 128.

(** [for _ in range(128)]: an id that is neither live nor archived for the owner. *)
Fixpoint allocate (n : nat) (draws : nat → string) (clock : nat → Q) (owner : string) (tasks : gmap string nat) (h : history) : option string * history :=
  match n with
  | 0%nat => (None, h)
  | S n' =>
      let i := (ID_TRIES - n)%nat in
      match tasks !! draws i with
      | Some _ => allocate n' draws clock owner tasks h
      | None => match h_load owner (draws i) (clock i) h with
                | (None, h') => (Some (draws i), h')
                | (Some _, h') => allocate n' draws clock owner tasks h'
                end
      end
  end.

Definition add_task (id : string) (l : launch) (s : registry) : registry :=
  {| objects := <[s.(next) := new_task id l output_limit]> s.(objects); tasks := <[id := s.(next)]> s.(tasks); closing := s.(closing);
     hist := s.(hist); next := S s.(next) |}.

(** [cgroup] is what [ensure_capacity] raises for the limits of the launch, if anything. *)
Definition start (cgroup : option ApiError) (l : launch) (draws : nat → string) (clock : nat → Q) (s : registry) : res ApiError nat * registry :=
  if s.(closing) then (Err (api_error 503 "shell_registry_closing"), s)
  else match cgroup with
  | Some e => (Err e, s)
  | None =>
      match limit_error l.(l_owner) "shell_task" s with
      | Some e => (Err e, s)
      | None =>
          match allocate ID_TRIES draws clock l.(l_owner) s.(tasks) s.(hist) with
          | (None, h) => (Err (api_error 503 "task_id_exhausted"), with_hist h s)
          | (Some id, h) => (Ok s.(next), add_task id l (with_hist h s))
          end
      end
  end.

Definition start_rpc (l : launch) (draw : string) (s : registry) : res ApiError nat * registry :=
  if s.(closing) then (Err (api_error 503 "task_registry_closing"), s)
  else match limit_error l.(l_owner) "task" s with
  | Some e => (Err e, s)
  | None => (Ok s.(next), add_task ("task_" +:+ draw) l s)
  end.

Inductive found := Live (u : nat) | FromHistory (a : ArchivedTask).

Definition get (id owner : string) (now : Q) (s : registry) : res ApiError found * registry :=
  let archived := match h_load owner id now s.(hist) with
                  | (Some a, h) => (Ok (FromHistory a), with_hist h s)
                  | (None, h) => (Err (api_error 404 "task_not_found"), with_hist h s)
                  end in
  match s.(tasks) !! id with
  | Some u => match s.(objects) !! u with
              | Some t => if String.eqb (t_owner t) owner then (Ok (Live u), s) else archived
              | None => archived
              end
  | None => archived
  end.

(** [interrupt] and [kill], but for the signal: the flags of a task that still runs. *)
Definition interrupt (kill : bool) (id owner : string) (now : Q) (s : registry) : res ApiError found * registry :=
  match get id owner now s with
  | (Ok (Live u), s') => (Ok (Live u), with_objects (alter (λ t, if is_working t then set_flags false true kill t else t) u) s')
  | r => r
  end.

(** ** Steps *)

Inductive action :=
| Start (cgroup : option ApiError) (l : launch) (draws : nat → string) (clock : nat → Q)
| StartRpc (l : launch) (draw : string)
| Get (id owner : string) (now : Q)
| Interrupt (kill : bool) (id owner : string) (now : Q)
| ListAll (owner : string) (now : Q)
| Cleanup (now : Q)
| Close
| CloseKill
| Output (u : nat) (err : bool) (chunk : bytes)
| TimeOut (u : nat)
| Finish (u : nat) (exit error result : json) (at_ : string)
| Archive (u : nat) (p : progress) (now later : Q)
| Leave (u : nat).

Definition when_phase (p : phase) (u : nat) (s : registry) (f : task → registry) : registry :=
  match s.(objects) !! u with
  | Some t => match p, t.(t_phase) with Working, Working | Finished, Finished | Archived, Archived | Gone, Gone => f t | _, _ => s end
  | None => s
  end.

(** [close] marks every task of the registry, and again those that remain. *)
Definition mark_all (interrupted killed : bool) (s : registry) : gmap nat task :=
  map_imap (λ u t, Some (if bool_decide (s.(tasks) !! t.(t_id) = Some u) then set_flags false interrupted killed t else t)) s.(objects).

Definition step (s : registry) (a : action) : registry :=
  match a with
  | Start cgroup l draws clock => (start cgroup l draws clock s).2
  | StartRpc l draw => (start_rpc l draw s).2
  | Get id owner now => (get id owner now s).2
  | Interrupt kill id owner now => (interrupt kill id owner now s).2
  | ListAll owner now => with_hist (hexec iterdir retention_seconds max_finished s.(hist) (ListTasks owner now)) s
  | Cleanup now => with_hist (hexec iterdir retention_seconds max_finished s.(hist) (CleanupAll now)) s
  | Close => if s.(closing) then s
             else {| objects := mark_all true false s; tasks := s.(tasks); closing := true; hist := s.(hist); next := s.(next) |}
  | CloseKill => if s.(closing) then with_objects (λ _, mark_all false true s) s else s
  | Output u err chunk => when_phase Working u s (λ t, with_objects (insert u (add_output err chunk t)) s)
  | TimeOut u => when_phase Working u s (λ t, with_objects (insert u (set_flags true false false t)) s)
  | Finish u exit error result at_ => when_phase Working u s (λ t, with_objects (insert u (finish exit error result at_ t)) s)
  | Archive u p now later =>
      when_phase Finished u s (λ t,
        with_objects (insert u (set_phase Archived t))
          (with_hist (h_save p (t_owner t) (metadata t) (snapshot_bytes t.(t_stdout)).1 (snapshot_bytes t.(t_stderr)).1 now later s.(hist)).2 s))
  | Leave u =>
      when_phase Archived u s (λ t,
        {| objects := <[u := set_phase Gone t]> s.(objects);
           tasks := if bool_decide (s.(tasks) !! t.(t_id) = Some u) then delete t.(t_id) s.(tasks) else s.(tasks);
           closing := s.(closing); hist := s.(hist); next := s.(next) |})
  end.

Definition run (s : registry) (acts : list action) : registry := foldl step s acts.

End registry.

(** ** How a step changes the tasks *)

Section theorems.
Context (iterdir : tdir → list (string * node)).
Hypothesis iterdir_perm : ∀ d, iterdir d ≡ₚ map_to_list d.
Context (retention_seconds max_finished : Z).
Context (output_limit max_per_owner max_global : Z).

Abbreviation rstep := (step iterdir retention_seconds max_finished output_limit max_per_owner max_global).
Abbreviation rrun := (run iterdir retention_seconds max_finished output_limit max_per_owner max_global).
Abbreviation limited := (limit_error max_per_owner max_global).
Abbreviation alloc := (allocate iterdir retention_seconds max_finished).

(** The output of a task that is done stays as it is. *)
Definition evolves (t t' : task) : Prop :=
  t'.(t_id) = t.(t_id) ∧ t'.(t_launch) = t.(t_launch) ∧ is_gone t' = is_gone t ∧ (is_working t' = true → is_working t = true) ∧
  (is_working t = false → t'.(t_stdout) = t.(t_stdout) ∧ t'.(t_stderr) = t.(t_stderr)) ∧ (t.(t_phase) = Archived → t'.(t_phase) = Archived).

Definition same_shape (s s' : registry) : Prop :=
  s'.(tasks) = s.(tasks) ∧ s'.(next) = s.(next) ∧ ∀ u, option_Forall2 evolves (s.(objects) !! u) (s'.(objects) !! u).

Lemma evolves_refl t : evolves t t.
Proof. done. Qed.

Lemma option_evolves_refl (o : option task) : option_Forall2 evolves o o.
Proof. destruct o; constructor. apply evolves_refl. Qed.

Lemma shape_refl s h : same_shape s (with_hist h s).
Proof. split; [done|]. split; [done|]. intros u. apply option_evolves_refl. Qed.

Lemma shape_insert s u t t' : s.(objects) !! u = Some t → evolves t t' → same_shape s (with_objects (insert u t') s).
Proof.
  intros Hu He. split; [done|]. split; [done|]. intros v. cbn. destruct (decide (v = u)) as [->|Hne].
  - rewrite lookup_insert_eq, Hu. by constructor.
  - rewrite lookup_insert_ne by done. apply option_evolves_refl.
Qed.

Lemma shape_alter s f u : (∀ t, evolves t (f t)) → same_shape s (with_objects (alter f u) s).
Proof.
  intros Hf. split; [done|]. split; [done|]. intros v. cbn. destruct (decide (v = u)) as [->|Hne].
  - rewrite lookup_alter_eq. destruct (_ !! u); constructor. apply Hf.
  - rewrite lookup_alter_ne by done. apply option_evolves_refl.
Qed.

Lemma evolves_flags a b c t : evolves t (set_flags a b c t).
Proof. done. Qed.

Lemma shape_mark s a b : ∀ u, option_Forall2 evolves (s.(objects) !! u) (mark_all a b s !! u).
Proof.
  intros u. unfold mark_all. rewrite map_lookup_imap. destruct (_ !! u) as [t|]; cbn; constructor. case_bool_decide; [apply evolves_flags|apply evolves_refl].
Qed.

Lemma get_shape id owner now s : same_shape s (get iterdir retention_seconds max_finished id owner now s).2.
Proof.
  unfold get. destruct (load _ _ _ _ _ _ _) as [[a|] h]; destruct (_ !! id) as [u|]; try apply shape_refl;
    (destruct (_ !! u) as [t|]; [destruct (String.eqb _ _)|]; try apply shape_refl); exact (shape_refl s (hist s)) || (destruct s; apply shape_refl).
Qed.

(** A task that is added, and one that leaves. *)
Definition origin (s : registry) (a : action) (id : string) (l : launch) (h : history) : Prop :=
  match a with
  | Start _ l' draws clock => l' = l ∧ alloc ID_TRIES draws clock l.(l_owner) s.(tasks) s.(hist) = (Some id, h)
  | StartRpc l' draw => l' = l ∧ id = "task_" +:+ draw
  | _ => False
  end.

Definition adds (s : registry) (a : action) (s' : registry) : Prop :=
  ∃ id l h, origin s a id l h ∧ s' = add_task output_limit id l (with_hist h s) ∧ limited l.(l_owner) "shell_task" s = None ∧ s.(tasks) !! id = None ∧
    TASK_ID_PATTERN id = true.

Definition leaves (s s' : registry) : Prop :=
  ∃ u t, s.(objects) !! u = Some t ∧ t.(t_phase) = Archived ∧ s'.(objects) = <[u := set_phase Gone t]> s.(objects) ∧ s'.(next) = s.(next) ∧
    s'.(tasks) = if bool_decide (s.(tasks) !! t.(t_id) = Some u) then delete t.(t_id) s.(tasks) else s.(tasks).

(** The ids that are drawn have the form of task ids; a plugin task has an id that was
    not used before. *)
Definition permitted (s : registry) (a : action) : Prop :=
  match a with
  | Start _ _ draws _ => ∀ i, TASK_ID_PATTERN (draws i) = true
  | StartRpc l draw =>
      TASK_ID_PATTERN ("task_" +:+ draw) = true ∧ s.(tasks) !! ("task_" +:+ draw)%string = None ∧
      (∀ u t, s.(objects) !! u = Some t → t.(t_id) ≠ "task_" +:+ draw) ∧
      ∀ d, s.(hist) !! token_key l.(l_owner) = Some d → d !! ("task_" +:+ draw)%string = None
  | _ => True
  end.

Lemma allocate_free n draws clock owner ts h id h' : alloc n draws clock owner ts h = (Some id, h') → ts !! id = None ∧ ∃ i, id = draws i.
Proof.
  revert h. induction n as [|n IH]; intros h; cbn [allocate]; [done|]. destruct (ts !! draws _) eqn:E; [apply IH|].
  destruct (load _ _ _ _ _ _ _) as [[a|] h1]; [apply IH|]. intros [= <- <-]. eauto.
Qed.

Lemma limit_prefix owner p q s : limited owner p s = None → limited owner q s = None.
Proof. unfold limit_error. destruct (_ <=? _); [done|]. by destruct (_ <=? _). Qed.

Lemma shape_same s : same_shape s s.
Proof. split; [done|]. split; [done|]. intros u. apply option_evolves_refl. Qed.

Lemma evolves_trans t u v : evolves t u → evolves u v → evolves t v.
Proof.
  intros (A1 & A2 & A3 & A4 & A5 & A6) (B1 & B2 & B3 & B4 & B5 & B6). split; [congruence|]. split; [congruence|]. split; [congruence|]. split; [auto|].
  split; [|auto]. intros H. assert (is_working u = false) as Hu by (destruct (is_working u); [by rewrite A4 in H|done]).
  destruct (A5 H), (B5 Hu). split; congruence.
Qed.

Lemma shape_trans s t u : same_shape s t → same_shape t u → same_shape s u.
Proof.
  intros (A1 & A2 & A3) (B1 & B2 & B3). split; [congruence|]. split; [congruence|]. intros v. specialize (A3 v). specialize (B3 v).
  inversion A3 as [x y Hxy Ex Ey|Ex Ey]; rewrite <- Ey in B3; inversion B3; subst; constructor. by eapply evolves_trans.
Qed.

Lemma when_phase_cases p u s f :
  when_phase p u s f = s ∨ ∃ t, s.(objects) !! u = Some t ∧ t.(t_phase) = p ∧ when_phase p u s f = f t.
Proof.
  unfold when_phase. destruct (_ !! u) as [t|]; [|by left]. destruct p, (t_phase t) eqn:E; eauto.
Qed.

Lemma step_cases s a : permitted s a → same_shape s (rstep s a) ∨ adds s a (rstep s a) ∨ leaves s (rstep s a).
Proof.
  intros Hp. destruct a as [cgroup l draws clock|l draw|id owner now|kill id owner now|owner now|now| | |u err chunk|u|u ex er re at_|u p now later|u]; cbn [step].
  - unfold start. destruct (closing s); [left; apply shape_same|]. destruct cgroup; [left; apply shape_same|].
    destruct (limit_error _ _ _ _ _) eqn:El; [left; apply shape_same|]. destruct (allocate _ _ _ _ _ _ _ _ _) as [[id|] h] eqn:Ea; [|left; apply shape_refl].
    right; left. assert (Ea' := Ea). apply allocate_free in Ea as [Ht [i ->]]. by exists (draws i), l, h.
  - unfold start_rpc. destruct (closing s); [left; apply shape_same|]. destruct (limit_error _ _ _ _ _) eqn:El; [left; apply shape_same|].
    right; left. destruct Hp as (Hv & Ht & _). exists ("task_" +:+ draw), l, s.(hist). split; [done|]. split; [by destruct s|]. split; [by eapply limit_prefix|done].
  - left. apply get_shape.
  - left. unfold interrupt. pose proof (get_shape id owner now s) as Hg.
    destruct (get _ _ _ _ _ _ _) as [[[u|a]|e] s'] eqn:E; cbn [snd] in *; [|done..]. eapply shape_trans; [done|].
    apply shape_alter. intros t. by destruct (is_working t).
  - left. apply shape_refl.
  - left. apply shape_refl.
  - left. destruct (closing s); [apply shape_same|]. split; [done|]. split; [done|]. apply shape_mark.
  - left. destruct (closing s); [|apply shape_same]. split; [done|]. split; [done|]. apply shape_mark.
  - left. destruct (when_phase_cases Working u s (λ t, with_objects (insert u (add_output err chunk t)) s)) as [->|(t & Hu & Hph & ->)]; [apply shape_same|].
    apply (shape_insert s u t); [done|]. unfold evolves, is_working, is_gone. cbn. by rewrite Hph.
  - left. destruct (when_phase_cases Working u s (λ t, with_objects (insert u (set_flags true false false t)) s)) as [->|(t & Hu & Hph & ->)]; [apply shape_same|].
    by apply (shape_insert s u t).
  - left. destruct (when_phase_cases Working u s (λ t, with_objects (insert u (finish ex er re at_ t)) s)) as [->|(t & Hu & Hph & ->)]; [apply shape_same|].
    apply (shape_insert s u t); [done|]. unfold evolves, is_working, is_gone. cbn. by rewrite Hph.
  - left. match goal with |- same_shape _ (when_phase ?a ?b ?c ?d) => destruct (when_phase_cases a b c d) as [->|(t & Hu & Hph & ->)]; [apply shape_same|] end.
    match goal with |- same_shape _ (with_objects _ (with_hist ?h _)) => destruct (shape_insert s u t (set_phase Archived t) Hu) as (H1 & H2 & H3) end; [|by split].
    unfold evolves, is_working, is_gone. cbn. by rewrite Hph.
  - match goal with |- context [when_phase ?a ?b ?c ?d] => destruct (when_phase_cases a b c d) as [->|(t & Hu & Hph & ->)] end; [left; apply shape_same|].
    right; right. by exists u, t.
Qed.

(** ** The registry and the heap agree *)

Definition good (s : registry) : Prop :=
  (∀ id u, s.(tasks) !! id = Some u → ∃ t, s.(objects) !! u = Some t ∧ t.(t_id) = id ∧ is_gone t = false) ∧
  (∀ u t, s.(objects) !! u = Some t → is_gone t = false → s.(tasks) !! t.(t_id) = Some u) ∧
  (∀ u, (s.(next) ≤ u)%nat → s.(objects) !! u = None) ∧ (∀ u t, s.(objects) !! u = Some t → TASK_ID_PATTERN t.(t_id) = true).

Lemma shape_back s s' u t' : same_shape s s' → s'.(objects) !! u = Some t' → ∃ t, s.(objects) !! u = Some t ∧ evolves t t'.
Proof. intros (_ & _ & H) E. specialize (H u). rewrite E in H. inversion H; subst. eauto. Qed.

Lemma shape_forth s s' u t : same_shape s s' → s.(objects) !! u = Some t → ∃ t', s'.(objects) !! u = Some t' ∧ evolves t t'.
Proof. intros (_ & _ & H) E. specialize (H u). rewrite E in H. inversion H; subst. eauto. Qed.

Lemma good_shape s s' : same_shape s s' → good s → good s'.
Proof.
  intros Hs (G1 & G2 & G3 & G4). assert (Hs' := Hs). destruct Hs as (Ht & Hn & Ho). split; [|split; [|split]].
  - intros id u. rewrite Ht. intros (t & Hu & Hid & Hg)%G1. destruct (shape_forth _ _ _ _ Hs' Hu) as (t' & Hu' & E1 & _ & E3 & _). exists t'. split; [done|]. split; congruence.
  - intros u t' Hu' Hg. destruct (shape_back _ _ _ _ Hs' Hu') as (t & Hu & E1 & _ & E3 & _). rewrite Ht, E1. apply G2; congruence.
  - intros u. rewrite Hn. intros H%G3. specialize (Ho u). rewrite H in Ho. by inversion Ho.
  - intros u t' Hu'. destruct (shape_back _ _ _ _ Hs' Hu') as (t & Hu & -> & _). by eapply G4.
Qed.

Lemma good_adds s a s' : adds s a s' → good s → good s'.
Proof.
  intros (id & l & h & _ & -> & _ & Hf & Hv) (G1 & G2 & G3 & G4). cbn. split; [|split; [|split]]; cbn.
  - intros id' u [[<- <-]|[Hne Hu]]%lookup_insert_Some; [eexists; by rewrite lookup_insert_eq|].
    destruct (G1 _ _ Hu) as (t & Ht & R). exists t. split; [|done]. rewrite lookup_insert_ne; [done|]. intros E. rewrite (G3 u) in Ht; [done|lia].
  - intros u t [[<- <-]|[Hne Hu]]%lookup_insert_Some Hg; [by rewrite lookup_insert_eq|]. specialize (G2 _ _ Hu Hg).
    rewrite lookup_insert_ne; [done|]. congruence.
  - intros u Hle. rewrite lookup_insert_ne by lia. apply G3. lia.
  - intros u t [[<- <-]|[Hne Hu]]%lookup_insert_Some; [done|by eapply G4].
Qed.

Lemma good_leaves s s' : leaves s s' → good s → good s'.
Proof.
  intros (u & t & Hu & Hp & Ho & Hn & Ht) (G1 & G2 & G3 & G4).
  assert (Hr : s.(tasks) !! t.(t_id) = Some u) by (apply G2; [done|]; unfold is_gone; by rewrite Hp).
  rewrite bool_decide_true in Ht by done. split; [|split; [|split]]; rewrite ?Ho, ?Ht, ?Hn.
  - intros id v [Hne Hv]%lookup_delete_Some. destruct (G1 _ _ Hv) as (t' & Hv' & Hid & Hg). exists t'. split; [|done].
    rewrite lookup_insert_ne; [done|]. intros <-. rewrite Hu in Hv'. congruence.
  - intros v t' [[<- <-]|[Hne Hv]]%lookup_insert_Some Hg; [done|]. specialize (G2 _ _ Hv Hg). rewrite lookup_delete_ne; [done|]. congruence.
  - intros v Hv. rewrite lookup_insert_ne; [by apply G3|]. intros <-. rewrite G3 in Hu; done.
  - intros v t' [[<- <-]|[Hne Hv]]%lookup_insert_Some; [exact (G4 _ _ Hu)|by eapply G4].
Qed.

Lemma good_step s a : permitted s a → good s → good (rstep s a).
Proof.
  intros Hp Hg. destruct (step_cases s a Hp) as [H|[H|H]]; [by eapply good_shape|by eapply good_adds|by eapply good_leaves].
Qed.

(** ** Limits *)

Definition counted (P : task → Prop) `{!∀ t, Decision (P t)} (s : registry) : Z :=
  Z.of_nat (base.size (filter (λ p : nat * task, is_working p.2 = true ∧ P p.2) s.(objects))).

Lemma running_objects s : good s → running s ≡ₚ map_to_list (filter (λ p : nat * task, is_working p.2 = true) s.(objects)).
Proof.
  intros (G1 & G2 & _ & _). apply NoDup_Permutation.
  - unfold running. assert (Hd : NoDup (map_to_list (tasks s)).*1) by apply NoDup_fst_map_to_list.
    assert (Hin : ∀ p, p ∈ map_to_list (tasks s) → tasks s !! p.1 = Some p.2) by (intros [k v] Hp; by apply elem_of_map_to_list).
    revert Hd Hin. generalize (map_to_list (tasks s)) as l. induction l as [|p l IH]; [constructor|]. rewrite fmap_cons. intros [Hn Hd]%NoDup_cons Hin.
    cbn. assert (Hl : ∀ q, q ∈ l → tasks s !! q.1 = Some q.2) by (intros q Hq; apply Hin; by right).
    destruct (objects s !! p.2) as [t|] eqn:Et; cbn; [|by apply IH]. destruct (is_working t) eqn:Ew; [|by apply IH]. apply NoDup_cons. split; [|by apply IH].
    intros (q & Hq & E)%list_elem_of_omap. destruct (objects s !! q.2) as [t'|] eqn:Et'; cbn in E; [|done]. destruct (is_working t'); [|done]. injection E as E ->.
    apply Hn. apply list_elem_of_fmap. exists q. split; [|done]. destruct (G1 _ _ (Hin p (list_elem_of_here _ _))) as (tp & H1 & H2 & _).
    destruct (G1 _ _ (Hl q Hq)) as (tq & H3 & H4 & _). congruence.
  - apply NoDup_map_to_list.
  - intros [u t]. unfold running. rewrite list_elem_of_omap, elem_of_map_to_list, map_lookup_filter_Some. split.
    + intros ([id v] & Hp & E). cbn in E. destruct (objects s !! v) as [t'|] eqn:Ev; cbn in E; [|done]. destruct (is_working t') eqn:Ew; [|done]. by injection E as <- <-.
    + cbn. intros [Hu Hw]. exists (t.(t_id), u). cbn. rewrite Hu. cbn. rewrite Hw. split; [|done]. apply elem_of_map_to_list. apply G2; [done|].
      revert Hw. unfold is_working, is_gone. by destruct (t_phase t).
Qed.

Lemma counted_running P `{!∀ t, Decision (P t)} s : good s → counted P s = Z.of_nat (length (filter (λ p : nat * task, P p.2) (running s))).
Proof.
  intros Hg. unfold counted. f_equal. rewrite (running_objects s Hg), <- length_map_to_list. apply Permutation_length, NoDup_Permutation.
  - apply NoDup_map_to_list.
  - apply NoDup_filter, NoDup_map_to_list.
  - intros [u t]. rewrite list_elem_of_filter, !elem_of_map_to_list, !map_lookup_filter_Some. cbn. naive_solver.
Qed.

Lemma counted_le P `{!∀ t, Decision (P t)} s s' :
  (∀ u t', s'.(objects) !! u = Some t' → is_working t' = true → P t' → ∃ t, s.(objects) !! u = Some t ∧ is_working t = true ∧ P t) →
  counted P s' ≤ counted P s.
Proof.
  intros Hs. unfold counted. apply Nat2Z.inj_le. rewrite <- !size_dom. apply subseteq_size. intros u.
  rewrite !elem_of_dom. intros [t' [Hu [Hw Hp]]%map_lookup_filter_Some]. cbn in *. destruct (Hs u t' Hu Hw Hp) as (t & Ht & R).
  exists t. apply map_lookup_filter_Some. by cbn.
Qed.

Definition launched (P : launch → Prop) (t : task) : Prop := P t.(t_launch).
#[local] Instance launched_dec P `{!∀ l, Decision (P l)} t : Decision (launched P t).
Proof. unfold launched. apply _. Defined.

Lemma counted_step P `{!∀ l, Decision (P l)} s a :
  permitted s a → good s →
  counted (launched P) (rstep s a) ≤ counted (launched P) s ∨
  counted (launched P) (rstep s a) ≤ counted (launched P) s + 1 ∧ ∃ l, P l ∧ limited l.(l_owner) "shell_task" s = None.
Proof.
  intros Hp Hg. destruct (step_cases s a Hp) as [Hs|[Hs|Hs]].
  - left. apply counted_le. intros u t' Hu Hw HP. destruct (shape_back _ _ _ _ Hs Hu) as (t & Ht & _ & El & _ & Ew & _). exists t. unfold launched in *. rewrite El in HP. auto.
  - destruct Hs as (id & l & h & _ & -> & Hl & Hf & _). destruct (decide (P l)) as [HP|HP].
    + right. split; [|by exists l]. unfold counted. cbn. rewrite map_filter_insert_True by done. rewrite map_size_insert_None; [lia|].
      apply map_lookup_filter_None. left. destruct Hg as (_ & _ & G3 & _). by apply G3.
    + left. apply counted_le. cbn. intros u t' [[<- <-]|[Hne Hu]]%lookup_insert_Some Hw HP'; [done|]. by exists t'.
  - left. destruct Hs as (u & t & Hu & Hph & Ho & _ & _). apply counted_le. rewrite Ho. intros v t' [[<- <-]|[Hne Hv]]%lookup_insert_Some Hw HP; [done|]. by exists t'.
Qed.

Definition owned (owner : string) (l : launch) : Prop := l.(l_owner) = owner.
#[local] Instance owned_dec owner l : Decision (owned owner l).
Proof. unfold owned. apply _. Defined.

Definition anyone (l : launch) : Prop := True.
#[local] Instance anyone_dec l : Decision (anyone l).
Proof. by left. Defined.

Definition within_limits (s : registry) : Prop :=
  (∀ owner, counted (launched (owned owner)) s ≤ Z.max 0 max_per_owner) ∧ counted (launched anyone) s ≤ Z.max 0 max_global.

Lemma within_step s a : permitted s a → good s → within_limits s → within_limits (rstep s a).
Proof.
  intros Hp Hg [W1 W2]. split.
  - intros owner. specialize (W1 owner). destruct (counted_step (owned owner) s a Hp Hg) as [H|[H (l & Hl & E)]]; [lia|].
    unfold limit_error in E. destruct (_ <=? _) eqn:E1 in E; [done|]. apply Z.leb_gt in E1. unfold owned in Hl. subst owner.
    enough (counted (launched (owned (l_owner l))) s < max_per_owner) by lia. eapply Z.le_lt_trans; [|exact E1].
    rewrite counted_running by done. done.
  - destruct (counted_step anyone s a Hp Hg) as [H|[H (l & Hl & E)]]; [lia|].
    unfold limit_error in E. destruct (_ <=? _) in E; [done|]. destruct (_ <=? _) eqn:E1 in E; [done|]. apply Z.leb_gt in E1. rewrite (counted_running _ s Hg) in *.
    rewrite list_filter_all in * by done. lia.
Qed.

Fixpoint permitted_run (s : registry) (acts : list action) : Prop :=
  match acts with [] => True | a :: acts' => permitted s a ∧ permitted_run (rstep s a) acts' end.

Lemma good_run s acts : permitted_run s acts → good s → good (rrun s acts).
Proof. revert s. induction acts as [|a acts IH]; intros s; cbn; [done|]. intros [Hp Hr] Hg. apply IH; [done|by apply good_step]. Qed.

Lemma good_empty h : good (empty_registry h).
Proof. split; [|split; [|split]]; cbn; intros *; rewrite ?lookup_empty; done. Qed.

(** C28: In every interleaving of the operations with the steps of the workers, the
    workers that are at work are no more than the configured number, in total and for
    each token, when plugin tasks draw ids that are not in use. *)
Theorem running_tasks_bounded h acts :
  permitted_run (empty_registry h) acts →
  let s := rrun (empty_registry h) acts in
  (∀ owner, counted (launched (owned owner)) s ≤ Z.max 0 max_per_owner) ∧ counted (launched anyone) s ≤ Z.max 0 max_global.
Proof.
  intros Hp s. assert (Hw : within_limits (empty_registry h)) by (split; intros *; unfold counted; cbn; rewrite map_filter_empty, map_size_empty; lia).
  assert (H : ∀ acts s0, permitted_run s0 acts → good s0 → within_limits s0 → within_limits (rrun s0 acts)).
  { clear. induction acts as [|a acts IH]; intros s0; cbn; [done|]. intros [Hp Hr] Hg Hw. apply IH; [done|by apply good_step|by apply within_step]. }
  apply H; [done|apply good_empty|done].
Qed.

(** ** A finished task stays to be found *)

Definition expired (t now : Q) : Prop := (fround (t + inject_Z retention_seconds) <= now)%Q.

Definition act_timely (t : Q) (a : action) : Prop :=
  match a with
  | Start _ _ _ clock => ∀ i, ¬ expired t (clock i)
  | Get _ _ now | Interrupt _ _ _ now | ListAll _ now | Cleanup now => ¬ expired t now
  | Archive _ _ _ later => ¬ expired t later
  | _ => True
  end.

(** The tasks that a step archives for a token. *)
Definition archived_now (key : string) (s : registry) (a : action) : list string :=
  match a with
  | Archive u _ _ _ =>
      match s.(objects) !! u with
      | Some t => match t.(t_phase) with Finished => if String.eqb (token_key (t_owner t)) key then [t.(t_id)] else [] | _ => [] end
      | None => []
      end
  | _ => []
  end.

Fixpoint archived_later (key : string) (s : registry) (acts : list action) : list string :=
  match acts with [] => [] | a :: acts' => archived_now key s a ++ archived_later key (rstep s a) acts' end.

Definition saved_node (t : task) (now : Q) : node :=
  TaskDir (Some (payload (metadata t) now)) (Some t.(t_stdout).(o_data)) (Some t.(t_stderr).(o_data)).

Lemma metadata_id t : meta_text "task_id" (metadata t) = t.(t_id).
Proof. done. Qed.

Definition saved_fields (t : task) (now : Q) : list (string * json) := dset "archived_at" (JFloat now) (dset "version" (JInt 1) (metadata t)).

Lemma saved_metadata t now : is_working t = false → _read_metadata t.(t_id) (saved_node t now) = Some (saved_fields t now).
Proof.
  intros Hw. unfold _read_metadata, saved_node, payload. fold (saved_fields t now).
  assert (field "version" (saved_fields t now) = JInt 1) as -> by (unfold saved_fields, metadata, summary; destruct (l_rpc (t_launch t)) as [[[? ?] ?]|]; done).
  assert (field "task_id" (saved_fields t now) = JStr t.(t_id)) as -> by done. assert (field "status" (saved_fields t now) = JStr (status t)) as -> by done.
  unfold status. rewrite Hw. cbn [is_one is_text]. by rewrite String.eqb_refl.
Qed.

Lemma saved_timestamp t now : timestamp (saved_fields t now) = Some now.
Proof. unfold timestamp, saved_fields, metadata, summary. destruct (l_rpc (t_launch t)) as [[[? ?] ?]|]; done. Qed.

Lemma saved_task t now out err :
  ∃ a, archived_task (saved_fields t now) out err = Some a ∧
    a.(at_stdout) = {| ao_data := out; ao_dropped := t.(t_stdout).(o_dropped) |} ∧ a.(at_stderr) = {| ao_data := err; ao_dropped := t.(t_stderr).(o_dropped) |}.
Proof. unfold saved_fields, metadata, summary. destruct (l_rpc (t_launch t)) as [[[? ?] ?]|]; eexists; done. Qed.

Section followed.
Context (uid : nat) (t : task) (now : Q).
Hypothesis t_done : is_working t = false.
Hypothesis t_valid : TASK_ID_PATTERN t.(t_id) = true.

Abbreviation key := (token_key (t_owner t)).
Abbreviation tracked_now := (tracked_in key t.(t_id) (saved_node t now) now).

Lemma saved_time : time_of t.(t_id) (saved_node t now) = Some now.
Proof. unfold time_of. rewrite saved_metadata by done. apply saved_timestamp. Qed.

Lemma op_tracked o later h :
  timely retention_seconds now o → archives key o ≠ Some t.(t_id) → Z.of_nat (length (later ++ option_list (archives key o))) < max_finished →
  tracked_now later h → tracked_now (later ++ option_list (archives key o)) (hexec iterdir retention_seconds max_finished h o).
Proof. intros. apply hexec_tracked; try done. apply saved_time. Qed.

Lemma quiet_tracked o later h :
  archives key o = None → timely retention_seconds now o → Z.of_nat (length later) < max_finished → tracked_now later h →
  tracked_now later (hexec iterdir retention_seconds max_finished h o).
Proof. intros Ha Ht Hl H. pose proof (op_tracked o later h Ht) as G. rewrite Ha in G. cbn [option_list] in G. rewrite app_nil_r in G. by apply G. Qed.

Lemma load_tracked_keeps token id at_ later h :
  ¬ expired now at_ → Z.of_nat (length later) < max_finished → tracked_now later h →
  tracked_now later (load iterdir retention_seconds max_finished token id at_ h).2.
Proof. intros He Hl H. exact (quiet_tracked (Load token id at_) later h eq_refl He Hl H). Qed.

Lemma load_finds token at_ later h :
  token_key token = key → ¬ expired now at_ → Z.of_nat (length later) < max_finished → tracked_now later h →
  ∃ a, (load iterdir retention_seconds max_finished token t.(t_id) at_ h).1 = Some a ∧
    a.(at_stdout) = archive t.(t_stdout) ∧ a.(at_stderr) = archive t.(t_stderr).
Proof.
  intros Hk He Hl H. rewrite <- Hk in H. destruct (saved_task t now (o_data (t_stdout t)) (o_data (t_stderr t))) as (a & Ha & Ho & Hr). exists a. split; [|done].
  rewrite <- Ha. eapply load_tracked; [done|done|by apply saved_metadata|by apply saved_timestamp|done..|exact H].
Qed.

Lemma alloc_keeps n draws clock owner ts later h :
  (∀ i, ¬ expired now (clock i)) → Z.of_nat (length later) < max_finished → tracked_now later h → tracked_now later (alloc n draws clock owner ts h).2.
Proof.
  intros He Hl. revert h. induction n as [|n IH]; intros h H; cbn [allocate]; [done|]. destruct (ts !! draws _); [by apply IH|].
  pose proof (load_tracked_keeps owner (draws (ID_TRIES - S n)%nat) (clock (ID_TRIES - S n)%nat) later h (He _) Hl H) as G.
  destruct (load _ _ _ _ _ _ _) as [[a|] h1]; [by apply IH|done].
Qed.

(** The allocation never takes the id of a task that is archived for the owner. *)
Lemma alloc_avoids n draws clock owner ts later h id h' :
  (∀ i, ¬ expired now (clock i)) → Z.of_nat (length later) < max_finished → tracked_now later h → token_key owner = key →
  alloc n draws clock owner ts h = (Some id, h') → id ≠ t.(t_id).
Proof.
  intros He Hl H Hk. revert h H. induction n as [|n IH]; intros h H; cbn [allocate]; [done|]. generalize (ID_TRIES - S n)%nat as i. intros i.
  destruct (ts !! draws i); [by apply IH|]. pose proof (load_tracked_keeps owner (draws i) (clock i) later h (He _) Hl H) as G.
  destruct (load _ _ _ _ _ _ _) as [[a|] h1] eqn:El; [by apply IH|]. intros [= <- <-] E. rewrite E in El.
  destruct (load_finds owner (clock i) later h Hk (He _) Hl H) as (a & Ea & _). by rewrite El in Ea.
Qed.

Definition follows (later : list string) (s : registry) : Prop :=
  (∃ t', s.(objects) !! uid = Some t' ∧ t'.(t_id) = t.(t_id) ∧ t'.(t_launch) = t.(t_launch) ∧ t'.(t_stdout) = t.(t_stdout) ∧
     t'.(t_stderr) = t.(t_stderr) ∧ (t'.(t_phase) = Archived ∨ t'.(t_phase) = Gone)) ∧
  tracked_now later s.(hist) ∧
  ∀ u' t', u' ≠ uid → s.(objects) !! u' = Some t' → is_gone t' = false → t'.(t_id) = t.(t_id) → token_key (t_owner t') ≠ key.

Lemma get_tracked id owner at_ later s :
  ¬ expired now at_ → Z.of_nat (length later) < max_finished → tracked_now later s.(hist) →
  tracked_now later (get iterdir retention_seconds max_finished id owner at_ s).2.(hist).
Proof.
  intros He Hl H. pose proof (load_tracked_keeps owner id at_ later _ He Hl H) as G. unfold get. destruct (load _ _ _ _ _ _ _) as [[a|] h1];
    (destruct (tasks s !! id) as [u|]; [destruct (objects s !! u) as [x|]; [destruct (String.eqb _ _)|]|]); done.
Qed.

Lemma hist_step s a later :
  act_timely now a → t.(t_id) ∉ archived_now key s a → Z.of_nat (length (later ++ archived_now key s a)) < max_finished →
  tracked_now later s.(hist) → tracked_now (later ++ archived_now key s a) (rstep s a).(hist).
Proof.
  intros Ht Hid Hl H.
  assert (Hsame : archived_now key s a = [] → Z.of_nat (length later) < max_finished) by (intros E; by rewrite E, app_nil_r in Hl).
  destruct a as [cgroup l draws clock|l draw|id owner at_|kill id owner at_|owner at_|at_| | |u err chunk|u|u ex er re fin|u p at_ at2|u];
    try (rewrite app_nil_r; specialize (Hsame eq_refl)); cbn [step act_timely] in *.
  - unfold start. destruct (closing s); [done|]. destruct cgroup; [done|]. destruct (limit_error _ _ _ _ _); [done|].
    pose proof (alloc_keeps ID_TRIES draws clock (l_owner l) (tasks s) later _ Ht Hsame H) as G. by destruct (allocate _ _ _ _ _ _ _ _ _) as [[id|] h].
  - unfold start_rpc. destruct (closing s); [done|]. by destruct (limit_error _ _ _ _ _).
  - by apply get_tracked.
  - unfold interrupt. pose proof (get_tracked id owner at_ later s Ht Hsame H) as G. by destruct (get _ _ _ _ _ _ _) as [[[u|a]|e] s'].
  - by apply (quiet_tracked (ListTasks owner at_)).
  - by apply (quiet_tracked (CleanupAll at_)).
  - by destruct (closing s).
  - by destruct (closing s).
  - match goal with |- context [when_phase ?a ?b ?c ?d] => destruct (when_phase_cases a b c d) as [->|(x & Hu & Hph & ->)] end; done.
  - match goal with |- context [when_phase ?a ?b ?c ?d] => destruct (when_phase_cases a b c d) as [->|(x & Hu & Hph & ->)] end; done.
  - match goal with |- context [when_phase ?a ?b ?c ?d] => destruct (when_phase_cases a b c d) as [->|(x & Hu & Hph & ->)] end; done.
  - unfold archived_now, when_phase in *. destruct (objects s !! u) as [x|]; [|rewrite app_nil_r in *; done].
    destruct (t_phase x); try (rewrite app_nil_r in *; done). cbn [hist with_objects with_hist].
    pose proof (op_tracked (Save p (t_owner x) (metadata x) (snapshot_bytes (t_stdout x)).1 (snapshot_bytes (t_stderr x)).1 at_ at2) later (hist s) Ht) as G.
    cbn [archives] in G. rewrite metadata_id in G. destruct (String.eqb _ _); cbn [option_list] in G; apply G; try done. set_solver.
  - match goal with |- context [when_phase ?a ?b ?c ?d] => destruct (when_phase_cases a b c d) as [->|(x & Hu & Hph & ->)] end; done.
Qed.

(** A task that appears does not have the id of one that is archived for its token. *)
Lemma new_task_differs s a u t' later :
  permitted s a → act_timely now a → Z.of_nat (length later) < max_finished → tracked_now later s.(hist) →
  s.(objects) !! u = None → (rstep s a).(objects) !! u = Some t' → token_key (t_owner t') = key → t'.(t_id) ≠ t.(t_id).
Proof.
  intros Hp Ht Hl H Hn Hu Hk. destruct (step_cases s a Hp) as [Hs|[Hs|(v & x & Hv & _ & Ho & _)]].
  - destruct (shape_back _ _ _ _ Hs Hu) as (t0 & E & _). congruence.
  - destruct Hs as (id & l & h & Ho & Es & _). rewrite Es in Hu. cbn in Hu. apply lookup_insert_Some in Hu as [[_ <-]|[_ Hu]]; [|congruence].
    change (t_owner (new_task id l output_limit)) with (l_owner l) in Hk. change (t_id (new_task id l output_limit)) with id. destruct a; try done; cbn [origin act_timely permitted] in *; destruct Ho as [-> Ho].
    + exact (alloc_avoids _ _ _ _ _ later _ _ _ Ht Hl H Hk Ho).
    + intros E. destruct Hp as (_ & _ & _ & Hd), H as (d & Hd' & Hx & _). rewrite <- Hk in Hd'. specialize (Hd d Hd'). rewrite <- E, Ho in Hx. congruence.
  - rewrite Ho in Hu. apply lookup_insert_Some in Hu as [[<- _]|[_ Hu]]; congruence.
Qed.

Lemma follows_step s a later :
  permitted s a → good s → act_timely now a → Z.of_nat (length (later ++ archived_now key s a)) < max_finished →
  follows later s → follows (later ++ archived_now key s a) (rstep s a).
Proof.
  intros Hp Hg Ht Hl ((t' & Hu & Hid & Hla & Ho & He & Hph) & Htr & Hoth).
  assert (Hl' : Z.of_nat (length later) < max_finished) by (rewrite length_app in Hl; lia). split; [|split].
  - destruct (step_cases s a Hp) as [Hs|[(id & l & h & _ & -> & _)|(v & x & Hv & Hx & Hob & _)]].
    + destruct (shape_forth _ _ _ _ Hs Hu) as (t2 & Hu2 & E1 & E2 & E3 & E4 & E5 & E6). exists t2. split; [done|].
      destruct E5 as [E5 E7]; [unfold is_working; by destruct Hph as [-> | ->]|]. repeat split; try congruence.
      destruct Hph as [Hph|Hph]; [left; by apply E6|right]. unfold is_gone in E3. rewrite Hph in E3. by destruct (t_phase t2).
    + exists t'. split; [|done]. cbn. rewrite lookup_insert_ne; [done|]. intros E. destruct Hg as (_ & _ & G3 & _). rewrite G3 in Hu; [done|lia].
    + rewrite Hob. destruct (decide (v = uid)) as [->|Hne]; [|exists t'; by rewrite lookup_insert_ne].
      rewrite Hu in Hv. injection Hv as <-. eexists. rewrite lookup_insert_eq. by repeat split; [..|right].
  - apply hist_step; try done. unfold archived_now. destruct a; try by apply not_elem_of_nil. destruct (objects s !! u) as [x|] eqn:Ex; [|apply not_elem_of_nil].
    destruct (t_phase x) eqn:Ep; try apply not_elem_of_nil. destruct (String.eqb_spec (token_key (t_owner x)) key) as [Ek|Ek]; [|apply not_elem_of_nil].
    rewrite list_elem_of_singleton. intros E. destruct (decide (u = uid)) as [->|Hne]; [rewrite Hu in Ex; injection Ex as <-; destruct Hph; congruence|].
    eapply Hoth; [done..| |done|done]. unfold is_gone. by rewrite Ep.
  - intros u' t2 Hne Hu2 Hg2 Hid2 Hk. destruct (objects s !! u') as [t0|] eqn:E0.
    + destruct (step_cases s a Hp) as [Hs|[(id & l & h & _ & Es & _)|(v & x & Hv & Hx & Hob & _)]].
      * destruct (shape_back _ _ _ _ Hs Hu2) as (t3 & E3 & A1 & A2 & A3 & _). rewrite E0 in E3. injection E3 as <-.
        apply (Hoth u' t0); [done..|congruence|congruence|]. unfold t_owner in *. congruence.
      * rewrite Es in Hu2. cbn in Hu2. apply lookup_insert_Some in Hu2 as [[<- _]|[_ Hu2]]; [destruct Hg as (_ & _ & G3 & _); by rewrite G3 in E0|].
        by apply (Hoth u' t2).
      * rewrite Hob in Hu2. apply lookup_insert_Some in Hu2 as [[_ <-]|[_ Hu2]]; [done|]. by apply (Hoth u' t2).
    + by eapply (new_task_differs s a u' t2 later).
Qed.

Lemma follows_run acts s later :
  permitted_run s acts → good s → Forall (act_timely now) acts → Z.of_nat (length (later ++ archived_later key s acts)) < max_finished →
  follows later s → follows (later ++ archived_later key s acts) (rrun s acts).
Proof.
  revert s later. induction acts as [|a acts IH]; intros s later; cbn [archived_later permitted_run]; [intros; by rewrite app_nil_r|].
  intros [Hp Hr] Hg [Ht Hts]%Forall_cons Hl Hf. rewrite app_assoc in *. apply (IH (rstep s a)); try done; [by apply good_step|].
  apply follows_step; try done. rewrite length_app in Hl. lia.
Qed.

(** The two output streams that an answer of [get] gives access to. *)
Definition outputs (s : registry) (r : found) : option (ArchivedOutput * ArchivedOutput) :=
  match r with
  | Live u => (λ x, (archive x.(t_stdout), archive x.(t_stderr))) <$> s.(objects) !! u
  | FromHistory a => Some (a.(at_stdout), a.(at_stderr))
  end.

Lemma follows_found s later asked :
  good s → ¬ expired now asked → Z.of_nat (length later) < max_finished → follows later s →
  ∃ r, (get iterdir retention_seconds max_finished t.(t_id) (t_owner t) asked s).1 = Ok r ∧ outputs s r = Some (archive t.(t_stdout), archive t.(t_stderr)).
Proof.
  intros (G1 & G2 & _) He Hl ((t' & Hu & Hid & Hla & Ho & Her & Hph) & Htr & Hoth).
  destruct (load_finds (t_owner t) asked later s.(hist) eq_refl He Hl Htr) as (a & Ha & Hout & Herr).
  assert (Harch : ∃ r, (match load iterdir retention_seconds max_finished (t_owner t) t.(t_id) asked s.(hist) with
     | (Some a, h) => (Ok (FromHistory a), with_hist h s) | (None, h) => (Err (api_error 404 "task_not_found"), with_hist h s) end : res ApiError found * registry).1 = Ok r ∧
     outputs s r = Some (archive t.(t_stdout), archive t.(t_stderr))).
  { destruct (load _ _ _ _ _ _ _) as [o h]. cbn in Ha. subst o. eexists. split; [done|]. cbn. by rewrite Hout, Herr. }
  unfold get. destruct (tasks s !! t_id t) as [u|] eqn:Et; [|done]. destruct (objects s !! u) as [x|] eqn:Ex; [|done].
  destruct (String.eqb_spec (t_owner x) (t_owner t)) as [E|E]; [|done]. eexists. split; [done|].
  destruct (decide (u = uid)) as [->|Hne].
  - cbn. rewrite Hu. cbn. by rewrite Ho, Her.
  - exfalso. destruct (G1 _ _ Et) as (x' & Ex' & Hx & Hg). rewrite Ex in Ex'. injection Ex' as <-. apply (Hoth u x Hne Ex Hg Hx). by rewrite E.
Qed.
End followed.

Lemma follows_start s uid t now later :
  good s → s.(objects) !! uid = Some t → t.(t_phase) = Finished → 0 < max_finished → ¬ expired now later →
  (∀ d k n t', s.(hist) !! token_key (t_owner t) = Some d → d !! k = Some n → time_of k n = Some t' → (t' < now)%Q) →
  follows uid t now [] (rstep s (Archive uid Saved now later)).
Proof.
  intros (G1 & G2 & G3 & G4) Hu Hph Hm He Hold. cbn [step]. unfold when_phase. rewrite Hu, Hph.
  assert (Hw : is_working t = false) by (unfold is_working; by rewrite Hph).
  split; [|split]; cbn [objects hist with_objects with_hist].
  - exists (set_phase Archived t). rewrite lookup_insert_eq. by repeat split; [..|left].
  - apply (save_tracked iterdir iterdir_perm retention_seconds max_finished (t_owner t) (metadata t)); try done; [by eapply G4|by apply saved_time].
  - intros u' t' Hne Hu' Hg Hid. rewrite lookup_insert_ne in Hu' by done. exfalso. apply Hne. pose proof (G2 _ _ Hu' Hg) as E1.
    pose proof (G2 uid t Hu) as E2. rewrite Hid in E1. rewrite E1 in E2. unfold is_gone in E2. rewrite Hph in E2. by injection (E2 eq_refl).
Qed.

(** C8: The output of a task that ran to its end is not lost on its way from the
    registry to the archive: once the worker has archived it, and whatever operations
    and worker steps follow (other tasks of the same token with the same drawn ids,
    cleaning, the worker leaving the registry), its owner is answered with exactly the
    bytes and the count of dropped bytes that the task ended with, as long as fewer
    than the configured number of tasks of the token are archived after it and its time
    is not over. *)
Theorem finished_task_found h acts uid t now later acts' asked :
  let s := rrun (empty_registry h) acts in
  let s1 := rstep s (Archive uid Saved now later) in
  let s2 := rrun s1 acts' in
  permitted_run (empty_registry h) acts → s.(objects) !! uid = Some t → t.(t_phase) = Finished →
  (∀ d k n t', s.(hist) !! token_key (t_owner t) = Some d → d !! k = Some n → time_of k n = Some t' → (t' < now)%Q) → ¬ expired now later →
  permitted_run s1 acts' → Forall (act_timely now) acts' → ¬ expired now asked →
  Z.of_nat (length (archived_later (token_key (t_owner t)) s1 acts')) < max_finished →
  ∃ r, (get iterdir retention_seconds max_finished t.(t_id) (t_owner t) asked s2).1 = Ok r ∧
       outputs s2 r = Some (archive t.(t_stdout), archive t.(t_stderr)).
Proof.
  intros s s1 s2 Hp Hu Hph Hold He Hp' Ht Hask Hl.
  assert (Hg : good s) by (by apply good_run, good_empty). assert (Hg1 : good s1) by (by apply good_step). assert (Hg2 : good s2) by (by apply good_run).
  assert (Hw : is_working t = false) by (unfold is_working; by rewrite Hph). assert (Hv : TASK_ID_PATTERN t.(t_id) = true) by (by eapply Hg).
  eapply (follows_found uid t now Hw Hv); [done..| |]; [|apply (follows_run uid t now Hw Hv acts' s1 []); [done..|]].
  - done.
  - apply follows_start; try done. lia.
Qed.
End theorems.

(** ** An example: two tasks of one token that draw the same id *)

Definition example_launch : launch :=
  {| l_command := "make"; l_cwd := "/w"; l_owner := "tok"; l_interactive := false; l_sandboxed := true; l_backend := Some "bubblewrap"; l_network := false;
     l_limited := false; l_rpc := None; l_started_at := "2024-01-01T00:00:00Z" |}.

Definition example_draws (i : nat) : string := match i with 0%nat => "&aaaa&" | _ => "&bbbb&" end.

Definition example_first : list action :=
  [Start None example_launch example_draws (λ _, 10%Q); Start None example_launch example_draws (λ _, 10%Q); Output 0 false [104; 105];
   Finish 0 (JInt 0) JNull JNull "2024-01-01T00:00:10Z"].

Definition example_rest : list action :=
  [Leave 0; Start None example_launch example_draws (λ _, 30%Q); Finish 1 (JInt 1) JNull JNull "2024-01-01T00:00:40Z"; Archive 1 Saved 40 40;
   Leave 1; Cleanup 50].

(** With one task per token allowed, the second start is refused. *)
Definition example_run : list action → registry := run map_to_list 3600 2 5 1 4 (empty_registry ∅).

Lemma running_tasks_bounded_witness :
  permitted_run map_to_list 3600 2 5 1 4 (empty_registry ∅) example_first ∧ counted (launched anyone) (example_run example_first) ≤ 4.
Proof.
  assert (H : permitted_run map_to_list 3600 2 5 1 4 (empty_registry ∅) example_first) by (repeat split; intros [|i]; reflexivity).
  split; [exact H|]. exact (proj2 (running_tasks_bounded map_to_list 3600 2 5 1 4 ∅ example_first H)).
Defined.

Definition example_task : task :=
  finish (JInt 0) JNull JNull "2024-01-01T00:00:10Z" (add_output false [104; 105] (new_task "&aaaa&" example_launch 5)).

Lemma finished_task_found_witness :
  ∃ r, (get map_to_list 3600 2 "&aaaa&" "tok" 60
         (run map_to_list 3600 2 5 2 4 (step map_to_list 3600 2 5 2 4 (run map_to_list 3600 2 5 2 4 (empty_registry ∅) example_first) (Archive 0 Saved 20 20))
            example_rest)).1 = Ok r ∧
    outputs (run map_to_list 3600 2 5 2 4 (step map_to_list 3600 2 5 2 4 (run map_to_list 3600 2 5 2 4 (empty_registry ∅) example_first) (Archive 0 Saved 20 20))
            example_rest) r = Some ({| ao_data := [104; 105]; ao_dropped := 0 |}, {| ao_data := []; ao_dropped := 0 |}).
Proof.
  apply (finished_task_found map_to_list (λ d, reflexivity _) 3600 2 5 2 4 ∅ example_first 0 example_task 20 20 example_rest 60).
  - repeat split; intros [|i]; reflexivity.
  - vm_compute. reflexivity.
  - reflexivity.
  - intros d k n t' E. vm_compute in E. discriminate E.
  - unfold expired. vm_compute. intros H. exact (H eq_refl).
  - repeat split; intros [|i]; reflexivity.
  - repeat constructor; cbn [act_timely]; unfold expired; intros; vm_compute; intros H; exact (H eq_refl).
  - unfold expired. vm_compute. intros H. exact (H eq_refl).
  - vm_compute. reflexivity.
Defined.
