(* ===== verification/Environment.v ===== *)
(** * Environment: the variables and start-up text of shell commands

    Models class [EnvironmentStore] of src/openkapsel/execution/environment_store.py:
    checking a configuration, its two files (a JSON document and a generated shell
    file) and the quoting of values.  A document is the value that was written with the
    number of characters of its text; reading its text back gives that value.  A write
    replaces a file as a whole or, when a system call fails, leaves it.  The shell that
    sources the generated file is the one of POSIX, restricted to what a generated line
    may contain. *)

From Stdlib Require Import ZArith Lia Ascii String.
From stdpp Require Import base tactics list sorting gmap strings fin_maps.
From S2P Require Import Prelude Hashing Dict JsonText.

Local Open Scope Z_scope.

(** ** Configurations *)

Definition ENVIRONMENT_VERSION : Z := 1.
Definition MAX_ENVIRONMENT_VARIABLES : Z := 256.
Definition MAX_ENVIRONMENT_NAME_CHARS : Z := 128.
Definition MAX_ENVIRONMENT_VALUE_CHARS : Z := 65536.
Definition MAX_ENVIRONMENT_TOTAL_CHARS : Z := 262144.
Definition MAX_ENVIRONMENT_RC_CHARS : Z := 131072.

Definition name_start (c : ascii) : bool := is_alpha c || Ascii.eqb c "_".
Definition name_char (c : ascii) : bool := is_alnum c || Ascii.eqb c "_".

Definition ENVIRONMENT_NAME_PATTERN (s : string) : bool :=
  match s with
  | EmptyString => false
  | String c rest => name_start c && str_forall name_char rest && (Z.of_nat (String.length s) <=? MAX_ENVIRONMENT_NAME_CHARS)
  end.

Definition app_char (c : ascii) : bool := is_alnum c || Ascii.eqb c "_" || Ascii.eqb c "-".
Definition APP_ID_PATTERN (s : string) : bool := str_forall app_char s && (Z.of_nat (String.length s) =? 16).

Definition RESERVED_ENVIRONMENT_NAMES : list string :=
  ["HOME"; "PATH"; "TMPDIR"; "HTTP_PROXY"; "HTTPS_PROXY"; "ALL_PROXY"; "NO_PROXY"; "http_proxy"; "https_proxy"; "all_proxy"; "no_proxy";
   "LD_PRELOAD"; "LD_LIBRARY_PATH"; "PYTHONHOME"; "PYTHONPATH"; "BASH_ENV"; "ENV"; "SHELLOPTS"; "CDPATH"]%string.

Definition reserved (name : string) : bool := startswith "OPENKAPSEL_" name || existsb (String.eqb name) RESERVED_ENVIRONMENT_NAMES.

Record EnvironmentConfig := { variables : list (string * string); rc : string; updated_at : option string }.

Definition configured (c : EnvironmentConfig) : bool := match c.(variables), c.(rc) with [], EmptyString => false | _, _ => true end.

Definition NUL : ascii := Ascii.zero.
Definition has_nul (s : string) : bool := negb (str_forall (λ c, negb (Ascii.eqb c NUL)) s).

(** The loop over the variables: the dictionary so far and the characters counted. *)
Fixpoint normalize (fields : list (string * json)) (normalized : dict string) (total : Z) : res exn (dict string * Z) :=
  match fields with
  | [] => Ok (normalized, total)
  | (name, value) :: fields' =>
      if negb (ENVIRONMENT_NAME_PATTERN name) then Err (ValueError "environment variable names must match the pattern")
      else if reserved name then Err (ValueError ("environment variable is reserved by OpenKapsel: " +:+ name))
      else match value with
      | JStr v =>
          if has_nul v then Err (ValueError ("environment variable values must not contain NUL: " +:+ name))
          else if MAX_ENVIRONMENT_VALUE_CHARS <? slen v then Err (ValueError ("environment variable value exceeds the limit: " +:+ name))
          else normalize fields' (dset name v normalized) (total + slen name + slen v)
      | _ => Err (ValueError ("environment variable values must be strings: " +:+ name))
      end
  end.

Definition validate (vars rc_ : json) : res exn EnvironmentConfig :=
  match vars with
  | JObj fields =>
      raise! (ValueError "too many variables") when MAX_ENVIRONMENT_VARIABLES <? Z.of_nat (length fields);
      let! (normalized, total) := normalize fields [] 0 in
      raise! (ValueError "environment variables exceed the total") when MAX_ENVIRONMENT_TOTAL_CHARS <? total;
      match rc_ with
      | JStr r =>
          raise! (ValueError "rc must not contain NUL") when has_nul r;
          raise! (ValueError "rc exceeds the limit") when MAX_ENVIRONMENT_RC_CHARS <? slen r;
          Ok {| variables := merge_sort key_le normalized; rc := r; updated_at := None |}
      | _ => Err (ValueError "rc must be a string")
      end
  | _ => Err (ValueError "variables must be a JSON object")
  end.

(** ** The generated shell file *)

Definition SQUOTE : ascii := ascii_of_N 39.
Definition DQUOTE : ascii := ascii_of_N 34.
Definition LF : ascii := ascii_of_N 10.
Definition one (c : ascii) : string := String c EmptyString.

(** [value.replace(q, q dq q dq q)] with [q] the single and [dq] the double quote *)
Fixpoint replace_quotes (value : string) : string :=
  match value with
  | EmptyString => EmptyString
  | String c rest =>
      (if Ascii.eqb c SQUOTE then String SQUOTE (String DQUOTE (String SQUOTE (String DQUOTE (one SQUOTE)))) else one c) +:+ replace_quotes rest
  end.

Definition _shell_quote (value : string) : string := one SQUOTE +:+ replace_quotes value +:+ one SQUOTE.

Definition export_line (v : string * string) : string := "export " +:+ v.1 +:+ "=" +:+ _shell_quote v.2.

Definition HEADER_LINE : string := "# Generated by OpenKapsel; edit through the environment API.".
Definition RC_LINE : string := "# User-provided POSIX Shell initialization follows.".

Definition _render_shell_rc (c : EnvironmentConfig) : string :=
  let lines := HEADER_LINE :: (export_line <$> merge_sort key_le c.(variables)) ++ (if is_empty c.(rc) then [] else [RC_LINE; c.(rc)]) in
  rstrip (Ascii.eqb LF) (String.concat (one LF) lines) +:+ one LF.

(** ** The two files of an application *)

(** The text of the document: [json.dumps(payload, ensure_ascii=False, sort_keys=True,
    indent=2)] with a newline at its end. *)
Definition document_text (at_ : string) (c : EnvironmentConfig) : string :=
  let pair k v := json_string k +:+ ": " +:+ v in
  let vars := match c.(variables) with
              | [] => "{}"
              | vs => "{" +:+ one LF +:+ String.concat ("," +:+ one LF) ((λ v : string * string, "    " +:+ pair v.1 (json_string v.2)) <$> vs) +:+ one LF +:+ "  }"
              end in
  "{" +:+ one LF +:+ "  " +:+ pair "rc" (json_string c.(rc)) +:+ "," +:+ one LF +:+ "  " +:+ pair "updated_at" (json_string at_) +:+ "," +:+ one LF +:+
  "  " +:+ pair "variables" vars +:+ "," +:+ one LF +:+ "  " +:+ pair "version" "1" +:+ one LF +:+ "}" +:+ one LF.

Definition document (at_ : string) (c : EnvironmentConfig) : json :=
  JObj [("version", JInt ENVIRONMENT_VERSION); ("updated_at", JStr at_);
        ("variables", JObj ((λ v : string * string, (v.1, JStr v.2)) <$> c.(variables))); ("rc", JStr c.(rc))]%string.

(** A document: its number of characters and its value, [None] when it is no JSON. *)
Inductive efile := Doc (chars : Z) (value : option json) | DocLink.
Inductive rcfile := RcText (text : string) | RcLink.

Record env_dir := { docs : gmap string efile; rcs : gmap string rcfile }.

Definition app_error : exn := ValueError "app_id must contain 16 URL-safe characters".
Definition symlink_error : exn := ValueError "environment configuration must not be a symlink".

Definition version_is_1 (v : json) : bool := match v with JInt n => n =? ENVIRONMENT_VERSION | JBool b => b | JFloat q => QArith_base.Qeq_bool q (QArith_base.inject_Z 1) | _ => false end.

Definition load (app_id : string) (d : env_dir) : res exn EnvironmentConfig :=
  raise! app_error when negb (APP_ID_PATTERN app_id);
  match d.(docs) !! app_id with
  | Some DocLink => Err symlink_error
  | None => Ok {| variables := []; rc := EmptyString; updated_at := None |}
  | Some (Doc chars value) =>
      raise! (ValueError "stored environment configuration is too large")
        when MAX_ENVIRONMENT_TOTAL_CHARS + MAX_ENVIRONMENT_RC_CHARS + 65536 <? chars;
      match value with
      | None => Err (ValueError "stored environment configuration is invalid JSON")
      | Some (JObj fields) =>
          raise! (ValueError "stored environment configuration has an unsupported version") when negb (version_is_1 (obj_get_or "version" JNull fields));
          let! c := validate (obj_get_or "variables" (JObj []) fields) (obj_get_or "rc" (JStr EmptyString) fields) in
          match obj_get_or "updated_at" JNull fields with
          | JNull => Ok {| variables := c.(variables); rc := c.(rc); updated_at := None |}
          | JStr u => Ok {| variables := c.(variables); rc := c.(rc); updated_at := Some u |}
          | _ => Err (ValueError "stored environment updated_at is invalid")
          end
      | Some _ => Err (ValueError "stored environment configuration has an unsupported version")
      end
  end.

Definition write_doc (app_id : string) (f : efile) (d : env_dir) : env_dir := {| docs := <[app_id := f]> d.(docs); rcs := d.(rcs) |}.
Definition write_rc (app_id : string) (f : rcfile) (d : env_dir) : env_dir := {| docs := d.(docs); rcs := <[app_id := f]> d.(rcs) |}.

Definition os_error : exn := RuntimeError "OSError".

(** How many of the two writes of [replace] succeed. *)
Definition replace (writes : nat) (app_id : string) (vars rc_ : json) (at_ : string) (d : env_dir) : res exn EnvironmentConfig * env_dir :=
  match validate vars rc_ with
  | Err e => (Err e, d)
  | Ok c =>
      let result := {| variables := c.(variables); rc := c.(rc); updated_at := Some at_ |} in
      if negb (APP_ID_PATTERN app_id) then (Err app_error, d)
      else
        let d1 := write_doc app_id (Doc (slen (document_text at_ result)) (Some (document at_ result))) d in
        match writes with
        | 0%nat => (Err os_error, d)
        | 1%nat => (Err os_error, d1)
        | _ => (Ok result, write_rc app_id (RcText (_render_shell_rc result)) d1)
        end
  end.

(** The shell file is rendered anew for each command. *)
Definition shell_file (written : bool) (app_id : string) (d : env_dir) : res exn (option string) * env_dir :=
  match load app_id d with
  | Err e => (Err e, d)
  | Ok c =>
      if negb (configured c) then
        match d.(rcs) !! app_id with
        | Some RcLink => (Err (ValueError "Shell environment file must not be a symlink"), d)
        | _ => (Ok None, {| docs := d.(docs); rcs := delete app_id d.(rcs) |})
        end
      else if written then (Ok (Some app_id), write_rc app_id (RcText (_render_shell_rc c)) d) else (Err os_error, d)
  end.

Definition clear (app_id : string) (d : env_dir) : res exn bool * env_dir :=
  if negb (APP_ID_PATTERN app_id) then (Err app_error, d)
  else match d.(docs) !! app_id with
  | Some DocLink => (Err symlink_error, d)
  | doc =>
      let removed := match doc with Some _ => true | None => false end in
      let d1 := {| docs := delete app_id d.(docs); rcs := d.(rcs) |} in
      match d.(rcs) !! app_id with
      | Some RcLink => (Err symlink_error, d1)
      | Some (RcText _) => (Ok true, {| docs := d1.(docs); rcs := delete app_id d.(rcs) |})
      | None => (Ok removed, d1)
      end
  end.

(** ** The shell that sources the file *)

Inductive quoting := Bare | InSingle | InDouble.

(** A word at the end of a line: its value and what follows the line.  Bare words have
    plain characters only; inside double quotes nothing is expanded. *)
Fixpoint sh_word (q : quoting) (s : string) : option (string * string) :=
  match s with
  | EmptyString => None
  | String c s' =>
      let literal := (λ '(v, rest), (String c v, rest)) <$> sh_word q s' in
      match q with
      | Bare => if Ascii.eqb c SQUOTE then sh_word InSingle s' else if Ascii.eqb c DQUOTE then sh_word InDouble s'
                else if Ascii.eqb c LF then Some (EmptyString, s') else if app_char c then literal else None
      | InSingle => if Ascii.eqb c SQUOTE then sh_word Bare s' else literal
      | InDouble => if Ascii.eqb c DQUOTE then sh_word Bare s'
                    else if Ascii.eqb c "$" || Ascii.eqb c "`" || Ascii.eqb c "\" then None else literal
      end
  end.

(** The text before the first [c] and what follows it. *)
Fixpoint sh_until (c : ascii) (s : string) : option (string * string) :=
  match s with
  | EmptyString => None
  | String x s' => if Ascii.eqb x c then Some (EmptyString, s') else (λ '(v, rest), (String x v, rest)) <$> sh_until c s'
  end.

Definition after (prefix s : string) : option string :=
  if startswith prefix s then Some (substring (String.length prefix) (String.length s) s) else None.

(** A name that a shell accepts on the left of an assignment. *)
Definition sh_name (s : string) : bool :=
  match s with
  | EmptyString => false
  | String c rest => (is_alpha c || Ascii.eqb c "_") && str_forall (λ c, is_alnum c || Ascii.eqb c "_") rest
  end.

(** Sources the generated lines: the variables in the order they are exported, and the
    script that is left to run.  Comments are skipped; the one that announces the
    user's text ends the generated part.  Other lines export a variable of a valid name;
    a line of another form has no meaning here. *)
Fixpoint sh_source (fuel : nat) (s : string) : option (list (string * string) * string) :=
  match fuel with
  | 0%nat => None
  | S fuel' =>
      match s with
      | EmptyString => Some ([], EmptyString)
      | String c _ =>
          if Ascii.eqb c "#" then
            '(line, rest) ← sh_until LF s;
            if String.eqb line RC_LINE then Some ([], rest) else sh_source fuel' rest
          else
            line ← after "export " s;
            '(name, line) ← sh_until "=" line;
            '(value, rest) ← sh_word Bare line;
            '(vars, script) ← sh_source fuel' rest;
            if sh_name name then Some ((name, value) :: vars, script) else None
      end
  end.

(** What a shell does with the file: a line takes one unit of fuel. *)
Definition source_file (text : string) : option (list (string * string) * string) := sh_source (S (String.length text)) text.

Lemma sh_escape x :
  sh_word InSingle (String SQUOTE (String DQUOTE (String SQUOTE (String DQUOTE (String SQUOTE x))))) = (λ '(v, rest), (String SQUOTE v, rest)) <$> sh_word InSingle x.
Proof. reflexivity. Qed.

Lemma sh_literal c x : c ≠ SQUOTE → sh_word InSingle (String c x) = (λ '(v, rest), (String c v, rest)) <$> sh_word InSingle x.
Proof. intros H. cbn [sh_word]. by destruct (Ascii.eqb_spec c SQUOTE). Qed.

Lemma sh_quoted v rest : sh_word InSingle (replace_quotes v +:+ one SQUOTE +:+ one LF +:+ rest) = Some (v, rest).
Proof.
  induction v as [|c v IH]; [done|]. cbn [replace_quotes]. destruct (Ascii.eqb_spec c SQUOTE) as [->|Hne].
  - change (sh_word InSingle (String SQUOTE (String DQUOTE (String SQUOTE (String DQUOTE (String SQUOTE (replace_quotes v +:+ one SQUOTE +:+ one LF +:+ rest))))))
      = Some (String SQUOTE v, rest)). by rewrite sh_escape, IH.
  - change (sh_word InSingle (String c (replace_quotes v +:+ one SQUOTE +:+ one LF +:+ rest)) = Some (String c v, rest)). by rewrite sh_literal, IH.
Qed.

(** A quoted value is read back, whatever its characters. *)
Lemma sh_word_quote v rest : sh_word Bare (_shell_quote v +:+ one LF +:+ rest) = Some (v, rest).
Proof.
  unfold _shell_quote. rewrite !str_app_assoc. change (sh_word InSingle (replace_quotes v +:+ one SQUOTE +:+ one LF +:+ rest) = Some (v, rest)). apply sh_quoted.
Qed.

Lemma sh_until_app c a rest : str_forall (λ x, negb (Ascii.eqb x c)) a = true → sh_until c (a +:+ one c +:+ rest) = Some (a, rest).
Proof.
  induction a as [|x a IH]; [intros _; change (sh_until c (String c rest) = Some (EmptyString, rest)); cbn [sh_until]; by rewrite Ascii.eqb_refl|].
  cbn [str_forall]. rewrite andb_true_iff, negb_true_iff. intros [Hx Ha]. rewrite str_app_cons. cbn [sh_until]. by rewrite Hx, (IH Ha).
Qed.

Lemma substring_all s n : (String.length s ≤ n)%nat → substring 0 n s = s.
Proof. revert n. induction s as [|c s IH]; intros [|n] H; cbn in *; [done..|lia|]. by rewrite IH by lia. Qed.

Lemma prefix_substring p s : substring 0 (String.length p) (p +:+ s) = p.
Proof. induction p as [|c p IH]; [by destruct s|]. rewrite str_app_cons. cbn. by rewrite IH. Qed.

Lemma after_app p s : after p (p +:+ s) = Some s.
Proof.
  unfold after, startswith. assert (String.prefix p (p +:+ s) = true) as -> by (apply String.prefix_correct, prefix_substring).
  f_equal. assert (H : ∀ n, (String.length (p +:+ s) ≤ n)%nat → substring (String.length p) n (p +:+ s) = s).
  { induction p as [|c p IH]; intros n Hn; [by apply substring_all|]. rewrite str_app_cons in *. cbn in *. apply IH. lia. }
  by apply H.
Qed.

Lemma sh_name_plain n : sh_name n = true → str_forall (λ x, negb (Ascii.eqb x "=")) n = true.
Proof.
  destruct n as [|c n]; [done|]. cbn [sh_name str_forall]. rewrite !andb_true_iff. intros [Hc Hn]. split.
  - destruct (Ascii.eqb_spec c "="); [by subst c|done].
  - eapply str_forall_impl; [|exact Hn]. intros x Hx. cbn. destruct (Ascii.eqb_spec x "="); [by subst x|done].
Qed.

Lemma sh_export n v rest fuel :
  sh_name n = true →
  sh_source (S fuel) (export_line (n, v) +:+ one LF +:+ rest) = '(vars, script) ← sh_source fuel rest; Some ((n, v) :: vars, script).
Proof.
  intros Hn. unfold export_line. cbn [fst snd]. rewrite !str_app_assoc. cbn [sh_source].
  change ("export " +:+ ?x) with (String "e" ("xport " +:+ x)) at 1. cbv iota beta. change (Ascii.eqb "e" "#") with false. cbv iota.
  rewrite after_app. cbn [mbind option_bind]. change ("=" +:+ ?x) with (one "=" +:+ x). rewrite sh_until_app by by apply sh_name_plain. cbn [mbind option_bind].
  by rewrite sh_word_quote, Hn.
Qed.

(** ** The file, line by line *)

Fixpoint lines_text (l : list string) : string := match l with [] => EmptyString | x :: l' => x +:+ one LF +:+ lines_text l' end.

Lemma lines_text_app a b : lines_text (a ++ b) = lines_text a +:+ lines_text b.
Proof. induction a as [|x a IH]; [done|]. cbn [lines_text app]. by rewrite IH, !str_app_assoc. Qed.

Lemma concat_text_lines x l : String.concat (one LF) (x :: l) +:+ one LF = lines_text (x :: l).
Proof.
  revert x. induction l as [|y l IH]; intros x; [done|]. change (String.concat (one LF) (x :: y :: l)) with (x +:+ one LF +:+ String.concat (one LF) (y :: l)).
  rewrite !str_app_assoc, IH. done.
Qed.

Lemma concat_snoc x l y : ∃ a, String.concat (one LF) (x :: l ++ [y]) = a +:+ y.
Proof.
  revert x. induction l as [|z l IH]; intros x; [exists (x +:+ one LF); cbn; by rewrite str_app_assoc|]. destruct (IH z) as [a E].
  exists (x +:+ one LF +:+ a). change (String.concat (one LF) (x :: (z :: l) ++ [y])) with (x +:+ one LF +:+ String.concat (one LF) (z :: l ++ [y])).
  rewrite E. by rewrite !str_app_assoc.
Qed.

Lemma concat_rc x l y r : String.concat (one LF) (x :: l ++ [y; r]) = String.concat (one LF) (x :: l ++ [y]) +:+ one LF +:+ r.
Proof.
  revert x. induction l as [|z l IH]; intros x; [cbn; by rewrite !str_app_assoc|].
  change (String.concat (one LF) (x :: (z :: l) ++ ?t)) with (x +:+ one LF +:+ String.concat (one LF) (z :: l ++ t)). by rewrite IH, !str_app_assoc.
Qed.

(** The line ends in a character that is no newline. *)
Definition closed (x : string) : Prop := ∃ a c, x = a +:+ one c ∧ Ascii.eqb LF c = false.

Lemma rstrip_closed a x : closed x → rstrip (Ascii.eqb LF) (a +:+ x) = a +:+ x.
Proof.
  intros (b & c & -> & Hc). rewrite <- str_app_assoc, rstrip_app. assert (E : rstrip (Ascii.eqb LF) (one c) = one c) by (unfold one; cbn [rstrip is_empty andb]; by rewrite Hc).
  by rewrite E.
Qed.

Lemma closed_export v : closed (export_line v).
Proof. exists ("export " +:+ v.1 +:+ "=" +:+ one SQUOTE +:+ replace_quotes v.2), SQUOTE. split; [|done]. unfold export_line, _shell_quote. by rewrite !str_app_assoc. Qed.

Lemma closed_rc_line : closed RC_LINE.
Proof. by exists "# User-provided POSIX Shell initialization follows", "."%char. Qed.
Lemma closed_header : closed HEADER_LINE.
Proof. by exists "# Generated by OpenKapsel; edit through the environment API", "."%char. Qed.

Lemma rstrip_lines x l : Forall closed (x :: l) → rstrip (Ascii.eqb LF) (String.concat (one LF) (x :: l)) = String.concat (one LF) (x :: l).
Proof.
  intros [Hx Hl]%Forall_cons. destruct l as [|y l _] using rev_ind; [exact (rstrip_closed "" x Hx)|].
  destruct (concat_snoc x l y) as [a ->]. apply rstrip_closed. apply Forall_app in Hl as [_ Hl]. by apply Forall_cons in Hl as [Hl _].
Qed.

(** What is left to run of the user's text. *)
Definition script (r : string) : string := let r := rstrip (Ascii.eqb LF) r in if is_empty r then EmptyString else r +:+ one LF.

Lemma render_lines c :
  _render_shell_rc c = lines_text (HEADER_LINE :: (export_line <$> merge_sort key_le c.(variables))) +:+
                       (if is_empty c.(rc) then EmptyString else RC_LINE +:+ one LF +:+ script c.(rc)).
Proof.
  unfold _render_shell_rc. set (ex := export_line <$> merge_sort key_le (variables c)).
  assert (Hex : Forall closed ex) by (apply Forall_fmap, Forall_true; intros v; apply closed_export).
  destruct (is_empty (rc c)) eqn:E.
  - rewrite app_nil_r, rstrip_lines by (constructor; [apply closed_header|done]). by rewrite concat_text_lines, str_app_nil_r.
  - rewrite concat_rc, rstrip_app. unfold script.
    assert (Hr : rstrip (Ascii.eqb LF) (String.concat (one LF) (HEADER_LINE :: ex ++ [RC_LINE])) = String.concat (one LF) (HEADER_LINE :: ex ++ [RC_LINE])).
    { apply rstrip_lines. constructor; [apply closed_header|]. apply Forall_app. split; [done|]. constructor; [apply closed_rc_line|done]. }
    assert (El : lines_text (HEADER_LINE :: ex ++ [RC_LINE]) = lines_text (HEADER_LINE :: ex) +:+ RC_LINE +:+ one LF) by exact (lines_text_app (HEADER_LINE :: ex) [RC_LINE]).
    rewrite rstrip_app. destruct (is_empty (rstrip (Ascii.eqb LF) (rc c))) eqn:E2.
    + change (rstrip (Ascii.eqb LF) (one LF)) with EmptyString. cbn [is_empty]. rewrite Hr, concat_text_lines, El. by rewrite str_app_nil_r.
    + replace (is_empty (one LF +:+ rstrip (Ascii.eqb LF) (rc c))) with false by done.
      transitivity ((String.concat (one LF) (HEADER_LINE :: ex ++ [RC_LINE]) +:+ one LF) +:+ rstrip (Ascii.eqb LF) (rc c) +:+ one LF); [by rewrite !str_app_assoc|].
      rewrite concat_text_lines, El. by rewrite !str_app_assoc.
Qed.

Lemma sh_source_rest vs rest fuel n :
  Forall (λ v : string * string, sh_name v.1 = true) vs → (length vs + n ≤ fuel)%nat →
  ∃ fuel', (n ≤ fuel')%nat ∧
    sh_source fuel (lines_text (export_line <$> vs) +:+ rest) = '(vars, script) ← sh_source fuel' rest; Some (vs ++ vars, script).
Proof.
  intros Hv. revert fuel. induction Hv as [|[k v] vs Hn Hv IH]; intros fuel Hf.
  - exists fuel. split; [cbn in Hf; lia|]. cbn [fmap list_fmap lines_text]. change ("" +:+ rest) with rest. by destruct (sh_source fuel rest) as [[]|].
  - destruct fuel as [|fuel]; [cbn in Hf; lia|]. destruct (IH fuel) as (fuel' & Hle & E); [cbn in Hf; lia|]. exists fuel'. split; [done|].
    rewrite fmap_cons. cbn [lines_text]. rewrite !str_app_assoc, sh_export by done. rewrite E. by destruct (sh_source fuel' rest) as [[]|].
Qed.

Lemma lines_text_length l : (length l ≤ String.length (lines_text l))%nat.
Proof. induction l as [|x l IH]; cbn [lines_text length]; [lia|]. rewrite !Base64.str_length_app. cbn. lia. Qed.

(** The generated file sets the variables and leaves the user's text. *)
Lemma source_render c :
  Forall (λ v : string * string, sh_name v.1 = true) c.(variables) →
  source_file (_render_shell_rc c) = Some (merge_sort key_le c.(variables), script c.(rc)).
Proof.
  intros Hv. unfold source_file. set (vs := merge_sort key_le (variables c)).
  assert (Hv' : Forall (λ v : string * string, sh_name v.1 = true) vs) by (unfold vs; by rewrite merge_sort_Permutation).
  rewrite render_lines. fold vs. set (rest := if is_empty (rc c) then _ else _). cbn [lines_text].
  assert (Hlen : (length vs + 2 ≤ String.length ((HEADER_LINE +:+ one LF +:+ lines_text (export_line <$> vs)) +:+ rest))%nat).
  { rewrite !Base64.str_length_app. pose proof (lines_text_length (export_line <$> vs)) as H. rewrite length_fmap in H.
    change (String.length HEADER_LINE) with 60%nat. lia. }
  revert Hlen. generalize (String.length ((HEADER_LINE +:+ one LF +:+ lines_text (export_line <$> vs)) +:+ rest)) as fuel. intros fuel Hf.
  assert (Eh : sh_source (S fuel) ((HEADER_LINE +:+ one LF +:+ lines_text (export_line <$> vs)) +:+ rest) = sh_source fuel (lines_text (export_line <$> vs) +:+ rest)).
  { rewrite !str_app_assoc. change (HEADER_LINE +:+ ?x) with (String "#" (substring 1 60 HEADER_LINE +:+ x)) at 1. cbn [sh_source].
    change (Ascii.eqb "#" "#") with true. cbv iota. change (String "#" (substring 1 60 HEADER_LINE +:+ ?x)) with (HEADER_LINE +:+ x).
    rewrite sh_until_app by done. done. }
  rewrite Eh. destruct (sh_source_rest vs rest fuel 2 Hv' Hf) as (fuel' & Hle & ->).
  assert (Er : sh_source fuel' rest = Some ([], script (rc c))); [|rewrite Er; cbn; by rewrite app_nil_r].
  destruct fuel' as [|fuel']; [lia|]. unfold rest. destruct (rc c) as [|ch r] eqn:Erc; [done|]. cbn [is_empty].
  change (RC_LINE +:+ ?x) with (String "#" (substring 1 60 RC_LINE +:+ x)). cbn [sh_source]. change (Ascii.eqb "#" "#") with true. cbv iota.
  change (String "#" (substring 1 60 RC_LINE +:+ ?x)) with (RC_LINE +:+ x). rewrite sh_until_app by done. done.
Qed.

(** ** Checking twice *)

Lemma string_leb_trans a b c : String.leb a b = true → String.leb b c = true → String.leb a c = true.
Proof.
  unfold String.leb. revert b c. induction a as [|x a IH]; intros b c; [by destruct c|]. destruct b as [|y b]; [done|]. destruct c as [|z c]; [by destruct (String.compare (String x a) (String y b))|].
  cbn [String.compare]. destruct (Ascii.compare x y) eqn:Exy; [|intros _|done]; destruct (Ascii.compare y z) eqn:Eyz; try done; intros.
  - apply Ascii.compare_eq_iff in Exy as ->. rewrite Eyz. by eapply IH.
  - apply Ascii.compare_eq_iff in Exy as ->. by rewrite Eyz.
  - apply Ascii.compare_eq_iff in Eyz as <-. by rewrite Exy.
  - assert (Ascii.compare x z = Lt) as ->; [|done]. unfold Ascii.compare in *. rewrite N.compare_lt_iff in *. lia.
Qed.

#[local] Instance key_le_total : Total key_le.
Proof. intros a b. apply String.leb_total. Qed.
#[local] Instance key_le_trans : Transitive key_le.
Proof. intros a b c. apply string_leb_trans. Qed.

Lemma merge_sort_sorted vs : NoDup vs.*1 → merge_sort key_le (merge_sort key_le vs) = merge_sort key_le vs.
Proof.
  intros Hd. apply (StronglySorted_unique_strong key_le); [|apply StronglySorted_merge_sort; apply _..|apply merge_sort_Permutation].
  intros [k v] [k' v'] Hx Hy H1 H2. pose proof (String.leb_antisym _ _ H1 H2) as E. cbn in E. subst k'. f_equal.
  rewrite !merge_sort_Permutation in Hx. rewrite merge_sort_Permutation in Hy.
  apply list_elem_of_lookup in Hx as [i Hi], Hy as [j Hj]. assert (i = j) as ->; [|congruence].
  eapply (NoDup_lookup _ _ _ k Hd); by rewrite list_lookup_fmap, ?Hi, ?Hj.
Qed.

Definition entry_ok (v : string * string) : Prop :=
  ENVIRONMENT_NAME_PATTERN v.1 = true ∧ reserved v.1 = false ∧ has_nul v.2 = false ∧ slen v.2 ≤ MAX_ENVIRONMENT_VALUE_CHARS.

Definition jentry (v : string * string) : string * json := (v.1, JStr v.2).

Fixpoint total_chars (vs : list (string * string)) : Z := match vs with [] => 0 | v :: vs' => slen v.1 + slen v.2 + total_chars vs' end.

Lemma total_chars_perm vs ws : vs ≡ₚ ws → total_chars vs = total_chars ws.
Proof. induction 1; cbn [total_chars]; lia. Qed.

Lemma dset_new {A} k (v : A) d : k ∉ d.*1 → dset k v d = d ++ [(k, v)].
Proof.
  induction d as [|[k' v'] d IH]; [done|]. rewrite fmap_cons, not_elem_of_cons. intros [Hne Hn]. cbn [dset]. cbn in Hne. destruct (String.eqb_spec k' k); [congruence|].
  by rewrite (IH Hn).
Qed.

Lemma normalize_entries vs acc t :
  Forall entry_ok vs → NoDup (acc ++ vs).*1 → normalize (jentry <$> vs) acc t = Ok (acc ++ vs, t + total_chars vs).
Proof.
  intros H. revert acc t. induction H as [|[k v] vs (H1 & H2 & H3 & H4) H IH]; intros acc t Hd; cbn [total_chars]; [cbn; by rewrite app_nil_r, Z.add_0_r|].
  rewrite fmap_cons. cbn [jentry fst snd normalize] in *. rewrite H1, H2, H3. cbn [negb]. assert ((MAX_ENVIRONMENT_VALUE_CHARS <? slen v) = false) as -> by lia.
  rewrite dset_new.
  - rewrite IH; rewrite <- app_assoc; [f_equal; f_equal; cbn; lia|done].
  - rewrite fmap_app, fmap_cons in Hd. apply NoDup_app in Hd as (_ & Hn & _). intros Hk. apply (Hn k Hk). by left.
Qed.

Lemma normalize_inv fields acc t n t' :
  normalize fields acc t = Ok (n, t') → ∃ vs, fields = jentry <$> vs ∧ Forall entry_ok vs ∧ t' = t + total_chars vs.
Proof.
  revert acc t. induction fields as [|[k j] fields IH]; intros acc t; cbn [normalize]; [intros [= <- <-]; exists []; split; [done|]; split; [done|cbn; lia]|].
  destruct (ENVIRONMENT_NAME_PATTERN k) eqn:E1; [|done]. destruct (reserved k) eqn:E2; [done|]. cbn [negb]. destruct j as [| | | |v| |]; try done.
  destruct (has_nul v) eqn:E3; [done|]. destruct (_ <? slen v) eqn:E4; [done|]. intros (vs & -> & Hok & ->)%IH. exists ((k, v) :: vs).
  split; [done|]. split; [constructor; [|done]; repeat split; try done; cbn; lia|]. cbn [total_chars fst snd]. lia.
Qed.

Lemma validate_inv fields r c :
  NoDup fields.*1 → validate (JObj fields) (JStr r) = Ok c →
  ∃ vs, fields = jentry <$> vs ∧ Forall entry_ok vs ∧ NoDup vs.*1 ∧ Z.of_nat (length vs) ≤ MAX_ENVIRONMENT_VARIABLES ∧
    total_chars vs ≤ MAX_ENVIRONMENT_TOTAL_CHARS ∧ has_nul r = false ∧ slen r ≤ MAX_ENVIRONMENT_RC_CHARS ∧
    c = {| variables := merge_sort key_le vs; rc := r; updated_at := None |}.
Proof.
  intros Hd. unfold validate. destruct (_ <? Z.of_nat _) eqn:E1; [done|]. destruct (normalize fields [] 0) as [[n t]|e] eqn:En; [|done].
  destruct (_ <? t) eqn:E2; [done|]. destruct (has_nul r) eqn:E3; [done|]. destruct (_ <? slen r) eqn:E4; [done|]. intros [= <-].
  pose proof (normalize_inv _ _ _ _ _ En) as (vs & -> & Hok & ->). exists vs.
  assert (Hk : (jentry <$> vs).*1 = vs.*1) by (rewrite <- list_fmap_compose; by apply list_fmap_ext). rewrite Hk in Hd. rewrite length_fmap in E1.
  rewrite normalize_entries in En by done. injection En as <-. repeat split; try done; lia.
Qed.

Lemma validate_entries vs r :
  Forall entry_ok vs → NoDup vs.*1 → Z.of_nat (length vs) ≤ MAX_ENVIRONMENT_VARIABLES → total_chars vs ≤ MAX_ENVIRONMENT_TOTAL_CHARS →
  has_nul r = false → slen r ≤ MAX_ENVIRONMENT_RC_CHARS →
  validate (JObj (jentry <$> vs)) (JStr r) = Ok {| variables := merge_sort key_le vs; rc := r; updated_at := None |}.
Proof.
  intros H1 H2 H3 H4 H5 H6. unfold validate. rewrite length_fmap, normalize_entries by done. rewrite H5.
  assert ((MAX_ENVIRONMENT_VARIABLES <? Z.of_nat (length vs)) = false) as -> by lia. assert ((MAX_ENVIRONMENT_TOTAL_CHARS <? 0 + total_chars vs) = false) as -> by lia.
  assert ((MAX_ENVIRONMENT_RC_CHARS <? slen r) = false) as -> by lia. done.
Qed.

(** What the check accepts is a name for the shell. *)
Lemma pattern_names vs : Forall entry_ok vs → Forall (λ v : string * string, sh_name v.1 = true) vs.
Proof.
  intros Hvs. eapply Forall_impl; [exact Hvs|]. intros [k v] (H & _). cbn in *. destruct k as [|c k]; [done|]. cbn [ENVIRONMENT_NAME_PATTERN] in H.
  by apply andb_true_iff in H as [H _].
Qed.

Definition stored_limit : Z := MAX_ENVIRONMENT_TOTAL_CHARS + MAX_ENVIRONMENT_RC_CHARS + 65536.

(** C19: A configuration that was stored, and whose document is within the size that is
    read back, is the one that commands run with: loading returns it and the file
    that is written for a command, sourced by a shell, exports exactly the requested
    variables, under names that a shell accepts and with their exact values, quotes and
    newlines included, none of them reserved, and then runs the user's text; also when
    writing the shell file along with the document had failed. *)
Theorem environment_exports writes app_id fields r at_ d c :
  NoDup fields.*1 → validate (JObj fields) (JStr r) = Ok c → configured c = true → APP_ID_PATTERN app_id = true → (1 ≤ writes)%nat →
  slen (document_text at_ c) ≤ stored_limit →
  let d' := (replace writes app_id (JObj fields) (JStr r) at_ d).2 in
  load app_id d' = Ok {| variables := c.(variables); rc := r; updated_at := Some at_ |} ∧
  ∃ text, shell_file true app_id d' = (Ok (Some app_id), write_rc app_id (RcText text) d') ∧
    source_file text = Some (c.(variables), script r) ∧
    (∀ n v, (n, v) ∈ c.(variables) ↔ (n, JStr v) ∈ fields) ∧ ∀ n v, (n, v) ∈ c.(variables) → reserved n = false.
Proof.
  intros Hd Hv Hc Happ Hw Hs d'. pose proof (validate_inv _ _ _ Hd Hv) as (vs & -> & Hok & Hnd & Hn & Ht & Hr1 & Hr2 & ->). cbn [variables rc] in *.
  set (res := {| variables := merge_sort key_le vs; rc := r; updated_at := Some at_ |}).
  assert (Hdoc : d'.(docs) !! app_id = Some (Doc (slen (document_text at_ res)) (Some (document at_ res)))).
  { unfold d', replace. rewrite Hv. cbn [variables rc]. rewrite Happ. cbn [negb]. destruct writes as [|[|writes]]; [lia|..]; cbn; by rewrite lookup_insert_eq. }
  assert (Hl : load app_id d' = Ok res).
  { unfold load. rewrite Happ, Hdoc. cbn [negb]. assert ((_ <? slen (document_text at_ res)) = false) as -> by (apply Z.ltb_ge; exact Hs). cbn [document obj_get_or version_is_1].
    change (validate _ _) with (validate (JObj (jentry <$> merge_sort key_le vs)) (JStr r)).
    rewrite validate_entries; try done; [by rewrite merge_sort_sorted|by rewrite merge_sort_Permutation..|].
    by rewrite (total_chars_perm _ _ (merge_sort_Permutation key_le vs)). }
  split; [exact Hl|]. exists (_render_shell_rc res). split; [|split; [|split]].
  - unfold shell_file. rewrite Hl. assert (configured res = true) as -> by (exact Hc). done.
  - rewrite source_render; [cbn [variables rc res]; by rewrite merge_sort_sorted|]. cbn [variables res]. rewrite merge_sort_Permutation. by apply pattern_names.
  - intros n v. rewrite merge_sort_Permutation, list_elem_of_fmap. split; [intros H; by exists (n, v)|]. by intros ([n' v'] & [= -> ->] & H).
  - intros n v. rewrite merge_sort_Permutation. intros H. rewrite Forall_forall in Hok. by destruct (Hok _ H) as (_ & ? & _).
Qed.

Definition example_fields : list (string * json) :=
  [("PS1", JStr ("it" +:+ one SQUOTE +:+ "s $x" +:+ one LF +:+ one DQUOTE)); ("EDITOR", JStr "vi")]%string.

Lemma environment_exports_witness :
  ∃ text, shell_file true "Ab3xKq0000000000" (replace 1 "Ab3xKq0000000000" (JObj example_fields) (JStr "umask 077") "now" {| docs := ∅; rcs := ∅ |}).2 =
      (Ok (Some "Ab3xKq0000000000"%string), write_rc "Ab3xKq0000000000" (RcText text)
        (replace 1 "Ab3xKq0000000000" (JObj example_fields) (JStr "umask 077") "now" {| docs := ∅; rcs := ∅ |}).2) ∧
    source_file text = Some ([("EDITOR", "vi"); ("PS1", "it" +:+ one SQUOTE +:+ "s $x" +:+ one LF +:+ one DQUOTE)]%string, "umask 077" +:+ one LF).
Proof.
  destruct (environment_exports 1 "Ab3xKq0000000000" example_fields "umask 077" "now" {| docs := ∅; rcs := ∅ |}
    {| variables := [("EDITOR", "vi"); ("PS1", "it" +:+ one SQUOTE +:+ "s $x" +:+ one LF +:+ one DQUOTE)]%string; rc := "umask 077"; updated_at := None |})
    as (_ & text & H1 & H2 & _).
  - vm_compute. repeat constructor; set_solver.
  - vm_compute. reflexivity.
  - reflexivity.
  - reflexivity.
  - lia.
  - vm_compute. discriminate.
  - exists text. split; [exact H1|]. rewrite H2. reflexivity.
Defined.

(** ** A configuration that is stored and cannot be read *)

Fixpoint rep (n : nat) (c : ascii) : string := match n with 0%nat => EmptyString | S n' => String c (rep n' c) end.

Lemma rep_length n c : String.length (rep n c) = n.
Proof. induction n; cbn; congruence. Qed.

Lemma rep_no_nul n : has_nul (rep n LF) = false.
Proof. unfold has_nul. apply negb_false_iff. induction n as [|n IH]; [done|]. cbn [rep str_forall]. by rewrite IH. Qed.

(** A newline takes two characters in JSON. *)
Lemma json_newlines n : String.length (json_chars (rep n LF)) = (2 * n)%nat.
Proof.
  induction n as [|n IH]; [done|]. cbn [rep json_chars]. change (json_char LF) with "\n"%string. rewrite Base64.str_length_app, IH. cbn. lia.
Qed.

Definition LONG : Z := 65535.

Definition four (v : string) : list (string * string) := [("A", v); ("B", v); ("C", v); ("D", v)]%string.
Definition long_vars : list (string * string) := four (rep (Z.to_nat LONG) LF).
Definition long_fields : list (string * json) := jentry <$> long_vars.

Lemma four_sorted v : merge_sort key_le (four v) = four v.
Proof. reflexivity. Qed.

Lemma concat_long (f : string * string → string) vs sep :
  Forall (λ v, Z.to_nat (2 * LONG) ≤ String.length (f v))%nat vs → (length vs * Z.to_nat (2 * LONG) ≤ String.length (String.concat sep (f <$> vs)))%nat.
Proof.
  intros H. induction H as [|v vs Hv H IH]; [cbn; lia|]. rewrite fmap_cons. cbn [length]. destruct vs as [|w vs].
  - cbn [fmap list_fmap String.concat length]. lia.
  - rewrite fmap_cons in *. change (String.concat sep (f v :: f w :: (f <$> vs))) with (f v +:+ sep +:+ String.concat sep (f w :: (f <$> vs))).
    rewrite !Base64.str_length_app. lia.
Qed.

(** C39: The limits on what may be stored and on what is read back do not agree: four
    variables of 65535 newlines each are accepted and written, but their document is
    longer than what loading accepts, so that reading the configuration and preparing
    a command both fail until it is replaced or cleared. *)
Theorem stored_environment_unreadable app_id at_ d :
  APP_ID_PATTERN app_id = true →
  let '(r, d') := replace 2 app_id (JObj long_fields) (JStr EmptyString) at_ d in
  (∃ c, r = Ok c) ∧ load app_id d' = Err (ValueError "stored environment configuration is too large") ∧
  (shell_file true app_id d').1 = Err (ValueError "stored environment configuration is too large").
Proof.
  intros Happ. unfold long_fields, long_vars. assert (Hnul := rep_no_nul (Z.to_nat LONG)).
  assert (Hlen : slen (rep (Z.to_nat LONG) LF) = LONG) by (unfold slen; rewrite rep_length; unfold LONG; lia).
  assert (Hjson : (Z.to_nat (2 * LONG) ≤ String.length (json_chars (rep (Z.to_nat LONG) LF)))%nat) by (rewrite json_newlines; unfold LONG; lia).
  revert Hnul Hlen Hjson. generalize (rep (Z.to_nat LONG) LF) as v. intros v Hnul Hlen Hjson.
  assert (Hv : validate (JObj (jentry <$> four v)) (JStr EmptyString) = Ok {| variables := four v; rc := EmptyString; updated_at := None |}).
  { rewrite validate_entries; [by rewrite four_sorted|..].
    - repeat constructor; cbn [fst snd]; rewrite ?Hnul, ?Hlen; done.
    - cbn. repeat constructor; set_solver.
    - done.
    - cbn [four total_chars fst snd]. rewrite Hlen. done.
    - done.
    - done. }
  unfold replace. rewrite Hv, Happ. cbn [negb variables rc]. set (c := {| variables := four v; rc := EmptyString; updated_at := Some at_ |}).
  assert (Hbig : stored_limit < slen (document_text at_ c)).
  { set (f := λ v : string * string, "    " +:+ json_string v.1 +:+ ": " +:+ json_string v.2).
    assert (Hf : Forall (λ v, Z.to_nat (2 * LONG) ≤ String.length (f v))%nat (four v)).
    { repeat constructor; unfold f, json_string; cbn [snd]; rewrite !Base64.str_length_app; lia. }
    pose proof (concat_long f (four v) ("," +:+ one LF) Hf) as H. change (length (four v)) with 4%nat in H.
    assert (Hm : document_text at_ c = (document_text at_ c)) by done. unfold document_text at 2 in Hm. cbn [variables c rc] in Hm.
    change (match four v with [] => ?x | p :: l => @?y p l end) with (y ("A", v)%string (tail (four v))) in Hm. cbv beta in Hm.
    rewrite Hm. unfold slen. rewrite !Base64.str_length_app.
    change ((λ v : string * string, "    " +:+ json_string v.1 +:+ ": " +:+ json_string v.2) <$> ("A", v)%string :: tail (four v)) with (f <$> four v).
    unfold stored_limit, MAX_ENVIRONMENT_TOTAL_CHARS, MAX_ENVIRONMENT_RC_CHARS. unfold LONG in H. lia. }
  assert (Hl : load app_id (write_rc app_id (RcText (_render_shell_rc c)) (write_doc app_id (Doc (slen (document_text at_ c)) (Some (document at_ c))) d))
    = Err (ValueError "stored environment configuration is too large")).
  { unfold load. rewrite Happ. cbn [negb docs write_rc write_doc]. rewrite lookup_insert_eq. apply Z.ltb_lt in Hbig. unfold stored_limit in Hbig. by rewrite Hbig. }
  split; [by exists c|]. split; [exact Hl|]. unfold shell_file. by rewrite Hl.
Qed.

Lemma stored_environment_unreadable_witness :
  load "Ab3xKq0000000000" (replace 2 "Ab3xKq0000000000" (JObj long_fields) (JStr EmptyString) "now" {| docs := ∅; rcs := ∅ |}).2 =
  Err (ValueError "stored environment configuration is too large").
Proof.
  pose proof (stored_environment_unreadable "Ab3xKq0000000000" "now" {| docs := ∅; rcs := ∅ |} eq_refl) as H.
  destruct (replace _ _ _ _ _ _) as [r d']. exact (proj1 (proj2 H)).
Defined.
