(* ===== verification/Mappings.v ===== *)
(** * Mappings: the registry of client directories

    Models class [MappingStore] of src/openkapsel/mapping/mapping_store.py.  A mapping
    belongs to a workspace and is referred to there by its name or by its id.  The
    table is the list of its rows; the random ids and secrets that an operation draws
    are its arguments, as is the clock.  Listing is left out: it changes nothing.
    [update] reads the row it changes before it takes the lock for its writes; the two
    steps are [get] and [update_from], and the theorems on sequences of operations take
    them together ([stale_update_ambiguous] shows what may happen in between). *)

From Stdlib Require Import ZArith QArith Lia Ascii String.
From stdpp Require Import base tactics sets list strings.
From S2P Require Import Prelude Hashing Sql.

Local Open Scope Z_scope.
Local Open Scope py_scope.

(** ** Rows *)

(** A row without its secret, as [public] returns it. *)
Record public_mapping := {
  m_id : string;
  m_workspace : string;
  m_name : string;
  m_comment : string;
  m_writable : bool;
  m_allow_exec : bool;
  m_enabled : bool;
  m_created_at : Q;
  m_last_seen : option Q
}.

Record mapping := { public : public_mapping; m_secret_hash : string }.

Definition table := list mapping.

Definition id_of (r : mapping) : string := r.(public).(m_id).
Definition name_of (r : mapping) : string := r.(public).(m_name).
Definition workspace_of (r : mapping) : string := r.(public).(m_workspace).

Definition reference_char (c : ascii) : bool := is_alnum c || Ascii.eqb c "_" || Ascii.eqb c "-".

(** [[A-Za-z0-9][A-Za-z0-9_-]{0,63}] *)
Definition valid_name (name : string) : bool :=
  match name with
  | EmptyString => false
  | String c rest => is_alnum c && str_forall reference_char rest && (Z.of_nat (String.length rest) <=? 63)
  end.

Definition validate_name (name : string) : res exn unit :=
  if valid_name name then Ok tt else Err (ValueError "mapping name must contain 1-64 ASCII letters, digits, '-' or '_'").

Definition digest (secret : string) : string := sha256_hex secret.

(** ** Reading *)

Definition has_id (mid : string) (r : mapping) : bool := String.eqb (id_of r) mid.

Definition get (mid : string) (t : table) : res exn public_mapping :=
  match fetchone (has_id mid) t with Some r => Ok r.(public) | None => Err (KeyError "mapping does not exist") end.

Definition refers (workspace reference : string) (r : mapping) : bool :=
  String.eqb (workspace_of r) workspace && (String.eqb (name_of r) reference || String.eqb (id_of r) reference).

Definition resolve (workspace reference : string) (t : table) : res exn public_mapping :=
  let! _ := validate_name reference in
  match fetchall (refers workspace reference) t with
  | [] => Err (KeyError "mapping does not exist")
  | [r] => Ok r.(public)
  | _ => Err (ValueError "mapping reference is ambiguous")
  end.

Definition authenticate (mid secret : string) (t : table) : res exn public_mapping :=
  match fetchone (has_id mid) t with
  | Some r => if r.(public).(m_enabled) && String.eqb r.(m_secret_hash) (digest secret) then Ok r.(public)
              else Err (PermissionError "invalid mapping credential")
  | None => Err (PermissionError "invalid mapping credential")
  end.

(** ** References that are free *)

Definition is_str (o : option string) (s : string) : bool := match o with Some x => String.eqb s x | None => false end.

Definition _assert_reference_available (t : table) (workspace : string) (mapping_id : option string) (name : string) (exclude_id : option string)
    : res exn unit :=
  let rows := fetchall (λ r, String.eqb (workspace_of r) workspace &&
    (String.eqb (name_of r) name || String.eqb (id_of r) name || is_str mapping_id (name_of r))) t in
  let conflicts := fetchall (λ r, negb (is_str exclude_id (id_of r))) rows in
  raise! (ValueError "mapping name is already registered") when existsb (λ r, String.eqb (name_of r) name) conflicts;
  raise! (ValueError "mapping name conflicts with an existing mapping id") when existsb (λ r, String.eqb (id_of r) name) conflicts;
  raise! (ValueError "mapping id conflicts with an existing mapping name") when existsb (λ r, is_str mapping_id (name_of r)) conflicts;
  Ok tt.

Definition ensure_reference_available (t : table) (workspace : string) (mapping_id : option string) (name : string) (exclude_id : option string)
    : res exn unit :=
  let! _ := validate_name name in _assert_reference_available t workspace mapping_id name exclude_id.

(** ** Writing *)

Definition ID_DRAWS : nat := 32.

(** [for _ in range(32)]: the first draw that is no id and no name of the workspace. *)
Fixpoint draw_id (n : nat) (draws : nat → string) (workspace : string) (t : table) : option string :=
  match n with
  | 0%nat => None
  | S n' =>
      let mid := draws (ID_DRAWS - n)%nat in
      match fetchone (λ r, String.eqb (id_of r) mid || (String.eqb (workspace_of r) workspace && String.eqb (name_of r) mid)) t with
      | None => Some mid
      | Some _ => draw_id n' draws workspace t
      end
  end.

Definition comment_ok (comment : string) : bool := Z.of_nat (String.length comment) <=? 200.

Definition create (workspace name comment : string) (writable allow_exec : bool) (secret : string) (draws : nat → string) (now : Q) (t : table)
    : res exn (public_mapping * string) * table :=
  let done :=
    let! _ := validate_name name in
    raise! (ValueError "comment must contain at most 200 characters") when negb (comment_ok comment);
    let! _ := _assert_reference_available t workspace None name None in
    match draw_id ID_DRAWS draws workspace t with
    | None => Err (RuntimeError "could not allocate an unambiguous mapping id")
    | Some mid =>
        Ok (t ++ [{| public := {| m_id := mid; m_workspace := workspace; m_name := name; m_comment := comment; m_writable := writable;
                                  m_allow_exec := allow_exec; m_enabled := true; m_created_at := now; m_last_seen := None |};
                     m_secret_hash := digest secret |}], mid)
    end in
  match done with
  | Ok (t', mid) => (let! row := get mid t' in Ok (row, secret), t')
  | Err e => (Err e, t)
  end.

Definition set_public (f : public_mapping → public_mapping) (r : mapping) : mapping :=
  {| public := f r.(public); m_secret_hash := r.(m_secret_hash) |}.

Definition set_workspace (v : string) (p : public_mapping) : public_mapping :=
  {| m_id := p.(m_id); m_workspace := v; m_name := p.(m_name); m_comment := p.(m_comment); m_writable := p.(m_writable);
     m_allow_exec := p.(m_allow_exec); m_enabled := p.(m_enabled); m_created_at := p.(m_created_at); m_last_seen := p.(m_last_seen) |}.
Definition set_name (v : string) (p : public_mapping) : public_mapping :=
  {| m_id := p.(m_id); m_workspace := p.(m_workspace); m_name := v; m_comment := p.(m_comment); m_writable := p.(m_writable);
     m_allow_exec := p.(m_allow_exec); m_enabled := p.(m_enabled); m_created_at := p.(m_created_at); m_last_seen := p.(m_last_seen) |}.
Definition set_comment (v : string) (p : public_mapping) : public_mapping :=
  {| m_id := p.(m_id); m_workspace := p.(m_workspace); m_name := p.(m_name); m_comment := v; m_writable := p.(m_writable);
     m_allow_exec := p.(m_allow_exec); m_enabled := p.(m_enabled); m_created_at := p.(m_created_at); m_last_seen := p.(m_last_seen) |}.
Definition set_writable (v : bool) (p : public_mapping) : public_mapping :=
  {| m_id := p.(m_id); m_workspace := p.(m_workspace); m_name := p.(m_name); m_comment := p.(m_comment); m_writable := v;
     m_allow_exec := p.(m_allow_exec); m_enabled := p.(m_enabled); m_created_at := p.(m_created_at); m_last_seen := p.(m_last_seen) |}.
Definition set_allow_exec (v : bool) (p : public_mapping) : public_mapping :=
  {| m_id := p.(m_id); m_workspace := p.(m_workspace); m_name := p.(m_name); m_comment := p.(m_comment); m_writable := p.(m_writable);
     m_allow_exec := v; m_enabled := p.(m_enabled); m_created_at := p.(m_created_at); m_last_seen := p.(m_last_seen) |}.
Definition set_enabled (v : bool) (p : public_mapping) : public_mapping :=
  {| m_id := p.(m_id); m_workspace := p.(m_workspace); m_name := p.(m_name); m_comment := p.(m_comment); m_writable := p.(m_writable);
     m_allow_exec := p.(m_allow_exec); m_enabled := v; m_created_at := p.(m_created_at); m_last_seen := p.(m_last_seen) |}.
Definition set_last_seen (v : Q) (p : public_mapping) : public_mapping :=
  {| m_id := p.(m_id); m_workspace := p.(m_workspace); m_name := p.(m_name); m_comment := p.(m_comment); m_writable := p.(m_writable);
     m_allow_exec := p.(m_allow_exec); m_enabled := p.(m_enabled); m_created_at := p.(m_created_at); m_last_seen := Some v |}.
Definition set_secret (v : string) (r : mapping) : mapping := {| public := r.(public); m_secret_hash := v |}.

(** UNIQUE(workspace, name), checked by each statement. *)
Definition clashes (mid workspace name : string) (t : table) : bool :=
  existsb (λ r, negb (has_id mid r) && String.eqb (workspace_of r) workspace && String.eqb (name_of r) name) t.

Definition unique_after (mid : string) (t : table) : bool :=
  match fetchone (has_id mid) t with Some r => negb (clashes mid (workspace_of r) (name_of r) t) | None => true end.

(** One [UPDATE mappings SET ... WHERE id=?]. *)
Definition sql_update (mid : string) (f : mapping → mapping) (t : table) : res exn table :=
  let t' := update_where (has_id mid) f t in
  if unique_after mid t' then Ok t' else Err IntegrityError.

Record changes := {
  c_workspace : option string;
  c_name : option string;
  c_comment : option string;
  c_writable : option bool;
  c_allow_exec : option bool;
  c_enabled : option bool;
  c_rotate : bool
}.

(** The statements of [update], in the order of the dictionary. *)
Definition statements (c : changes) (secret : string) : list (mapping → mapping) :=
  option_list ((λ v, set_public (set_workspace v)) <$> c.(c_workspace)) ++ option_list ((λ v, set_public (set_name v)) <$> c.(c_name)) ++
  option_list ((λ v, set_public (set_comment v)) <$> c.(c_comment)) ++ option_list ((λ v, set_public (set_writable v)) <$> c.(c_writable)) ++
  option_list ((λ v, set_public (set_allow_exec v)) <$> c.(c_allow_exec)) ++ option_list ((λ v, set_public (set_enabled v)) <$> c.(c_enabled)) ++
  (if c.(c_rotate) then [set_secret (digest secret)] else []).

Fixpoint execute_all (mid : string) (fs : list (mapping → mapping)) (t : table) : res exn table :=
  match fs with [] => Ok t | f :: fs' => let! t' := sql_update mid f t in execute_all mid fs' t' end.

(** [update] from the row [current] that it has read. *)
Definition update_from (current : public_mapping) (mid : string) (c : changes) (secret : string) (t : table)
    : res exn (public_mapping * option string) * table :=
  let done :=
    let! _ := match c.(c_name) with Some n => validate_name n | None => Ok tt end in
    raise! (ValueError "comment must contain at most 200 characters") when match c.(c_comment) with Some x => negb (comment_ok x) | None => false end;
    let target_workspace := default current.(m_workspace) c.(c_workspace) in
    let target_name := default current.(m_name) c.(c_name) in
    let! _ := match c.(c_workspace), c.(c_name) with
              | None, None => Ok tt
              | _, _ => _assert_reference_available t target_workspace (Some mid) target_name (Some mid)
              end in
    execute_all mid (statements c secret) t in
  match done with
  | Ok t' => (let! row := get mid t' in Ok (row, if c.(c_rotate) then Some secret else None), t')
  | Err e => (Err e, t)
  end.

Definition update (mid : string) (c : changes) (secret : string) (t : table) : res exn (public_mapping * option string) * table :=
  match get mid t with Ok current => update_from current mid c secret t | Err e => (Err e, t) end.

Definition seen (mid : string) (now : Q) (t : table) : table := update_where (has_id mid) (set_public (set_last_seen now)) t.

Definition delete (mid : string) (t : table) : table := delete_where (has_id mid) t.

Inductive op :=
| Create (workspace name comment : string) (writable allow_exec : bool) (secret : string) (draws : nat → string) (now : Q)
| Update (mid : string) (c : changes) (secret : string)
| Seen (mid : string) (now : Q)
| Delete (mid : string).

Definition exec (t : table) (o : op) : table :=
  match o with
  | Create workspace name comment writable allow_exec secret draws now => (create workspace name comment writable allow_exec secret draws now t).2
  | Update mid c secret => (update mid c secret t).2
  | Seen mid now => seen mid now t
  | Delete mid => delete mid t
  end.

(** ** References name one mapping *)

Lemma existsb_elem {A} (f : A → bool) l x : existsb f l = false → x ∈ l → f x = false.
Proof. intros H Hx. destruct (f x) eqn:E; [|done]. assert (existsb f l = true) by (apply existsb_exists; exists x; by rewrite <- list_elem_of_In). congruence. Qed.

Lemma assert_available t ws mid name ex r :
  _assert_reference_available t ws mid name ex = Ok tt → r ∈ t → workspace_of r = ws → ex ≠ Some (id_of r) →
  name_of r ≠ name ∧ id_of r ≠ name ∧ mid ≠ Some (name_of r).
Proof.
  unfold _assert_reference_available. intros H Hr Hw He. set (rows := fetchall _ t) in H. set (conflicts := fetchall _ rows) in H.
  destruct (existsb _ conflicts) eqn:E1; [done|]. destruct (existsb (λ r, String.eqb (id_of r) name) conflicts) eqn:E2; [done|].
  destruct (existsb (λ r, is_str mid (name_of r)) conflicts) eqn:E3; [done|].
  assert (Hin : (String.eqb (name_of r) name || String.eqb (id_of r) name || is_str mid (name_of r)) = true → r ∈ conflicts).
  { intros Hc. apply elem_fetchall. split; [apply elem_fetchall; rewrite Hw, String.eqb_refl, Hc; done|].
    destruct ex as [x|]; cbn; [|done]. destruct (String.eqb_spec (id_of r) x); [congruence|done]. }
  repeat split; intros E.
  - rewrite E, String.eqb_refl in Hin. apply (existsb_elem _ _ r) in E1; [|by apply Hin]. cbn in E1. by rewrite E, String.eqb_refl in E1.
  - rewrite E, String.eqb_refl, orb_true_r in Hin. apply (existsb_elem _ _ r) in E2; [|by apply Hin]. cbn in E2. by rewrite E, String.eqb_refl in E2.
  - subst mid. cbn in Hin. rewrite String.eqb_refl, orb_true_r in Hin. apply (existsb_elem _ _ r) in E3; [|by apply Hin]. cbn in E3.
    by rewrite String.eqb_refl in E3.
Qed.

Definition wf (t : table) : Prop :=
  NoDup (id_of <$> t) ∧ (∀ r, r ∈ t → valid_name (name_of r) = true ∧ valid_name (id_of r) = true) ∧
  ∀ r r', r ∈ t → r' ∈ t → workspace_of r = workspace_of r' → id_of r ≠ id_of r' → name_of r ≠ name_of r' ∧ name_of r ≠ id_of r'.

Lemma same_row t r r' : NoDup (id_of <$> t) → r ∈ t → r' ∈ t → id_of r = id_of r' → r = r'.
Proof.
  intros H [i Hi]%list_elem_of_lookup [j Hj]%list_elem_of_lookup E.
  assert (i = j) as ->; [|congruence]. eapply NoDup_lookup; [done|by rewrite list_lookup_fmap, Hi|by rewrite list_lookup_fmap, Hj; cbn; f_equal].
Qed.

Definition keeps_id (f : mapping → mapping) : Prop := ∀ r, id_of (f r) = id_of r.

Lemma ids_update mid f t : keeps_id f → id_of <$> update_where (has_id mid) f t = id_of <$> t.
Proof.
  intros H. unfold update_where. rewrite <- list_fmap_compose. apply list_fmap_ext. intros i r _. cbn. by destruct (has_id mid r).
Qed.

(** A row whose workspace and name are free for it may be put in place. *)
Lemma wf_update mid f t :
  keeps_id f → wf t →
  (∀ r, r ∈ t → id_of r = mid → valid_name (name_of (f r)) = true ∧
     ∀ x, x ∈ t → id_of x ≠ mid → workspace_of x = workspace_of (f r) → name_of x ≠ name_of (f r) ∧ id_of x ≠ name_of (f r) ∧ name_of x ≠ mid) →
  wf (update_where (has_id mid) f t).
Proof.
  intros Hf (W1 & W2 & W3) H. split; [by rewrite ids_update|]. split.
  - intros r (x & Hx & ->)%elem_update_where. destruct (has_id mid x) eqn:E; [|by apply W2]. apply String.eqb_eq in E.
    destruct (H x Hx E) as [Hv _]. rewrite Hf. split; [done|by apply W2].
  - intros r r' (x & Hx & ->)%elem_update_where (y & Hy & ->)%elem_update_where.
    unfold has_id. destruct (String.eqb_spec (id_of x) mid) as [Ex|Ex], (String.eqb_spec (id_of y) mid) as [Ey|Ey]; rewrite ?Hf; intros Hw Hne.
    + congruence.
    + destruct (H x Hx Ex) as [_ Hc]. destruct (Hc y Hy Ey (eq_sym Hw)) as (A & B & C). split; congruence.
    + destruct (H y Hy Ey) as [_ Hc]. destruct (Hc x Hx Ex Hw) as (A & B & C). split; congruence.
    + by apply W3.
Qed.

Definition run_all (fs : list (mapping → mapping)) (r : mapping) : mapping := foldl (λ r f, f r) r fs.

Lemma execute_all_spec mid fs t t' :
  Forall keeps_id fs → execute_all mid fs t = Ok t' → t' = update_where (has_id mid) (run_all fs) t.
Proof.
  intros H. revert t. induction H as [|f fs Hf Hfs IH]; intros t; cbn [execute_all].
  - intros [= <-]. unfold update_where, run_all. cbn. rewrite <- (list_fmap_id t) at 1. apply list_fmap_ext. intros i r _. cbn. by destruct (has_id mid r).
  - unfold sql_update. destruct (unique_after _ _); [|done]. intros E. rewrite (IH _ E). unfold update_where. rewrite <- list_fmap_compose.
    apply list_fmap_ext. intros i r _. cbn. destruct (has_id mid r) eqn:Er; [|by rewrite Er].
    unfold has_id. rewrite Hf. fold (has_id mid r). by rewrite Er.
Qed.

Lemma statements_keep_id c secret : Forall keeps_id (statements c secret).
Proof.
  unfold statements. repeat apply Forall_app_2; try (match goal with |- Forall _ (option_list (_ <$> ?o)) => destruct o end);
    try destruct (c_rotate c); cbn; repeat constructor; intros []; reflexivity.
Qed.

Lemma run_statements c secret r :
  id_of (run_all (statements c secret) r) = id_of r ∧ workspace_of (run_all (statements c secret) r) = default (workspace_of r) c.(c_workspace) ∧
  name_of (run_all (statements c secret) r) = default (name_of r) c.(c_name) ∧
  m_enabled (run_all (statements c secret) r).(public) = default (m_enabled r.(public)) c.(c_enabled) ∧
  (run_all (statements c secret) r).(m_secret_hash) = if c.(c_rotate) then digest secret else r.(m_secret_hash).
Proof. destruct c as [[?|] [?|] [?|] [?|] [?|] [?|] []]; done. Qed.

(** [Update] either leaves the table as it is or changes the one row. *)
Lemma update_cases mid c secret t :
  (update mid c secret t).2 = t ∨
  (update mid c secret t).2 = update_where (has_id mid) (run_all (statements c secret)) t ∧
  ∃ current, get mid t = Ok current ∧ (∀ n, c.(c_name) = Some n → valid_name n = true) ∧
    (c.(c_workspace) = None ∧ c.(c_name) = None ∨
     _assert_reference_available t (default current.(m_workspace) c.(c_workspace)) (Some mid) (default current.(m_name) c.(c_name)) (Some mid) = Ok tt).
Proof.
  unfold update. destruct (get mid t) as [current|e] eqn:Eg; [|by left]. unfold update_from.
  destruct (match c.(c_name) with Some n => validate_name n | None => Ok tt end) as [[]|e] eqn:En; [|by left].
  destruct (match c.(c_comment) with Some x => negb (comment_ok x) | None => false end); [by left|].
  destruct (match c.(c_workspace), c.(c_name) with None, None => Ok tt | _, _ => _ end) as [[]|e] eqn:Ea; [|by left].
  destruct (execute_all _ _ _) as [t'|e] eqn:Ee; [right|by left]. cbn [snd].
  split; [exact (execute_all_spec _ _ _ _ (statements_keep_id _ _) Ee)|]. exists current. split; [done|]. split.
  - intros n Hn. rewrite Hn in En. unfold validate_name in En. by destruct (valid_name n).
  - destruct (c_workspace c), (c_name c); try (right; exact Ea). by left.
Qed.

Lemma get_row mid t p : get mid t = Ok p → ∃ r, r ∈ t ∧ id_of r = mid ∧ r.(public) = p.
Proof.
  unfold get. destruct (fetchone _ t) as [r|] eqn:E; [|done]. intros [= <-]. apply fetchone_Some in E as [Hr E].
  apply String.eqb_eq in E. by exists r.
Qed.

Lemma wf_Update mid c secret t : wf t → wf (update mid c secret t).2.
Proof.
  intros W. destruct (update_cases mid c secret t) as [->|(-> & current & Hg & Hn & Ha)]; [done|].
  assert (W' := W). destruct W as (W1 & W2 & W3).
  assert (Hid : keeps_id (run_all (statements c secret))) by (intros r; apply run_statements).
  apply wf_update; [done..|]. intros r Hr E. destruct (run_statements c secret r) as (_ & -> & -> & _).
  apply get_row in Hg as (r0 & Hr0 & E0 & <-). assert (r0 = r) as -> by (apply (same_row t); [done..|congruence]).
  split.
  { destruct (c_name c) as [n|]; cbn; [by apply Hn|by apply W2]. }
  intros x Hx Hne Hw. destruct Ha as [[Ew En]|Ha].
  - rewrite Ew, En in *. cbn in *. destruct (W3 x r Hx Hr Hw) as [A B]; [congruence|].
    destruct (W3 r x Hr Hx (eq_sym Hw)) as [C D]; [congruence|]. repeat split; congruence.
  - destruct (assert_available _ _ _ _ _ x Ha Hx Hw) as (A & B & C); [intros [= Ei]; by apply Hne|].
    split; [done|]. split; [done|]. intros Ec. apply C. by rewrite Ec.
Qed.

Lemma draw_id_free n draws ws t mid : draw_id n draws ws t = Some mid → (∃ i, mid = draws i) ∧ ∀ r, r ∈ t → id_of r ≠ mid ∧ (workspace_of r = ws → name_of r ≠ mid).
Proof.
  induction n as [|n IH]; cbn [draw_id]; [done|]. destruct (fetchone _ t) eqn:E; [done|]. intros [= <-]. split; [by eexists|].
  intros r Hr. apply (fetchone_None _ _ r) in E; [|done]. cbn in E. apply orb_false_iff in E as [E1 E2]. apply String.eqb_neq in E1. split; [done|].
  intros Hw. rewrite Hw, String.eqb_refl in E2. by apply String.eqb_neq in E2.
Qed.

Lemma wf_snoc t r :
  wf t → valid_name (name_of r) = true → valid_name (id_of r) = true → (∀ x, x ∈ t → id_of x ≠ id_of r ∧
    (workspace_of x = workspace_of r → name_of x ≠ name_of r ∧ id_of x ≠ name_of r ∧ name_of x ≠ id_of r)) → wf (t ++ [r]).
Proof.
  intros (W1 & W2 & W3) Hn Hi H. split; [|split].
  - rewrite fmap_app. apply NoDup_app. split; [done|]. split; [|repeat constructor; set_solver]. intros k (x & -> & Hx)%list_elem_of_fmap.
    cbn. rewrite list_elem_of_singleton. by apply H.
  - intros x [Hx|Ex%list_elem_of_singleton]%elem_of_app; [by apply W2|by subst x].
  - intros x y [Hx|Ex%list_elem_of_singleton]%elem_of_app [Hy|Ey%list_elem_of_singleton]%elem_of_app Hw Hne; subst.
    + by apply W3.
    + destruct (H x Hx) as [_ H']. destruct (H' Hw) as (A & B & C). done.
    + destruct (H y Hy) as [_ H']. destruct (H' (eq_sym Hw)) as (A & B & C). split; congruence.
    + done.
Qed.

Lemma fetchone_snoc {R} (p : R → bool) t r : (∀ x, x ∈ t → p x = false) → p r = true → fetchone p (t ++ [r]) = Some r.
Proof.
  intros H Hr. unfold fetchone. induction t as [|y t IH]; cbn; [by rewrite Hr|]. rewrite (H y) by left. apply IH. intros x Hx. apply H. by right.
Qed.

Lemma create_cases ws name comment writable allow_exec secret draws now t :
  (create ws name comment writable allow_exec secret draws now t).2 = t ∧ (∃ e, (create ws name comment writable allow_exec secret draws now t).1 = Err e) ∨
  ∃ r, create ws name comment writable allow_exec secret draws now t = (Ok (r.(public), secret), t ++ [r]) ∧
    workspace_of r = ws ∧ name_of r = name ∧ m_enabled r.(public) = true ∧ r.(m_secret_hash) = digest secret ∧ valid_name name = true ∧
    _assert_reference_available t ws None name None = Ok tt ∧ (∃ i, id_of r = draws i) ∧
    ∀ x, x ∈ t → id_of x ≠ id_of r ∧ (workspace_of x = ws → name_of x ≠ id_of r).
Proof.
  unfold create, validate_name. destruct (valid_name name) eqn:En; [|left; split; [done|by eexists]].
  destruct (negb _); [left; split; [done|by eexists]|]. destruct (_assert_reference_available _ _ _ _ _) as [u|e] eqn:Ea; [destruct u|left; split; [done|by eexists]].
  destruct (draw_id _ _ _ _) as [mid|] eqn:Ed; [|left; split; [done|by eexists]]. right. apply draw_id_free in Ed as [Hd Hf].
  set (r := {| public := _; m_secret_hash := _ |}). exists r. split; [|repeat split; try done; by apply Hf].
  assert (Eg : get mid (t ++ [r]) = Ok r.(public)); [|by rewrite Eg].
  unfold get. rewrite fetchone_snoc; [|intros x Hx; apply String.eqb_neq; exact (proj1 (Hf x Hx))|by apply String.eqb_refl]. done.
Qed.

Lemma wf_Create ws name comment writable allow_exec secret draws now t :
  (∀ i, valid_name (draws i) = true) → wf t → wf (create ws name comment writable allow_exec secret draws now t).2.
Proof.
  intros Hd W. destruct (create_cases ws name comment writable allow_exec secret draws now t)
    as [[-> _]|(r & -> & Ew & En & _ & _ & Hv & Ha & [i Ei] & Hf)]; [done|]. cbn [snd].
  apply wf_snoc; [done|by rewrite En|by rewrite Ei|]. intros x Hx. destruct (Hf x Hx) as [H1 H2]. split; [done|].
  rewrite Ew, En. intros Hw. destruct (assert_available _ _ _ _ _ x Ha Hx Hw) as (A & B & _); [done|]. auto.
Qed.

(** [token_urlsafe_alnum(18)]: 24 characters of the alphabet, the first alphanumeric. *)
Definition drawn (o : op) : Prop :=
  match o with Create _ _ _ _ _ _ draws _ => ∀ i, valid_name (draws i) = true | _ => True end.

Lemma wf_exec t o : drawn o → wf t → wf (exec t o).
Proof.
  intros Ho W. destruct o as [ws name comment writable allow_exec secret draws now|mid c secret|mid now|mid]; cbn [exec] in *.
  - by apply wf_Create.
  - by apply wf_Update.
  - destruct W as (W1 & W2 & W3). apply wf_update; [by intros []|done|]. intros r Hr E. split; [exact (proj1 (W2 r Hr))|]. intros x Hx Hne Hw.
    change (workspace_of x = workspace_of r) in Hw. change (name_of x ≠ name_of r ∧ id_of x ≠ name_of r ∧ name_of x ≠ mid).
    destruct (W3 x r Hx Hr Hw) as [A B]; [congruence|]. destruct (W3 r x Hr Hx (eq_sym Hw)) as [C D]; [congruence|]. repeat split; congruence.
  - destruct W as (W1 & W2 & W3). unfold delete, delete_where, fetchall. assert (Hin : ∀ r, r ∈ List.filter (λ r, negb (has_id mid r)) t → r ∈ t).
    { intros r Hr. rewrite !list_elem_of_In in *. by apply List.filter_In in Hr as [? _]. }
    split; [|split; [intros r Hr; by apply W2, Hin|intros r r' Hr Hr'; apply W3; by apply Hin]].
    clear W2 W3 Hin. induction t as [|r t IH]; [constructor|]. rewrite fmap_cons in W1. apply NoDup_cons in W1 as [Hn Hd]. cbn [List.filter].
    destruct (negb _); [|by apply IH]. rewrite fmap_cons. apply NoDup_cons. split; [|by apply IH]. intros (x & E & Hx)%list_elem_of_fmap.
    apply Hn. rewrite E. apply list_elem_of_fmap_2. rewrite !list_elem_of_In in *. by apply List.filter_In in Hx as [? _].
Qed.

Lemma wf_run ops t : Forall drawn ops → wf t → wf (foldl exec t ops).
Proof. intros H. revert t. induction H as [|o ops Ho H IH]; intros t W; cbn; [done|]. apply IH. by apply wf_exec. Qed.

Lemma fetchall_one {R} (p : R → bool) t r : NoDup t → r ∈ t → p r = true → (∀ x, x ∈ t → p x = true → x = r) → fetchall p t = [r].
Proof.
  intros Hd Hr Hp Hu. unfold fetchall. induction t as [|y t IH]; [set_solver|]. apply NoDup_cons in Hd as [Hn Hd]. cbn.
  apply elem_of_cons in Hr as [<-|Hr].
  - rewrite Hp. f_equal. change (fetchall p t = []). apply fetchall_none. intros x Hx. destruct (p x) eqn:E; [|done].
    assert (x = r) as -> by (apply Hu; [by right|done]). done.
  - destruct (p y) eqn:E; [|apply IH; [done..|intros x Hx; apply Hu; by right]].
    assert (y = r) as -> by (apply Hu; [by left|done]). done.
Qed.

Lemma refers_same t ws ref r r' :
  wf t → r ∈ t → r' ∈ t → refers ws ref r = true → refers ws ref r' = true → r' = r.
Proof.
  intros (W1 & W2 & W3) Hr Hr' H H'. unfold refers in *. rewrite andb_true_iff, orb_true_iff, !String.eqb_eq in H, H'. destruct H as [Hw H], H' as [Hw' H'].
  destruct (decide (id_of r = id_of r')) as [E|E]; [symmetry; by eapply same_row|].
  destruct (W3 r r' Hr Hr') as [A B]; [congruence|done|]. destruct (W3 r' r Hr' Hr) as [C D]; [congruence|congruence|].
  destruct H, H'; congruence.
Qed.

(** ** An example: two workspaces, a move and a credential *)

Definition example_draws (i : nat) : string :=
  match i with 1%nat => "Ab3xKq0000000000000000aa" | _ => "Zz9yQw0000000000000000bb" end.

Definition example_ops : list op :=
  [Create "alpha" "docs" "notes" true false "s1" (λ i, example_draws (S i)) 0;
   Create "beta" "docs" "" false false "s2" (λ i, example_draws (S i)) 1;
   Create "beta" "photos" "" false false "s3" (λ _, "docs") 2;
   Update "Ab3xKq0000000000000000aa" {| c_workspace := None; c_name := Some "papers"; c_comment := None; c_writable := None; c_allow_exec := None;
                                        c_enabled := None; c_rotate := false |} "s4";
   Seen "Ab3xKq0000000000000000aa" 5].

(** C27: Whatever sequence of registrations, changes, moves, sightings and deletions
    the store has seen, every mapping of a workspace is found there by its name and by
    its id, and no reference is ever ambiguous: resolving one answers with the one
    mapping it names or says that there is none.  A change is taken as one step, from
    reading the row to writing it. *)
Theorem mapping_references_unambiguous ops ws ref :
  Forall drawn ops →
  let t := foldl exec [] ops in
  (∀ r, r ∈ t → resolve (workspace_of r) (name_of r) t = Ok r.(public) ∧ resolve (workspace_of r) (id_of r) t = Ok r.(public)) ∧
  resolve ws ref t ≠ Err (ValueError "mapping reference is ambiguous").
Proof.
  intros H t. assert (W : wf t) by (apply wf_run; [done|split; [constructor|split; set_solver]]).
  assert (Hone : ∀ ws ref r, r ∈ t → refers ws ref r = true → fetchall (refers ws ref) t = [r]).
  { intros ws' ref' r Hr Hp. apply fetchall_one; [apply (NoDup_fmap_1 id_of), W|done..|]. intros x Hx Hpx. by eapply refers_same. }
  split.
  - intros r Hr. destruct (proj1 (proj2 W) r Hr) as [Hn Hi]. unfold resolve, validate_name. rewrite Hn, Hi.
    rewrite !(Hone _ _ r) by (try done; unfold refers; rewrite !String.eqb_refl; try done; apply orb_true_r). done.
  - unfold resolve, validate_name. destruct (valid_name ref); [|done]. destruct (fetchall (refers ws ref) t) as [|r rest] eqn:E; [done|].
    assert (Hr : r ∈ fetchall (refers ws ref) t) by (rewrite E; by left). apply elem_fetchall in Hr as [Hr Hp].
    rewrite (Hone _ _ r Hr Hp) in E. by injection E as <-.
Qed.

Lemma mapping_references_unambiguous_witness :
  length (foldl exec [] example_ops) = 2%nat ∧
  resolve "beta" "docs" (foldl exec [] example_ops) ≠ Err (ValueError "mapping reference is ambiguous").
Proof.
  split; [vm_compute; reflexivity|]. apply (mapping_references_unambiguous example_ops "beta" "docs").
  repeat constructor; intros [|[|i]]; reflexivity.
Defined.

(** ** Credentials *)

(** An operation that leaves the credential of a mapping alone. *)
Definition spares (mid : string) (o : op) : Prop :=
  match o with
  | Update mid' c _ => mid' = mid → c.(c_rotate) = false ∧ c.(c_enabled) ≠ Some false
  | Delete mid' => mid' ≠ mid
  | _ => True
  end.

Definition holds (mid secret : string) (t : table) : Prop :=
  ∃ r, fetchone (has_id mid) t = Some r ∧ m_enabled r.(public) = true ∧ r.(m_secret_hash) = digest secret.

Lemma fetchone_update mid mid' f t :
  keeps_id f → fetchone (has_id mid) (update_where (has_id mid') f t) = (λ r, if has_id mid' r then f r else r) <$> fetchone (has_id mid) t.
Proof.
  intros Hf. unfold fetchone, update_where. induction t as [|r t IH]; cbn; [done|].
  assert (E : has_id mid (if has_id mid' r then f r else r) = has_id mid r) by (unfold has_id at 1 3; destruct (has_id mid' r); by rewrite ?Hf).
  rewrite E. by destruct (has_id mid r).
Qed.

Lemma fetchone_app {R} (p : R → bool) t u r : fetchone p t = Some r → fetchone p (t ++ u) = Some r.
Proof. unfold fetchone. induction t as [|y t IH]; cbn; [done|]. destruct (p y); [done|apply IH]. Qed.

Lemma fetchone_delete mid mid' t : mid' ≠ mid → fetchone (has_id mid) (delete mid' t) = fetchone (has_id mid) t.
Proof.
  intros Hne. unfold fetchone, delete, delete_where, fetchall. induction t as [|r t IH]; cbn; [done|].
  destruct (String.eqb_spec (id_of r) mid) as [E|E].
  - assert (has_id mid' r = false) as -> by (apply String.eqb_neq; congruence). cbn.
    assert (has_id mid r = true) as -> by (by apply String.eqb_eq). done.
  - assert (H : has_id mid r = false) by (by apply String.eqb_neq). rewrite H. destruct (negb _); cbn; [by rewrite H|done].
Qed.

Lemma holds_exec mid secret t o : spares mid o → holds mid secret t → holds mid secret (exec t o).
Proof.
  intros Ho (r & Hr & He & Hs). destruct o as [ws name comment writable allow_exec sec draws now|mid' c sec|mid' now|mid']; cbn [exec spares] in *.
  - destruct (create_cases ws name comment writable allow_exec sec draws now t) as [[-> _]|(x & -> & _)]; [by exists r|].
    exists r. cbn [snd]. split; [by apply fetchone_app|done].
  - destruct (update_cases mid' c sec t) as [->|(-> & _)]; [by exists r|].
    exists (if has_id mid' r then run_all (statements c sec) r else r). split.
    { rewrite fetchone_update by (intros x; apply run_statements). by rewrite Hr. }
    destruct (has_id mid' r) eqn:E; [|done]. apply fetchone_Some in Hr as [_ Hid]. apply String.eqb_eq in E, Hid.
    destruct Ho as [Hrot Hen]; [congruence|]. destruct (run_statements c sec r) as (_ & _ & _ & -> & ->). rewrite Hrot. split; [|done].
    destruct (c_enabled c) as [[]|]; naive_solver.
  - unfold seen. eexists. rewrite fetchone_update by (by intros []). rewrite Hr. split; [done|]. by destruct (has_id mid' r).
  - exists r. by rewrite fetchone_delete.
Qed.

(** The credential that registering a mapping returns authenticates its provider,
    as the mapping then stands, after any later operations (moves to another workspace
    and renamings of this mapping among them) that do not delete it, disable it or
    rotate its credential. *)
Theorem mapping_credential_stable t ws name comment writable allow_exec secret draws now row secret' ops :
  (create ws name comment writable allow_exec secret draws now t).1 = Ok (row, secret') →
  Forall (spares row.(m_id)) ops →
  let t' := foldl exec (create ws name comment writable allow_exec secret draws now t).2 ops in
  ∃ current, get row.(m_id) t' = Ok current ∧ authenticate row.(m_id) secret' t' = Ok current.
Proof.
  intros Hc Hops. assert (H0 : holds row.(m_id) secret' (create ws name comment writable allow_exec secret draws now t).2).
  { destruct (create_cases ws name comment writable allow_exec secret draws now t) as [[_ [e E]]|(r & E & _ & _ & He & Hs & _ & _ & _ & Hf)]; [congruence|].
    rewrite E in Hc |- *. cbn [fst snd] in *. injection Hc as <- <-. exists r. split; [|done].
    apply fetchone_snoc; [intros x Hx; apply String.eqb_neq; exact (proj1 (Hf x Hx))|apply String.eqb_refl]. }
  revert H0. generalize (create ws name comment writable allow_exec secret draws now t).2 as t0.
  induction Hops as [|o ops Ho Hops IH]; intros t0 H0 t'.
  - destruct H0 as (r & Hr & He & Hs). exists r.(public). subst t'. cbn. unfold get, authenticate. by rewrite Hr, He, Hs, String.eqb_refl.
  - apply IH. by apply holds_exec.
Qed.

(** A move that also renames is refused when the old name is taken in the new
    workspace: the new name is free there and the check of the reference passes, but
    the statement that sets the workspace comes before the one that sets the name and
    violates the uniqueness of names; nothing is changed. *)
Theorem mapping_move_refused t mid r other ws name comment writable allow_exec enabled rotate secret :
  wf t → r ∈ t → id_of r = mid → other ∈ t → id_of other ≠ mid → workspace_of other = ws → name_of other = name_of r →
  ensure_reference_available t ws (Some mid) name (Some mid) = Ok tt → (∀ x, comment = Some x → comment_ok x = true) →
  update mid {| c_workspace := Some ws; c_name := Some name; c_comment := comment; c_writable := writable; c_allow_exec := allow_exec;
                c_enabled := enabled; c_rotate := rotate |} secret t = (Err IntegrityError, t).
Proof.
  intros W Hr Hid Ho Hne Hws Hname Hen Hcom. unfold ensure_reference_available in Hen.
  destruct (validate_name name) as [[]|] eqn:Ev; [|done].
  assert (Ef : fetchone (has_id mid) t = Some r).
  { destruct (fetchone _ t) as [x|] eqn:E.
    - apply fetchone_Some in E as [Hx Ex]. apply String.eqb_eq in Ex. f_equal. apply (same_row t); [apply W|done..|congruence].
    - apply (fetchone_None _ _ r) in E; [|done]. apply String.eqb_neq in E. done. }
  unfold update, get. rewrite Ef. unfold update_from. cbn [c_name c_workspace c_comment from_option]. rewrite Ev.
  assert (match comment with Some x => negb (comment_ok x) | None => false end = false) as -> by (destruct comment as [x|]; [by rewrite (Hcom x)|done]).
  change (id ws) with ws. change (id name) with name. rewrite Hen. set (fs := statements _ secret).
  change fs with (set_public (set_workspace ws) :: tail fs). cbn [execute_all].
  unfold sql_update, unique_after. cbv zeta. rewrite fetchone_update by (by intros []). rewrite Ef. cbn [fmap option_fmap option_map].
  assert (has_id mid r = true) as -> by (by apply String.eqb_eq). assert (clashes _ _ _ _ = true) as ->; [|done].
  unfold clashes. apply existsb_exists. exists other. split.
  - apply list_elem_of_In, elem_update_where. exists other. split; [done|]. assert (has_id mid other = false) as -> by (by apply String.eqb_neq). done.
  - assert (has_id mid other = false) as -> by (by apply String.eqb_neq). cbn. rewrite Hws. change (name_of (set_public (set_workspace ws) r)) with (name_of r).
    by rewrite Hname, !String.eqb_refl.
Qed.

(** Two changes of one mapping that overlap: while a move to the workspace ["w2"] has read
    the row and not yet written it, the mapping is given the name that is the id of a
    mapping of ["w2"].  The move checks the name it has read, and the reference is
    ambiguous afterwards. *)
Definition moved_to (ws : string) : changes :=
  {| c_workspace := Some ws; c_name := None; c_comment := None; c_writable := None; c_allow_exec := None; c_enabled := None; c_rotate := false |}.
Definition named (name : string) : changes :=
  {| c_workspace := None; c_name := Some name; c_comment := None; c_writable := None; c_allow_exec := None; c_enabled := None; c_rotate := false |}.

Example stale_update_ambiguous :
  let t := foldl exec [] [Create "w1" "a" "" false false "s" (λ _, "idA") 0; Create "w2" "b" "" false false "s" (λ _, "idB") 0]%string in
  ∃ current row t', get "idA" t = Ok current ∧
    update_from current "idA" (moved_to "w2") "s" (update "idA" (named "idB") "s" t).2 = (Ok row, t') ∧
    resolve "w2" "idB" t' = Err (ValueError "mapping reference is ambiguous").
Proof. eexists _, _, _. split_and!; vm_compute; reflexivity. Qed.
