(* ===== verification/TextEdit.v ===== *)
(** * TextEdit: transactional text edits

    Models the text operations of src/openkapsel/files/mutation.py: line offsets,
    windows, unique markers, exact-count replacements and insertions.  A text is
    its list of characters; positions are Python integers.  An [ApiError] is its
    HTTP status and code. *)

From Stdlib Require Import ZArith Lia Ascii String.
From stdpp Require Import base tactics list list_numbers sorting strings sets.
From S2P Require Import Prelude.

Local Open Scope Z_scope.

Abbreviation result := (res ApiError).
Definition text : Type := list ascii.
Definition chars (s : string) : text := list_ascii_of_string s.

(** ** Python string operations *)

Fixpoint is_prefix (p s : text) : bool :=
  match p, s with
  | [], _ => true
  | c :: p', d :: s' => Ascii.eqb c d && is_prefix p' s'
  | _ :: _, [] => false
  end.

Fixpoint find (sub s : text) : option nat :=
  if is_prefix sub s then Some 0%nat
  else match s with [] => None | _ :: s' => S <$> find sub s' end.

(** [s.find(sub, start)], [-1] when there is none. *)
Definition find_from (sub s : text) (start : Z) : Z :=
  match find sub (drop (Z.to_nat start) s) with
  | Some p => start + Z.of_nat p
  | None => -1
  end.

(** [s.count(sub)]: non-overlapping occurrences, from the left. *)
Fixpoint count_from (fuel : nat) (sub s : text) : nat :=
  match fuel with
  | O => 0
  | S fuel' =>
      match find sub s with
      | Some p => S (count_from fuel' sub (drop (p + length sub) s))
      | None => 0
      end
  end.
Definition count (sub s : text) : Z := Z.of_nat (count_from (S (length s)) sub s).

Definition len (s : text) : Z := Z.of_nat (length s).

(** [s[a:b]] and [s[a:]] for offsets that are not negative. *)
Definition slice (a b : Z) (s : text) : text := take (Z.to_nat (b - a)) (drop (Z.to_nat a) s).
Definition slice_from (a : Z) (s : text) : text := drop (Z.to_nat a) s.

(** ** Lines *)

Definition CR : ascii := ascii_of_N 13.
Definition LF : ascii := ascii_of_N 10.

(** The ends of the matches of \r\n, \r or \n, in characters from [pos]. *)
Fixpoint line_ends (pos : Z) (s : text) : list Z :=
  match s with
  | [] => []
  | c :: s' =>
      if Ascii.eqb c CR then
        match s' with
        | d :: s'' => if Ascii.eqb d LF then (pos + 2) :: line_ends (pos + 2) s''
                      else (pos + 1) :: line_ends (pos + 1) s'
        | [] => [pos + 1]
        end
      else if Ascii.eqb c LF then (pos + 1) :: line_ends (pos + 1) s'
      else line_ends (pos + 1) s'
  end.

Definition _line_starts (s : text) : list Z := 0 :: line_ends 0 s.

Definition nth_start (starts : list Z) (line : Z) : Z := nth (Z.to_nat line) starts 0.

(** A line selector must be an integer that is not negative, and not a boolean. *)
Definition line_number (line : json) : result Z :=
  match line with
  | JInt n => if n <? 0 then Err (api_error 400 "invalid_line_range") else Ok n
  | _ => Err (api_error 400 "invalid_line_range")
  end.

Definition _line_start_offset (starts : list Z) (line : json) : result (Z * Z) :=
  let! n := line_number line in
  raise! (api_error 400 "invalid_line_range") when (Z.of_nat (length starts) <=? n);
  Ok (nth_start starts n, n).

Definition _line_end_offset (s : text) (starts : list Z) (line : json) : result (Z * Z) :=
  let! n := line_number line in
  raise! (api_error 400 "invalid_line_range") when (Z.of_nat (length starts) <=? n);
  Ok (if n + 1 <? Z.of_nat (length starts) then nth_start starts (n + 1) else len s, n).

Definition _unique_text_marker (s : text) (marker : json) : result (Z * Z) :=
  match marker with
  | JStr m =>
      let m := chars m in
      raise! (api_error 400 "invalid_text_marker") when bool_decide (m = []);
      let first := find_from m s 0 in
      raise! (api_error 409 "text_marker_not_unique") when (first <? 0);
      raise! (api_error 409 "text_marker_not_unique") when (0 <=? find_from m s (first + 1));
      Ok (first, first + len m)
  | _ => Err (api_error 400 "invalid_text_marker")
  end.

(** The four selectors of an item, [JNull] when absent. *)
Record selectors := { start_line : json; end_line : json; start_text : json; end_text : json }.

Definition absent (v : json) : bool := match v with JNull => true | _ => false end.

Definition _text_window (s : text) (sel : selectors) : result (Z * Z) :=
  raise! (api_error 400 "text_range_selector_conflict")
    when (negb (absent sel.(start_text)) && negb (absent sel.(start_line)));
  raise! (api_error 400 "text_range_selector_conflict")
    when (negb (absent sel.(end_text)) && negb (absent sel.(end_line)));
  let starts := _line_starts s in
  let! (range_start, first_line) :=
    if absent sel.(start_text) then
      let! (o, n) := _line_start_offset starts
                       (if absent sel.(start_line) then JInt 0 else sel.(start_line)) in
      Ok (o, Some n)
    else let! (a, _) := _unique_text_marker s sel.(start_text) in Ok (a, None) in
  let! (range_end, last_line) :=
    if absent sel.(end_text) then
      let! (o, n) := _line_end_offset s starts
                       (if absent sel.(end_line) then JInt (Z.of_nat (length starts) - 1)
                        else sel.(end_line)) in
      Ok (o, Some n)
    else let! (_, b) := _unique_text_marker s sel.(end_text) in Ok (b, None) in
  raise! (api_error 400 "invalid_line_range")
    when match first_line, last_line with Some i, Some j => j <? i | _, _ => false end;
  raise! (api_error 400 "invalid_text_range") when (range_end <? range_start);
  Ok (range_start, range_end).

Definition invalid_request : ApiError := api_error 400 "invalid_request".

Definition _expected_match_count (v : json) : result Z :=
  match v with
  | JInt n => if n <? 1 then Err invalid_request else Ok n
  | _ => Err invalid_request
  end.

(** ** Replacements *)

(** A parsed replacement: old text, new text, expected and actual count. *)
Record parsed := { p_old : text; p_new : text; p_expected : Z; p_actual : Z }.

Fixpoint parse_replacements (selected : text) (replacements : list json) : result (list parsed) :=
  match replacements with
  | [] => Ok []
  | JObj fields :: rest =>
      match obj_get "old" fields, obj_get "new" fields with
      | Some (JStr old), Some (JStr new) =>
          raise! invalid_request when is_empty old;
          let! n := _expected_match_count (obj_get_or "expected_count" (JInt 1) fields) in
          let! more := parse_replacements selected rest in
          Ok ({| p_old := chars old; p_new := chars new; p_expected := n;
                 p_actual := count (chars old) selected |} :: more)
      | _, _ => Err invalid_request
      end
  | _ => Err invalid_request
  end.

(** start, end, new text, index of the replacement *)
Record span := Span { s_start : Z; s_end : Z; s_new : text; s_index : nat }.

(** The [range(actual)] loop of one replacement. *)
Fixpoint find_spans (n : nat) (selected : text) (range_start cursor : Z) (index : nat) (p : parsed)
    : list span :=
  match n with
  | O => []
  | S n' =>
      let position := find_from p.(p_old) selected cursor in
      let absolute := range_start + position in
      Span absolute (absolute + len p.(p_old)) p.(p_new) index
      :: find_spans n' selected range_start (position + len p.(p_old)) index p
  end.

Fixpoint all_spans (selected : text) (range_start : Z) (index : nat) (ps : list parsed) : list span :=
  match ps with
  | [] => []
  | p :: rest => find_spans (Z.to_nat p.(p_actual)) selected range_start 0 index p
                 ++ all_spans selected range_start (S index) rest
  end.

(** The sort key (start, end, index). *)
Definition span_le (a b : span) : Prop :=
  s_start a < s_start b ∨ (s_start a = s_start b ∧
    (s_end a < s_end b ∨ (s_end a = s_end b ∧ (s_index a ≤ s_index b)%nat))).
#[export] Instance span_le_dec a b : Decision (span_le a b).
Proof. unfold span_le. apply _. Defined.

Fixpoint overlapping (spans : list span) : bool :=
  match spans with
  | a :: ((b :: _) as rest) => (s_start b <? s_end a) || overlapping rest
  | _ => false
  end.

Fixpoint splice (cursor : Z) (s : text) (spans : list span) : text :=
  match spans with
  | [] => slice_from cursor s
  | a :: rest => slice cursor (s_start a) s ++ s_new a ++ splice (s_end a) s rest
  end.

Definition _apply_text_replacements (s : text) (replacements : json) (sel : selectors)
    : result (text * Z) :=
  match replacements with
  | JList ((_ :: _) as l) =>
      let! (range_start, range_end) := _text_window s sel in
      let selected := slice range_start range_end s in
      let! ps := parse_replacements selected l in
      raise! (api_error 409 "match_count_mismatch")
        when existsb (λ p, negb (p.(p_actual) =? p.(p_expected))) ps;
      let spans := merge_sort span_le (all_spans selected range_start 0 ps) in
      raise! (api_error 400 "overlapping_replacements") when overlapping spans;
      Ok (splice 0 s spans, foldr (λ p acc, p.(p_actual) + acc) 0 ps)
  | _ => Err invalid_request
  end.

(** ** Insertions *)

Fixpoint find_points (n : nat) (selected : text) (range_start cursor : Z) (m : text) (after : bool)
    : list Z :=
  match n with
  | O => []
  | S n' =>
      let position := find_from m selected cursor in
      let absolute := range_start + position in
      (if after then absolute + len m else absolute)
      :: find_points n' selected range_start (position + len m) m after
  end.

Fixpoint insert_at (cursor : Z) (s content : text) (points : list Z) : text :=
  match points with
  | [] => slice_from cursor s
  | p :: rest => slice cursor p s ++ content ++ insert_at p s content rest
  end.

Definition _apply_text_insertion (s : text) (item : list (string * json)) (after : bool)
    : result (text * Z) :=
  match obj_get_or "match" JNull item with
  | JStr m =>
      raise! invalid_request when is_empty m;
      match obj_get_or "content" JNull item with
      | JStr content =>
          let! expected := _expected_match_count (obj_get_or "expected_count" (JInt 1) item) in
          let! (range_start, range_end) :=
            _text_window s {| start_line := obj_get_or "start_line" JNull item;
                              end_line := obj_get_or "end_line" JNull item;
                              start_text := obj_get_or "start_text" JNull item;
                              end_text := obj_get_or "end_text" JNull item |} in
          let selected := slice range_start range_end s in
          let actual := count (chars m) selected in
          raise! (api_error 409 "match_count_mismatch") when negb (actual =? expected);
          Ok (insert_at 0 s (chars content)
                (find_points (Z.to_nat actual) selected range_start 0 (chars m) after), actual)
      | _ => Err invalid_request
      end
  | _ => Err invalid_request
  end.

(** ** Searching *)

Lemma is_prefix_spec p s : is_prefix p s = true ↔ ∃ r, s = p ++ r.
Proof.
  revert s; induction p as [|c p IH]; intros [|d s]; simpl;
    [naive_solver..|split; [done|by intros [r ?]]|].
  rewrite andb_true_iff, Ascii.eqb_eq, IH. naive_solver.
Qed.

Lemma find_take_drop sub s p :
  find sub s = Some p →
  s = take p s ++ sub ++ drop (p + length sub) s ∧ (p + length sub ≤ length s)%nat.
Proof.
  revert p; induction s as [|c s IH]; intros p; cbn [find].
  - destruct (is_prefix sub []) eqn:E; [|done]. intros [= <-].
    apply is_prefix_spec in E as [r Hr]. symmetry in Hr. by apply app_eq_nil in Hr as [-> ->].
  - destruct (is_prefix sub (c :: s)) eqn:E.
    + intros [= <-]. apply is_prefix_spec in E as [r ->].
      rewrite Nat.add_0_l, drop_app_length, length_app. split; [done|lia].
    + rewrite fmap_Some. intros (q & Hq & ->). apply IH in Hq as [Hq ?]. simpl.
      split; [by f_equal|lia].
Qed.

Lemma find_from_Some sub s c p :
  find sub (drop c s) = Some p → find_from sub s (Z.of_nat c) = Z.of_nat (c + p).
Proof. intros H. unfold find_from. rewrite Nat2Z.id, H. lia. Qed.

Lemma find_match sub s c q :
  find sub (drop c s) = Some q → take (length sub) (drop (c + q) s) = sub.
Proof.
  intros [E Hle]%find_take_drop. rewrite <- drop_drop, E, drop_app_length', take_app_length; [done|].
  rewrite length_take. lia.
Qed.

Lemma slice_eq (a b : nat) s : slice (Z.of_nat a) (Z.of_nat b) s = take (b - a) (drop a s).
Proof. unfold slice. do 2 f_equal; lia. Qed.

Lemma slice_from_eq (a : nat) s : slice_from (Z.of_nat a) s = drop a s.
Proof. unfold slice_from. by rewrite Nat2Z.id. Qed.

Lemma take_drop_split (a b c : nat) (s : text) :
  (a ≤ b ≤ c)%nat → take (c - a) (drop a s) = take (b - a) (drop a s) ++ take (c - b) (drop b s).
Proof.
  intros. replace (c - a)%nat with ((b - a) + (c - b))%nat by lia.
  rewrite <- take_take_drop, drop_drop. do 3 f_equal. lia.
Qed.

(** ** What a set of replacements means

    [edited ps t t' l]: [t'] is [t] with disjoint occurrences of old texts of [ps]
    replaced by their new texts; [l] names the replacements used, from the left. *)
Inductive edited (ps : list parsed) : text → text → list nat → Prop :=
| edited_nil t : edited ps t t []
| edited_cons gap rest rest' i p l :
    ps !! i = Some p → edited ps rest rest' l →
    edited ps (gap ++ p_old p ++ rest) (gap ++ p_new p ++ rest') (i :: l).

(** Python's [s.replace(old, new)], for an [old] that is not empty. *)
Fixpoint replace_from (fuel : nat) (old new s : text) : text :=
  match fuel with
  | O => s
  | S fuel' =>
      match find old s with
      | Some p => take p s ++ new ++ replace_from fuel' old new (drop (p + length old) s)
      | None => s
      end
  end.
Definition replace (old new s : text) : text := replace_from (S (length s)) old new s.

(** The lines of a text with their terminators; the last may be empty. *)
Fixpoint lines (s : text) : list text :=
  match s with
  | [] => [[]]
  | c :: s' =>
      let more := match lines s' with l :: ls => (c :: l) :: ls | [] => [[c]] end in
      if Ascii.eqb c CR then
        match s' with
        | d :: _ => if Ascii.eqb d LF then more else [c] :: lines s'
        | [] => [c] :: lines s'
        end
      else if Ascii.eqb c LF then [c] :: lines s' else more
  end.

(** ** Splicing spans *)

(** A span that marks an occurrence of the old text of its replacement. *)
Definition marks (ps : list parsed) (s : text) (lo hi : nat) (a : span) : Prop :=
  ∃ p k, ps !! s_index a = Some p ∧ s_new a = p_new p ∧ s_start a = Z.of_nat k ∧
    s_end a = Z.of_nat (k + length (p_old p)) ∧ (lo ≤ k)%nat ∧
    (k + length (p_old p) ≤ hi)%nat ∧ take (length (p_old p)) (drop k s) = p_old p.

Lemma splice_edited ps s lo hi spans (cur : nat) :
  (cur ≤ hi)%nat → Forall (marks ps s lo hi) spans →
  overlapping spans = false → (∀ a, head spans = Some a → Z.of_nat cur ≤ s_start a) →
  ∃ m', splice (Z.of_nat cur) s spans = m' ++ drop hi s ∧
        edited ps (take (hi - cur) (drop cur s)) m' (s_index <$> spans).
Proof.
  revert cur; induction spans as [|a spans IH]; intros cur Hcur Hm Hov Hhd.
  - exists (take (hi - cur) (drop cur s)). split; [|constructor].
    cbn [splice]. rewrite slice_from_eq.
    rewrite <- (take_drop (hi - cur) (drop cur s)) at 1. rewrite drop_drop. do 2 f_equal. lia.
  - apply Forall_cons in Hm as [(p & k & Hp & Hnew & Hs & He & Hlo & Hhi & Hold) Hm].
    specialize (Hhd a eq_refl). rewrite Hs in Hhd.
    destruct (IH (k + length (p_old p))%nat) as (m' & Hsp & Hed); [done|done|..].
    { destruct spans; [done|]. cbn in Hov. bools. naive_solver. }
    { intros b Hb. destruct spans as [|b' spans]; [done|]. simplify_eq/=.
      cbn in Hov. bools. destruct Hov as [Hov _]. lia. }
    exists (take (k - cur) (drop cur s) ++ p_new p ++ m'). split.
    + cbn [splice]. rewrite He, Hsp, Hs, slice_eq, Hnew. by rewrite <- !app_assoc.
    + rewrite (take_drop_split cur k hi), (take_drop_split k (k + length (p_old p)) hi) by lia.
      replace (k + length (p_old p) - k)%nat with (length (p_old p)) by lia.
      rewrite Hold. by constructor.
Qed.

Lemma slice_skip (pre s : text) a :
  len pre ≤ a → slice 0 a (pre ++ s) = pre ++ slice (len pre) a (pre ++ s).
Proof.
  intros. unfold len, slice in *.
  replace (Z.to_nat (a - 0)) with (length pre + Z.to_nat (a - Z.of_nat (length pre)))%nat by lia.
  by rewrite drop_0, Nat2Z.id, drop_app_length, take_app_add.
Qed.

(** Nothing before the first span changes. *)
Lemma splice_skip pre s spans :
  (∀ a, head spans = Some a → len pre ≤ s_start a) →
  splice 0 (pre ++ s) spans = pre ++ splice (len pre) (pre ++ s) spans.
Proof.
  intros Hhd. destruct spans as [|a spans]; cbn [splice].
  - unfold slice_from, len. by rewrite Nat2Z.id, drop_app_length.
  - by rewrite (slice_skip _ _ _ (Hhd a eq_refl)), <- app_assoc.
Qed.

Lemma insert_skip pre s content points :
  (∀ a, head points = Some a → len pre ≤ a) →
  insert_at 0 (pre ++ s) content points = pre ++ insert_at (len pre) (pre ++ s) content points.
Proof.
  intros Hhd. destruct points as [|a points]; cbn [insert_at].
  - unfold slice_from, len. by rewrite Nat2Z.id, drop_app_length.
  - by rewrite (slice_skip _ _ _ (Hhd a eq_refl)), <- app_assoc.
Qed.

Lemma find_spans_marks ps s lo index p fuel selected c :
  ps !! index = Some p → (c ≤ length selected)%nat →
  selected = take (length selected) (drop lo s) →
  Forall (marks ps s lo (lo + length selected))
    (find_spans (count_from fuel (p_old p) (drop c selected)) selected (Z.of_nat lo) (Z.of_nat c) index p).
Proof.
  intros Hp Hc Hsel. revert c Hc. induction fuel as [|fuel IH]; intros c Hc; [constructor|].
  cbn [count_from]. destruct (find (p_old p) (drop c selected)) as [q|] eqn:E; [|constructor].
  cbn [find_spans]. rewrite (find_from_Some _ _ _ _ E). pose proof (find_match _ _ _ _ E) as H.
  apply find_take_drop in E as [_ Hle]. rewrite drop_drop. rewrite length_drop in Hle.
  replace (Z.of_nat (c + q) + len (p_old p)) with (Z.of_nat (c + (q + length (p_old p))))
    by (unfold len; lia).
  constructor; [|apply IH; lia].
  exists p, (lo + (c + q))%nat. unfold len. cbn. split_and!; [done|done|lia..|].
  rewrite <- drop_drop.
  rewrite Hsel, skipn_firstn_comm, take_take, Nat.min_l in H by lia. done.
Qed.

Lemma find_spans_index n selected lo c index p a :
  a ∈ find_spans n selected lo c index p → s_index a = index.
Proof. revert c. induction n; intros c; cbn; set_solver. Qed.

Lemma find_spans_length n selected lo c index p :
  s_index <$> find_spans n selected lo c index p = replicate n index.
Proof. revert c; induction n; intros c; cbn; [done|]. by f_equal. Qed.

Definition counted (selected : text) (p : parsed) : Prop :=
  p_actual p = count (p_old p) selected.

Lemma all_spans_marks ps0 s lo selected ps :
  selected = take (length selected) (drop lo s) → Forall (counted selected) ps →
  Forall (marks (ps0 ++ ps) s lo (lo + length selected))
    (all_spans selected (Z.of_nat lo) (length ps0) ps).
Proof.
  intros Hsel. revert ps0. induction ps as [|p ps IH]; intros ps0 Hc; [constructor|].
  apply Forall_cons in Hc as [Hp Hc]. cbn [all_spans]. apply Forall_app. split.
  - rewrite Hp. unfold count. rewrite Nat2Z.id.
    apply (find_spans_marks _ _ _ _ _ _ _ 0); [|lia|done].
    by rewrite list_lookup_middle.
  - specialize (IH (ps0 ++ [p]) Hc). rewrite length_app, <- app_assoc in IH.
    cbn in IH. by rewrite Nat.add_1_r in IH.
Qed.

(** How often each replacement is used. *)
Definition uses (i : nat) (l : list nat) : Z := Z.of_nat (length (filter (.= i) l)).

Lemma uses_replicate i n j : uses i (replicate n j) = if decide (j = i) then Z.of_nat n else 0.
Proof.
  unfold uses. induction n as [|n IH]; [by destruct (decide _)|].
  rewrite replicate_S, filter_cons. destruct (decide (j = i)); cbn [length]; lia.
Qed.

Lemma uses_app i l l' : uses i (l ++ l') = uses i l + uses i l'.
Proof. unfold uses. rewrite filter_app, length_app. lia. Qed.

Lemma all_spans_uses selected lo ps k i p :
  Forall (counted selected) ps → ps !! i = Some p →
  uses (k + i) (s_index <$> all_spans selected lo k ps) = p_actual p.
Proof.
  revert k i. assert (Hlow : ∀ ps k i, (i < k)%nat →
    uses i (s_index <$> all_spans selected lo k ps) = 0).
  { clear. induction ps as [|q ps IH]; intros k i Hi; [done|]. cbn [all_spans].
    rewrite fmap_app, find_spans_length, uses_app, uses_replicate, decide_False, IH by lia. lia. }
  induction ps as [|q ps IH]; intros k i Hc Hi; [done|].
  apply Forall_cons in Hc as [Hq Hc]. cbn [all_spans].
  rewrite fmap_app, find_spans_length, uses_app, uses_replicate.
  destruct i as [|i]; simplify_eq/=.
  - rewrite decide_True, Hlow, Hq by lia. unfold count. lia.
  - rewrite decide_False by lia. rewrite <- (IH (S k) i Hc Hi), Z.add_0_l. f_equal. lia.
Qed.

Lemma all_spans_length selected lo ps k :
  Forall (counted selected) ps →
  Z.of_nat (length (all_spans selected lo k ps)) = foldr (λ p acc, p_actual p + acc) 0 ps.
Proof.
  intros Hc. revert k. induction Hc as [|p ps Hp Hc IH]; intros k; [done|]. cbn.
  rewrite length_app, <- (length_fmap s_index (find_spans _ _ _ _ _ _)), find_spans_length,
    length_replicate, Nat2Z.inj_add, IH. rewrite Hp. unfold count. lia.
Qed.

Lemma existsb_false_Forall {A} (f : A → bool) l : existsb f l = false → Forall (λ x, f x = false) l.
Proof. induction l; cbn; intros H; bools; constructor; naive_solver. Qed.

(** ** Windows *)

Lemma line_ends_bound pos s e : e ∈ line_ends pos s → pos < e ≤ pos + len s.
Proof.
  unfold len. revert pos. induction s as [s IH] using (induction_ltof1 _ length).
  intros pos. destruct s as [|c s]; cbn [line_ends]; [set_solver|].
  assert (IH1 : ∀ pos, e ∈ line_ends pos s → pos < e ≤ pos + Z.of_nat (length s))
    by (apply IH; unfold ltof; cbn; lia).
  cbn [length]. destruct (Ascii.eqb c CR); [destruct s as [|d s]|destruct (Ascii.eqb c LF)].
  - set_unfold. lia.
  - destruct (Ascii.eqb d LF); rewrite elem_of_cons; intros [->|H]; cbn [length] in *; [lia| |lia|].
    + apply (IH s) in H; [lia|unfold ltof; cbn; lia].
    + apply IH1 in H. lia.
  - rewrite elem_of_cons. intros [->|H]; [lia|apply IH1 in H; lia].
  - intros H. apply IH1 in H. lia.
Qed.

Lemma starts_bound s n : 0 ≤ nth_start (_line_starts s) n ≤ len s.
Proof.
  unfold nth_start. destruct (nth_in_or_default (Z.to_nat n) (_line_starts s) 0) as [H|Hd];
    [|rewrite Hd; unfold len; lia].
  destruct H as [<-|H]; [unfold len; lia|]. apply list_elem_of_In, line_ends_bound in H. lia.
Qed.

Lemma marker_bound s m a b :
  _unique_text_marker s m = Ok (a, b) → 0 ≤ a ∧ b ≤ len s.
Proof.
  unfold _unique_text_marker. intros H. split_matches H. unfold find_from in *.
  destruct (find _ (drop (Z.to_nat 0) s)) as [q|] eqn:Hq; [|done].
  apply find_take_drop in Hq as [_ Hq]. rewrite drop_0 in Hq. unfold len in *. lia.
Qed.

Lemma window_bounds s sel a b :
  _text_window s sel = Ok (a, b) → 0 ≤ a ≤ b ∧ b ≤ len s.
Proof.
  unfold _text_window. intros H.
  assert (Ha : ∀ v x n, _line_start_offset (_line_starts s) v = Ok (x, n) → 0 ≤ x).
  { unfold _line_start_offset. intros v x n Hx. split_matches Hx. apply starts_bound. }
  assert (Hb : ∀ v x n, _line_end_offset s (_line_starts s) v = Ok (x, n) → x ≤ len s).
  { unfold _line_end_offset. intros v x n Hx. split_matches Hx.
    destruct (_ <? _); [apply starts_bound|done]. }
  pose proof (marker_bound s) as Hm.
  split_matches H; bools. split; [split; [|lia]|].
  - split_matches E1; first [by eapply Ha|by eapply Hm].
  - split_matches E2; first [by eapply Hb|by eapply Hm].
Qed.

(** The window as the split of the text that it denotes. *)
Lemma window_split s sel a b :
  _text_window s sel = Ok (a, b) →
  ∃ pre mid post, s = pre ++ mid ++ post ∧ a = len pre ∧ b = len pre + len mid ∧ slice a b s = mid.
Proof.
  intros (Ha & Hb)%window_bounds. unfold len in *.
  exists (take (Z.to_nat a) s), (slice a b s), (drop (Z.to_nat b) s). unfold slice.
  rewrite !length_take, length_drop. split_and!; [|lia..|done].
  rewrite <- (take_drop (Z.to_nat a) s) at 1. f_equal.
  rewrite <- (take_drop (Z.to_nat (b - a)) (drop _ s)) at 1. f_equal. rewrite drop_drop. f_equal. lia.
Qed.

Lemma window_selected (pre mid post : text) :
  mid = take (length mid) (drop (length pre) (pre ++ mid ++ post)).
Proof. by rewrite drop_app_length, take_app_length. Qed.

Lemma parse_counted selected l ps :
  parse_replacements selected l = Ok ps → Forall (counted selected) ps.
Proof.
  revert ps. induction l as [|v l IH]; intros ps; cbn [parse_replacements]; [by intros [= <-]|].
  intros H. split_matches H. constructor; [done|]. by apply IH.
Qed.

Lemma spliced_window pre mid post ps :
  Forall (counted mid) ps →
  overlapping (merge_sort span_le (all_spans mid (len pre) 0 ps)) = false →
  ∃ mid', splice 0 (pre ++ mid ++ post) (merge_sort span_le (all_spans mid (len pre) 0 ps)) =
            pre ++ mid' ++ post ∧
          edited ps mid mid' (s_index <$> merge_sort span_le (all_spans mid (len pre) 0 ps)).
Proof.
  intros Hc Hov.
  assert (Hm : Forall (marks ps (pre ++ mid ++ post) (length pre) (length pre + length mid))
                 (merge_sort span_le (all_spans mid (len pre) 0 ps))).
  { rewrite merge_sort_Permutation. apply (all_spans_marks []); [apply window_selected|done]. }
  revert Hov Hm. generalize (merge_sort span_le (all_spans mid (len pre) 0 ps)).
  intros spans Hov Hm.
  assert (Hhd : ∀ a, head spans = Some a → len pre ≤ s_start a).
  { intros a Ha. destruct spans as [|a' ?]; simplify_eq/=.
    apply Forall_cons in Hm as [(?&?&?&?&->&?&?&_) _]. unfold len. lia. }
  destruct (splice_edited ps (pre ++ mid ++ post) (length pre) (length pre + length mid) spans
              (length pre)) as (mid' & Hsp & Hed); [lia|done..|].
  rewrite Nat.add_comm, Nat.add_sub, <- window_selected in Hed.
  exists mid'. split; [|done].
  rewrite app_assoc, drop_app_length' in Hsp by (rewrite length_app; lia).
  rewrite <- Hsp, <- app_assoc. by apply splice_skip.
Qed.

(** ** One replacement *)

#[export] Instance span_le_total : Total span_le.
Proof. intros a b. unfold span_le. lia. Qed.
#[export] Instance span_le_trans : Transitive span_le.
Proof. intros a b c. unfold span_le. lia. Qed.

Definition before (a b : span) : Prop := s_start a < s_start b.

Lemma sorted_unique l l' :
  StronglySorted before l → StronglySorted span_le l' → l ≡ₚ l' → l = l'.
Proof.
  intros Hl. revert l'. induction Hl as [|a l Hl IH Ha]; intros l' Hl' Hp.
  { symmetry in Hp. by apply Permutation_nil_r in Hp as ->. }
  destruct Hl' as [|b l' Hl' Hb]; [by apply Permutation_nil_r in Hp|].
  assert (a = b) as ->.
  { destruct (decide (s_start a < s_start b)) as [Hlt|Hge].
    - assert (a ∈ b :: l') as [->|Hin]%elem_of_cons by (rewrite <- Hp; left); [done|].
      rewrite Forall_forall in Hb. destruct (Hb a Hin); lia.
    - assert (b ∈ a :: l) as [->|Hin]%elem_of_cons by (rewrite Hp; left); [done|].
      rewrite Forall_forall in Ha. specialize (Ha b Hin). unfold before in Ha. lia. }
  f_equal. apply IH; [done|]. by apply Permutation_cons_inv in Hp.
Qed.

Lemma sort_sorted l : StronglySorted before l → merge_sort span_le l = l.
Proof.
  intros H. symmetry. apply sorted_unique; [done|apply (StronglySorted_merge_sort span_le l)|].
  symmetry. apply merge_sort_Permutation.
Qed.

Lemma tail_window (pre mid post : text) c :
  (c ≤ length mid)%nat →
  slice_from (len pre + Z.of_nat c) (pre ++ mid ++ post) = drop c mid ++ post.
Proof.
  intros. unfold len. rewrite <- Nat2Z.inj_add, slice_from_eq, <- drop_drop, drop_app_length.
  by rewrite drop_app_le.
Qed.

Lemma window_slice (pre mid post : text) c q :
  (c + q ≤ length mid)%nat →
  slice (len pre + Z.of_nat c) (len pre + Z.of_nat (c + q)) (pre ++ mid ++ post) =
  take q (drop c mid).
Proof.
  intros. unfold len. rewrite <- !Nat2Z.inj_add, slice_eq, <- drop_drop, drop_app_length.
  rewrite drop_app_le by lia. replace (_ - _)%nat with q by lia.
  rewrite take_app_le; [done|]. rewrite length_drop. lia.
Qed.

(** The occurrences that [count] counts and [replace] replaces are those of the loop. *)
Lemma find_spans_replace pre mid post index p fuel c :
  p_old p ≠ [] → (c ≤ length mid)%nat →
  let spans := find_spans (count_from fuel (p_old p) (drop c mid)) mid (len pre) (Z.of_nat c) index p in
  Forall (λ a, len pre + Z.of_nat c ≤ s_start a) spans ∧ StronglySorted before spans ∧
  overlapping spans = false ∧
  splice (len pre + Z.of_nat c) (pre ++ mid ++ post) spans =
    replace_from fuel (p_old p) (p_new p) (drop c mid) ++ post.
Proof.
  intros Hold. revert c. induction fuel as [|fuel IH]; intros c Hc spans.
  { subst spans. cbn. split_and!; [constructor..|done|by apply tail_window]. }
  subst spans. cbn [count_from replace_from].
  destruct (find (p_old p) (drop c mid)) as [q|] eqn:E; cycle 1.
  { cbn. split_and!; [constructor..|done|by apply tail_window]. }
  cbn [find_spans]. rewrite (find_from_Some _ _ _ _ E).
  apply find_take_drop in E as [_ Hle]. rewrite drop_drop. rewrite length_drop in Hle.
  assert (Hpos : (0 < length (p_old p))%nat) by (destruct (p_old p); [done|cbn; lia]).
  replace (Z.of_nat (c + q) + len (p_old p)) with (Z.of_nat (c + (q + length (p_old p))))
    by (unfold len; lia).
  destruct (IH (c + (q + length (p_old p)))%nat) as (Hge & Hso & Hov & Hsp); [lia|].
  set (rest := find_spans _ _ _ _ _ _) in *. rewrite Forall_forall in Hge.
  split_and!.
  - constructor; [cbn; lia|]. apply Forall_forall. intros a Ha%Hge. lia.
  - constructor; [done|]. apply Forall_forall. intros a Ha%Hge. unfold before. cbn. lia.
  - clear Hsp Hso. destruct rest as [|b rest]; [done|]. cbn. rewrite orb_false_iff. split; [|done].
    apply Z.ltb_ge. specialize (Hge b (list_elem_of_here _ _)). unfold len in *. lia.
  - cbn [splice s_start s_end s_new].
    replace (len pre + Z.of_nat (c + q) + len (p_old p)) with
      (len pre + Z.of_nat (c + (q + length (p_old p)))) by (unfold len; lia).
    rewrite Hsp, <- !app_assoc. f_equal. apply window_slice; lia.
Qed.
Lemma insert_tail pre mid post content c0 c :
  (c0 ≤ c ≤ length mid)%nat →
  insert_at (len pre + Z.of_nat c0) (pre ++ mid ++ post) content [] =
  take (c - c0) (drop c0 mid) ++ drop c mid ++ post.
Proof.
  intros. cbn [insert_at]. rewrite tail_window by lia. rewrite app_assoc. f_equal.
  rewrite <- (take_drop (c - c0) (drop c0 mid)) at 1. rewrite drop_drop. do 2 f_equal. lia.
Qed.

Lemma insert_points pre mid post m content after fuel c0 c :
  m ≠ [] → (c0 ≤ c ≤ length mid)%nat →
  insert_at (len pre + Z.of_nat c0) (pre ++ mid ++ post) content
    (find_points (count_from fuel m (drop c mid)) mid (len pre) (Z.of_nat c) m after) =
  take (c - c0) (drop c0 mid) ++
  replace_from fuel m (if after then m ++ content else content ++ m) (drop c mid) ++ post.
Proof.
  intros Hm. revert c0 c. induction fuel as [|fuel IH]; intros c0 c Hc.
  { apply insert_tail; lia. }
  cbn [count_from replace_from].
  destruct (find m (drop c mid)) as [q|] eqn:E; [|apply insert_tail; lia].
  cbn [find_points insert_at]. rewrite (find_from_Some _ _ _ _ E).
  pose proof (find_match _ _ _ _ E) as Hmatch.
  apply find_take_drop in E as [_ Hle]. rewrite drop_drop. rewrite length_drop in Hle.
  replace (Z.of_nat (c + q) + len m) with (Z.of_nat (c + (q + length m))) by (unfold len; lia).
  replace (len pre + Z.of_nat (c + q) + len m) with
    (len pre + Z.of_nat (c0 + (c + q + length m - c0))) by (unfold len; lia).
  destruct after.
  - rewrite window_slice by lia.
    replace (c0 + (c + q + length m - c0))%nat with (c + (q + length m))%nat by lia.
    rewrite IH, Nat.sub_diag by lia. cbn.
    rewrite (take_drop_split c0 c), (take_drop_split c (c + q)) by lia.
    replace (c + q - c)%nat with q by lia.
    replace (c + q + length m - (c + q))%nat with (length m) by lia.
    rewrite Hmatch. by rewrite <- !app_assoc.
  - replace (c + q)%nat with (c0 + (c + q - c0))%nat at 1 by lia.
    rewrite window_slice, IH, (take_drop_split c0 c) by lia.
    replace (c + q - c)%nat with q by lia.
    replace (c + (q + length m) - (c + q))%nat with (length m) by lia.
    rewrite Hmatch. by rewrite <- !app_assoc.
Qed.

Lemma insertions pre mid post m content after :
  m ≠ [] →
  insert_at 0 (pre ++ mid ++ post) content
    (find_points (Z.to_nat (count m mid)) mid (len pre) 0 m after) =
  pre ++ replace m (if after then m ++ content else content ++ m) mid ++ post.
Proof.
  intros Hm. pose proof (insert_points pre mid post m content after (S (length mid)) 0 0 Hm) as H.
  unfold count. rewrite Nat2Z.id. change (Z.of_nat 0) with 0 in H. rewrite drop_0, Z.add_0_r in H.
  rewrite insert_skip; [by rewrite H by lia|].
  intros a. cbn [count_from]. destruct (find m mid) as [q|] eqn:E; [|done].
  cbn [find_points head]. rewrite <- (drop_0 mid) in E.
  change 0 with (Z.of_nat 0). rewrite (find_from_Some _ _ 0 _ E). intros [= <-]. unfold len. destruct after; lia.
Qed.

Lemma outer_windows (pre mid post x : text) :
  slice 0 (len pre) (pre ++ mid ++ post) ++ x ++ slice_from (len pre + len mid) (pre ++ mid ++ post) =
  pre ++ x ++ post.
Proof.
  unfold slice, slice_from, len. rewrite drop_0, Z.sub_0_r, Nat2Z.id, take_app_length.
  rewrite <- Nat2Z.inj_add, Nat2Z.id, <- drop_drop, !drop_app_length. done.
Qed.

Lemma spans_of_one pre mid post p :
  p_old p ≠ [] → counted mid p →
  let spans := merge_sort span_le (all_spans mid (len pre) 0 [p]) in
  overlapping spans = false ∧
  splice 0 (pre ++ mid ++ post) spans = pre ++ replace (p_old p) (p_new p) mid ++ post.
Proof.
  intros Hold Hc spans. subst spans. cbn [all_spans]. rewrite app_nil_r, Hc.
  unfold count. rewrite Nat2Z.id.
  destruct (find_spans_replace pre mid post 0 p (S (length mid)) 0) as (Hge & Hso & Hov & Hsp);
    [done|lia|]. change (Z.of_nat 0) with 0 in *. rewrite drop_0 in *. rewrite (sort_sorted _ Hso). split; [done|].
  rewrite Z.add_0_r in *. rewrite splice_skip, Hsp; [done|].
  intros a Ha. rewrite Forall_forall in Hge. apply Hge. destruct (find_spans _ _ _ _ _ _); [done|].
  simplify_eq/=. left.
Qed.

Lemma chars_nonempty s : is_empty s = false → chars s ≠ [].
Proof. by destruct s. Qed.

Lemma chars_app s t : chars (s ++ t) = chars s ++ chars t.
Proof.
  unfold chars. induction s as [|c s IH]; [done|].
  change (String c s +:+ t) with (String c (s +:+ t)). cbn. by rewrite IH.
Qed.

(** ** Line offsets are the prefix sums of the line lengths *)

Fixpoint offsets (pos : Z) (ls : list text) : list Z :=
  match ls with [] => [] | l :: ls' => pos :: offsets (pos + len l) ls' end.

Lemma lines_cons s : ∃ l ls, lines s = l :: ls.
Proof.
  induction s as [|c s (l & ls & IH)]; cbn [lines]; [eauto|]. rewrite IH.
  destruct (Ascii.eqb c CR), (Ascii.eqb c LF); destruct s as [|d s]; try destruct (Ascii.eqb d LF); eauto.
Qed.

Lemma line_starts_offsets pos s : pos :: line_ends pos s = offsets pos (lines s).
Proof.
  revert pos. induction s as [s IH] using (induction_ltof1 _ length).
  intros pos. destruct s as [|c s]; [done|]. cbn [lines line_ends].
  assert (IH1 := IH s ltac:(unfold ltof; cbn; lia)).
  destruct (lines_cons s) as (l & ls & Hl).
  assert (Hmore : pos :: line_ends (pos + 1) s =
                  offsets pos (match lines s with l :: ls => (c :: l) :: ls | [] => [[c]] end)).
  { specialize (IH1 (pos + 1)). rewrite Hl in IH1 |- *. cbn [offsets] in *.
    injection IH1 as IH1. rewrite IH1. unfold len. cbn [length]. do 2 f_equal. lia. }
  destruct (Ascii.eqb c CR).
  - destruct s as [|d s]; [done|]. destruct (Ascii.eqb d LF) eqn:Ed.
    + apply Ascii.eqb_eq in Ed as ->. cbn [lines]. cbn. f_equal. apply (IH s). unfold ltof; cbn; lia.
    + cbn [offsets]. f_equal. apply IH1.
  - destruct (Ascii.eqb c LF); [|done]. cbn [offsets]. f_equal. apply IH1.
Qed.

Lemma concat_lines s : concat (lines s) = s.
Proof.
  induction s as [|c s IH]; [done|]. cbn [lines].
  destruct (lines_cons s) as (l & ls & Hl). rewrite Hl in IH. cbn in IH.
  assert (concat (match lines s with l :: ls => (c :: l) :: ls | [] => [[c]] end) = c :: s)
    by (rewrite Hl; cbn; by rewrite IH).
  assert (concat ([c] :: lines s) = c :: s) by (rewrite Hl; cbn; by rewrite IH).
  destruct (Ascii.eqb c CR); [|by destruct (Ascii.eqb c LF)].
  destruct s as [|d s]; [done|]. by destruct (Ascii.eqb d LF).
Qed.

Lemma offsets_length pos ls : length (offsets pos ls) = length ls.
Proof. revert pos; induction ls; intros; cbn; auto. Qed.

Lemma offsets_nth pos ls i d :
  (i < length ls)%nat → nth i (offsets pos ls) d = pos + len (concat (take i ls)).
Proof.
  revert pos i. induction ls as [|l ls IH]; intros pos [|i] Hi; cbn in *; [lia..| |].
  - unfold len. cbn. lia.
  - rewrite IH by lia. unfold len. rewrite length_app. lia.
Qed.

Lemma start_offset_eq s i :
  _line_start_offset (_line_starts s) (JInt i) =
  if (0 <=? i) && (i <? Z.of_nat (length (lines s)))
  then Ok (len (concat (take (Z.to_nat i) (lines s))), i)
  else Err (api_error 400 "invalid_line_range").
Proof.
  unfold _line_start_offset, line_number, nth_start, _line_starts.
  rewrite line_starts_offsets, offsets_length, (Z.ltb_antisym 0 i).
  destruct (0 <=? i) eqn:H0; [|done]. cbn [negb andb]. rewrite (Z.leb_antisym i).
  destruct (i <? _) eqn:Hi; [|done]. bools. rewrite offsets_nth by lia. done.
Qed.

Lemma end_offset_eq s j :
  _line_end_offset s (_line_starts s) (JInt j) =
  if (0 <=? j) && (j <? Z.of_nat (length (lines s)))
  then Ok (len (concat (take (Z.to_nat (j + 1)) (lines s))), j)
  else Err (api_error 400 "invalid_line_range").
Proof.
  unfold _line_end_offset, line_number, nth_start, _line_starts.
  rewrite line_starts_offsets, offsets_length, (Z.ltb_antisym 0 j).
  destruct (0 <=? j) eqn:H0; [|done]. cbn [negb andb]. rewrite (Z.leb_antisym j).
  destruct (j <? _) eqn:Hj; [|done]. bools. do 2 f_equal.
  destruct (j + 1 <? _) eqn:Hj1; bools; [by rewrite offsets_nth by lia|].
  rewrite take_ge by lia. by rewrite concat_lines.
Qed.

Lemma prefix_length_mono (ls : list text) i j :
  (i ≤ j)%nat → len (concat (take i ls)) ≤ len (concat (take j ls)).
Proof.
  intros. rewrite <- (Nat.min_l i j) at 1 by done. rewrite <- take_take.
  rewrite <- (take_drop i (take j ls)) at 2. rewrite concat_app. unfold len. rewrite length_app. lia.
Qed.

(** ** Theorems *)

(** C20: an accepted set of replacements rewrites only the selected window: the text
    splits into what precedes the window, the window and what follows it; the result
    keeps the outer parts, replaces disjoint occurrences inside the window, and uses
    each replacement exactly as often as its old text occurs in the window, which is
    the count the caller expected. *)
Theorem text_replacements_correct s l sel t' total :
  _apply_text_replacements s (JList l) sel = Ok (t', total) →
  ∃ pre mid post mid' ps used,
    s = pre ++ mid ++ post ∧ t' = pre ++ mid' ++ post ∧
    _text_window s sel = Ok (len pre, len pre + len mid) ∧
    parse_replacements mid l = Ok ps ∧
    edited ps mid mid' used ∧ total = Z.of_nat (length used) ∧
    ∀ i p, ps !! i = Some p → uses i used = p_expected p ∧ uses i used = count (p_old p) mid.
Proof.
  unfold _apply_text_replacements. intros H. destruct l as [|v l]; [done|].
  revert H. generalize (v :: l); clear v l; intros l H.
  destruct (_text_window s sel) as [[a b]|] eqn:Hw; [|done].
  destruct (window_split _ _ _ _ Hw) as (pre & mid & post & -> & -> & -> & Hmid).
  cbv zeta in H. rewrite Hmid in H.
  destruct (parse_replacements mid l) as [ps|] eqn:Hps; [|done]. split_matches H.
  pose proof (parse_counted _ _ _ Hps) as Hc.
  destruct (spliced_window pre mid post ps Hc E0) as (mid' & -> & Hed).
  exists pre, mid, post, mid', ps, (s_index <$> merge_sort span_le (all_spans mid (len pre) 0 ps)).
  split_and!; [done..| |].
  - rewrite length_fmap, merge_sort_Permutation. by rewrite <- (all_spans_length mid (len pre) ps 0).
  - intros i p Hp. unfold uses. rewrite merge_sort_Permutation.
    change (Z.of_nat _) with (uses (0 + i) (s_index <$> all_spans mid (len pre) 0 ps)).
    rewrite (all_spans_uses _ _ _ _ _ _ Hc Hp). split; [|by apply (Forall_lookup_1 _ _ _ _ Hc Hp)].
    apply existsb_false_Forall in E. apply (Forall_lookup_1 _ _ _ _ E) in Hp. by bools.
Qed.

(** a single replacement is Python's own [str.replace] on the selected window:
    errors of the window come first, then an empty old text or a count below one,
    then a count that differs from the expected one; otherwise the window is
    replaced and the rest of the text stays. *)
Theorem text_single_replacement s old new n sel :
  _apply_text_replacements s
    (JList [JObj [("old", JStr old); ("new", JStr new); ("expected_count", JInt n)]]%string) sel =
  match _text_window s sel with
  | Err e => Err e
  | Ok (a, b) =>
      if is_empty old || (n <? 1) then Err invalid_request
      else if count (chars old) (slice a b s) =? n
      then Ok (slice 0 a s ++ replace (chars old) (chars new) (slice a b s) ++ slice_from b s, n)
      else Err (api_error 409 "match_count_mismatch")
  end.
Proof.
  unfold _apply_text_replacements. destruct (_text_window s sel) as [[a b]|] eqn:Hw; [|done].
  destruct (window_split _ _ _ _ Hw) as (pre & mid & post & -> & -> & -> & Hmid).
  cbv zeta. rewrite Hmid. cbn -[merge_sort all_spans count]. destruct (is_empty old) eqn:Ho; [done|].
  cbn -[merge_sort all_spans count]. destruct (n <? 1) eqn:Hn; [done|].
  cbn -[merge_sort all_spans count].
  destruct (count (chars old) mid =? n) eqn:Hcount; [|done]. cbn -[merge_sort all_spans count].
  apply Z.eqb_eq in Hcount as <-. rewrite Z.add_0_r.
  set (p := {| p_old := _ |}).
  destruct (spans_of_one pre mid post p) as (-> & ->); [by apply chars_nonempty|done|].
  cbn. by rewrite outer_windows.
Qed.

(** The selectors of an insertion. *)
Definition item_selectors (item : list (string * json)) : selectors :=
  {| start_line := obj_get_or "start_line" JNull item;
     end_line := obj_get_or "end_line" JNull item;
     start_text := obj_get_or "start_text" JNull item;
     end_text := obj_get_or "end_text" JNull item |}.

(** Inserting before or after every match is replacing each match by itself with
    the content before or after it: the two operations accept the same requests
    and produce the same text and count. *)
Theorem text_insertion_is_replacement s item m content after r :
  obj_get_or "match" JNull item = JStr m → obj_get_or "content" JNull item = JStr content →
  _apply_text_insertion s item after = Ok r ↔
  _apply_text_replacements s
    (JList [JObj [("old", JStr m);
                  ("new", JStr (if after then m ++ content else content ++ m));
                  ("expected_count", obj_get_or "expected_count" (JInt 1) item)]]%string)
    (item_selectors item) = Ok r.
Proof.
  intros Hm Hc. unfold _apply_text_insertion, _apply_text_replacements. rewrite Hm, Hc.
  fold (item_selectors item).
  destruct (_text_window s (item_selectors item)) as [[a b]|] eqn:Hw; cycle 1.
  { destruct (is_empty m); [done|]. by destruct (_expected_match_count _). }
  destruct (window_split _ _ _ _ Hw) as (pre & mid & post & -> & -> & -> & Hmid).
  cbv zeta. rewrite Hmid. cbn -[merge_sort all_spans count chars].
  destruct (is_empty m) eqn:Ho; [done|]. cbn -[merge_sort all_spans count chars].
  destruct (_expected_match_count _) as [n|]; [|done]. cbn -[merge_sort all_spans count chars].
  destruct (count (chars m) mid =? n); [|done]. cbn -[merge_sort all_spans count chars].
  rewrite Z.add_0_r. set (p := {| p_old := _ |}).
  destruct (spans_of_one pre mid post p) as (-> & ->); [by apply chars_nonempty|done|].
  assert (insert_at 0 (pre ++ mid ++ post) (chars content)
            (find_points (Z.to_nat (count (chars m) mid)) mid (len pre) 0 (chars m) after) =
          pre ++ replace (p_old p) (p_new p) mid ++ post) as ->; [|done].
  rewrite insertions by (by apply chars_nonempty). subst p. cbn. by destruct after; rewrite chars_app.
Qed.

(** A window of whole lines is exactly those lines.  [lines] splits the text at
    CRLF, CR and LF and loses nothing; the offsets of the lines [i] to [j] are the
    lengths of the lines before [i] and up to [j], and every other pair of line
    numbers is refused. *)
Theorem line_window s i j :
  concat (lines s) = s ∧
  _text_window s {| start_line := JInt i; end_line := JInt j; start_text := JNull; end_text := JNull |} =
  if (0 <=? i) && (i <=? j) && (j <? Z.of_nat (length (lines s))) then
    Ok (len (concat (take (Z.to_nat i) (lines s))), len (concat (take (Z.to_nat (j + 1)) (lines s))))
  else Err (api_error 400 "invalid_line_range").
Proof.
  split; [apply concat_lines|]. unfold _text_window. cbn [absent start_text end_text start_line end_line].
  rewrite start_offset_eq, end_offset_eq. cbn [negb andb].
  destruct (0 <=? i) eqn:H0; [|done]. destruct (i <? Z.of_nat (length (lines s))) eqn:Hi; cbn [andb];
    [|destruct (i <=? j) eqn:Hij, (j <? Z.of_nat (length (lines s))) eqn:Hj; [bools; lia|done..]].
  destruct (0 <=? j) eqn:Hj0, (j <? Z.of_nat (length (lines s))) eqn:Hj; cbn [andb];
    rewrite ?andb_false_r, ?andb_true_r; [|done|destruct (i <=? j) eqn:Hij; [bools; lia|done]|done].
  rewrite (Z.ltb_antisym i j). destruct (i <=? j) eqn:Hij; cbn [negb]; [|done].
  bools. pose proof (prefix_length_mono (lines s) (Z.to_nat i) (Z.to_nat (j + 1)) ltac:(lia)).
  by rewrite (proj2 (Z.ltb_ge _ _)) by done.
Qed.

(** A window of one line, two replacements, three edits. *)
Definition sample : text := chars "one two one" ++ [LF] ++ chars "one".
Definition sample_edits : list json :=
  [JObj [("old", JStr "one"); ("new", JStr "1"); ("expected_count", JInt 2)];
   JObj [("old", JStr "two"); ("new", JStr "two two")]]%string.
Definition first_line : selectors :=
  {| start_line := JInt 0; end_line := JInt 0; start_text := JNull; end_text := JNull |}.

Lemma text_replacements_correct_witness :
  ∃ pre mid post mid' ps used,
    sample = pre ++ mid ++ post ∧
    chars "1 two two 1" ++ [LF] ++ chars "one" = pre ++ mid' ++ post ∧
    _text_window sample first_line = Ok (len pre, len pre + len mid) ∧
    parse_replacements mid sample_edits = Ok ps ∧
    edited ps mid mid' used ∧ 3 = Z.of_nat (length used) ∧
    ∀ i p, ps !! i = Some p → uses i used = p_expected p ∧ uses i used = count (p_old p) mid.
Proof. apply (text_replacements_correct sample sample_edits first_line). vm_compute. reflexivity. Defined.
