(* ===== verification/FileSystem.v ===== *)
(** * FileSystem: a directory tree under faults, and descriptor-anchored access

    A tree maps absolute paths (their components) to nodes.  Every call to the
    operating system takes one event from an oracle: whether it fails, what other
    processes did before it, and the values the kernel picks (inode, time, how
    much of a write arrives).  The times of parent directories are not tracked.  An operation is a state monad whose state survives
    exceptions.  On top, class [SafePathAccess] of src/openkapsel/files/safe_paths.py
    and the status functions of src/openkapsel/files/file_support.py. *)

From Stdlib Require Import ZArith Lia Ascii String.
From stdpp Require Import base tactics list list_numbers gmap strings fin_maps pretty.
From S2P Require Import Prelude Hashing.

Local Open Scope Z_scope.

(** ** Trees *)

Abbreviation path := (list string).

(** [Doc] is a regular file that holds a JSON object the program wrote, known by its
    fields.  Documents, directories and special files have the size the kernel reports. *)
Inductive body :=
| File (data : bytes)
| Doc (sz : Z) (fields : list (string * json))
| Dir (sz : Z)
| Other (sz : Z).

(** The numbers of a [stat] result beside size and type. *)
Record node := Node { dev : Z; ino : Z; mtime : Z; perm : Z; content : body }.

(** Finite maps, with the instances written out. *)
Abbreviation tree := (@gmap (list string) (@list_eq_dec string String.eq_dec)
  (@list_countable string String.eq_dec String.countable) node).

Definition under (p k : path) : bool := bool_decide (p `prefix_of` k).

(** The subtree at [src] reappears at [dst]; what was at [dst] is gone. *)
Definition move (src dst : path) (t : tree) : tree :=
  list_to_map ((λ e, (dst ++ drop (length src) e.1, e.2)) <$>
                 filter (λ e, under src e.1 = true) (map_to_list t))
  ∪ filter (λ e, under src e.1 = false ∧ under dst e.1 = false) t.

Definition remove (p : path) (t : tree) : tree := filter (λ e, under p e.1 = false) t.

Definition occupied_below (p : path) (t : tree) : bool :=
  existsb (λ e, under p e.1 && negb (bool_decide (p = e.1))) (map_to_list t).

Definition is_dir (n : node) : bool := match content n with Dir _ => true | _ => false end.
Definition is_file (n : node) : bool :=
  match content n with File _ | Doc _ _ => true | _ => false end.

(** ** Effects *)

Inductive errno := ENOENT | ENOTDIR | EISDIR | EEXIST | EPERM | ELOOP | ENOTEMPTY | EINVAL | EIO.

#[export] Instance errno_eq_dec : EqDecision errno.
Proof. solve_decision. Defined.

Inductive failure :=
| Api (e : ApiError)
| OSError (e : errno)
| Invalid  (* a ValueError *)
| Asserted (* an AssertionError *).

(** What happens at one call: other processes act, then the call fails or is
    carried out; [arrives] bytes of a failing write are on disk. *)
Record event := Event {
  others : tree → tree; fault : option errno; arrives : nat;
  new_dev : Z; new_ino : Z; new_size : Z; clock : Z; clock_text : string; new_id : string }.
Definition calm : event := Event id None 0 0 0 0 0 "" "".

Record world (X : Type) := World { disk : tree; oracle : list event; local : X }.
Arguments World {_} _ _ _.
Arguments disk {_} _.
Arguments oracle {_} _.
Arguments local {_} _.

Definition M (X A : Type) : Type := world X → res failure A * world X.

Section monad.
Context {X : Type}.

#[export] Instance M_ret : MRet (M X) := λ A a w, (Ok a, w).
#[export] Instance M_bind : MBind (M X) := λ A B f m w,
  match m w with (Ok a, w') => f a w' | (Err e, w') => (Err e, w') end.

Definition fail {A} (e : failure) : M X A := λ w, (Err e, w).
Definition raise {A} (http : Z) (code : string) : M X A := fail (Api (api_error http code)).
Definition raise_when (b : bool) (http : Z) (code : string) : M X unit :=
  if b then raise http code else mret tt.
Definition lift {A} (r : res ApiError A) : M X A :=
  match r with Ok a => mret a | Err e => fail (Api e) end.
Definition get_local : M X X := λ w, (Ok w.(local), w).
Definition set_local (f : X → X) : M X unit := λ w, (Ok tt, World w.(disk) w.(oracle) (f w.(local))).

(** [try: m except: handler] *)
Definition catch {A} (m : M X A) (handler : failure → M X A) : M X A := λ w,
  match m w with (Err e, w') => handler e w' | ok => ok end.

(** One call to the operating system, [op] when it does not fail outright. *)
Definition call {A} (op : event → tree → res errno A * tree) : M X A := λ w,
  let ev := default calm (head w.(oracle)) in
  let t := others ev w.(disk) in
  match fault ev with
  | Some e => (Err (OSError e), World t (tail w.(oracle)) w.(local))
  | None =>
      let (r, t') := op ev t in
      (match r with Ok a => Ok a | Err e => Err (OSError e) end, World t' (tail w.(oracle)) w.(local))
  end.

Fixpoint for_each {A} (l : list A) (f : A → M X unit) : M X unit :=
  match l with [] => mret tt | a :: l' => _ ← f a; for_each l' f end.

(** [check_deadline] of client_runtime/rpc_deadline.py: it may raise, the transport
    closed (here EPERM) or the time over. *)
Definition check_deadline : M X unit :=
  catch (call (λ _ t, (Ok tt, t))) (λ e,
    raise 504 match e with OSError EPERM => "client_rpc_cancelled" | _ => "client_rpc_timeout" end).

(** A random text ([secrets.token_hex]), alone or after the time of day. *)
Definition draw (f : event → string) : M X string := λ w,
  let ev := default calm (head w.(oracle)) in
  (Ok (f ev), World (others ev w.(disk)) (tail w.(oracle)) w.(local)).
Definition draw_id : M X string := draw new_id.
Definition draw_stamped : M X string := draw (λ ev, clock_text ev +:+ "-" +:+ new_id ev).

(** ** System calls *)

(** Opening the directories above [p], none of them through a link. *)
Definition walk (t : tree) (p : path) : option errno :=
  foldr (λ n rest, match t !! take n p with
                   | None => Some ENOENT
                   | Some d => if is_dir d then rest else Some ENOTDIR
                   end) None (seq 0 (length p)).

Definition os_lstat (p : path) : M X (option node) := call (λ _ t, (Ok (t !! p), t)).

(** [open] without following a link, and what [fstat] and [read] then see. *)
Definition os_open (p : path) : M X node := call (λ _ t,
  (match walk t p with
   | Some e => Err e
   | None => match t !! p with
             | None => Err ENOENT
             | Some n => match content n with Other _ => Err ELOOP | _ => Ok n end
             end
   end, t)).

(** [O_CREAT | O_EXCL] *)
Definition os_create (p : path) (mode : Z) : M X unit := call (λ ev t,
  match walk t p, t !! p with
  | Some e, _ => (Err e, t)
  | None, Some _ => (Err EEXIST, t)
  | None, None => (Ok tt, <[p := Node (new_dev ev) (new_ino ev) (clock ev) mode (File [])]> t)
  end).

Definition set_data (data : bytes) (now : Z) (n : node) : node :=
  Node (dev n) (ino n) now (perm n) (File data).
Definition set_perm (mode : Z) (n : node) : node := Node (dev n) (ino n) (mtime n) mode (content n).

(** Writing, flushing and syncing a new file; a failure may leave a part of it. *)
Definition os_write (p : path) (data : bytes) : M X unit := λ w,
  let ev := default calm (head w.(oracle)) in
  let t := others ev w.(disk) in
  match fault ev with
  | Some e => (Err (OSError e),
               World (alter (set_data (take (arrives ev) data) (clock ev)) p t) (tail w.(oracle)) w.(local))
  | None => (Ok tt, World (alter (set_data data (clock ev)) p t) (tail w.(oracle)) w.(local))
  end.

(** The same for a JSON document. *)
Definition os_dump (p : path) (fields : list (string * json)) : M X unit := call (λ ev t,
  (Ok tt, alter (λ n, Node (dev n) (ino n) (clock ev) (perm n) (Doc (new_size ev) fields)) p t)).

Definition os_chmod (p : path) (mode : Z) : M X unit :=
  call (λ _ t, (Ok tt, alter (set_perm mode) p t)).

Definition os_mkdir (p : path) (mode : Z) : M X unit := call (λ ev t,
  match walk t p, t !! p with
  | Some e, _ => (Err e, t)
  | None, Some _ => (Err EEXIST, t)
  | None, None => (Ok tt, <[p := Node (new_dev ev) (new_ino ev) (clock ev) mode (Dir (new_size ev))]> t)
  end).

Definition os_unlink (p : path) : M X unit := call (λ _ t,
  match walk t p, t !! p with
  | Some e, _ => (Err e, t)
  | None, None => (Err ENOENT, t)
  | None, Some n => if is_dir n then (Err EISDIR, t) else (Ok tt, delete p t)
  end).

Definition os_rmdir (p : path) : M X unit := call (λ _ t,
  match walk t p, t !! p with
  | Some e, _ => (Err e, t)
  | None, None => (Err ENOENT, t)
  | None, Some n =>
      if negb (is_dir n) then (Err ENOTDIR, t)
      else if occupied_below p t then (Err ENOTEMPTY, t) else (Ok tt, delete p t)
  end).

(** [os.scandir] with each entry's [lstat]. *)
Definition os_scandir (p : path) : M X (list (string * node)) := call (λ _ t,
  match t !! p with
  | None => (Err ENOENT, t)
  | Some n =>
      if negb (is_dir n) then (Err ENOTDIR, t)
      else (Ok (omap (λ e, match drop (length p) e.1 with
                           | [c] => if under p e.1 then Some (c, e.2) else None
                           | _ => None
                           end) (map_to_list t)), t)
  end).

(** [os.rename] replaces a destination of the same kind. *)
Definition os_rename (src dst : path) : M X unit := call (λ _ t,
  match t !! src, t !! dst with
  | None, _ => (Err ENOENT, t)
  | Some _, None => if under src dst then (Err EINVAL, t) else (Ok tt, move src dst t)
  | Some s, Some d =>
      if bool_decide (src = dst) then (Ok tt, t)
      else if under src dst then (Err EINVAL, t)
      else if is_dir s then
        if negb (is_dir d) then (Err ENOTDIR, t)
        else if occupied_below dst t then (Err ENOTEMPTY, t) else (Ok tt, move src dst t)
      else if is_dir d then (Err EISDIR, t) else (Ok tt, move src dst t)
  end).

(** ** SafePathAccess *)

Context (roots : list path).

(** The authorised root of a path, the deepest first. *)
Definition anchor (p : path) : option path :=
  r ← head (filter (λ r, under r p = true) roots);
  if existsb (λ c, is_empty c || String.eqb c "." || String.eqb c "..") (drop (length r) p) then None else Some r.

Definition safe_open (p : path) : M X node :=
  match anchor p with None => fail (OSError EPERM) | Some _ => os_open p end.

Definition parent (p : path) : M X unit :=
  match anchor p with
  | None => fail (OSError EPERM)
  | Some r =>
      if bool_decide (r = p) then fail (OSError EPERM)
      else call (λ _ t, (match walk t p with Some e => Err e | None => Ok tt end, t))
  end.

(** [rename] with [overwrite=False, create_parents=False]. *)
Definition rename (source destination : path) : M X unit :=
  _ ← parent source;
  _ ← parent destination;
  s ← os_lstat source;
  match s with
  | None => fail (OSError ENOENT)
  | Some _ =>
      d ← os_lstat destination;
      match d with
      | Some _ => fail (OSError EEXIST)
      | None => os_rename source destination
      end
  end.

(** ** Status and entity tags *)

Definition _raise_safe_path_error (e : errno) : failure :=
  match e with
  | ENOENT => Api (api_error 404 "path_not_found")
  | EPERM => Api (api_error 403 "path_access_denied")
  | _ => Api (api_error 409 "path_changed")
  end.

Definition _file_stat (p : path) : M X node :=
  catch (safe_open p) (λ e, fail match e with OSError n => _raise_safe_path_error n | _ => e end).

(** [st_size] *)
Definition size (n : node) : Z :=
  match content n with File d => Z.of_nat (length d) | Doc sz _ | Dir sz | Other sz => sz end.

Definition dec (n : Z) : string := pretty n.

Definition quote : string := String (ascii_of_N 34) EmptyString.

Definition _stat_etag (n : node) : string :=
  let source := dec (dev n) +:+ ":" +:+ dec (ino n) +:+ ":" +:+ dec (size n) +:+ ":" +:+ dec (mtime n) in
  quote +:+ substring 0 32 (sha256_hex source) +:+ quote.

End monad.

(** ** Moving subtrees *)

Lemma under_spec p k : under p k = true ↔ p `prefix_of` k.
Proof. unfold under. apply bool_decide_eq_true. Qed.

Lemma under_false p k : under p k = false ↔ ¬ p `prefix_of` k.
Proof. unfold under. apply bool_decide_eq_false. Qed.

Lemma under_app p r : under p (p ++ r) = true.
Proof. apply under_spec. by eexists. Qed.

Lemma under_refl p : under p p = true.
Proof. by apply under_spec. Qed.

Lemma under_split p k : under p k = true → k = p ++ drop (length p) k.
Proof. intros [r ->]%under_spec. by rewrite drop_app_length. Qed.

(** Where the subtree of [src] ends up after the move, and everything else. *)
Lemma lookup_move src dst t k :
  move src dst t !! k =
  if under dst k then t !! (src ++ drop (length dst) k)
  else if under src k then None else t !! k.
Proof.
  unfold move. set (moved := (λ e : path * node, (dst ++ drop (length src) e.1, e.2)) <$> _).
  assert (Hin : ∀ k' v, (k', v) ∈ moved ↔
            under dst k' = true ∧ t !! (src ++ drop (length dst) k') = Some v).
  { intros k' v. subst moved. rewrite list_elem_of_fmap. split.
    - intros ([k0 v0] & [= -> ->] & [Hu Hv%elem_of_map_to_list]%list_elem_of_filter). cbn in *.
      rewrite under_app, drop_app_length. split; [done|]. by rewrite <- under_split.
    - intros [Hu Hv]. exists (src ++ drop (length dst) k', v). cbn. split.
      + rewrite drop_app_length. f_equal. by apply under_split.
      + apply list_elem_of_filter. split; [apply under_app|by apply elem_of_map_to_list]. }
  assert (Hmap : (list_to_map moved : tree) !! k = if under dst k then t !! (src ++ drop (length dst) k) else None).
  { destruct ((list_to_map moved : tree) !! k) as [v|] eqn:E.
    - apply elem_of_list_to_map_2, Hin in E as [-> ->]. done.
    - apply not_elem_of_list_to_map in E. destruct (under dst k) eqn:Hu; [|done].
      destruct (t !! _) as [v|] eqn:Hv; [|done]. destruct E.
      apply list_elem_of_fmap. exists (k, v). split; [done|]. by apply Hin. }
  rewrite lookup_union, Hmap, map_lookup_filter.
  destruct (under dst k) eqn:Hd, (under src k) eqn:Hs; destruct (t !! k); cbn;
    first [rewrite option_guard_True by done|rewrite option_guard_False by (intros [??]; congruence)|idtac];
    cbn; rewrite ?(right_id_L None _); done.
Qed.

Lemma lookup_remove p t k : remove p t !! k = if under p k then None else t !! k.
Proof.
  unfold remove. rewrite map_lookup_filter. destruct (under p k) eqn:E, (t !! k); cbn;
    [rewrite option_guard_False by (cbn; congruence)|..|rewrite option_guard_True by done|]; done.
Qed.

(** Nothing exists at or below [p]. *)
Definition vacant (p : path) (t : tree) : Prop := ∀ k, under p k = true → t !! k = None.

(** Two trees agree on a set of paths. *)
Definition agree (S : path → Prop) (t t' : tree) : Prop := ∀ k, S k → t !! k = t' !! k.

(** ** Reasoning about operations that run alone

    No other process touches the tree, and the kernel reports ENOENT only for
    what does not exist; every other failure may happen at any call. *)

Definition alone (ev : event) : Prop := (∀ t, others ev t = t) ∧ fault ev ≠ Some ENOENT.

Section logic.
Context {X : Type}.
Implicit Types (t : tree) (x : X).

Definition wp {A} (m : M X A) (Q : res failure A → tree → X → Prop) t x : Prop :=
  ∀ o, Forall alone o →
    Forall alone (oracle (m (World t o x)).2) ∧
    Q (m (World t o x)).1 (disk (m (World t o x)).2) (local (m (World t o x)).2).

Lemma wp_mono {A} (m : M X A) (Q Q' : res failure A → tree → X → Prop) t x :
  wp m Q t x → (∀ r t' x', Q r t' x' → Q' r t' x') → wp m Q' t x.
Proof. intros H HQ o Ho. destruct (H o Ho) as [? ?]. split; [done|]. by apply HQ. Qed.

Lemma wp_ret {A} (a : A) Q t x : Q (Ok a) t x → wp (mret a) Q t x.
Proof. by intros H o Ho. Qed.

Lemma wp_fail {A} (e : failure) (Q : res failure A → tree → X → Prop) t x : Q (Err e) t x → wp (fail e) Q t x.
Proof. by intros H o Ho. Qed.

(** What remains to be shown after [m], with the continuation [f]. *)
Definition then_ {A B} (f : A → M X B) (Q : res failure B → tree → X → Prop)
    (r : res failure A) (t : tree) (x : X) : Prop :=
  match r with Ok a => wp (f a) Q t x | Err e => Q (Err e) t x end.

Lemma wp_bind {A B} (m : M X A) (f : A → M X B) Q t x :
  wp m (then_ f Q) t x → wp (m ≫= f) Q t x.
Proof.
  intros H o Ho. specialize (H o Ho) as [Ho' H]. unfold mbind, M_bind.
  destruct (m (World t o x)) as [[a|e] [t' o' x']]; cbn in *; [|done]. by apply H.
Qed.

Lemma wp_catch {A} (m : M X A) h Q t x :
  wp m (λ r t x, match r with Ok a => Q (Ok a) t x | Err e => wp (h e) Q t x end) t x →
  wp (catch m h) Q t x.
Proof.
  intros H o Ho. specialize (H o Ho) as [Ho' H]. unfold catch.
  destruct (m (World t o x)) as [[a|e] [t' o' x']]; cbn in *; [done|]. by apply H.
Qed.

Lemma wp_get_local Q t x : Q (Ok x) t x → wp get_local Q t x.
Proof. by intros H o Ho. Qed.

Lemma wp_set_local f Q t x : Q (Ok tt) t (f x) → wp (set_local f) Q t x.
Proof. by intros H o Ho. Qed.

Lemma next_alone o : Forall alone o → alone (default calm (head o)) ∧ Forall alone (tail o).
Proof. destruct 1; split; done. Qed.

Lemma wp_call {A} (op : event → tree → res errno A * tree) (Q : res failure A → tree → X → Prop) t x :
  (∀ e, e ≠ ENOENT → Q (Err (OSError e)) t x) →
  (∀ ev, Q (match (op ev t).1 with Ok a => Ok a | Err e => Err (OSError e) end) (op ev t).2 x) →
  wp (call op) Q t x.
Proof.
  intros Hf Hop o Ho. destruct (next_alone o Ho) as [[Hid Hne] Ht]. unfold call. cbn. rewrite Hid.
  destruct (fault _) as [e|] eqn:E; [split; [done|apply Hf; congruence]|].
  specialize (Hop (default calm (head o))). by destruct (op _ t) as [[a|e] t'].
Qed.

Lemma wp_write p data Q t x :
  (∀ e n now, Q (Err (OSError e)) (alter (set_data (take n data) now) p t) x) →
  (∀ now, Q (Ok tt) (alter (set_data data now) p t) x) →
  wp (os_write p data) Q t x.
Proof.
  intros Hf Hop o Ho. destruct (next_alone o Ho) as [[Hid Hne] Ht]. unfold os_write.
  cbn [oracle disk local]. rewrite Hid. destruct (fault _); cbn; split; first [done|apply Hf|apply Hop].
Qed.

(** A loop keeps an invariant that also holds when it stops early. *)
Lemma wp_for_each {A} (l : list A) (f : A → M X unit) (I : list A → tree → X → Prop)
    (E : failure → tree → X → Prop) t x :
  (∀ done a rest t x, l = done ++ a :: rest → I done t x →
     wp (f a) (λ r t x, match r with Ok _ => I (done ++ [a]) t x | Err e => E e t x end) t x) →
  I [] t x →
  wp (for_each l f) (λ r t x, match r with Ok _ => I l t x | Err e => E e t x end) t x.
Proof.
  intros Hstep. assert (∀ rest done t x, l = done ++ rest → I done t x →
    wp (for_each rest f) (λ r t x, match r with Ok _ => I l t x | Err e => E e t x end) t x) as H;
    [|intros HI; by apply (H l [])].
  induction rest as [|a rest IH]; intros done' t' x' -> HI; cbn [for_each].
  - apply wp_ret. by rewrite app_nil_r.
  - apply wp_bind. eapply wp_mono; [by apply (Hstep done' a rest)|].
    intros [[]|e] t1 x1 H1; cbn; [|done]. apply (IH (done' ++ [a])); [by rewrite <- app_assoc|done].
Qed.

(** Operations that only look. *)
Definition looks {A} (m : M X A) (F : tree → res failure A → Prop) : Prop :=
  ∀ t x, wp m (λ r t' x', t' = t ∧ x' = x ∧ F t r) t x.

Lemma wp_looks {A} (m : M X A) F Q t x :
  looks m F → (∀ r, F t r → Q r t x) → wp m Q t x.
Proof. intros H HQ. eapply wp_mono; [apply H|]. intros r ? ? (-> & -> & ?). by apply HQ. Qed.

Lemma looks_bind {A B} (m : M X A) (f : A → M X B) F G :
  looks m F → (∀ a, looks (f a) (G a)) →
  looks (m ≫= f) (λ t r, ∃ r1, F t r1 ∧ match r1 with Ok a => G a t r | Err e => r = Err e end).
Proof.
  intros Hm Hf t x. apply wp_bind, (wp_looks _ _ _ _ _ Hm). intros [a|e] HF; cbn.
  - apply (wp_looks _ _ _ _ _ (Hf a)). intros r HG. split_and!; [done..|]. by exists (Ok a).
  - split_and!; [done..|]. by exists (Err e).
Qed.

Lemma looks_weaken {A} (m : M X A) (F G : tree → res failure A → Prop) :
  looks m F → (∀ t r, F t r → G t r) → looks m G.
Proof. intros H HG t x. apply (wp_looks _ _ _ _ _ H). auto. Qed.

Lemma looks_ret {A} (a : A) : looks (mret a) (λ _ r, r = Ok a).
Proof. intros t x. by apply wp_ret. Qed.

Lemma looks_fail {A} (e : failure) : looks (fail (A:=A) e) (λ _ r, r = Err e).
Proof. intros t x. by apply wp_fail. Qed.

Lemma looks_lstat p :
  looks (os_lstat p) (λ t r, match r with Ok o => o = t !! p | Err e => e ≠ OSError ENOENT end).
Proof. intros t x. apply wp_call; [naive_solver congruence|]. intros ev. done. Qed.

Lemma looks_draw (f : event → string) : looks (draw f) (λ _ r, ∃ ev, r = Ok (f ev)).
Proof.
  intros t x o Ho. destruct (next_alone o Ho) as [[Hid _] Ht]. unfold draw. cbn [oracle disk local].
  rewrite Hid. eauto.
Qed.

Lemma looks_open p :
  looks (os_open p) (λ t r, match r with
    | Ok n => t !! p = Some n ∧ walk t p = None
    | Err e => (∃ n, e = OSError n) ∧ (e = OSError ENOENT → t !! p = None ∨ is_Some (walk t p))
    end).
Proof.
  intros t x. apply wp_call; [intros e He; split_and!; [done..|by eauto|congruence]|]. intros ev. cbn.
  destruct (walk t p) eqn:W; [by eauto 10|]. destruct (t !! p) as [n|]; [|by eauto 10].
  destruct (content n); try done. split_and!; eauto. congruence.
Qed.

Lemma looks_scandir p : looks (os_scandir p) (λ _ _, True).
Proof. intros t x. apply wp_call; [done|]. intros ev. cbn. destruct (t !! p) as [n|]; [|done]. by destruct (is_dir n). Qed.

Lemma wp_dump p fields Q t x :
  (∀ e, Q (Err e) t x) →
  (∀ now sz, Q (Ok tt) (alter (λ n, Node (dev n) (ino n) now (perm n) (Doc sz fields)) p t) x) →
  wp (os_dump p fields) Q t x.
Proof. intros Hf Hm. apply wp_call; [by intros|]. intros ev. apply Hm. Qed.

Lemma wp_rmdir p Q t x :
  (∀ e, Q (Err e) t x) → Q (Ok tt) (delete p t) x → wp (os_rmdir p) Q t x.
Proof.
  intros Hf Hm. apply wp_call; [by intros|]. intros ev.
  destruct (walk t p), (t !! p) as [n|] eqn:E; cbn; try apply Hf.
  destruct (is_dir n); cbn; [|apply Hf]. destruct (occupied_below p t); [apply Hf|apply Hm].
Qed.

Lemma wp_os_rename src dst Q t x :
  src ≠ dst → (∀ e, Q (Err e) t x) → Q (Ok tt) (move src dst t) x → wp (os_rename src dst) Q t x.
Proof.
  intros Hne Hf Hm. apply wp_call; [by intros|]. intros ev.
  destruct (t !! src) as [s|], (t !! dst) as [d|]; cbn; try apply Hf.
  - rewrite bool_decide_eq_false_2 by done. destruct (under src dst); [apply Hf|].
    destruct (is_dir s), (is_dir d); cbn; try apply Hf; [|apply Hm].
    destruct (occupied_below dst t); [apply Hf|apply Hm].
  - destruct (under src dst); [apply Hf|apply Hm].
Qed.

Lemma looks_deadline :
  looks check_deadline (λ _ r, r = Ok tt ∨ ∃ c, r = Err (Api (api_error 504 c))).
Proof.
  intros t x. apply wp_catch, wp_call; [|intros; cbn; by auto]. intros e He. apply wp_fail. by eauto.
Qed.

Context (roots : list path).

Lemma looks_parent p : looks (parent roots p) (λ _ _, True).
Proof.
  intros t x. unfold parent. destruct (anchor roots p); [|by apply wp_fail].
  destruct (bool_decide _); [by apply wp_fail|]. apply wp_call; [done|]. intros ev. cbn.
  by destruct (walk t p).
Qed.

Lemma looks_stat p :
  looks (_file_stat roots p) (λ t r, match r with
    | Ok n => t !! p = Some n ∧ walk t p = None
    | Err e => ∀ a, e = Api a → error_code a = "path_not_found"%string →
                 t !! p = None ∨ is_Some (walk t p)
    end).
Proof.
  intros t x. apply wp_catch. unfold safe_open.
  destruct (anchor roots p); [|apply wp_fail, wp_fail; split_and!; [done..|by intros a [= <-]]].
  apply (wp_looks _ _ _ _ _ (looks_open p)). intros [n|e] H; [done|]. apply wp_fail.
  split_and!; [done..|]. destruct H as [[n ->] H]. intros a Ha Hc. apply H.
  destruct n; [done|injection Ha as <-; discriminate Hc..].
Qed.

(** An exclusive rename moves the whole source to a free place, or does nothing. *)
Lemma wp_rename src dst Q t x :
  (∀ e, Q (Err e) t x) →
  (∀ n, t !! src = Some n → t !! dst = None → under src dst = false → Q (Ok tt) (move src dst t) x) →
  wp (rename roots src dst) Q t x.
Proof.
  intros Hf Hm. unfold rename.
  apply wp_bind, (wp_looks _ _ _ _ _ (looks_parent src)). intros [[]|e] _; cbn; [|done].
  apply wp_bind, (wp_looks _ _ _ _ _ (looks_parent dst)). intros [[]|e] _; cbn; [|done].
  apply wp_bind, (wp_looks _ _ _ _ _ (looks_lstat src)). intros [[s|]|e] Hs; cbn; [|by apply wp_fail|done].
  apply wp_bind, (wp_looks _ _ _ _ _ (looks_lstat dst)). intros [[d|]|e] Hd; cbn; [by apply wp_fail| |done].
  apply wp_call; [by intros|]. intros ev. rewrite <- Hs, <- Hd.
  destruct (under src dst) eqn:E; cbn; [done|]. by eapply Hm.
Qed.

Lemma wp_create p mode Q t x :
  (∀ e, Q (Err e) t x) →
  (∀ d i now, t !! p = None → Q (Ok tt) (<[p := Node d i now mode (File [])]> t) x) →
  wp (os_create p mode) Q t x.
Proof.
  intros Hf Hm. apply wp_call; [by intros|]. intros ev.
  destruct (walk t p), (t !! p) eqn:E; cbn; try apply Hf. by apply Hm.
Qed.

Lemma wp_mkdir p mode Q t x :
  (∀ e, Q (Err e) t x) →
  (∀ n, t !! p = None → is_dir n = true → Q (Ok tt) (<[p := n]> t) x) →
  wp (os_mkdir p mode) Q t x.
Proof.
  intros Hf Hm. apply wp_call; [by intros|]. intros ev.
  destruct (walk t p), (t !! p) eqn:E; cbn; try apply Hf. by apply Hm.
Qed.

Lemma wp_chmod p mode Q t x :
  (∀ e, Q (Err e) t x) → Q (Ok tt) (alter (set_perm mode) p t) x → wp (os_chmod p mode) Q t x.
Proof. intros Hf Hm. apply wp_call; [by intros|]. done. Qed.

(** [unlink] of something that is not a directory; ENOENT only when it is absent. *)
Lemma wp_unlink p Q t x :
  (∀ e, (e = OSError ENOENT → t !! p = None ∨ is_Some (walk t p)) → Q (Err e) t x) →
  (∀ n, t !! p = Some n → is_dir n = false → Q (Ok tt) (delete p t) x) →
  wp (os_unlink p) Q t x.
Proof.
  intros Hf Hm. apply wp_call; [intros e He; apply Hf; congruence|]. intros ev.
  destruct (walk t p) eqn:W, (t !! p) as [n|] eqn:E; cbn; try (apply Hf; by eauto).
  destruct (is_dir n) eqn:D; cbn; [apply Hf; congruence|]. by eapply Hm.
Qed.

(** ** Which paths an operation may change *)

Definition touches {A} (m : M X A) (S : path → Prop) : Prop :=
  ∀ t x, wp m (λ _ t' x', x' = x ∧ ∀ k, ¬ S k → t' !! k = t !! k) t x.

Lemma touches_mono {A} (m : M X A) (S S' : path → Prop) :
  touches m S → (∀ k, S k → S' k) → touches m S'.
Proof.
  intros H HS t x. eapply wp_mono; [apply H|]. intros r t' x' [-> Hk]. split; [done|].
  intros k Hn. apply Hk. naive_solver.
Qed.

Lemma touches_looks {A} (m : M X A) F S : looks m F → touches m S.
Proof. intros H t x. eapply wp_mono; [apply H|]. by intros r t' x' (-> & -> & _). Qed.

Lemma touches_bind {A B} (m : M X A) (f : A → M X B) S :
  touches m S → (∀ a, touches (f a) S) → touches (m ≫= f) S.
Proof.
  intros Hm Hf t x. apply wp_bind. eapply wp_mono; [apply Hm|].
  intros [a|e] t1 x1 [-> H1]; cbn; [|by split].
  eapply wp_mono; [apply Hf|]. intros r t2 x2 [-> H2]. split; [done|].
  intros k Hk. by rewrite H2, H1.
Qed.

Lemma touches_catch {A} (m : M X A) h S :
  touches m S → (∀ e, touches (h e) S) → touches (catch m h) S.
Proof.
  intros Hm Hf t x. apply wp_catch. eapply wp_mono; [apply Hm|].
  intros [a|e] t1 x1 [-> H1]; [by split|].
  eapply wp_mono; [apply Hf|]. intros r t2 x2 [-> H2]. split; [done|].
  intros k Hk. by rewrite H2, H1.
Qed.

Lemma touches_for_each {A} (l : list A) (f : A → M X unit) S :
  (∀ a, touches (f a) S) → touches (for_each l f) S.
Proof.
  intros Hf. induction l as [|a l IH]; cbn [for_each].
  - apply (touches_looks _ _ _ (looks_ret tt)).
  - apply touches_bind; [apply Hf|]. by intros _.
Qed.

Lemma touches_create p mode (S : path → Prop) : S p → touches (os_create p mode) S.
Proof.
  intros Hp t x. apply wp_create; [done|]. intros d i now _. split; [done|]. intros k Hk.
  by rewrite lookup_insert_ne by naive_solver.
Qed.
Lemma touches_mkdir p mode (S : path → Prop) : S p → touches (os_mkdir p mode) S.
Proof.
  intros Hp t x. apply wp_mkdir; [done|]. intros n _ _. split; [done|]. intros k Hk.
  by rewrite lookup_insert_ne by naive_solver.
Qed.
Lemma touches_write p data (S : path → Prop) : S p → touches (os_write p data) S.
Proof.
  intros Hp t x. apply wp_write; intros; (split; [done|]); intros k Hk;
    by rewrite lookup_alter_ne by naive_solver.
Qed.
Lemma touches_dump p fields (S : path → Prop) : S p → touches (os_dump p fields) S.
Proof.
  intros Hp t x. apply wp_dump; intros; (split; [done|]); [done|]. intros k Hk.
  by rewrite lookup_alter_ne by naive_solver.
Qed.
Lemma touches_chmod p mode (S : path → Prop) : S p → touches (os_chmod p mode) S.
Proof.
  intros Hp t x. apply wp_chmod; intros; (split; [done|]); [done|]. intros k Hk.
  by rewrite lookup_alter_ne by naive_solver.
Qed.
Lemma touches_unlink p (S : path → Prop) : S p → touches (os_unlink p) S.
Proof.
  intros Hp t x. apply wp_unlink; [done|]. intros n _ _. split; [done|]. intros k Hk.
  by rewrite lookup_delete_ne by naive_solver.
Qed.
Lemma touches_rmdir p (S : path → Prop) : S p → touches (os_rmdir p) S.
Proof.
  intros Hp t x. apply wp_rmdir; [done|]. split; [done|]. intros k Hk.
  by rewrite lookup_delete_ne by naive_solver.
Qed.

Lemma lookup_move_else src dst t k :
  under src k = false → under dst k = false → move src dst t !! k = t !! k.
Proof. intros Hs Hd. by rewrite lookup_move, Hs, Hd. Qed.

Lemma touches_os_rename src dst (S : path → Prop) :
  src ≠ dst → (∀ k, under src k = true ∨ under dst k = true → S k) → touches (os_rename src dst) S.
Proof.
  intros Hne HS t x. apply wp_os_rename; [done..|]. split; [done|]. intros k Hk.
  apply lookup_move_else; apply not_true_is_false; naive_solver.
Qed.

End logic.

(** The framing rules, tried in turn; what remains says that a path is in the set. *)
Create HintDb fs_touch.
#[export] Hint Resolve touches_create touches_mkdir touches_write touches_dump touches_chmod
  touches_unlink touches_rmdir : fs_touch.
#[export] Hint Resolve looks_lstat looks_open looks_scandir looks_draw looks_deadline looks_parent
  looks_stat looks_ret looks_fail : fs_touch.
Ltac touch_step :=
  match goal with
  | |- ∀ _, touches _ _ => intros ?
  | |- touches (_ ≫= _) _ => apply touches_bind
  | |- touches (catch _ _) _ => apply touches_catch
  | |- touches (for_each _ _) _ => apply touches_for_each
  | |- touches (raise _ _) _ => unfold raise
  | |- touches draw_id _ => unfold draw_id
  | |- touches (raise_when _ _ _) _ => unfold raise_when
  | |- touches (match ?x with _ => _ end) _ => destruct x
  | |- touches _ _ => by eauto with fs_touch
  | |- touches _ _ => eapply touches_looks; by eauto with fs_touch
  end.
Ltac touch := repeat touch_step.

(** ** Directories above a path *)

Lemma walk_None (t : tree) p :
  walk t p = None ↔ ∀ n, (n < length p)%nat → ∃ d, t !! take n p = Some d ∧ is_dir d = true.
Proof.
  unfold walk. assert (∀ l, foldr (λ n rest, match t !! take n p with
      | None => Some ENOENT | Some d => if is_dir d then rest else Some ENOTDIR end) None l = None
    ↔ ∀ n, n ∈ l → ∃ d, t !! take n p = Some d ∧ is_dir d = true) as ->.
  { induction l as [|n l IH]; cbn; [set_solver|]. destruct (t !! take n p) as [d|] eqn:E.
    - destruct (is_dir d) eqn:D.
      + rewrite IH. split; [intros H m [->|Hm]%elem_of_cons; eauto|]. intros H m Hm. apply H. by right.
      + split; [done|]. intros H. destruct (H n) as (d' & ? & ?); [left|]. congruence.
    - split; [done|]. intros H. destruct (H n) as (d' & ? & ?); [left|]. congruence. }
  apply forall_proper. intros n. rewrite elem_of_seq. split; intros H Hn; apply H; lia.
Qed.

Lemma walk_agree (t t' : tree) p :
  (∀ n, (n < length p)%nat → t' !! take n p = t !! take n p) → walk t p = None → walk t' p = None.
Proof. rewrite !walk_None. intros H Hw n Hn. rewrite H by done. by apply Hw. Qed.

(** Neither path lies below the other. *)
Definition apart (p q : path) : Prop := under p q = false ∧ under q p = false.

Lemma apart_under p q k : apart p q → under p k = true → under q k = false.
Proof.
  intros [H1 H2] Hp. apply not_true_is_false. intros Hq. apply under_spec in Hp, Hq.
  apply under_false in H1, H2. by destruct (prefix_weak_total _ _ _ Hp Hq).
Qed.

Lemma apart_sym p q : apart p q → apart q p.
Proof. by intros [? ?]. Qed.

(** ** Directory trees *)

(** A directory tree: what exists lies in a directory. *)
Definition grown (t : tree) : Prop :=
  ∀ k c, is_Some (t !! (k ++ [c])) → ∃ d, t !! k = Some d ∧ is_dir d = true.

Lemma grown_vacant t k : grown t → t !! k = None → vacant k t.
Proof.
  intros Hg Hk k' [r ->]%under_spec. induction r as [|c r IH] using rev_ind; [by rewrite app_nil_r|].
  destruct (t !! (k ++ r ++ [c])) eqn:E; [|done]. rewrite app_assoc in E.
  destruct (Hg (k ++ r) c) as (d & Hd & _); [by eauto|]. congruence.
Qed.

Lemma grown_prefix t k k' :
  grown t → k `prefix_of` k' → k ≠ k' → is_Some (t !! k') → ∃ d, t !! k = Some d ∧ is_dir d = true.
Proof.
  intros Hg [r ->]. induction r as [|c r IH] using rev_ind; [by rewrite app_nil_r|]. intros _ Hs.
  rewrite app_assoc in Hs. destruct (Hg _ _ Hs) as (d & Hd & Hdir).
  destruct (decide (r = [])) as [->|Hr]; [rewrite app_nil_r in Hd; by eauto|].
  apply IH; [|by eauto]. intros E%(f_equal length). rewrite length_app in E. destruct r; [done|cbn in E; lia].
Qed.

Lemma grown_walk t k : grown t → is_Some (t !! k) → walk t k = None.
Proof.
  intros Hg Hs. apply walk_None. intros n Hn. eapply grown_prefix; [done|apply prefix_take| |exact Hs].
  intros E%(f_equal length). rewrite length_take in E. lia.
Qed.

Lemma grown_remove p t : grown t → grown (remove p t).
Proof.
  intros Hg k c [n Hn]. rewrite lookup_remove in Hn. destruct (under p (k ++ [c])) eqn:Hu; [done|].
  destruct (Hg k c) as (d & Hd & Hdir); [by eauto|]. exists d. split; [|done]. rewrite lookup_remove.
  destruct (under p k) eqn:Hp; [|done]. apply under_spec in Hp. apply under_false in Hu. destruct Hu.
  etrans; [exact Hp|]. by eexists.
Qed.

(** What is no directory has nothing below it. *)
Lemma grown_leaf p n t : grown t → t !! p = Some n → is_dir n = false → remove p t = delete p t.
Proof.
  intros Hg Hn Hd. apply map_eq. intros k. rewrite lookup_remove.
  destruct (decide (k = p)) as [->|Hne]; [by rewrite under_refl, lookup_delete_eq|].
  rewrite lookup_delete_ne by done. destruct (under p k) eqn:Hu; [|done].
  destruct (t !! k) eqn:Hk; [|done]. apply under_spec in Hu.
  destruct (grown_prefix t p k) as (d & Hp & Hdir); [done..|by eauto|congruence].
Qed.

(** A path of a tree is shorter than the tree is large. *)
Lemma grown_depth t k : grown t → is_Some (t !! k) → (length k < base.size t)%nat.
Proof.
  intros Hg Hk. rewrite <- (size_dom (D:=gset (list string))).
  assert (list_to_set ((λ n, take n k) <$> seq 0 (S (length k))) ⊆ dom (D:=gset (list string)) t) as Hsub.
  { intros q Hq. apply elem_of_list_to_set, list_elem_of_fmap in Hq as (n & -> & Hn%elem_of_seq).
    apply elem_of_dom. destruct (decide (n = length k)) as [->|Hne]; [by rewrite take_ge|].
    destruct (grown_prefix t (take n k) k) as (d & Hd & _); [done|apply prefix_take| |done|by eauto].
    intros E%(f_equal length). rewrite length_take in E. lia. }
  apply subseteq_size in Hsub. rewrite size_list_to_set in Hsub.
  - rewrite length_fmap, length_seq in Hsub. lia.
  - apply NoDup_fmap_2_strong; [|apply NoDup_seq]. intros n m Hn%elem_of_seq Hm%elem_of_seq E%(f_equal length).
    rewrite !length_take in E. lia.
Qed.

(** Deciding it for a concrete tree. *)
Definition grown_check (t : tree) : bool :=
  forallb (λ e, match e.1 with
                | [] => true
                | _ => match t !! removelast e.1 with Some d => is_dir d | None => false end
                end) (map_to_list t).

Lemma grown_check_ok t : grown_check t = true → grown t.
Proof.
  unfold grown_check. rewrite forallb_forall. intros H k c [n Hn].
  specialize (H (k ++ [c], n)). cbn [fst] in H. rewrite removelast_last in H.
  destruct (k ++ [c]) as [|? ?] eqn:E; [by destruct k|]. rewrite <- E in *.
  assert (In (k ++ [c], n) (map_to_list t)) as Hin by by apply list_elem_of_In, elem_of_map_to_list.
  specialize (H Hin). destruct (t !! k) as [d|]; [by eauto|done].
Qed.
