(* ===== verification/Recycle.v ===== *)
(** * Recycle: recoverable deletion inside a workspace

    Models class [RecycleBin] of src/openkapsel/files/recycle.py and the part of
    src/openkapsel/workspace/workspace_layout.py it calls, on the trees of
    FileSystem.  A deleted path is moved below .openkapsel/recycle/<id>, beside a
    document that records where it came from.  A [RecycleError] is the [ApiError]
    the handlers turn it into. *)

From Stdlib Require Import ZArith Lia Ascii String.
From stdpp Require Import base tactics list list_numbers gmap strings fin_maps.
From S2P Require Import Prelude PathAccess Hashing FileSystem.

Local Open Scope Z_scope.
Abbreviation path := FileSystem.path.

(** ** Names *)

Definition INTERNAL_DIRECTORY : string := ".openkapsel".
Definition RECYCLE_DIRECTORY : string := "recycle".
Definition LAYOUT_VERSION_FILE : string := "layout-version".
Definition LAYOUT_VERSION : Z := 1.
Definition METADATA_FILE : string := ".openkapsel_recycle.json".

(** [int(text)]: a sign, digits, single underscores between digits. *)
Fixpoint int_digits (acc : Z) (after_digit : bool) (s : string) : option Z :=
  match s with
  | EmptyString => if after_digit then Some acc else None
  | String c s' =>
      if is_dec c then int_digits (acc * 10 + (code c - 48)) true s'
      else if Ascii.eqb c "_" && after_digit then
        match s' with
        | String d _ => if is_dec d then int_digits acc false s' else None
        | EmptyString => None
        end
      else None
  end.
Definition int_text (s : string) : option Z :=
  match s with
  | String "+" s' => int_digits 0 false s'
  | String "-" s' => Z.opp <$> int_digits 0 false s'
  | _ => int_digits 0 false s
  end.

(** [\A\d{8}T\d{6}\.\d{6}Z-[0-9a-f]{8}\Z] *)
Fixpoint matches (classes : list (ascii → bool)) (s : string) : bool :=
  match classes, s with
  | [], EmptyString => true
  | f :: fs, String c s' => f c && matches fs s'
  | _, _ => false
  end.
Definition RECYCLE_ID_PATTERN : list (ascii → bool) :=
  replicate 8 is_dec ++ [Ascii.eqb "T"] ++ replicate 6 is_dec ++ [Ascii.eqb "."]
  ++ replicate 6 is_dec ++ [Ascii.eqb "Z"; Ascii.eqb "-"] ++ replicate 8 is_hexdigit.

(** [str] of a relative path with these parts *)
Definition rel_text (rel : path) : string := String.concat "/" rel.

Section bin.
Context {X : Type}.
(** [self.workspace_root] *)
Context (home : path).

Definition layout_root : path := home ++ [INTERNAL_DIRECTORY].
Definition bin : path := layout_root ++ [RECYCLE_DIRECTORY].
Definition version_file : path := layout_root ++ [LAYOUT_VERSION_FILE].
Definition entry (id : string) : path := bin ++ [id].

(** ** The private layout *)

Definition _require_real_directory (p : path) : M X unit :=
  d ← os_lstat p;
  match d with
  | None => mret tt
  | Some n => if is_dir n then mret tt else fail Invalid
  end.

(** [p.mkdir(exist_ok=True)] *)
Definition mkdir_exist_ok (p : path) : M X unit :=
  catch (os_mkdir p 448) (λ e,
    d ← os_lstat p;
    match d with Some n => if is_dir n then mret tt else fail e | None => fail e end).

Definition _prepare_directory (p : path) : M X unit :=
  _ ← _require_real_directory p;
  _ ← mkdir_exist_ok p;
  os_chmod p 448.

(** [unlink], unless there is nothing. *)
Definition unlink_missing_ok (p : path) : M X unit :=
  catch (os_unlink p) (λ e, match e with OSError ENOENT => mret tt | _ => fail e end).

(** [try: m finally: last] *)
Definition finally {A} (m : M X A) (last : M X unit) : M X A := λ w,
  match m w with
  | (r, w') => match last w' with (Ok _, w'') => (r, w'') | (Err e, w'') => (Err e, w'') end
  end.

Definition _write_version (p : path) : M X unit :=
  d ← os_lstat p;
  _ ← match d with Some n => if is_file n then mret tt else fail Invalid | None => mret tt end;
  id ← draw_id;
  let temporary := removelast p ++ ["." +:+ LAYOUT_VERSION_FILE +:+ "." +:+ id] in
  finally (_ ← os_create temporary 384;
           _ ← os_write temporary (utf8 (dec LAYOUT_VERSION +:+ String (ascii_of_N 10) EmptyString));
           _ ← os_rename temporary p;
           os_chmod p 384)
    (unlink_missing_ok temporary).

Definition _ensure_version : M X unit :=
  d ← os_lstat version_file;
  match d with
  | None => _write_version version_file
  | Some n =>
      match content n with
      | File data =>
          _ ← os_open version_file;
          _ ← if forallb (λ b, (0 <=? b) && (b <? 128)) data then mret tt else fail Invalid;
          match int_text (strip (string_of_list_ascii (ascii_of_N <$> (Z.to_N <$> data)))) with
          | Some v => if v =? LAYOUT_VERSION then os_chmod version_file 384 else fail Invalid
          | None => fail Invalid
          end
      | _ => fail Invalid
      end
  end.

Definition ensure_workspace_directory : M X unit :=
  _ ← _prepare_directory layout_root;
  _ ← _prepare_directory bin;
  _ensure_version.

Definition _open_root : M X unit :=
  catch (_ ← ensure_workspace_directory; _ ← os_open bin; os_chmod bin 448)
    (λ _, raise 409 "recycle_unavailable").

(** [RecycleBin(home, initialize_layout=False)], as for the bin of a storage mapping. *)
Definition storage_bin : M X unit := catch _open_root (λ _, fail Invalid).

(** ** Metadata *)

(** The time of the deletion, which only the listing shows, is left out. *)
Definition metadata_fields (id : string) (rel : path) (n : node) : list (string * json) :=
  [("version", JInt 1); ("id", JStr id); ("original_path", JStr (rel_text rel));
   ("type", JStr (if is_dir n then "directory" else "file")); ("size", JInt (FileSystem.size n))]%string.

Definition _write_metadata (e : path) (fields : list (string * json)) : M X unit :=
  _ ← os_create (e ++ [METADATA_FILE]) 384;
  os_dump (e ++ [METADATA_FILE]) fields.

(** [Path(str(metadata["original_path"]))], checked. *)
Definition _metadata_relative (fields : list (string * json)) : option path :=
  match obj_get "original_path" fields with
  | Some (JStr s) =>
      let p := to_path s in
      if bool_decide (comps p = []) || is_absolute p || bool_decide (".."%string ∈ comps p)
      then None else Some (comps p)
  | _ => None
  end.

(** The document and the relative path in it. *)
Definition _load_metadata (id : string) : M X (list (string * json) * path) :=
  n ← catch (os_open (entry id ++ [METADATA_FILE])) (λ _, raise 404 "recycle_not_found");
  match content n with
  | Doc sz fields =>
      _ ← if 64 * 1024 <? sz then fail Invalid else mret tt;
      match obj_get "version" fields, obj_get "id" fields, _metadata_relative fields with
      | Some (JInt 1), Some (JStr i), Some rel =>
          if String.eqb i id then mret (fields, rel) else fail Invalid
      | _, _, _ => fail Invalid
      end
  | _ => fail Invalid
  end.

(** Opening the directories of [rel] below [base], one after the other. *)
Fixpoint _open_relative_parent (create : bool) (base rel : path) : M X unit :=
  match rel with
  | [] => mret tt
  | c :: rel' =>
      _ ← catch (_ ← os_open (base ++ [c]); mret tt) (λ e,
            match e with
            | OSError ENOENT => if create then os_mkdir (base ++ [c]) 448 else fail e
            | _ => fail e
            end);
      _open_relative_parent create (base ++ [c]) rel'
  end.

(** Children first; [fuel] bounds the depth. *)
Fixpoint _remove_tree (fuel : nat) (p : path) : M X unit :=
  match fuel with
  | O => mret tt
  | S fuel' =>
      entries ← os_scandir p;
      _ ← for_each entries (λ e,
            if is_dir e.2 then _remove_tree fuel' (p ++ [e.1]) else os_unlink (p ++ [e.1]));
      os_rmdir p
  end.

(** A directory tree is never deeper than the number of its entries. *)
Definition remove_tree (p : path) : M X unit := λ w,
  _remove_tree (S (base.size w.(disk))) p w.

(** ** Operations *)

Definition _path_error (e : failure) : failure :=
  match e with
  | OSError ENOENT => Api (api_error 404 "path_not_found")
  | OSError _ => Api (api_error 409 "path_changed")
  | _ => e
  end.

Definition os_as (code : string) {A} (m : M X A) : M X A :=
  catch m (λ e, match e with OSError _ => raise 409 code | _ => fail e end).

Definition relative_to_workspace (p : path) : option path :=
  if under home p then Some (drop (length home) p) else None.

Definition recycle (p original : path) : M X string :=
  match relative_to_workspace original with
  | None => raise 403 "path_outside_root"
  | Some [] => raise 403 "root_protected"
  | Some rel =>
      _ ← _open_root;
      os_as "recycle_failed" (
        _ ← catch (parent [home] p) (λ e, fail (_path_error e));
        s ← os_lstat p;
        match s with
        | None => raise 404 "path_not_found"
        | Some n =>
            id ← draw_stamped;
            _ ← os_mkdir (entry id) 448;
            _ ← os_open (entry id);
            _ ← _write_metadata (entry id) (metadata_fields id rel n);
            _ ← _open_relative_parent true (entry id) (removelast rel);
            _ ← os_rename p (entry id ++ rel);
            mret id
        end)
  end.

(** [self._paths.parent(p, create_parents=True)] *)
Definition parent_created (p : path) : M X unit :=
  match anchor [home] p with
  | None => fail (OSError EPERM)
  | Some r =>
      if bool_decide (r = p) then fail (OSError EPERM)
      else _open_relative_parent true home (removelast (drop (length home) p))
  end.

Definition restore (id : string) : M X path :=
  if negb (matches RECYCLE_ID_PATTERN id) then raise 404 "recycle_not_found"
  else
    _ ← _open_root;
    os_as "restore_failed" (
      _ ← catch (os_open (entry id)) (λ _, raise 404 "recycle_not_found");
      m ← _load_metadata id;
      let rel := m.2 in
      let original := home ++ rel in
      _ ← _open_relative_parent false (entry id) (removelast rel);
      s ← os_lstat (entry id ++ rel);
      match s with
      | None => raise 404 "recycle_not_found"
      | Some _ =>
          _ ← catch (parent_created original) (λ e, fail (_path_error e));
          d ← os_lstat original;
          match d with
          | Some _ => raise 409 "restore_target_exists"
          | None =>
              _ ← os_rename (entry id ++ rel) original;
              _ ← remove_tree (entry id);
              mret original
          end
      end).

Definition purge (id : string) : M X unit :=
  if negb (matches RECYCLE_ID_PATTERN id) then raise 404 "recycle_not_found"
  else
    _ ← _open_root;
    catch (_ ← os_open (entry id); _ ← _load_metadata id; remove_tree (entry id))
      (λ e, match e with OSError _ | Invalid => raise 409 "purge_failed" | _ => fail e end).

End bin.

(** ** What the operations change *)

Section regions.
Context {X : Type} (home : path).
Abbreviation layout_root := (layout_root home).
Abbreviation entry := (entry home).
Abbreviation bin := (bin home).

(** The private layout without the entries of the bin. *)
Definition aux (k : path) : Prop :=
  under layout_root k = true ∧ ∀ id, under (entry id) k = false.

Lemma aux_child c r : c ≠ RECYCLE_DIRECTORY → aux (layout_root ++ c :: r).
Proof.
  intros Hc. split; [apply under_app|]. intros id. apply under_false. intros [s Hs].
  unfold entry, bin in Hs. rewrite <- !app_assoc in Hs. by apply app_inv_head in Hs as [= -> _].
Qed.
Lemma aux_root : aux layout_root.
Proof.
  split; [by apply under_spec|]. intros id. apply under_false. intros [s Hs].
  apply (f_equal length) in Hs. unfold entry, bin in Hs. rewrite !length_app in Hs. cbn in Hs. lia.
Qed.
Lemma aux_bin : aux bin.
Proof.
  split; [apply under_app|]. intros id. apply under_false. intros [s Hs].
  apply (f_equal length) in Hs. unfold entry in Hs. rewrite !length_app in Hs. cbn in Hs. lia.
Qed.

Lemma aux_below c r k : c ≠ RECYCLE_DIRECTORY → under (layout_root ++ c :: r) k = true → aux k.
Proof. intros Hc [s ->]%under_spec. rewrite <- app_assoc. by apply aux_child. Qed.

Lemma touches_finally {A} (m : M X A) (last : M X unit) S :
  touches m S → touches last S → touches (finally m last) S.
Proof.
  intros Hm Hl t x o Ho. unfold finally. destruct (Hm t x o Ho) as [Ho1 [Hx1 H1]].
  destruct (m (World t o x)) as [r [t1 o1 x1]]. cbn in *. subst x1.
  destruct (Hl t1 x o1 Ho1) as [Ho2 [Hx2 H2]].
  destruct (last (World t1 o1 x)) as [[[]|e] [t2 o2 x2]]; cbn in *;
    (split; [done|]; split; [done|]; intros k Hk; by rewrite H2, H1).
Qed.

Lemma touches_prepare p (S : path → Prop) : S p → touches (X:=X) (_prepare_directory p) S.
Proof. intros Hp. unfold _prepare_directory, _require_real_directory, mkdir_exist_ok. touch. Qed.

Lemma touches_write_version : touches (X:=X) (_write_version (version_file home)) aux.
Proof.
  unfold _write_version. apply touches_bind; [touch|]. intros d.
  apply touches_bind; [touch|]. intros _.
  apply touches_bind; [touch|]. intros id.
  unfold version_file. rewrite removelast_app by done. cbn [removelast]. rewrite app_nil_r.
  set (c := ("." +:+ _)%string). assert (c ≠ RECYCLE_DIRECTORY) as Hc by (intros E; by apply (f_equal (String.get 0)) in E).
  assert (aux (layout_root ++ [c])) as Ht by by apply aux_child.
  assert (LAYOUT_VERSION_FILE ≠ RECYCLE_DIRECTORY) as Hv by done.
  assert (aux (layout_root ++ [LAYOUT_VERSION_FILE])) as Hf by by apply aux_child.
  apply touches_finally; [|unfold unlink_missing_ok; touch].
  apply touches_bind; [touch|]. intros _.
  apply touches_bind; [touch|]. intros _.
  apply touches_bind; [|touch].
  apply touches_os_rename; [intros [= E]%app_inv_head; done|].
  intros k [Hk|Hk]; [exact (aux_below _ _ _ Hc Hk)|exact (aux_below _ _ _ Hv Hk)].
Qed.

Lemma touches_open_root : touches (X:=X) (_open_root home) aux.
Proof.
  unfold _open_root, ensure_workspace_directory. apply touches_catch; [|touch].
  pose proof aux_bin. pose proof aux_root.
  assert (aux (version_file home)) by by apply aux_child.
  apply touches_bind; [|touch]. apply touches_bind; [by apply touches_prepare|]. intros _.
  apply touches_bind; [by apply touches_prepare|]. intros _. unfold _ensure_version.
  apply touches_bind; [touch|]. intros [n|]; [|apply touches_write_version].
  touch.
Qed.

End regions.

(** ** Metadata read back *)

Definition plain (c : string) : Prop :=
  c ≠ ""%string ∧ c ≠ "."%string ∧ c ≠ ".."%string ∧ has_char "/" c = false.

(** A relative path as the file system has them, that does not collide with the
    metadata document. *)
Definition good_rel (rel : path) : Prop :=
  rel ≠ [] ∧ Forall plain rel ∧ head rel ≠ Some METADATA_FILE.

Lemma split_rel_text rel :
  rel ≠ [] → Forall plain rel → split_on "/" (rel_text rel) = rel.
Proof.
  intros Hne Hp. unfold rel_text. induction Hp as [|c rel (_ & _ & _ & Hc) Hp IH]; [done|].
  destruct rel as [|d rel]; [by apply split_on_none|].
  change (String.concat "/" (c :: d :: rel)) with (c +:+ String "/" (String.concat "/" (d :: rel))).
  rewrite split_on_app by done. f_equal. by apply IH.
Qed.

Lemma prefix_first c p a s :
  String.prefix (String c p) (String a s) = Ascii.eqb c a && String.prefix p s.
Proof.
  cbn [String.prefix]. destruct (Ascii.ascii_dec c a) as [->|H].
  - by rewrite Ascii.eqb_refl.
  - by rewrite (proj2 (Ascii.eqb_neq c a) H).
Qed.

Lemma rel_text_relative p rel :
  rel ≠ [] → Forall plain rel → startswith (String "/" p) (rel_text rel) = false.
Proof.
  intros Hne Hp. destruct Hp as [|c rel (H1 & _ & _ & Hc) Hp]; [done|]. unfold rel_text, startswith.
  destruct c as [|a c]; [done|]. unfold has_char in Hc. cbn [str_exists] in Hc.
  apply orb_false_iff in Hc as [Ha _].
  destruct rel as [|d rel].
  - cbn [String.concat]. by rewrite prefix_first, Ha.
  - change (String.concat "/" (String a c :: d :: rel)) with
      (String a (c +:+ String "/" (String.concat "/" (d :: rel)))). by rewrite prefix_first, Ha.
Qed.

Lemma metadata_read_back id rel n :
  rel ≠ [] → Forall plain rel → _metadata_relative (metadata_fields id rel n) = Some rel.
Proof.
  intros Hne Hp. unfold _metadata_relative, metadata_fields. cbn -[to_path].
  assert (to_path (rel_text rel) = Path "" rel) as ->.
  { unfold to_path. rewrite !rel_text_relative by done. cbn [andb]. rewrite split_rel_text by done. f_equal. clear -Hp.
    induction Hp as [|c l (? & ? & _) _ IH]; [done|]. by rewrite filter_cons_True, IH. }
  cbn. rewrite bool_decide_eq_false_2 by done. rewrite bool_decide_eq_false_2; [done|].
  intros Hin. rewrite Forall_forall in Hp. by destruct (Hp _ Hin) as (_ & _ & ? & _).
Qed.

(** ** Recycling and restoring *)

Section theorems.
Context {X : Type} (home : path).
Abbreviation layout_root := (layout_root home).
Abbreviation entry := (entry home).
Abbreviation bin := (bin home).
Abbreviation aux := (aux home).
Implicit Types (t : tree) (x : X).

(** The bin has an entry [id] for the relative path [rel], holding the tree [sub]. *)
Definition described t (id : string) (rel : path) : Prop :=
  is_Some (t !! entry id) ∧
  ∃ n sz fields, t !! (entry id ++ [METADATA_FILE]) = Some n ∧ content n = Doc sz fields ∧
    _metadata_relative fields = Some rel.
Definition stored t (id : string) (rel : path) (sub : path → option node) : Prop :=
  described t id rel ∧ ∀ r, t !! (entry id ++ rel ++ r) = sub r.

Lemma stored_agree t t' id rel sub :
  (∀ k, under (entry id) k = true → t' !! k = t !! k) → stored t id rel sub → stored t' id rel sub.
Proof.
  intros H [[Hs (n & sz & fields & Hn & Hc & Hr)] Hsub]. split.
  - split; [by rewrite H by apply under_refl|]. exists n, sz, fields.
    by rewrite H by apply under_app.
  - intros r. by rewrite H by apply under_app.
Qed.

Lemma entry_internal id k : under (entry id) k = true → under layout_root k = true.
Proof.
  intros [s ->]%under_spec. unfold Recycle.entry, Recycle.bin. rewrite <- !app_assoc. apply under_app.
Qed.

Lemma entries_apart id id' k : id ≠ id' → under (entry id) k = true → under (entry id') k = false.
Proof.
  intros Hne Hk. apply (apart_under (entry id)); [|done].
  split; apply under_false; intros [s Hs]; unfold Recycle.entry in Hs; rewrite <- app_assoc in Hs;
    apply app_inv_head in Hs; by injection Hs as ?.
Qed.

Lemma touches_open_relative create base rel (S : path → Prop) :
  (∀ n, (0 < n ≤ length rel)%nat → S (base ++ take n rel)) →
  touches (X:=X) (_open_relative_parent create base rel) S.
Proof.
  revert base. induction rel as [|c rel IH]; intros base HS; cbn [_open_relative_parent]; [touch|].
  assert (S (base ++ [c])) as H1 by (apply (HS 1%nat); cbn; lia).
  apply touches_bind; [touch|]. intros _. apply IH. intros n Hn.
  rewrite <- app_assoc. apply (HS (Datatypes.S n)). cbn. lia.
Qed.

Lemma wp_metadata e fields Q t x :
  (∀ err t', (∀ k, k ≠ e ++ [METADATA_FILE] → t' !! k = t !! k) → Q (Err err) t' x) →
  (∀ t' n sz, (∀ k, k ≠ e ++ [METADATA_FILE] → t' !! k = t !! k) →
     t' !! (e ++ [METADATA_FILE]) = Some n → content n = Doc sz fields → Q (Ok tt) t' x) →
  wp (X:=X) (_write_metadata e fields) Q t x.
Proof.
  intros Hf Hm. unfold _write_metadata. apply wp_bind, wp_create; [intros; by apply Hf|].
  intros d i now _. cbn. apply wp_dump.
  - intros err. apply Hf. intros k Hk. by rewrite lookup_insert_ne.
  - intros now' sz. eapply Hm; [intros k Hk; by rewrite lookup_alter_ne, lookup_insert_ne|
      by rewrite lookup_alter_eq, lookup_insert_eq|done].
Qed.

(** What [recycle] does when nobody interferes. *)
Record recycled (p : path) (rel : path) (t t' : tree) (r : res failure string) : Prop := {
  outside k : under layout_root k = false → under p k = false → t' !! k = t !! k;
  other_entries id k : is_Some (t !! entry id) → under (entry id) k = true → t' !! k = t !! k;
  outcome : match r with
            | Ok id => is_empty id = false ∧ t !! entry id = None ∧ is_Some (t !! p) ∧ vacant p t' ∧
                       (good_rel rel → stored t' id rel (λ s, t !! (p ++ s)))
            | Err _ => ∀ k, under p k = true → t' !! k = t !! k
            end;
  in_bin : match r with Ok id => ∀ s, t' !! (entry id ++ rel ++ s) = t !! (p ++ s) | Err _ => True end }.

(** Before the move only the bin changes. *)
Definition only_bin (t t' : tree) : Prop :=
  (∀ k, under layout_root k = false → t' !! k = t !! k) ∧
  ∀ id k, is_Some (t !! entry id) → under (entry id) k = true → t' !! k = t !! k.

Lemma only_bin_refused p rel t t' e : apart p layout_root → only_bin t t' → recycled p rel t t' (Err e).
Proof.
  intros Hp [H1 H2]. split; [by eauto..| |done]. cbn. intros k Hk. apply H1. by eapply apart_under.
Qed.

Lemma only_bin_trans t1 t2 t3 : only_bin t1 t2 → only_bin t2 t3 → only_bin t1 t3.
Proof.
  intros [A1 A2] [B1 B2]. split.
  - intros k Hk. by rewrite B1, A1.
  - intros id k Hid Hk. rewrite (B2 id), (A2 id); [done..|rewrite (A2 id); [done..|]|done].
    by apply under_spec.
Qed.

Lemma only_bin_aux t t' : (∀ k, ¬ aux k → t' !! k = t !! k) → only_bin t t'.
Proof.
  intros H. split.
  - intros k Hk. apply H. intros [? _]. congruence.
  - intros id k _ Hk. apply H. intros [_ Ha]. specialize (Ha id). congruence.
Qed.

Lemma only_bin_entry id t t' :
  t !! entry id = None → (∀ k, under (entry id) k = false → t' !! k = t !! k) → only_bin t t'.
Proof.
  intros Hn H. split.
  - intros k Hk. apply H. apply not_true_is_false. intros ?%entry_internal. congruence.
  - intros id' k Hid Hk. apply H. apply (entries_apart id'); [|done]. intros ->. rewrite Hn in Hid.
    by destruct Hid.
Qed.

(** Errors keep their outcome when they are renamed. *)
Lemma wp_rewrap {A} (m : M X A) (h : failure → M X A) (Q : res failure A → tree → X → Prop) t x :
  (∀ e t x, Q (Err e) t x → wp (h e) Q t x) → wp m Q t x → wp (catch m h) Q t x.
Proof.
  intros Hh Hm. apply wp_catch. eapply wp_mono; [exact Hm|]. intros [a|e] t' x' H; [done|by apply Hh].
Qed.

(** The move itself. *)
Lemma moved_recycled p rel t t1 t4 id n :
  apart p layout_root → rel ≠ [] → only_bin t t1 → is_empty id = false → t !! entry id = None → Some n = t1 !! p →
  (∀ k, under (entry id) k = false → t4 !! k = t1 !! k) →
  (good_rel rel → described t4 id rel) →
  recycled p rel t (move p (entry id ++ rel) t4) (Ok id).
Proof.
  intros Hp Hne [H1 H1'] Hempty Hfree Hn E4 Hdesc.
  assert (Hin : ∀ k, under (entry id ++ rel) k = true → under (entry id) k = true).
  { intros k [s ->]%under_spec. rewrite <- app_assoc. apply under_app. }
  assert (Hp' : ∀ k, under layout_root k = true → under p k = false)
    by (intros k; apply apart_under; by apply apart_sym).
  assert (Hout : ∀ k, under layout_root k = false → t4 !! k = t !! k).
  { intros k Hk. rewrite E4, H1; [done..|]. apply not_true_is_false. intros ?%entry_internal. congruence. }
  assert (Hat : ∀ k, under p k = true → t4 !! k = t !! k).
  { intros k Hk. apply Hout. by eapply apart_under. }
  assert (Hbin : ∀ r, move p (entry id ++ rel) t4 !! (entry id ++ rel ++ r) = t !! (p ++ r)).
  { intros r. rewrite app_assoc, lookup_move, under_app, drop_app_length. apply Hat, under_app. }
  split; [| | |exact Hbin].
  - intros k Hk Hpk. rewrite lookup_move_else; [by apply Hout|done|].
    apply not_true_is_false. intros ?%Hin%entry_internal. congruence.
  - intros id' k Hid' Hk. assert (id' ≠ id) by (intros ->; rewrite Hfree in Hid'; by destruct Hid').
    assert (under (entry id) k = false) by by apply (entries_apart id').
    rewrite lookup_move_else; [rewrite E4 by done; by apply (H1' id')|..].
    + by apply Hp', (entry_internal id').
    + apply not_true_is_false. intros ?%Hin. congruence.
  - split_and!; [done|done| | |].
    + rewrite <- Hat, E4, <- Hn by (apply under_refl || (apply not_true_is_false;
        intros E%entry_internal%Hp'; by rewrite under_refl in E)). eauto.
    + intros k Hk. rewrite lookup_move, Hk. destruct (under (entry id ++ rel) k) eqn:E; [|done].
      apply Hin, entry_internal, Hp' in E. congruence.
    + intros Hgood. destruct (Hdesc Hgood) as [He (nm & sz & fields & Hm & Hc & Hr)].
      split; [split|].
      * rewrite lookup_move_else; [done|apply Hp', (entry_internal id), under_refl|].
        apply under_false. intros [s E%(f_equal length)]. rewrite !length_app in E.
        destruct rel; [done|cbn in E; lia].
      * exists nm, sz, fields. split; [|done]. rewrite lookup_move_else; [done|..].
        -- apply Hp', (entry_internal id), under_app.
        -- apply under_false. intros [s E]. rewrite <- app_assoc in E. apply app_inv_head in E.
           destruct Hgood as (_ & _ & Hhead). destruct rel as [|c rel]; [done|]. by injection E as <-.
      * exact Hbin.
Qed.

(** Filling a new entry: its directory, its metadata, the parents, then the move. *)
Lemma fill_entry_spec p rel t t1 id n x :
  apart p layout_root → rel ≠ [] → only_bin t t1 → is_empty id = false → Some n = t1 !! p →
  wp (X:=X) (_ ← os_mkdir (entry id) 448;
             _ ← os_open (entry id);
             _ ← _write_metadata (entry id) (metadata_fields id rel n);
             _ ← _open_relative_parent true (entry id) (removelast rel);
             _ ← os_rename p (entry id ++ rel);
             mret id) (λ r t' x', x' = x ∧ recycled p rel t t' r) t1 x.
Proof.
  intros Hp Hne H1 Hempty Hn.
  assert (Hstop : ∀ e t', (∀ k, under (entry id) k = false → t' !! k = t1 !! k) → t1 !! entry id = None →
            x = x ∧ recycled p rel t t' (Err e)).
  { intros e t' H Hid. split; [done|]. apply only_bin_refused; [done|]. eapply only_bin_trans; [done|].
    by apply (only_bin_entry id). }
  apply wp_bind, wp_mkdir; [intros; split; [done|by apply only_bin_refused]|]. intros d Hid Hd; cbn [then_].
  set (t2 := <[entry id := d]> t1).
  assert (E2 : ∀ k, under (entry id) k = false → t2 !! k = t1 !! k).
  { intros k Hk. subst t2. rewrite lookup_insert_ne; [done|]. intros <-. by rewrite under_refl in Hk. }
  apply wp_bind, (wp_looks _ _ _ _ _ (looks_open (entry id))). intros [nd|e] _; cbn [then_]; [|by apply Hstop].
  apply wp_bind, wp_metadata.
  { intros e t' H. apply Hstop; [|done]. intros k Hk. rewrite H, E2; [done..|]. intros ->. by rewrite under_app in Hk. }
  intros t3 nm sz H3 Hnm Hsz; cbn [then_].
  apply wp_bind. eapply wp_mono; [apply (touches_open_relative true (entry id) (removelast rel)
    (λ k, ∃ m, (0 < m ≤ length (removelast rel))%nat ∧ k = entry id ++ take m (removelast rel))); by eauto|].
  intros r4 t4 x4 [-> H4].
  assert (E4 : ∀ k, under (entry id) k = false → t4 !! k = t1 !! k).
  { intros k Hk. rewrite H4, H3, E2; [done..|intros ->|intros (m & _ & ->)]; by rewrite under_app in Hk. }
  destruct r4 as [[]|e]; cbn [then_]; [|by apply Hstop].
  assert (Hfree : t !! entry id = None).
  { destruct (t !! entry id) eqn:E; [|done]. destruct H1 as [_ H1].
    by rewrite (H1 id), E in Hid by (rewrite ?E; eauto using under_refl). }
  apply wp_bind, wp_os_rename; cbn [then_]; [|by intros e; apply Hstop|].
  { intros ->. destruct Hp as [_ Hp]. by rewrite (entry_internal id) in Hp by apply under_app. }
  apply wp_ret. split; [done|]. apply (moved_recycled p rel t t1 t4 id n); try done.
  intros (_ & Hplain & Hhead). split.
  - rewrite H4, H3; [subst t2; rewrite lookup_insert_eq; by eauto|..].
    + intros E%(f_equal length). rewrite length_app in E. cbn in E. lia.
    + intros (m & Hm & E%(f_equal length)). rewrite length_app, length_take in E. lia.
  - exists nm, sz, (metadata_fields id rel n). split_and!; [|done|by apply metadata_read_back].
    rewrite H4; [done|]. intros (m & Hm & E%app_inv_head). apply Hhead.
    destruct m as [|m]; [lia|]. destruct rel as [|c [|c1 rel0]]; cbn in E; [done..|]. by injection E as <-.
Qed.

Lemma recycle_spec p original rel t x :
  apart p layout_root → relative_to_workspace home original = Some rel →
  wp (X:=X) (recycle home p original) (λ r t' x', x' = x ∧ recycled p rel t t' r) t x.
Proof.
  intros Hp Hrel. unfold recycle. rewrite Hrel.
  assert (Hstop : ∀ e t', only_bin t t' → x = x ∧ recycled p rel t t' (Err e))
    by (intros; split; [done|by apply only_bin_refused]).
  destruct rel as [|c0 rel0]; [apply wp_fail, Hstop; by split|]. set (rel := c0 :: rel0) in *.
  apply wp_bind. eapply wp_mono; [apply touches_open_root|].
  intros [[]|e] t1 x1 [-> H1%only_bin_aux]; cbn [then_]; [|by apply Hstop].
  apply wp_rewrap.
  { intros e t' x' [-> H]. destruct e; apply wp_fail; split; [done| |done| |done| |done|];
      split; by destruct H. }
  apply wp_bind, wp_catch, (wp_looks _ _ _ _ _ (looks_parent [home] p)).
  intros [[]|e] _; cbn [then_]; [|by apply wp_fail, Hstop].
  apply wp_bind, (wp_looks _ _ _ _ _ (looks_lstat p)).
  intros [[n|]|e] Hn; cbn [then_]; [|by apply wp_fail, Hstop|by apply Hstop].
  apply wp_bind, (wp_looks _ _ _ _ _ (looks_draw _)). intros r [ev ->]; cbn [then_].
  by apply (fill_entry_spec p rel t t1 _ n); [..|destruct (clock_text ev)|].
Qed.

Lemma looks_open_relative base rel : looks (X:=X) (_open_relative_parent false base rel) (λ _ _, True).
Proof.
  revert base. induction rel as [|c rel IH]; intros base; cbn [_open_relative_parent].
  { by eapply looks_weaken; [apply looks_ret|]. }
  intros t x. apply wp_bind, wp_catch, wp_bind, (wp_looks _ _ _ _ _ (looks_open _)).
  intros [n|e] _; cbn [then_]; [apply wp_ret; cbn [then_]; apply IH|].
  destruct e as [| [] | |]; by apply wp_fail.
Qed.

(** Opening directories that all exist creates none. *)
Lemma open_relative_exists base rel t x :
  walk t base = None → (∀ n, (n ≤ length rel)%nat → ∃ d, t !! (base ++ take n rel) = Some d ∧ is_dir d = true) →
  wp (X:=X) (_open_relative_parent true base rel) (λ _ t' x', t' = t ∧ x' = x) t x.
Proof.
  revert base. induction rel as [|c rel IH]; intros base Hw Hd; cbn [_open_relative_parent].
  { by apply wp_ret. }
  assert (Hw' : walk t (base ++ [c]) = None).
  { apply walk_None. intros n Hn. rewrite length_app in Hn. cbn in Hn.
    destruct (decide (n < length base)%nat).
    - rewrite take_app_le by lia. by apply walk_None.
    - rewrite take_app_length' by lia. destruct (Hd 0%nat) as (d & Hd' & ?); [lia|].
      rewrite app_nil_r in Hd'. eauto. }
  destruct (Hd 1%nat) as (d1 & Hd1 & _); [cbn; lia|]. cbn [take] in Hd1. rewrite take_0 in Hd1.
  apply wp_bind, wp_catch, wp_bind, (wp_looks _ _ _ _ _ (looks_open _)).
  intros [n|e] He; cbn [then_].
  - apply wp_ret; cbn [then_]. apply IH; [done|]. intros m Hm. rewrite <- app_assoc.
    apply (Hd (S m)). cbn. lia.
  - destruct e as [| [] | |]; try by apply wp_fail. destruct (proj2 He eq_refl) as [?|[? ?]]; congruence.
Qed.

Lemma looks_load_metadata id :
  looks (X:=X) (_load_metadata home id)
    (λ t r, match r with Ok m => ∀ rel, described t id rel → m.2 = rel | Err _ => True end).
Proof.
  intros t x. apply wp_bind, wp_catch, (wp_looks _ _ _ _ _ (looks_open _)).
  intros [n|e] Hn; cbn [then_]; [|by apply wp_fail]. destruct Hn as [Hn _].
  destruct (content n) as [|sz fields| |] eqn:Ec; try by apply wp_fail.
  apply wp_bind. destruct (_ <? sz); [by apply wp_fail|]. apply wp_ret. cbn [then_].
  destruct (obj_get "version" fields) as [[| |v| | | |]|]; try by apply wp_fail.
  destruct v as [|[]|]; try by apply wp_fail.
  destruct (obj_get "id" fields) as [[| | | |i| |]|]; try by apply wp_fail.
  destruct (_metadata_relative fields) as [rel|] eqn:Er; [|by apply wp_fail].
  destruct (String.eqb i id); [|by apply wp_fail]. apply wp_ret. split_and!; [done..|].
  intros rel' (_ & n' & sz' & fields' & Hn' & Hc' & Hr'). cbn. congruence.
Qed.

Lemma touches_remove_tree p : touches (X:=X) (remove_tree p) (λ k, under p k = true).
Proof.
  assert (∀ fuel q, under p q = true → touches (X:=X) (_remove_tree fuel q) (λ k, under p k = true)) as H.
  { induction fuel as [|fuel IH]; intros q Hq; cbn [_remove_tree]; [touch|].
    assert (∀ c, under p (q ++ [c]) = true) as Hc.
    { intros c. apply under_spec in Hq as [s ->]. rewrite <- app_assoc. apply under_app. }
    touch. }
  intros t x o Ho. unfold remove_tree. by apply (H _ p (under_refl p)).
Qed.

Lemma touches_storage_bin : touches (X:=X) (storage_bin home) aux.
Proof. apply touches_catch; [apply touches_open_root|]. touch. Qed.

(** Opening the bin first makes no difference to what [recycle] does. *)
Lemma aux_entry id k : under (entry id) k = true → ¬ aux k.
Proof. intros Hk [_ Ha]. specialize (Ha id). congruence. Qed.

Lemma aux_apart p k : apart p layout_root → under p k = true → ¬ aux k.
Proof. intros Hp Hk [Ha _]. by rewrite (apart_under _ _ _ Hp Hk) in Ha. Qed.

Lemma recycled_opened p rel t t1 t' r :
  apart p layout_root → (∀ k, ¬ aux k → t1 !! k = t !! k) → recycled p rel t1 t' r → recycled p rel t t' r.
Proof.
  intros Hp H1 [Hout Hoth Hres Hin].
  assert (Hat : ∀ k, under p k = true → t1 !! k = t !! k) by (intros k Hk; by apply H1, (aux_apart p)).
  assert (Hen : ∀ id k, under (entry id) k = true → t1 !! k = t !! k) by (intros id k Hk; by eapply H1, aux_entry).
  split.
  - intros k Hk Hpk. rewrite Hout, H1; [done| |done..]. intros [? _]. congruence.
  - intros id k Hid Hk. rewrite (Hoth id), (Hen id); [done..| |done]. by rewrite (Hen id) by apply under_refl.
  - destruct r as [id|e]; [|intros k Hk; by rewrite Hres, Hat].
    rewrite <- (Hen id), <- (Hat p) by apply under_refl. destruct Hres as (? & ? & ? & ? & Hst).
    split_and!; [done..|]. intros Hg. destruct (Hst Hg) as [Hd Hs]. split; [done|].
    intros q. by rewrite Hs, Hat by apply under_app.
  - destruct r as [id|e]; [|done]. intros s. by rewrite Hin, Hat by apply under_app.
Qed.

(** What [restore] does when nobody interferes and the directories above the
    original path are still there. *)
Record restored (id : string) (rel : path) (sub : path → option node) (t t' : tree)
    (r : res failure path) : Prop := {
  elsewhere k : under layout_root k = false → under (home ++ rel) k = false → t' !! k = t !! k;
  kept_entries id' k : id' ≠ id → under (entry id') k = true → t' !! k = t !! k;
  back : match r with
         | Ok o => o = home ++ rel ∧ ∀ s, t' !! (home ++ rel ++ s) = sub s
         | Err _ => (∀ s, t' !! (home ++ rel ++ s) = sub s) ∨
                    stored t' id rel sub ∧ ∀ k, under (home ++ rel) k = true → t' !! k = t !! k
         end }.

Lemma moved_restored id rel sub t t1 t6 o :
  apart (home ++ rel) layout_root → stored t1 id rel sub → (∀ k, ¬ aux k → t1 !! k = t !! k) →
  (∀ k, under (entry id) k ≠ true → t6 !! k = move (entry id ++ rel) (home ++ rel) t1 !! k) →
  (∀ p, o = Ok p → p = home ++ rel) → restored id rel sub t t6 o.
Proof.
  intros Hap [_ Hsub] H1 H6 Ho.
  assert (Hin : ∀ k, under (entry id ++ rel) k = true → under (entry id) k = true).
  { intros k [s ->]%under_spec. rewrite <- app_assoc. apply under_app. }
  assert (Hap' : ∀ k, under (home ++ rel) k = true → under layout_root k = false)
    by (intros k; by apply apart_under).
  split.
  - intros k Hk Hok. assert (under (entry id) k ≠ true) by (intros ?%entry_internal; congruence).
    rewrite H6, lookup_move_else, H1; [done|intros [? _]; congruence| |done|done].
    apply not_true_is_false. intros ?%Hin. done.
  - intros id' k Hne Hk. assert (under (entry id) k = false) as He by by apply (entries_apart id').
    assert (under layout_root k = true) by by apply (entry_internal id').
    rewrite H6, lookup_move_else, H1; [done|intros [_ Ha]; specialize (Ha id'); congruence| | |congruence].
    + apply not_true_is_false. intros ?%Hin. congruence.
    + apply not_true_is_false. intros ?%Hap'. congruence.
  - assert (∀ s, t6 !! (home ++ rel ++ s) = sub s) as Hback; cycle 1.
    { destruct o as [p|]; [split; [by apply Ho|done]|by left]. }
    intros s. rewrite H6 by (intros E%entry_internal; by rewrite app_assoc, Hap' in E by apply under_app).
    rewrite app_assoc, lookup_move, under_app, drop_app_length, <- app_assoc. apply Hsub.
Qed.

Lemma walk_removelast rel t x :
  rel ≠ [] → walk t (home ++ rel) = None →
  wp (X:=X) (_open_relative_parent true home (removelast rel)) (λ _ t' x', t' = t ∧ x' = x) t x.
Proof.
  intros Hne Hw. rewrite walk_None in Hw.
  assert (length rel ≠ 0%nat) by by destruct rel.
  apply open_relative_exists.
  - apply walk_None. intros n Hn. specialize (Hw n). rewrite take_app_le in Hw by lia.
    apply Hw. rewrite length_app. lia.
  - intros n Hn. rewrite removelast_firstn_len in Hn |- *. rewrite length_take in Hn.
    rewrite take_take, Nat.min_l by lia.
    specialize (Hw (length home + n)%nat). rewrite take_app_add in Hw. apply Hw. rewrite length_app. lia.
Qed.

Lemma restore_spec id rel sub t x :
  rel ≠ [] → apart (home ++ rel) layout_root → walk t (home ++ rel) = None → stored t id rel sub →
  wp (X:=X) (restore home id) (λ r t' x', x' = x ∧ restored id rel sub t t' r) t x.
Proof.
  intros Hne Hap Hw Hst. unfold restore.
  assert (Hstop : ∀ e t', (∀ k, ¬ aux k → t' !! k = t !! k) → x = x ∧ restored id rel sub t t' (Err e)).
  { intros e t' H. split; [done|]. split; [| |right; split].
    - intros k Hk _. apply H. intros [? _]. congruence.
    - intros id' k _ Hk. apply H. intros [_ Ha]. specialize (Ha id'). congruence.
    - eapply stored_agree; [|exact Hst]. intros k Hk. apply H. intros [_ Ha]. specialize (Ha id). congruence.
    - intros k Hk. apply H. intros [Ha _]. by rewrite (apart_under _ _ _ Hap Hk) in Ha. }
  destruct (negb (matches _ id)); [by apply wp_fail, Hstop|].
  apply wp_bind. eapply wp_mono; [apply touches_open_root|].
  intros [[]|e] t1 x1 [-> H1]; cbn [then_]; [|by apply Hstop].
  assert (Hst1 : stored t1 id rel sub).
  { eapply stored_agree; [|exact Hst]. intros k Hk. apply H1. intros [_ Ha]. specialize (Ha id). congruence. }
  apply wp_rewrap.
  { intros e t' x' [-> H]. destruct e; apply wp_fail; split; [done| |done| |done| |done|];
      split; by destruct H. }
  apply wp_bind, wp_catch, (wp_looks _ _ _ _ _ (looks_open _)).
  intros [nd|e] _; cbn [then_]; [|by apply wp_fail, Hstop].
  apply wp_bind, (wp_looks _ _ _ _ _ (looks_load_metadata id)).
  intros [m|e] Hm; cbn [then_]; [|by apply Hstop]. cbv zeta.
  rewrite (Hm rel (proj1 Hst1)). clear Hm m.
  apply wp_bind, (wp_looks _ _ _ _ _ (looks_open_relative _ _)).
  intros [[]|e] _; cbn [then_]; [|by apply Hstop].
  apply wp_bind, (wp_looks _ _ _ _ _ (looks_lstat _)).
  intros [[s|]|e] _; cbn [then_]; [|by apply wp_fail, Hstop|by apply Hstop].
  apply wp_bind, wp_catch. eapply (wp_mono _ (λ _ t' x', t' = t1 ∧ x' = x)); [|].
  { unfold parent_created. destruct (anchor _ _) as [r|]; [|by apply wp_fail].
    destruct (bool_decide _); [by apply wp_fail|]. rewrite drop_app_length.
    apply walk_removelast; [done|]. apply (walk_agree t); [|done]. intros n Hn. apply H1. intros [Ha _].
    destruct Hap as [_ Hap]. apply under_false in Hap. apply under_spec in Ha. apply Hap.
    by rewrite Ha, prefix_take. }
  intros [[]|e] ? ? [-> ->]; cbn [then_]; [|by apply wp_fail, Hstop].
  apply wp_bind, (wp_looks _ _ _ _ _ (looks_lstat _)).
  intros [[d|]|e] _; cbn [then_]; [by apply wp_fail, Hstop| |by apply Hstop].
  assert (Hn : entry id ++ rel ≠ home ++ rel).
  { intros E%(f_equal length). unfold Recycle.entry, Recycle.bin, Recycle.layout_root in E.
    rewrite !length_app in E. cbn in E. lia. }
  apply wp_bind, wp_os_rename; cbn [then_]; [done|intros; by apply Hstop|].
  apply wp_bind. eapply wp_mono; [apply touches_remove_tree|].
  intros r t6 x6 [-> H6]. assert (Hres : ∀ o, (∀ p, o = Ok p → p = home ++ rel) →
    restored id rel sub t t6 o) by (intros o; by apply (moved_restored id rel sub t t1 t6)).
  destruct r as [[]|e]; cbn [then_]; [apply wp_ret|]; (split; [done|]; apply Hres); naive_solver.
Qed.


Lemma restored_opened id rel sub t t1 t' r :
  apart (home ++ rel) layout_root → (∀ k, ¬ aux k → t1 !! k = t !! k) →
  restored id rel sub t1 t' r → restored id rel sub t t' r.
Proof.
  intros Hap H1 [Helse Hkept Hback]. split.
  - intros k Hk Hr. rewrite Helse, H1; [done| |done..]. intros [? _]. congruence.
  - intros id' k Hne Hk. rewrite (Hkept id'), H1; [done|by eapply aux_entry|done..].
  - destruct r as [o|e]; [done|]. destruct Hback as [?|[Hst Hs]]; [by left|right]. split; [done|].
    intros k Hk. rewrite Hs, H1; [done|by eapply aux_apart|done].
Qed.

(** The bin of a storage mapping. *)
Lemma storage_recycle_spec p original rel t x :
  apart p layout_root → relative_to_workspace home original = Some rel →
  wp (X:=X) (_ ← storage_bin home; recycle home p original) (λ r t' x', x' = x ∧ recycled p rel t t' r) t x.
Proof.
  intros Hp Hrel. apply wp_bind. eapply wp_mono; [apply touches_storage_bin|].
  intros [[]|e] t1 x1 [-> H1]; cbn [then_].
  - eapply wp_mono; [by apply recycle_spec|]. intros r t' x' [-> H]. split; [done|]. by eapply recycled_opened.
  - split; [done|]. by apply only_bin_refused, only_bin_aux.
Qed.

Lemma storage_recycle_outside p original rel t x :
  apart p layout_root → relative_to_workspace home original = None →
  wp (X:=X) (_ ← storage_bin home; recycle home p original)
    (λ r t' x', x' = x ∧ ∃ e, r = Err e ∧ recycled p rel t t' r) t x.
Proof.
  intros Hp Hrel. apply wp_bind. eapply wp_mono; [apply touches_storage_bin|].
  intros r t1 x1 [-> H1]. assert (∀ e, recycled p rel t t1 (Err e)) by (intros; by apply only_bin_refused, only_bin_aux).
  destruct r as [[]|e]; cbn [then_]; [|by eauto]. unfold recycle. rewrite Hrel. apply wp_fail. by eauto.
Qed.

Lemma storage_restore_spec id rel sub t x :
  rel ≠ [] → apart (home ++ rel) layout_root → walk t (home ++ rel) = None → stored t id rel sub →
  wp (X:=X) (_ ← storage_bin home; restore home id) (λ r t' x', x' = x ∧ restored id rel sub t t' r) t x.
Proof.
  intros Hne Hap Hw Hst. apply wp_bind. eapply wp_mono; [apply touches_storage_bin|].
  intros r t1 x1 [-> H1].
  assert (Hst1 : stored t1 id rel sub) by (eapply stored_agree; [|exact Hst]; intros k Hk; by eapply H1, aux_entry).
  destruct r as [[]|e]; cbn [then_].
  - eapply wp_mono; [apply (restore_spec id rel sub); try done|intros r t' x' [-> H]; split; [done|by eapply restored_opened]].
    apply (walk_agree t); [|done]. intros n Hn. apply H1. intros [Ha _].
    destruct Hap as [_ Hap]. apply under_false in Hap. apply under_spec in Ha. apply Hap. by rewrite Ha, prefix_take.
  - split; [done|]. eapply restored_opened; [done..|]. split; [done..|]. right. by split.
Qed.

Lemma run_wp {A} (m : M X A) Q w :
  Forall alone (oracle w) → wp m Q (disk w) (local w) →
  Forall alone (oracle (m w).2) ∧ Q (m w).1 (disk (m w).2) (local (m w).2).
Proof. intros Ho H. destruct w as [t o x]. by apply H. Qed.

(** ** Removing a tree ends *)

(** With calls that do not fail, [m] returns [a] and leaves [t']. *)
Definition quiet (ev : event) : Prop := (∀ t, others ev t = t) ∧ fault ev = None.
Definition returns {A : Type} (m : M X A) (t : tree) (a : A) (t' : tree) : Prop :=
  ∀ o x, Forall quiet o → ∃ o', Forall quiet o' ∧ m (World t o x) = (Ok a, World t' o' x).

Lemma returns_bind {A B : Type} (m : M X A) (f : A → M X B) t a t1 b t2 :
  returns m t a t1 → returns (f a) t1 b t2 → returns (m ≫= f) t b t2.
Proof.
  intros Hm Hf o x Ho. destruct (Hm o x Ho) as (o1 & Ho1 & E). unfold mbind, M_bind. rewrite E. by apply Hf.
Qed.

Lemma returns_call {A : Type} (op : event → tree → res errno A * tree) t a t' :
  (∀ ev, op ev t = (Ok a, t')) → returns (call op) t a t'.
Proof.
  intros H o x Ho. exists (tail o). split; [by destruct Ho|]. unfold call. cbn.
  assert (quiet (default calm (head o))) as [Hid Hf] by (by destruct Ho). by rewrite Hid, Hf, H.
Qed.

Definition children (p : path) (t : tree) : list (string * node) :=
  omap (λ e, match drop (length p) e.1 with
             | [c] => if under p e.1 then Some (c, e.2) else None
             | _ => None
             end) (map_to_list t).

Lemma children_of t p c n :
  (c, n) ∈ children p t ↔ t !! (p ++ [c]) = Some n.
Proof.
  unfold children. rewrite list_elem_of_omap. split.
  - intros ([k m] & Hk%elem_of_map_to_list & E). cbn in E.
    destruct (drop (length p) k) as [|c' [|? ?]] eqn:Ed; [done| |done].
    destruct (under p k) eqn:Hu; [|done]. injection E as <- <-. by rewrite (under_split _ _ Hu), Ed in Hk.
  - intros Hn%elem_of_map_to_list. exists (p ++ [c], n). split; [done|]. cbn.
    by rewrite drop_app_length, under_app.
Qed.

(** The tree without the children [cs] of [p]. *)
Definition without (p : path) (cs : list (string * node)) (t : tree) : tree :=
  foldl (λ t e, remove (p ++ [e.1]) t) t cs.

Lemma lookup_without p cs t k :
  without p cs t !! k = if existsb (λ e, under (p ++ [e.1]) k) cs then None else t !! k.
Proof.
  unfold without. revert t. induction cs as [|e cs IH]; intros t; [done|]. cbn. rewrite IH, lookup_remove.
  by destruct (existsb _ cs), (under (p ++ [e.1]) k).
Qed.

Lemma children_names p t : NoDup (children p t).*1.
Proof.
  unfold children. pose proof (NoDup_fst_map_to_list t) as H. revert H.
  induction (map_to_list t) as [|[k n] l IH]; cbn; [constructor|]. intros [Hk Hl]%NoDup_cons. specialize (IH Hl).
  destruct (drop (length p) k) as [|c [|? ?]] eqn:Ed; [done| |done]. destruct (under p k) eqn:Hu; [|done].
  cbn. apply NoDup_cons. split; [|done].
  intros ([c' m] & -> & ([k' m'] & Hin & E)%list_elem_of_omap)%list_elem_of_fmap. cbn in *.
  destruct (drop (length p) k') as [|c'' [|? ?]] eqn:Ed'; [done| |done].
  destruct (under p k') eqn:Hu'; [|done]. injection E as -> ->. apply Hk.
  rewrite (under_split _ _ Hu), Ed, <- Ed', <- (under_split _ _ Hu'). by apply (list_elem_of_fmap_2 fst _ (k', m)).
Qed.

(** Children already removed do not cover the next one. *)
Lemma sibling_left p (cs : list (string * node)) (e : string * node) t :
  e.1 ∉ cs.*1 → without p cs t !! (p ++ [e.1]) = t !! (p ++ [e.1]).
Proof.
  intros Hn. rewrite lookup_without. destruct (existsb _ cs) eqn:E; [|done].
  apply existsb_exists in E as (e' & Hin & Hu). apply under_spec in Hu. destruct Hn.
  destruct Hu as [r E%(f_equal (drop (length p)))]. rewrite <- app_assoc, !drop_app_length in E.
  injection E as -> _. by apply list_elem_of_fmap_2, list_elem_of_In.
Qed.

Lemma grown_without p (cs : list (string * node)) t : grown t → grown (without p cs t).
Proof. unfold without. revert t. induction cs as [|e cs IH]; intros t Hg; cbn; [done|]. by apply IH, grown_remove. Qed.

Lemma without_snoc p cs (e : string * node) t : without p (cs ++ [e]) t = remove (p ++ [e.1]) (without p cs t).
Proof. unfold without. by rewrite foldl_app. Qed.

Lemma returns_for_each p (f : string * node → M X unit) l t :
  (∀ cs e rest, l = cs ++ e :: rest → returns (f e) (without p cs t) tt (without p (cs ++ [e]) t)) →
  returns (for_each l f) t tt (without p l t).
Proof.
  intros Hf. assert (∀ rest cs, l = cs ++ rest → returns (for_each rest f) (without p cs t) tt (without p l t)) as H;
    [|by apply (H l [])].
  induction rest as [|e rest IH]; intros cs ->; cbn [for_each].
  - rewrite app_nil_r. intros o x Ho. by exists o.
  - eapply returns_bind; [by apply (Hf cs e rest)|]. apply IH. by rewrite <- app_assoc.
Qed.

(** Without its children a directory is empty. *)
Lemma childless p d t :
  grown t → t !! p = Some d → let t' := without p (children p t) t in
  t' !! p = Some d ∧ occupied_below p t' = false ∧ delete p t' = remove p t.
Proof.
  intros Hg Hd t'. assert (∀ e, under (p ++ [e]) p = false) as Hself.
  { intros e. apply under_false. intros Hl%prefix_length. rewrite length_app in Hl. cbn in Hl. lia. }
  assert (∀ k, under p k = true → k ≠ p → t' !! k = None) as Hgone.
  { intros k Hu Hne. subst t'. rewrite lookup_without. destruct (existsb _ _) eqn:E; [done|].
    destruct (t !! k) as [n|] eqn:Hk; [|done]. exfalso. rewrite (under_split _ _ Hu) in Hk, Hne.
    destruct (drop (length p) k) as [|c r] eqn:Ed; [by rewrite app_nil_r in Hne|].
    assert (is_Some (t !! (p ++ [c]))) as [m Hm].
    { destruct (decide (r = [])) as [->|Hr]; [by eauto|].
      destruct (grown_prefix t (p ++ [c]) (p ++ c :: r)) as (m & Hm & _); [done| | |by eauto|by eauto].
      - exists r. by rewrite <- app_assoc.
      - intros E'%app_inv_head. by injection E'. }
    apply children_of in Hm. apply not_true_iff_false in E. apply E, existsb_exists. exists (c, m).
    split; [by apply list_elem_of_In|]. rewrite (under_split _ _ Hu), Ed. cbn.
    apply under_spec. exists r. by rewrite <- app_assoc. }
  assert (t' !! p = Some d) as Hp.
  { subst t'. rewrite lookup_without. destruct (existsb _ _) eqn:E; [|done].
    apply existsb_exists in E as (e & _ & E). by rewrite Hself in E. }
  split_and!; [done| |].
  - destruct (occupied_below p t') eqn:E; [|done]. apply existsb_exists in E as ([k n] & Hin & Hb).
    apply andb_true_iff in Hb as [Hu Hb]. apply negb_true_iff, bool_decide_eq_false in Hb.
    apply list_elem_of_In, elem_of_map_to_list in Hin. cbn in *. by rewrite Hgone in Hin.
  - apply map_eq. intros k. rewrite lookup_remove. destruct (decide (k = p)) as [->|Hne].
    { by rewrite lookup_delete_eq, under_refl. }
    rewrite lookup_delete_ne by done. destruct (under p k) eqn:Hu; [by apply Hgone|].
    subst t'. rewrite lookup_without. destruct (existsb _ _) eqn:E; [|done].
    apply existsb_exists in E as (e & _ & E). apply under_spec in E. apply under_false in Hu. destruct Hu.
    etrans; [|exact E]. by eexists.
Qed.

Lemma remove_tree_fuel fuel p d t :
  grown t → t !! p = Some d → is_dir d = true →
  (∀ k, is_Some (t !! k) → under p k = true → (length k < length p + fuel)%nat) →
  returns (_remove_tree fuel p) t tt (remove p t).
Proof.
  revert p d t. induction fuel as [|fuel IH]; intros p d t Hg Hd Hdir Hlen.
  { specialize (Hlen p). rewrite Hd, under_refl in Hlen. specialize (Hlen ltac:(by eauto) eq_refl). lia. }
  cbn [_remove_tree]. apply (returns_bind _ _ _ (children p t) t).
  { apply returns_call. intros ev. by rewrite Hd, Hdir. }
  destruct (childless p d t Hg Hd) as (Hp & Hempty & Hrm).
  apply (returns_bind _ _ _ tt (without p (children p t) t)).
  - apply returns_for_each. intros cs [c n] rest E. rewrite without_snoc. cbn [fst snd].
    set (t1 := without p cs t). assert (grown t1) as Hg1 by by apply grown_without.
    assert (t1 !! (p ++ [c]) = Some n) as Hn.
    { subst t1. rewrite (sibling_left p cs (c, n)); cbn [fst].
      - apply children_of. rewrite E. set_solver.
      - pose proof (children_names p t) as Hnd. rewrite E, fmap_app in Hnd. apply NoDup_app in Hnd as (_ & Hnd & _).
        intros Hc. apply (Hnd c Hc). by left. }
    destruct (is_dir n) eqn:Hdn.
    + apply (IH _ n); [done..|]. intros k Hk Hu. rewrite length_app. cbn.
      assert (is_Some (t !! k)) as Hk' by (subst t1; rewrite lookup_without in Hk; destruct (existsb _ cs); [by destruct Hk|done]).
      specialize (Hlen k Hk'). assert (under p k = true) as Hup.
      { apply under_spec in Hu. apply under_spec. etrans; [|exact Hu]. by eexists. }
      specialize (Hlen Hup). lia.
    + apply returns_call. intros ev. rewrite grown_walk by (rewrite ?Hn; eauto). rewrite Hn, Hdn.
      by rewrite (grown_leaf _ n).
  - rewrite <- Hrm. apply returns_call. intros ev.
    rewrite grown_walk by (try apply grown_without; rewrite ?Hp; eauto). by rewrite Hp, Hdir, Hempty.
Qed.

(** Removing an entry of the bin terminates with exactly that subtree gone: in a
    directory tree, when no call fails, [remove_tree] returns and leaves every path
    outside the removed directory as it was; the recursion never runs out of the
    depth it was given. *)
Theorem remove_tree_terminates p d t :
  grown t → t !! p = Some d → is_dir d = true →
  returns (remove_tree p) t tt (remove p t).
Proof.
  intros Hg Hd Hdir o x Ho. unfold remove_tree. cbn [disk].
  apply (remove_tree_fuel _ p d); [done..| |done]. intros k Hk _. pose proof (grown_depth t k Hg Hk). lia.
Qed.


End theorems.

(** ** A workspace *)

Module Sample.

Definition dir : node := Node 1 1 0 448 (Dir 4096).
Definition file (i : Z) (s : string) : node := Node 1 i 7 420 (File (utf8 s)).
Definition home : path := ["w"]%string.
Definition disk : tree := list_to_map
  [([], dir); (["w"], dir); (["w"; ".openkapsel"], dir); (["w"; ".openkapsel"; "recycle"], dir);
   (["w"; ".openkapsel"; "layout-version"], file 9 "1"); (["w"; "d"], dir); (["w"; "d"; "a"], file 2 "one two");
   (["w"; METADATA_FILE], file 4 "{}")]%string.
Definition rid : string := "20240101T000000.000000Z-0123abcd".
Definition events : list event := replicate 60 (Event id None 0 5 6 4096 100 "20240101T000000.000000Z" "0123abcd").
Definition start : world unit := World disk events tt.

Lemma events_alone : Forall alone events.
Proof. by apply Forall_replicate. Qed.

(** A file at the top of the workspace that has the name of the metadata document
    replaces that document when it is recycled: the bin can no longer restore it. *)
Example metadata_name_clobbered :
  let w := recycle home (home ++ [METADATA_FILE]) (home ++ [METADATA_FILE]) start in
  w.1 = Ok rid ∧ (restore home rid w.2).1 = Err Invalid.
Proof. split; vm_compute; reflexivity. Qed.

(** Any other name comes back. *)
Example restored_in_place :
  let w := recycle home (home ++ ["d"]%string) (home ++ ["d"]%string) start in
  w.1 = Ok rid ∧ (restore home rid w.2).1 = Ok (home ++ ["d"]%string).
Proof. split; vm_compute; reflexivity. Qed.

End Sample.

