(* ===== verification/Mutation.v ===== *)
(** * Mutation: multi-file transactions

    Models [execute_mutation] of src/openkapsel/files/mutation.py: planning with
    entity tags, staging, publication by exclusive renames, recycling of deleted
    paths, rollback and cleanup, on the trees of FileSystem.  The transaction's
    own state (the mutable fields of its plans) survives exceptions. *)

From Stdlib Require Import ZArith QArith Lia Ascii String.
From stdpp Require Import base tactics list list_numbers gmap strings fin_maps.
From S2P Require Import Prelude Hashing TextEdit FileSystem Recycle.

Local Open Scope Z_scope.
Abbreviation path := FileSystem.path.

Definition STANDARD_FILE_MAX_BYTES : Z := 32 * 1024 * 1024.
Definition MUTATION_MAX_STAGED_BYTES : Z := 256 * 1024 * 1024.
Definition MUTATION_MAX_ITEMS : Z := 1000.
Definition MUTATION_OPERATIONS : list string :=
  ["text.replace"; "text.insert_before"; "text.insert_after"; "structured.patch"; "file.create";
   "file.replace"; "path.delete"]%string.
Definition ENCODINGS : list string :=
  ["utf-8"; "utf-8-sig"; "utf-16-le"; "utf-16-be"; "ascii"; "iso8859-1"; "cp1252"; "gbk"; "gb18030";
   "big5"; "shift_jis"]%string.

(** ** Plans: [MutationPlan], the fixed fields and the ones the commit updates *)

Record plan := Plan {
  index : nat; requested_path : string; target : path; operation : string;
  expected_etag : option string; before_etag : option string; data : bytes; mode : Z;
  replacements : Z; changed : bool; deleted : bool }.

Record progress := Progress {
  stage : option path; backup : option path; published : bool; published_etag : option string;
  backed_up : bool; recycle_id : option string; recycle_root : option string }.
Definition fresh : progress := Progress None None false None false None None.

Record txn := Txn { plans : list progress; preserve_artifacts : bool }.

Definition set_stage (p : path) (g : progress) : progress :=
  Progress (Some p) (backup g) (published g) (published_etag g) (backed_up g) (recycle_id g) (recycle_root g).
Definition set_backup (p : path) (g : progress) : progress :=
  Progress (stage g) (Some p) (published g) (published_etag g) (backed_up g) (recycle_id g) (recycle_root g).
Definition set_published (b : bool) (g : progress) : progress :=
  Progress (stage g) (backup g) b (published_etag g) (backed_up g) (recycle_id g) (recycle_root g).
Definition set_published_etag (e : string) (g : progress) : progress :=
  Progress (stage g) (backup g) (published g) (Some e) (backed_up g) (recycle_id g) (recycle_root g).
Definition set_backed_up (b : bool) (g : progress) : progress :=
  Progress (stage g) (backup g) (published g) (published_etag g) b (recycle_id g) (recycle_root g).
Definition set_recycled (id : option string) (root : option string) (g : progress) : progress :=
  Progress (stage g) (backup g) (published g) (published_etag g) (backed_up g) id root.

(** ** Names of the transaction's own files, beside the target *)

Definition txn_suffix (id : string) (i : nat) : string := id +:+ "-" +:+ dec (Z.of_nat i).
Definition with_name (p : path) (n : string) : path := removelast p ++ [n].
Definition name (p : path) : string := default ""%string (last p).
Definition stage_path (p : path) (id : string) (i : nat) : path :=
  with_name p ("." +:+ name p +:+ ".openkapsel-put-txn-" +:+ txn_suffix id i).
Definition backup_path (p : path) (id : string) (i : nat) : path :=
  with_name p ("." +:+ name p +:+ ".openkapsel-transfer-txn-" +:+ txn_suffix id i).

(** What a request answers. *)
Inductive answer :=
| DryRun (planned : list plan)
| Committed (planned : list plan) (final : list progress).

Section mutation.
(** The handler: authorised roots and workspace, path resolution with the token's
    rules, storage mappings (the root and the name of the mapping that holds a
    path, and its access check), and the configured batch limit. *)
Context (roots : list path) (token_scope_root : path)
  (_resolve_path : string → res ApiError path)
  (_authorize_external_recycle : path → bool)
  (mapping_at_path : path → option (path * string))
  (check_path : path → option ApiError)
  (max_batch_file_operations : Z).
(** Python's codecs, the bytes of JSON documents, and structured edits. *)
Context (codec_name : string → option string)
  (encode : string → text → option bytes) (decode : string → bytes → option text)
  (json_bytes : list (string * json) → bytes)
  (_apply_structured_patch : text → path → list (string * json) → res ApiError text).

Abbreviation M := (M txn).
Abbreviation _file_stat := (_file_stat (X:=txn) roots).
Abbreviation rename := (rename (X:=txn) roots).

Definition progress_of (p : plan) : M progress :=
  x ← get_local; mret (default fresh (plans x !! index p)).
Definition update (p : plan) (f : progress → progress) : M unit :=
  set_local (λ x, Txn (alter f (index p) (plans x)) (preserve_artifacts x)).

(** ** Reading *)

Definition bytes_of (n : node) : bytes :=
  match content n with File d => d | Doc _ f => json_bytes f | _ => [] end.

Definition _check_expected_etag (supplied current : string) : M unit :=
  raise_when (negb (String.eqb supplied "*" || String.eqb supplied current)) 412 "etag_mismatch".

Definition require_standard_file_size (n : node) : M unit :=
  raise_when (STANDARD_FILE_MAX_BYTES <? size n) 413 "large_file_api_required".

Definition _required_exact_etag (item : list (string * json)) : M string :=
  match obj_get_or "expected_etag" JNull item with
  | JStr v =>
      if is_empty v || String.eqb v "*" || has_char (ascii_of_N 13) v || has_char (ascii_of_N 10) v
         || has_char "," v
      then raise 400 "invalid_request" else mret v
  | _ => raise 400 "invalid_request"
  end.

Definition _missing (p : path) : M bool :=
  catch (_ ← _file_stat p; mret false) (λ e,
    match e with
    | Api a => if String.eqb (error_code a) "path_not_found" then mret true else fail e
    | _ => fail e
    end).

(** [fstat] of the open file: its node, or the one it was opened as. *)
Definition stream_stat (p : path) (opened : node) : M node :=
  d ← os_lstat p; mret (default opened d).

Definition _read_regular_bytes (p : path) (expected : string) : M (bytes * node) :=
  before ← _file_stat p;
  _ ← check_deadline;
  _ ← raise_when (negb (is_file before)) 400 "not_a_file";
  _ ← require_standard_file_size before;
  _ ← _check_expected_etag expected (_stat_etag before);
  let raw := take (Z.to_nat (STANDARD_FILE_MAX_BYTES + 1)) (bytes_of before) in
  after ← stream_stat p before;
  _ ← raise_when (negb (String.eqb (_stat_etag before) (_stat_etag after))) 409 "path_changed";
  _ ← raise_when (STANDARD_FILE_MAX_BYTES <? Z.of_nat (length raw)) 413 "large_file_api_required";
  current ← _file_stat p;
  _ ← _check_expected_etag expected (_stat_etag current);
  mret (raw, current).

Definition _digest_path (p : path) : M string :=
  n ← _file_stat p; mret (hex (Sha256.sha256 (bytes_of n))).

(** ** Planning one item *)

Definition text_encoding (v : json) : M string :=
  match v with
  | JStr s =>
      match (if (slen s <=? 64) && str_forall (λ c, Prelude.code c <? 128) s
             then codec_name s else None) with
      | Some c => if bool_decide (c ∈ ENCODINGS) then mret c else raise 400 "invalid_encoding"
      | None => raise 400 "invalid_encoding"
      end
  | _ => raise 400 "invalid_encoding"
  end.

Definition encode_text (content : text) (encoding : string) : M bytes :=
  match encode encoding content with Some b => mret b | None => raise 400 "text_encode_error" end.

Definition decode_text (raw : bytes) (encoding : string) : M text :=
  match decode encoding raw with
  | Some t => mret t
  | None => raise 415 (if String.eqb encoding "utf-8" then "not_utf8_text" else "text_decode_error")
  end.

Definition content_text (item : list (string * json)) : M text :=
  match obj_get_or "content" JNull item with
  | JStr s => mret (chars s)
  | _ => raise 400 "invalid_request"
  end.

Definition perm_bits (n : node) : Z := Z.land (perm n) 511.

Definition plan_create (item : list (string * json)) (i : nat) (requested : string) (p : path) : M plan :=
  _ ← match obj_get_or "create_parents" JNull item with
      | JNull | JBool false => mret tt
      | JInt n => raise_when (negb (n =? 0)) 400 "invalid_request"
      | JFloat q => raise_when (negb (Qeq_bool q 0)) 400 "invalid_request"
      | JList _ | JObj _ => fail Invalid
      | _ => raise 400 "invalid_request"
      end;
  d ← catch (_file_stat (removelast p)) (λ e,
        match e with
        | Api a => if String.eqb (error_code a) "path_not_found" then raise 400 "parent_not_found" else fail e
        | _ => fail e
        end);
  _ ← raise_when (negb (is_dir d)) 400 "not_a_directory";
  missing ← _missing p;
  _ ← raise_when (negb missing) 409 "path_exists";
  content ← content_text item;
  encoding ← text_encoding (obj_get_or "encoding" (JStr "utf-8") item);
  bytes ← encode_text content encoding;
  _ ← raise_when (STANDARD_FILE_MAX_BYTES <? Z.of_nat (length bytes)) 413 "large_file_api_required";
  mret (Plan i requested p "file.create" None None bytes 384 0 true false).

Definition plan_delete (i : nat) (requested : string) (p : path) (expected : string) : M plan :=
  _ ← raise_when (negb (under token_scope_root p || _authorize_external_recycle p))
        403 "outside_delete_not_supported";
  _ ← raise_when (bool_decide (p = token_scope_root)) 403 "root_protected";
  _ ← raise_when (match mapping_at_path p with Some (r, _) => bool_decide (r = p) | None => false end)
        403 "storage_mapping_root_protected";
  d ← _file_stat p;
  _ ← raise_when (negb (is_file d || is_dir d)) 400 "unsupported_path_type";
  _ ← _check_expected_etag expected (_stat_etag d);
  mret (Plan i requested p "path.delete" (Some expected) (Some (_stat_etag d)) [] (perm_bits d) 0 true true).

(** The new bytes of a file and the number of edits. *)
Definition edited_bytes (item : list (string * json)) (op : string) (p : path) (raw : bytes)
    : M (bytes * Z) :=
  if String.eqb op "file.replace" then
    content ← content_text item;
    encoding ← text_encoding (obj_get_or "encoding" (JStr "utf-8") item);
    b ← encode_text content encoding;
    mret (b, 0)
  else if bool_decide (op ∈ ["text.replace"; "text.insert_before"; "text.insert_after"]%string) then
    encoding ← text_encoding (obj_get_or "encoding" (JStr "utf-8") item);
    t ← decode_text raw encoding;
    r ← lift (if String.eqb op "text.replace"
              then _apply_text_replacements t (obj_get_or "replacements" JNull item) (item_selectors item)
              else _apply_text_insertion t item (String.eqb op "text.insert_after"));
    b ← encode_text r.1 encoding;
    mret (b, r.2)
  else
    t ← match decode "utf-8" raw with Some t => mret t | None => raise 415 "structured_encoding" end;
    updated ← lift (_apply_structured_patch t p item);
    b ← match encode "utf-8" updated with Some b => mret b | None => fail Invalid end;
    mret (b, match obj_get "operations" item with Some (JList l) => Z.of_nat (length l) | _ => 0 end).

Definition _plan_item (item : json) (i : nat) : M plan :=
  match item with
  | JObj fields =>
      match obj_get_or "path" JNull fields, obj_get_or "op" JNull fields with
      | JStr requested, op =>
          _ ← raise_when (is_empty requested) 400 "invalid_request";
          match op with
          | JStr op =>
              _ ← raise_when (negb (bool_decide (op ∈ MUTATION_OPERATIONS))) 400 "invalid_request";
              p ← lift (_resolve_path requested);
              if String.eqb op "file.create" then plan_create fields i requested p
              else
                expected ← _required_exact_etag fields;
                if String.eqb op "path.delete" then plan_delete i requested p expected
                else
                  r ← _read_regular_bytes p expected;
                  b ← edited_bytes fields op p r.1;
                  _ ← raise_when (STANDARD_FILE_MAX_BYTES <? Z.of_nat (length b.1))
                        413 "large_file_api_required";
                  mret (Plan i requested p op (Some expected) (Some (_stat_etag r.2)) b.1 (perm_bits r.2)
                          b.2 (negb (bool_decide (b.1 = r.1))) false)
          | _ => raise 400 "invalid_request"
          end
      | _, _ => raise 400 "invalid_request"
      end
  | _ => raise 400 "invalid_request"
  end.

(** ** Planning the request *)

(** [_transaction_domain]: the mapping or the authorised root that holds the path. *)
Definition _transaction_domain (p : path) : M path :=
  match mapping_at_path p with
  | Some (r, _) => mret r
  | None => match anchor roots p with Some r => mret r | None => fail (OSError EPERM) end
  end.

(** [q in p.parents] *)
Definition in_parents (q p : path) : bool := under q p && negb (bool_decide (q = p)).

Definition overlaps (p q : plan) : bool :=
  (deleted p || deleted q) && (in_parents (target p) (target q) || in_parents (target q) (target p)).

(** The loop over the items; [done] holds the plans made so far, [total] their bytes. *)
Fixpoint plan_items (items : list json) (done : list plan) (domain : option path) (total : Z)
    : M (list plan) :=
  match items with
  | [] => mret done
  | item :: items' =>
      _ ← check_deadline;
      p ← _plan_item item (length done);
      d ← _transaction_domain (target p);
      _ ← raise_when (match domain with Some d0 => negb (bool_decide (d = d0)) | None => false end)
            409 "transaction_domain_mismatch";
      _ ← raise_when (bool_decide (target p ∈ target <$> done)) 400 "duplicate_path";
      _ ← raise_when (existsb (λ q, overlaps p q) done) 400 "overlapping_paths";
      let total := total + Z.of_nat (length (data p)) in
      _ ← raise_when (MUTATION_MAX_STAGED_BYTES <? total) 413 "mutation_too_large";
      plan_items items' (done ++ [p]) (Some (default d domain)) total
  end.

Definition _revalidate (l : list plan) : M unit :=
  for_each l (λ p,
    match expected_etag p with
    | None =>
        m ← _missing (target p);
        raise_when (negb m) 409 "mutation_precondition_failed"
    | Some e =>
        c ← _file_stat (target p);
        raise_when (negb (String.eqb (_stat_etag c) e)) 409 "mutation_precondition_failed"
    end).

(** ** Staging *)

Definition _stage_bytes (id : string) (p : plan) : M unit :=
  let st := stage_path (target p) id (index p) in
  _ ← match anchor roots st with None => fail (OSError EPERM) | Some _ => os_create st 384 end;
  _ ← os_write st (data p);
  _ ← catch (os_chmod st (mode p)) (λ _, mret tt);
  _ ← update p (set_stage st);
  match expected_etag p with
  | Some _ => update p (set_backup (backup_path (target p) id (index p)))
  | None => mret tt
  end.

Definition stage_one (id : string) (p : plan) : M unit :=
  _ ← check_deadline;
  if deleted p then update p (set_backup (backup_path (target p) id (index p)))
  else if changed p || bool_decide (expected_etag p = None) then _stage_bytes id p
  else mret tt.

(** ** Commit *)

Definition remote (p : path) : bool := bool_decide (is_Some (mapping_at_path p)).

(** The type, size and digest of a remote source before it is moved. *)
Definition relocation (p : path) : M (option (bool * Z * option string)) :=
  if remote p then
    o ← _file_stat p;
    d ← (if is_file o then d ← _digest_path p; mret (Some d) else mret None);
    mret (Some (is_dir o, size o, d))
  else mret None.

Definition _relocation_verified (r : bool * Z * option string) (b : path) (after : node) : M bool :=
  let '(dir, sz, digest) := r in
  if negb (Bool.eqb dir (is_dir after)) then mret false
  else match digest with
       | Some d =>
           if size after =? sz then d' ← _digest_path b; mret (String.eqb d' d) else mret false
       | None => mret (is_dir after)
       end.

Definition back_up (p : plan) (expected : string) (b : path) : M unit :=
  r ← relocation (target p);
  _ ← rename (target p) b;
  _ ← update p (set_backed_up true);
  d ← _file_stat b;
  ok ← match r with
       | Some r => _relocation_verified r b d
       | None => mret (String.eqb (_stat_etag d) expected)
       end;
  raise_when (negb ok) 409 "mutation_precondition_failed".

Definition commit_one (p : plan) : M unit :=
  if negb (changed p) && bool_decide (is_Some (expected_etag p)) then mret tt
  else
    g ← progress_of p;
    _ ← match expected_etag p, backup g with
        | None, _ => mret tt
        | Some _, None => fail Asserted
        | Some e, Some b => back_up p e b
        end;
    if deleted p then update p (set_published true)
    else match stage g with
         | None => fail Asserted
         | Some st =>
             s ← _file_stat st;
             _ ← rename st (target p);
             update p (λ g, set_published_etag (_stat_etag s) (set_published true g))
         end.

(** [_transaction_recycle]: the bin of the mapping, or of the workspace. *)
Definition _transaction_recycle (source original : path) : M (string * option string) :=
  match mapping_at_path original with
  | Some (r, n) =>
      match check_path original with
      | Some e => fail (Api e)
      | None => id ← (_ ← storage_bin r; recycle r source original); mret (id, Some n)
      end
  | None => id ← recycle token_scope_root source original; mret (id, None)
  end.

Definition recycle_one (p : plan) : M unit :=
  if negb (deleted p) then mret tt
  else
    g ← progress_of p;
    match backup g with
    | None => fail Asserted
    | Some b =>
        r ← _transaction_recycle b (target p);
        _ ← raise_when (is_empty r.1) 500 "invalid_recycle_result";
        update p (λ g, set_backed_up false (set_recycled (Some r.1) r.2 g))
    end.

(** ** Rollback *)

(** [_transaction_restore_recycle]; a mapping is found again by its name. *)
Definition _transaction_restore_recycle (id : string) (root : option string) : M unit :=
  match root with
  | Some n =>
      if is_empty n then _ ← restore token_scope_root id; mret tt
      else
        let r := token_scope_root ++ [n] in
        if has_char "/" n || has_char (ascii_of_N 92) n then raise 404 "recycle_root_not_found"
        else match mapping_at_path r with
             | Some (r', _) =>
                 if bool_decide (r' = r) then
                   match check_path r with
                   | Some e => fail (Api e)
                   | None => _ ← (_ ← storage_bin r; restore r id); mret tt
                   end
                 else raise 404 "recycle_root_not_found"
             | None => raise 404 "recycle_root_not_found"
             end
  | None => _ ← restore token_scope_root id; mret tt
  end.

(** Whether the published file is still the one that was published. *)
Definition still_ours (p : plan) (g : progress) (current : node) : M bool :=
  if remote (target p) && is_file current then
    d ← _digest_path (target p);
    mret (String.eqb d (hex (Sha256.sha256 (data p))))
  else mret (match published_etag g with Some e => String.eqb (_stat_etag current) e | None => false end).

Definition unpublish (p : plan) (g : progress) : M bool :=
  match published g, stage g with
  | true, Some st =>
      c ← _file_stat (target p);
      ours ← still_ours p g c;
      if (ours : bool) then
        _ ← rename (target p) st;
        _ ← update p (set_published false);
        mret true
      else mret false
  | _, _ => mret true
  end.

(** The body of the rollback loop: [false] when the path is reported as failed. *)
Definition roll_back_one (p : plan) : M bool :=
  catch (
    g ← progress_of p;
    match deleted p, recycle_id g with
    | true, Some id =>
        _ ← _transaction_restore_recycle id (recycle_root g);
        _ ← update p (λ g, set_backed_up false (set_published false
                             (set_recycled None (recycle_root g) g)));
        mret true
    | _, _ =>
        ok ← unpublish p g;
        if negb ok then mret false
        else match backed_up g, backup g with
             | true, Some b =>
                 _ ← rename b (target p);
                 _ ← update p (λ g, set_published false (set_backed_up false g));
                 mret true
             | _, _ => mret true
             end
    end) (λ _, mret false).

Fixpoint roll_back_all (l : list plan) : M bool :=
  match l with
  | [] => mret true
  | p :: l' => a ← roll_back_one p; b ← roll_back_all l'; mret (a && b)
  end.

Definition _rollback (l : list plan) : M unit :=
  ok ← roll_back_all (reverse l);
  raise_when (negb ok) 500 "mutation_rollback_failed".

(** ** The request *)

Definition _cleanup (p : option path) : M unit :=
  match p with None => mret tt | Some p => unlink_missing_ok p end.

Definition clean_up (l : list plan) : M unit :=
  x ← get_local;
  if preserve_artifacts x then mret tt
  else for_each l (λ p, g ← progress_of p; _ ← _cleanup (stage g); _cleanup (backup g)).

(** The commit, undone when it raises; a failed rollback keeps its artifacts. *)
Definition commit (l : list plan) : M unit :=
  catch (_ ← for_each l commit_one; for_each l recycle_one) (λ e,
    _ ← catch (_rollback l) (λ e',
          _ ← set_local (λ x, Txn (plans x) true); fail e');
    fail e).

Definition final_stats (l : list plan) : M unit :=
  for_each l (λ p, if deleted p then mret tt else _ ← _file_stat (target p); mret tt).

Definition transaction (id : string) (l : list plan) : M answer :=
  finally (_ ← for_each l (stage_one id);
           _ ← _revalidate l;
           _ ← check_deadline;
           _ ← commit l;
           _ ← final_stats l;
           x ← get_local;
           mret (Committed l (plans x)))
    (clean_up l).

Definition execute_mutation (body : list (string * json)) : M answer :=
  match obj_get_or "items" JNull body with
  | JList [] => raise 400 "invalid_request"
  | JList items =>
      _ ← raise_when (Z.min MUTATION_MAX_ITEMS max_batch_file_operations <? Z.of_nat (length items))
            400 "batch_too_large";
      match obj_get_or "dry_run" (JBool false) body with
      | JBool dry_run =>
          id ← draw_id;
          l ← plan_items items [] None 0;
          if dry_run then _ ← _revalidate l; mret (DryRun l)
          else
            _ ← set_local (λ _, Txn (replicate (length l) fresh) false);
            transaction id l
      | _ => raise 400 "invalid_request"
      end
  | _ => raise 400 "invalid_request"
  end.

End mutation.
