(* ===== verification/MutationTheorems.v ===== *)
(** * MutationTheorems: a file transaction happens completely or not at all *)

From Stdlib Require Import ZArith Lia Ascii String.
From stdpp Require Import base tactics list list_numbers gmap strings fin_maps pretty.
From S2P Require Import Prelude Hashing TextEdit FileSystem Recycle Mutation.

Local Open Scope Z_scope.
Abbreviation path := FileSystem.path.

(** ** The names of a transaction's own files are its own *)

Definition dash : ascii := "-".

Lemma digits_no_dash x s : has_char dash s = false → has_char dash (pretty_N_go x s) = false.
Proof.
  revert s. induction (N.lt_wf_0 x) as [x _ IH]; intros s Hs.
  destruct (decide (x = 0)%N) as [->|Hx]; [by rewrite pretty_N_go_0|].
  rewrite pretty_N_go_step by lia. apply IH; [by apply N.div_lt; lia|].
  unfold has_char in *. cbn [str_exists]. rewrite Hs, orb_false_r.
  unfold pretty_N_char. by repeat case_match.
Qed.

Lemma dec_no_dash i : has_char dash (dec (Z.of_nat i)) = false.
Proof.
  unfold dec. destruct i as [|i]; [done|]. cbn. by apply digits_no_dash.
Qed.

(** [a-txn-<id>-<i>] determines [i] and, up to dashes, [a]. *)
Lemma suffix_inj a b id i j :
  (a +:+ String dash ("txn" +:+ String dash (id +:+ String dash (dec (Z.of_nat i)))) =
   b +:+ String dash ("txn" +:+ String dash (id +:+ String dash (dec (Z.of_nat j)))))%string →
  i = j ∧ a = b.
Proof.
  intros E. apply (f_equal (split_on dash)) in E. rewrite !split_on_concat in E.
  rewrite !(split_on_none dash (dec _)) in E by apply dec_no_dash. rewrite !app_assoc in E.
  apply app_inj_tail in E as [E Hd]. split.
  - unfold dec in Hd. apply (inj pretty) in Hd. lia.
  - rewrite <- !app_assoc in E. apply app_inv_tail in E. by apply split_on_inj in E.
Qed.

Definition own_name (kind n id : string) (i : nat) : string :=
  "." +:+ n +:+ ".openkapsel-" +:+ kind +:+ "-txn-" +:+ txn_suffix id i.

Lemma own_name_eq kind n id i :
  own_name kind n id i =
  ((("." +:+ n +:+ ".openkapsel") +:+ String dash kind)
   +:+ String dash ("txn" +:+ String dash (id +:+ String dash (dec (Z.of_nat i)))))%string.
Proof.
  unfold own_name, txn_suffix, dash. rewrite !str_app_assoc. reflexivity.
Qed.

(** The names [execute_mutation] gives to staged files and to moved originals. *)
Definition mine (id c : string) : Prop :=
  ∃ n i, c = own_name "put" n id i ∨ c = own_name "transfer" n id i.
Definition clean (id : string) (k : path) : Prop := ∀ c, c ∈ k → ¬ mine id c.

Lemma own_name_inj kind kind' n n' id i j :
  own_name kind n id i = own_name kind' n' id j → i = j ∧
  (("." +:+ n +:+ ".openkapsel") +:+ String dash kind = ("." +:+ n' +:+ ".openkapsel") +:+ String dash kind')%string.
Proof. rewrite !own_name_eq. apply suffix_inj. Qed.

Lemma stage_not_backup n n' id i j : own_name "put" n id i ≠ own_name "transfer" n' id j.
Proof.
  intros [_ E]%own_name_inj. apply (f_equal (split_on dash)) in E. rewrite !split_on_concat in E.
  by apply app_inj_tail in E as [_ ?].
Qed.

Lemma internal_not_mine id : ¬ mine id INTERNAL_DIRECTORY.
Proof.
  assert (∀ kind n i, INTERNAL_DIRECTORY ≠ own_name kind n id i) as H; [|by intros (n & i & [E|E]); apply H in E].
  intros kind n i E. rewrite own_name_eq in E. apply (f_equal (split_on dash)) in E.
  rewrite !split_on_concat in E. apply (f_equal length) in E. rewrite !length_app in E. cbn in E.
  pose proof (split_on_nonempty dash kind). destruct (split_on dash kind); [done|]. cbn in E. lia.
Qed.

Lemma stage_path_eq p id i : stage_path p id i = with_name p (own_name "put" (name p) id i).
Proof. done. Qed.
Lemma backup_path_eq p id i : backup_path p id i = with_name p (own_name "transfer" (name p) id i).
Proof. done. Qed.

Lemma prefix_snoc (q l : path) c : q `prefix_of` l ++ [c] → q = l ++ [c] ∨ q `prefix_of` l.
Proof.
  intros [s E]. destruct s as [|x s _] using rev_ind; [left; by rewrite app_nil_r in E|right].
  rewrite app_assoc in E. apply app_inj_tail in E as [-> _]. by eexists.
Qed.

Lemma clean_prefix id p k : p `prefix_of` k → clean id k → clean id p.
Proof. intros [s ->] H c Hc. apply H. apply elem_of_app. by left. Qed.

Lemma clean_removelast id p : clean id p → clean id (removelast p).
Proof. intros H. eapply clean_prefix; [|exact H]. rewrite removelast_firstn_len. apply prefix_take. Qed.

Section names.
Context (id : string).

(** A file of the transaction beside the clean path [p]. *)
Definition beside (p : path) (c : string) (k : path) : Prop := k = with_name p c ∧ mine id c.

Lemma beside_stage p i : beside p (own_name "put" (name p) id i) (stage_path p id i).
Proof. split; [done|]. eexists _, _. by left. Qed.
Lemma beside_backup p i : beside p (own_name "transfer" (name p) id i) (backup_path p id i).
Proof. split; [done|]. eexists _, _. by right. Qed.

Lemma beside_dirty p c k : beside p c k → ¬ clean id k.
Proof. intros [-> Hc] H. apply (H c); [|done]. apply elem_of_app. right. by apply list_elem_of_singleton. Qed.

(** Such a file lies apart from every clean path that is not above [p] itself. *)
Lemma beside_apart p c k q :
  beside p c k → clean id q → ¬ q `prefix_of` removelast p → apart k q.
Proof.
  intros Hk Hq Hn. split; apply under_false; intros Hp.
  - by apply (beside_dirty _ _ _ Hk), (clean_prefix _ _ _ Hp).
  - destruct Hk as [-> Hc]. unfold with_name in Hp. apply prefix_snoc in Hp as [->|Hp]; [|done].
    apply (Hq c); [|done]. apply elem_of_app. right. by apply list_elem_of_singleton.
Qed.

Lemma prefix_removelast (q p : path) : p ≠ [] → q `prefix_of` removelast p → under q p = true ∧ q ≠ p.
Proof.
  intros Hp Hq. rewrite removelast_firstn_len in Hq. split.
  - apply under_spec. etrans; [exact Hq|apply prefix_take].
  - intros ->. apply prefix_length in Hq. rewrite length_take in Hq. destruct p; [done|cbn in Hq; lia].
Qed.

(** Two of them are apart unless they are equal. *)
Lemma besides_apart p p' c c' k k' :
  clean id p → clean id p' → beside p c k → beside p' c' k' → c ≠ c' → apart k k'.
Proof.
  assert (∀ p p' c c' k k', clean id p' → beside p c k → beside p' c' k' → c ≠ c' → under k k' = false) as H.
  { clear. intros p p' c c' k k' Hp' Hk Hk' Hne. apply under_false. intros Hp.
    destruct Hk' as [-> Hc']. unfold with_name in Hp. apply prefix_snoc in Hp as [->|Hp].
    - destruct Hk as [E _]. unfold with_name in E. by apply app_inj_tail in E as [_ ?].
    - apply (beside_dirty _ _ _ Hk), (clean_prefix _ _ _ Hp). by apply clean_removelast. }
  intros Hp Hp' Hk Hk' Hne. split; [exact (H p p' c c' k k' Hp' Hk Hk' Hne)|].
  exact (H p' p c' c k' k Hp Hk' Hk (not_eq_sym Hne)).
Qed.
End names.

(** ** Subtrees *)

(** The subtree at [k] is [f]. *)
Definition holds (t : tree) (k : path) (f : path → option node) : Prop := ∀ r, t !! (k ++ r) = f r.
Definition nothing : path → option node := λ _, None.
(** A single file. *)
Definition only (n : node) : path → option node := λ r, match r with [] => Some n | _ => None end.

Lemma holds_agree t t' k f :
  holds t k f → (∀ k', under k k' = true → t' !! k' = t !! k') → holds t' k f.
Proof. intros H E r. rewrite E by apply under_app. apply H. Qed.

Lemma holds_vacant t k : holds t k nothing ↔ vacant k t.
Proof.
  split; [|intros H r; apply H, under_app]. intros H k' Hk. rewrite (under_split _ _ Hk). apply H.
Qed.

Lemma holds_moved t src dst f : apart src dst → holds t src f → holds (move src dst t) dst f.
Proof. intros Ha H r. rewrite lookup_move, under_app, drop_app_length. apply H. Qed.

Lemma holds_left t src dst : apart src dst → holds (move src dst t) src nothing.
Proof.
  intros Ha r. rewrite lookup_move, under_app. by rewrite (apart_under src dst) by (done || apply under_app).
Qed.

Lemma holds_move_else t src dst k f :
  apart k src → apart k dst → holds t k f → holds (move src dst t) k f.
Proof.
  intros Hs Hd H. eapply holds_agree; [exact H|]. intros k' Hk.
  apply lookup_move_else; by eapply apart_under.
Qed.

Section transaction.
Context (roots : list path) (token_scope_root : path)
  (mapping_at_path : path → option (path * string)) (check_path : path → option ApiError)
  (json_bytes : list (string * json) → bytes).
(** The transaction's random id, its plans and the tree it finds. *)
Context (id : string) (l : list plan) (t0 : tree).

(** ** Where things are *)

Definition homes (h : path) : Prop := h = token_scope_root ∨ ∃ q n, mapping_at_path q = Some (h, n).
Definition internal (k : path) : Prop := ∃ h, homes h ∧ under (layout_root h) k = true.
Definition home_of (p : plan) : path :=
  match mapping_at_path (target p) with Some (r, _) => r | None => token_scope_root end.

(** Storage mappings are named directories of the workspace. *)
Record setting : Prop := {
  scope_clean : clean id token_scope_root;
  mapped q r n : mapping_at_path q = Some (r, n) →
    r = token_scope_root ++ [n] ∧ n ≠ INTERNAL_DIRECTORY ∧ ¬ mine id n ∧
    is_empty n || has_char "/" n || has_char (ascii_of_N 92) n = false }.

(** What planning establishes. *)
Record planned : Prop := {
  indexed i p : l !! i = Some p → index p = i;
  targets_apart i j p q : l !! i = Some p → l !! j = Some q → i ≠ j → apart (target p) (target q);
  target_ok p : p ∈ l → target p ≠ [] ∧ clean id (target p) ∧ ∀ h, homes h → apart (target p) (layout_root h);
  created_ok p : p ∈ l → expected_etag p = None → vacant (target p) t0 ∧ deleted p = false ∧ changed p = true;
  deleted_ok p : p ∈ l → deleted p = true → changed p = true ∧ walk t0 (target p) = None ∧
    ∀ rel, relative_to_workspace (home_of p) (target p) = Some rel → good_rel rel;
  untouched k : is_Some (t0 !! k) → clean id k }.

Context (E : setting) (P : planned).

Inductive spot := AtTarget | AtStage | AtBackup.
#[local] Instance spot_eq_dec : EqDecision spot.
Proof. solve_decision. Defined.
Definition place (p : plan) (s : spot) : path :=
  match s with
  | AtTarget => target p
  | AtStage => stage_path (target p) id (index p)
  | AtBackup => backup_path (target p) id (index p)
  end.

Lemma homes_cases h : homes h → h = token_scope_root ∨
  ∃ n, h = token_scope_root ++ [n] ∧ n ≠ INTERNAL_DIRECTORY ∧ ¬ mine id n.
Proof. intros [->|(q & n & H)]; [by left|right]. apply (mapped E) in H as (-> & ? & ? & _). eauto. Qed.

Lemma layout_clean h : homes h → clean id (layout_root h).
Proof.
  intros H c [Hc|Hc%list_elem_of_singleton]%elem_of_app; [|subst; apply internal_not_mine].
  destruct (homes_cases h H) as [->|(n & -> & _ & Hn)]; [by apply (scope_clean E)|].
  apply elem_of_app in Hc as [Hc|Hc%list_elem_of_singleton]; [by apply (scope_clean E)|by subst].
Qed.

Lemma layouts_apart h h' : homes h → homes h' → h ≠ h' → apart (layout_root h) (layout_root h').
Proof.
  assert (∀ h h', homes h → homes h' → h ≠ h' → under (layout_root h) (layout_root h') = false) as H.
  { clear h h'. intros h h' Hh Hh' Hne. apply under_false. unfold layout_root. intros [s Hs].
    destruct (homes_cases h Hh) as [->|(n & -> & Hn & _)], (homes_cases h' Hh') as [->|(n' & -> & Hn' & _)];
      [done|..]; rewrite <- !app_assoc in Hs; apply app_inv_head in Hs; simplify_eq/=. }
  split; by apply H.
Qed.

Lemma place_own p s : p ∈ l → s ≠ AtTarget → ∃ c, beside id (target p) c (place p s).
Proof. intros Hp Hs. destruct s; [done|eexists; apply beside_stage|eexists; apply beside_backup]. Qed.

Lemma own_target_apart i j p q s :
  l !! i = Some p → l !! j = Some q → s ≠ AtTarget → apart (place p s) (target q).
Proof.
  intros Hp Hq Hs. destruct (place_own p s) as [c Hc]; [by eapply list_elem_of_lookup_2|done|].
  destruct (target_ok P p) as (Hne & _ & _); [by eapply list_elem_of_lookup_2|].
  destruct (target_ok P q) as (_ & Hcl & _); [by eapply list_elem_of_lookup_2|].
  apply (beside_apart id (target p) c); [done..|]. intros Hpre%prefix_removelast; [|done].
  destruct Hpre as [Hu Hd]. destruct (decide (i = j)) as [->|Hij]; [by simplify_eq|].
  destruct (targets_apart P i j p q Hp Hq Hij) as [_ H]. congruence.
Qed.

(** Distinct places of the transaction never overlap. *)
Lemma places_apart i j p q s s' :
  l !! i = Some p → l !! j = Some q → (i, s) ≠ (j, s') → apart (place p s) (place q s').
Proof.
  intros Hp Hq Hne.
  destruct (target_ok P p) as (_ & Hcp & _); [by eapply list_elem_of_lookup_2|].
  destruct (target_ok P q) as (_ & Hcq & _); [by eapply list_elem_of_lookup_2|].
  pose proof (indexed P _ _ Hp) as Hi. pose proof (indexed P _ _ Hq) as Hj.
  destruct s, s'.
  - apply (targets_apart P i j); [done..|]. congruence.
  - apply apart_sym. by apply (own_target_apart j i).
  - apply apart_sym. by apply (own_target_apart j i).
  - by apply (own_target_apart i j).
  - eapply besides_apart; [exact Hcp|exact Hcq|apply beside_stage|apply beside_stage|].
    intros [Hij _]%own_name_inj. congruence.
  - eapply besides_apart; [exact Hcp|exact Hcq|apply beside_stage|apply beside_backup|apply stage_not_backup].
  - by apply (own_target_apart i j).
  - eapply besides_apart; [exact Hcp|exact Hcq|apply beside_backup|apply beside_stage|].
    apply not_eq_sym, stage_not_backup.
  - eapply besides_apart; [exact Hcp|exact Hcq|apply beside_backup|apply beside_backup|].
    intros [Hij _]%own_name_inj. congruence.
Qed.

Lemma place_internal p s h : p ∈ l → homes h → apart (place p s) (layout_root h).
Proof.
  intros Hp Hh. destruct (target_ok P p Hp) as (Hne & _ & Hap). destruct s; [by apply Hap|..];
    (eapply beside_apart; [apply beside_stage || apply beside_backup|by apply layout_clean|];
     intros Hpre%prefix_removelast; [|done]; destruct (Hap h Hh) as [_ H]; naive_solver congruence).
Qed.

Lemma place_not_internal p s k : p ∈ l → under (place p s) k = true → ¬ internal k.
Proof.
  intros Hp Hk (h & Hh & Hi). by rewrite (apart_under _ _ _ (place_internal p s h Hp Hh) Hk) in Hi.
Qed.

(** ** The phases of one plan *)

Definition orig (p : plan) : path → option node := λ r, t0 !! (target p ++ r).
Abbreviation S_ p := (place p AtStage).
Abbreviation B_ p := (place p AtBackup).
Definition staged (p : plan) (t : tree) : Prop :=
  ∃ n, content n = File (data p) ∧ holds t (S_ p) (only n).
Definition root_name (p : plan) : option string := snd <$> mapping_at_path (target p).
Definition in_bin (p : plan) (a : string) (t : tree) : Prop :=
  ∃ rel, relative_to_workspace (home_of p) (target p) = Some rel ∧ stored (home_of p) t a rel (orig p).

(** Where the original of a plan is, given the recorded progress; [e] is the entry
    of the bin that holds it. *)
Inductive phase (p : plan) (g : progress) : option string → tree → Prop :=
| Idle t : backed_up g = false → published g = false → recycle_id g = None →
    holds t (target p) (orig p) → holds t (B_ p) nothing → (stage g = Some (S_ p) → staged p t) →
    phase p g None t
| Moved t : backed_up g = true → recycle_id g = None → (published g = true → deleted p = true) →
    is_Some (expected_etag p) → backup g = Some (B_ p) →
    holds t (target p) nothing → holds t (B_ p) (orig p) → (stage g = Some (S_ p) → staged p t) →
    phase p g None t
| Public n t : published g = true → recycle_id g = None → deleted p = false → stage g = Some (S_ p) →
    content n = File (data p) → holds t (target p) (only n) → holds t (S_ p) nothing →
    match expected_etag p with
    | Some _ => backed_up g = true ∧ backup g = Some (B_ p) ∧ holds t (B_ p) (orig p)
    | None => backed_up g = false ∧ holds t (B_ p) nothing
    end → phase p g None t
| Binned a t : recycle_id g = Some a → recycle_root g = root_name p → deleted p = true →
    holds t (target p) nothing → holds t (B_ p) nothing → (stage g = Some (S_ p) → staged p t) →
    in_bin p a t → phase p g (Some a) t
| Returned a t : recycle_id g = Some a → deleted p = true → holds t (target p) (orig p) →
    phase p g None t.

Definition names_ok (p : plan) (g : progress) : Prop :=
  (stage g = None ∨ stage g = Some (S_ p)) ∧ (backup g = None ∨ backup g = Some (B_ p)).

Lemma phase_agree p g e t t' :
  phase p g e t → (∀ s k, under (place p s) k = true → t' !! k = t !! k) →
  (∀ a k, e = Some a → under (entry (home_of p) a) k = true → t' !! k = t !! k) → phase p g e t'.
Proof.
  intros H Hpl Hen.
  assert (Hh : ∀ s f, holds t (place p s) f → holds t' (place p s) f).
  { intros s f Hf. eapply holds_agree; [exact Hf|]. intros k. apply Hpl. }
  assert (Hs : staged p t → staged p t') by (intros (n & ? & ?); exists n; split; [done|by apply Hh]).
  pose proof (Hh AtTarget) as HT. cbn [place] in HT.
  destruct H as [t ?????? | t ???????? | n t ?????? ? Hex | a t ?????? Hin | a t ???].
  - apply Idle; auto.
  - apply Moved; auto.
  - apply (Public p g n); auto.
    destruct (expected_etag p); [destruct Hex as (? & ? & ?)|destruct Hex as (? & ?)]; auto.
  - apply Binned; auto. destruct Hin as (rel & Hr & Hst). exists rel. split; [done|].
    eapply stored_agree; [|exact Hst]. intros k. by apply Hen.
  - apply (Returned p g a); auto.
Qed.

Lemma idle_inv p g e t :
  phase p g e t → backed_up g = false → published g = false → recycle_id g = None →
  e = None ∧ holds t (target p) (orig p) ∧ holds t (B_ p) nothing ∧ (stage g = Some (S_ p) → staged p t).
Proof. destruct 1; intros; try congruence; auto. Qed.

Lemma moved_inv p g e t :
  phase p g e t → backed_up g = true → recycle_id g = None → published g = false ∨ deleted p = true →
  e = None ∧ is_Some (expected_etag p) ∧ backup g = Some (B_ p) ∧ holds t (target p) nothing ∧
  holds t (B_ p) (orig p) ∧ (stage g = Some (S_ p) → staged p t).
Proof. destruct 1; intros ? ? [?|?]; try congruence; by auto 10. Qed.

Lemma public_inv p g e t :
  phase p g e t → published g = true → deleted p = false → recycle_id g = None →
  e = None ∧ stage g = Some (S_ p) ∧ holds t (S_ p) nothing ∧
  (∃ n, content n = File (data p) ∧ holds t (target p) (only n)) ∧
  match expected_etag p with
  | Some _ => backed_up g = true ∧ backup g = Some (B_ p) ∧ holds t (B_ p) (orig p)
  | None => backed_up g = false ∧ holds t (B_ p) nothing
  end.
Proof.
  destruct 1; intros Hpu Hd Hr; try congruence.
  - assert (deleted p = true) by auto. congruence.
  - eauto 10.
Qed.

Lemma unpublished_inv p g e t :
  phase p g e t → backed_up g = false → recycle_id g = None → deleted p = true → published g = false.
Proof. destruct 1; congruence. Qed.

Lemma deleted_gone p g e t :
  phase p g e t → published g = true → recycle_id g = None → deleted p = true → t !! target p = None.
Proof.
  intros Hph Hpu Hr Hd. assert (backed_up g = true) as Hb by (destruct Hph; congruence).
  destruct (moved_inv _ _ _ _ Hph Hb Hr (or_intror Hd)) as (_ & _ & _ & HT & _).
  specialize (HT []). by rewrite app_nil_r in HT.
Qed.

Lemma phase_entry p g a t : phase p g (Some a) t → is_Some (t !! entry (home_of p) a).
Proof. inversion 1 as [| | |? ? ? ? ? ? ? ? Hin|]; subst. destruct Hin as (rel & _ & [Hs _] & _). done. Qed.

Lemma home_homes p : homes (home_of p).
Proof.
  unfold home_of, homes. destruct (mapping_at_path (target p)) as [[r n]|] eqn:M; [|by left].
  right. eauto.
Qed.

(** One plan's step: only its places and the bin change, and of the bin's old
    entries only its own. *)
Definition step (p : plan) (e e' : option string) (t t' : tree) : Prop :=
  (∀ k, (∀ s, under (place p s) k = false) → ¬ internal k → t' !! k = t !! k) ∧
  (∀ h a k, homes h → is_Some (t !! entry h a) → (h = home_of p → e ≠ Some a) →
     under (entry h a) k = true → t' !! k = t !! k) ∧
  (∀ a, e' = Some a → e = Some a ∨ t !! entry (home_of p) a = None).

Lemma step_refl p e t : step p e e t t.
Proof. split_and!; auto. Qed.

Lemma entry_is_internal h a k : homes h → under (entry h a) k = true → internal k.
Proof. intros Hh Hk. exists h. split; [done|]. by eapply entry_internal. Qed.

Lemma step_move p s s' e t : p ∈ l → step p e e t (move (place p s) (place p s') t).
Proof.
  intros Hp. assert (∀ k s, internal k → under (place p s) k = false) as Hi.
  { intros k s0 Hk. apply not_true_is_false. intros Hu. by apply (place_not_internal p s0 k Hp) in Hu. }
  split_and!; [intros k Hk _; by apply lookup_move_else| |by auto].
  intros h a k Hh _ _ Hk. apply lookup_move_else; apply Hi; by eapply entry_is_internal.
Qed.

(** ** The whole transaction *)

Record inv (es : nat → option string) (t : tree) (x : txn) : Prop := {
  inv_length : length (plans x) = length l;
  inv_each i p g : l !! i = Some p → plans x !! i = Some g → names_ok p g ∧ phase p g (es i) t;
  inv_entries i j p q a : i ≠ j → l !! i = Some p → l !! j = Some q →
    es i = Some a → es j = Some a → home_of p ≠ home_of q;
  inv_rest k : (∀ p s, p ∈ l → under (place p s) k = false) → ¬ internal k → t !! k = t0 !! k }.

(** Only the progress of plan [i] changed, to [g]. *)
Definition swapped (i : nat) (g : progress) (x x' : txn) : Prop :=
  plans x' !! i = Some g ∧ (∀ j, j ≠ i → plans x' !! j = plans x !! j) ∧
  length (plans x') = length (plans x) ∧ preserve_artifacts x' = preserve_artifacts x.

Lemma swapped_refl i g x : plans x !! i = Some g → swapped i g x x.
Proof. by repeat split. Qed.

Lemma swapped_update i g x x1 f :
  swapped i g x x1 → swapped i (f g) x (Txn (alter f i (plans x1)) (preserve_artifacts x1)).
Proof.
  intros (H1 & H2 & H3 & H4). split_and!; cbn; [by rewrite list_lookup_alter_eq, H1| | |done].
  - intros j Hj. by rewrite list_lookup_alter_ne, H2 by done.
  - by rewrite length_alter.
Qed.

Lemma inv_step es t x i p g' e' t' x' :
  inv es t x → l !! i = Some p → swapped i g' x x' → step p (es i) e' t t' →
  names_ok p g' → phase p g' e' t' → inv (λ j, if decide (j = i) then e' else es j) t' x'.
Proof.
  intros [Hlen Heach Hent Hrest] Hp (Hs1 & Hs2 & Hs3 & _) (F1 & F2 & F3) Hn Hph.
  assert (Hin : p ∈ l) by by eapply list_elem_of_lookup_2.
  split.
  - by rewrite Hs3.
  - intros j q g Hq Hg. destruct (decide (j = i)) as [->|Hj]; [by simplify_eq|].
    rewrite Hs2 in Hg by done. destruct (Heach j q g Hq Hg) as [Hnq Hpq]. split; [done|].
    assert (Hinq : q ∈ l) by by eapply list_elem_of_lookup_2.
    eapply phase_agree; [exact Hpq|..].
    + intros s k Hk. apply F1; [|by eapply place_not_internal]. intros s'.
      eapply apart_under; [|exact Hk]. apply (places_apart j i); [done..|]. congruence.
    + intros a k Ha Hk. rewrite Ha in Hpq. apply (F2 (home_of q) a); [apply home_homes| | |done].
      * by eapply phase_entry.
      * intros Hh Hi. by apply (Hent i j p q a); auto.
  - intros j1 j2 q1 q2 a Hne H1 H2 E1 E2.
    assert (Hother : ∀ j q, j ≠ i → l !! j = Some q → es j = Some a → e' = Some a → home_of p ≠ home_of q).
    { intros j q Hj Hq Ej Ee. destruct (F3 a Ee) as [Ei|Hnone]; [by apply (Hent i j p q a); auto|].
      intros Hh. destruct (lookup_lt_is_Some_2 (plans x) j) as [g Hg].
      { rewrite Hlen. by eapply lookup_lt_Some. }
      destruct (Heach j q g Hq Hg) as [_ Hpq]. rewrite Ej in Hpq. apply phase_entry in Hpq.
      rewrite <- Hh, Hnone in Hpq. by destruct Hpq. }
    destruct (decide (j1 = i)) as [->|], (decide (j2 = i)) as [->|]; simplify_eq/=.
    + by apply (Hother j2).
    + apply not_eq_sym. by apply (Hother j1).
    + by apply (Hent j1 j2 q1 q2 a).
  - intros k Hk Hi. rewrite F1; [by apply Hrest|intros s; by apply Hk|done].
Qed.

Lemma step_trans p e e' t t1 t2 : step p e e t t1 → step p e e' t1 t2 → step p e e' t t2.
Proof.
  intros (A1 & A2 & A3) (B1 & B2 & B3).
  assert (Hkeep : ∀ h a, homes h → is_Some (t !! entry h a) → (h = home_of p → e ≠ Some a) →
                   t1 !! entry h a = t !! entry h a) by (intros; by eapply A2, under_refl).
  split_and!.
  - intros k Hk Hi. by rewrite B1, A1.
  - intros h a k Hh Ha Hne Hk. rewrite (B2 h a), (A2 h a); [done..|by rewrite Hkeep|done|done].
  - intros a Ha. destruct (B3 a Ha) as [?|Hn]; [by left|].
    destruct (decide (e = Some a)) as [|Hne]; [by left|right].
    destruct (t !! entry (home_of p) a) eqn:Et; [|done].
    rewrite (Hkeep (home_of p)) in Hn; [congruence|apply home_homes|by eauto|done].
Qed.

(** ** One plan at a time *)

Definition effective (p : plan) : bool := changed p || bool_decide (expected_etag p = None).
Definition idle_flags (g : progress) : Prop :=
  backed_up g = false ∧ published g = false ∧ recycle_id g = None.
(** What staging leaves for the commit. *)
Definition ready (p : plan) (g : progress) : Prop :=
  effective p = true →
  (deleted p = false → stage g = Some (S_ p)) ∧ (is_Some (expected_etag p) → backup g = Some (B_ p)).
Definition commit_done (p : plan) (g : progress) : Prop :=
  recycle_id g = None ∧ ready p g ∧
  if effective p then (if deleted p then backed_up g = true else published g = true) else idle_flags g.

(** An operation on plan [i] ends in some phase, with [D] when it returns. *)
Definition ends {A : Type} (i : nat) (p : plan) (e : option string) (t : tree) (x : txn)
    (D : A → progress → Prop) (r : res failure A) (t' : tree) (x' : txn) : Prop :=
  ∃ g' e', swapped i g' x x' ∧ step p e e' t t' ∧ names_ok p g' ∧ phase p g' e' t' ∧
    recycle_id g' = e' ∧ match r with Ok a => D a g' | Err _ => True end.

Lemma ends_intro {A : Type} i p e g' e' (t : tree) x (D : A → progress → Prop) (r : res failure A) t' x' :
  swapped i g' x x' → step p e e' t t' → names_ok p g' → phase p g' e' t' → recycle_id g' = e' →
  match r with Ok a => D a g' | Err _ => True end → ends i p e t x D r t' x'.
Proof. intros. exists g', e'. auto 10. Qed.

Lemma wp_progress_of p g (Q : res failure progress → tree → txn → Prop) t x :
  plans x !! index p = Some g → Q (Ok g) t x → wp (progress_of p) Q t x.
Proof. intros Hg HQ. apply wp_bind, wp_get_local. cbn. apply wp_ret. by rewrite Hg. Qed.

Lemma wp_update p f (Q : res failure unit → tree → txn → Prop) t x :
  Q (Ok tt) t (Txn (alter f (index p) (plans x)) (preserve_artifacts x)) → wp (update p f) Q t x.
Proof. intros H. by apply wp_set_local. Qed.

Lemma wp_raise_when b h c (Q : res failure unit → tree → txn → Prop) t x :
  (∀ e, Q (Err e) t x) → Q (Ok tt) t x → wp (raise_when b h c) Q t x.
Proof. intros. unfold raise_when. destruct b; [by apply wp_fail|by apply wp_ret]. Qed.

Lemma looks_digest p : looks (X:=txn) (_digest_path roots json_bytes p) (λ _ _, True).
Proof.
  eapply looks_weaken; [eapply looks_bind; [apply looks_stat|intros; apply looks_ret]|done].
Qed.

Lemma looks_relocation p : looks (relocation roots mapping_at_path json_bytes p) (λ _ _, True).
Proof.
  unfold relocation. destruct (remote _ p); [|eapply looks_weaken; [apply looks_ret|done]].
  intros t x. apply wp_bind, (wp_looks _ _ _ _ _ (looks_stat _ _)). intros [n|e] _; cbn; [|done].
  apply wp_bind. destruct (is_file n); [|apply wp_ret; cbn; by apply wp_ret].
  apply wp_bind, (wp_looks _ _ _ _ _ (looks_digest _)). intros [d|e] _; cbn; [|done].
  apply wp_ret. cbn. by apply wp_ret.
Qed.

Lemma looks_verified r b n : looks (_relocation_verified roots json_bytes r b n) (λ _ _, True).
Proof.
  unfold _relocation_verified. destruct r as [[dir sz] [d|]]; destruct (negb _);
    try (eapply looks_weaken; [apply looks_ret|done]).
  destruct (_ =? sz); [|eapply looks_weaken; [apply looks_ret|done]].
  eapply looks_weaken; [eapply looks_bind; [apply looks_digest|intros; apply looks_ret]|done].
Qed.

(** Moving the original aside. *)
Lemma back_up_spec i p g expected t x :
  l !! i = Some p → plans x !! i = Some g → names_ok p g → phase p g None t → idle_flags g →
  expected_etag p = Some expected → backup g = Some (B_ p) →
  wp (back_up roots mapping_at_path json_bytes p expected (B_ p))
    (ends i p None t x (λ _ g', g' = set_backed_up true g)) t x.
Proof.
  intros Hp Hg Hn Hph (Hb & Hpu & Hr) Hex Hbk. assert (p ∈ l) by by eapply list_elem_of_lookup_2.
  pose proof (indexed P _ _ Hp) as Hi.
  assert (Hstop : ∀ e, ends i p None t x (λ (_ : unit) g', g' = set_backed_up true g) (Err e) t x).
  { intros e. eapply ends_intro; [by apply swapped_refl|apply step_refl|done..]. }
  unfold back_up. apply wp_bind, (wp_looks _ _ _ _ _ (looks_relocation _)). intros [r|e] _; cbn [then_]; [|done].
  apply wp_bind, wp_rename; cbn [then_]; [done|]. intros n _ _ _.
  apply wp_bind, wp_update. cbn [then_]. rewrite Hi.
  set (t1 := move (target p) (B_ p) t). set (x1 := Txn _ _).
  assert (Hend : ∀ r : res failure unit, ends i p None t x (λ _ g', g' = set_backed_up true g) r t1 x1).
  { intros r'. apply (ends_intro _ _ _ (set_backed_up true g) None).
    - by apply swapped_update, swapped_refl.
    - by apply (step_move p AtTarget AtBackup).
    - done.
    - destruct (idle_inv _ _ _ _ Hph Hb Hpu Hr) as (_ & HT & HB & HS).
      apply Moved; cbn; [done|done|congruence|by eauto|done|..].
      + apply holds_left, (places_apart i i p p AtTarget AtBackup); congruence.
      + apply holds_moved; [by apply (places_apart i i p p AtTarget AtBackup)|done].
      + intros Hst. destruct HS as (n' & Hc & Hh); [done|]. exists n'. split; [done|].
        apply holds_move_else; [by apply (places_apart i i p p AtStage AtTarget)|
                                by apply (places_apart i i p p AtStage AtBackup)|done].
    - done.
    - by destruct r'. }
  apply wp_bind, (wp_looks _ _ _ _ _ (looks_stat _ _)). intros [d|e] _; cbn [then_]; [|done].
  apply wp_bind. destruct r as [r|].
  - apply (wp_looks _ _ _ _ _ (looks_verified _ _ _)). intros [ok|e] _; cbn [then_]; [|done].
    by apply wp_raise_when.
  - apply wp_ret. cbn [then_]. by apply wp_raise_when.
Qed.

(** A published file replaces nothing: the staged file moves to the free target. *)
Lemma publish_phase i p g s t :
  l !! i = Some p → stage g = Some (S_ p) → deleted p = false → recycle_id g = None → published g = false →
  match expected_etag p with
  | Some _ => backed_up g = true ∧ backup g = Some (B_ p) ∧ holds t (B_ p) (orig p)
  | None => backed_up g = false ∧ holds t (B_ p) nothing
  end → staged p t →
  phase p (set_published_etag s (set_published true g)) None (move (S_ p) (target p) t).
Proof.
  intros Hp Hst Hd Hr Hpu Hex (n & Hc & Hh).
  assert (Hap : ∀ s s', s ≠ s' → apart (place p s) (place p s'))
    by (intros; apply (places_apart i i); congruence).
  apply (Public _ _ n); cbn; [done..| | |].
  - apply holds_moved; [by apply (Hap AtStage AtTarget)|done].
  - apply holds_left. by apply (Hap AtStage AtTarget).
  - assert (∀ f, holds t (B_ p) f → holds (move (S_ p) (target p) t) (B_ p) f).
    { intros f. apply holds_move_else; [by apply (Hap AtBackup AtStage)|by apply (Hap AtBackup AtTarget)]. }
    destruct (expected_etag p); naive_solver.
Qed.

(** The second half of a commit, after the original moved aside or nothing had to. *)
Lemma publish_spec i p g t x g1 t1 x1 :
  l !! i = Some p → effective p = true → ready p g →
  swapped i g1 x x1 → step p None None t t1 → names_ok p g1 → phase p g1 None t1 →
  stage g1 = stage g → backup g1 = backup g → recycle_id g1 = None → published g1 = false →
  backed_up g1 = bool_decide (is_Some (expected_etag p)) →
  wp (if deleted p then update p (set_published true)
      else match stage g with
           | None => fail Asserted
           | Some st =>
               s ← _file_stat (X:=txn) roots st;
               _ ← rename roots st (target p);
               update p (λ g, set_published_etag (_stat_etag s) (set_published true g))
           end) (ends i p None t x (λ _ g', commit_done p g')) t1 x1.
Proof.
  intros Hp Hef Hrd Hsw Hstep Hn1 Hph1 Es Eb Er1 Ep1 Ebu. destruct (Hrd Hef) as [Hst Hbk].
  assert (p ∈ l) by by eapply list_elem_of_lookup_2. pose proof (indexed P _ _ Hp) as Hi.
  assert (Hdone : ∀ g', recycle_id g' = None → stage g' = stage g → backup g' = backup g →
            (if deleted p then backed_up g' = true else published g' = true) → commit_done p g').
  { intros g' Hr' Hs' Hb' Hfl. split_and!; [done| |by rewrite Hef]. intros _. by rewrite Hs', Hb'. }
  destruct (deleted p) eqn:Hd.
  - assert (is_Some (expected_etag p)) as Hex.
    { destruct (expected_etag p) eqn:Ee; [by eauto|]. destruct (created_ok P p) as (_ & ? & _); [done..|congruence]. }
    rewrite bool_decide_eq_true_2 in Ebu by done.
    destruct (moved_inv _ _ _ _ Hph1 Ebu Er1 (or_introl Ep1)) as (_ & _ & Hbk1 & HT & HB & HS).
    apply wp_update. rewrite Hi. eapply (ends_intro _ _ _ (set_published true g1) None);
      [by apply swapped_update|done|done|by apply Moved|done|by apply Hdone].
  - rewrite Hst by done. apply wp_bind, (wp_looks _ _ _ _ _ (looks_stat _ _)).
    intros [n|e] _; cbn [then_]; [|by eapply ends_intro].
    apply wp_bind, wp_rename; cbn [then_]; [intros e; by eapply ends_intro|].
    intros n' _ _ _. apply wp_update. rewrite Hi.
    eapply ends_intro; [apply (swapped_update _ _ _ _ _ Hsw)| |exact Hn1| |done|by apply Hdone].
    + eapply step_trans; [exact Hstep|]. by apply (step_move p AtStage AtTarget).
    + assert (stage g1 = Some (S_ p)) as Hs1 by by rewrite Es, Hst.
      destruct (expected_etag p) as [ee|] eqn:Ee; cbn in Ebu; apply (publish_phase i); try done; rewrite ?Ee.
      * by destruct (moved_inv _ _ _ _ Hph1 Ebu Er1 (or_introl Ep1)) as (_ & _ & ? & _ & ? & _).
      * by apply (moved_inv _ _ _ _ Hph1 Ebu Er1 (or_introl Ep1)).
      * by destruct (idle_inv _ _ _ _ Hph1 Ebu Ep1 Er1) as (_ & _ & ? & _).
      * by apply (idle_inv _ _ _ _ Hph1 Ebu Ep1 Er1).
Qed.

Lemma commit_one_spec i p g t x :
  l !! i = Some p → plans x !! i = Some g → names_ok p g → phase p g None t → idle_flags g → ready p g →
  wp (commit_one roots mapping_at_path json_bytes p) (ends i p None t x (λ _ g', commit_done p g')) t x.
Proof.
  intros Hp Hg Hn Hph Hfl Hrd. pose proof Hfl as (Hb & Hpu & Hr). pose proof (indexed P _ _ Hp) as Hi.
  unfold commit_one.
  assert (negb (changed p) && bool_decide (is_Some (expected_etag p)) = negb (effective p)) as ->.
  { unfold effective. destruct (changed p), (expected_etag p); done. }
  destruct (effective p) eqn:Hef; cbn [negb]; cycle 1.
  { apply wp_ret, (ends_intro _ _ _ g None); [by apply swapped_refl|apply step_refl|done..|].
    split_and!; [done..|]. by rewrite Hef. }
  apply wp_bind, (wp_progress_of _ g); [by rewrite Hi|]. cbn [then_]. apply wp_bind.
  destruct (expected_etag p) as [ee|] eqn:Ee.
  - destruct (Hrd Hef) as [_ Hbk]. rewrite Ee in Hbk. assert (backup g = Some (B_ p)) as Hbk' by eauto. rewrite Hbk'.
    eapply wp_mono; [by apply (back_up_spec i p g ee)|].
    intros [[]|e] t1 x1 (g1 & e1 & Hsw & Hstep & Hn1 & Hph1 & He1 & HD); cbn [then_].
    + subst g1. destruct (moved_inv _ _ _ _ Hph1 eq_refl Hr (or_introl Hpu)) as (-> & _).
      apply (publish_spec i p g t x (set_backed_up true g)); rewrite ?Ee; done.
    + by apply (ends_intro _ _ _ g1 e1).
  - apply wp_ret. cbn [then_].
    apply (publish_spec i p g t x g); rewrite ?Ee; first [done|by apply swapped_refl|apply step_refl].
Qed.

(** ** Recycling *)

Lemma stored_ext h t a rel (f f' : path → option node) :
  (∀ r, f r = f' r) → stored h t a rel f → stored h t a rel f'.
Proof. intros H [Hd Hs]. split; [done|]. intros r. by rewrite Hs. Qed.

(** What [recycle] of the backup means for the plan. *)
Lemma recycled_step p rel t t' r :
  p ∈ l → recycled (home_of p) (B_ p) rel t t' r →
  step p None (match r with Ok a => Some a | Err _ => None end) t t' ∧
  (∀ s, s ≠ AtBackup → ∀ k, under (place p s) k = true → t' !! k = t !! k).
Proof.
  intros Hp [Hout Hoth Hres _].
  assert (Hh := home_homes p).
  assert (Hfar : ∀ k, ¬ internal k → under (layout_root (home_of p)) k = false).
  { intros k Hk. apply not_true_is_false. intros Hu. apply Hk. by exists (home_of p). }
  split; [split_and!|].
  - intros k Hk Hi. apply Hout; [by apply Hfar|apply (Hk AtBackup)].
  - intros h a k Hhh Ha _ Hk. destruct (decide (h = home_of p)) as [->|Hne]; [by apply (Hoth a)|].
    apply Hout.
    + eapply apart_under; [by apply (layouts_apart h)|by eapply entry_internal].
    + apply not_true_is_false. intros Hu. apply (place_not_internal p AtBackup k Hp Hu).
      by eapply entry_is_internal.
  - intros a Ha. right. destruct r as [a'|]; [|done]. injection Ha as ->. apply Hres.
  - intros s Hs k Hk. apply Hout; [by apply Hfar, (place_not_internal p s)|].
    apply list_elem_of_lookup in Hp as [i Hi].
    eapply apart_under; [|exact Hk]. apply (places_apart i i p p s AtBackup); congruence.
Qed.

Lemma transaction_recycle_spec p t x :
  p ∈ l →
  wp (_transaction_recycle token_scope_root mapping_at_path check_path (B_ p) (target p))
    (λ r t' x', x' = x ∧ match r with
       | Ok (a, root) => root = root_name p ∧ ∃ rel,
           relative_to_workspace (home_of p) (target p) = Some rel ∧
           recycled (home_of p) (B_ p) rel t t' (Ok a)
       | Err e => t' = t ∨ ∃ rel, recycled (home_of p) (B_ p) rel t t' (Err e)
       end) t x.
Proof.
  intros Hp. assert (Hap := place_internal p AtBackup (home_of p) Hp (home_homes p)).
  set (Q := λ (r : res failure (string * option string)) (t' : tree) (x' : txn), x' = x ∧ _).
  assert (Hrun : ∀ (m : M txn string) (n : option string), n = root_name p →
    (∀ rel, relative_to_workspace (home_of p) (target p) = Some rel →
       wp m (λ r t' x', x' = x ∧ recycled (home_of p) (B_ p) rel t t' r) t x) →
    (relative_to_workspace (home_of p) (target p) = None →
       wp m (λ r t' x', x' = x ∧ ∃ e, r = Err e ∧ (t' = t ∨ ∃ rel, recycled (home_of p) (B_ p) rel t t' (Err e))) t x) →
    wp (a ← m; mret (a, n)) Q t x).
  { intros m n Hn Hsome Hnone. apply wp_bind.
    destruct (relative_to_workspace (home_of p) (target p)) as [rel|] eqn:Er; (eapply wp_mono; [by eauto|]).
    - intros [a|e] t' x' [-> H]; cbn [then_]; [apply wp_ret|]; split; eauto 10.
    - intros r t' x' (-> & e & -> & H). cbn [then_]. by split. }
  unfold _transaction_recycle, home_of, root_name in *.
  destruct (mapping_at_path (target p)) as [[r n]|] eqn:Em.
  - destruct (check_path (target p)); [apply wp_fail; by split; [|left]|].
    apply Hrun; [done|intros rel Hrel; by apply storage_recycle_spec|]. intros Er.
    eapply wp_mono; [by apply (storage_recycle_outside r (B_ p) (target p) [])|].
    intros r' t' x' (-> & e & -> & H). by eauto 10.
  - apply Hrun; [done|intros rel Hrel; by apply recycle_spec|].
    intros Er. unfold recycle. rewrite Er. apply wp_fail. eauto.
Qed.

Definition recycle_done (p : plan) (g : progress) : Prop :=
  if deleted p then is_Some (recycle_id g) else commit_done p g.

Lemma recycle_one_spec i p g t x :
  l !! i = Some p → plans x !! i = Some g → names_ok p g → phase p g None t → commit_done p g →
  wp (recycle_one token_scope_root mapping_at_path check_path p)
    (ends i p None t x (λ _ g', recycle_done p g')) t x.
Proof.
  intros Hp Hg Hn Hph Hdone. pose proof Hdone as (Hr & _ & Hfl).
  assert (Hin : p ∈ l) by by eapply list_elem_of_lookup_2. pose proof (indexed P _ _ Hp) as Hi.
  unfold recycle_one, recycle_done. destruct (deleted p) eqn:Hd; cbn [negb]; cycle 1.
  { apply wp_ret, (ends_intro _ _ _ g None); [by apply swapped_refl|apply step_refl|done..]. }
  destruct (deleted_ok P p Hin Hd) as (Hch & _ & Hgood).
  assert (effective p = true) as Hef by (unfold effective; by rewrite Hch). rewrite Hef in Hfl.
  destruct (moved_inv _ _ _ _ Hph Hfl Hr (or_intror Hd)) as (_ & Hex & Hbk & HT & HB & HS).
  apply wp_bind, (wp_progress_of _ g); [by rewrite Hi|]. cbn [then_]. rewrite Hbk.
  apply wp_bind. eapply wp_mono; [by apply transaction_recycle_spec|].
  intros [[a root]|e] t' x' [-> Hres]; cbn [then_].
  - destruct Hres as (-> & rel & Hrel & Hrec). destruct (recycled_step _ _ _ _ _ Hin Hrec) as [Hstep Hkeep].
    destruct (outcome _ _ _ _ _ _ Hrec) as (Hne & _ & _ & Hvac & Hst). cbn [fst snd].
    rewrite Hne. apply wp_bind, wp_ret. cbn [then_]. apply wp_update. rewrite Hi.
    apply (ends_intro _ _ _ (set_backed_up false (set_recycled (Some a) (root_name p) g)) (Some a)).
    + apply (swapped_update _ _ _ _ (λ g, set_backed_up false (set_recycled (Some a) (root_name p) g))).
      by apply swapped_refl.
    + done.
    + done.
    + apply Binned; [done|done|done|..].
      * eapply holds_agree; [exact HT|]. by apply (Hkeep AtTarget).
      * by apply holds_vacant.
      * intros Hst'. destruct HS as (n & Hc & Hh); [done|]. exists n. split; [done|].
        eapply holds_agree; [exact Hh|]. by apply (Hkeep AtStage).
      * exists rel. split; [done|]. eapply stored_ext; [|by apply Hst, Hgood]. intros s. apply HB.
    + done.
    + by eexists.
  - destruct Hres as [->|[rel Hrec]]; [by apply (ends_intro _ _ _ g None); [apply swapped_refl|apply step_refl|..]|].
    destruct (recycled_step _ _ _ _ _ Hin Hrec) as [Hstep Hkeep].
    apply (ends_intro _ _ _ g None); [by apply swapped_refl|done|done| |done|done].
    eapply phase_agree; [exact Hph| |done]. intros s k Hk.
    destruct s; [by apply (Hkeep AtTarget)|by apply (Hkeep AtStage)|by apply (outcome _ _ _ _ _ _ Hrec)].
Qed.

(** ** Rollback *)

Lemma looks_still_ours p g n : looks (still_ours roots mapping_at_path json_bytes p g n) (λ _ _, True).
Proof.
  unfold still_ours. destruct (_ && _); [|eapply looks_weaken; [apply looks_ret|done]].
  eapply looks_weaken; [eapply looks_bind; [apply looks_digest|intros; apply looks_ret]|done].
Qed.

(** Taking a published file back. *)
Lemma unpublish_phase i p g n t :
  l !! i = Some p → phase p g None t → published g = true → deleted p = false → t !! target p = Some n →
  phase p (set_published false g) None (move (target p) (S_ p) t).
Proof.
  intros Hp Hph Hpu Hd Hn. assert (Hin : p ∈ l) by by eapply list_elem_of_lookup_2.
  assert (Hr : recycle_id g = None) by (destruct Hph; congruence).
  destruct (public_inv _ _ _ _ Hph Hpu Hd Hr) as (_ & Hst & HS & (n' & Hc & HT) & Hex).
  assert (Hap : ∀ s s', s ≠ s' → apart (place p s) (place p s'))
    by (intros; apply (places_apart i i); congruence).
  assert (HB : ∀ f, holds t (B_ p) f → holds (move (target p) (S_ p) t) (B_ p) f).
  { intros f. apply holds_move_else; [by apply (Hap AtBackup AtTarget)|by apply (Hap AtBackup AtStage)]. }
  assert (staged p (move (target p) (S_ p) t)).
  { exists n'. split; [done|]. apply holds_moved; [by apply (Hap AtTarget AtStage)|done]. }
  assert (holds (move (target p) (S_ p) t) (target p) nothing)
    by by apply holds_left, (Hap AtTarget AtStage).
  destruct (expected_etag p) as [ee|] eqn:Ee.
  - destruct Hex as (? & ? & ?). apply Moved; cbn; first [done|by auto|by rewrite Ee].
  - destruct Hex as (? & ?). destruct (created_ok P p Hin Ee) as (Hv & _ & _).
    apply Idle; cbn; auto. intros r. unfold orig. rewrite (Hv (target p ++ r)) by apply under_app. done.
Qed.

(** Bringing an original back from its backup. *)
Lemma put_back_phase i p g t :
  l !! i = Some p → backed_up g = true → recycle_id g = None → published g = false ∨ deleted p = true →
  phase p g None t →
  phase p (set_published false (set_backed_up false g)) None (move (B_ p) (target p) t).
Proof.
  intros Hp Hb Hr Hpu Hph.
  assert (Hap : ∀ s s', s ≠ s' → apart (place p s) (place p s'))
    by (intros; apply (places_apart i i); congruence).
  destruct (moved_inv _ _ _ _ Hph Hb Hr Hpu) as (_ & _ & _ & HT & HB & HS).
  apply Idle; cbn; [done..| | |].
  - apply holds_moved; [by apply (Hap AtBackup AtTarget)|done].
  - by apply holds_left, (Hap AtBackup AtTarget).
  - intros Hst. destruct HS as (n & Hc & Hh); [done|]. exists n. split; [done|].
    apply holds_move_else; [by apply (Hap AtStage AtBackup)|by apply (Hap AtStage AtTarget)|done].
Qed.

Lemma relative_split h k rel : relative_to_workspace h k = Some rel → k = h ++ rel.
Proof.
  unfold relative_to_workspace. destruct (under h k) eqn:Hu; [|done]. intros [= <-]. by apply under_split.
Qed.

(** Restoring from the bin. *)
Lemma restore_tx_spec p a rel t x :
  p ∈ l → walk t (target p) = None → rel ≠ [] →
  relative_to_workspace (home_of p) (target p) = Some rel → stored (home_of p) t a rel (orig p) →
  wp (_transaction_restore_recycle token_scope_root mapping_at_path check_path a (root_name p))
    (λ r t' x', x' = x ∧ ((∃ e, r = Err e ∧ t' = t) ∨
       ∃ r0, restored (home_of p) a rel (orig p) t t' r0 ∧ (r = Ok tt → ∃ o, r0 = Ok o))) t x.
Proof.
  intros Hp Hw Hne Hrel Hst. assert (Ht := relative_split _ _ _ Hrel).
  assert (Hap : apart (home_of p ++ rel) (layout_root (home_of p))).
  { rewrite <- Ht. apply (place_internal p AtTarget); [done|apply home_homes]. }
  assert (Hrun : ∀ m : M txn path,
    wp m (λ r t' x', x' = x ∧ restored (home_of p) a rel (orig p) t t' r) t x →
    wp (_ ← m; mret tt)
      (λ r t' x', x' = x ∧ ((∃ e, r = Err e ∧ t' = t) ∨
         ∃ r0, restored (home_of p) a rel (orig p) t t' r0 ∧ (r = Ok tt → ∃ o, r0 = Ok o))) t x).
  { intros m Hm. apply wp_bind. eapply wp_mono; [exact Hm|].
    intros [o|e] t' x' [-> H]; cbn [then_]; [apply wp_ret|]; (split; [done|right]); eauto.
    exists (Err e). split; [done|]. done. }
  rewrite Ht in Hw.
  unfold _transaction_restore_recycle, root_name, home_of in *.
  destruct (mapping_at_path (target p)) as [[r n]|] eqn:Em; [|by apply Hrun, restore_spec].
  cbn [fmap option_fmap option_map snd].
  destruct (mapped E _ _ _ Em) as (-> & _ & _ & Hchars).
  apply orb_false_iff in Hchars as [[He Hc1]%orb_false_iff Hc2]. rewrite He, Hc1, Hc2. cbn [orb].
  assert (Hf : ∀ e : failure, (x = x ∧ ((∃ e0, Err (A:=unit) e = Err e0 ∧ t = t) ∨
    ∃ r0, restored (token_scope_root ++ [n]) a rel (orig p) t t r0 ∧ (Err e = Ok tt → ∃ o, r0 = Ok o)))) by eauto.
  destruct (mapping_at_path (token_scope_root ++ [n])) as [[r' ?]|]; [|apply wp_fail, Hf].
  destruct (bool_decide _); [|apply wp_fail, Hf].
  destruct (check_path _); [apply wp_fail, Hf|by apply Hrun, storage_restore_spec].
Qed.

Lemma binned_inv p g a t :
  phase p g (Some a) t →
  recycle_id g = Some a ∧ recycle_root g = root_name p ∧ deleted p = true ∧ holds t (target p) nothing ∧
  holds t (B_ p) nothing ∧ (stage g = Some (S_ p) → staged p t) ∧ in_bin p a t.
Proof. inversion 1; subst; auto 10. Qed.

(** What a restore from the bin means for the plan. *)
Lemma restored_phase p g a rel t t' r0 :
  p ∈ l → phase p g (Some a) t → recycle_id g = Some a →
  relative_to_workspace (home_of p) (target p) = Some rel → restored (home_of p) a rel (orig p) t t' r0 →
  ∃ e', step p (Some a) e' t t' ∧ phase p g e' t' ∧
    (∀ o, r0 = Ok o → e' = None ∧ phase p (set_backed_up false (set_published false
                                  (set_recycled None (recycle_root g) g))) None t').
Proof.
  intros Hp Hph Hr Hrel [Helse Hkept Hback]. assert (Ht := relative_split _ _ _ Hrel).
  rewrite <- Ht in Helse, Hback. assert (Hh := home_homes p).
  assert (Hsub : ∀ s, (home_of p ++ rel ++ s) = target p ++ s) by (intros; by rewrite Ht, app_assoc).
  destruct (binned_inv _ _ _ _ Hph) as (_ & Hroot & Hd & HT & HB & HS & Hbin).
  assert (Hout : ∀ k, ¬ internal k → under (target p) k = false → t' !! k = t !! k).
  { intros k Hk Hu. apply Helse; [|done]. apply not_true_is_false. intros Hl. apply Hk. by exists (home_of p). }
  assert (Hstep : ∀ e', e' = None ∨ e' = Some a → step p (Some a) e' t t').
  { intros e' He'. split_and!; [intros k Hk Hi; by apply Hout; [|apply (Hk AtTarget)]| |naive_solver].
    intros h a' k Hhh Ha Hne Hk. destruct (decide (h = home_of p)) as [->|Hhne].
    - apply (Hkept a'); [naive_solver|done].
    - apply Helse.
      + eapply apart_under; [by apply (layouts_apart h)|by eapply entry_internal].
      + apply not_true_is_false. intros Hu. apply (place_not_internal p AtTarget k Hp Hu).
        by eapply entry_is_internal. }
  assert (Hpl : ∀ s k, s ≠ AtTarget → under (place p s) k = true → t' !! k = t !! k).
  { intros s k Hs Hk. apply Hout; [by eapply place_not_internal|].
    apply list_elem_of_lookup in Hp as [i Hi]. eapply apart_under; [|exact Hk].
    by apply (own_target_apart i i). }
  assert (HB' : holds t' (B_ p) nothing) by (eapply holds_agree; [exact HB|]; intros; by apply (Hpl AtBackup)).
  assert (HS' : stage g = Some (S_ p) → staged p t').
  { intros Hs. destruct (HS Hs) as (n & Hc & Hn). exists n. split; [done|].
    eapply holds_agree; [exact Hn|]. intros. by apply (Hpl AtStage). }
  assert (Hreturn : (∀ s, t' !! (home_of p ++ rel ++ s) = orig p s) → holds t' (target p) (orig p))
    by (intros H s; by rewrite <- Hsub).
  destruct r0 as [o|e].
  - destruct Hback as [_ HTo%Hreturn]. exists None. split_and!; [by apply Hstep; left|by eapply Returned|].
    intros _ _. split; [done|]. by apply Idle.
  - destruct Hback as [HTo%Hreturn|[Hst Hsame]].
    + exists None. split_and!; [by apply Hstep; left|by eapply Returned|done].
    + exists (Some a). split_and!; [by apply Hstep; right| |done]. apply Binned; [done..| |done|done|].
      * eapply holds_agree; [exact HT|]. by apply Hsame.
      * by exists rel.
Qed.

(** The outcome of undoing one plan: it never raises, and when it reports success
    the plan is back where it started. *)
Definition undone (i : nat) (p : plan) (e : option string) (t : tree) (x : txn)
    (r : res failure bool) (t' : tree) (x' : txn) : Prop :=
  ∃ b g' e', r = Ok b ∧ swapped i g' x x' ∧ step p e e' t t' ∧ names_ok p g' ∧ phase p g' e' t' ∧
    (b = true → idle_flags g').

Lemma undone_intro i p e g' e' t x b t' x' :
  swapped i g' x x' → step p e e' t t' → names_ok p g' → phase p g' e' t' →
  (b = true → idle_flags g') → undone i p e t x (Ok b) t' x'.
Proof. intros. exists b, g', e'. auto 10. Qed.

(** Returning the original from the backup, if it is there. *)
Lemma put_back_spec i p g e t x t1 x1 g1 :
  l !! i = Some p → swapped i g1 x x1 → step p e None t t1 → e = None → names_ok p g1 → phase p g1 None t1 →
  backed_up g1 = backed_up g → backup g1 = backup g → recycle_id g1 = None →
  (published g1 = false ∨ deleted p = true) →
  wp (X:=txn) match backed_up g, backup g with
     | true, Some b =>
         _ ← rename roots b (target p);
         _ ← update p (λ g, set_published false (set_backed_up false g));
         mret true
     | _, _ => mret true
     end (λ r t' x', match r with
                     | Ok b => undone i p e t x (Ok b) t' x'
                     | Err _ => undone i p e t x (Ok false) t' x'
                     end) t1 x1.
Proof.
  intros Hp Hsw Hstep -> Hn Hph Eb Ebk Er Hpu. assert (Hin : p ∈ l) by by eapply list_elem_of_lookup_2.
  pose proof (indexed P _ _ Hp) as Hi. rewrite <- Eb, <- Ebk. destruct (backed_up g1) eqn:Hb; cycle 1.
  { apply wp_ret, (undone_intro _ _ _ g1 None); [done..|]. intros _. split_and!; [done| |done].
    destruct Hpu as [?|Hd]; [done|]. by eapply unpublished_inv. }
  destruct (moved_inv _ _ _ _ Hph Hb Er Hpu) as (_ & _ & -> & _).
  apply wp_bind, wp_rename; cbn [then_].
  - intros err. by apply (undone_intro _ _ _ g1 None).
  - intros n _ _ _. apply wp_bind, wp_update. cbn [then_]. rewrite Hi. apply wp_ret.
    eapply (undone_intro _ _ _ _ None); [apply (swapped_update _ _ _ _ _ Hsw)| |exact Hn| |done].
    + eapply step_trans; [exact Hstep|]. by apply (step_move p AtBackup AtTarget).
    + by apply (put_back_phase i).
Qed.

(** The same with a failure counted as an unsuccessful undo. *)
Definition undone_or_failed (i : nat) (p : plan) (e : option string) (t : tree) (x : txn)
    (r : res failure bool) (t' : tree) (x' : txn) : Prop :=
  undone i p e t x (Ok match r with Ok b => b | Err _ => false end) t' x'.

(** A deleted path comes back from the bin. *)
Lemma unbin_spec i p g a t x :
  l !! i = Some p → plans x !! i = Some g → names_ok p g → phase p g (Some a) t → recycle_id g = Some a →
  walk t (target p) = None →
  wp (_ ← _transaction_restore_recycle token_scope_root mapping_at_path check_path a (recycle_root g);
      _ ← update p (λ g, set_backed_up false (set_published false (set_recycled None (recycle_root g) g)));
      mret true) (undone_or_failed i p (Some a) t x) t x.
Proof.
  intros Hp Hg Hn Hph Hr Hw. assert (Hin : p ∈ l) by by eapply list_elem_of_lookup_2.
  pose proof (indexed P _ _ Hp) as Hi.
  destruct (binned_inv _ _ _ _ Hph) as (_ & Hroot & Hd & _ & _ & _ & rel & Hrel & Hst).
  destruct (deleted_ok P p Hin Hd) as (_ & _ & Hgood). rewrite Hroot.
  apply wp_bind. eapply wp_mono; [apply (restore_tx_spec p a rel); auto; by apply Hgood|].
  intros r t' x' [-> [(err & -> & ->)|(r0 & Hres & Hok)]]; cbn [then_].
  { eapply (undone_intro _ _ _ g _); [by apply swapped_refl|apply step_refl|done..]. }
  destruct (restored_phase _ _ _ _ _ _ _ Hin Hph Hr Hrel Hres) as (e' & Hstep & Hph' & Hidle).
  destruct r as [[]|err]; cbn [then_]; [|by apply (undone_intro _ _ _ g e'); [apply swapped_refl|..]].
  destruct (Hok eq_refl) as [o Ho]. destruct (Hidle o Ho) as [-> Hph'']. rewrite Hroot in Hph''.
  apply wp_bind, wp_update. cbn [then_]. rewrite Hi. apply wp_ret.
  eapply (undone_intro _ _ _ _ None); [by apply (swapped_update i g x x _), swapped_refl|done|done| |done].
  cbn. by rewrite Hroot.
Qed.

(** A published file is taken back, then the original returns. *)
Lemma unpublish_spec i p g t x :
  l !! i = Some p → plans x !! i = Some g → names_ok p g → phase p g None t → recycle_id g = None →
  wp (ok ← unpublish roots mapping_at_path json_bytes p g;
      if negb ok then mret false
      else match backed_up g, backup g with
           | true, Some b =>
               _ ← rename (X:=txn) roots b (target p);
               _ ← update p (λ g, set_published false (set_backed_up false g));
               mret true
           | _, _ => mret true
           end) (undone_or_failed i p None t x) t x.
Proof.
  intros Hp Hg Hn Hph Hr. assert (Hin : p ∈ l) by by eapply list_elem_of_lookup_2.
  pose proof (indexed P _ _ Hp) as Hi. apply wp_bind. unfold unpublish.
  assert (Hstay : undone i p None t x (Ok false) t x).
  { eapply (undone_intro _ _ _ g None); [by apply swapped_refl|apply step_refl|done..]. }
  assert (Hskip : published g = false ∨ stage g = None →
    wp (match backed_up g, backup g with
        | true, Some b =>
            _ ← rename (X:=txn) roots b (target p);
            _ ← update p (λ g, set_published false (set_backed_up false g));
            mret true
        | _, _ => mret true
        end) (undone_or_failed i p None t x) t x).
  { intros Hs. eapply wp_mono; [apply (put_back_spec i p g None t x t x g);
      try first [done|by apply swapped_refl|apply step_refl]|by intros [b|e]].
    destruct Hs as [?|Hs]; auto. destruct (published g) eqn:Hpu, (deleted p) eqn:Hd; auto.
    destruct (public_inv _ _ _ _ Hph Hpu Hd Hr) as (_ & ? & _). congruence. }
  destruct (published g) eqn:Hpu; [destruct (stage g) as [st|] eqn:Hst|]; try (apply wp_ret; cbn [then_ negb]; by auto).
  assert (st = S_ p) as -> by (destruct Hn as [[?|?] _]; congruence).
  apply wp_bind, (wp_looks _ _ _ _ _ (looks_stat _ _)). intros [c|err] Hc; cbn [then_]; [|done].
  assert (Hd : deleted p = false).
  { destruct (deleted p) eqn:Hd; [|done].
    assert (Hnone : t !! target p = None) by by eapply deleted_gone. destruct Hc as [Hc _]. congruence. }
  apply wp_bind, (wp_looks _ _ _ _ _ (looks_still_ours _ _ _)). intros [[]|err] _; cbn [then_]; [| |done].
  2: { apply wp_ret. cbn [then_ negb]. by apply wp_ret. }
  apply wp_bind, wp_rename; cbn [then_]; [done|]. intros n Hn' _ _.
  apply wp_bind, wp_update. cbn [then_]. rewrite Hi. apply wp_ret. cbn [then_ negb].
  eapply wp_mono; [apply (put_back_spec i p g None t x _ _ (set_published false g)); auto|by intros [b|e]].
  - by apply swapped_update, swapped_refl.
  - by apply (step_move p AtTarget AtStage).
  - by apply (unpublish_phase i p g n).
Qed.

Lemma roll_back_one_spec i p g e t x :
  l !! i = Some p → plans x !! i = Some g → names_ok p g → phase p g e t → recycle_id g = e →
  (deleted p = true → walk t (target p) = None) →
  wp (roll_back_one roots token_scope_root mapping_at_path check_path json_bytes p) (undone i p e t x) t x.
Proof.
  intros Hp Hg Hn Hph Hr Hw. pose proof (indexed P _ _ Hp) as Hi. unfold roll_back_one. apply wp_catch.
  eapply (wp_mono _ (undone_or_failed i p e t x)); [|intros [b|err] t' x' H; [done|by apply wp_ret]].
  apply wp_bind, (wp_progress_of _ g); [by rewrite Hi|]. cbn [then_]. destruct e as [a|].
  - destruct (binned_inv _ _ _ _ Hph) as (_ & _ & Hd & _). rewrite Hd, Hr. apply unbin_spec; auto.
  - rewrite Hr. destruct (deleted p); by apply unpublish_spec.
Qed.

(** ** Loops over the plans *)

(** The bin's entries are the recorded ones. *)
Definition synced (es : nat → option string) (x : txn) : Prop :=
  ∀ i g, plans x !! i = Some g → recycle_id g = es i.
Definition all_plans (F : plan → progress → Prop) (x : txn) : Prop :=
  ∀ i p g, l !! i = Some p → plans x !! i = Some g → F p g.

Lemma swapped_all (F : plan → progress → Prop) i p g' x x' :
  l !! i = Some p → swapped i g' x x' → F p g' → all_plans F x → all_plans F x'.
Proof.
  intros Hp (Hs & Ho & _) HF Hall j q g Hq Hg. destruct (decide (j = i)) as [->|Hj]; [by simplify_eq|].
  rewrite Ho in Hg by done. by apply (Hall j).
Qed.

Lemma swapped_synced es i g' e' x x' :
  synced es x → swapped i g' x x' → recycle_id g' = e' →
  synced (λ j, if decide (j = i) then e' else es j) x'.
Proof.
  intros Hsy (Hs & Ho & _) He j g Hg. destruct (decide (j = i)) as [->|Hj]; [by simplify_eq|].
  rewrite Ho in Hg by done. by apply Hsy.
Qed.

(** The state of a run over the plans: [A] holds of those not reached yet, [B] of
    those done, [C] of all. *)
Definition running (A : plan → progress → tree → Prop) (B C : plan → progress → Prop) (b : bool)
    (n : nat) (t : tree) (x : txn) : Prop :=
  ∃ es, inv es t x ∧ synced es x ∧ preserve_artifacts x = b ∧ all_plans C x ∧
    ∀ i p g, l !! i = Some p → plans x !! i = Some g →
      if decide (i < n)%nat then B p g else A p g t ∧ recycle_id g = None.

Lemma loop_spec (f : plan → M txn unit) A B C b t x :
  (∀ p g t t', A p g t → (∀ s k, under (place p s) k = true → t' !! k = t !! k) → A p g t') →
  (∀ i p g t x, l !! i = Some p → plans x !! i = Some g → names_ok p g → phase p g None t →
     recycle_id g = None → A p g t → C p g →
     wp (f p) (λ r t' x', ends i p None t x (λ _ g', B p g') r t' x' ∧
                          ∀ g', plans x' !! i = Some g' → C p g') t x) →
  running A B C b 0 t x →
  wp (for_each l f) (λ r t x, match r with
      | Ok _ => running A B C b (length l) t x
      | Err _ => ∃ es, inv es t x ∧ synced es x ∧ preserve_artifacts x = b ∧ all_plans C x
      end) t x.
Proof.
  intros HA Hf H0.
  apply (wp_for_each l f (λ done, running A B C b (length done))
           (λ _ t x, ∃ es, inv es t x ∧ synced es x ∧ preserve_artifacts x = b ∧ all_plans C x)); [|done].
  clear t x H0. intros dn p rest t x Hl (es & Hinv & Hsy & Hb & HC & Hall).
  set (i := length dn). assert (Hp : l !! i = Some p) by (rewrite Hl; by apply list_lookup_middle).
  destruct (lookup_lt_is_Some_2 (plans x) i) as [g Hg].
  { rewrite (inv_length _ _ _ Hinv). by eapply lookup_lt_Some. }
  destruct (inv_each _ _ _ Hinv i p g Hp Hg) as [Hn Hph].
  pose proof (Hall i p g Hp Hg) as HAg. rewrite decide_False in HAg by (subst i; lia).
  destruct HAg as [HAg Hr]. pose proof (Hsy i g Hg) as Hes. rewrite Hr in Hes. rewrite <- Hes in Hph.
  eapply wp_mono; [apply (Hf i p g); try done; by eapply HC|].
  intros r t' x' [(g' & e' & Hsw & Hstep & Hn' & Hph' & He' & HB) HC'].
  assert (Hpres : preserve_artifacts x' = b) by (destruct Hsw as (_ & _ & _ & ->); done).
  assert (Hinv' : inv (λ j, if decide (j = i) then e' else es j) t' x').
  { eapply inv_step; [exact Hinv|exact Hp|exact Hsw|by rewrite <- Hes|done|done]. }
  assert (Hsy' := swapped_synced _ _ _ _ _ _ Hsy Hsw He').
  assert (HCx : all_plans C x') by (eapply swapped_all; [exact Hp|exact Hsw|apply HC'; by apply Hsw|exact HC]).
  destruct r as [[]|e]; [|by eauto 10]. eexists. split_and!; [done..|].
  intros j q gq Hq Hgq. destruct (decide (j = i)) as [->|Hj].
  - rewrite decide_True by (rewrite length_app; cbn; subst i; lia).
    destruct Hsw as (Hs & _). by simplify_eq.
  - destruct Hsw as (_ & Ho & _). rewrite Ho in Hgq by done. specialize (Hall j q gq Hq Hgq).
    rewrite length_app. cbn. destruct (decide (j < length dn)%nat).
    + by rewrite decide_True by lia.
    + rewrite decide_False by (subst i; lia). destruct Hall as [HAj Hrj]. split; [|done].
      eapply HA; [exact HAj|]. intros s k Hk. apply Hstep.
      * intros s'. eapply apart_under; [|exact Hk]. apply (places_apart j i); [done..|]. congruence.
      * eapply place_not_internal; [|exact Hk]. by eapply list_elem_of_lookup_2.
Qed.

(** ** Staging *)

Definition unstaged (p : plan) (g : progress) (t : tree) : Prop :=
  stage g = None ∧ backup g = None ∧ holds t (S_ p) nothing.

(** Changing the staged file alone is a step of its plan that moves nothing. *)
Lemma stage_step i p g t t' :
  l !! i = Some p → idle_flags g → phase p g None t → (∀ k, k ≠ S_ p → t' !! k = t !! k) →
  step p None None t t' ∧
  ∀ g', stage g' = None ∨ staged p t' → idle_flags g' → phase p g' None t'.
Proof.
  intros Hp (Hb & Hpu & Hr) Hph Hk. assert (Hin : p ∈ l) by by eapply list_elem_of_lookup_2. split.
  - split_and!; [intros k Hpl _| |by auto].
    + apply Hk. intros ->. specialize (Hpl AtStage). by rewrite under_refl in Hpl.
    + intros h a k Hh _ _ Hu. apply Hk. intros ->.
      apply (place_not_internal p AtStage (S_ p) Hin (under_refl _)). by eapply entry_is_internal.
  - intros g' Hs (Hb' & Hpu' & Hr'). destruct (idle_inv _ _ _ _ Hph Hb Hpu Hr) as (_ & HT & HB & _).
    assert (Hne : ∀ s k, s ≠ AtStage → under (place p s) k = true → k ≠ S_ p).
    { intros s k Hs' Hu ->. assert (apart (place p s) (S_ p)) as [Ha _] by (apply (places_apart i i); congruence).
      congruence. }
    apply Idle; [done..| | |].
    + eapply holds_agree; [exact HT|]. intros k Hu. by apply Hk, (Hne AtTarget).
    + eapply holds_agree; [exact HB|]. intros k Hu. by apply Hk, (Hne AtBackup).
    + intros Hst. destruct Hs as [Hs|Hs]; [congruence|done].
Qed.

Lemma staged_file p t t' n :
  holds t (S_ p) nothing → (∀ k, k ≠ S_ p → t' !! k = t !! k) → t' !! S_ p = Some n →
  content n = File (data p) → staged p t'.
Proof.
  intros Hno Hk Hn Hc. exists n. split; [done|]. intros r. destruct r as [|c r]; [by rewrite app_nil_r|].
  rewrite Hk; [apply Hno|]. intros E'%(f_equal length). rewrite length_app in E'. cbn in E'. lia.
Qed.

(** Creating, writing and protecting the staged file. *)
Lemma wp_stage_file p (rest : M txn unit) (Q : res failure unit → tree → txn → Prop) t x :
  (∀ e t', (∀ k, k ≠ S_ p → t' !! k = t !! k) → Q (Err e) t' x) →
  (∀ t' n, (∀ k, k ≠ S_ p → t' !! k = t !! k) → t' !! S_ p = Some n → content n = File (data p) →
     wp rest Q t' x) →
  wp (X:=txn) (_ ← match anchor roots (S_ p) with None => fail (OSError EPERM) | Some _ => os_create (S_ p) 384 end;
      _ ← os_write (S_ p) (data p);
      _ ← catch (os_chmod (S_ p) (mode p)) (λ _, mret tt);
      rest) Q t x.
Proof.
  intros Hf Hm. apply wp_bind. destruct (anchor roots (S_ p)); [|apply wp_fail; by apply Hf].
  apply wp_create; cbn [then_]; [intros; by apply Hf|]. intros d i now _.
  apply wp_bind, wp_write; cbn [then_].
  - intros e n now'. apply Hf. intros k Hk. by rewrite lookup_alter_ne, lookup_insert_ne.
  - intros now'. apply wp_bind, wp_catch, wp_chmod; cbn [then_].
    + intros e. apply wp_ret. cbn [then_]. eapply Hm; [intros k Hk; by rewrite lookup_alter_ne, lookup_insert_ne|
        by rewrite lookup_alter_eq, lookup_insert_eq|done].
    + eapply Hm; [intros k Hk; by rewrite !lookup_alter_ne, lookup_insert_ne|
        by rewrite !lookup_alter_eq, lookup_insert_eq|done].
Qed.

Lemma stage_one_spec i p g t x :
  l !! i = Some p → plans x !! i = Some g → names_ok p g → phase p g None t → recycle_id g = None →
  unstaged p g t → idle_flags g →
  wp (stage_one roots id p) (λ r t' x',
    ends i p None t x (λ _ g', idle_flags g' ∧ ready p g') r t' x' ∧
    ∀ g', plans x' !! i = Some g' → idle_flags g') t x.
Proof.
  intros Hp Hg Hn Hph Hr (Hst & Hbk & Hno) Hfl. pose proof (indexed P _ _ Hp) as Hi.
  assert (Hin : p ∈ l) by by eapply list_elem_of_lookup_2.
  set (Q := λ (r : res failure unit) t' x', ends i p None t x (λ _ g', idle_flags g' ∧ ready p g') r t' x' ∧
    ∀ g', plans x' !! i = Some g' → idle_flags g').
  assert (Hintro : ∀ g' r t' x', swapped i g' x x' → (∀ k, k ≠ S_ p → t' !! k = t !! k) →
    idle_flags g' → names_ok p g' → stage g' = None ∨ staged p t' → (r = Ok tt → ready p g') → Q r t' x').
  { intros g' r t' x' Hsw Hk Hfl' Hn' Hs Hrd. destruct (stage_step i p g t t' Hp Hfl Hph Hk) as [Hstep Hph'].
    split; [|intros g'' Hg''; destruct Hsw as [Hs' _]; by simplify_eq].
    apply (ends_intro _ _ _ g' None); [done..|by apply Hph'|by apply Hfl'|]. destruct r as [[]|]; [|done]. auto. }
  unfold stage_one. apply wp_bind, (wp_looks _ _ _ _ _ looks_deadline).
  intros r [-> | [c ->]]; cbn [then_]; cycle 1.
  { apply (Hintro g); [by apply swapped_refl|done..|by left|done]. }
  destruct (deleted p) eqn:Hd.
  { apply wp_update. rewrite Hi. apply (Hintro (set_backup (B_ p) g)); cbn; [|done..| |by left|].
    - unfold place. rewrite Hi. by apply swapped_update, swapped_refl.
    - split; [by left|by right].
    - intros _ _. cbn. split; [congruence|done]. }
  destruct (changed p || bool_decide (expected_etag p = None)) eqn:Hef; cycle 1.
  { apply wp_ret, (Hintro g); [by apply swapped_refl|done..|by left|]. intros _ He. unfold effective in He. congruence. }
  apply wp_stage_file.
  { intros e t' Hk. apply (Hintro g); [by apply swapped_refl|done..|by left|done]. }
  intros t' n Hk Hnode Hc. assert (Hs : staged p t') by by eapply staged_file.
  apply wp_bind, wp_update. cbn [then_].
  change (stage_path (target p) id (index p)) with (S_ p). change (backup_path (target p) id (index p)) with (B_ p).
  assert (Hsw : swapped i (set_stage (S_ p) g) x
                  (Txn (alter (set_stage (S_ p)) (index p) (plans x)) (preserve_artifacts x)))
    by (rewrite Hi; by apply swapped_update, swapped_refl).
  destruct (expected_etag p) as [ee|] eqn:Ee.
  - apply wp_update. rewrite Hi in *.
    apply (Hintro (set_backup (B_ p) (set_stage (S_ p) g)));
      [by apply (swapped_update _ _ _ _ _ Hsw)|done|done|split; by right|by right|done].
  - apply wp_ret. apply (Hintro (set_stage (S_ p) g)); [done|done|done|split; [by right|by left]|by right|].
    intros _ _. split; [done|]. rewrite Ee. by intros [? ?].
Qed.

(** ** The whole rollback *)

(** The directories above a target stay. *)
Lemma target_walk es t x p :
  inv es t x → p ∈ l → deleted p = true → walk t (target p) = None.
Proof.
  intros Hinv Hp Hd. destruct (deleted_ok P p Hp Hd) as (_ & Hw & _).
  destruct (target_ok P p Hp) as (_ & Hcl & Hap).
  apply (walk_agree t0); [|done]. intros n Hn. apply (inv_rest _ _ _ Hinv).
  - intros q s Hq. apply under_false. intros Hpre. assert (Hpre' : place q s `prefix_of` target p)
      by (etrans; [exact Hpre|apply prefix_take]).
    destruct (decide (s = AtTarget)) as [->|Hs].
    + apply list_elem_of_lookup in Hp as [i Hi], Hq as [j Hj]. destruct (decide (i = j)) as [->|Hij].
      * simplify_eq. apply prefix_length in Hpre. cbn in Hpre. rewrite length_take in Hpre. lia.
      * destruct (targets_apart P i j p q Hi Hj Hij) as [_ H]. apply under_false in H. done.
    + destruct (place_own q s Hq Hs) as [c Hc]. by apply (beside_dirty _ _ _ _ Hc), (clean_prefix _ _ _ Hpre').
  - intros (h & Hh & Hu%under_spec). destruct (Hap h Hh) as [_ H]. apply under_false in H. apply H.
    etrans; [exact Hu|apply prefix_take].
Qed.

Lemma roll_back_all_spec ls es t x :
  (∀ p, p ∈ ls → p ∈ l) → NoDup (index <$> ls) → inv es t x →
  (∀ p g, p ∈ ls → plans x !! index p = Some g → recycle_id g = es (index p)) →
  wp (roll_back_all roots token_scope_root mapping_at_path check_path json_bytes ls)
    (λ r t' x', ∃ b es', r = Ok b ∧ inv es' t' x' ∧ preserve_artifacts x' = preserve_artifacts x ∧
       (∀ j, j ∉ index <$> ls → plans x' !! j = plans x !! j) ∧
       (b = true → ∀ p g, p ∈ ls → plans x' !! index p = Some g → idle_flags g)) t x.
Proof.
  revert es t x. induction ls as [|p ls IH]; intros es t x Hls Hnd Hinv Hsy; cbn [roll_back_all].
  { apply wp_ret. exists true, es. split_and!; [done..|]. intros _ p g Hp. by apply elem_of_nil in Hp. }
  rewrite fmap_cons in Hnd. apply NoDup_cons in Hnd as [Hni Hnd]. assert (Hp : p ∈ l) by (apply Hls; left).
  apply list_elem_of_lookup in Hp as [i Hi]. pose proof (indexed P _ _ Hi) as Hidx.
  destruct (lookup_lt_is_Some_2 (plans x) i) as [g Hg].
  { rewrite (inv_length _ _ _ Hinv). by eapply lookup_lt_Some. }
  destruct (inv_each _ _ _ Hinv i p g Hi Hg) as [Hn Hph].
  apply wp_bind. eapply wp_mono.
  { apply (roll_back_one_spec i p g (es i)); [done..| |].
    - rewrite <- Hidx. apply Hsy; [left|by rewrite Hidx].
    - intros Hd. apply (target_walk es t x p Hinv); [by eapply list_elem_of_lookup_2|done]. }
  intros r t1 x1 (b & g1 & e1 & -> & Hsw & Hstep & Hn1 & Hph1 & Hb). cbn [then_].
  assert (Hinv1 := inv_step _ _ _ _ _ _ _ _ _ Hinv Hi Hsw Hstep Hn1 Hph1).
  destruct Hsw as (Hs1 & Ho & Hlen & Hpres).
  apply wp_bind. eapply wp_mono.
  { apply (IH (λ j, if decide (j = i) then e1 else es j) t1 x1);
      [intros q Hq; apply Hls; by right|done|exact Hinv1|].
    intros q gq Hq Hgq. assert (index q ≠ i) as Hne.
    { intros Hqi. apply Hni. rewrite Hidx, <- Hqi. by apply list_elem_of_fmap_2. }
    rewrite decide_False by done. apply Hsy; [by right|]. by rewrite <- Ho. }
  intros r t2 x2 (b2 & es2 & -> & Hinv2 & Hp2 & Ho2 & Hb2). cbn [then_]. apply wp_ret.
  exists (b && b2), es2. split_and!; [done|done|by rewrite Hp2, Hpres| |].
  - intros j [Hj1 Hj2]%not_elem_of_cons. rewrite Ho2 by exact Hj2. apply Ho. congruence.
  - intros [-> ->]%andb_true_iff q gq Hq Hgq. apply elem_of_cons in Hq as [->|Hq]; [|by apply (Hb2 eq_refl q)].
    rewrite Ho2 in Hgq by done. rewrite Hidx, Hs1 in Hgq. injection Hgq as <-. by apply Hb.
Qed.

Lemma index_seq : index <$> l = seq 0 (length l).
Proof.
  apply list_eq. intros i. rewrite list_lookup_fmap. destruct (l !! i) as [p|] eqn:Hp; cbn.
  - rewrite (indexed P _ _ Hp). symmetry. apply lookup_seq. split; [lia|]. by eapply lookup_lt_Some.
  - symmetry. apply lookup_seq_ge. by apply lookup_ge_None.
Qed.

Definition rollback_failed : failure := Api (api_error 500 "mutation_rollback_failed").

Lemma rollback_spec es t x :
  inv es t x → synced es x →
  wp (_rollback roots token_scope_root mapping_at_path check_path json_bytes l)
    (λ r t' x', ∃ es', inv es' t' x' ∧ preserve_artifacts x' = preserve_artifacts x ∧
       match r with Ok _ => all_plans (λ _ g, idle_flags g) x' | Err e => e = rollback_failed end) t x.
Proof.
  intros Hinv Hsy. unfold _rollback. apply wp_bind. eapply wp_mono.
  { apply (roll_back_all_spec (reverse l) es); [|..|exact Hinv|].
    - intros p. by rewrite elem_of_reverse.
    - rewrite reverse_Permutation, index_seq. apply NoDup_seq.
    - intros p g _ Hg. by apply Hsy. }
  intros r t' x' (b & es' & -> & Hinv' & Hpres & _ & Hb). cbn [then_].
  destruct b; [apply wp_ret|apply wp_fail]; exists es'; split_and!; try done.
  intros i p g Hp Hg. apply (Hb eq_refl p); [by eapply elem_of_reverse, list_elem_of_lookup_2|].
  by rewrite (indexed P _ _ Hp).
Qed.

(** ** The commit *)

Lemma commit_loops b t x :
  running (λ p g _, idle_flags g ∧ ready p g) commit_done (λ _ _, True) b 0 t x →
  wp (_ ← for_each l (commit_one roots mapping_at_path json_bytes);
      for_each l (recycle_one token_scope_root mapping_at_path check_path))
    (λ r t x, ∃ es, inv es t x ∧ synced es x ∧ preserve_artifacts x = b ∧
       match r with Ok _ => all_plans recycle_done x | Err _ => True end) t x.
Proof.
  intros H0. apply wp_bind. eapply wp_mono.
  { apply (loop_spec _ (λ p g _, idle_flags g ∧ ready p g) commit_done (λ _ _, True) b); [done| |exact H0].
    intros i p g t1 x1 Hp Hg Hn Hph Hr [Hfl Hrd] _. eapply wp_mono; [by apply (commit_one_spec i p g)|]. done. }
  intros [[]|e] t1 x1 H1; cbn [then_]; cycle 1.
  { destruct H1 as (es & ? & ? & ? & _). exists es. done. }
  eapply wp_mono.
  { apply (loop_spec _ (λ p g _, commit_done p g) recycle_done (λ _ _, True) b); [done|..].
    - intros i p g t2 x2 Hp Hg Hn Hph Hr Hd _. eapply wp_mono; [by apply (recycle_one_spec i p g)|]. done.
    - destruct H1 as (es & Hinv & Hsy & Hb & _ & Hall). exists es. split_and!; [done..|].
      intros i p g Hp Hg. specialize (Hall i p g Hp Hg). rewrite decide_True in Hall by by eapply lookup_lt_Some.
      rewrite decide_False by lia. split; [done|apply Hall]. }
  intros [[]|e] t2 x2 H2; cbn.
  - destruct H2 as (es & Hinv & Hsy & Hb & _ & Hall). exists es. split_and!; [done..|].
    intros i p g Hp Hg. specialize (Hall i p g Hp Hg). by rewrite decide_True in Hall by by eapply lookup_lt_Some.
  - destruct H2 as (es & ? & ? & ? & _). exists es. done.
Qed.

(** The commit completes, or everything is undone, or the rollback says it failed. *)
Definition commit_result (r : res failure unit) (t : tree) (x : txn) : Prop :=
  ∃ es, inv es t x ∧
    match r with
    | Ok _ => all_plans recycle_done x ∧ synced es x ∧ preserve_artifacts x = false
    | Err e => all_plans (λ _ g, idle_flags g) x ∧ preserve_artifacts x = false ∨
               e = rollback_failed ∧ preserve_artifacts x = true
    end.

Lemma commit_spec t x :
  running (λ p g _, idle_flags g ∧ ready p g) commit_done (λ _ _, True) false 0 t x →
  wp (commit roots token_scope_root mapping_at_path check_path json_bytes l) commit_result t x.
Proof.
  intros H0. unfold commit. apply wp_catch. eapply wp_mono; [by apply (commit_loops false)|].
  intros [[]|e] t1 x1 (es & Hinv & Hsy & Hb & Hall); [by exists es|].
  apply wp_bind, wp_catch. eapply wp_mono; [by apply (rollback_spec es)|].
  intros [[]|e'] t2 x2 (es' & Hinv' & Hb' & Hres); cbn [then_].
  - apply wp_fail. exists es'. split; [done|]. left. split; [done|congruence].
  - apply wp_bind, wp_set_local. cbn [then_]. apply wp_fail. cbn [then_]. subst e'. exists es'.
    split; [|right; done]. destruct Hinv' as [H1 H2 H3 H4]. by split.
Qed.

(** ** What the outcome means for everybody else *)

(** Paths that are neither the transaction's own files nor in a private directory. *)
Definition visible (k : path) : Prop := clean id k ∧ ¬ internal k.

Definition unchanged (t : tree) : Prop := ∀ k, visible k → t !! k = t0 !! k.

(** Every effective plan is carried out and nothing else changes. *)
Definition applied (t : tree) : Prop :=
  (∀ k, visible k → (∀ p, p ∈ l → effective p = true → under (target p) k = false) → t !! k = t0 !! k) ∧
  ∀ p, p ∈ l → effective p = true →
    if deleted p then holds t (target p) nothing
    else ∃ n, content n = File (data p) ∧ holds t (target p) (only n).

(** Every original is still somewhere: in place, beside it, or in the bin. *)
Definition kept (t : tree) : Prop :=
  ∀ p, p ∈ l → is_Some (expected_etag p) →
    holds t (target p) (orig p) ∨ holds t (B_ p) (orig p) ∨ ∃ a, in_bin p a t.

Lemma inv_plan es t x p :
  inv es t x → p ∈ l → ∃ i g, l !! i = Some p ∧ plans x !! i = Some g ∧ names_ok p g ∧ phase p g (es i) t.
Proof.
  intros Hinv [i Hi]%list_elem_of_lookup. destruct (lookup_lt_is_Some_2 (plans x) i) as [g Hg].
  { rewrite (inv_length _ _ _ Hinv). by eapply lookup_lt_Some. }
  exists i, g. split_and!; [done..| |]; by apply (inv_each _ _ _ Hinv i p g).
Qed.

(** A visible path below no target is as it was; one below a target is judged by it. *)
Lemma visible_cases es t x k :
  inv es t x → visible k →
  (∀ p, p ∈ l → under (target p) k = true → t !! k = t0 !! k) → t !! k = t0 !! k.
Proof.
  intros Hinv [Hcl Hni] Ht. destruct (decide (Exists (λ p, under (target p) k = true) l)) as [Hex|Hno].
  - apply Exists_exists in Hex as (p & Hp & Hu). by apply (Ht p).
  - apply (inv_rest _ _ _ Hinv); [|done]. intros p s Hp. apply not_true_is_false. intros Hu.
    destruct (decide (s = AtTarget)) as [->|Hs].
    + apply Hno, Exists_exists. eauto.
    + destruct (place_own p s Hp Hs) as [c Hc]. apply under_spec in Hu.
      by apply (beside_dirty _ _ _ _ Hc), (clean_prefix _ _ _ Hu).
Qed.

Lemma orig_at t p k : holds t (target p) (orig p) → under (target p) k = true → t !! k = t0 !! k.
Proof. intros H Hu. rewrite (under_split _ _ Hu). apply H. Qed.

Lemma idle_unchanged es t x : inv es t x → all_plans (λ _ g, idle_flags g) x → unchanged t.
Proof.
  intros Hinv Hall k Hk. eapply visible_cases; [done..|]. intros p Hp Hu.
  destruct (inv_plan _ _ _ _ Hinv Hp) as (i & g & Hi & Hg & _ & Hph).
  destruct (Hall i p g Hi Hg) as (Hb & Hpu & Hr).
  destruct (idle_inv _ _ _ _ Hph Hb Hpu Hr) as (_ & HT & _). by eapply orig_at.
Qed.

Lemma done_applied es t x : inv es t x → synced es x → all_plans recycle_done x → applied t.
Proof.
  intros Hinv Hsy Hall. split.
  - intros k Hk Hno. eapply visible_cases; [done..|]. intros p Hp Hu.
    destruct (inv_plan _ _ _ _ Hinv Hp) as (i & g & Hi & Hg & _ & Hph).
    destruct (effective p) eqn:He; [by rewrite Hno in Hu|].
    pose proof (Hall i p g Hi Hg) as Hd. unfold recycle_done in Hd. destruct (deleted p) eqn:Hdel.
    { destruct (deleted_ok P p Hp Hdel) as (Hch & _). unfold effective in He. by rewrite Hch in He. }
    destruct Hd as (Hr & _ & Hfl). rewrite He in Hfl. destruct Hfl as (Hb & Hpu & _).
    destruct (idle_inv _ _ _ _ Hph Hb Hpu Hr) as (_ & HT & _). by eapply orig_at.
  - intros p Hp He. destruct (inv_plan _ _ _ _ Hinv Hp) as (i & g & Hi & Hg & _ & Hph).
    pose proof (Hall i p g Hi Hg) as Hd. unfold recycle_done in Hd. destruct (deleted p) eqn:Hdel.
    + destruct Hd as [a Ha]. pose proof (Hsy i g Hg) as Hes. rewrite Ha in Hes. rewrite <- Hes in Hph.
      by apply binned_inv in Hph as (_ & _ & _ & HT & _).
    + destruct Hd as (Hr & _ & Hfl). rewrite He, Hdel in Hfl.
      by destruct (public_inv _ _ _ _ Hph Hfl Hdel Hr) as (_ & _ & _ & Hn & _).
Qed.

Lemma inv_kept es t x : inv es t x → kept t.
Proof.
  intros Hinv p Hp Hex. destruct (inv_plan _ _ _ _ Hinv Hp) as (i & g & Hi & Hg & _ & Hph).
  destruct Hph as [| | ? ? ? ? ? ? ? ? ? Hb| |]; [by left|right; by left| |right; right; by eauto|by left].
  destruct (expected_etag p); [|by destruct Hex]. right. left. apply Hb.
Qed.

(** ** Cleaning up *)

Definition own_path (k : path) : Prop := ∃ p s, p ∈ l ∧ s ≠ AtTarget ∧ k = place p s.

Lemma clean_up_spec t x :
  all_plans names_ok x → length (plans x) = length l →
  wp (clean_up l) (λ r t' x', x' = x ∧ (preserve_artifacts x = true → t' = t ∧ r = Ok tt) ∧
                    ∀ k, ¬ own_path k → t' !! k = t !! k) t x.
Proof.
  intros Hn Hlen. unfold clean_up. apply wp_bind, wp_get_local. cbn [then_].
  destruct (preserve_artifacts x) eqn:Hb; [by apply wp_ret|].
  eapply (wp_mono _ (λ (r : res failure unit) t' x', match r with
    | Ok _ => x' = x ∧ ∀ k, ¬ own_path k → t' !! k = t !! k
    | Err _ => x' = x ∧ ∀ k, ¬ own_path k → t' !! k = t !! k end)); [|intros [] ? ? [? ?]; by split_and!].
  apply (wp_for_each l _ (λ _ t' x', x' = x ∧ ∀ k, ¬ own_path k → t' !! k = t !! k)
           (λ _ t' x', x' = x ∧ ∀ k, ¬ own_path k → t' !! k = t !! k)); [|done].
  intros dn p rest t1 x1 Hl [-> H1]. set (i := length dn).
  assert (Hp : l !! i = Some p) by (rewrite Hl; by apply list_lookup_middle).
  assert (Hin : p ∈ l) by by eapply list_elem_of_lookup_2.
  destruct (lookup_lt_is_Some_2 (plans x) i) as [g Hg]; [rewrite Hlen; by eapply lookup_lt_Some|].
  apply wp_bind, (wp_progress_of _ g); [by rewrite (indexed P _ _ Hp)|]. cbn [then_].
  assert (Hown : ∀ o, o = stage g ∨ o = backup g → touches (X:=txn) (_cleanup o) own_path).
  { intros o Ho. destruct (Hn i p g Hp Hg) as [Hs Hbk]. unfold _cleanup, unlink_missing_ok.
    destruct o as [q|]; [|touch]. assert (own_path q) by
      (destruct Ho as [Ho|Ho]; rewrite <- Ho in *;
       [exists p, AtStage|exists p, AtBackup]; split_and!; naive_solver congruence). touch. }
  eapply wp_mono; [apply touches_bind; [apply Hown; by left|intros _; apply Hown; by right]|].
  intros r t2 x2 [-> H2]. assert (x = x ∧ ∀ k, ¬ own_path k → t2 !! k = t !! k) by
    (split; [done|]; intros k Hk; by rewrite H2, H1). by destruct r.
Qed.

(** ** The transaction *)

Lemma wp_finally {A} (m : M txn A) (last : M txn unit) (Q : res failure A → tree → txn → Prop) t x :
  wp m (λ r t x, wp last (λ r2 t2 x2, Q (match r2 with Ok _ => r | Err e => Err e end) t2 x2) t x) t x →
  wp (finally m last) Q t x.
Proof.
  intros H o Ho. unfold finally. destruct (H o Ho) as [Ho1 H1].
  destruct (m (World t o x)) as [r [t1 o1 x1]]. cbn in *. destruct (H1 o1 Ho1) as [Ho2 H2].
  by destruct (last (World t1 o1 x1)) as [[[]|e] [t2 o2 x2]].
Qed.

Lemma looks_revalidate : looks (_revalidate roots l) (λ _ _, True).
Proof.
  unfold _revalidate. induction l as [|p ps IH]; cbn [for_each]; [eapply looks_weaken; [apply looks_ret|done]|].
  intros t x. apply wp_bind. eapply (wp_mono _ (λ _ t' x', t' = t ∧ x' = x)).
  - destruct (expected_etag p).
    + apply wp_bind, (wp_looks _ _ _ _ _ (looks_stat _ _)). intros [n|e] _; cbn [then_]; [|done].
      by apply wp_raise_when.
    + apply wp_bind. unfold _missing. apply wp_catch, wp_bind, (wp_looks _ _ _ _ _ (looks_stat _ _)).
      intros [n|e] _; cbn [then_]; [apply wp_ret; cbn [then_]; by apply wp_raise_when|].
      destruct e as [a| | |]; try by apply wp_fail.
      destruct (String.eqb _ _); [apply wp_ret; cbn [then_]; by apply wp_raise_when|by apply wp_fail].
  - intros [[]|e] ? ? [-> ->]; cbn [then_]; [apply IH|done].
Qed.

Lemma looks_final_stats : looks (final_stats roots l) (λ _ _, True).
Proof.
  unfold final_stats. induction l as [|p ps IH]; cbn [for_each]; [eapply looks_weaken; [apply looks_ret|done]|].
  intros t x. apply wp_bind. destruct (deleted p); [apply wp_ret; cbn [then_]; apply IH|].
  apply wp_bind, (wp_looks _ _ _ _ _ (looks_stat _ _)). intros [n|e] _; cbn [then_]; [|done].
  apply wp_ret. cbn [then_]. apply IH.
Qed.

(** The state the body of the transaction leaves for the cleanup. *)
Definition left_behind (r : res failure answer) (t : tree) (x : txn) : Prop :=
  ∃ es, inv es t x ∧
    match r with
    | Ok a => (∃ f, a = Committed l f) ∧ all_plans recycle_done x ∧ synced es x
    | Err e => all_plans (λ _ g, idle_flags g) x ∨
               (all_plans recycle_done x ∧ synced es x) ∨
               (e = rollback_failed ∧ preserve_artifacts x = true)
    end.

Definition start : txn := Txn (replicate (length l) fresh) false.

Lemma start_running : running unstaged (λ p g, idle_flags g ∧ ready p g) (λ _ g, idle_flags g) false 0 t0 start.
Proof.
  assert (Hg : ∀ i g, plans start !! i = Some g → g = fresh) by (intros i g [-> _]%lookup_replicate; done).
  assert (Hno : ∀ p s, p ∈ l → s ≠ AtTarget → holds t0 (place p s) nothing).
  { intros p s Hp Hs r. destruct (t0 !! (place p s ++ r)) eqn:Et; [|done].
    destruct (place_own p s Hp Hs) as [c Hc]. exfalso. apply (beside_dirty _ _ _ _ Hc).
    eapply clean_prefix; [by eexists|]. apply (untouched P). by eauto. }
  exists (λ _, None). split_and!.
  - split; [apply length_replicate| |done|done]. intros i p g Hi ->%Hg.
    assert (p ∈ l) by by eapply list_elem_of_lookup_2.
    split; [split; by left|]. by apply Idle; [..|apply (Hno p AtBackup)|].
  - by intros i g ->%Hg.
  - done.
  - by intros i p g _ ->%Hg.
  - intros i p g Hi ->%Hg. rewrite decide_False by lia. split; [|done]. split_and!; [done..|].
    apply (Hno p AtStage); [by eapply list_elem_of_lookup_2|done].
Qed.

Lemma body_spec :
  wp (_ ← for_each l (stage_one roots id);
      _ ← _revalidate roots l;
      _ ← check_deadline;
      _ ← commit roots token_scope_root mapping_at_path check_path json_bytes l;
      _ ← final_stats roots l;
      x ← get_local;
      mret (Committed l (plans x))) left_behind t0 start.
Proof.
  apply wp_bind. eapply wp_mono.
  { apply (loop_spec _ unstaged (λ p g, idle_flags g ∧ ready p g) (λ _ g, idle_flags g) false); [..|apply start_running].
    - intros p g t t' (? & ? & Hh) Hk. split_and!; [done..|]. eapply holds_agree; [exact Hh|].
      intros k. by apply (Hk AtStage).
    - intros i p g t x Hp Hg Hn Hph Hr HA HC. by apply (stage_one_spec i p g). }
  intros [[]|e] t x Hst; cbn [then_]; cycle 1.
  { destruct Hst as (es & Hinv & _ & _ & Hall). exists es. split; [done|]. by left. }
  assert (Hidle : ∀ e, left_behind (Err e) t x).
  { intros e. destruct Hst as (es & Hinv & _ & _ & Hall & _). exists es. split; [done|]. by left. }
  apply wp_bind, (wp_looks _ _ _ _ _ looks_revalidate). intros [[]|e] _; cbn [then_]; [|done].
  apply wp_bind, (wp_looks _ _ _ _ _ looks_deadline). intros r [-> | [c ->]]; cbn [then_]; [|done].
  apply wp_bind. eapply wp_mono.
  { apply commit_spec. destruct Hst as (es & Hinv & Hsy & Hb & _ & Hall). exists es. split_and!; [done..|].
    intros i p g Hp Hg. specialize (Hall i p g Hp Hg). rewrite decide_True in Hall by by eapply lookup_lt_Some.
    rewrite decide_False by lia. split; [done|]. apply Hall. }
  intros [[]|e] t1 x1 (es & Hinv & Hres); cbn [then_]; cycle 1.
  { exists es. split; [done|]. destruct Hres as [[? ?]|[? ?]]; auto. }
  destruct Hres as (Hall & Hsy & _).
  apply wp_bind, (wp_looks _ _ _ _ _ looks_final_stats). intros [[]|e] _; cbn [then_].
  - apply wp_bind, wp_get_local. cbn [then_]. apply wp_ret. exists es. split_and!; eauto.
  - exists es. split; [done|]. auto.
Qed.

(** What a request that reached its transaction leaves on disk. *)
Definition all_or_nothing (r : res failure answer) (t : tree) : Prop :=
  match r with
  | Ok a => (∃ f, a = Committed l f) ∧ applied t
  | Err e => unchanged t ∨ applied t ∨ (e = rollback_failed ∧ kept t)
  end.

Lemma own_dirty k : own_path k → ¬ clean id k.
Proof. intros (p & s & Hp & Hs & ->). destruct (place_own p s Hp Hs) as [c Hc]. by eapply beside_dirty. Qed.

Lemma unchanged_off t t' : (∀ k, ¬ own_path k → t' !! k = t !! k) → unchanged t → unchanged t'.
Proof. intros H Hu k Hk. rewrite H; [by apply Hu|]. intros Ho%own_dirty. by apply Ho, Hk. Qed.

Lemma applied_off t t' : (∀ k, ¬ own_path k → t' !! k = t !! k) → applied t → applied t'.
Proof.
  intros H [H1 H2].
  assert (Ht : ∀ p f, p ∈ l → holds t (target p) f → holds t' (target p) f).
  { intros p f Hp Hf. eapply holds_agree; [exact Hf|]. intros k Hk. apply H.
    intros (q & s & Hq & Hs & ->). apply list_elem_of_lookup in Hp as [i Hi], Hq as [j Hj].
    destruct (own_target_apart j i q p s Hj Hi Hs) as [_ Ha]. congruence. }
  split.
  - intros k Hk Hno. rewrite H; [by apply H1|]. intros Ho%own_dirty. by apply Ho, Hk.
  - intros p Hp He. specialize (H2 p Hp He). destruct (deleted p); [by apply Ht|].
    destruct H2 as (n & Hc & Hn). exists n. split; [done|]. by apply Ht.
Qed.

Lemma transaction_spec :
  wp (transaction roots token_scope_root mapping_at_path check_path json_bytes id l)
    (λ r t _, all_or_nothing r t) t0 start.
Proof.
  unfold transaction. apply wp_finally. eapply wp_mono; [apply body_spec|].
  intros r t x (es & Hinv & Hres). eapply wp_mono.
  { apply clean_up_spec; [|apply (inv_length _ _ _ Hinv)]. intros i p g Hp Hg. by apply (inv_each _ _ _ Hinv i p g). }
  intros r2 t2 x2 (-> & Hpres & Hoff).
  assert (Happ : all_plans recycle_done x → synced es x → applied t2).
  { intros. by eapply applied_off, done_applied. }
  destruct r as [a|e].
  - destruct Hres as (Ha & Hall & Hsy). destruct r2 as [[]|e2]; cbn; auto.
  - destruct Hres as [Hidle|[[Hall Hsy]|[-> Hb]]].
    + assert (unchanged t2) by (by eapply unchanged_off, idle_unchanged). destruct r2; cbn; auto.
    + destruct r2; cbn; auto.
    + destruct (Hpres Hb) as [-> ->]. cbn. right. right. split; [done|]. by eapply inv_kept.
Qed.

End transaction.
