(* ===== verification/MutationAtomic.v ===== *)
(** * MutationAtomic: what planning guarantees, and the theorem about requests

    [execute_mutation] plans every item on the tree it finds; the plans satisfy
    what the transaction of MutationTheorems needs. *)

From Stdlib Require Import ZArith QArith Lia Ascii String.
From stdpp Require Import base tactics list list_numbers gmap strings fin_maps.
From S2P Require Import Prelude Hashing TextEdit FileSystem Recycle Mutation MutationTheorems.

Local Open Scope Z_scope.
Abbreviation path := FileSystem.path.

(** ** Planning one item *)

Section planning.
Context (roots : list path) (token_scope_root : path)
  (_resolve_path : string → res ApiError path)
  (_authorize_external_recycle : path → bool)
  (mapping_at_path : path → option (path * string))
  (check_path : path → option ApiError)
  (max_batch_file_operations : Z).
Context (codec_name : string → option string)
  (encode : string → text → option bytes) (decode : string → bytes → option text)
  (json_bytes : list (string * json) → bytes)
  (_apply_structured_patch : text → path → list (string * json) → res ApiError text).

Abbreviation plan_item := (_plan_item roots token_scope_root _resolve_path _authorize_external_recycle
  mapping_at_path codec_name encode decode json_bytes _apply_structured_patch).
Abbreviation homes := (homes token_scope_root mapping_at_path).

Lemma wp_guard b h c (Q : res failure unit → tree → txn → Prop) t x :
  (b = true → ∀ e, Q (Err e) t x) → (b = false → Q (Ok tt) t x) → wp (raise_when b h c) Q t x.
Proof. intros. unfold raise_when. destruct b; [apply wp_fail|apply wp_ret]; auto. Qed.

Lemma looks_missing p t x (Q : res failure bool → tree → txn → Prop) :
  grown t → (∀ e, Q (Err e) t x) → (t !! p = None → Q (Ok true) t x) → Q (Ok false) t x →
  wp (_missing roots p) Q t x.
Proof.
  intros Hg He Ht Hf. unfold _missing. apply wp_catch, wp_bind, (wp_looks _ _ _ _ _ (looks_stat _ _)).
  intros [n|e] H; cbn [then_]; [by apply wp_ret|].
  destruct e as [[h c]| | |]; cbn [error_code]; try by apply wp_fail.
  destruct (String.eqb c "path_not_found") eqn:Ec; [|by apply wp_fail].
  apply wp_ret, Ht. apply String.eqb_eq in Ec. destruct (H _ eq_refl Ec) as [?|[err Hw]]; [done|].
  destruct (t !! p) eqn:E; [|done]. rewrite grown_walk in Hw by eauto. done.
Qed.

(** ** What a plan says about its item and the tree *)

(** The codec an item names. *)
Definition named_codec (item : list (string * json)) (enc : string) : Prop :=
  ∃ s, obj_get_or "encoding" (JStr "utf-8") item = JStr s ∧ codec_name s = Some enc ∧ enc ∈ ENCODINGS.

(** The whole new content an item carries. *)
Definition written (item : list (string * json)) (b : bytes) : Prop :=
  ∃ s enc, obj_get_or "content" JNull item = JStr s ∧ named_codec item enc ∧ encode enc (chars s) = Some b.

(** The bytes [raw] of a file become [b]. *)
Definition edited (item : list (string * json)) (op : string) (p : path) (raw b : bytes) : Prop :=
  if String.eqb op "file.replace" then written item b
  else if bool_decide (op ∈ ["text.replace"; "text.insert_before"; "text.insert_after"]%string) then
    ∃ enc tx tx' n, named_codec item enc ∧ decode enc raw = Some tx ∧ encode enc tx' = Some b ∧
      (if String.eqb op "text.replace"
       then _apply_text_replacements tx (obj_get_or "replacements" JNull item) (item_selectors item)
       else _apply_text_insertion tx item (String.eqb op "text.insert_after")) = Ok (tx', n)
  else ∃ tx tx', decode "utf-8" raw = Some tx ∧ _apply_structured_patch tx p item = Ok tx' ∧
         encode "utf-8" tx' = Some b.

Inductive does (t : tree) (item : list (string * json)) (p : plan) : Prop :=
| Creating d :
    operation p = "file.create"%string → expected_etag p = None → deleted p = false → changed p = true →
    t !! target p = None → t !! removelast (target p) = Some d → is_dir d = true →
    written item (data p) → does t item p
| Editing n :
    operation p ≠ "path.delete"%string → expected_etag p = Some (_stat_etag n) → deleted p = false →
    t !! target p = Some n → is_file n = true →
    edited item (operation p) (target p) (bytes_of json_bytes n) (data p) →
    changed p = negb (bool_decide (data p = bytes_of json_bytes n)) → does t item p
| Deleting n :
    operation p = "path.delete"%string → expected_etag p = Some (_stat_etag n) → deleted p = true →
    changed p = true → t !! target p = Some n → walk t (target p) = None →
    under token_scope_root (target p) = true ∨ _authorize_external_recycle (target p) = true →
    target p ≠ token_scope_root → (∀ m, mapping_at_path (target p) ≠ Some (target p, m)) → does t item p.

(** The plan of the [i]-th item. *)
Definition plan_of (t : tree) (i : nat) (item : json) (p : plan) : Prop :=
  index p = i ∧ ∃ fields, item = JObj fields ∧ obj_get_or "path" JNull fields = JStr (requested_path p) ∧
  obj_get_or "op" JNull fields = JStr (operation p) ∧ _resolve_path (requested_path p) = Ok (target p) ∧
  does t fields p.

(** ** Steps that only look *)

Definition yields {A : Type} (F : tree → A → Prop) (t : tree) (r : res failure A) : Prop :=
  match r with Ok a => F t a | Err _ => True end.
Abbreviation gives m F := (looks (X:=txn) m (yields (λ _, F))).

(** [look L] runs a step of which only what [L] says matters; failures end the plan. *)
Tactic Notation "look" open_constr(L) "as" simple_intropattern(r) simple_intropattern(H) :=
  eapply wp_bind, (wp_looks _ _ _ _ _ L);
  let v := fresh in let F := fresh in
  intros [v|?] F; [|by split_and!]; cbn [then_ yields] in F |- *; revert v F; intros r H.

Lemma gives_guard b h c : gives (raise_when b h c) (λ _, b = false).
Proof. intros t x. unfold raise_when. destruct b; [by apply wp_fail|by apply wp_ret]. Qed.

Lemma gives_lift {A : Type} (r : res ApiError A) : gives (lift r) (λ a, r = Ok a).
Proof. intros t x. destruct r; [by apply wp_ret|by apply wp_fail]. Qed.

Lemma gives_encoding item :
  gives (text_encoding codec_name (obj_get_or "encoding" (JStr "utf-8") item)) (named_codec item).
Proof.
  intros t x. unfold text_encoding, named_codec. destruct (obj_get_or _ _ _) as [| | | |s| |];
    try by apply wp_fail.
  case_match eqn:Ec; [|by apply wp_fail]. case_bool_decide; [|by apply wp_fail].
  apply wp_ret. split_and!; [done..|]. case_match; [by eexists|done].
Qed.

Lemma gives_content item :
  gives (content_text item) (λ c, ∃ s, obj_get_or "content" JNull item = JStr s ∧ c = chars s).
Proof.
  intros t x. unfold content_text. destruct (obj_get_or _ _ _); first [apply wp_fail; done|apply wp_ret].
  split_and!; [done..|]. by eexists.
Qed.

Lemma gives_encode c enc : gives (encode_text encode c enc) (λ b, encode enc c = Some b).
Proof. intros t x. unfold encode_text. destruct (encode enc c) eqn:E; [by apply wp_ret|by apply wp_fail]. Qed.

Lemma gives_decode raw enc : gives (decode_text decode raw enc) (λ c, decode enc raw = Some c).
Proof. intros t x. unfold decode_text. destruct (decode enc raw) eqn:E; [by apply wp_ret|by apply wp_fail]. Qed.

Lemma gives_edited item op p raw :
  gives (edited_bytes codec_name encode decode _apply_structured_patch item op p raw)
    (λ r, edited item op p raw r.1).
Proof.
  intros t x. unfold edited_bytes, edited. destruct (String.eqb op "file.replace").
  { look (gives_content item) as c (s & Hs & ->). look (gives_encoding item) as enc Henc.
    look (gives_encode (chars s) enc) as b Hb. apply wp_ret. split_and!; [done..|]. by exists s, enc. }
  case_bool_decide.
  { look (gives_encoding item) as enc Henc. look (gives_decode raw enc) as tx Hdec.
    look (gives_lift _) as [tx' n] Hed. look (gives_encode tx' enc) as b Hb. apply wp_ret.
    split_and!; [done..|]. by exists enc, tx, tx', n. }
  apply wp_bind. destruct (decode "utf-8" raw) as [tx|] eqn:Hd; [|by apply wp_fail]. apply wp_ret. cbn [then_].
  look (gives_lift (_apply_structured_patch tx p item)) as tx' Hp. apply wp_bind.
  destruct (encode "utf-8" tx') eqn:He; [|by apply wp_fail]. apply wp_ret. cbn [then_]. apply wp_ret.
  split_and!; [done..|]. by eexists _, _.
Qed.

(** ** Reading a file *)

Lemma gives_standard_size n : gives (require_standard_file_size n) (λ _, True).
Proof. eapply looks_weaken; [apply gives_guard|]. by intros t [[]|e]. Qed.

Lemma gives_etag s c : s ≠ "*"%string → gives (_check_expected_etag s c) (λ _, s = c).
Proof.
  intros Hs. eapply looks_weaken; [apply gives_guard|]. intros t [[]|e]; cbn; [|done].
  rewrite negb_false_iff, orb_true_iff, !String.eqb_eq. naive_solver.
Qed.

Lemma gives_exact_etag item : gives (_required_exact_etag item) (λ v, v ≠ "*"%string).
Proof.
  intros t x. unfold _required_exact_etag. destruct (obj_get_or _ _ _) as [| | | |v| |]; try by apply wp_fail.
  case_match eqn:Ev; [by apply wp_fail|]. apply wp_ret. split_and!; [done..|]. cbn. intros ->. done.
Qed.

Lemma looks_read p expected :
  expected ≠ "*"%string →
  looks (_read_regular_bytes roots json_bytes p expected) (yields (λ t r,
    t !! p = Some r.2 ∧ is_file r.2 = true ∧ expected = _stat_etag r.2 ∧ r.1 = bytes_of json_bytes r.2)).
Proof.
  intros Hx t x. unfold _read_regular_bytes. look (looks_stat roots p) as n [Hn _].
  look looks_deadline as _ _. look (gives_guard _ _ _) as _ Hf%negb_false_iff.
  look (gives_standard_size n) as _ _. look (gives_etag expected (_stat_etag n) Hx) as _ Het.
  apply wp_bind. unfold stream_stat. look (looks_lstat p) as o _. apply wp_ret. cbn [then_].
  look (gives_guard _ _ _) as _ _. look (gives_guard _ _ _) as _ Hlen%Z.ltb_ge.
  look (looks_stat roots p) as n' [Hn' _]. assert (n' = n) as -> by congruence.
  look (gives_etag expected (_stat_etag n) Hx) as _ _. apply wp_ret.
  split_and!; [done..|]. split_and!; [done..|]. cbn [fst snd]. apply take_ge. rewrite length_take in Hlen.
  assert (0 < STANDARD_FILE_MAX_BYTES) by done. lia.
Qed.

(** ** Planning *)

Lemma gives_no_parents item :
  gives match obj_get_or "create_parents" JNull item with
        | JNull | JBool false => mret tt
        | JInt n => raise_when (negb (n =? 0)) 400 "invalid_request"
        | JFloat q => raise_when (negb (Qeq_bool q 0)) 400 "invalid_request"
        | JList _ | JObj _ => fail Invalid
        | _ => raise 400 "invalid_request"
        end (λ _, True).
Proof.
  intros t x. repeat case_match; try first [by apply wp_ret|by apply wp_fail];
    (apply (wp_looks _ _ _ _ _ (gives_guard _ _ _)); by intros [[]|?]).
Qed.

Lemma looks_plan_create item i s p :
  _resolve_path s = Ok p → obj_get_or "path" JNull item = JStr s →
  obj_get_or "op" JNull item = JStr "file.create" → ∀ t, grown t → ∀ x,
  wp (plan_create roots codec_name encode item i s p)
    (λ r t' x', t' = t ∧ x' = x ∧ yields (λ t, plan_of t i (JObj item)) t r) t x.
Proof.
  intros Hs Hpath Hop t Hg x. unfold plan_create. look (gives_no_parents item) as _ _.
  apply wp_bind, wp_catch, (wp_looks _ _ _ _ _ (looks_stat _ _)). intros [d|e] Hd; cbn [then_]; cycle 1.
  { repeat case_match; by apply wp_fail. }
  destruct Hd as [Hd _]. look (gives_guard _ _ _) as _ Hdir%negb_false_iff.
  apply wp_bind, looks_missing; cbn [then_]; [done|done| |by apply wp_bind, wp_fail].
  intros Hno. apply wp_bind, wp_ret. cbn [then_].
  look (gives_content item) as c (v & Hv & ->). look (gives_encoding item) as enc Henc.
  look (gives_encode (chars v) enc) as b Hb. look (gives_guard _ _ _) as _ _. apply wp_ret.
  split_and!; [done..|]. split; [done|]. exists item. split_and!; [done..|].
  eapply Creating; [done..|]. by exists v, enc.
Qed.

Lemma looks_plan_delete item i s p expected :
  _resolve_path s = Ok p → obj_get_or "path" JNull item = JStr s →
  obj_get_or "op" JNull item = JStr "path.delete" → expected ≠ "*"%string →
  looks (plan_delete roots token_scope_root _authorize_external_recycle mapping_at_path i s p expected)
    (yields (λ t, plan_of t i (JObj item))).
Proof.
  intros Hs Hpath Hop Hx t x. unfold plan_delete. look (gives_guard _ _ _) as _ Hin%negb_false_iff.
  look (gives_guard _ _ _) as _ Hroot%bool_decide_eq_false. look (gives_guard _ _ _) as _ Hmap.
  look (looks_stat roots p) as n [Hn Hw]. look (gives_guard _ _ _) as _ _.
  look (gives_etag expected (_stat_etag n) Hx) as _ Het. apply wp_ret.
  split_and!; [done..|]. split; [done|]. exists item. split_and!; [done..|].
  apply (Deleting _ _ _ n); cbn; [done|congruence|done..|by apply orb_true_iff|done|].
  intros m Hm. rewrite Hm in Hmap. by apply bool_decide_eq_false in Hmap.
Qed.

Lemma plan_item_spec item i t x :
  grown t → wp (plan_item item i) (λ r t' x', t' = t ∧ x' = x ∧ yields (λ t, plan_of t i item) t r) t x.
Proof.
  intros Hg. unfold _plan_item. destruct item as [| | | | | |fields]; try by apply wp_fail.
  destruct (obj_get_or "path" _ fields) as [| | | |s| |] eqn:Hpath; try by apply wp_fail.
  look (gives_guard _ _ _) as _ _.
  destruct (obj_get_or "op" _ fields) as [| | | |op| |] eqn:Hop; try by apply wp_fail.
  look (gives_guard _ _ _) as _ _. look (gives_lift (_resolve_path s)) as p Hs.
  destruct (String.eqb_spec op "file.create") as [->|_]; [by apply looks_plan_create|].
  look (gives_exact_etag fields) as expected Hx.
  destruct (String.eqb_spec op "path.delete") as [->|Hnd].
  { by apply (wp_looks _ _ _ _ _ (looks_plan_delete fields i s p expected Hs Hpath Hop Hx)). }
  look (looks_read p expected Hx) as [raw n] (Hn & Hf & Het & Hraw). cbn [fst snd] in *. subst raw.
  look (gives_edited fields op p _) as [b k] Hb. look (gives_guard _ _ _) as _ _. apply wp_ret.
  split_and!; [done..|]. split; [done|]. exists fields. split_and!; [done..|].
  apply (Editing _ _ _ n); cbn; try done. congruence.
Qed.

(** The plans [l] of the items, on the tree [t]. *)
Record plans_of (t : tree) (items : list json) (l : list plan) : Prop := {
  plans_length : length l = length items;
  plans_each i item p : items !! i = Some item → l !! i = Some p → plan_of t i item p;
  plans_differ i j p q : l !! i = Some p → l !! j = Some q → i ≠ j → target p ≠ target q ∧ overlaps p q = false }.

Lemma overlaps_sym p q : overlaps p q = overlaps q p.
Proof. unfold overlaps. by rewrite (orb_comm (deleted p)), (orb_comm (in_parents (target p) (target q))). Qed.

Lemma lookup_snoc_cases {A : Type} (l : list A) a i b :
  (l ++ [a]) !! i = Some b → l !! i = Some b ∨ i = length l ∧ b = a.
Proof.
  intros [?|[Hi Hb]]%lookup_app_Some; [by left|right]. apply list_lookup_singleton_Some in Hb as [? ?].
  split; [lia|done].
Qed.

Lemma plans_of_snoc t items l item p :
  plans_of t items l → plan_of t (length l) item p → target p ∉ target <$> l →
  existsb (λ q, overlaps p q) l = false → plans_of t (items ++ [item]) (l ++ [p]).
Proof.
  intros [Hlen Heach Hdiff] Hp Hnew Hov.
  assert (∀ j q, l !! j = Some q → target p ≠ target q ∧ overlaps p q = false) as Hq.
  { intros j q Hj%list_elem_of_lookup_2. split; [intros E; apply Hnew; rewrite E; by apply list_elem_of_fmap_2|].
    apply not_true_is_false. intros Ho. assert (existsb (λ q, overlaps p q) l = true) as Ht; [|congruence].
    apply existsb_exists. exists q. split; [by apply list_elem_of_In|done]. }
  split.
  - rewrite !length_app. cbn. lia.
  - intros i it q Hi Hj. apply lookup_snoc_cases in Hi as [Hi|[-> ->]], Hj as [Hj|[E ->]].
    + by apply Heach.
    + apply lookup_lt_Some in Hi. lia.
    + apply lookup_lt_Some in Hj. lia.
    + by rewrite <- Hlen.
  - intros i j a b Ha Hb Hne.
    apply lookup_snoc_cases in Ha as [Ha|[-> ->]], Hb as [Hb|[-> ->]]; [by apply (Hdiff i j)|..].
    + rewrite overlaps_sym. destruct (Hq i a Ha). by split; [apply not_eq_sym|].
    + by apply (Hq j).
    + done.
Qed.

Lemma gives_domain p : gives (_transaction_domain roots mapping_at_path p) (λ _, True).
Proof.
  intros t x. unfold _transaction_domain. destruct (mapping_at_path p) as [[r n]|]; [by apply wp_ret|].
  destruct (anchor roots p); [by apply wp_ret|by apply wp_fail].
Qed.

Lemma plan_items_spec items before l domain total t x :
  grown t → plans_of t before l →
  wp (plan_items roots token_scope_root _resolve_path _authorize_external_recycle mapping_at_path codec_name
        encode decode json_bytes _apply_structured_patch items l domain total)
     (λ r t' x', t' = t ∧ x' = x ∧ yields (λ t, plans_of t (before ++ items)) t r) t x.
Proof.
  intros Hg. revert before l domain total.
  induction items as [|item items IH]; intros before l domain total Hl; cbn [plan_items].
  { apply wp_ret. by rewrite app_nil_r. }
  look looks_deadline as _ _.
  apply wp_bind. eapply wp_mono; [by apply plan_item_spec|].
  intros [p|e] ? ? (-> & -> & Hp); cbn [then_ yields] in *; [|done].
  look (gives_domain (target p)) as d _. look (gives_guard _ _ _) as _ _.
  look (gives_guard _ _ _) as _ Hnew%bool_decide_eq_false. look (gives_guard _ _ _) as _ Hov.
  look (gives_guard _ _ _) as _ _. rewrite (cons_middle item before items), app_assoc.
  by apply IH, plans_of_snoc.
Qed.

(** ** The workspace and the request *)

Context (id : string).

(** The tree is a directory tree that holds the workspace and the mapped
    directories; approvals never cover the workspace itself; no name of the
    transaction's own exists yet. *)
Record workspace (t : tree) : Prop := {
  ws_grown : grown t;
  ws_setting : setting token_scope_root mapping_at_path id;
  ws_self q r n : mapping_at_path q = Some (r, n) → ∃ m, mapping_at_path r = Some (r, m);
  ws_homes h : homes h → ∃ d, t !! h = Some d ∧ is_dir d = true;
  ws_external p : _authorize_external_recycle p = true → ¬ p `prefix_of` token_scope_root;
  ws_clean k : is_Some (t !! k) → clean id k }.

(** What path resolution gives for the items of a request: proper names outside the
    private directories; and no deleted path is called like the bin's metadata. *)
Record requestable (items : list json) : Prop := {
  req_path fields s p :
    JObj fields ∈ items → obj_get_or "path" JNull fields = JStr s → _resolve_path s = Ok p →
    p ≠ [] ∧ clean id p ∧ Forall plain p ∧ ∀ h, homes h → under (layout_root h) p = false;
  req_delete fields s p h :
    JObj fields ∈ items → obj_get_or "path" JNull fields = JStr s →
    obj_get_or "op" JNull fields = JStr "path.delete" → _resolve_path s = Ok p → homes h →
    under (h ++ [METADATA_FILE]) p = false }.

Section planned.
Context (t : tree) (items : list json) (l : list plan).
Context (W : workspace t) (R : requestable items) (L : plans_of t items l).

Lemma plan_item_of i p :
  l !! i = Some p → ∃ fields, JObj fields ∈ items ∧ index p = i ∧
  obj_get_or "path" JNull fields = JStr (requested_path p) ∧
  obj_get_or "op" JNull fields = JStr (operation p) ∧ _resolve_path (requested_path p) = Ok (target p) ∧
  does t fields p.
Proof.
  intros Hi. destruct (lookup_lt_is_Some_2 items i) as [item Hitem].
  { rewrite <- (plans_length _ _ _ L). by eapply lookup_lt_Some. }
  destruct (plans_each _ _ _ L i item p Hitem Hi) as (Hix & fields & -> & H).
  exists fields. split; [by eapply list_elem_of_lookup_2|done].
Qed.

(** What exists strictly above a target is a directory, so it is no file's target. *)
Lemma above_target fields p k :
  does t fields p → k `prefix_of` target p → k ≠ target p → ∃ d, t !! k = Some d ∧ is_dir d = true.
Proof.
  intros Hp Hk Hne.
  destruct Hp as [d _ _ _ _ _ Hd Hdir|n _ _ _ Hn|n _ _ _ _ Hn];
    try (eapply grown_prefix; [apply (ws_grown _ W)|done..|by eauto]).
  destruct (target p) as [|c' p0 _] using rev_ind; [by apply prefix_nil_inv in Hk|].
  rewrite removelast_last in Hd. apply prefix_snoc in Hk as [->|Hk]; [done|].
  destruct (decide (k = p0)) as [->|Hkp]; [by eauto|].
  eapply grown_prefix; [apply (ws_grown _ W)|done..|by eauto].
Qed.

Lemma not_a_directory fields p :
  does t fields p → deleted p = false → ¬ ∃ d, t !! target p = Some d ∧ is_dir d = true.
Proof.
  intros Hp Hd (d & Hk & Hdir). destruct Hp as [| n _ _ _ Hn Hf|]; [congruence| |congruence].
  rewrite Hn in Hk. injection Hk as ->. unfold is_file, is_dir in *. by destruct (content d).
Qed.

Lemma targets_not_nested i j p q :
  l !! i = Some p → l !! j = Some q → i ≠ j → under (target p) (target q) = false.
Proof.
  intros Hi Hj Hne. destruct (plans_differ _ _ _ L i j p q Hi Hj Hne) as [Hd Hov].
  apply not_true_is_false. intros Hu.
  destruct (plan_item_of i p Hi) as (fp & _ & _ & _ & _ & _ & Hp).
  destruct (plan_item_of j q Hj) as (fq & _ & _ & _ & _ & _ & Hq).
  destruct (deleted p) eqn:Hdel.
  - unfold overlaps, in_parents in Hov. rewrite Hdel, Hu, bool_decide_eq_false_2 in Hov by done. done.
  - apply (not_a_directory fp p Hp Hdel). apply under_spec in Hu. by apply (above_target fq q).
Qed.

(** A target above a home would be a directory that is neither edited nor created,
    and deletion refuses it. *)
Lemma target_above_home fields p h :
  does t fields p → homes h → target p `prefix_of` h → False.
Proof.
  intros Hp Hh Hpre. destruct (ws_homes _ W h Hh) as (d & Hd & Hdir).
  assert (∃ d', t !! target p = Some d' ∧ is_dir d' = true) as Hex.
  { destruct (decide (target p = h)) as [->|Hne]; [by eauto|].
    eapply grown_prefix; [apply (ws_grown _ W)|done..|by eauto]. }
  destruct (deleted p) eqn:Hdel; [|by eapply not_a_directory].
  destruct Hp as [|?|n _ _ _ _ _ _ Hin Hroot Hmap]; [congruence..|].
  assert (¬ target p `prefix_of` token_scope_root) as Hns.
  { intros Hs. destruct Hin as [Hin%under_spec|Hin]; [|by apply (ws_external _ W) in Hin].
    apply Hroot, prefix_length_eq; [done|]. by apply prefix_length. }
  destruct Hh as [->|(q & m & Hq)]; [done|].
  destruct (mapped _ _ _ (ws_setting _ W) _ _ _ Hq) as (-> & _).
  apply prefix_snoc in Hpre as [Et|Hpre]; [|done]. rewrite Et in Hmap.
  destruct (ws_self _ W _ _ _ Hq) as [m' Hm]. by apply (Hmap m').
Qed.

Lemma plan_target i p h : l !! i = Some p → homes h → apart (target p) (layout_root h).
Proof.
  intros Hi Hh. destruct (plan_item_of i p Hi) as (fields & Hin & _ & Hpath & _ & Hres & Hp).
  destruct (req_path _ R _ _ _ Hin Hpath Hres) as (_ & _ & _ & Hlay). split; [|by apply Hlay].
  apply not_true_is_false. intros Hu%under_spec. unfold layout_root in Hu.
  apply prefix_snoc in Hu as [E|Hu]; [|by eapply target_above_home].
  specialize (Hlay h Hh). unfold layout_root in Hlay. by rewrite E, under_refl in Hlay.
Qed.

Lemma plan_relative i p rel :
  l !! i = Some p → deleted p = true → relative_to_workspace (home_of token_scope_root mapping_at_path p) (target p) = Some rel →
  good_rel rel.
Proof.
  intros Hi Hdel Hrel%relative_split. destruct (plan_item_of i p Hi) as (fields & Hin & _ & Hpath & Hop & Hres & Hp).
  destruct (req_path _ R _ _ _ Hin Hpath Hres) as (_ & _ & Hplain & _).
  assert (homes (home_of token_scope_root mapping_at_path p)) as Hh by apply home_homes.
  split_and!.
  - intros ->. rewrite app_nil_r in Hrel. apply (target_above_home fields p _ Hp Hh). by rewrite <- Hrel.
  - rewrite Hrel in Hplain. by apply Forall_app in Hplain as [_ ?].
  - destruct Hp as [|?|n Ho _ _ _ _ _ _ _ _]; [congruence..|]. rewrite Ho in Hop.
    pose proof (req_delete _ R _ _ _ _ Hin Hpath Hop Hres Hh) as Hmeta. rewrite Hrel in Hmeta.
    destruct rel as [|c rel]; [done|]. intros [= ->].
    change (METADATA_FILE :: rel) with ([METADATA_FILE] ++ rel) in Hmeta. by rewrite app_assoc, under_app in Hmeta.
Qed.

Lemma plans_planned : planned token_scope_root mapping_at_path id l t.
Proof.
  assert (∀ p, p ∈ l → ∃ i, l !! i = Some p) as Hat by (intros p; apply list_elem_of_lookup).
  split.
  - intros i p (fields & _ & Hix & _)%plan_item_of. done.
  - intros i j p q Hi Hj Hne. split; by eapply targets_not_nested.
  - intros p [i Hi]%Hat. destruct (plan_item_of i p Hi) as (fields & Hin & _ & Hpath & _ & Hres & _).
    destruct (req_path _ R _ _ _ Hin Hpath Hres) as (? & ? & _). split_and!; [done..|].
    intros h Hh. by eapply plan_target.
  - intros p [i Hi]%Hat Hnew. destruct (plan_item_of i p Hi) as (fields & _ & _ & _ & _ & _ & Hp).
    destruct Hp; [|congruence..]. split_and!; [|done..]. apply grown_vacant; [apply (ws_grown _ W)|done].
  - intros p [i Hi]%Hat Hdel. destruct (plan_item_of i p Hi) as (fields & _ & _ & _ & _ & _ & Hp).
    destruct Hp; [congruence..|]. split_and!; [done..|]. intros rel Hrel. by eapply plan_relative.
  - apply (ws_clean _ W).
Qed.

End planned.

(** ** The theorem *)

Lemma wp_run {A : Type} (m : M txn A) (Q : res failure A → tree → txn → Prop) t o x r w' :
  wp m Q t x → Forall alone o → m (World t o x) = (r, w') → Q r (disk w') (local w').
Proof. intros H Ho E. destruct (H o Ho) as [_ HQ]. by rewrite E in HQ. Qed.

(** What a request leaves on disk. *)
Definition outcome (items : list json) (t : tree) (r : res failure answer) (t' : tree) : Prop :=
  match r with
  | Ok (DryRun l) => plans_of t items l ∧ t' = t
  | Ok (Committed l _) =>
      plans_of t items l ∧ applied token_scope_root mapping_at_path id l t t'
  | Err e =>
      unchanged token_scope_root mapping_at_path id t t' ∨
      ∃ l, plans_of t items l ∧
        (applied token_scope_root mapping_at_path id l t t' ∨
         e = rollback_failed ∧ kept token_scope_root mapping_at_path id l t t')
  end.

Lemma plans_outcome items t x (dry_run : bool) :
  workspace t → requestable items →
  wp (l ← plan_items roots token_scope_root _resolve_path _authorize_external_recycle mapping_at_path codec_name
           encode decode json_bytes _apply_structured_patch items [] None 0;
      if dry_run then _ ← _revalidate roots l; mret (DryRun l)
      else _ ← set_local (λ _, Txn (replicate (length l) fresh) false);
           transaction roots token_scope_root mapping_at_path check_path json_bytes id l)
     (λ r t' _, outcome items t r t') t x.
Proof.
  intros W R. apply wp_bind. eapply wp_mono.
  { apply (plan_items_spec items []); [apply (ws_grown _ W)|]. by split. }
  intros [l|e] ? ? (-> & -> & L); cbn [then_ yields app] in *; [|by left].
  destruct dry_run.
  - apply wp_bind, (wp_looks _ _ _ _ _ (looks_revalidate _ _)). intros [[]|e] _; cbn [then_]; [|by left].
    by apply wp_ret.
  - apply wp_bind, wp_set_local. cbn [then_]. eapply wp_mono.
    { apply (transaction_spec roots _ _ check_path json_bytes id l t); [apply (ws_setting _ W)|by eapply plans_planned]. }
    intros [a|e] t' _; cbn; [intros [[f ->] ?]; by split|]. intros [?|H]; [by left|right]. by exists l.
Qed.

End planning.

(** ** Checking a concrete tree *)

(** Names with fewer than three dashes are nobody's transaction. *)
Lemma few_dashes id c : (length (split_on dash c) <= 3)%nat → ¬ mine id c.
Proof.
  assert (∀ kind n i, (4 <= length (split_on dash (own_name kind n id i)))%nat) as H.
  { intros kind n i. rewrite own_name_eq, !split_on_concat, !length_app.
    pose proof (split_on_nonempty dash) as Hne. cbn.
    assert (∀ s, (1 <= length (split_on dash s))%nat) as H1 by (intros s; specialize (Hne s); destruct (split_on dash s); [done|cbn; lia]).
    pose proof (H1 kind). pose proof (H1 id). pose proof (H1 (dec (Z.of_nat i))). lia. }
  intros Hc (n & i & [-> | ->]); [specialize (H "put" n i)|specialize (H "transfer" n i)]; lia.
Qed.

Definition few_dashes_path (k : path) : bool := forallb (λ c, (length (split_on dash c) <=? 3)%nat) k.

Lemma few_dashes_clean id k : few_dashes_path k = true → clean id k.
Proof.
  unfold few_dashes_path. rewrite forallb_forall. intros H c Hc%list_elem_of_In. apply few_dashes.
  by apply Nat.leb_le, H.
Qed.

Lemma few_dashes_tree id (t : tree) :
  forallb (λ e, few_dashes_path e.1) (map_to_list t) = true → ∀ k, is_Some (t !! k) → clean id k.
Proof.
  rewrite forallb_forall. intros H k [n Hn]. apply few_dashes_clean.
  by apply (H (k, n)), list_elem_of_In, elem_of_map_to_list.
Qed.

(** C1: A mutation request happens completely or not at all.  When no other process
    touches the tree and whatever system call fails, a dry run leaves the tree as it
    was and a committed request applies exactly the plans of its items: every file
    that changes holds the bytes its item asks for, every deleted path is gone, and
    nothing else that others can see has changed.  A request that fails leaves
    everything as it was, or everything applied (a failure after the commit), unless
    it reports that its rollback failed, and then every original still exists in
    place, beside it or in the recycle bin. *)
Theorem mutation_atomic roots token_scope_root _resolve_path _authorize_external_recycle mapping_at_path
    check_path max_batch_file_operations codec_name encode decode json_bytes _apply_structured_patch
    body items w r w' :
  let id := new_id (default calm (head (oracle w))) in
  Forall alone (oracle w) →
  workspace token_scope_root _authorize_external_recycle mapping_at_path id (disk w) →
  obj_get_or "items" JNull body = JList items →
  requestable token_scope_root _resolve_path mapping_at_path id items →
  execute_mutation roots token_scope_root _resolve_path _authorize_external_recycle mapping_at_path check_path
    max_batch_file_operations codec_name encode decode json_bytes _apply_structured_patch body w = (r, w') →
  outcome token_scope_root _resolve_path _authorize_external_recycle mapping_at_path codec_name encode decode
    json_bytes _apply_structured_patch id items (disk w) r (disk w').
Proof.
  intros id Ho W Hitems R Hrun. unfold execute_mutation in Hrun. rewrite Hitems in Hrun.
  assert (∀ e, (Err e, w) = (r, w') → outcome token_scope_root _resolve_path _authorize_external_recycle
    mapping_at_path codec_name encode decode json_bytes _apply_structured_patch id items (disk w) r (disk w'))
    as Hfail by (intros e [= <- <-]; by left).
  destruct items as [|item items]; [by eapply Hfail|].
  unfold mbind at 1, M_bind at 1, raise_when at 1 in Hrun.
  destruct (_ <? _) in Hrun; [exact (Hfail _ Hrun)|].
  cbn [mret M_ret] in Hrun. destruct (obj_get_or "dry_run" _ body); try exact (Hfail _ Hrun).
  destruct (next_alone _ Ho) as [[Hid _] Ht]. unfold mbind at 1, M_bind at 1, draw_id, draw in Hrun.
  rewrite Hid in Hrun. by apply (wp_run _ _ _ _ _ _ _ (plans_outcome _ _ _ _ _ _ _ _ _ _ _ _ _ _ _ _ W R)) in Hrun.
Qed.

(** A workspace with a mapped directory, and a request that edits, deletes and
    creates; the call that fails may be any. *)
Module Sample.
Definition dir : node := Node 1 1 0 448 (Dir 0).
Definition file (i : Z) (s : string) : node := Node 1 i 7 420 (File (utf8 s)).
Definition home : path := ["w"]%string.
Definition tree0 : tree := list_to_map
  [([], dir); (["w"], dir); (["w"; "m"], dir); (["w"; "a"], file 2 "one two"); (["w"; "b"], file 3 "bye")]%string.
Definition resolve (s : string) : res ApiError path := Ok (home ++ [s]).
Definition mapping (p : path) : option (path * string) :=
  if under ["w"; "m"]%string p then Some (["w"; "m"], "m")%string else None.
Definition encode (enc : string) (t : text) : option bytes := Some (code <$> t).
Definition decode (enc : string) (b : bytes) : option text := Some ((λ z, ascii_of_N (Z.to_N z)) <$> b).
Definition items : list json :=
  [JObj [("path", JStr "a"); ("op", JStr "text.replace"); ("expected_etag", JStr (_stat_etag (file 2 "one two")));
         ("replacements", JList [JObj [("old", JStr "two"); ("new", JStr "three")]])];
   JObj [("path", JStr "b"); ("op", JStr "path.delete"); ("expected_etag", JStr (_stat_etag (file 3 "bye")))];
   JObj [("path", JStr "c"); ("op", JStr "file.create"); ("content", JStr "new")]]%string.
Definition quiet : event := Event id None 0 5 6 4096 100 "20240101T000000.000000Z" "0123abcd".
Definition broken : event := Event id (Some EIO) 0 5 6 4096 100 "20240101T000000.000000Z" "0123abcd".
Definition start (n : nat) : world txn := World tree0 (replicate n quiet ++ [broken]) (Txn [] false).
Definition run (w : world txn) : res failure answer * world txn :=
  execute_mutation [home] home resolve (λ _, false) mapping (λ _, None) 10 Some encode decode
    (λ _, []) (λ t _ _, Ok t) [("items"%string, JList items)] w.
Definition texts (t : tree) : list (option body) :=
  (λ n, content <$> t !! (home ++ [n])) <$> ["a"; "b"; "c"]%string.

(** Without a failure the request is carried out; a failure in the middle of the
    commit undoes it. *)
Lemma sample_commits :
  texts (disk (run (start 200)).2) = [Some (File (utf8 "one three")); None; Some (File (utf8 "new"))].
Proof. vm_compute. reflexivity. Qed.

Lemma sample_rolls_back : texts (disk (run (start 70)).2) = texts tree0.
Proof. vm_compute. reflexivity. Qed.
End Sample.

Lemma sample_setting : setting Sample.home Sample.mapping "0123abcd".
Proof.
  split; [by apply few_dashes_clean|]. intros q r n Hq. unfold Sample.mapping in Hq.
  destruct (under _ q); [|done]. injection Hq as <- <-. split_and!; [done..|apply few_dashes; vm_compute; lia|done].
Qed.

Lemma sample_homes h : homes Sample.home Sample.mapping h → h = ["w"]%string ∨ h = ["w"; "m"]%string.
Proof.
  intros [->|(q & n & Hq)]; [by left|right]. unfold Sample.mapping in Hq. destruct (under _ q); [by injection Hq|done].
Qed.

Lemma sample_workspace : workspace Sample.home (λ _, false) Sample.mapping "0123abcd" Sample.tree0.
Proof.
  split.
  - apply grown_check_ok. vm_compute. reflexivity.
  - apply sample_setting.
  - intros q r n Hq. unfold Sample.mapping in Hq. destruct (under _ q); [|done]. injection Hq as <- <-. by eexists.
  - intros h [-> | ->]%sample_homes; by eexists.
  - done.
  - apply few_dashes_tree. vm_compute. reflexivity.
Qed.

Lemma sample_requestable :
  requestable Sample.home Sample.resolve Sample.mapping "0123abcd" Sample.items.
Proof.
  assert (∀ fields s, JObj fields ∈ Sample.items → obj_get_or "path" JNull fields = JStr s →
            s ∈ ["a"; "b"; "c"]%string) as Hs.
  { unfold Sample.items. intros fields s Hin. rewrite !elem_of_cons, elem_of_nil in Hin.
    destruct Hin as [[= ->]|[[= ->]|[[= ->]|[]]]]; cbn; intros [= <-]; set_solver. }
  split.
  - intros fields s p Hin Hp [= <-]. specialize (Hs _ _ Hin Hp).
    rewrite !elem_of_cons, elem_of_nil in Hs. destruct Hs as [->|[->|[->|[]]]];
      (split_and!; [done|by apply few_dashes_clean|repeat constructor; done|]);
      intros h [-> | ->]%sample_homes; reflexivity.
  - intros fields s p h Hin Hp _ [= <-] Hh. specialize (Hs _ _ Hin Hp).
    rewrite !elem_of_cons, elem_of_nil in Hs. apply sample_homes in Hh.
    destruct Hs as [->|[->|[->|[]]]], Hh as [-> | ->]; reflexivity.
Qed.

(** The request fails in its 71st system call and is undone. *)
Lemma mutation_atomic_witness :
  ∃ r w', Sample.run (Sample.start 70) = (r, w') ∧ Sample.texts (disk w') = Sample.texts Sample.tree0 ∧
    outcome Sample.home Sample.resolve (λ _, false) Sample.mapping Some Sample.encode Sample.decode
      (λ _, []) (λ t _ _, Ok t) "0123abcd" Sample.items Sample.tree0 r (disk w').
Proof.
  exists (Sample.run (Sample.start 70)).1, (Sample.run (Sample.start 70)).2. split_and!.
  - apply surjective_pairing.
  - vm_compute. reflexivity.
  - apply (mutation_atomic [Sample.home] Sample.home Sample.resolve (λ _, false) Sample.mapping (λ _, None) 10
      Some Sample.encode Sample.decode (λ _, []) (λ t _ _, Ok t) [("items"%string, JList Sample.items)]
      Sample.items (Sample.start 70)).
    + apply Forall_app. split; [apply Forall_replicate|apply Forall_singleton]; by split.
    + apply sample_workspace.
    + reflexivity.
    + apply sample_requestable.
    + apply surjective_pairing.
Defined.
