(* ===== verification/LargeRange.v ===== *)
(** * LargeRange: reading and replacing a range of a large file

    Models [read_large_range] and [replace_large_range] of
    src/openkapsel/files/mutation.py on the bytes of the open file.  Resolving and
    opening the path, the ETags that the status calls give and the outcomes of the system calls
    (short reads, partial and failing writes) are arguments.  From the first status call
    of a replacement to its end nobody else writes to the file, and the one read of the
    old range, which lies within the file, returns all of it. *)

From Stdlib Require Import ZArith Lia Ascii String.
From stdpp Require Import base tactics list list_numbers.
From S2P Require Import Prelude Hashing.

Local Open Scope Z_scope.
Local Open Scope py_scope.

Definition STANDARD_FILE_MAX_BYTES : Z := 32 * 1024 * 1024.
Definition LARGE_FILE_WINDOW_MAX_BYTES : Z := 256 * 1024.

Definition len (l : bytes) : Z := Z.of_nat (length l).

(** What stands behind the path: a regular file with its bytes, or not. *)
Record opened := { regular : bool; content : bytes }.

(** ** Requests *)

Definition invalid_request : ApiError := api_error 400 "invalid_request".

Definition request_path (body : list (string * json)) : res ApiError string :=
  match obj_get_or "path" JNull body with JStr p => if is_empty p then Err invalid_request else Ok p | _ => Err invalid_request end.

Definition request_offset (body : list (string * json)) : res ApiError Z :=
  match obj_get_or "offset" JNull body with JInt n => if n <? 0 then Err invalid_request else Ok n | _ => Err invalid_request end.

Definition request_length (body : list (string * json)) : res ApiError Z :=
  match obj_get_or "length" JNull body with
  | JInt n => if (1 <=? n) && (n <=? LARGE_FILE_WINDOW_MAX_BYTES) then Ok n else Err invalid_request
  | _ => Err invalid_request
  end.

Definition _required_exact_etag (body : list (string * json)) : res ApiError string :=
  match obj_get_or "expected_etag" JNull body with
  | JStr v => if is_empty v || String.eqb v "*" || has_char (ascii_of_N 13) v || has_char (ascii_of_N 10) v || has_char "," v
              then Err invalid_request else Ok v
  | _ => Err invalid_request
  end.

Definition hex_char (c : ascii) : bool := is_dec c || existsb (Ascii.eqb c) ["a"; "b"; "c"; "d"; "e"; "f"; "A"; "B"; "C"; "D"; "E"; "F"]%char.

Definition request_sha256 (body : list (string * json)) : res ApiError string :=
  match obj_get_or "expected_range_sha256" JNull body with
  | JStr v => if (slen v =? 64) && str_forall hex_char v then Ok v else Err invalid_request
  | _ => Err invalid_request
  end.

(** [base64.b64decode(encoded, validate=True)] with the standard alphabet. *)
Definition b64decode_standard (s : string) : option bytes :=
  if has_char "-" s || has_char "_" s then None else Base64.b64decode s.

Definition request_data (body : list (string * json)) (length : Z) : res ApiError bytes :=
  match obj_get_or "data_base64" JNull body with
  | JStr encoded =>
      match b64decode_standard encoded with
      | None => Err (api_error 400 "invalid_base64")
      | Some data => if len data =? length then Ok data else Err (api_error 400 "large_file_length_mismatch")
      end
  | _ => Err invalid_request
  end.

Definition require_large_file_size (f : bytes) : res ApiError unit :=
  if len f <=? STANDARD_FILE_MAX_BYTES then Err (api_error 400 "large_file_required") else Ok tt.

(** ** Reading *)

Definition range (f : bytes) (offset length : Z) : bytes := take (Z.to_nat length) (drop (Z.to_nat offset) f).

(** The loop of [read_large_range]: a read returns at least one byte and at most what
    is asked for, or nothing at the end of the file.  [sizes] are the sizes that reads
    would return. *)
Fixpoint read_loop (fuel : nat) (sizes : nat → nat) (f : bytes) (remaining : nat) : bytes :=
  match fuel with
  | 0%nat => []
  | S fuel' =>
      match remaining, f with
      | 0%nat, _ | _, [] => []
      | _, _ =>
          let n := Nat.min (Nat.min (Z.to_nat (1024 * 1024)) remaining) (Nat.max 1 (sizes fuel)) in
          let chunk := take n f in
          chunk ++ read_loop fuel' sizes (drop n f) (remaining - length chunk)
      end
  end.

Record range_answer := { ra_offset : Z; ra_data : bytes; ra_sha256 : string; ra_etag : string; ra_size : Z; ra_next : Z; ra_eof : bool }.

(** The three ETags: before the read, after it, and of what the path names then. *)
Definition read_large_range (body : list (string * json)) (resolve : string → res ApiError opened) (before after current : string) (sizes : nat → nat)
    : res ApiError range_answer :=
  let! requested := request_path body in
  let! offset := request_offset body in
  let! length := request_length body in
  let! file := resolve requested in
  raise! (api_error 400 "not_a_file") when negb file.(regular);
  let! _ := require_large_file_size file.(content) in
  raise! (api_error 416 "invalid_offset") when len file.(content) <? offset;
  let data := read_loop (Z.to_nat length) sizes (drop (Z.to_nat offset) file.(content)) (Z.to_nat length) in
  raise! (api_error 409 "path_changed") when negb (String.eqb before after);
  raise! (api_error 409 "path_changed") when negb (String.eqb current before);
  Ok {| ra_offset := offset; ra_data := data; ra_sha256 := hex (Sha256.sha256 data); ra_etag := before; ra_size := len file.(content);
        ra_next := offset + len data; ra_eof := len file.(content) <=? offset + len data |}.

(** ** Writing *)

(** [handle.write(view)]: that many bytes of it, or an exception. *)
Inductive write_outcome := Wrote (n : nat) | WriteFails.

Definition splice (f : bytes) (pos : nat) (b : bytes) : bytes := take pos f ++ b ++ drop (pos + length b) f.

(** The loop [while written < length]; when the outcomes are used up, writes succeed.
    The result says whether the loop ended without an exception. *)
Fixpoint write_loop (outcomes : list write_outcome) (pos : nat) (view : bytes) (f : bytes) : bool * bytes * list write_outcome :=
  match view with
  | [] => (true, f, outcomes)
  | _ =>
      match outcomes with
      | [] => (true, splice f pos view, [])
      | WriteFails :: rest => (false, f, rest)
      | Wrote n :: rest =>
          match Nat.min n (length view) with
          | 0%nat => (false, f, rest)
          | k => write_loop rest (pos + k) (drop k view) (splice f pos (take k view))
          end
      end
  end.

Record faults := {
  f_writes : list write_outcome;
  f_sync : bool;
  f_verify : bool;
  f_rollback : list write_outcome;
  f_rollback_sync : bool
}.

Inductive failure := Refused (e : ApiError) | WriteError.

Record replace_answer := { rp_written : Z; rp_sha256 : string; rp_size : Z }.

(** The critical part: write, check, and write the old bytes back when that fails. *)
Definition overwrite (offset : nat) (old data f : bytes) (w : faults) : res failure replace_answer * bytes :=
  let '(written, f1, _) := write_loop w.(f_writes) offset data f in
  let good := written && w.(f_sync) && (len f1 =? len f) && (w.(f_verify) && bool_decide (range f1 (Z.of_nat offset) (len data) = data)) in
  if good then (Ok {| rp_written := len data; rp_sha256 := hex (Sha256.sha256 data); rp_size := len f1 |}, f1)
  else
    let '(restored, f2, _) := write_loop w.(f_rollback) offset old f1 in
    if restored && w.(f_rollback_sync) then (Err WriteError, f2) else (Err (Refused (api_error 500 "large_file_rollback_failed")), f2).

(** The checks; the ETags are those of the status calls before the range is read, after
    it, and of the path.  On success, the offset, the old and the new bytes. *)
Definition replace_checks (body : list (string * json)) (resolve : string → res ApiError unit) (file : opened) (before prewrite current : string) : res ApiError (Z * bytes * bytes) :=
  let! expected_etag := _required_exact_etag body in
  let! requested := request_path body in
  let! offset := request_offset body in
  let! length := request_length body in
  let! expected_sha256 := request_sha256 body in
  let! data := request_data body length in
  let! _ := resolve requested in
  raise! (api_error 400 "not_a_file") when negb file.(regular);
  let! _ := require_large_file_size file.(content) in
  raise! (api_error 412 "etag_mismatch") when negb (String.eqb expected_etag before);
  raise! (api_error 416 "invalid_range") when len file.(content) <? offset + length;
  let old := range file.(content) offset length in
  raise! (api_error 409 "range_sha256_mismatch") when negb (String.eqb (hex (Sha256.sha256 old)) (lower expected_sha256));
  raise! (api_error 409 "path_changed") when negb (String.eqb prewrite before);
  raise! (api_error 409 "path_changed") when negb (String.eqb current before);
  Ok (offset, old, data).

Definition replace_large_range (body : list (string * json)) (resolve : string → res ApiError unit) (file : opened) (before prewrite current : string) (w : faults)
    : res failure replace_answer * bytes :=
  match replace_checks body resolve file before prewrite current with
  | Err e => (Err (Refused e), file.(content))
  | Ok (offset, old, data) => overwrite (Z.to_nat offset) old data file.(content) w
  end.

(** ** Reading returns the range *)

Lemma read_loop_take fuel sizes f remaining : (remaining ≤ fuel)%nat → read_loop fuel sizes f remaining = take remaining f.
Proof.
  revert f remaining. induction fuel as [|fuel IH]; intros f remaining H; [assert (remaining = 0%nat) as -> by lia; done|].
  cbn [read_loop]. destruct remaining as [|r]; [done|]. destruct f as [|b f]; [done|].
  assert (Hm : (1 ≤ Z.to_nat (1024 * 1024))%nat) by lia. revert Hm. generalize (Z.to_nat (1024 * 1024)) as m. intros m Hm.
  generalize (sizes (S fuel)) as k. intros k. set (n := Nat.min (Nat.min m (S r)) (Nat.max 1 k)). assert (Hn : (1 ≤ n ≤ S r)%nat) by (unfold n; lia). clearbody n.
  rewrite IH, length_take by (rewrite length_take; cbn [length]; lia). set (l := b :: f) in *.
  destruct (decide (n ≤ length l)%nat) as [Hle|Hgt].
  - rewrite Nat.min_l by done. rewrite take_take_drop. f_equal. lia.
  - rewrite (take_ge l n), (drop_ge l n), (take_ge l (S r)) by lia. by rewrite take_nil, app_nil_r.
Qed.

(** The answer holds the bytes of the range, however the reads are cut. *)
Lemma read_large_range_data body resolve before after current sizes a :
  read_large_range body resolve before after current sizes = Ok a →
  ∃ requested file length, resolve requested = Ok file ∧ request_length body = Ok length ∧ a.(ra_data) = range file.(content) a.(ra_offset) length ∧
    (a.(ra_eof) = true ↔ drop (Z.to_nat a.(ra_next)) file.(content) = []).
Proof.
  unfold read_large_range. destruct (request_path body) as [requested|]; [|done]. destruct (request_offset body) as [offset|] eqn:Eo; [|done].
  destruct (request_length body) as [n|]; [|done]. destruct (resolve requested) as [file|] eqn:Er; [|done]. destruct (negb _); [done|].
  destruct (require_large_file_size _); [|done]. destruct (_ <? _); [done|]. rewrite read_loop_take by done.
  destruct (negb _); [done|]. destruct (negb _); [done|]. intros [= <-]. exists requested, file, n. cbn. repeat split; try done.
  - intros H. apply drop_ge. unfold len in *. lia.
  - intros H. apply (f_equal length) in H. rewrite length_drop in H. cbn in H. assert (0 ≤ offset).
    { unfold request_offset in Eo. destruct (obj_get_or _ _ _) as [| |m| | | |]; try done. destruct (m <? 0) eqn:E; [done|]. injection Eo as ->. lia. }
    apply Z.leb_le. unfold len in *. lia.
Qed.

(** ** Replacing is all or nothing *)

Lemma splice_length f pos b : (pos + length b ≤ length f)%nat → length (splice f pos b) = length f.
Proof. intros H. unfold splice. rewrite !length_app, length_take, length_drop. lia. Qed.

Lemma splice_outside f pos b i : (pos + length b ≤ length f)%nat → (i < pos ∨ pos + length b ≤ i)%nat → splice f pos b !! i = f !! i.
Proof.
  intros H Hi. unfold splice. destruct Hi as [Hi|Hi].
  - rewrite lookup_app_l by (rewrite length_take; lia). by rewrite lookup_take_lt.
  - rewrite lookup_app_r by (rewrite length_take; lia). rewrite length_take, Nat.min_l by lia. rewrite lookup_app_r by lia. rewrite lookup_drop. f_equal. lia.
Qed.

Lemma splice_splice f pos a b : (pos + length a + length b ≤ length f)%nat → splice (splice f pos a) (pos + length a) b = splice f pos (a ++ b).
Proof.
  intros H. unfold splice. rewrite length_app.
  rewrite (take_app_add' (take pos f)) by (rewrite length_take; lia). rewrite take_app_length.
  rewrite <- drop_drop, (drop_app_add' (take pos f)) by (rewrite length_take; lia).
  rewrite drop_app_length, drop_drop, <- !app_assoc. by rewrite Nat.add_assoc.
Qed.

(** Bytes outside a range are the same. *)
Definition agree_outside (pos n : nat) (f g : bytes) : Prop :=
  length f = length g ∧ ∀ i, (i < pos ∨ pos + n ≤ i)%nat → f !! i = g !! i.

Lemma range_write_spec ws pos view f ok f' rest :
  (pos + length view ≤ length f)%nat → write_loop ws pos view f = (ok, f', rest) →
  agree_outside pos (length view) f' f ∧ (ok = true → f' = splice f pos view).
Proof.
  revert pos view f. induction ws as [|w ws IH]; intros pos view f H; destruct view as [|b view]; cbn [write_loop];
    try (intros [= <- <- <-]; split; [by split|intros _; unfold splice; cbn; by rewrite Nat.add_0_r, take_drop]).
  - intros [= <- <- <-]. split; [|done]. split; [by apply splice_length|]. intros i Hi. by apply splice_outside.
  - destruct w as [n|]; [|intros [= <- <- <-]; by split]. set (v := b :: view) in *.
    destruct (Nat.min n (length v)) as [|k] eqn:Ek; [intros [= <- <- <-]; by split|]. assert (Hk : (S k ≤ length v)%nat) by lia. intros E.
    assert (Ht : length (take (S k) v) = S k) by (rewrite length_take; lia).
    assert (Hs : length (splice f pos (take (S k) v)) = length f) by (apply splice_length; lia).
    assert (Hb : (pos + S k + length (drop (S k) v) ≤ length (splice f pos (take (S k) v)))%nat) by (rewrite length_drop, Hs; lia).
    destruct (IH _ _ _ Hb E) as [[A1 A2] B]. rewrite length_drop in A2. split.
    + split; [congruence|]. intros i Hi. rewrite A2 by lia. apply splice_outside; lia.
    + intros Hok. rewrite (B Hok). rewrite <- (take_drop (S k) v) at 3. rewrite <- splice_splice by (rewrite length_drop; lia). by rewrite Ht.
Qed.

(** Writing the old bytes back gives the old file. *)
Lemma splice_back f g pos n : (pos + n ≤ length g)%nat → agree_outside pos n f g → splice f pos (take n (drop pos g)) = g.
Proof.
  intros H [Hl Ho]. assert (Hr : length (take n (drop pos g)) = n) by (rewrite length_take, length_drop; lia).
  apply list_eq. intros i. destruct (decide (i < pos ∨ pos + n ≤ i)%nat) as [Hi|Hi].
  - rewrite splice_outside by (rewrite Hr; lia). by apply Ho.
  - unfold splice. rewrite lookup_app_r by (rewrite length_take; lia). rewrite length_take, Nat.min_l by lia. rewrite lookup_app_l by lia.
    rewrite lookup_take_lt, lookup_drop by lia. f_equal. lia.
Qed.

Lemma overwrite_spec offset old data f w :
  (offset + length data ≤ length f)%nat → old = take (length data) (drop offset f) →
  match overwrite offset old data f w with
  | (Ok _, f') => f' = splice f offset data
  | (Err WriteError, f') => f' = f
  | (Err (Refused e), f') => e = api_error 500 "large_file_rollback_failed" ∧ agree_outside offset (length data) f' f
  end.
Proof.
  intros H ->. unfold overwrite. destruct (write_loop (f_writes w) offset data f) as [[ok f1] r1] eqn:E1.
  destruct (range_write_spec _ _ _ _ _ _ _ H E1) as [[A1 A2] B1]. destruct (_ && _ && _ && _) eqn:Eg.
  - apply B1. by destruct ok.
  - assert (Ho : length (take (length data) (drop offset f)) = length data) by (rewrite length_take, length_drop; lia).
    destruct (write_loop (f_rollback w) offset _ f1) as [[ok2 f2] r2] eqn:E2.
    destruct (range_write_spec _ _ _ _ _ _ _ ltac:(rewrite Ho, A1; exact H) E2) as [[C1 C2] D]. rewrite Ho in C2.
    destruct (ok2 && f_rollback_sync w) eqn:Er.
    + rewrite D by (by destruct ok2). by apply splice_back.
    + split; [done|]. split; [congruence|]. intros i Hi. rewrite C2, A2; done.
Qed.

(** Every write makes progress and nothing else fails. *)
Definition healthy (w : faults) : Prop := Forall (λ o, ∃ n, o = Wrote (S n)) w.(f_writes) ∧ w.(f_sync) = true ∧ w.(f_verify) = true.

Lemma write_loop_progress ws pos view f : Forall (λ o, ∃ n, o = Wrote (S n)) ws → (write_loop ws pos view f).1.1 = true.
Proof.
  intros H. revert pos view f. induction H as [|o ws [n ->] H IH]; intros pos view f; destruct view as [|b view]; try done.
  cbn [write_loop length Nat.min]. apply IH.
Qed.

Lemma overwrite_healthy offset old data f w :
  (offset + length data ≤ length f)%nat → healthy w → ∃ a, (overwrite offset old data f w).1 = Ok a.
Proof.
  intros H (Hw & Hs & Hv). unfold overwrite. pose proof (write_loop_progress (f_writes w) offset data f Hw) as Hp.
  destruct (write_loop (f_writes w) offset data f) as [[ok f1] r1] eqn:E1. cbn in Hp. subst ok.
  destruct (range_write_spec _ _ _ _ _ _ _ H E1) as [[A1 A2] B1]. rewrite (B1 eq_refl) in *. rewrite Hs, Hv.
  assert ((len (splice f offset data) =? len f) = true) as -> by (unfold len; apply Z.eqb_eq; congruence).
  assert (Hr : range (splice f offset data) (Z.of_nat offset) (len data) = data).
  { unfold range, splice, len. rewrite !Nat2Z.id, drop_app_length', take_app_length' by (rewrite ?length_take; lia). done. }
  rewrite bool_decide_true by done. by eexists.
Qed.

Lemma checks_spec body resolve file before prewrite current o old data :
  replace_checks body resolve file before prewrite current = Ok (o, old, data) →
  ∃ n sha, _required_exact_etag body = Ok before ∧ request_offset body = Ok o ∧ request_length body = Ok n ∧ request_data body n = Ok data ∧ len data = n ∧
    request_sha256 body = Ok sha ∧ old = range file.(content) o n ∧ lower sha = hex (Sha256.sha256 old) ∧ 0 ≤ o ∧ o + n ≤ len file.(content).
Proof.
  unfold replace_checks. destruct (_required_exact_etag body) as [etag|] eqn:Ee; [|done]. destruct (request_path body) as [p|]; [|done].
  destruct (request_offset body) as [o'|] eqn:Eo; [|done]. destruct (request_length body) as [n|] eqn:En; [|done].
  destruct (request_sha256 body) as [sha|] eqn:Es; [|done]. destruct (request_data body n) as [data'|] eqn:Ed; [|done].
  destruct (resolve p); [|done]. destruct (negb _); [done|]. destruct (require_large_file_size _); [|done].
  destruct (String.eqb_spec etag before); [|done]. cbn [negb]. destruct (_ <? o' + n) eqn:Er; [done|].
  destruct (String.eqb_spec (hex (Sha256.sha256 (range (content file) o' n))) (lower sha)) as [Eh|]; [|done]. cbn [negb].
  destruct (negb _); [done|]. destruct (negb _); [done|]. intros [= -> <- ->]. exists n, sha. subst etag. repeat split; try done.
  - unfold request_data in Ed. destruct (obj_get_or _ _ _) as [| | | |v| |]; try done. destruct (b64decode_standard v) as [x|]; [|done].
    destruct (len x =? n) eqn:E; [|done]. injection Ed as ->. lia.
  - unfold request_offset in Eo. destruct (obj_get_or _ _ _) as [| |m| | | |]; try done. destruct (m <? 0) eqn:E; [done|]. injection Eo as ->. lia.
  - lia.
Qed.

(** C18: Replacing a range of a large file compares and swaps: when it succeeds, the
    file had the expected ETag, the range had the expected hash, and the file is the
    old one with exactly the new bytes in the place of the range; when a write fails
    half-way and rolling back succeeds, or when the request is refused, the file is as
    before; and when rolling back fails too, which has its own error code, the size
    and all bytes outside the range are as before.  This holds for every pattern of
    partial and failing writes.  A request that passes the checks succeeds when every
    write makes some progress and the other calls do not fail. *)
Theorem large_range_replaced body resolve file before prewrite current w :
  (∀ x, replace_checks body resolve file before prewrite current = Ok x → healthy w →
     ∃ a, (replace_large_range body resolve file before prewrite current w).1 = Ok a) ∧
  match replace_large_range body resolve file before prewrite current w with
  | (Ok _, f') =>
      ∃ o n data sha, request_offset body = Ok o ∧ request_length body = Ok n ∧ request_data body n = Ok data ∧ request_sha256 body = Ok sha ∧
        _required_exact_etag body = Ok before ∧ lower sha = hex (Sha256.sha256 (range file.(content) o n)) ∧
        f' = take (Z.to_nat o) file.(content) ++ data ++ drop (Z.to_nat (o + n)) file.(content)
  | (Err WriteError, f') => f' = file.(content)
  | (Err (Refused e), f') =>
      f' = file.(content) ∨
      e = api_error 500 "large_file_rollback_failed" ∧
      ∃ o n, request_offset body = Ok o ∧ request_length body = Ok n ∧ agree_outside (Z.to_nat o) (Z.to_nat n) f' file.(content)
  end.
Proof.
  unfold replace_large_range. destruct (replace_checks _ _ _ _ _ _) as [[[o old] data]|e] eqn:Ec; [|split; [done|by left]].
  apply checks_spec in Ec as (n & sha & He & Ho & Hn & Hd & Hlen & Hs & -> & Hh & H0 & Hr).
  unfold len in *. assert (En : Z.to_nat n = length data) by lia.
  split; [intros _ _ Hh'; apply overwrite_healthy; [lia|done]|].
  pose proof (overwrite_spec (Z.to_nat o) (range (content file) o n) data (content file) w ltac:(lia) ltac:(unfold range; by rewrite En)) as H.
  destruct (overwrite _ _ _ _ _) as [[a|[e|]] f']; [|right; split; [apply H|]|done].
  - exists o, n, data, sha. repeat split; try done. rewrite H. unfold splice. by rewrite Z2Nat.inj_add, En by lia.
  - exists o, n. rewrite En. split; [done|]. split; [done|apply H].
Qed.
