(* ===== verification/StructuredPatch.v ===== *)
(** * StructuredPatch: pointers into documents and guarded edits

    Models, from src/openkapsel/rpc_plugins/structured/__init__.py, JSON Pointers and
    the application of patch operations to a parsed document ([_tokens], [_index],
    [_at], [_equal], [_apply]).  Documents are JSON values; parsing and printing them is
    left out.  The code edits a deep copy in place; a tree without sharing makes that the update
    at a path. *)

From Stdlib Require Import ZArith QArith Lia Ascii String.
From stdpp Require Import base tactics sets list strings pretty.
From S2P Require Import Prelude Dict.

Local Open Scope Z_scope.
Local Open Scope py_scope.

(** ** Pointers *)

Definition pointer_invalid : ApiError := api_error 400 "structured_pointer_invalid".
Definition pointer_missing : ApiError := api_error 404 "structured_pointer_missing".

(** [re.search(r"~(?![01])", pointer)] *)
Fixpoint bad_tilde (s : string) : bool :=
  match s with
  | EmptyString => false
  | String c s' => (Ascii.eqb c "~" && match s' with String d _ => negb (Ascii.eqb d "0" || Ascii.eqb d "1") | EmptyString => true end) || bad_tilde s'
  end.

(** [s.replace(ab, c)] for two different characters [a], [b] *)
Fixpoint replace_pair (a b c : ascii) (s : string) : string :=
  match s with
  | String x ((String y s') as rest) => if Ascii.eqb x a && Ascii.eqb y b then String c (replace_pair a b c s') else String x (replace_pair a b c rest)
  | _ => s
  end.

Definition unescape (part : string) : string := replace_pair "~" "0" "~" (replace_pair "~" "1" "/" part).

Definition _tokens (pointer : string) : res ApiError (list string) :=
  match pointer with
  | EmptyString => Ok []
  | String c rest => if negb (Ascii.eqb c "/") || bad_tilde pointer then Err pointer_invalid else Ok (unescape <$> split_on "/" rest)
  end.

(** [re.fullmatch(r"0|[1-9][0-9]*", part)] *)
Definition canonical (part : string) : bool :=
  match part with
  | EmptyString => false
  | String c rest => if Ascii.eqb c "0" then is_empty rest else is_dec c && str_forall is_dec rest
  end.

Definition _index (part : string) (length : Z) (append : bool) : res ApiError Z :=
  if String.eqb part "-" && append then Ok length
  else if negb (canonical part) || (10 <? slen part) then Err pointer_invalid
  else match py_int part with
  | None => Err pointer_invalid
  | Some value => if length + (if append then 1 else 0) <=? value then Err pointer_missing else Ok value
  end.

Definition step_into (part : string) (doc : json) : res ApiError json :=
  match doc with
  | JObj fields => match dget part fields with Some v => Ok v | None => Err pointer_missing end
  | JList l => let! i := _index part (Z.of_nat (length l)) false in match l !! Z.to_nat i with Some v => Ok v | None => Err pointer_missing end
  | _ => Err pointer_missing
  end.

Fixpoint _at (doc : json) (parts : list string) : res ApiError json :=
  match parts with [] => Ok doc | part :: parts' => let! v := step_into part doc in _at v parts' end.

(** ** Operations *)

(** Numbers of the two types compare by value. *)
Definition number (v : json) : option Q := match v with JInt n => Some (inject_Z n) | JFloat q => Some q | _ => None end.

Fixpoint _equal (left right : json) : bool :=
  match left, right with
  | JBool a, JBool b => Bool.eqb a b
  | JNull, JNull => true
  | JStr a, JStr b => String.eqb a b
  | JObj a, JObj b =>
      forallb (λ f, dmem f.1 a) b && forallb (λ f, match dget f.1 b with Some v => _equal f.2 v | None => false end) a
  | JList a, JList b =>
      (fix all (l m : list json) := match l, m with [], [] => true | x :: l', y :: m' => _equal x y && all l' m' | _, _ => false end) a b
  | (JInt _ | JFloat _), (JInt _ | JFloat _) => match number left, number right with Some x, Some y => Qeq_bool x y | _, _ => false end
  | _, _ => false
  end.

Inductive kind := Test | Add | Replace | Remove.
Record operation := { op : kind; path : string; value : option json }.

Definition patch_invalid : ApiError := api_error 400 "structured_patch_invalid".

Definition is_add (k : kind) : bool := match k with Add => true | _ => false end.

(** What an operation does to the parent of its target. *)
Definition edit_parent (k : kind) (key : string) (v : json) (parent : json) : res ApiError json :=
  match parent with
  | JObj fields =>
      if negb (is_add k) && negb (dmem key fields) then Err pointer_missing
      else match k with Remove => Ok (JObj (dpop key fields)) | _ => Ok (JObj (dset key v fields)) end
  | JList l =>
      let! i := _index key (Z.of_nat (length l)) (is_add k) in
      match k with
      | Remove => Ok (JList (take (Z.to_nat i) l ++ drop (S (Z.to_nat i)) l))
      | Add => Ok (JList (take (Z.to_nat i) l ++ v :: drop (Z.to_nat i) l))
      | _ => Ok (JList (<[Z.to_nat i := v]> l))
      end
  | _ => Err pointer_missing
  end.

(** The document with another value where [parts] lead. *)
Fixpoint update_at (parts : list string) (f : json → res ApiError json) (doc : json) : res ApiError json :=
  match parts with
  | [] => f doc
  | part :: parts' =>
      let! v := step_into part doc in
      let! v' := update_at parts' f v in
      match doc with
      | JObj fields => Ok (JObj (dset part v' fields))
      | JList l => let! i := _index part (Z.of_nat (length l)) false in Ok (JList (<[Z.to_nat i := v']> l))
      | _ => Err pointer_missing
      end
  end.

Definition apply_one (doc : json) (o : operation) : res ApiError json :=
  let! parts := _tokens o.(path) in
  let given := match o.(value) with Some _ => true | None => false end in
  let v := default JNull o.(value) in
  match o.(op) with
  | Test =>
      raise! patch_invalid when negb given;
      let! found := _at doc parts in
      if _equal found v then Ok doc else Err (api_error 409 "structured_test_failed")
  | k =>
      raise! patch_invalid when match k with Remove => given | _ => negb given end;
      match rev parts with
      | [] => match k with Remove => Err (api_error 400 "structured_patch_root") | _ => Ok v end
      | key :: above => update_at (rev above) (edit_parent k key v) doc
      end
  end.

Fixpoint _apply (doc : json) (operations : list operation) : res ApiError json :=
  match operations with [] => Ok doc | o :: rest => let! doc' := apply_one doc o in _apply doc' rest end.

(** ** Pointers of paths *)

(** [k.replace(~, ~0).replace(/, ~1)] *)
Fixpoint escape (k : string) : string :=
  match k with
  | EmptyString => EmptyString
  | String c k' => (if Ascii.eqb c "~" then "~0" else if Ascii.eqb c "/" then "~1" else String c EmptyString) +:+ escape k'
  end.

(** ** Printed indices *)

Lemma pretty_char_code x : (x < 10)%N → is_dec (pretty_N_char x) = true ∧ code (pretty_N_char x) - 48 = Z.of_N x.
Proof. intros H. destruct x as [|p]; [done|]. do 4 (destruct p as [p|p|]; try done; try lia). Qed.

Lemma is_dec_char c : is_dec c = true → ∃ x, (x < 10)%N ∧ c = pretty_N_char x.
Proof.
  intros H. destruct c as [[] [] [] [] [] [] [] []]; try done;
    (exists 0%N; done) || (exists 1%N; done) || (exists 2%N; done) || (exists 3%N; done) || (exists 4%N; done) ||
    (exists 5%N; done) || (exists 6%N; done) || (exists 7%N; done) || (exists 8%N; done) || (exists 9%N; done).
Qed.

Lemma int_acc_go x s : int_acc 0 (pretty_N_go x s) = int_acc (Z.of_N x) s.
Proof.
  revert s. induction (N.lt_wf_0 x) as [x _ IH]; intros s. destruct (decide (x = 0)%N) as [->|Hx]; [by rewrite pretty_N_go_0|].
  rewrite pretty_N_go_step by lia. rewrite IH by (apply N.div_lt; lia). cbn [int_acc].
  destruct (pretty_char_code (x mod 10)) as [Hd Hc]; [apply N.mod_lt; lia|]. rewrite Hd, Hc. f_equal.
  rewrite N2Z.inj_div, N2Z.inj_mod. pose proof (Z.div_mod (Z.of_N x) 10 ltac:(lia)). lia.
Qed.

Lemma pretty_go_canonical x s : (0 < x)%N → str_forall is_dec s = true → ∃ c t, pretty_N_go x s = String c t ∧ Ascii.eqb c "0" = false ∧ is_dec c = true ∧ str_forall is_dec t = true.
Proof.
  revert s. induction (N.lt_wf_0 x) as [x _ IH]; intros s Hx Hs. rewrite pretty_N_go_step by lia.
  destruct (pretty_char_code (x mod 10)) as [Hd Hc]; [apply N.mod_lt; lia|]. destruct (decide (x < 10)%N) as [Hlt|Hge].
  - rewrite N.div_small, pretty_N_go_0 by done. eexists _, _. split; [done|]. rewrite N.mod_small in * by done. split; [|done].
    destruct (Ascii.eqb_spec (pretty_N_char x) "0") as [E|]; [|done]. rewrite E in Hc. change (code "0" - 48) with 0 in Hc. lia.
  - apply IH; [apply N.div_lt; lia|apply N.div_str_pos; lia|]. cbn [str_forall]. by rewrite Hd.
Qed.

Lemma pretty_canonical (i : N) : canonical (pretty i) = true ∧ py_int (pretty i) = Some (Z.of_N i).
Proof.
  unfold pretty, pretty_N. destruct (decide (i = 0)%N) as [->|Hi]; [done|]. pose proof (int_acc_go i "") as E. split.
  - destruct (pretty_go_canonical i "") as (c & t & -> & Hz & Hc & Ht); [lia|done|]. cbn [canonical]. by rewrite Hz, Hc, Ht.
  - unfold py_int. destruct (pretty_go_canonical i "") as (c & t & E' & _); [lia|done|]. rewrite E' in *. cbn [is_empty]. by rewrite E.
Qed.

Lemma int_acc_pretty s acc m t :
  (0 < acc)%N → int_acc (Z.of_N acc) s = Some m → ∃ n, m = Z.of_N n ∧ (0 < n)%N ∧ pretty_N_go n t = pretty_N_go acc (s +:+ t).
Proof.
  revert acc. induction s as [|c s IH]; intros acc Ha; cbn [int_acc]; [intros [= <-]; by exists acc|]. destruct (is_dec c) eqn:Ec; [|done].
  apply is_dec_char in Ec as (x & Hx & ->). destruct (pretty_char_code x Hx) as [_ ->].
  replace (Z.of_N acc * 10 + Z.of_N x) with (Z.of_N (acc * 10 + x)) by lia. intros Hm. destruct (IH (acc * 10 + x)%N ltac:(lia) Hm) as (n & -> & Hn & E). exists n. split; [done|]. split; [done|].
  rewrite E, pretty_N_go_step by lia. rewrite str_app_cons.
  assert ((acc * 10 + x) / 10 = acc)%N as -> by (rewrite N.div_add_l, N.div_small by lia; lia).
  assert ((acc * 10 + x) mod 10 = x)%N as -> by (rewrite N.add_comm, N.Div0.mod_add; by apply N.mod_small). done.
Qed.

(** An index is written in one way only. *)
Lemma canonical_pretty s m : canonical s = true → py_int s = Some m → ∃ n, m = Z.of_N n ∧ s = pretty n.
Proof.
  destruct s as [|c s]; [done|]. cbn [canonical]. destruct (Ascii.eqb_spec c "0") as [->|Hne].
  - destruct s; [|done]. intros _ [= <-]. by exists 0%N.
  - intros [Hc Hs]%andb_true_iff. unfold py_int. cbn [is_empty int_acc]. rewrite Hc. apply is_dec_char in Hc as (x & Hx & ->).
    destruct (pretty_char_code x Hx) as [_ ->]. assert (Hx0 : (0 < x)%N). { destruct x; [|lia]. by exfalso. }
    intros Hm. destruct (int_acc_pretty s x m "" Hx0 Hm) as (n & -> & Hn & E). exists n. split; [done|]. unfold pretty, pretty_N. rewrite decide_False by lia.
    rewrite E, str_app_nil_r, pretty_N_go_step by lia. by rewrite N.div_small, pretty_N_go_0, N.mod_small.
Qed.

Lemma index_pretty (i : N) (len : Z) (append : bool) : (i < 10 ^ 10)%N → Z.of_N i < len + (if append then 1 else 0) → _index (pretty i) len append = Ok (Z.of_N i).
Proof.
  intros Hi Hl. destruct (pretty_canonical i) as [Hc Hp]. unfold _index.
  assert (String.eqb (pretty i) "-" = false) as -> by (destruct (String.eqb_spec (pretty i) "-") as [E|]; [by rewrite E in Hc|done]). cbn [andb].
  rewrite Hc, Hp. cbn [negb orb]. assert ((10 <? slen (pretty i)) = false) as ->.
  { apply Z.ltb_ge. unfold pretty, pretty_N, slen. destruct (decide (i = 0)%N); [cbn; lia|]. pose proof (pretty_go_length 10 i "" Hi) as H.
    change (String.length "") with 0%nat in H. lia. }
  assert ((len + (if append then 1 else 0) <=? Z.of_N i) = false) as -> by lia. done.
Qed.

Lemma index_inv part (len : Z) (append : bool) i :
  _index part len append = Ok i → part = "-"%string ∧ append = true ∧ i = len ∨ ∃ n, part = pretty n ∧ i = Z.of_N n ∧ i < len + (if append then 1 else 0) ∧ slen part ≤ 10.
Proof.
  unfold _index. destruct (String.eqb_spec part "-") as [->|Hne]; cbn [andb].
  - destruct append; [intros [= <-]; by left|]. done.
  - destruct (canonical part) eqn:Ec; [|done]. cbn [negb orb]. destruct (10 <? slen part) eqn:El; [done|]. destruct (py_int part) as [v|] eqn:Ep; [|done].
    destruct (_ <=? v) eqn:Ev; [done|]. intros [= <-]. destruct (canonical_pretty _ _ Ec Ep) as (n & -> & ->). right. exists n. repeat split; lia.
Qed.

(** ** Pointers are read back *)

Fixpoint pointer_of (parts : list string) : string := match parts with [] => EmptyString | p :: parts' => "/" +:+ escape p +:+ pointer_of parts' end.

Lemma replace_pair_skip a b x c s : Ascii.eqb c a = false → replace_pair a b x (String c s) = String c (replace_pair a b x s).
Proof. intros H. destruct s as [|y s]; [done|]. cbn [replace_pair]. by rewrite H. Qed.

(** After the first replacement only the tildes are still escaped. *)
Fixpoint escape_tildes (k : string) : string :=
  match k with EmptyString => EmptyString | String c k' => if Ascii.eqb c "~" then String "~" (String "0" (escape_tildes k')) else String c (escape_tildes k') end.

Lemma unescape_escape p : unescape (escape p) = p.
Proof.
  unfold unescape. assert (replace_pair "~" "1" "/" (escape p) = escape_tildes p) as ->.
  - induction p as [|c p IH]; [done|]. cbn [escape escape_tildes]. destruct (Ascii.eqb c "~") eqn:Et.
    + change ("~0" +:+ escape p) with (String "~" (String "0" (escape p))).
      change (replace_pair "~" "1" "/" (String "~" (String "0" (escape p)))) with (String "~" (replace_pair "~" "1" "/" (String "0" (escape p)))).
      by rewrite replace_pair_skip, IH.
    + destruct (Ascii.eqb_spec c "/") as [->|Hs]; [|change (String c "" +:+ escape p) with (String c (escape p)); by rewrite replace_pair_skip, IH].
      change (replace_pair "~" "1" "/" ("~1" +:+ escape p)) with (String "/" (replace_pair "~" "1" "/" (escape p))). by rewrite IH.
  - induction p as [|c p IH]; [done|]. cbn [escape_tildes]. destruct (Ascii.eqb_spec c "~") as [->|Hn].
    + change (replace_pair "~" "0" "~" (String "~" (String "0" (escape_tildes p)))) with (String "~" (replace_pair "~" "0" "~" (escape_tildes p))). by rewrite IH.
    + rewrite replace_pair_skip by (by apply Ascii.eqb_neq). by rewrite IH.
Qed.

Lemma escape_no_slash p : has_char "/" (escape p) = false.
Proof.
  unfold has_char. induction p as [|c p IH]; [done|]. cbn [escape]. destruct (Ascii.eqb c "~"); [exact IH|].
  destruct (Ascii.eqb_spec c "/") as [->|Hn]; [exact IH|]. change (String c "" +:+ escape p) with (String c (escape p)). cbn [str_exists].
  destruct (Ascii.eqb_spec "/" c); [congruence|done].
Qed.

Lemma bad_tilde_escape p rest : bad_tilde (escape p +:+ rest) = bad_tilde rest.
Proof.
  induction p as [|c p IH]; [done|]. cbn [escape]. destruct (Ascii.eqb c "~") eqn:Et; [exact IH|].
  destruct (Ascii.eqb_spec c "/") as [->|Hn]; [exact IH|]. change ((String c "" +:+ escape p) +:+ rest) with (String c (escape p +:+ rest)). cbn [bad_tilde]. by rewrite Et.
Qed.

Lemma bad_tilde_pointer parts : bad_tilde (pointer_of parts) = false.
Proof. induction parts as [|p parts IH]; [done|]. cbn [pointer_of]. change (bad_tilde (escape p +:+ pointer_of parts) = false). by rewrite bad_tilde_escape. Qed.

Lemma split_pointer p parts : split_on "/" (escape p +:+ pointer_of parts) = escape <$> p :: parts.
Proof.
  revert p. induction parts as [|q parts IH]; intros p; cbn [pointer_of].
  - rewrite str_app_nil_r. by rewrite split_on_none by apply escape_no_slash.
  - change ("/" +:+ ?x) with (String "/" x). rewrite split_on_app by apply escape_no_slash. by rewrite IH.
Qed.

Lemma tokens_pointer parts : _tokens (pointer_of parts) = Ok parts.
Proof.
  destruct parts as [|p parts]; [done|]. cbn [pointer_of]. change ("/" +:+ ?x) with (String "/" x). unfold _tokens.
  change (Ascii.eqb "/" "/") with true. cbn [negb orb]. change (bad_tilde (String "/" ?x)) with (bad_tilde (pointer_of (p :: parts))).
  rewrite bad_tilde_pointer, split_pointer. f_equal. rewrite <- list_fmap_compose. rewrite <- (list_fmap_id (p :: parts)) at 2.
  apply list_fmap_ext. intros i x _. apply unescape_escape.
Qed.

(** ** Reading after editing *)

Lemma dget_dset {A} k j (v : A) d : dget j (dset k v d) = if String.eqb k j then Some v else dget j d.
Proof.
  induction d as [|[k' v'] d IH]; cbn [dset dget]; [by destruct (String.eqb k j)|]. destruct (String.eqb_spec k' k) as [->|Hne]; cbn [dget].
  - by destruct (String.eqb k j).
  - rewrite IH. destruct (String.eqb_spec k' j) as [->|]; [|done]. by destruct (String.eqb_spec k j).
Qed.

Lemma dset_same {A} k (v : A) d : dget k d = Some v → dset k v d = d.
Proof. induction d as [|[k' v'] d IH]; cbn [dset dget]; [done|]. destruct (String.eqb k' k); [by intros [= ->]|]. intros H. by rewrite IH. Qed.

Lemma dset_twice {A} k (v w : A) d : dset k w (dset k v d) = dset k w d.
Proof.
  induction d as [|[k' v'] d IH]; cbn [dset]; [by rewrite String.eqb_refl|]. destruct (String.eqb k' k) eqn:E; cbn [dset]; rewrite E; [done|by rewrite IH].
Qed.

Lemma dpop_dset {A} k (v : A) d : dget k d = None → dpop k (dset k v d) = d.
Proof.
  induction d as [|[k' v'] d IH]; cbn [dset dget]; [intros _; cbn; by rewrite String.eqb_refl|]. destruct (String.eqb k' k) eqn:E; [done|].
  intros H. cbn [dpop]. by rewrite E, IH.
Qed.

Lemma at_app doc p q : _at doc (p ++ q) = let! v := _at doc p in _at v q.
Proof. revert doc. induction p as [|a p IH]; intros doc; [done|]. cbn [_at app]. destruct (step_into a doc); [apply IH|done]. Qed.

(** An index that is in range leads to an element. *)
Lemma index_lookup part (l : list json) i : _index part (Z.of_nat (length l)) false = Ok i → ∃ v, l !! Z.to_nat i = Some v.
Proof. intros [(_ & ? & _)|(n & _ & -> & Hl & _)]%index_inv; [done|]. apply lookup_lt_is_Some. lia. Qed.

(** The container of a part that was replaced. *)
Definition put (part : string) (v : json) (doc : json) : res ApiError json :=
  match doc with
  | JObj fields => Ok (JObj (dset part v fields))
  | JList l => let! i := _index part (Z.of_nat (length l)) false in Ok (JList (<[Z.to_nat i := v]> l))
  | _ => Err pointer_missing
  end.

Lemma update_at_cons part parts f doc :
  update_at (part :: parts) f doc = let! v := step_into part doc in let! v' := update_at parts f v in put part v' doc.
Proof. done. Qed.

Lemma put_step part v v0 doc doc' : step_into part doc = Ok v0 → put part v doc = Ok doc' → step_into part doc' = Ok v.
Proof.
  destruct doc as [| | | | |l|fields]; try done; cbn [step_into put].
  - destruct (_index part (Z.of_nat (length l)) false) as [i|] eqn:Ei; [|done]. intros _ [= <-]. cbn [step_into]. rewrite length_insert, Ei.
    destruct (index_lookup _ _ _ Ei) as [x Hx]. by rewrite list_lookup_insert_eq by (by eapply lookup_lt_Some).
  - intros _ [= <-]. cbn [step_into]. by rewrite dget_dset, String.eqb_refl.
Qed.

Lemma put_elsewhere part part' v doc doc' : part ≠ part' → put part v doc = Ok doc' → step_into part' doc' = step_into part' doc.
Proof.
  intros Hne. destruct doc as [| | | | |l|fields]; try done; cbn [put].
  - destruct (_index part (Z.of_nat (length l)) false) as [i|] eqn:Ei; [|done]. intros [= <-]. cbn [step_into]. rewrite length_insert.
    destruct (_index part' (Z.of_nat (length l)) false) as [j|] eqn:Ej; [|done]. rewrite list_lookup_insert_ne; [done|].
    apply index_inv in Ei as [(_ & ? & _)|(n & -> & -> & _)]; [done|]. apply index_inv in Ej as [(_ & ? & _)|(m & -> & -> & _)]; [done|].
    intros E. apply Hne. f_equal. lia.
  - intros [= <-]. cbn [step_into]. rewrite dget_dset. by destruct (String.eqb_spec part part').
Qed.

Lemma put_back part v v0 doc doc' : step_into part doc = Ok v0 → put part v doc = Ok doc' → put part v0 doc' = Ok doc.
Proof.
  destruct doc as [| | | | |l|fields]; try done; cbn [step_into put].
  - destruct (_index part (Z.of_nat (length l)) false) as [i|] eqn:Ei; [|done]. destruct (l !! Z.to_nat i) as [x|] eqn:Ex; [|done]. intros [= ->] [= <-]. cbn [put].
    rewrite length_insert, Ei. by rewrite list_insert_insert_eq, list_insert_id.
  - destruct (dget part fields) as [x|] eqn:Ex; [|done]. intros [= ->] [= <-]. cbn [put]. by rewrite dset_twice, dset_same.
Qed.

Lemma update_at_spec parts f doc doc' :
  update_at parts f doc = Ok doc' → ∃ v v', _at doc parts = Ok v ∧ f v = Ok v' ∧ _at doc' parts = Ok v'.
Proof.
  revert doc doc'. induction parts as [|a parts IH]; intros doc doc'; [intros H; by exists doc, doc'|]. rewrite update_at_cons. cbn [_at].
  destruct (step_into a doc) as [v|] eqn:Es; [|done]. destruct (update_at parts f v) as [v'|] eqn:Eu; [|done]. intros Hp.
  rewrite (put_step _ _ _ _ _ Es Hp). by apply IH.
Qed.

(** Nothing else changes. *)
Lemma update_at_frame c a r f doc doc' b s :
  update_at (c ++ a :: r) f doc = Ok doc' → a ≠ b → _at doc' (c ++ b :: s) = _at doc (c ++ b :: s).
Proof.
  revert doc doc'. induction c as [|x c IH]; intros doc doc' H Hne; cbn [app] in *; rewrite update_at_cons in H.
  - destruct (step_into a doc) as [v|] eqn:Es; [|done]. destruct (update_at r f v) as [v'|] eqn:Eu; [|done]. cbn [_at]. by rewrite (put_elsewhere _ _ _ _ _ Hne H).
  - destruct (step_into x doc) as [v|] eqn:Es; [|done]. destruct (update_at (c ++ a :: r) f v) as [v'|] eqn:Eu; [|done]. cbn [_at].
    rewrite (put_step _ _ _ _ _ Es H), Es. by apply IH.
Qed.

Lemma update_at_undo parts f g doc doc' :
  update_at parts f doc = Ok doc' → (∀ v v', _at doc parts = Ok v → f v = Ok v' → g v' = Ok v) → update_at parts g doc' = Ok doc.
Proof.
  revert doc doc'. induction parts as [|a parts IH]; intros doc doc' H Hg; [by apply (Hg doc doc')|]. rewrite update_at_cons in *. cbn [_at] in Hg.
  destruct (step_into a doc) as [v|] eqn:Es; [|done]. destruct (update_at parts f v) as [v'|] eqn:Eu; [|done].
  rewrite (put_step _ _ _ _ _ Es H), (IH _ _ Eu Hg). by eapply put_back.
Qed.

(** ** What an operation does *)

Definition edits (k : kind) : Prop := k = Add ∨ k = Replace.

Lemma apply_edit doc o parts key v :
  edits o.(op) → _tokens o.(path) = Ok (parts ++ [key]) → o.(value) = Some v → _apply doc [o] = update_at parts (edit_parent o.(op) key v) doc.
Proof.
  intros Hk Ht Hv. unfold _apply, apply_one. rewrite Ht, Hv, rev_app_distr. cbn [rev app default]. rewrite rev_involutive.
  destruct Hk as [-> | ->]; cbn [negb]; change (id v) with v; by destruct (update_at parts _ doc).
Qed.

Lemma apply_remove doc o parts key :
  o.(op) = Remove → _tokens o.(path) = Ok (parts ++ [key]) → o.(value) = None → _apply doc [o] = update_at parts (edit_parent Remove key JNull) doc.
Proof.
  intros Hk Ht Hv. unfold _apply, apply_one. rewrite Hk, Ht, Hv, rev_app_distr. cbn [rev app]. rewrite rev_involutive. by destruct (update_at parts _ doc).
Qed.

Lemma edit_parent_reads k key v parent parent' :
  edits k → key ≠ "-"%string → edit_parent k key v parent = Ok parent' → step_into key parent' = Ok v.
Proof.
  intros Hk Hd. destruct parent as [| | | | |l|fields]; try done; cbn [edit_parent].
  - destruct (_index key (Z.of_nat (length l)) (is_add k)) as [i|] eqn:Ei; [|done].
    apply index_inv in Ei as [(? & _)|(n & -> & -> & Hl & H10)]; [done|]. assert (Hn : Z.to_nat (Z.of_N n) = N.to_nat n) by lia. rewrite Hn.
    assert (Hix : ∀ m, (N.to_nat n < m)%nat → _index (pretty n) (Z.of_nat m) false = Ok (Z.of_N n)).
    { intros m Hm. unfold _index. cbn [andb]. rewrite andb_false_r. destruct (pretty_canonical n) as [-> ->]. cbn [negb orb].
      assert ((10 <? slen (pretty n)) = false) as -> by lia. assert ((Z.of_nat m + 0 <=? Z.of_N n) = false) as -> by lia. done. }
    destruct Hk as [-> | ->]; cbn [is_add] in *; intros [= <-]; cbn [step_into].
    + rewrite Hix by (rewrite length_app, length_take; cbn [length]; lia). rewrite Hn, lookup_app_r by (rewrite length_take; lia). rewrite length_take, Nat.min_l by lia.
      by rewrite Nat.sub_diag.
    + rewrite length_insert, Hix by lia. by rewrite Hn, list_lookup_insert_eq by lia.
  - destruct (_ && _); [done|]. destruct Hk as [-> | ->]; intros [= <-]; cbn [step_into]; by rewrite dget_dset, String.eqb_refl.
Qed.

Lemma edit_parent_other k key b v parent parent' :
  edits k → b ≠ key → k = Replace ∨ (∃ fields, parent = JObj fields) → edit_parent k key v parent = Ok parent' → step_into b parent' = step_into b parent.
Proof.
  intros Hk Hb Hp. destruct parent as [| | | | |l|fields]; try done; cbn [edit_parent].
  - destruct Hp as [->|[fields ?]]; [|done]. cbn [is_add]. intros H. apply (put_elsewhere key b v (JList l)); [done|]. exact H.
  - destruct (_ && _); [done|]. destruct Hk as [-> | ->]; intros [= <-]; cbn [step_into]; rewrite dget_dset; by destruct (String.eqb_spec key b).
Qed.

Lemma edit_parent_inserts key v l parent' :
  edit_parent Add key v (JList l) = Ok parent' →
  ∃ i, (key = "-"%string ∧ i = length l ∨ key = pretty (N.of_nat i)) ∧ (i ≤ length l)%nat ∧ parent' = JList (take i l ++ v :: drop i l).
Proof.
  cbn [edit_parent is_add]. destruct (_index key (Z.of_nat (length l)) true) as [i|] eqn:Ei; [|done]. intros [= <-]. exists (Z.to_nat i).
  apply index_inv in Ei as [(-> & _ & ->)|(n & -> & -> & Hl & _)]; (split; [|split; [lia|done]]); [left; split; [done|lia]|right; f_equal; lia].
Qed.

(** C21: A patch operation that adds or replaces a value does that and nothing else:
    reading at its pointer then gives the value, and reading at any pointer that
    branches off the pointer of the operation gives what it gave before, errors
    included, unless it branches off at the very array that an element was inserted
    into; that array has the new element at its index, or at its end for [-], and the
    later elements move by one. *)
Theorem patch_edit doc doc' o parts key v :
  edits o.(op) → _tokens o.(path) = Ok (parts ++ [key]) → o.(value) = Some v → _apply doc [o] = Ok doc' →
  (key ≠ "-"%string → _at doc' (parts ++ [key]) = Ok v) ∧
  (∀ c a r b s, parts ++ [key] = c ++ a :: r → a ≠ b → r ≠ [] ∨ o.(op) = Replace ∨ (∃ fields, _at doc c = Ok (JObj fields)) →
    _at doc' (c ++ b :: s) = _at doc (c ++ b :: s)) ∧
  ∀ l, o.(op) = Add → _at doc parts = Ok (JList l) →
    ∃ i, (key = "-"%string ∧ i = length l ∨ key = pretty (N.of_nat i)) ∧ (i ≤ length l)%nat ∧ _at doc' parts = Ok (JList (take i l ++ v :: drop i l)).
Proof.
  intros Hk Ht Hv Ha. rewrite (apply_edit _ _ _ _ _ Hk Ht Hv) in Ha. pose proof (update_at_spec _ _ _ _ Ha) as (p & p' & Hp & He & Hp'). split; [|split].
  - intros Hd. rewrite at_app, Hp'. cbn [_at]. by rewrite (edit_parent_reads _ _ _ _ _ Hk Hd He).
  - intros c a r b s Hpk Hne Hr. destruct r as [|z r _] using rev_ind.
    + apply app_inj_tail in Hpk as [-> ->]. rewrite !at_app, Hp, Hp'. cbn [_at].
      rewrite (edit_parent_other (op o) a b v p p'); [done|done|congruence| |done]. destruct Hr as [?|[?|[fields E]]]; [done|by left|right].
      exists fields. congruence.
    + rewrite app_comm_cons, app_assoc in Hpk. apply app_inj_tail in Hpk as [-> ->]. by eapply update_at_frame.
  - intros l Hadd Hl. rewrite Hl in Hp. injection Hp as <-. rewrite Hadd in He.
    destruct (edit_parent_inserts _ _ _ _ He) as (i & H1 & H2 & ->). exists i. by rewrite Hp'.
Qed.

Definition example_doc : json := JObj [("a/b", JList [JInt 1; JObj [("~", JStr "x")]]); ("n", JInt (2 ^ 60))]%string.
Definition example_op : operation := {| op := Add; path := "/a~1b/1"; value := Some (JBool true) |}.

Definition example_edited : json :=
  JObj [("a/b", JList [JInt 1; JBool true; JObj [("~", JStr "x")]]); ("n", JInt (2 ^ 60))]%string.

Lemma patch_edit_witness : _at example_edited ["a/b"; "1"]%string = Ok (JBool true) ∧ _at example_edited ["n"%string] = _at example_doc ["n"%string].
Proof.
  destruct (patch_edit example_doc example_edited example_op ["a/b"]%string "1" (JBool true)) as (H1 & H2 & _).
  - by left.
  - vm_compute. reflexivity.
  - reflexivity.
  - vm_compute. reflexivity.
  - split; [by apply H1|]. apply (H2 [] "a/b"%string ["1"%string] "n"%string []); [reflexivity|discriminate|left; discriminate].
Defined.

(** Removing what was just added restores the document exactly, keys in their
    order: for a key that the object did not have, and for every position of an
    array. *)
Theorem patch_undo doc doc' pointer parts key v :
  _tokens pointer = Ok (parts ++ [key]) → key ≠ "-"%string → (∀ fields, _at doc parts = Ok (JObj fields) → dget key fields = None) →
  _apply doc [{| op := Add; path := pointer; value := Some v |}] = Ok doc' →
  _apply doc' [{| op := Remove; path := pointer; value := None |}] = Ok doc.
Proof.
  intros Ht Hd Hf Ha. assert (Hadd : edits Add) by (by left).
  rewrite (apply_edit doc {| op := Add; path := pointer; value := Some v |} parts key v Hadd Ht eq_refl) in Ha.
  rewrite (apply_remove doc' {| op := Remove; path := pointer; value := None |} parts key eq_refl Ht eq_refl).
  eapply update_at_undo; [exact Ha|]. intros p p' Hp He. cbn [op] in He. pose proof (edit_parent_reads _ _ _ _ _ Hadd Hd He) as Hr.
  destruct p as [| | | | |l|fields]; try done; cbn [edit_parent] in *.
  - cbn [is_add] in He. destruct (_index key (Z.of_nat (length l)) true) as [i|] eqn:Ei; [|done]. injection He as <-. cbn [edit_parent is_add step_into] in *.
    set (l' := take (Z.to_nat i) l ++ v :: drop (Z.to_nat i) l) in *. destruct (_index key (Z.of_nat (length l')) false) as [j|] eqn:Ej; [|done].
    apply index_inv in Ei as [(? & _)|(n & -> & -> & Hl & _)]; [done|]. apply index_inv in Ej as [(_ & ? & _)|(m & E & -> & _)]; [done|].
    assert (m = n) as -> by (destruct (pretty_canonical m) as [_ Hm], (pretty_canonical n) as [_ Hn]; rewrite E in Hn; rewrite Hn in Hm; injection Hm; lia).
    apply (f_equal (λ x, Ok (JList x))). unfold l'. replace (Z.to_nat (Z.of_N n)) with (N.to_nat n) by lia. assert (Hlen : length (take (N.to_nat n) l) = N.to_nat n) by (rewrite length_take; lia).
    rewrite take_app_length' by done. rewrite drop_app_ge by lia. rewrite Hlen. replace (S (N.to_nat n) - N.to_nat n)%nat with 1%nat by lia. cbn [drop]. by rewrite drop_0, take_drop.
  - cbn [is_add negb andb] in He. injection He as <-. assert (Hk : dmem key (dset key v fields) = true) by (unfold dmem; by rewrite dget_dset, String.eqb_refl).
    cbn [edit_parent is_add negb andb]. rewrite Hk. cbn [negb]. by rewrite dpop_dset by (by apply Hf).
Qed.
