(* ===== verification/DataView.v ===== *)
(** * DataView: what a reader is shown of a parsed document

    Models [json_view] of src/openkapsel/rpc_plugins/_data.py: the JSON value that stands
    for a parsed JSON, YAML or TOML document, with the pointers of the dates, times and
    integers that JSON cannot express and that are shown as text.  Parsed documents are
    trees, so the check for cycles has nothing to find, and as characters are code points
    below 256 there are no surrogates; a date or time
    is the name of its class, which may be one that the parser derives from those of
    [datetime], and its ISO text. *)

From Stdlib Require Import ZArith QArith Lia Ascii String.
From stdpp Require Import base tactics sets list strings pretty.
From S2P Require Import Prelude Dict StructuredPatch.

Local Open Scope Z_scope.
Local Open Scope py_scope.

(** ** Parsed documents *)

(** The values of the parsers.  A mapping has its text keys and tells whether it has
    others; [DOther] is a value of a type that no branch handles. *)
Inductive data :=
| DNull
| DBool (b : bool)
| DInt (n : Z)
| DFloat (q : Q)
| DNonFinite
| DStr (s : string)
| DMoment (type_name iso : string)
| DOther
| DList (l : list data)
| DMap (other_keys : bool) (fields : list (string * data)).

(** [_at] on a parsed document. *)
Definition data_step (part : string) (doc : data) : res ApiError data :=
  match doc with
  | DMap _ fields => match dget part fields with Some v => Ok v | None => Err pointer_missing end
  | DList l => let! i := _index part (Z.of_nat (length l)) false in match l !! Z.to_nat i with Some v => Ok v | None => Err pointer_missing end
  | _ => Err pointer_missing
  end.

Fixpoint data_at (doc : data) (parts : list string) : res ApiError data :=
  match parts with [] => Ok doc | part :: parts' => let! v := data_step part doc in data_at v parts' end.

(** ** The view *)

Definition MAX_NODES : Z := 100000.
Definition MAX_DEPTH : Z := 64.
Definition SAFE : Z := 2 ^ 53 - 1.

Definition structure_limit : ApiError := api_error 413 "data_structure_limit".

(** The pointers with the names of the types that are shown as text. *)
Definition annotations : Type := list (string * string).

(** [visit]: the count of nodes and the annotations are threaded through. *)
Fixpoint visit (item : data) (pointer : string) (depth : Z) (count : Z) (types : annotations) : res ApiError (json * Z * annotations) :=
  let count := count + 1 in
  if (MAX_NODES <? count) || (MAX_DEPTH <? depth) then Err structure_limit
  else match item with
  | DMap other_keys fields =>
      if other_keys then Err (api_error 422 "data_key_type")
      else
        let! (out, count, types) :=
          (fix all (fs : list (string * data)) (count : Z) (types : annotations) : res ApiError (list (string * json) * Z * annotations) :=
             match fs with
             | [] => Ok ([], count, types)
             | (k, v) :: fs' =>
                 let! (v', count, types) := visit v (pointer +:+ "/" +:+ escape k) (depth + 1) count types in
                 let! (out, count, types) := all fs' count types in
                 Ok ((k, v') :: out, count, types)
             end) fields count types in
        Ok (JObj out, count, types)
  | DList l =>
      let! (out, count, types) :=
        (fix all (i : N) (vs : list data) (count : Z) (types : annotations) : res ApiError (list json * Z * annotations) :=
           match vs with
           | [] => Ok ([], count, types)
           | v :: vs' =>
               let! (v', count, types) := visit v (pointer +:+ "/" +:+ pretty i) (depth + 1) count types in
               let! (out, count, types) := all (i + 1)%N vs' count types in
               Ok (v' :: out, count, types)
           end) 0%N l count types in
      Ok (JList out, count, types)
  | DMoment type_name iso => Ok (JStr iso, count, types ++ [(pointer, type_name)])
  | DBool b => Ok (JBool b, count, types)
  | DNull => Ok (JNull, count, types)
  | DInt n => if SAFE <? Z.abs n then Ok (JStr (pretty n), count, types ++ [(pointer, "integer"%string)]) else Ok (JInt n, count, types)
  | DNonFinite => Err (api_error 422 "data_nonfinite")
  | DFloat q => Ok (JFloat q, count, types)
  | DStr s => Ok (JStr s, count, types)
  | DOther => Err (api_error 422 "data_value_type")
  end.

Definition json_view (value : data) : res ApiError (json * annotations) :=
  let! (v, _, types) := visit value EmptyString 0 0 [] in Ok (v, types).

(** ** Induction on documents *)

Definition scalar (v : data) : Prop := match v with DList _ | DMap _ _ => False | _ => True end.

Section data_induction.
Context (P : data → Prop).
Hypothesis P_scalar : ∀ v, scalar v → P v.
Hypothesis P_list : ∀ l, Forall P l → P (DList l).
Hypothesis P_map : ∀ b fields, Forall (λ f, P f.2) fields → P (DMap b fields).

Fixpoint data_nested_ind (v : data) : P v :=
  match v with
  | DList l => P_list l ((fix all l : Forall P l := match l with [] => Forall_nil_2 _ | x :: l' => Forall_cons_2 _ _ _ (data_nested_ind x) (all l') end) l)
  | DMap b fields =>
      P_map b fields ((fix all fs : Forall (λ f, P f.2) fs :=
        match fs with [] => Forall_nil_2 _ | f :: fs' => Forall_cons_2 _ _ _ (data_nested_ind f.2) (all fs') end) fields)
  | DNull => P_scalar DNull I
  | DBool b => P_scalar (DBool b) I
  | DInt n => P_scalar (DInt n) I
  | DFloat q => P_scalar (DFloat q) I
  | DNonFinite => P_scalar DNonFinite I
  | DStr s => P_scalar (DStr s) I
  | DMoment k iso => P_scalar (DMoment k iso) I
  | DOther => P_scalar DOther I
  end.
End data_induction.

(** The two inner loops. *)
Definition visit_fields (pointer : string) (depth : Z) :=
  fix all (fs : list (string * data)) (count : Z) (types : annotations) : res ApiError (list (string * json) * Z * annotations) :=
    match fs with
    | [] => Ok ([], count, types)
    | (k, v) :: fs' =>
        let! (v', count, types) := visit v (pointer +:+ "/" +:+ escape k) (depth + 1) count types in
        let! (out, count, types) := all fs' count types in
        Ok ((k, v') :: out, count, types)
    end.

Definition visit_items (pointer : string) (depth : Z) :=
  fix all (i : N) (vs : list data) (count : Z) (types : annotations) : res ApiError (list json * Z * annotations) :=
    match vs with
    | [] => Ok ([], count, types)
    | v :: vs' =>
        let! (v', count, types) := visit v (pointer +:+ "/" +:+ pretty i) (depth + 1) count types in
        let! (out, count, types) := all (i + 1)%N vs' count types in
        Ok (v' :: out, count, types)
    end.

Lemma visit_map b fields pointer depth count types :
  visit (DMap b fields) pointer depth count types =
  if (MAX_NODES <? count + 1) || (MAX_DEPTH <? depth) then Err structure_limit
  else if b then Err (api_error 422 "data_key_type")
  else let! (out, count, types) := visit_fields pointer depth fields (count + 1) types in Ok (JObj out, count, types).
Proof. done. Qed.

Lemma visit_list l pointer depth count types :
  visit (DList l) pointer depth count types =
  if (MAX_NODES <? count + 1) || (MAX_DEPTH <? depth) then Err structure_limit
  else let! (out, count, types) := visit_items pointer depth 0%N l (count + 1) types in Ok (JList out, count, types).
Proof. done. Qed.

(** ** What the view means *)

(** The name under which a value is annotated. *)
Definition native (v : data) : option string :=
  match v with
  | DMoment type_name _ => Some type_name
  | DInt n => if SAFE <? Z.abs n then Some "integer"%string else None
  | _ => None
  end.

(** How a scalar is shown. *)
Definition shown (v : data) : json :=
  match v with
  | DBool b => JBool b
  | DInt n => if SAFE <? Z.abs n then JStr (pretty n) else JInt n
  | DFloat q => JFloat q
  | DStr s => JStr s
  | DMoment _ iso => JStr iso
  | _ => JNull
  end.

(** What is shown where: scalars as [shown] tells, in the places they have. *)
Definition mirrors (item : data) (v : json) : Prop :=
  ∀ parts x, data_at item parts = Ok x → scalar x → _at v parts = Ok (shown x).

Definition annotated (item : data) (parts : list string) (name : string) : Prop :=
  ∃ x, data_at item parts = Ok x ∧ native x = Some name.

(** The keys of mappings differ, as those of a dictionary do. *)
Fixpoint unique (v : data) : bool :=
  match v with
  | DMap _ fields => bool_decide (NoDup fields.*1) && forallb (λ f, unique f.2) fields
  | DList l => forallb unique l
  | _ => true
  end.

Definition annotate (pointer : string) (a : list string * string) : string * string := (pointer +:+ pointer_of a.1, a.2).

(** What a visit adds: the annotations of the values below the item, and one node or
    more to the count. *)
Definition visited (item : data) : Prop :=
  ∀ pointer depth count types v' count' types', visit item pointer depth count types = Ok (v', count', types') → unique item = true → 0 ≤ count →
    count < count' ≤ MAX_NODES ∧ mirrors item v' ∧
    ∃ ps, types' = types ++ (annotate pointer <$> ps) ∧ ∀ parts name, (parts, name) ∈ ps ↔ annotated item parts name.

Lemma annotate_cons pointer k (ps : list (list string * string)) :
  annotate (pointer +:+ "/" +:+ escape k) <$> ps = annotate pointer <$> ((λ a : list string * string, (k :: a.1, a.2)) <$> ps).
Proof.
  rewrite <- list_fmap_compose. apply list_fmap_ext. intros i [parts name] _. unfold annotate. cbn [compose fst snd pointer_of]. by rewrite !str_app_assoc.
Qed.

Lemma elem_below k (ps : list (list string * string)) parts name :
  (parts, name) ∈ (λ a : list string * string, (k :: a.1, a.2)) <$> ps ↔ ∃ rest, parts = k :: rest ∧ (rest, name) ∈ ps.
Proof.
  rewrite list_elem_of_fmap. split; [intros ([rest n] & [= -> ->] & H); by exists rest|]. intros (rest & -> & H). by exists (rest, name).
Qed.

Lemma visit_fields_spec pointer depth fs count types out count' types' :
  Forall (λ f, visited f.2) fs → forallb (λ f, unique f.2) fs = true → 0 ≤ count → visit_fields pointer depth fs count types = Ok (out, count', types') →
  count ≤ count' ∧ (count ≤ MAX_NODES → count' ≤ MAX_NODES) ∧ Forall2 (λ f g, g.1 = f.1 ∧ mirrors f.2 g.2) fs out ∧
  ∃ ps, types' = types ++ (annotate pointer <$> ps) ∧
    ∀ parts name, (parts, name) ∈ ps ↔ ∃ k v rest, (k, v) ∈ fs ∧ parts = k :: rest ∧ annotated v rest name.
Proof.
  intros Hf. revert count types out count' types'. induction Hf as [|[k v] fs Hv Hf IH]; intros count types out count' types' Hu Hc; cbn [visit_fields].
  - intros [= <- <- <-]. split_and!; [lia|done|constructor|]. exists []. split; [by rewrite app_nil_r|]. set_solver.
  - cbn [forallb snd] in Hu. apply andb_true_iff in Hu as [Hu1 Hu2]. destruct (visit v _ _ _ _) as [[[v' c1] t1]|] eqn:Ev; [|done].
    destruct (Hv _ _ _ _ _ _ _ Ev Hu1 Hc) as (Hc1 & Hm1 & ps1 & -> & H1). fold (visit_fields pointer depth).
    destruct (visit_fields _ _ fs _ _) as [[[out' c2] t2]|] eqn:Ef; [|done].
    intros [= <- <- <-]. assert (Hc0 : 0 ≤ c1) by lia. destruct (IH _ _ _ _ _ Hu2 Hc0 Ef) as (Hc2 & Hm & H3 & ps2 & -> & H2).
    split_and!; [lia|intros; apply Hm; lia|by constructor|].
    exists (((λ a : list string * string, (k :: a.1, a.2)) <$> ps1) ++ ps2). split; [by rewrite annotate_cons, fmap_app, <- app_assoc|].
    intros parts name. rewrite elem_of_app, elem_below, H2. split.
    + intros [(rest & -> & Hr%H1)|(k' & w & rest & Hin & -> & Hb)]; [exists k, v, rest; split; [by left|done]|exists k', w, rest; split; [by right|done]].
    + intros (k' & w & rest & [E|Hin]%elem_of_cons & -> & Hb); [injection E as -> ->; left; exists rest; split; [done|by apply H1]|right; by exists k', w, rest].
Qed.

Lemma escape_pretty (i : N) : escape (pretty i) = pretty i.
Proof.
  destruct (pretty_canonical i) as [Hc _]. assert (Hd : str_forall is_dec (pretty i) = true).
  { destruct (pretty i) as [|c s]; [done|]. cbn [canonical str_forall] in *. destruct (Ascii.eqb_spec c "0") as [->|]; [by destruct s|done]. }
  revert Hd. generalize (pretty i) as s. induction s as [|c s IH]; [done|]. cbn [str_forall escape]. intros [Hc' Hs]%andb_true_iff. rewrite (IH Hs).
  destruct (Ascii.eqb_spec c "~") as [->|]; [done|]. by destruct (Ascii.eqb_spec c "/") as [->|].
Qed.

Lemma visit_items_spec pointer depth vs i count types out count' types' :
  Forall visited vs → forallb unique vs = true → 0 ≤ count → visit_items pointer depth i vs count types = Ok (out, count', types') →
  count + Z.of_nat (length vs) ≤ count' ∧ (count ≤ MAX_NODES → count' ≤ MAX_NODES) ∧ Forall2 mirrors vs out ∧
  ∃ ps, types' = types ++ (annotate pointer <$> ps) ∧
    ∀ parts name, (parts, name) ∈ ps ↔ ∃ (j : nat) v rest, vs !! j = Some v ∧ parts = pretty (i + N.of_nat j)%N :: rest ∧ annotated v rest name.
Proof.
  intros Hf. revert i count types out count' types'. induction Hf as [|v vs Hv Hf IH]; intros i count types out count' types' Hu Hc; cbn [visit_items].
  - intros [= <- <- <-]. split_and!; [cbn; lia|done|constructor|]. exists []. split; [by rewrite app_nil_r|]. set_solver.
  - cbn [forallb] in Hu. apply andb_true_iff in Hu as [Hu1 Hu2]. destruct (visit v _ _ _ _) as [[[v' c1] t1]|] eqn:Ev; [|done].
    destruct (Hv _ _ _ _ _ _ _ Ev Hu1 Hc) as (Hc1 & Hm1 & ps1 & -> & H1). fold (visit_items pointer depth).
    destruct (visit_items _ _ _ vs _ _) as [[[out' c2] t2]|] eqn:Ef; [|done].
    intros [= <- <- <-]. assert (Hc0 : 0 ≤ c1) by lia. destruct (IH _ _ _ _ _ _ Hu2 Hc0 Ef) as (Hc2 & Hm & H3 & ps2 & -> & H2).
    split_and!; [cbn [length]; lia|intros; apply Hm; lia|by constructor|].
    exists (((λ a : list string * string, (pretty i :: a.1, a.2)) <$> ps1) ++ ps2). split.
    + rewrite fmap_app, <- app_assoc, <- annotate_cons. by rewrite escape_pretty.
    + intros parts name. rewrite elem_of_app, elem_below, H2. split.
      * intros [(rest & -> & Hr%H1)|(j & w & rest & Hin & -> & Hb)].
        -- exists 0%nat, v, rest. by rewrite N.add_0_r.
        -- exists (S j), w, rest. split; [done|]. split; [|done]. f_equal. f_equal. lia.
      * intros ([|j] & w & rest & Hin & -> & Hb).
        -- injection Hin as <-. left. exists rest. rewrite N.add_0_r. split; [done|by apply H1].
        -- right. exists j, w, rest. split; [done|]. split; [|done]. f_equal. f_equal. lia.
Qed.

(** A pointer into a scalar leads to it or nowhere. *)
Lemma at_scalar v parts x : scalar v → data_at v parts = Ok x → parts = [] ∧ x = v.
Proof. intros Hv E. destruct parts; [by injection E as <-|]. by destruct v. Qed.

Lemma visit_scalar v pointer depth count types v' count' types' :
  scalar v → visit v pointer depth count types = Ok (v', count', types') →
  v' = shown v ∧ count' = count + 1 ∧ count' ≤ MAX_NODES ∧ types' = types ++ (annotate pointer <$> option_list ((λ n, ([], n)) <$> native v)).
Proof.
  intros Hv. destruct v as [|b|n|q| |s|k iso| | |]; try done; cbn [visit]; destruct (_ || _) eqn:El; try done; apply orb_false_iff in El as [El _]; cbn [shown native].
  3: destruct (SAFE <? Z.abs n).
  all: intros [= <- <- <-]; split_and!; try done; try lia; cbn; unfold annotate; cbn; by rewrite ?str_app_nil_r, ?app_nil_r.
Qed.

Lemma visit_visited item : visited item.
Proof.
  induction item as [v Hv|l Hl|b fields Hf] using data_nested_ind; intros pointer depth count types v' count' types'.
  - intros (-> & -> & Hm & ->)%visit_scalar _ Hc; [|done]. split_and!; [lia|done| |].
    + by intros parts x [-> ->]%at_scalar _.
    + eexists. split; [done|]. intros parts name. unfold annotated. split.
      * destruct (native v) as [n|] eqn:En; cbn; [|set_solver]. intros [= -> ->]%list_elem_of_singleton. by exists v.
      * intros (x & [-> ->]%at_scalar & ->); [|done]. cbn. by left.
  - rewrite visit_list. destruct (_ || _) eqn:El; [done|]. apply orb_false_iff in El as [El _].
    destruct (visit_items _ _ _ _ _ _) as [[[out c] t]|] eqn:Ei; [|done].
    intros [= <- <- <-] Hu Hc. cbn [unique] in Hu. assert (Hc0 : 0 ≤ count + 1) by lia.
    destruct (visit_items_spec _ _ _ _ _ _ _ _ _ Hl Hu Hc0 Ei) as (H1 & H2 & Hmir & ps & -> & H3).
    split_and!; [lia|lia| |].
    + intros [|part rest] x; [by intros [= <-]|]. cbn [data_at data_step _at step_into]. rewrite <- (Forall2_length _ _ _ Hmir).
      destruct (_index part _ _) as [i|]; [|done]. destruct (l !! Z.to_nat i) as [w|] eqn:Ew; [|done].
      destruct (Forall2_lookup_l _ _ _ _ _ Hmir Ew) as (w' & -> & Hw). by apply Hw.
    + exists ps. split; [done|]. intros parts name. rewrite H3. unfold MAX_NODES in *. split.
      * intros (j & v & rest & Hj & -> & x & Hx & Hn). assert (Hlt := lookup_lt_Some _ _ _ Hj). exists x. split; [|done].
        cbn [data_at data_step]. rewrite N.add_0_l, index_pretty by lia. replace (Z.to_nat (Z.of_N (N.of_nat j))) with j by lia. by rewrite Hj.
      * intros (x & Hx & Hn). destruct parts as [|part rest]; [injection Hx as <-; done|]. cbn [data_at data_step] in Hx.
        destruct (_index part (Z.of_nat (length l)) false) as [i|] eqn:Ex; [|done].
        apply index_inv in Ex as [(_ & ? & _)|(n & -> & -> & Hlt & _)]; [done|]. destruct (l !! Z.to_nat (Z.of_N n)) as [v|] eqn:Ev; [|done].
        exists (N.to_nat n), v, rest. replace (Z.to_nat (Z.of_N n)) with (N.to_nat n) in Ev by lia. split; [done|]. rewrite N2Nat.id, N.add_0_l. split; [done|by exists x].
  - rewrite visit_map. destruct (_ || _) eqn:El; [done|]. apply orb_false_iff in El as [El _]. destruct b; [done|].
    destruct (visit_fields _ _ _ _ _) as [[[out c] t]|] eqn:Ei; [|done].
    intros [= <- <- <-] Hu Hc. cbn [unique] in Hu. apply andb_true_iff in Hu as [Hd%bool_decide_eq_true Hu].
    assert (Hc0 : 0 ≤ count + 1) by lia. destruct (visit_fields_spec _ _ _ _ _ _ _ _ Hf Hu Hc0 Ei) as (H1 & H2 & Hmir & ps & -> & H3).
    split_and!; [lia|lia| |].
    + intros [|part rest] x; [by intros [= <-]|]. cbn [data_at data_step _at step_into].
      assert (∀ w, dget part fields = Some w → ∃ w', dget part out = Some w' ∧ mirrors w w') as Hget.
      { clear -Hmir. induction Hmir as [|[k v] [k' v'] fs out [E Hv] _ IH]; [done|]. cbn in E. subst k'. intros w. cbn [dget].
        destruct (String.eqb k part); [intros [= ->]; by exists v'|apply IH]. }
      destruct (dget part fields) as [w|]; [|done]. destruct (Hget w eq_refl) as (w' & -> & Hw). by apply Hw.
    + exists ps. split; [done|]. intros parts name. rewrite H3. split.
      * intros (k & v & rest & Hin & -> & x & Hx & Hn). exists x. split; [|done]. cbn [data_at data_step]. apply dget_elem in Hin; [|done]. by rewrite Hin.
      * intros (x & Hx & Hn). destruct parts as [|part rest]; [injection Hx as <-; done|]. cbn [data_at data_step] in Hx.
        destruct (dget part fields) as [v|] eqn:Ev; [|done]. exists part, v, rest. split; [by apply dget_elem|]. split; [done|by exists x].
Qed.

(** C33: The view of a document shows every scalar where the document has it, as it is
    or, for dates, times and integers beyond 2^53-1, as their text; and it annotates
    exactly these: the pointers it reports, read as pointers, lead to such values of
    the reported types and to nothing else, whatever characters the keys contain, and
    every such value is reported. *)
Theorem json_view_pointers doc v types :
  json_view doc = Ok (v, types) → unique doc = true →
  (∀ parts x, data_at doc parts = Ok x → scalar x → _at v parts = Ok (shown x)) ∧
  ∀ parts name, (∃ x, data_at doc parts = Ok x ∧ native x = Some name) ↔ ∃ p, (p, name) ∈ types ∧ _tokens p = Ok parts.
Proof.
  unfold json_view. destruct (visit doc "" 0 0 []) as [[[v0 c] t]|] eqn:E; [|done]. intros [= <- <-] Hu.
  destruct (visit_visited doc _ _ _ _ _ _ _ E Hu (Z.le_refl 0)) as (_ & Hm & ps & -> & H). split; [exact Hm|].
  intros parts name. fold (annotated doc parts name). rewrite <- H. cbn [app]. split.
  - intros Hp. exists (pointer_of parts). split; [|apply tokens_pointer]. apply list_elem_of_fmap. by exists (parts, name).
  - intros (p & ([parts' n] & E' & Hp)%list_elem_of_fmap & Ht). unfold annotate in E'. cbn [fst snd] in E'. injection E' as -> ->.
    change ("" +:+ pointer_of parts') with (pointer_of parts') in Ht. rewrite tokens_pointer in Ht. by injection Ht as ->.
Qed.

Definition example_data : data :=
  DMap false [("a/b", DList [DInt 1; DMap false [("~", DMoment "date" "2024-05-01")]]); ("n", DInt (2 ^ 60))]%string.

Lemma json_view_pointers_witness :
  (∃ p, (p, "date"%string) ∈ [("/a~1b/1/~0", "date"); ("/n", "integer")]%string ∧ _tokens p = Ok ["a/b"; "1"; "~"]%string) ∧
  ∃ p, (p, "integer"%string) ∈ [("/a~1b/1/~0", "date"); ("/n", "integer")]%string ∧ _tokens p = Ok ["n"]%string.
Proof.
  destruct (json_view_pointers example_data
    (JObj [("a/b", JList [JInt 1; JObj [("~", JStr "2024-05-01")]]); ("n", JStr "1152921504606846976")]%string)
    [("/a~1b/1/~0", "date"); ("/n", "integer")]%string) as [_ H]; [vm_compute; reflexivity|vm_compute; reflexivity|]. split.
  - apply H. eexists. split; vm_compute; reflexivity.
  - apply H. eexists. split; vm_compute; reflexivity.
Defined.
